(* ===== verification/_CoqProject ===== *)
-Q . S2P
Prelude.v
Interleave.v
CBData.v
OutcomeWindow.v
CBInterface.v
CBRepo.v
CBService.v
CBTokens.v
CBRules.v
CBEvents.v
CBSafety.v
CBBlock.v
CBLifecycle.v
DLQRepo.v
DLQInv.v
DLQReplay.v
DLQQueries.v
DLQEvict.v
DLQPaging.v
Domains.v
ReplayLanes.v
TimeWindow.v
SlidingCounter.v
CooldownGate.v
TokenBucket.v
Bulkhead.v
BulkheadProtocol.v
Backoff.v
Retry.v
RateLimitTracker.v
CBProtection.v
MemoryCache.v
IdempotencyGate.v
Policy.v
CBPolicy.v
Composer.v
Protect.v
AuditLedger.v
AuditChain.v
AuditVerify.v
AuditTrail.v
AuditTamper.v
DepGraph.v
CellRing.v
CellEvacuation.v
EventBus.v
Shutdown.v
CacheLock.v
