(* ===== verification/Prelude.v ===== *)
(** * Baldur: a verification development for the resilience core

    Baldur ([src/src/baldur/]) keeps services alive around failing dependencies.
    This development models the parts that carry the state the others consult:
    the circuit breaker, which decides whether a call may go out and learns from
    its outcome; the dead-letter queue, which stores failed operations and hands
    them out for replay; the mechanisms a protected call passes through, its
    rate limits, its seat in a bulkhead, its retries, its idempotency claim and
    the policies composed around it; the audit trail, in which what happened
    cannot be altered unnoticed; the cells traffic is routed to and their
    evacuation; the graph of service dependencies; the bus through which the
    parts announce what they do; and the shutdown that drains a process.

    ** The program's parts and the files that model them

    Circuit breaker.  A caller asks [CircuitBreakerService.should_allow], makes
    its call and reports [record_success] or [record_failure]; operators force
    circuits open or closed; a sweep moves waiting circuits to HALF_OPEN and
    lifts lapsed overrides; an emergency level freezes every automatic
    transition.  The service keeps no circuit itself: rows live in a repository
    that other threads and processes share, and the recent outcomes of each name
    in a window.

    - [CBData]: rows, states, the manual-pin rule, configuration, results
      ([interfaces/repositories.py], [services/circuit_breaker/config.py], the
      predicates of [manual_control.py]).
    - [OutcomeWindow]: [services/circuit_breaker/outcome_window.py], the rings,
      the epochs and the writes in flight, and [evaluate_trip] in binary64.
    - [CBInterface]: the repository interface of [interfaces/repositories.py] as
      a type class of operations, its laws, and the abstract machine (a function
      from names to what a caller can see) the laws describe.
    - [CBRepo]: [adapters/memory/circuit_breaker.py], every method, with the
      proof that it satisfies the laws.
    - [CBService]: [services/circuit_breaker/service.py] and
      [manual_control.py], one program per method over an abstract repository;
      the freeze decision of [freeze_mode.py] on the levels of
      [models/emergency.py]; composite names of [core/cb_namespace.py].
    - [CBTokens], [CBRules]: what each repository call does to the state of one
      circuit, and the proof rules the next four files share.
    - [CBEvents], [CBSafety], [CBBlock]: theorems about all interleavings.
    - [CBLifecycle]: what a call does when nobody interferes.

    Dead-letter queue.  Failed operations are created PENDING, acquired for
    replay, completed or released, archived and purged; a size cap evicts the
    oldest.

    - [DLQRepo]: [adapters/memory/failed_operation.py], every method, and the
      entry, page and cursor of [interfaces/repositories.py].
    - [DLQInv]: the representation invariant and that every operation keeps it.
    - [DLQReplay], [DLQQueries], [DLQEvict], [DLQPaging]: the theorems.
    - [Domains]: [utils/domain_validation.py] and the label projection of
      [metrics/registry.py]: the name an entry's domain is stored under.
    - [ReplayLanes]: the lanes, the two fill rounds and the cursor roll-back of
      [services/replay_service/service.py], above the queue.

    Around a call.

    - [TimeWindow]: [services/circuit_breaker/time_outcome_window.py], the rings
      of ten-second buckets behind the five-minute failure rates.
    - [SlidingCounter], [CooldownGate], [TokenBucket]: the three primitives of
      [core/rate_limiting.py], and the limiter of
      [services/rate_limit/sliding_window.py] over the first.
    - [Bulkhead], [BulkheadProtocol]: [services/bulkhead/semaphore.py]; the
      critical sections as functions on the state, then the lock, the pending
      list and the wake-ups as a step relation over any number of callers.
    - [Backoff], [Retry]: [core/backoff.py], the strategies
      [services/retry_handler/models.py] builds, the retry budget of
      [services/backoff_calculator/budget.py]; [core/retry.py] and
      [RetryPolicy.execute] of [services/retry_handler/policy.py].
    - [RateLimitTracker], [CBProtection]:
      [services/circuit_breaker/rate_limit_tracker.py] (memory, with a shared
      store as a parameter) and [protection.py], as programs over the breaker's
      world extended by the tracker ([Interleave], section [zoom]).
    - [MemoryCache], [CacheLock], [IdempotencyGate]:
      [adapters/cache/memory_adapter.py], its store and its locks, and
      [core/idempotency_gate.py], the gate as programs over the cache.

    Policies and the facade.

    - [Policy]: what policies exchange ([interfaces/resilience_policy.py]), the
      classification of errors, and programs that may raise or be interrupted.
    - [CBPolicy]: [services/circuit_breaker/policy.py] with the observation scopes
      of [rate_limit_observation.py], as programs over the breaker's world.
    - [Composer]: [resilience/policies/composer.py] and [fallback.py]: guards,
      the nested policies, the fallback signal, hooks and sinks.
    - [Protect]: the synchronous [protect] of [protect_facade.py], where the
      breaker's theorems and the composer's meet.

    Audit trail.

    - [AuditLedger]: rows, fingerprints ([audit/integrity/models.py]) and the
      reader of the ledger's tail ([ledger_tail.py]).
    - [AuditChain]: the numbering and linking of entries ([local_manager.py]) by
      processes that share a directory, and their appends
      ([adapters/audit/hashchain_adapter.py]).
    - [AuditVerify]: [audit/integrity/verifier.py].
    - [AuditTrail], [AuditTamper]: the theorems.

    Placement, dependencies, announcements and shutdown.

    - [DepGraph]: [core/dependency_graph.py], every method.
    - [CellRing]: [services/cell_topology/registry.py] and [models.py]: the hash
      ring, the states of cells and their reconciliation with the shared store.
    - [CellEvacuation]: [services/cell_topology/policy.py], the state machine
      that drains, isolates and restores the cells of [CellRing].
    - [EventBus]: the in-memory bus of [services/event_bus/bus/] and the emitting
      side ([emitter.py]).
    - [Shutdown]: [core/shutdown_coordinator.py]: the request tracker, and the
      initiating thread, the drain thread and the signal handler as atomic moves
      on a shared configuration.

    [Prelude] (this file) has dictionaries, binary64 arithmetic, sorting and
    shared tactics; [Interleave] has the programs, their interleavings and the
    proof rules for them: invariants, rely-guarantee, and the transport of a
    theorem about a component's programs to a larger world.

    ** How state and operations correspond to the code

    A method that runs under one lock is a function on its object's record,
    returning the new record and the result; where the code raises, the result
    is a sum.  Clock readings are arguments; the readings within one critical
    section coincide.  Where the code reads the clock before it takes the lock
    ([TimeWindow]), the readings of successive sections need not be in order.  A service method makes several such calls, and other
    threads may run between any two of them: it is a program ([Interleave.eprog])
    whose atomic actions are the calls, the clock readings and the log entries
    (events, audit lines, metrics), composed as the code composes them, early
    returns and handlers included.  The world of the service
    ([CBService.world]) is the shared repository, the window, the threshold
    overrides, the clock, the emergency level, the event bus (up, absent or
    raising) and the log; what is not the service's own may also change between
    actions ([CBService.outside]).  The
    service is a section over the repository class, so its theorems hold for
    every implementation that follows the laws; [CBRepo.in_memory_laws] is one.
    A Python dict is an association list in insertion order; a Python set is a
    [gset], and the order in which it is iterated is a parameter.  Times are
    microseconds.  Retry counts, thresholds and counters are unbounded integers,
    as in the source; only rates are floating point, and they are computed in
    binary64 with [SpecFloat].

    ** What the theorems show

    - All interleavings of service calls: every transition is handed to the event
      bus exactly once, and is announced whenever the bus is there to take it
      ([CBEvents.transitions_announced_exactly_once]; not among these calls are
      the extension of an override and the cell reconciliation, which move rows
      unannounced, as two theorems of [CBBlock] show); traffic moves a
      circuit along the four edges of its state machine only
      ([CBSafety.traffic_follows_edges]); a freeze holds every circuit
      ([CBSafety.freeze_holds_every_circuit]); an operator's block holds against
      every automatic call that begins under it
      ([CBBlock.operator_block_holds]).
    - The limits of that: schedules in which a call that began earlier overrides
      an operator or raises ([CBBlock]).
    - A call on its own: admission, failure and success follow three pure rules
      on the row ([CBLifecycle]), and a block lasts until its expiry.
    - The in-memory repository refines the documented contract but for one
      branch, the slot acquire, which does not heed an operator's override as the
      interface says ([CBRepo.acquire_ignores_override]); trips have one winner, a
      trial window admits exactly its limit, a pin shields automatic writes
      ([CBRepo]).
    - The window's evidence is bounded, its lock-free success path and its
      epochs are exact, and its rate test is right at the shipped threshold and
      wrong at others ([OutcomeWindow]).
    - The queue: every reachable store is well-formed ([DLQInv]); acquisition is
      exclusive, the retry count is a ledger, a failing entry reaches review
      after exactly its budget ([DLQReplay]); searches through the indexes and
      the counts and facets are exact ([DLQQueries]); eviction takes the oldest
      and spares work in flight, the compressing eviction does not
      ([DLQEvict]); the paged selection returns every replayable entry exactly
      once, also while the store changes ([DLQPaging]).
    - A recovery pass selects what fits, and one that is cut resumes exactly at
      its first unprocessed entries, whatever ran in between ([ReplayLanes]);
      stored domain names are normal forms, and validation accepts dotted
      identifiers and, against its intent, a trailing newline ([Domains]).

    - Around a call: the five-minute window counts what it promises when clock
      readings reach the lock in the order of their buckets, and loses a failure
      otherwise ([TimeWindow]); limits, cooldowns and token grants are never
      exceeded and their reads are exact, for the counter's limit provided no
      call on it uses a shorter window ([SlidingCounter], [CooldownGate],
      [TokenBucket]); the bulkhead never exceeds its seats, and a free seat finds
      a woken waiter that takes it while event loops keep running or stay stopped
      ([BulkheadProtocol]); delays stay within their cap, the result of a retried
      call, its value, error and reason for stopping, is determined by what the
      loop saw, and its sleeps stay within its budget ([Backoff],
      [Retry]); protection yields to operators and freezes and announces what it
      trips ([CBProtection]); claims of one idempotency key are exclusive and a
      completed one is final ([IdempotencyGate]); a lock is held exclusively until
      its timeout ([CacheLock]).

    - Policies: in every interleaving a protected call announces what it changes
      and never starts a blocked function, for functions that leave the breaker's
      state alone; alone it follows the admission and recording rules
      ([CBPolicy]); a composed pipeline never raises an exception
      and calls its function at most once ([Composer]); a refused call is
      answered by its fallback ([Protect]).
    - The audit trail: however processes interleave, are replaced between rows or
      lose the state file while no row is on its way, a trail of plain entries
      verifies and the tail reader finds its highest row ([AuditTrail]); a trail
      with a chained entry that verifies is what the writers made, up to where it
      ends ([AuditTamper]).
    - Dependencies: the cascade of an outage is reachability, the order of
      recovery respects the dependencies that lead into no cycle ([DepGraph]).
    - Cells: keys go to cells that take them, state changes and added cells move
      only the keys they must, replicas that saw the same versions converge, and
      one that boots late does not ([CellRing]); an evaluation is a step of the
      state machine, a drain takes exactly its time, evacuations need a streak of
      bad scores and stay within the shipped limit ([CellEvacuation]).
    - The bus: its state stays well-formed whatever handlers do through its
      methods, a publication is dispatched to every enabled subscription once and
      in order (a saturated pool may cancel one that never started), a new
      handler is placed by its priority ([EventBus]).
    - Shutdown: in every interleaving the requests drained and aborted are those
      there were, handlers are told once and in order, the drain ends within a
      bound on its steps, and only a signal ends the process ([Shutdown]).
    - Where the code falls short of what it says, a theorem shows it at a
      concrete state; these theorems stand at the end of their files.

    ** Bounds and fuel

    Most loops of the modelled code run over a finite collection or a given
    number of attempts and need no fuel; the binary search of
    [SlidingCounter] recurses on the length of its interval.
    [TokenBucket.wait_loop] polls until a deadline and has fuel:
    [TokenBucket.wait_for_token_returns] shows how much is enough; so has
    [CacheLock.acquire_loop] ([CacheLock.acquire_returns]).  Delays,
    token counts and retry times are rationals where the source has floats.
    The paged walk is bounded by the number of pages asked for, and
    [DLQPaging.walk_covers_store] shows that as many pages as there are entries
    are enough.  The windows up to the shipped size of 100 for which the
    binary64 test is compared with the rational one are checked exhaustively, and
    so are the fleets of up to 64 cells behind
    [CellEvacuation.quarter_limit_holds].  The traversals of [DepGraph] have as
    fuel the number of services and one more, which its theorems show to be
    enough for every graph; its depth-tagged traversal is bounded by the depth
    asked for.  The binary search of [CellRing] recurses on the length of its
    interval.  The tail reader of [AuditLedger] doubles its window; nine windows
    reach its largest ([AuditLedger.windows_suffice]).  [AuditTrail] assumes rows
    of bounded length and at most 32 writers, as the reader's constants do.

    ** What is not modelled

    Circuit breaker: the building of the configuration from settings, the
    health summaries, the asynchronous twins of the policies, and the layered,
    Redis and SQL repositories, whose steps run in external stores (the contract
    they implement is modelled).  Dead-letter queue: the execution of replays, the
    capture, outbox and read services, the Redis and SQL stores.  Around a call:
    the thread-pool and adaptive bulkheads, the coordination of rate limits
    between processes, the idempotency service above the gate, and the timeout,
    retry and idempotency stages of the facade, which are parameters of
    [Protect].  Audit: the Redis chain, pending sequences, anchors, the
    write-ahead log, queries and the check of a recent window.  Cells: the
    measurement of health, request tagging, the isolation gate, blast radius and
    regional emergency.  Events: the Redis bus, the journal, the default
    handlers and the life of the thread pool.  Shutdown: that a signal handler
    runs on the very thread it interrupts.  Settings, metrics, notifications,
    framework adapters and bootstrap are wiring.  Texts of log lines and reasons
    are left out or parameters; JSON text is not modelled (a line is its size and
    what it parses to), hash functions and signatures are arbitrary
    parameters (that nobody without the key makes a valid signature is a
    hypothesis of [AuditTamper]), and strings are ASCII in [Domains]. *)

From stdpp Require Export base tactics option list strings gmap.
From Stdlib Require Export ZArith Lia Sorted.
From Stdlib Require Import SpecFloat.

#[global] Open Scope Z_scope.

(** ** Python dictionaries

    A Python [dict] is an insertion-ordered map with unique keys: assigning to a
    present key keeps its position, assigning to an absent one appends, and
    [values()] / [items()] iterate in that order.  [gmap] forgets the order, so
    a dict is an association list here; [dict_wf] (no key twice) is its
    invariant. *)
Definition dict (K V : Type) : Type := list (K * V).

Section dict_ops.
  Context {K V : Type} `{EqDecision K}.

(** [d.get(k)] *)
Fixpoint dget (d : dict K V) (k : K) : option V :=
  match d with
  | [] => None
  | (k', v) :: d' => if decide (k' = k) then Some v else dget d' k
  end.

(** [d[k] = v] *)
Fixpoint dset (d : dict K V) (k : K) (v : V) : dict K V :=
  match d with
  | [] => [(k, v)]
  | (k', v') :: d' =>
      if decide (k' = k) then (k, v) :: d' else (k', v') :: dset d' k v
  end.

(** [d.pop(k, None)] / [del d[k]] *)
Fixpoint ddel (d : dict K V) (k : K) : dict K V :=
  match d with
  | [] => []
  | (k', v') :: d' => if decide (k' = k) then ddel d' k else (k', v') :: ddel d' k
  end.

Definition dkeys (d : dict K V) : list K := d.*1.
Definition dvals (d : dict K V) : list V := d.*2.
Definition dict_wf (d : dict K V) : Prop := NoDup (dkeys d).

Lemma dget_dset_eq d k v : dget (dset d k v) k = Some v.
Proof.
  induction d as [|[k' v'] d IH]; simpl.
  - by rewrite decide_True.
  - case_decide; simpl; [by rewrite decide_True|by rewrite decide_False].
Qed.

Lemma dget_dset_ne d k k' v : k ≠ k' → dget (dset d k v) k' = dget d k'.
Proof.
  intros Hne. induction d as [|[k1 v1] d IH]; simpl.
  - by rewrite decide_False.
  - repeat case_decide; simpl; repeat case_decide; congruence.
Qed.

Lemma dget_dset d k k' v :
  dget (dset d k v) k' = if decide (k = k') then Some v else dget d k'.
Proof. case_decide; subst; [apply dget_dset_eq|by apply dget_dset_ne]. Qed.

Lemma dget_ddel_eq d k : dget (ddel d k) k = None.
Proof.
  induction d as [|[k' v'] d IH]; simpl; [done|].
  case_decide; [done|]. simpl. by rewrite decide_False.
Qed.

Lemma dget_ddel_ne d k k' : k ≠ k' → dget (ddel d k) k' = dget d k'.
Proof.
  intros Hne. induction d as [|[k1 v1] d IH]; simpl; [done|].
  repeat case_decide; simpl; repeat case_decide; congruence.
Qed.

Lemma dget_ddel d k k' :
  dget (ddel d k) k' = if decide (k = k') then None else dget d k'.
Proof. case_decide; subst; [apply dget_ddel_eq|by apply dget_ddel_ne]. Qed.

Lemma elem_of_dkeys d k : k ∈ dkeys d ↔ is_Some (dget d k).
Proof.
  induction d as [|[k' v'] d IH]; simpl.
  - rewrite elem_of_nil. split; [done|]. by intros [? ?].
  - rewrite elem_of_cons, IH. case_decide; subst; [|naive_solver].
    split; eauto.
Qed.

Lemma dkeys_dset_Some d k v : is_Some (dget d k) → dkeys (dset d k v) = dkeys d.
Proof.
  intros [v0 Hv]. induction d as [|[k' v'] d IH]; simpl in *; [done|].
  case_decide; simpl; [congruence|]. unfold dkeys in *. by rewrite IH.
Qed.

Lemma dkeys_dset_None d k v : dget d k = None → dkeys (dset d k v) = dkeys d ++ [k].
Proof.
  intros Hv. induction d as [|[k' v'] d IH]; simpl in *; [done|].
  case_decide; simpl; [congruence|]. unfold dkeys in *. by rewrite IH.
Qed.

Lemma dkeys_ddel d k : dkeys (ddel d k) = filter (λ k', k' ≠ k) (dkeys d).
Proof.
  induction d as [|[k' v'] d IH]; simpl; [done|].
  rewrite filter_cons. repeat case_decide; subst; simpl; try done.
  unfold dkeys in *. by rewrite IH.
Qed.

Lemma dict_wf_dset d k v : dict_wf d → dict_wf (dset d k v).
Proof.
  unfold dict_wf. intros Hd. destruct (dget d k) eqn:Hk.
  - rewrite dkeys_dset_Some; eauto.
  - rewrite dkeys_dset_None by done. apply NoDup_app. split_and!; [done| |].
    + intros x Hx ->%list_elem_of_singleton. apply elem_of_dkeys in Hx as [? ?]. congruence.
    + apply NoDup_singleton.
Qed.

Lemma dict_wf_ddel d k : dict_wf d → dict_wf (ddel d k).
Proof. unfold dict_wf. rewrite dkeys_ddel. apply NoDup_filter. Qed.

Lemma dict_wf_nil : dict_wf [].
Proof. constructor. Qed.

Lemma elem_of_dict d k v : dict_wf d → (k, v) ∈ d ↔ dget d k = Some v.
Proof.
  unfold dict_wf. induction d as [|[k' v'] d IH]; simpl; intros Hwf.
  - rewrite elem_of_nil. naive_solver.
  - apply NoDup_cons in Hwf as [Hni Hwf]. rewrite elem_of_cons, (IH Hwf).
    case_decide; subst; [|naive_solver].
    split; [intros [?|Hg]; [naive_solver|]|naive_solver].
    exfalso. apply Hni, elem_of_dkeys. eauto.
Qed.
End dict_ops.

(** [list(d.values())] up to content: what iterating a well-formed dict visits. *)
Lemma elem_of_dvals {K V} `{EqDecision K} (d : dict K V) v :
  dict_wf d → v ∈ dvals d ↔ ∃ k, dget d k = Some v.
Proof.
  intros Hwf. unfold dvals. rewrite list_elem_of_fmap. split.
  - intros [[k v'] [-> Hin]]. exists k. by apply elem_of_dict.
  - intros [k Hk]. exists (k, v). split; [done|]. by apply elem_of_dict.
Qed.

Create HintDb dict.
Create Rewrite HintDb dict.
#[export] Hint Rewrite @dget_dset_eq @dget_ddel_eq : dict.
#[export] Hint Rewrite @dget_dset_ne @dget_ddel_ne using (first [done|congruence]) : dict.
#[export] Hint Resolve dict_wf_dset dict_wf_ddel dict_wf_nil : dict.

(** ** Binary64 arithmetic

    Python's [float] is IEEE binary64.  [SpecFloat] is Rocq's executable, axiom
    free definition of it.  [int / int] in Python is the correctly rounded
    quotient; for operands that are themselves exactly representable (below
    2^53, which every counter here is) that is [SFdiv] of the two conversions. *)
Definition float := spec_float.
Definition fl_prec : Z := 53.
Definition fl_emax : Z := 1024.
Definition fl_of_Z (z : Z) : float := binary_normalize fl_prec fl_emax z 0 false.
Definition fl_div (a b : float) : float := SFdiv fl_prec fl_emax a b.
Definition fl_mul (a b : float) : float := SFmul fl_prec fl_emax a b.
Definition fl_leb (a b : float) : bool := SFleb a b.
Definition fl_ltb (a b : float) : bool := SFltb a b.

(** ** Values of untyped Python dictionaries ([dict[str, Any]]) *)
Inductive pyval : Type :=
| VNone
| VBool (b : bool)
| VInt (z : Z)
| VStr (s : string)
| VOther (tag : nat).

#[export] Instance pyval_eq_dec : EqDecision pyval.
Proof. solve_decision. Defined.

(** ** Time: [datetime] values are exact microsecond counts *)
Definition US_PER_SECOND : Z := 1000000.
Definition seconds (n : Z) : Z := n * US_PER_SECOND.
Definition minutes (n : Z) : Z := seconds (60 * n).
Definition days (n : Z) : Z := minutes (1440 * n).

(** ** Small list and option facts *)
Definition Zlength {A} (l : list A) : Z := Z.of_nat (length l).
Definition Zsum (l : list Z) : Z := foldr Z.add 0 l.

Lemma Zsum_app l1 l2 : Zsum (l1 ++ l2) = Zsum l1 + Zsum l2.
Proof. induction l1 as [|x l1 IH]; simpl; [lia|]. rewrite IH. lia. Qed.

Lemma Zlength_app {A} (l1 l2 : list A) : Zlength (l1 ++ l2) = Zlength l1 + Zlength l2.
Proof. unfold Zlength. rewrite length_app. lia. Qed.

Lemma Zlength_nonneg {A} (l : list A) : 0 <= Zlength l.
Proof. unfold Zlength. lia. Qed.

Lemma length_ddel {K V} `{EqDecision K} (d : dict K V) k :
  dict_wf d → is_Some (dget d k) → Zlength (ddel d k) = Zlength d - 1.
Proof.
  unfold dict_wf, Zlength. induction d as [|[k' v'] d IH]; simpl; [by intros _ [? ?]|].
  intros [Hni Hd]%NoDup_cons. case_decide as Hk; [|simpl; intros Hs; specialize (IH Hd Hs); lia].
  intros _. subst. assert (ddel d k = d) as ->; [|lia]. clear IH Hd.
  induction d as [|[k1 v1] d IH]; simpl in *; [done|]. rewrite decide_False by set_solver.
  rewrite IH; [done|set_solver].
Qed.

Lemma filter_sublist {A} (p : A → bool) (l : list A) : sublist (List.filter p l) l.
Proof. induction l as [|x l IH]; simpl; [constructor|]. destruct (p x); by constructor. Qed.

(** How many elements satisfy a test. *)
Definition countb {A} (p : A → bool) (l : list A) : Z := Zlength (List.filter p l).

Lemma countb_cons {A} (p : A → bool) o l : countb p (o :: l) = (if p o then 1 else 0) + countb p l.
Proof. unfold countb, Zlength. simpl. destruct (p o); simpl; lia. Qed.

Lemma countb_nonneg {A} (p : A → bool) l : 0 <= countb p l.
Proof. apply Zlength_nonneg. Qed.

Lemma countb_ext {A} (p q : A → bool) l : (∀ o, o ∈ l → p o = q o) → countb p l = countb q l.
Proof.
  induction l as [|o l IH]; intros H; [done|]. rewrite !countb_cons, IH, H; [done|by left|].
  intros; apply H; by right.
Qed.

Lemma countb_app {A} (p : A → bool) l1 l2 : countb p (l1 ++ l2) = countb p l1 + countb p l2.
Proof. induction l1 as [|x l1 IH]; cbn [app]; [done|]. rewrite !countb_cons, IH. lia. Qed.

Lemma countb_zero {A} (p : A → bool) l : countb p l = 0 ↔ ∀ o, o ∈ l → p o = false.
Proof.
  induction l as [|o l IH]; [split; [by intros _ o ?%elem_of_nil|done]|].
  rewrite countb_cons. pose proof (countb_nonneg p l). split.
  - intros H1 o' [->|Ho]%elem_of_cons; destruct (p o) eqn:E; try lia; try done.
    apply IH; [lia|done].
  - intros H1. rewrite H1 by (by left). apply IH. intros. apply H1. by right.
Qed.

Lemma countb_pos {A} (p : A → bool) l : 0 < countb p l ↔ ∃ o, o ∈ l ∧ p o = true.
Proof.
  induction l as [|o l IH]; [split; [done|by intros (?&?%elem_of_nil&?)]|].
  rewrite countb_cons. pose proof (countb_nonneg p l). split.
  - destruct (p o) eqn:E; [exists o; split; [by left|done]|].
    intros H1. apply IH in H1 as (o'&?&?); [|lia..]. exists o'. split; [by right|done].
  - intros (o'&[->|Ho]%elem_of_cons&Hp); [rewrite Hp; lia|].
    assert (0 < countb p l) by (apply IH; eauto). destruct (p o); lia.
Qed.

Lemma countb_mono {A} (p q : A → bool) l : (∀ o, o ∈ l → p o = true → q o = true) → countb p l <= countb q l.
Proof.
  induction l as [|o l IH]; intros H; [done|]. rewrite !countb_cons.
  assert (countb p l <= countb q l) by (apply IH; intros; apply H; [by right|done]).
  pose proof (H o ltac:(by left)). destruct (p o), (q o); intuition (lia || congruence).
Qed.

Lemma Zsum_map_ext {A} (f g : A → Z) l : (∀ i, i ∈ l → f i = g i) → Zsum (map f l) = Zsum (map g l).
Proof.
  induction l as [|i l IH]; intros H; simpl; [done|]. rewrite H, IH; [done| |by left].
  intros; apply H; by right.
Qed.

Lemma Zsum_map_add {A} (f g : A → Z) l :
  Zsum (map (λ i, f i + g i) l) = Zsum (map f l) + Zsum (map g l).
Proof. induction l as [|i l IH]; simpl; lia. Qed.

Lemma Zsum_indicator k n (c : Z) :
  (k < n)%nat → Zsum (map (λ i, if Nat.eqb i k then c else 0) (seq 0 n)) = c.
Proof.
  induction n as [|n IH]; intros Hk; [lia|].
  rewrite seq_S, map_app, Zsum_app. simpl. destruct (Nat.eqb_spec n k) as [->|Hne].
  - rewrite (Zsum_map_ext _ (λ _, 0)).
    + assert (Zsum (map (λ _ : nat, 0) (seq 0 k)) = 0); [|lia]. clear.
      generalize (seq 0 k). intros l. induction l; simpl; lia.
    + intros i Hi%elem_of_seq. destruct (Nat.eqb_spec i k); [lia|done].
  - rewrite IH by lia. lia.
Qed.

(** ** Sorting by a key

    Python's [list.sort(key=...)] is stable; so is this insertion sort (an
    element goes before the ones with an equal key that came after it). *)
Fixpoint insert_by {A} (key : A → Z) (x : A) (l : list A) : list A :=
  match l with
  | [] => [x]
  | y :: l' => if key x <=? key y then x :: l else y :: insert_by key x l'
  end.

Definition sort_by {A} (key : A → Z) (l : list A) : list A := foldr (insert_by key) [] l.

Lemma insert_by_perm {A} (key : A → Z) x l : insert_by key x l ≡ₚ x :: l.
Proof.
  induction l as [|y l IH]; simpl; [done|]. case_match; [done|].
  rewrite IH. apply Permutation_swap.
Qed.

Lemma sort_by_perm {A} (key : A → Z) l : sort_by key l ≡ₚ l.
Proof. induction l as [|x l IH]; simpl; [done|]. by rewrite insert_by_perm, IH. Qed.

Lemma insert_by_sorted {A} (key : A → Z) x l :
  Sorted (λ a b, key a <= key b) l → Sorted (λ a b, key a <= key b) (insert_by key x l).
Proof.
  induction l as [|y l IH]; intros Hs; simpl; [by repeat constructor|].
  case_match eqn:E; [constructor; [done|constructor; by apply Z.leb_le]|].
  apply Sorted_inv in Hs as [Hs Hy]. constructor; [by apply IH|].
  apply Z.leb_gt in E. destruct l as [|z l]; simpl; [constructor; lia|].
  inversion Hy. case_match; constructor; lia.
Qed.

Lemma sort_by_sorted {A} (key : A → Z) l : Sorted (λ a b, key a <= key b) (sort_by key l).
Proof. induction l; simpl; [constructor|]. by apply insert_by_sorted. Qed.

Lemma filter_all {A} (p : A → bool) l : (∀ y, y ∈ l → p y = true) → List.filter p l = l.
Proof. induction l as [|y l IH]; intros H; cbn; [done|]. rewrite H by (by left). f_equal. apply IH. set_solver. Qed.

Lemma filter_none {A} (p : A → bool) l : (∀ y, y ∈ l → p y = false) → List.filter p l = [].
Proof. induction l as [|y l IH]; intros H; cbn; [done|]. rewrite H by (by left). apply IH. set_solver. Qed.

Lemma insert_by_above {A} (key : A → Z) x l : (∀ y, y ∈ l → key x <= key y) → insert_by key x l = x :: l.
Proof. destruct l as [|y l]; intros H; [done|]. cbn. by rewrite (proj2 (Z.leb_le _ _) (H y ltac:(by left))). Qed.

Lemma filter_insert_by {A} (key : A → Z) (p : A → bool) x l :
  StronglySorted (λ a b, key a <= key b) l →
  List.filter p (insert_by key x l) = if p x then insert_by key x (List.filter p l) else List.filter p l.
Proof.
  induction 1 as [|y l Hs IH Hy]; cbn; [by destruct (p x)|].
  destruct (Z.leb_spec (key x) (key y)); cbn; [|rewrite IH; destruct (p x), (p y); cbn; try done;
    by rewrite (proj2 (Z.leb_gt _ _)) by done].
  destruct (p x) eqn:Ex; [|done]. destruct (p y); cbn; [by rewrite (proj2 (Z.leb_le _ _))|].
  symmetry. apply insert_by_above. intros z Hz%list_elem_of_In%filter_In.
  rewrite Forall_forall in Hy. transitivity (key y); [done|]. apply Hy, list_elem_of_In, Hz.
Qed.

Lemma sort_by_strongly {A} (key : A → Z) l : StronglySorted (λ a b, key a <= key b) (sort_by key l).
Proof. apply Sorted_StronglySorted; [|apply sort_by_sorted]. intros a b c ? ?. lia. Qed.

(** The sort is stable: it commutes with a selection. *)
Lemma filter_sort_by {A} (key : A → Z) (p : A → bool) l :
  List.filter p (sort_by key l) = sort_by key (List.filter p l).
Proof.
  induction l as [|x l IH]; [done|]. cbn [sort_by foldr]. change (foldr (insert_by key) [] l) with (sort_by key l).
  rewrite filter_insert_by, IH by apply sort_by_strongly. cbn. by destruct (p x).
Qed.

(** A strongly sorted list, cut in two. *)
Section sorted.
  Context {A : Type} (R : A → A → Prop) `{!Reflexive R}.

Lemma sorted_split (l : list A) n x y :
  StronglySorted R l → x ∈ take n l → y ∈ drop n l → R x y.
Proof.
  intros Hs. revert n. induction Hs as [|z l Hs IH Hz]; intros [|n]; simpl; intros Hx Hy;
    [by apply elem_of_nil in Hx..|].
  apply elem_of_cons in Hx as [->|Hx]; [|by eapply IH].
  rewrite Forall_forall in Hz. apply Hz.
  rewrite <-(take_drop n l). apply elem_of_app. by right.
Qed.

Lemma sorted_last (l : list A) x z : StronglySorted R l → last l = Some z → x ∈ l → R x z.
Proof.
  intros Hs Hl Hx. apply last_Some in Hl as [l' ->].
  apply elem_of_app in Hx as [Hx| ->%list_elem_of_singleton]; [|done].
  apply (sorted_split (l' ++ [z]) (length l')); [done| |].
  - by rewrite take_app_length.
  - rewrite drop_app_length. by left.
Qed.

Lemma sorted_take (l : list A) n : StronglySorted R l → StronglySorted R (take n l).
Proof.
  intros Hs. revert n. induction Hs as [|z l Hs IH Hz]; intros [|n]; simpl; try constructor; auto.
  rewrite Forall_forall in *. intros x Hx. apply Hz. rewrite <-(take_drop n l). apply elem_of_app. by left.
Qed.
End sorted.

(** [l[:n]]; a negative bound counts from the end. *)
Definition py_take {A} (n : Z) (l : list A) : list A :=
  if n <? 0 then take (length l - Z.to_nat (- n)) l else take (Z.to_nat n) l.

(** [l[-n:]]; a bound of 0 keeps everything. *)
Definition py_last {A} (n : Z) (l : list A) : list A :=
  if 0 <? n then drop (length l - Z.to_nat n) l else drop (Z.to_nat (- n)) l.

(** [l if limit is None else l[:limit]] *)
Definition take_limit {A} (limit : option Z) (l : list A) : list A :=
  match limit with None => l | Some n => py_take n l end.

(** ** Timed histories

    Calls with the clock readings they made; the clock does not run backwards
    from [t] on, and [now] is not before the last call. *)
Fixpoint clocked {A} (t : Z) (calls : list (Z * A)) (now : Z) : Prop :=
  match calls with
  | [] => t <= now
  | (t', _) :: calls' => t <= t' ∧ clocked t' calls' now
  end.

(** An invariant that time does not break and every call keeps. *)
Lemma clocked_invariant {A S} (step : S → Z * A → S) (I : Z → S → Prop) (P : Z → A → Prop) t s calls now :
  (∀ t t' s, I t s → t <= t' → I t' s) →
  (∀ t s op, I t s → P t op → I t (step s (t, op))) →
  I t s → clocked t calls now → Forall (λ c, P c.1 c.2) calls → I now (foldl step s calls).
Proof.
  intros Hlater Hstep. revert t s. induction calls as [|[t' op] calls IH]; intros t s Hi; simpl.
  - intros. by eapply Hlater.
  - intros [Hle Hc] [Hp Hps]%Forall_cons. apply (IH t'); [|done|done].
    apply Hstep; [by eapply Hlater|done].
Qed.

(** ** Proof automation *)

(** Case analysis on every [if]/[match] of the goal and the hypotheses. *)
Ltac branches := repeat (first [case_bool_decide | case_decide | case_match]; simplify_eq/=).

(** Close the goals a component's case analysis leaves. *)
Ltac finish := try (solve [done | lia | congruence | eauto with dict | set_solver]).
