(* ===== verification/Interleave.v ===== *)
(** * Programs made of atomic actions, and their interleavings

    Baldur's components are called from many threads.  Each primitive of a
    component runs under one lock, so it is one atomic step; a service method is
    a program that performs several of them, and between two of its steps any
    other thread may run.  [prog] is such a program, [run] executes it without
    interference, [step] is one step of a pool of threads sharing a world, and
    [wp] is the interference-tolerant proof rule: an invariant and a running
    balance that every atomic action is charged to. *)

From S2P Require Import Prelude.

Inductive prog (W : Type) (A : Type) : Type :=
| Ret (a : A)
| Act {B : Type} (f : W → W * B) (k : B → prog W A).
Arguments Ret {W A} a.
Arguments Act {W A B} f k.

(** One atomic action as a program. *)
Definition act {W B} (f : W → W * B) : prog W B := Act f Ret.

#[global] Instance prog_mret {W} : MRet (prog W) := @Ret W.
#[global] Instance prog_mbind {W} : MBind (prog W) := λ A B k,
  fix go p := match p with Ret a => k a | Act f k' => Act f (λ b, go (k' b)) end.

(** Execution of one program with nobody else running. *)
Fixpoint run {W A} (p : prog W A) (w : W) : W * A :=
  match p with
  | Ret a => (w, a)
  | Act f k => let '(w', b) := f w in run (k b) w'
  end.

Lemma run_bind {W A B} (p : prog W A) (k : A → prog W B) w :
  run (p ≫= k) w = let '(w', a) := run p w in run (k a) w'.
Proof.
  revert w. induction p as [a|C f k' IH]; intros w; [done|].
  change (run (Act f (λ b, k' b ≫= k)) w = let '(w', a) := run (Act f k') w in run (k a) w').
  simpl. destruct (f w) as [w' b]. apply IH.
Qed.

Lemma run_ret {W A} (a : A) (w : W) : run (mret a) w = (w, a).
Proof. done. Qed.

Lemma run_act {W B} (f : W → W * B) w : run (act f) w = f w.
Proof. unfold act. simpl. by destruct (f w). Qed.

Create Rewrite HintDb run.
#[export] Hint Rewrite @run_bind @run_ret @run_act : run.

(** A thread: a program whose result nobody waits for. *)
Definition thread W := prog W unit.
Definition spawn {W A} (p : prog W A) : thread W := p ≫= λ _, mret ().
Definition finished {W} (t : thread W) : Prop := match t with Ret _ => True | _ => False end.

Section interleave.
  Context {W : Type} (env : W → W → Prop).

(** A pool: the threads and the world they share.  A step runs one atomic
    action of one thread, or is a step of the environment (the clock, another
    process). *)
Inductive step : list (thread W) * W → list (thread W) * W → Prop :=
| step_thread ts w i B (f : W → W * B) k :
    ts !! i = Some (Act f k) →
    step (ts, w) (<[i := k (f w).2]> ts, (f w).1)
| step_env ts w w' : env w w' → step (ts, w) (ts, w').

  Context (I : W → Prop) (delta : W → W → Z).

(** [exec c d c']: some interleaving takes [c] to [c'], and the changes of the
    world along it add up to [d]. *)
Inductive exec : list (thread W) * W → Z → list (thread W) * W → Prop :=
| exec_refl c : exec c 0 c
| exec_step c c' d c'' :
    step c c' → exec c' d c'' → exec c (delta c.2 c'.2 + d) c''.

(** From balance [n], every action of [p] keeps [I] whatever the other threads
    did in between, and [p] ends in a result and a balance [Φ] accepts. *)
Fixpoint wp {A} (p : prog W A) (n : Z) (Φ : Z → A → Prop) : Prop :=
  match p with
  | Ret a => Φ n a
  | Act f k => ∀ w, I w → I (f w).1 ∧ wp (k (f w).2) (n + delta w (f w).1) Φ
  end.

Lemma wp_bind {A B} (p : prog W A) (k : A → prog W B) n Φ :
  wp p n (λ m a, wp (k a) m Φ) → wp (p ≫= k) n Φ.
Proof.
  revert n. induction p as [a|C f k' IH]; intros n Hp; [done|].
  intros w Hw. destruct (Hp w Hw) as [HI Hk]. split; [done|]. by apply IH.
Qed.

Lemma wp_act {B} (f : W → W * B) n Φ :
  (∀ w, I w → I (f w).1 ∧ Φ (n + delta w (f w).1) (f w).2) → wp (act f) n Φ.
Proof. intros H w Hw. by apply H. Qed.

Lemma wp_ret {A} (a : A) n (Φ : Z → A → Prop) : Φ n a → wp (mret a) n Φ.
Proof. done. Qed.

Lemma wp_mono {A} (p : prog W A) n (Φ Ψ : Z → A → Prop) :
  wp p n Φ → (∀ m a, Φ m a → Ψ m a) → wp p n Ψ.
Proof.
  intros Hp HΦ. revert n Hp. induction p as [a|C f k' IH]; intros n Hp; [by apply HΦ|].
  intros w Hw. destruct (Hp w Hw). eauto.
Qed.

(** A thread settles its balance: started at [n] it ends at 0. *)
Definition settles (n : Z) (t : thread W) : Prop := wp t n (λ m _, m = 0).

Lemma settles_spawn {A} (p : prog W A) n : wp p n (λ m _, m = 0) → settles n (spawn p).
Proof. intros Hp. apply wp_bind. eapply wp_mono; [done|]. by intros m a ->. Qed.

Lemma settles_spawn_inv {A} (p : prog W A) n : settles n (spawn p) → wp p n (λ m _, m = 0).
Proof.
  unfold settles, spawn. revert n. induction p as [a|B f k IH]; intros n Hp; [done|].
  intros w Hw. destruct (Hp w Hw) as [HI Hk]. split; [done|]. by apply IH.
Qed.

  Context (env_inv : ∀ w w', I w → env w w' → I w' ∧ delta w w' = 0).

Lemma Zsum_insert (l : list Z) i x y :
  l !! i = Some x → Zsum (<[i:=y]> l) = Zsum l - x + y.
Proof.
  revert i. induction l as [|z l IH]; intros [|i] Hi; simplify_eq/=; [lia|].
  rewrite (IH i Hi). lia.
Qed.

Lemma Zsum_replicate_0 n : Zsum (replicate n 0) = 0.
Proof. by induction n. Qed.

Lemma step_settles ts w ts' w' ns :
  I w → Forall2 settles ns ts → step (ts, w) (ts', w') →
  ∃ ns', I w' ∧ Forall2 settles ns' ts' ∧ Zsum ns' = Zsum ns + delta w w'.
Proof.
  intros HI Hs Hstep. inversion Hstep as [? ? i B f k Hi|? ? ? Henv]; simplify_eq.
  - destruct (Forall2_lookup_r _ _ _ _ _ Hs Hi) as (n & Hn & Hset).
    destruct (Hset w HI) as [HI' Hk].
    exists (<[i := n + delta w (f w).1]> ns). split_and!; [done| |].
    + by apply Forall2_insert.
    + rewrite (Zsum_insert _ _ n) by done. lia.
  - destruct (env_inv w w' HI Henv) as [HI' Hd]. exists ns. split_and!; [done..|]. lia.
Qed.

Lemma exec_settles c d c' ns :
  I c.2 → Forall2 settles ns c.1 → exec c d c' →
  ∃ ns', I c'.2 ∧ Forall2 settles ns' c'.1 ∧ Zsum ns' = Zsum ns + d.
Proof.
  intros HI Hs Hexec. revert ns HI Hs.
  induction Hexec as [c|[ts w] [ts1 w1] d c'' Hstep Hexec IH]; intros ns HI Hs.
  - exists ns. split_and!; [done..|]. lia.
  - destruct (step_settles _ _ _ _ _ HI Hs Hstep) as (ns1 & HI1 & Hs1 & Hsum1).
    destruct (IH ns1 HI1 Hs1) as (ns2 & ? & ? & Hsum2). exists ns2.
    split_and!; [done..|]. simpl in *. lia.
Qed.

Lemma settles_finished ns ts :
  Forall2 settles ns ts → Forall finished ts → Zsum ns = 0.
Proof.
  induction 1 as [|n t ns ts Hset Hs IH]; intros Hf; [done|].
  apply Forall_cons in Hf as [Ht Hf]. destruct t; [|done].
  unfold settles in Hset. simpl in *. subst. rewrite IH by done. lia.
Qed.

(** The invariant holds throughout, and once every thread has finished the
    changes along the interleaving cancel out, whatever the interleaving was. *)
Lemma exec_balanced ts w d ts' w' :
  I w → Forall (settles 0) ts → exec (ts, w) d (ts', w') →
  I w' ∧ (Forall finished ts' → d = 0).
Proof.
  intros HI Hs Hexec.
  assert (Forall2 settles (replicate (length ts) 0) ts) as Hs2.
  { clear Hexec. induction Hs; simpl; by constructor. }
  destruct (exec_settles (ts, w) d (ts', w') _ HI Hs2 Hexec) as (ns' & HI' & Hs' & Hsum).
  split; [done|]. intros Hfin. rewrite (settles_finished _ _ Hs' Hfin) in Hsum.
  rewrite Zsum_replicate_0 in Hsum. lia.
Qed.
End interleave.

(** A quantity of the world subtracted from every change telescopes. *)
Lemma exec_telescopes {W} (env : W → W → Prop) (delta : W → W → Z) (g : W → Z) c d c' :
  exec env delta c d c' →
  exec env (λ w w', delta w w' - (g w' - g w)) c (d - (g c'.2 - g c.2)) c'.
Proof.
  induction 1 as [c|c c' d c'' Hs Hexec IH]; [rewrite !Z.sub_diag; constructor|].
  replace (delta c.2 c'.2 + d - (g c''.2 - g c.2))
    with (delta c.2 c'.2 - (g c'.2 - g c.2) + (d - (g c''.2 - g c'.2))) by lia.
  by apply (exec_step env (λ w w', delta w w' - (g w' - g w)) c c').
Qed.

(** ** Running the threads one after the other is one of the interleavings *)
Section sequential.
  Context {W : Type} (env : W → W → Prop) (delta : W → W → Z).

Fixpoint run_all (ts : list (thread W)) (w : W) : W :=
  match ts with [] => w | t :: ts => run_all ts (run t w).1 end.

Lemma exec_trans c1 d1 c2 d2 c3 :
  exec env delta c1 d1 c2 → exec env delta c2 d2 c3 → exec env delta c1 (d1 + d2) c3.
Proof.
  intros H12 H23. induction H12 as [c|c c' d c'' Hs He IH]; [done|].
  replace (delta c.2 c'.2 + d + d2) with (delta c.2 c'.2 + (d + d2)) by lia.
  eapply exec_step; [done|by apply IH].
Qed.

Lemma exec_run_thread ts i (t : thread W) w :
  ts !! i = Some t →
  ∃ d, exec env delta (ts, w) d (<[i := Ret (run t w).2]> ts, (run t w).1).
Proof.
  revert ts w. induction t as [a|B f k IH]; intros ts w Hi; simpl.
  - exists 0. rewrite list_insert_id by done. constructor.
  - destruct (IH (f w).2 (<[i := k (f w).2]> ts) (f w).1) as [d Hd].
    { apply list_lookup_insert_eq. by eapply lookup_lt_Some. }
    rewrite list_insert_insert_eq in Hd. destruct (f w) as [w1 b] eqn:Hf.
    exists (delta w w1 + d). eapply (exec_step _ _ (ts, w) (<[i:=k b]> ts, w1)); [|done].
    replace b with (f w).2 by (by rewrite Hf). replace w1 with (f w).1 by (by rewrite Hf).
    by constructor.
Qed.

Lemma exec_run_all ts w :
  ∃ d ts', exec env delta (ts, w) d (ts', run_all ts w) ∧ Forall finished ts'.
Proof.
  enough (∀ done_ts, Forall finished done_ts →
    ∃ d ts', exec env delta (done_ts ++ ts, w) d (ts', run_all ts w) ∧ Forall finished ts')
    as Hg by (by apply (Hg [])).
  revert w. induction ts as [|t ts IH]; intros w done_ts Hdone; simpl.
  - exists 0, (done_ts ++ []). split; [constructor|by rewrite app_nil_r].
  - destruct (exec_run_thread (done_ts ++ t :: ts) (length done_ts) t w) as [d1 H1].
    { rewrite lookup_app_r by done. by rewrite Nat.sub_diag. }
    rewrite insert_app_r_alt in H1 by done. rewrite Nat.sub_diag in H1. simpl in H1.
    destruct (IH (run t w).1 (done_ts ++ [Ret (run t w).2])) as (d2 & ts' & H2 & Hf).
    { apply Forall_app. by repeat constructor. }
    rewrite <-app_assoc in H2. exists (d1 + d2), ts'. split; [|done]. by eapply exec_trans.
Qed.
End sequential.

Lemma exec_rtc {W} (env : W → W → Prop) delta c d c' : exec env delta c d c' → rtc (step env) c c'.
Proof. induction 1; [done|by eapply rtc_l]. Qed.

(** ** A thread overtaken by another

    [suspend k p w] runs the first [k] actions of [p]; [overtaken k p q w] lets
    [q] run to its end there and then resumes [p]. *)
Fixpoint suspend {W A} (k : nat) (p : prog W A) (w : W) : prog W A * W :=
  match k, p with
  | S k, Act f c => let '(w', b) := f w in suspend k (c b) w'
  | _, _ => (p, w)
  end.

Definition overtaken {W A B} (k : nat) (p : prog W A) (q : prog W B) (w : W) : W * A * B :=
  let '(p', w1) := suspend k p w in
  let '(w2, b) := run q w1 in
  let '(w3, a) := run p' w2 in (w3, a, b).

Lemma exec_suspend {W} (env : W → W → Prop) delta ts i k (t : thread W) w :
  ts !! i = Some t →
  ∃ d, exec env delta (ts, w) d (<[i := (suspend k t w).1]> ts, (suspend k t w).2).
Proof.
  revert ts t w. induction k as [|k IH]; intros ts t w Hi.
  { exists 0. destruct t; simpl; rewrite list_insert_id by done; constructor. }
  destruct t as [a|B f c]; simpl; [exists 0; rewrite list_insert_id by done; constructor|].
  destruct (IH (<[i := c (f w).2]> ts) (c (f w).2) (f w).1) as [d Hd].
  { apply list_lookup_insert_eq. by eapply lookup_lt_Some. }
  rewrite list_insert_insert_eq in Hd. destruct (f w) as [w1 b] eqn:Hf.
  exists (delta w w1 + d). eapply (exec_step _ _ (ts, w) (<[i:=c b]> ts, w1)); [|done].
  replace b with (f w).2 by (by rewrite Hf). replace w1 with (f w).1 by (by rewrite Hf).
  by constructor.
Qed.

(** An overtaken thread is an interleaving like any other. *)
Lemma exec_overtaken {W} (env : W → W → Prop) delta k (p q : thread W) w :
  ∃ d ts, exec env delta ([p; q], w) d (ts, (overtaken k p q w).1.1) ∧ Forall finished ts.
Proof.
  unfold overtaken.
  destruct (exec_suspend env delta [p; q] 0 k p w) as [d1 H1]; [done|].
  destruct (suspend k p w) as [p' w1]. simpl in H1.
  destruct (exec_run_thread env delta [p'; q] 1 q w1) as [d2 H2]; [done|].
  destruct (run q w1) as [w2 b]. simpl in H2.
  destruct (exec_run_thread env delta [p'; Ret b] 0 p' w2) as [d3 H3]; [done|].
  destruct (run p' w2) as [w3 a]. simpl in H3.
  exists (d1 + (d2 + d3)), [Ret a; Ret b]. split; [|by repeat constructor].
  eapply exec_trans; [done|]. by eapply exec_trans.
Qed.

(** An invariant alone: the balance every change contributes nothing to. *)
Lemma exec_invariant {W} (env : W → W → Prop) (I : W → Prop) ts w d ts' w' :
  (∀ v v', I v → env v v' → I v') →
  I w → Forall (settles I (λ _ _, 0) 0) ts →
  exec env (λ _ _, 0) (ts, w) d (ts', w') → I w'.
Proof.
  intros Henv HI Hs Hexec.
  refine (proj1 (exec_balanced env I (λ _ _, 0) _ ts w d ts' w' HI Hs Hexec)).
  intros v v' Hv Hvv. split; [by eapply Henv|done].
Qed.

(** ** Step guarantees

    [obeys I G p]: whatever runs in between, every action of [p] keeps [I] and
    makes a change of the world [G] allows. *)
Section guarantee.
  Context {W : Type} (env : W → W → Prop) (I : W → Prop) (G : W → W → Prop).

Fixpoint obeys {A} (p : prog W A) : Prop :=
  match p with
  | Ret _ => True
  | Act f k => ∀ w, I w → I (f w).1 ∧ G w (f w).1 ∧ obeys (k (f w).2)
  end.

Lemma obeys_bind {A B} (p : prog W A) (k : A → prog W B) :
  obeys p → (∀ a, obeys (k a)) → obeys (p ≫= k).
Proof.
  intros Hp Hk. induction p as [a|C f k' IH]; [apply Hk|].
  intros w Hw. destruct (Hp w Hw) as (? & ? & ?). split_and!; [done..|]. by apply IH.
Qed.

Lemma obeys_act {B} (f : W → W * B) :
  (∀ w, I w → I (f w).1 ∧ G w (f w).1) → obeys (act f).
Proof. intros Hf w Hw. destruct (Hf w Hw). done. Qed.

  Context (env_ok : ∀ w w', I w → env w w' → I w' ∧ G w w').

Lemma step_obeys c c' :
  I c.2 → Forall obeys c.1 → step env c c' → I c'.2 ∧ Forall obeys c'.1 ∧ G c.2 c'.2.
Proof.
  intros HI Hts Hstep. destruct Hstep as [ts w i B f k Hi|ts w w' He]; simpl in *.
  - destruct (Forall_lookup_1 _ _ _ _ Hts Hi w HI) as (? & ? & ?).
    split_and!; [done| |done]. by apply Forall_insert.
  - by destruct (env_ok w w' HI He).
Qed.

(** Every step of every interleaving of obedient threads is one [G] allows. *)
Lemma steps_obey c c' c'' :
  I c.2 → Forall obeys c.1 → rtc (step env) c c' → step env c' c'' → G c'.2 c''.2.
Proof.
  intros HI Hts Hr Hs.
  assert (I c'.2 ∧ Forall obeys c'.1) as [HI' Hts'].
  { clear Hs. induction Hr as [|c c1 c2 H1 Hr IH]; [done|].
    destruct (step_obeys _ _ HI Hts H1) as (? & ? & _). by apply IH. }
  by destruct (step_obeys _ _ HI' Hts' Hs) as (_ & _ & ?).
Qed.
End guarantee.

(** What every action of a program does to the world, the whole run does. *)
Lemma run_obeys {W A} (G : W → W → Prop) (p : prog W A) w :
  (∀ w, G w w) → (∀ a b c, G a b → G b c → G a c) → obeys (λ _, True) G p → G w (run p w).1.
Proof.
  intros Hr Ht. revert w. induction p as [a|B f k IH]; intros w Hp; simpl; [done|].
  destruct (Hp w Logic.I) as (_ & HG & Hk). destruct (f w) as [w' b]. simpl in *. eauto.
Qed.

(** A second invariant that every action preserves may be added to the first. *)
Lemma wp_frame {W A} (I F : W → Prop) (delta : W → W → Z) (G : W → W → Prop) (p : prog W A) n Φ :
  (∀ w w', F w → G w w' → F w') → obeys (λ _, True) G p →
  wp I delta p n Φ → wp (λ w, I w ∧ F w) delta p n Φ.
Proof.
  intros HF. revert n. induction p as [a|B f k IH]; intros n Ho Hp; [done|].
  intros w [Hw HFw]. destruct (Ho w Logic.I) as (_ & HG & Hk). destruct (Hp w Hw) as [HI Hp'].
  split; [by split; [|eapply HF]|]. by apply IH.
Qed.

(** ** Exceptions

    A Python method either returns or raises; the program's result is a sum. *)
Inductive exn : Type :=
| KeyError (key : string)
| StateUnavailableError (reason : string)
| ValueError (what : string)
| ZeroDivisionError
| TypeError.

Definition eprog (W A : Type) : Type := prog W (exn + A).

Definition ebind {W A B} (p : eprog W A) (k : A → eprog W B) : eprog W B :=
  @mbind (prog W) _ _ _ (λ r, match r with inl e => Ret (inl e) | inr a => k a end)
    (p : prog W (exn + A)).

Declare Scope prog_scope.
Delimit Scope prog_scope with prog.
Notation "x <- p ;; q" := (ebind p (λ x, q))
  (at level 65, p at next level, right associativity) : prog_scope.
#[global] Open Scope prog_scope.

Definition raise {W A} (e : exn) : eprog W A := Ret (inl e).
Definition ret {W A} (a : A) : eprog W A := Ret (inr a).

(** An atomic action that cannot raise. *)
Definition atomically {W A} (f : W → W * A) : eprog W A :=
  act (λ w, let '(w', a) := f w in (w', inr a)).

(** [try: p / except Exception: handler] *)
Definition catch {W A} (p : eprog W A) (handler : exn → eprog W A) : eprog W A :=
  @mbind (prog W) _ _ _ (λ r, match r with inl e => handler e | inr a => Ret (inr a) end)
    (p : prog W (exn + A)).

(** [for x in l: body(x)] *)
Fixpoint for_each {W X} (l : list X) (body : X → eprog W unit) : eprog W unit :=
  match l with
  | [] => ret ()
  | x :: l => _ <- body x;; for_each l body
  end.

Lemma run_ret_e {W A} (a : A) (w : W) : run (ret a) w = (w, inr a).
Proof. done. Qed.

Lemma run_raise {W A} e (w : W) : run (raise e : eprog W A) w = (w, inl e).
Proof. done. Qed.

Lemma run_atomically {W A} (f : W → W * A) w :
  run (atomically f) w = ((f w).1, inr (f w).2).
Proof. unfold atomically. rewrite run_act. by destruct (f w). Qed.

Lemma run_ebind {W A B} (p : eprog W A) (k : A → eprog W B) w :
  run (ebind p k) w =
  let '(w', r) := run p w in
  match r with inl e => (w', inl e) | inr a => run (k a) w' end.
Proof.
  unfold ebind. rewrite run_bind. destruct (run p w) as [w' [e|a]]; done.
Qed.

Lemma run_catch {W A} (p : eprog W A) h w :
  run (catch p h) w =
  let '(w', r) := run p w in
  match r with inl e => run (h e) w' | inr a => (w', inr a) end.
Proof. unfold catch. rewrite run_bind. destruct (run p w) as [w' [e|a]]; done. Qed.

#[export] Hint Rewrite @run_ret_e @run_raise @run_atomically @run_ebind @run_catch : run.

Section exception_rules.
  Context {W : Type} (I : W → Prop) (delta : W → W → Z).

Lemma wp_ebind {A B} (p : eprog W A) (k : A → eprog W B) n Φ :
  wp I delta p n (λ m r, match r with inl e => Φ m (inl e) | inr a => wp I delta (k a) m Φ end) →
  wp I delta (ebind p k) n Φ.
Proof. intros Hp. apply wp_bind. eapply wp_mono; [done|]. by intros m [e|a]. Qed.

Lemma wp_catch {A} (p : eprog W A) h n (Φ : Z → exn + A → Prop) :
  wp I delta p n (λ m r, match r with inl e => wp I delta (h e) m Φ | inr a => Φ m (inr a) end) →
  wp I delta (catch p h) n Φ.
Proof. intros Hp. apply wp_bind. eapply wp_mono; [done|]. by intros m [e|a]. Qed.

Lemma wp_atomically {A} (f : W → W * A) n Φ :
  (∀ w, I w → I (f w).1 ∧ Φ (n + delta w (f w).1) (inr (f w).2)) →
  wp I delta (atomically f) n Φ.
Proof. intros Hf. apply wp_act. intros w Hw. specialize (Hf w Hw). by destruct (f w). Qed.

Lemma wp_for_each {X} (l : list X) (body : X → eprog W unit) n (Φ : Z → exn + unit → Prop) :
  (∀ x, wp I delta (body x) n (λ m r, m = n ∧ (∀ e, r = inl e → Φ n (inl e)))) →
  Φ n (inr ()) → wp I delta (for_each l body) n Φ.
Proof.
  intros Hb HΦ. induction l as [|x l IH]; simpl; [done|].
  apply wp_ebind. eapply wp_mono; [apply Hb|]. intros m [e|[]] [-> He]; [by apply He|done].
Qed.

  Context (G : W → W → Prop).

Lemma obeys_ebind {A B} (p : eprog W A) (k : A → eprog W B) :
  obeys I G p → (∀ a, obeys I G (k a)) → obeys I G (ebind p k).
Proof. intros Hp Hk. apply obeys_bind; [done|]. intros [e|a]; [done|apply Hk]. Qed.

Lemma obeys_catch {A} (p : eprog W A) h :
  obeys I G p → (∀ e, obeys I G (h e)) → obeys I G (catch p h).
Proof. intros Hp Hh. apply obeys_bind; [done|]. intros [e|a]; [apply Hh|done]. Qed.

Lemma obeys_atomically {A} (f : W → W * A) :
  (∀ w, I w → I (f w).1 ∧ G w (f w).1) → obeys I G (atomically f).
Proof. intros Hf. apply obeys_act. intros w Hw. specialize (Hf w Hw). by destruct (f w). Qed.

Lemma obeys_for_each {X} (l : list X) (body : X → eprog W unit) :
  (∀ x, obeys I G (body x)) → obeys I G (for_each l body).
Proof. intros Hb. induction l as [|x l IH]; simpl; [done|]. by apply obeys_ebind. Qed.
End exception_rules.

(** ** Rely and guarantee

    [rg p w Q]: a thread that last acted when the world was [w] keeps [I] and
    changes the world only as [rely] allows, whatever the others do within
    [rely]; it ends in a result [Q] accepts.  Unlike [wp], a thread may use what
    it saw earlier, as far as [rely] preserves it. *)
Section rely.
  Context {W : Type} (I : W → Prop) (rely : W → W → Prop).

Fixpoint rg {A} (p : prog W A) (w0 : W) (Q : W → A → Prop) : Prop :=
  match p with
  | Ret a => Q w0 a
  | Act f k => ∀ w, I w → rely w0 w → I (f w).1 ∧ rely w (f w).1 ∧ rg (k (f w).2) (f w).1 Q
  end.

Lemma rg_bind {A B} (p : prog W A) (k : A → prog W B) w0 Q :
  rg p w0 (λ w a, rg (k a) w Q) → rg (p ≫= k) w0 Q.
Proof.
  revert w0. induction p as [a|C f k' IH]; intros w0 Hp; [done|].
  intros w Hw Hr. destruct (Hp w Hw Hr) as (? & ? & ?). split_and!; [done..|]. by apply IH.
Qed.

Lemma rg_mono {A} (p : prog W A) w0 (Q Q' : W → A → Prop) :
  rg p w0 Q → (∀ w a, Q w a → Q' w a) → rg p w0 Q'.
Proof.
  intros Hp HQ. revert w0 Hp. induction p as [a|C f k IH]; intros w0 Hp; [by apply HQ|].
  intros w Hw Hr. destruct (Hp w Hw Hr) as (? & ? & ?). eauto.
Qed.

Lemma rg_ebind {A B} (p : eprog W A) (k : A → eprog W B) w0 Q :
  rg p w0 (λ w r, match r with inl e => Q w (inl e) | inr a => rg (k a) w Q end) →
  rg (ebind p k) w0 Q.
Proof. intros Hp. apply rg_bind. eapply rg_mono; [done|]. by intros w [e|a]. Qed.

Lemma rg_atomically {A} (f : W → W * A) w0 (Q : W → exn + A → Prop) :
  (∀ w, I w → rely w0 w → I (f w).1 ∧ rely w (f w).1 ∧ Q (f w).1 (inr (f w).2)) →
  rg (atomically f) w0 Q.
Proof. intros Hf w Hw Hr. specialize (Hf w Hw Hr). simpl. by destruct (f w). Qed.

Lemma rg_spawn {A} (p : prog W A) w0 Q : rg p w0 Q → rg (spawn p) w0 (λ _ _, True).
Proof. intros Hp. apply rg_bind. eapply rg_mono; [done|]. done. Qed.

  Context (env : W → W → Prop).
  Context (rely_refl : ∀ w, rely w w) (rely_trans : ∀ a b c, rely a b → rely b c → rely a c).
  Context (env_rely : ∀ w w', I w → env w w' → I w' ∧ rely w w').

(** Each thread saw some earlier world and is safe from there. *)
Definition safe_pool (ts : list (thread W)) (w : W) : Prop :=
  Forall (λ t, ∃ w0, rely w0 w ∧ rg t w0 (λ _ _, True)) ts.

Lemma step_safe ts w ts' w' :
  I w → safe_pool ts w → step env (ts, w) (ts', w') → I w' ∧ rely w w' ∧ safe_pool ts' w'.
Proof.
  intros HI Hp Hstep.
  assert (∀ w', rely w w' → safe_pool ts w') as Hlater.
  { intros v Hv. eapply Forall_impl; [exact Hp|]. intros t (w0 & Hr & Ht). exists w0. eauto. }
  inversion Hstep as [? ? i B f k Hi|? ? ? He]; simplify_eq.
  - destruct (Forall_lookup_1 _ _ _ _ Hp Hi) as (w0 & Hr & Ht).
    destruct (Ht w HI Hr) as (HI' & Hr' & Hk). split_and!; [done..|].
    apply Forall_insert; [by apply Hlater|]. by exists (f w).1.
  - destruct (env_rely w w' HI He) as [HI' Hr']. split_and!; [done..|]. by apply Hlater.
Qed.

(** Along every interleaving of safe threads [I] holds and the world has changed
    as [rely] allows. *)
Lemma steps_safe ts w c :
  I w → Forall (λ t, rg t w (λ _ _, True)) ts → rtc (step env) (ts, w) c → I c.2 ∧ rely w c.2.
Proof.
  intros HI Hts Hr.
  assert (∀ c c', rtc (step env) c c' → I c.2 → safe_pool c.1 c.2 → I c'.2 ∧ rely c.2 c'.2) as Hgen.
  { clear Hr. induction 1 as [c0|[ts0 w0] [ts1 w1] c2 H1 H2 IH]; intros HI0 Hp; [by split|].
    destruct (step_safe _ _ _ _ HI0 Hp H1) as (HI1 & Hr1 & Hp1).
    destruct (IH HI1 Hp1) as [HI2 Hr2]. split; [done|]. cbn [snd] in *. eauto. }
  apply (Hgen _ _ Hr HI). eapply Forall_impl; [exact Hts|]. intros t Ht. by exists w.
Qed.
End rely.

(** ** A program on a part of a larger world

    [zoom get set p] runs [p] on the component [get] reads and [set] writes. *)
Section zoom.
  Context {V W : Type} (get : V → W) (set : V → W → V).

Fixpoint zoom {A} (p : prog W A) : prog V A :=
  match p with
  | Ret a => Ret a
  | Act f k => Act (λ v, let '(w, b) := f (get v) in (set v w, b)) (λ b, zoom (k b))
  end.

  Context (get_set : ∀ v w, get (set v w) = w).

Lemma wp_zoom I delta {A} (p : prog W A) n (Φ : Z → A → Prop) :
  wp I delta p n Φ → wp (λ v, I (get v)) (λ v v', delta (get v) (get v')) (zoom p) n Φ.
Proof.
  revert n. induction p as [a|B f k IH]; intros n Hp; [done|]. intros v Hv.
  destruct (Hp (get v) Hv) as [HI Hk]. simpl. destruct (f (get v)) as [w b]. simpl in *.
  rewrite get_set. split; [done|]. by apply IH.
Qed.

Lemma settles_zoom I delta n (t : thread W) :
  settles I delta n t → settles (λ v, I (get v)) (λ v v', delta (get v) (get v')) n (zoom t).
Proof. apply wp_zoom. Qed.

Lemma obeys_zoom I G {A} (p : prog W A) :
  obeys I G p → obeys (λ v, I (get v)) (λ v v', G (get v) (get v')) (zoom p).
Proof.
  induction p as [a|B f k IH]; intros Hp; [done|]. intros v Hv.
  destruct (Hp (get v) Hv) as (HI & HG & Hk). simpl. destruct (f (get v)) as [w b]. simpl in *.
  rewrite get_set. split_and!; [done..|]. by apply IH.
Qed.

  Context (set_set : ∀ v w w', set (set v w) w' = set v w') (set_get : ∀ v, set v (get v) = v).

Lemma run_zoom {A} (p : prog W A) v :
  run (zoom p) v = (set v (run p (get v)).1, (run p (get v)).2).
Proof.
  revert v. induction p as [a|B f k IH]; intros v; simpl; [by rewrite set_get|].
  destruct (f (get v)) as [w b]. rewrite IH, get_set, set_set. done.
Qed.
End zoom.

(** ** Local variables

    [with_local x p] runs [p] with a variable of its own, which nobody else sees;
    [beside p] is a program that does not know about such a variable. *)
Section local.
  Context {W X : Type}.

Fixpoint with_local {A} (x : X) (p : prog (W * X) A) : prog W (X * A) :=
  match p with
  | Ret a => Ret (x, a)
  | Act f k =>
      Act (λ w, let '((w', x'), b) := f (w, x) in (w', (x', b))) (λ xb, with_local xb.1 (k xb.2))
  end.

Definition beside {A} (p : prog W A) : prog (W * X) A := zoom fst (λ wx w, (w, wx.2)) p.

Lemma run_with_local {A} (p : prog (W * X) A) x w :
  run (with_local x p) w = let '((w', x'), a) := run p (w, x) in (w', (x', a)).
Proof.
  revert x w. induction p as [a|B f k IH]; intros x w; simpl; [done|].
  destruct (f (w, x)) as [[w' x'] b]. simpl. apply IH.
Qed.

Lemma run_beside {A} (p : prog W A) w x : run (beside p) (w, x) = ((run p w).1, x, (run p w).2).
Proof. unfold beside. by rewrite run_zoom; [|done|done|by intros []]. Qed.

Lemma wp_with_local I delta {A} (p : prog (W * X) A) x n (Φ : Z → X * A → Prop) :
  wp (λ wx, I wx.1) (λ wx wx', delta wx.1 wx'.1) p n (λ m a, ∀ x, Φ m (x, a)) →
  wp I delta (with_local x p) n Φ.
Proof.
  revert x n. induction p as [a|B f k IH]; intros x n Hp; [apply Hp|]. intros w Hw.
  destruct (Hp (w, x) Hw) as [HI Hk]. destruct (f (w, x)) as [[w' x'] b]. simpl in *.
  split; [done|]. by apply IH.
Qed.
End local.

(** Programs are executed by rewriting with their equations. *)
#[global] Arguments run : simpl never.
#[global] Arguments ebind : simpl never.
#[global] Arguments catch : simpl never.
