(* ===== verification/CBData.v ===== *)
(** * Circuit breaker: rows, attempts, configuration and pin predicates

    Models the data-transfer objects and the pure predicates over them:
    [interfaces/repositories.py] (row, attempts, pin rule, override expiry),
    [services/circuit_breaker/config.py] (configuration, decision, result,
    aggregate evidence) and the predicates at the top of
    [services/circuit_breaker/manual_control.py].  Times are microseconds; a
    predicate that reads [utc_now()] takes that reading as [now]. *)

From stdpp Require Import pretty.
From Stdlib Require Import QArith_base.
From S2P Require Import Prelude.
#[local] Open Scope Z_scope.

(** ** States *)
Inductive CircuitBreakerStateEnum : Type := CLOSED | OPEN | HALF_OPEN.

Definition value (s : CircuitBreakerStateEnum) : string :=
  match s with CLOSED => "closed" | OPEN => "open" | HALF_OPEN => "half_open" end.

Definition CIRCUIT_BREAKER_PINNED_TOKEN : string := "pinned".

(** ** The stored row *)
Record CircuitBreakerStateData : Type := {
  service_name : string;
  id : option Z;
  state : string;
  failure_count : Z;
  success_count : Z;
  last_failure_at : option Z;
  opened_at : option Z;
  manually_controlled : bool;
  controlled_by_id : option Z;
  control_reason : string;
  manual_override_expires_at : option Z;
  half_open_request_count : Z;
  half_open_window_started_at : option Z;
  metadata : dict string pyval;
  created_at : option Z;
  updated_at : option Z;
}.

Definition state_is (row : CircuitBreakerStateData) (s : CircuitBreakerStateEnum) : bool :=
  bool_decide (state row = value s).

(** ** The manual-override rule *)
Definition manual_pin_is_active (now : Z) (controlled : bool) (expires_at : option Z) : bool :=
  controlled && match expires_at with None => true | Some e => now <? e end.

Definition is_pin_active (now : Z) (row : CircuitBreakerStateData) : bool :=
  manual_pin_is_active now (manually_controlled row) (manual_override_expires_at row).

(** The service-side spelling, over the same two fields. *)
Definition is_manual_pin_active (now : Z) (row : CircuitBreakerStateData) : bool :=
  manual_pin_is_active now (manually_controlled row) (manual_override_expires_at row).

Definition is_operator_block_in_force (now : Z) (row : CircuitBreakerStateData) : bool :=
  state_is row OPEN && manually_controlled row && is_manual_pin_active now row.

Definition is_pin_lift_due (now : Z) (row : CircuitBreakerStateData) : bool :=
  manually_controlled row && state_is row OPEN &&
  match manual_override_expires_at row with
  | None => false
  | Some e =>
      (e <=? now) && match opened_at row with None => true | Some o => o <=? e end
  end.

Definition resolve_manual_override_expiry (now : Z) (ttl_minutes : option Z) : option Z :=
  match ttl_minutes with
  | None => None
  | Some t => if t <=? 0 then None else Some (now + minutes t)
  end.

(** ** Attempts *)
Record CircuitBreakerCloseAttempt : Type := {
  close_state : CircuitBreakerStateData;
  did_close : bool;
}.

Record CircuitBreakerOpenAttempt : Type := {
  open_state : CircuitBreakerStateData;
  did_open : bool;
}.

Definition pinned_trip_attempt (name : string) (expires_at : option Z) :
    CircuitBreakerOpenAttempt := {|
  open_state := {|
    service_name := name; id := None; state := CIRCUIT_BREAKER_PINNED_TOKEN;
    failure_count := 0; success_count := 0; last_failure_at := None; opened_at := None;
    manually_controlled := true; controlled_by_id := None; control_reason := "";
    manual_override_expires_at := expires_at; half_open_request_count := 0;
    half_open_window_started_at := None; metadata := []; created_at := None;
    updated_at := None |};
  did_open := false |}.

(** ** Configuration

    Rates that are compared with a threshold are binary64; the dials of the
    adaptive backoff, like all delays, are rationals. *)
Record CircuitBreakerConfig : Type := {
  enabled : bool;
  failure_threshold : Z;
  recovery_timeout : Z;
  success_threshold : Z;
  minimum_calls : Z;
  sliding_window_size : Z;
  failure_rate_threshold : float;
  fallback_strategy : string;
  fallback_cache_ttl_seconds : Z;
  cb_open_burn_rate_multiplier : float;
  cb_open_base_consumption_minutes : float;
  manual_override_ttl_minutes : Z;
  half_open_max_calls : Z;
  half_open_stuck_timeout_seconds : Z;
  max_pending_duration_hours : Z;
  max_retry_lifetime_hours : Z;
  rate_limit_cascade_threshold : Z;
  rate_limit_cascade_window_seconds : Z;
  rate_limit_cascade_rate : float;
  rate_limit_cascade_minimum_calls : Z;
  self_ddos_protection_enabled : bool;
  self_ddos_rps_limit : Z;
  self_ddos_window_seconds : Z;
  self_ddos_backoff_multiplier : Q;
  self_ddos_backoff_base_seconds : Q;
  self_ddos_backoff_max_seconds : Q;
  self_ddos_backoff_jitter_factor : Q;
  rate_limit_distributed : bool;
}.

(** The dataclass defaults. *)
Definition default_config : CircuitBreakerConfig := {|
  enabled := true;
  failure_threshold := 5;
  recovery_timeout := 60;
  success_threshold := 2;
  minimum_calls := 10;
  sliding_window_size := 100;
  failure_rate_threshold := fl_of_Z 50;
  fallback_strategy := "cache";
  fallback_cache_ttl_seconds := 300;
  cb_open_burn_rate_multiplier := fl_of_Z 10;
  cb_open_base_consumption_minutes := fl_of_Z 1;
  manual_override_ttl_minutes := 90;
  half_open_max_calls := 3;
  half_open_stuck_timeout_seconds := 60;
  max_pending_duration_hours := 4;
  max_retry_lifetime_hours := 24;
  rate_limit_cascade_threshold := 10;
  rate_limit_cascade_window_seconds := 60;
  rate_limit_cascade_rate := fl_of_Z 10;
  rate_limit_cascade_minimum_calls := 20;
  self_ddos_protection_enabled := false;
  self_ddos_rps_limit := 200;
  self_ddos_window_seconds := 10;
  self_ddos_backoff_multiplier := 2 # 1;
  self_ddos_backoff_base_seconds := 1 # 1;
  self_ddos_backoff_max_seconds := 60 # 1;
  self_ddos_backoff_jitter_factor := 1 # 4;
  rate_limit_distributed := false |}.

(** ** Decision and result of the service's operations *)
Record CircuitBreakerDecision : Type := {
  allowed : bool;
  decision_state : CircuitBreakerStateData;
  window_epoch : Z;
}.

Record CircuitBreakerResult : Type := {
  success : bool;
  result_service_name : string;
  previous_state : string;
  new_state : string;
  message : string;
  error : option string;
  expires_at : option Z;
}.

Definition succeeded (name prev new msg : string) (exp : option Z) : CircuitBreakerResult := {|
  success := true; result_service_name := name; previous_state := prev;
  new_state := new; message := msg; error := None; expires_at := exp |}.

Definition failed (name err : string) : CircuitBreakerResult := {|
  success := false; result_service_name := name; previous_state := "";
  new_state := ""; message := ""; error := Some err; expires_at := None |}.

(** ** Aggregate evidence *)
Record AggregateFailureEvidence : Type := {
  failures : Z;
  total_calls : Z;
  open_circuits : Z;
  fleet_read : bool;
  tripped_failures : Z;
  tripped_calls : Z;
  tripped_names : list string;
}.

(** [rate]: 0.0 over zero calls. *)
Definition rate (e : AggregateFailureEvidence) : float :=
  if total_calls e =? 0 then fl_of_Z 0
  else fl_div (fl_of_Z (failures e)) (fl_of_Z (total_calls e)).

Definition measurable_calls (e : AggregateFailureEvidence) : Z :=
  total_calls e - tripped_calls e.

(** [measurable_rate]: [None] over zero measurable calls. *)
Definition measurable_rate (e : AggregateFailureEvidence) : option float :=
  if measurable_calls e =? 0 then None
  else Some (fl_div (fl_of_Z (failures e - tripped_failures e))
                    (fl_of_Z (measurable_calls e))).

(** ** Explicit TTLs *)
Definition MAX_MANUAL_OVERRIDE_TTL_MINUTES : Z := 1440.

(** [_reject_out_of_range_ttl]: [None] accepts; the argument is untyped. *)
Definition reject_out_of_range_ttl (name : string) (ttl_minutes : pyval) :
    option CircuitBreakerResult :=
  match ttl_minutes with
  | VNone => None
  | VInt t =>
      if (t <? 1) || (MAX_MANUAL_OVERRIDE_TTL_MINUTES <? t) then
        Some (failed name
          ("ttl_minutes must be between 1 and " +:+ pretty MAX_MANUAL_OVERRIDE_TTL_MINUTES
           +:+ " (got: " +:+ pretty t +:+ ")"))
      else None
  | _ => Some (failed name "ttl_minutes must be an integer")
  end.

(** ** Facts *)

Lemma value_inj s s' : value s = value s' → s = s'.
Proof. by destruct s, s'. Qed.

Lemma state_is_true row s : state_is row s = true ↔ state row = value s.
Proof. apply bool_decide_eq_true. Qed.

Lemma state_is_false row s : state_is row s = false ↔ state row ≠ value s.
Proof. apply bool_decide_eq_false. Qed.

(** A row is in at most one of the three states. *)
Lemma state_is_unique row s s' :
  state_is row s = true → state_is row s' = true → s = s'.
Proof. rewrite !state_is_true. intros E1 E2. apply value_inj. congruence. Qed.

(** The pin rule is evaluated per read: an override with an expiry stops being
    active at that instant and stays inactive. *)
Lemma pin_lapses now' c e :
  e <= now' → manual_pin_is_active now' c (Some e) = false.
Proof. unfold manual_pin_is_active. intros. rewrite andb_false_iff, Z.ltb_ge. lia. Qed.

Lemma pin_mono now now' c e :
  now <= now' → manual_pin_is_active now' c e = true → manual_pin_is_active now c e = true.
Proof.
  unfold manual_pin_is_active. intros Hle. rewrite !andb_true_iff.
  destruct e as [e|]; [|done]. rewrite !Z.ltb_lt. intuition lia.
Qed.

(** A block in force and a due lift exclude each other. *)
Lemma lift_due_not_active now row :
  is_pin_lift_due now row = true → is_manual_pin_active now row = false.
Proof.
  unfold is_pin_lift_due, is_manual_pin_active.
  destruct (manual_override_expires_at row) as [e|]; rewrite ?andb_false_r; [|done].
  rewrite !andb_true_iff, Z.leb_le. intros [_ [? _]]. by apply pin_lapses.
Qed.

(** Every TTL the service accepts produces an override that expires later. *)
Lemma accepted_ttl_expires now name t :
  reject_out_of_range_ttl name (VInt t) = None →
  resolve_manual_override_expiry now (Some t) = Some (now + minutes t) ∧ now < now + minutes t.
Proof.
  unfold reject_out_of_range_ttl. simpl. intros Hr. case_match eqn:E; [done|].
  apply orb_false_iff in E as [Hlo _]. apply Z.ltb_ge in Hlo.
  rewrite (proj2 (Z.leb_gt t 0)) by lia. split; [done|].
  unfold minutes, seconds, US_PER_SECOND. lia.
Qed.
