(* ===== verification/OutcomeWindow.v ===== *)
(** * The call-outcome window and the trip predicate

    Models [services/circuit_breaker/outcome_window.py]: the per-service ring of
    recent outcomes with its epochs, in-flight markers and last-seen states, and
    [evaluate_trip].  Every method holds the window's lock for its whole body
    (the lock-free first test of [observe_state] is repeated under the lock), so
    each is one function from state to state. *)

From S2P Require Import Prelude CBData.

Definition FAILURE_OUTCOME : Z := 1.
Definition SUCCESS_OUTCOME : Z := 0.
Definition TRIP_REASON_RATE : string := "failure_rate_threshold_exceeded".
Definition TRIP_REASON_COUNT : string := "failure_threshold_exceeded".

(** ** [collections.deque] with a bound

    [append] on a full bounded deque drops the leftmost element; a deque with
    [maxlen] 0 stays empty; [deque(old, maxlen=n)] keeps the rightmost [n]. *)
Record deque : Type := { maxlen : Z; items : list Z }.

Definition keep_right (n : Z) (l : list Z) : list Z := drop (length l - Z.to_nat n) l.

Definition deque_append (d : deque) (x : Z) : deque :=
  {| maxlen := maxlen d; items := keep_right (maxlen d) (items d ++ [x]) |}.

Definition deque_of (old : list Z) (n : Z) : deque :=
  {| maxlen := n; items := keep_right n old |}.

Definition deque_clear (d : deque) : deque := {| maxlen := maxlen d; items := [] |}.

(** ** The window *)
Record OutcomeWindow : Type := {
  windows : dict string deque;
  epochs : dict string Z;
  writes_in_flight : dict string Z;
  last_seen : dict string string;
}.

Definition new_window : OutcomeWindow :=
  {| windows := []; epochs := []; writes_in_flight := []; last_seen := [] |}.

Definition epoch_of (self : OutcomeWindow) (name : string) : Z :=
  default 0 (dget (epochs self) name).

Definition in_flight (self : OutcomeWindow) (name : string) : Z :=
  default 0 (dget (writes_in_flight self) name).

(** [self._epochs[name] = self._epochs.get(name, 0) + 1] *)
Definition move_epoch (self : OutcomeWindow) (name : string) : OutcomeWindow := {|
  windows := windows self;
  epochs := dset (epochs self) name (epoch_of self name + 1);
  writes_in_flight := writes_in_flight self;
  last_seen := last_seen self |}.

Definition set_windows (self : OutcomeWindow) (d : dict string deque) : OutcomeWindow := {|
  windows := d; epochs := epochs self;
  writes_in_flight := writes_in_flight self; last_seen := last_seen self |}.

(** [_resolve]: the ring for the name, created or resized on the way. *)
Definition resolve (self : OutcomeWindow) (name : string) (window_size : Z) :
    OutcomeWindow * deque :=
  let n := Z.max window_size 0 in
  match dget (windows self) name with
  | None => let w := deque_of [] n in (set_windows self (dset (windows self) name w), w)
  | Some w =>
      if maxlen w =? n then (self, w)
      else let w' := deque_of (items w) n in
           (set_windows self (dset (windows self) name w'), w')
  end.

(** [self._resolve(name, size).append(x)]: the deque is updated in place. *)
Definition append_outcome (self : OutcomeWindow) (name : string) (window_size x : Z) :
    OutcomeWindow :=
  let '(self', w) := resolve self name window_size in
  set_windows self' (dset (windows self') name (deque_append w x)).

Definition record_success (self : OutcomeWindow) (name : string) (window_size : Z) :
    OutcomeWindow := append_outcome self name window_size SUCCESS_OUTCOME.

Definition record_success_if_epoch (self : OutcomeWindow) (name : string)
    (window_size hint_epoch : Z) (require_no_write_in_flight : bool) :
    OutcomeWindow * bool :=
  if require_no_write_in_flight && negb (in_flight self name =? 0) then (self, false)
  else if negb (epoch_of self name =? hint_epoch) then (self, false)
  else (append_outcome self name window_size SUCCESS_OUTCOME, true).

Definition record_failure (self : OutcomeWindow) (name : string) (window_size : Z) :
    OutcomeWindow := move_epoch (append_outcome self name window_size FAILURE_OUTCOME) name.

Definition record_rejection (self : OutcomeWindow) (name : string) (window_size : Z) :
    OutcomeWindow := append_outcome self name window_size FAILURE_OUTCOME.

Definition begin_write (self : OutcomeWindow) (name : string) : OutcomeWindow := {|
  windows := windows self; epochs := epochs self;
  writes_in_flight := dset (writes_in_flight self) name (in_flight self name + 1);
  last_seen := last_seen self |}.

Definition end_write (self : OutcomeWindow) (name : string) : OutcomeWindow :=
  let remaining := in_flight self name - 1 in
  move_epoch {|
    windows := windows self; epochs := epochs self;
    writes_in_flight :=
      (if 0 <? remaining then dset (writes_in_flight self) name remaining
       else ddel (writes_in_flight self) name);
    last_seen := last_seen self |} name.

Definition bump (self : OutcomeWindow) (name : string) : OutcomeWindow := move_epoch self name.

Definition clear_ring (self : OutcomeWindow) (name : string) : OutcomeWindow :=
  match dget (windows self) name with
  | None => self
  | Some w => set_windows self (dset (windows self) name (deque_clear w))
  end.

Definition set_last_seen (self : OutcomeWindow) (name st : string) : OutcomeWindow := {|
  windows := windows self; epochs := epochs self;
  writes_in_flight := writes_in_flight self;
  last_seen := dset (last_seen self) name st |}.

Definition observe_state (self : OutcomeWindow) (name st : string) (as_of : option Z) :
    OutcomeWindow * bool :=
  if bool_decide (dget (last_seen self) name = Some st) then (self, false)
  else if match as_of with
          | Some e => negb (epoch_of self name =? e)
          | None => false
          end then (self, false)
  else
    let previous := dget (last_seen self) name in
    let self1 := set_last_seen self name st in
    match previous with
    | None => (self1, false)
    | Some _ =>
        let self2 := move_epoch self1 name in
        if negb (bool_decide (st = value CLOSED)) then (self2, false)
        else (clear_ring self2 name, true)
    end.

Definition clear (self : OutcomeWindow) (name : string) : OutcomeWindow :=
  move_epoch (clear_ring self name) name.

Definition epochs_snapshot (self : OutcomeWindow) : dict string Z := epochs self.

Definition ring_counts (w : deque) : Z * Z := (Zsum (items w), Zlength (items w)).

Definition read (self : OutcomeWindow) (name : string) : Z * Z :=
  match dget (windows self) name with
  | None => (0, 0)
  | Some w => ring_counts w
  end.

Definition read_each (self : OutcomeWindow) : dict string (Z * Z) :=
  (λ p, (p.1, ring_counts p.2)) <$> windows self.

Definition read_all (self : OutcomeWindow) : Z * Z :=
  foldl (λ acc w, (acc.1 + (ring_counts w).1, acc.2 + (ring_counts w).2))
        (0, 0) (dvals (windows self)).

(** ** The trip predicate *)
Definition evaluate_trip (consecutive_failures window_failures window_total : Z)
    (config : CircuitBreakerConfig) : option string :=
  let rate_trips :=
    if fl_ltb (fl_of_Z 0) (failure_rate_threshold config)
       && (0 <? window_total) && (minimum_calls config <=? window_total)
    then
      let failure_rate :=
        fl_mul (fl_div (fl_of_Z window_failures) (fl_of_Z window_total)) (fl_of_Z 100) in
      fl_leb (failure_rate_threshold config) failure_rate
    else false in
  if rate_trips then Some TRIP_REASON_RATE
  else if failure_threshold config <=? consecutive_failures then Some TRIP_REASON_COUNT
  else None.

(** ** Sequences of operations

    [window_op] is one call on the window, whoever makes it; [apply_op] performs
    it (dropping its result), so a list of operations is any history of the
    window under any interleaving of its callers. *)
Inductive window_op : Type :=
| OpRecordSuccess (name : string) (window_size : Z)
| OpRecordSuccessIfEpoch (name : string) (window_size hint_epoch : Z) (require : bool)
| OpRecordFailure (name : string) (window_size : Z)
| OpRecordRejection (name : string) (window_size : Z)
| OpBeginWrite (name : string)
| OpEndWrite (name : string)
| OpBump (name : string)
| OpObserveState (name st : string) (as_of : option Z)
| OpClear (name : string).

Definition apply_op (self : OutcomeWindow) (op : window_op) : OutcomeWindow :=
  match op with
  | OpRecordSuccess n sz => record_success self n sz
  | OpRecordSuccessIfEpoch n sz e r => (record_success_if_epoch self n sz e r).1
  | OpRecordFailure n sz => record_failure self n sz
  | OpRecordRejection n sz => record_rejection self n sz
  | OpBeginWrite n => begin_write self n
  | OpEndWrite n => end_write self n
  | OpBump n => bump self n
  | OpObserveState n st a => (observe_state self n st a).1
  | OpClear n => clear self n
  end.

Definition apply_ops : OutcomeWindow → list window_op → OutcomeWindow := foldl apply_op.

(** An operation that tells later readers something happened to [name]: a
    failure, the end of a failure's write, an operator's bump or clear, and an
    observation that changes a state already seen. *)
Definition moves_epoch (name : string) (self : OutcomeWindow) (op : window_op) : bool :=
  match op with
  | OpRecordFailure n _ | OpEndWrite n | OpBump n | OpClear n => bool_decide (n = name)
  | OpObserveState n st a =>
      bool_decide (n = name)
      && match dget (last_seen self) n with
         | None => false
         | Some prev =>
             negb (bool_decide (prev = st))
             && match a with None => true | Some e => epoch_of self n =? e end
         end
  | _ => false
  end.

Fixpoint epoch_moves (name : string) (self : OutcomeWindow) (ops : list window_op) : Z :=
  match ops with
  | [] => 0
  | op :: ops' =>
      (if moves_epoch name self op then 1 else 0) + epoch_moves name (apply_op self op) ops'
  end.

(** ** The ring *)

Lemma keep_right_length n l : Zlength (keep_right n l) <= Z.max n 0.
Proof. unfold keep_right, Zlength. rewrite length_drop. lia. Qed.

Lemma keep_right_small n l : Zlength l <= n → keep_right n l = l.
Proof.
  unfold keep_right, Zlength. intros H.
  by replace (length l - Z.to_nat n)%nat with 0%nat by lia.
Qed.

Lemma keep_right_snoc n l x :
  0 <= n → keep_right n (keep_right n l ++ [x]) = keep_right n (l ++ [x]).
Proof.
  intros Hn. destruct (decide (Zlength l <= n)) as [Hle|Hgt].
  { by rewrite (keep_right_small n l). }
  unfold keep_right, Zlength in *. rewrite !length_app, length_drop. simpl.
  destruct (Z.to_nat n) as [|m] eqn:Hm.
  - rewrite !drop_ge; [done| |]; rewrite length_app, ?length_drop; simpl; lia.
  - rewrite drop_app_le by (rewrite length_drop; lia).
    rewrite drop_drop, drop_app_le by lia. f_equal. f_equal. lia.
Qed.

Lemma keep_right_keep_right n m l :
  keep_right n (keep_right m l) = keep_right (Z.min n m) l ∨ n < 0 ∨ m < 0.
Proof.
  destruct (decide (0 <= n ∧ 0 <= m)) as [[Hn Hm]|]; [|lia]. left.
  unfold keep_right. rewrite length_drop, drop_drop. f_equal. lia.
Qed.

Lemma keep_right_subseteq n l x : x ∈ keep_right n l → x ∈ l.
Proof.
  unfold keep_right. intros Hx. rewrite <-(take_drop (length l - Z.to_nat n) l).
  apply elem_of_app. by right.
Qed.

(** Appending outcomes one by one to an empty ring of size [n] leaves exactly
    the last [n] of them, oldest first. *)
Lemma deque_appends n xs :
  0 <= n → items (foldl deque_append (deque_of [] n) xs) = keep_right n xs.
Proof.
  intros Hn.
  induction xs as [|x xs IH] using rev_ind; [done|].
  assert (maxlen (foldl deque_append (deque_of [] n) xs) = n) as Hm.
  { clear IH. induction xs as [|y xs IH] using rev_ind; [done|].
    rewrite foldl_snoc. done. }
  rewrite foldl_snoc. simpl. rewrite IH, Hm. by apply keep_right_snoc.
Qed.

Definition outcome_ok (x : Z) : Prop := x = FAILURE_OUTCOME ∨ x = SUCCESS_OUTCOME.

Definition ring_ok (w : deque) : Prop :=
  0 <= maxlen w ∧ Zlength (items w) <= maxlen w ∧ Forall outcome_ok (items w).

(** The window's invariant: every ring is bounded and holds only outcomes, and
    an in-flight count that is present is positive. *)
Definition window_ok (self : OutcomeWindow) : Prop :=
  (∀ name w, dget (windows self) name = Some w → ring_ok w) ∧
  (∀ name c, dget (writes_in_flight self) name = Some c → 0 < c).

Lemma ring_ok_append w x : ring_ok w → outcome_ok x → ring_ok (deque_append w x).
Proof.
  intros (Hm & Hl & Hf) Hx. split_and!; simpl; [done| |].
  - pose proof (keep_right_length (maxlen w) (items w ++ [x])). lia.
  - apply Forall_forall. intros y Hy%keep_right_subseteq.
    apply elem_of_app in Hy as [Hy|Hy%list_elem_of_singleton]; subst; [|done].
    by eapply Forall_forall in Hf.
Qed.

Lemma ring_ok_resize l n : 0 <= n → Forall outcome_ok l → ring_ok (deque_of l n).
Proof.
  intros Hn Hf. split_and!; simpl; [done| |].
  - pose proof (keep_right_length n l). lia.
  - apply Forall_forall. intros y Hy%keep_right_subseteq. by eapply Forall_forall in Hf.
Qed.

Lemma Zsum_outcomes l : Forall outcome_ok l → 0 <= Zsum l <= Zlength l.
Proof.
  unfold Zlength. induction 1 as [|x l [->| ->] Hl IH]; simpl; [lia|..];
    unfold FAILURE_OUTCOME, SUCCESS_OUTCOME; lia.
Qed.

Lemma ring_counts_bounds w :
  ring_ok w → 0 <= (ring_counts w).1 <= (ring_counts w).2 ∧ (ring_counts w).2 <= maxlen w.
Proof.
  intros (Hm & Hl & Hf). simpl. pose proof (Zsum_outcomes _ Hf). lia.
Qed.

(** ** Every operation keeps the invariant *)

Lemma window_ok_set_ring self n w :
  window_ok self → ring_ok w → window_ok (set_windows self (dset (windows self) n w)).
Proof.
  intros [Hr Hf] Hw. split; [|done]. intros name w'. simpl.
  rewrite dget_dset. case_decide; [by intros [= <-]|apply Hr].
Qed.

Lemma window_ok_move self n : window_ok self → window_ok (move_epoch self n).
Proof. done. Qed.

Lemma window_ok_seen self n st : window_ok self → window_ok (set_last_seen self n st).
Proof. done. Qed.

Lemma resolve_ok self n sz :
  window_ok self → window_ok (resolve self n sz).1 ∧ ring_ok (resolve self n sz).2.
Proof.
  intros Hok. unfold resolve. destruct (dget (windows self) n) as [w|] eqn:Hw.
  - pose proof (proj1 Hok n w Hw) as Hring. case_match; [done|].
    assert (ring_ok (deque_of (items w) (Z.max sz 0))).
    { apply ring_ok_resize; [lia|]. by destruct Hring as (_ & _ & ?). }
    split; [by apply window_ok_set_ring|done].
  - assert (ring_ok (deque_of [] (Z.max sz 0))) by (apply ring_ok_resize; [lia|done]).
    split; [by apply window_ok_set_ring|done].
Qed.

Lemma append_outcome_ok self n sz x :
  window_ok self → outcome_ok x → window_ok (append_outcome self n sz x).
Proof.
  intros Hok Hx. unfold append_outcome. pose proof (resolve_ok self n sz Hok) as [H1 H2].
  destruct (resolve self n sz) as [self' w]. simpl in *.
  apply window_ok_set_ring; [done|]. by apply ring_ok_append.
Qed.

Lemma clear_ring_ok self n : window_ok self → window_ok (clear_ring self n).
Proof.
  intros Hok. unfold clear_ring. case_match eqn:Hw; [|done].
  apply window_ok_set_ring; [done|]. destruct (proj1 Hok _ _ Hw) as (Hm & _ & _).
  split_and!; simpl; [done| |constructor]. unfold Zlength. simpl. lia.
Qed.

Lemma begin_write_ok self n : window_ok self → window_ok (begin_write self n).
Proof.
  intros [Hr Hf]. split; [done|]. intros name c. simpl. rewrite dget_dset.
  case_decide; [|apply Hf]. intros [= <-]. unfold in_flight.
  destruct (dget (writes_in_flight self) n) as [c0|] eqn:Hc; simpl; [|lia].
  apply Hf in Hc. lia.
Qed.

Lemma end_write_ok self n : window_ok self → window_ok (end_write self n).
Proof.
  intros [Hr Hf]. apply window_ok_move. split; [done|]. intros name c. simpl.
  case_match eqn:Hrem.
  - rewrite dget_dset. case_decide; [|apply Hf]. intros [= <-]. by apply Z.ltb_lt.
  - rewrite dget_ddel. case_decide; [done|apply Hf].
Qed.

Create HintDb window.
#[export] Hint Resolve window_ok_move window_ok_seen append_outcome_ok clear_ring_ok
  begin_write_ok end_write_ok : window.
#[export] Hint Extern 1 (outcome_ok _) => (by left) || (by right) : window.

Lemma apply_op_ok self op : window_ok self → window_ok (apply_op self op).
Proof.
  intros Hok. destruct op; simpl; unfold record_success, record_success_if_epoch,
    record_failure, record_rejection, bump, observe_state, clear; branches;
    eauto 6 with window.
Qed.

Lemma apply_ops_ok self ops : window_ok self → window_ok (apply_ops self ops).
Proof.
  revert self. induction ops as [|op ops IH]; intros self Hok; [done|].
  apply IH. by apply apply_op_ok.
Qed.

Lemma new_window_ok : window_ok new_window.
Proof. done. Qed.

(** ** Epochs *)

Lemma epoch_of_append self n sz x m :
  epoch_of (append_outcome self n sz x) m = epoch_of self m.
Proof. unfold append_outcome, resolve. by branches. Qed.

Lemma epoch_of_move self n m :
  epoch_of (move_epoch self n) m = epoch_of self m + if decide (n = m) then 1 else 0.
Proof.
  unfold epoch_of at 1. simpl. rewrite dget_dset. case_decide; subst; simpl; [done|].
  unfold epoch_of. lia.
Qed.

Lemma epoch_of_clear_ring self n m : epoch_of (clear_ring self n) m = epoch_of self m.
Proof. unfold clear_ring. by case_match. Qed.

Lemma epoch_of_apply self op name :
  epoch_of (apply_op self op) name =
  epoch_of self name + if moves_epoch name self op then 1 else 0.
Proof.
  destruct op as [n sz|n sz e r|n sz|n sz|n|n|n|n st a|n]; simpl;
    unfold record_success, record_success_if_epoch, record_failure, record_rejection,
      bump, clear, end_write.
  - rewrite epoch_of_append. lia.
  - branches; rewrite ?epoch_of_append; lia.
  - rewrite epoch_of_move, epoch_of_append. branches; lia.
  - rewrite epoch_of_append. lia.
  - unfold epoch_of; simpl. lia.
  - rewrite epoch_of_move. branches; unfold epoch_of; simpl; lia.
  - rewrite epoch_of_move. branches; lia.
  - unfold observe_state. destruct (dget (last_seen self) n) as [prev|] eqn:Hseen.
    + destruct (decide (prev = st)) as [->|Hne].
      { rewrite bool_decide_true by done. simpl. rewrite (bool_decide_true (st = st)) by done.
        rewrite andb_false_r. lia. }
      rewrite bool_decide_false by congruence. rewrite (bool_decide_false (prev = st)) by done.
      simpl. destruct a as [e|]; [destruct (epoch_of self n =? e) eqn:He|]; simpl;
        rewrite ?andb_true_r, ?andb_false_r; [|lia|];
        (case_match; simpl; rewrite ?epoch_of_clear_ring, epoch_of_move;
         change (epoch_of (set_last_seen self n st) name) with (epoch_of self name);
         by repeat case_decide; repeat case_bool_decide).
    + rewrite andb_false_r. branches; unfold epoch_of; simpl; lia.
  - rewrite epoch_of_move, epoch_of_clear_ring. branches; lia.
Qed.

Lemma epoch_of_applies self ops name :
  epoch_of (apply_ops self ops) name = epoch_of self name + epoch_moves name self ops.
Proof.
  revert self. induction ops as [|op ops IH]; intros self; simpl; [lia|].
  rewrite IH, epoch_of_apply. lia.
Qed.

Lemma epoch_moves_nonneg name self ops : 0 <= epoch_moves name self ops.
Proof.
  revert self. induction ops as [|op ops IH]; intros self; simpl; [lia|].
  specialize (IH (apply_op self op)). case_match; lia.
Qed.

(** ** Properties *)

(** Whatever history of calls a fresh window goes through, the evidence it
    reports for a name is a genuine pair: at least zero failures, never more
    failures than calls, and never more calls than the ring's bound. *)
Theorem evidence_bounded ops name w :
  dget (windows (apply_ops new_window ops)) name = Some w →
  let '(f, t) := read (apply_ops new_window ops) name in
  0 <= f ∧ f <= t ∧ t <= maxlen w.
Proof.
  intros Hw. pose proof (apply_ops_ok _ ops new_window_ok) as [Hok _].
  pose proof (ring_counts_bounds w (Hok name w Hw)) as Hb.
  unfold read. rewrite Hw. destruct (ring_counts w). simpl in *. lia.
Qed.

Lemma evidence_bounded_witness :
  let ops := [OpRecordFailure "db" 2; OpRecordFailure "db" 2; OpRecordSuccess "db" 2] in
  let '(f, t) := read (apply_ops new_window ops) "db" in 0 <= f ∧ f <= t ∧ t <= 2.
Proof.
  apply (evidence_bounded
    [OpRecordFailure "db" 2; OpRecordFailure "db" 2; OpRecordSuccess "db" 2]
    "db" {| maxlen := 2; items := [1; 0] |}). reflexivity.
Defined.

(** The read-free fast path is exact.  A success hinted at an epoch read
    before any history of other calls is appended if and only if none of those
    calls was a failure, a landed failure write, a bump, a clear or an observed
    state change of that name, and (when required) no failure write is in
    flight; when it is refused the window is untouched. *)
Theorem fast_path_exact self ops name sz req :
  let now := apply_ops self ops in
  let '(now', ok) := record_success_if_epoch now name sz (epoch_of self name) req in
  (ok = true ↔ epoch_moves name self ops = 0 ∧ (req = true → in_flight now name = 0)) ∧
  now' = (if ok then append_outcome now name sz SUCCESS_OUTCOME else now).
Proof.
  intros now. unfold record_success_if_epoch, now. rewrite epoch_of_applies.
  pose proof (epoch_moves_nonneg name self ops) as Hnn.
  destruct (Z.eqb_spec (epoch_of self name + epoch_moves name self ops) (epoch_of self name));
  destruct (Z.eqb_spec (in_flight (apply_ops self ops) name) 0);
  destruct req; simpl; (split; [|done]); split; intros; try done; try (split; [lia|done]);
  intuition lia.
Qed.

(** Observing a name back in CLOSED after it was seen in another state drops
    its evidence, reports that it did, and moves the epoch; observing it again
    changes nothing, so one close clears the ring exactly once. *)
Theorem reentry_clears_once self name prev :
  dget (last_seen self) name = Some prev → prev ≠ value CLOSED →
  let '(self1, cleared) := observe_state self name (value CLOSED) None in
  cleared = true ∧ read self1 name = (0, 0) ∧
  epoch_of self1 name = epoch_of self name + 1 ∧
  observe_state self1 name (value CLOSED) None = (self1, false).
Proof.
  intros Hseen Hne. unfold observe_state at 1. rewrite Hseen.
  rewrite bool_decide_false by congruence. simpl.
  split_and!; [done| | |].
  - unfold read, clear_ring. simpl. destruct (dget (windows self) name) eqn:Hw; simpl.
    + by rewrite dget_dset_eq.
    + by rewrite Hw.
  - rewrite epoch_of_clear_ring, epoch_of_move, decide_True by done. done.
  - unfold observe_state, clear_ring. simpl.
    destruct (dget (windows self) name); simpl;
      by rewrite dget_dset_eq, bool_decide_true by done.
Qed.

Lemma reentry_clears_once_witness :
  let w := apply_ops new_window
    [OpRecordFailure "db" 5; OpObserveState "db" "open" None] in
  dget (last_seen w) "db" = Some "open" ∧
  read (observe_state w "db" "closed" None).1 "db" = (0, 0).
Proof.
  set (w := apply_ops new_window [OpRecordFailure "db" 5; OpObserveState "db" "open" None]).
  split; [reflexivity|].
  pose proof (reentry_clears_once w "db" "open" eq_refl ltac:(done)) as H.
  destruct (observe_state w "db" (value CLOSED) None) as [w' c] eqn:E.
  replace "closed" with (value CLOSED) by reflexivity. rewrite E. apply H.
Defined.

(** A stale observation is dropped.  A row read before something happened to
    the name (its epoch has moved since) changes neither the evidence nor the
    epoch nor the last state seen. *)
Theorem stale_observation_dropped self ops name st :
  epoch_moves name self ops ≠ 0 →
  observe_state (apply_ops self ops) name st (Some (epoch_of self name)) =
  (apply_ops self ops, false).
Proof.
  intros Hm. unfold observe_state. case_bool_decide; [done|].
  rewrite epoch_of_applies. by rewrite (proj2 (Z.eqb_neq _ _)) by lia.
Qed.

Lemma stale_observation_dropped_witness :
  let ops := [OpRecordFailure "db" 5] in
  observe_state (apply_ops new_window ops) "db" "closed" (Some 0) =
  (apply_ops new_window ops, false).
Proof.
  apply (stale_observation_dropped new_window [OpRecordFailure "db" 5] "db" "closed").
  vm_compute. discriminate.
Defined.

(** ** The trip decision *)

(** A window of at most 100 calls (the default ring) and at least as many calls
    as failures, enumerated. *)
Definition small_windows : list (Z * Z) :=
  flat_map (λ t, (λ f, (f, t)) <$> seqZ 0 (t + 1)) (seqZ 0 101).

Lemma elem_of_small_windows f t : 0 <= f <= t → t <= 100 → (f, t) ∈ small_windows.
Proof.
  intros Hf Ht. unfold small_windows. apply list_elem_of_In, in_flat_map.
  exists t. rewrite <-!list_elem_of_In. split; [apply elem_of_seqZ; lia|].
  apply list_elem_of_fmap. exists f. split; [done|]. apply elem_of_seqZ. lia.
Qed.

Definition rate_reached (thr f t : Z) : bool :=
  fl_leb (fl_of_Z thr) (fl_mul (fl_div (fl_of_Z f) (fl_of_Z t)) (fl_of_Z 100)).

Lemma rate_reached_50 f t :
  0 <= f <= t → 0 < t <= 100 → rate_reached 50 f t = (t <=? 2 * f).
Proof.
  intros Hf Ht.
  assert (forallb (λ p, let '(f, t) := p in
    (t =? 0) || Bool.eqb (rate_reached 50 f t) (t <=? 2 * f)) small_windows = true) as Hall
    by (vm_compute; reflexivity).
  rewrite forallb_forall in Hall. specialize (Hall (f, t)).
  rewrite <-list_elem_of_In in Hall. specialize (Hall (elem_of_small_windows f t Hf (proj2 Ht))).
  simpl in Hall. apply orb_true_iff in Hall as [Hz|Heq]; [apply Z.eqb_eq in Hz; lia|].
  by apply Bool.eqb_prop in Heq.
Qed.

(** At the shipped thresholds the binary64 rate test is the exact one: over
    any window of the default ring the circuit trips on rate exactly when at
    least ten calls are held and at least half of them failed, and otherwise on
    the fifth consecutive failure, however few calls the window holds. *)
Theorem evaluate_trip_default consecutive f t :
  0 <= f <= t → t <= 100 →
  evaluate_trip consecutive f t default_config =
  if (10 <=? t) && (t <=? 2 * f) then Some TRIP_REASON_RATE
  else if 5 <=? consecutive then Some TRIP_REASON_COUNT else None.
Proof.
  intros Hf Ht. unfold evaluate_trip. simpl failure_rate_threshold. simpl minimum_calls.
  simpl failure_threshold.
  replace (fl_ltb (fl_of_Z 0) (fl_of_Z 50)) with true by reflexivity.
  destruct (10 <=? t) eqn:H10; simpl.
  - apply Z.leb_le in H10. rewrite (proj2 (Z.ltb_lt 0 t)) by lia. simpl.
    change (fl_leb _ _) with (rate_reached 50 f t). by rewrite rate_reached_50 by lia.
  - by rewrite andb_false_r.
Qed.

Lemma evaluate_trip_default_witness :
  evaluate_trip 3 6 11 default_config = Some TRIP_REASON_RATE ∧
  evaluate_trip 5 5 5 default_config = Some TRIP_REASON_COUNT.
Proof.
  split; [apply (evaluate_trip_default 3 6 11)|apply (evaluate_trip_default 5 5 5)]; lia.
Defined.

(** The rate trigger does not always fire at its threshold.  With the
    threshold set to 29 and 29 of the last 100 calls failed, the observed
    failure percentage is the threshold, yet the binary64 product
    [29 / 100 * 100] rounds below it and the breaker stays closed. *)
Theorem rate_threshold_missed :
  let config := {|
    enabled := true; failure_threshold := 1000; recovery_timeout := 60;
    success_threshold := 2; minimum_calls := 10; sliding_window_size := 100;
    failure_rate_threshold := fl_of_Z 29; fallback_strategy := "cache";
    fallback_cache_ttl_seconds := 300; cb_open_burn_rate_multiplier := fl_of_Z 10;
    cb_open_base_consumption_minutes := fl_of_Z 1; manual_override_ttl_minutes := 90;
    half_open_max_calls := 3; half_open_stuck_timeout_seconds := 60;
    max_pending_duration_hours := 4; max_retry_lifetime_hours := 24;
    rate_limit_cascade_threshold := rate_limit_cascade_threshold default_config;
    rate_limit_cascade_window_seconds := rate_limit_cascade_window_seconds default_config;
    rate_limit_cascade_rate := rate_limit_cascade_rate default_config;
    rate_limit_cascade_minimum_calls := rate_limit_cascade_minimum_calls default_config;
    self_ddos_protection_enabled := self_ddos_protection_enabled default_config;
    self_ddos_rps_limit := self_ddos_rps_limit default_config;
    self_ddos_window_seconds := self_ddos_window_seconds default_config;
    self_ddos_backoff_multiplier := self_ddos_backoff_multiplier default_config;
    self_ddos_backoff_base_seconds := self_ddos_backoff_base_seconds default_config;
    self_ddos_backoff_max_seconds := self_ddos_backoff_max_seconds default_config;
    self_ddos_backoff_jitter_factor := self_ddos_backoff_jitter_factor default_config;
    rate_limit_distributed := rate_limit_distributed default_config |} in
  evaluate_trip 0 29 100 config = None ∧ evaluate_trip 0 30 100 config = Some TRIP_REASON_RATE.
Proof. vm_compute. done. Qed.
