(* ===== verification/CBInterface.v ===== *)
(** * What a circuit-breaker state repository promises

    [interfaces/repositories.py] declares [CircuitBreakerStateRepository]: the
    operations the service calls, and in their docstrings the branch contract
    every adapter (in-memory, Redis, SQL, layered) must follow.  The operations
    are a type class; the contract is an abstract specification over the
    [cb_view] of a row (what a caller may rely on: not the adapter's row ids or
    bookkeeping timestamps), with an absent row read as the CLOSED default.
    [RepositoryLaws] says an implementation follows it: each operation changes
    the one row it names, as specified, and reports what it did; the law of the
    slot acquire is that of its numbered branches ([branch_acquire]), since the
    adapters do not consult the override the documentation also lists
    ([spec_acquire]).  The service's theorems use these laws only. *)

From S2P Require Import Prelude CBData.

(** ** The view of a row *)
Record cb_view : Type := {
  v_state : string;
  v_failures : Z;
  v_successes : Z;
  v_last_failure : option Z;
  v_opened_at : option Z;
  v_controlled : bool;
  v_controlled_by : option Z;
  v_reason : string;
  v_expires : option Z;
  v_half_count : Z;
  v_half_started : option Z;
}.

Definition view (row : CircuitBreakerStateData) : cb_view := {|
  v_state := state row;
  v_failures := failure_count row;
  v_successes := success_count row;
  v_last_failure := last_failure_at row;
  v_opened_at := opened_at row;
  v_controlled := manually_controlled row;
  v_controlled_by := controlled_by_id row;
  v_reason := control_reason row;
  v_expires := manual_override_expires_at row;
  v_half_count := half_open_request_count row;
  v_half_started := half_open_window_started_at row |}.

(** An absent row is the CLOSED default. *)
Definition fresh_view : cb_view := {|
  v_state := value CLOSED; v_failures := 0; v_successes := 0; v_last_failure := None;
  v_opened_at := None; v_controlled := false; v_controlled_by := None; v_reason := "";
  v_expires := None; v_half_count := 0; v_half_started := None |}.

Definition v_pinned (now : Z) (v : cb_view) : bool :=
  manual_pin_is_active now (v_controlled v) (v_expires v).

Definition v_is (v : cb_view) (s : CircuitBreakerStateEnum) : bool :=
  bool_decide (v_state v = value s).

(** ** The operations' arguments that are not one or two values *)
Record update_args : Type := {
  u_state : string;
  u_failure_count : option Z;
  u_success_count : option Z;
  u_opened_at : option Z;
  u_last_failure_at : option Z;
  u_half_open_request_count : option Z;
  u_reset_half_open_count : bool;
  u_clear_opened_at : bool;
  u_skip_if_pinned : bool;
  u_keep_open : bool;
}.

(** [update_state(service_name, state)] with every option at its default. *)
Definition update_defaults (s : string) : update_args := {|
  u_state := s; u_failure_count := None; u_success_count := None; u_opened_at := None;
  u_last_failure_at := None; u_half_open_request_count := None;
  u_reset_half_open_count := false; u_clear_opened_at := false;
  u_skip_if_pinned := false; u_keep_open := false |}.

(** What a cluster-wide read gives: the rows, or the reason it cannot be
    trusted. *)
Inductive cluster_read : Type :=
| ClusterRows (rows : list CircuitBreakerStateData)
| Unavailable (reason : string).

(** ** The operations *)
Class CircuitBreakerStateRepository (R : Type) : Type := {
  r_get_by_service_name : R → string → option CircuitBreakerStateData;
  r_get_or_create : Z → R → string → R * CircuitBreakerStateData;
  r_update_state : Z → R → string → update_args → R * bool;
  r_record_failure : Z → R → string → R * CircuitBreakerStateData;
  r_record_success : Z → R → string → R * CircuitBreakerStateData;
  r_record_success_with_close_check :
    Z → R → string → Z → R * CircuitBreakerCloseAttempt;
  r_record_failure_with_open_check : Z → R → string → R * CircuitBreakerOpenAttempt;
  r_trip_to_open : Z → R → string → Z → R * CircuitBreakerOpenAttempt;
  r_set_manual_control :
    Z → R → string → string → option Z → string → option Z → R * bool;
  r_clear_manual_control : Z → R → string → bool → R * bool;
  r_get_all_states : R → list CircuitBreakerStateData;
  r_get_cluster_states : R → cluster_read;
  r_reset : Z → R → string → R * bool;
  r_delete_state : R → string → R * bool;
  r_atomic_force_open :
    Z → R → string → string → option Z → option Z → R * (bool * string * string);
  r_atomic_force_close :
    Z → R → string → string → option Z → option Z → R * (bool * string * string);
  r_atomic_reset : Z → R → string → string → option Z → R * (bool * string * string);
  r_try_acquire_half_open_slot : Z → R → string → Z → Z → R * (bool * string * string);
  r_reset_half_open_count : Z → R → string → R;
}.

(** ** The abstract specification *)

Definition spec_record_failure (now : Z) (v : cb_view) : cb_view := {|
  v_state := v_state v; v_failures := v_failures v + 1; v_successes := v_successes v;
  v_last_failure := Some now; v_opened_at := v_opened_at v; v_controlled := v_controlled v;
  v_controlled_by := v_controlled_by v; v_reason := v_reason v; v_expires := v_expires v;
  v_half_count := v_half_count v; v_half_started := v_half_started v |}.

Definition spec_record_success (v : cb_view) : cb_view := {|
  v_state := v_state v; v_failures := v_failures v; v_successes := v_successes v + 1;
  v_last_failure := v_last_failure v; v_opened_at := v_opened_at v;
  v_controlled := v_controlled v; v_controlled_by := v_controlled_by v;
  v_reason := v_reason v; v_expires := v_expires v;
  v_half_count := v_half_count v; v_half_started := v_half_started v |}.

(** The row a close leaves: counters, OPEN-era timestamp and trial window gone,
    the override fields as they were. *)
Definition spec_closed (v : cb_view) : cb_view := {|
  v_state := value CLOSED; v_failures := 0; v_successes := 0;
  v_last_failure := v_last_failure v; v_opened_at := None;
  v_controlled := v_controlled v; v_controlled_by := v_controlled_by v;
  v_reason := v_reason v; v_expires := v_expires v;
  v_half_count := 0; v_half_started := None |}.

Definition spec_close_check (thr : Z) (v : cb_view) : cb_view * bool :=
  if v_is v HALF_OPEN && (thr <=? v_successes v + 1) then (spec_closed v, true)
  else (spec_record_success v, false).

Definition spec_open_check (now : Z) (v : cb_view) : cb_view * bool :=
  if v_is v HALF_OPEN then
    ({| v_state := value OPEN; v_failures := 0; v_successes := 0;
        v_last_failure := v_last_failure v; v_opened_at := Some now;
        v_controlled := v_controlled v; v_controlled_by := v_controlled_by v;
        v_reason := v_reason v; v_expires := v_expires v;
        v_half_count := 0; v_half_started := None |}, true)
  else (v, false).

(** The CLOSED -> OPEN trip: the view it leaves, whether this caller opened the
    circuit, and the state token it reports. *)
Definition spec_trip (now fc : Z) (v : cb_view) : cb_view * bool * string :=
  if v_pinned now v then (v, false, CIRCUIT_BREAKER_PINNED_TOKEN)
  else if v_is v CLOSED then
    ({| v_state := value OPEN; v_failures := fc; v_successes := 0;
        v_last_failure := v_last_failure v; v_opened_at := Some now;
        v_controlled := false; v_controlled_by := None;
        v_reason := v_reason v; v_expires := None;
        v_half_count := 0; v_half_started := None |}, true, value OPEN)
  else (v, false, v_state v).

Definition spec_update (now : Z) (a : update_args) (v : cb_view) : cb_view :=
  if (u_skip_if_pinned a && v_pinned now v)
     || (u_keep_open a && (v_is v OPEN || v_is v HALF_OPEN)) then v
  else {|
    v_state := u_state a;
    v_failures := default (v_failures v) (u_failure_count a);
    v_successes := default (v_successes v) (u_success_count a);
    v_last_failure :=
      match u_last_failure_at a with Some t => Some t | None => v_last_failure v end;
    v_opened_at :=
      if u_clear_opened_at a then None
      else match u_opened_at a with Some t => Some t | None => v_opened_at v end;
    v_controlled := v_controlled v; v_controlled_by := v_controlled_by v;
    v_reason := v_reason v; v_expires := v_expires v;
    v_half_count :=
      if u_reset_half_open_count a then 0
      else default (v_half_count v) (u_half_open_request_count a);
    v_half_started := if u_reset_half_open_count a then None else v_half_started v |}.

Definition spec_set_manual (now : Z) (s : string) (by_id : option Z) (reason : string)
    (exp : option Z) (v : cb_view) : cb_view := {|
  v_state := s; v_failures := v_failures v; v_successes := v_successes v;
  v_last_failure := v_last_failure v;
  v_opened_at := if bool_decide (s = value OPEN) then Some now else v_opened_at v;
  v_controlled := true; v_controlled_by := by_id; v_reason := reason; v_expires := exp;
  v_half_count := v_half_count v; v_half_started := v_half_started v |}.

Definition spec_clear_manual (preserve : bool) (v : cb_view) : cb_view := {|
  v_state := v_state v; v_failures := v_failures v; v_successes := v_successes v;
  v_last_failure := v_last_failure v; v_opened_at := v_opened_at v;
  v_controlled := false; v_controlled_by := None;
  v_reason := if preserve then v_reason v else ""; v_expires := None;
  v_half_count := v_half_count v; v_half_started := v_half_started v |}.

Definition spec_force_open (now : Z) (reason : string) (by_id ttl : option Z) (v : cb_view) :
    cb_view := {|
  v_state := value OPEN; v_failures := v_failures v; v_successes := v_successes v;
  v_last_failure := v_last_failure v; v_opened_at := Some now;
  v_controlled := true; v_controlled_by := by_id; v_reason := reason;
  v_expires := resolve_manual_override_expiry now ttl;
  v_half_count := 0; v_half_started := None |}.

Definition spec_force_close (now : Z) (reason : string) (by_id ttl : option Z) (v : cb_view) :
    cb_view := {|
  v_state := value CLOSED; v_failures := 0; v_successes := 0;
  v_last_failure := v_last_failure v; v_opened_at := None;
  v_controlled := true; v_controlled_by := by_id; v_reason := reason;
  v_expires := resolve_manual_override_expiry now ttl;
  v_half_count := 0; v_half_started := None |}.

Definition spec_reset (reason : string) : cb_view := {|
  v_state := value CLOSED; v_failures := 0; v_successes := 0; v_last_failure := None;
  v_opened_at := None; v_controlled := false; v_controlled_by := None; v_reason := reason;
  v_expires := None; v_half_count := 0; v_half_started := None |}.

(** The age of the trial window exceeds the stuck timeout; an absent watermark is
    older than any timeout. *)
Definition window_stuck (now : Z) (started : option Z) (stuck_seconds : Z) : bool :=
  match started with
  | None => true
  | Some t => seconds stuck_seconds <? now - t
  end.

Definition spec_half_open (v : cb_view) (succ count : Z) (started : option Z) : cb_view := {|
  v_state := value HALF_OPEN; v_failures := v_failures v; v_successes := succ;
  v_last_failure := v_last_failure v; v_opened_at := v_opened_at v;
  v_controlled := v_controlled v; v_controlled_by := v_controlled_by v;
  v_reason := v_reason v; v_expires := v_expires v;
  v_half_count := count; v_half_started := started |}.

(** The HALF_OPEN slot acquire: (view, (allowed, previous, new)).  The numbered
    branches of the contract, in their evaluation order, decided by the state,
    the count and the watermark alone; this is what the service relies on and
    what the adapters evaluate. *)
Definition branch_acquire (now limit stuck : Z) (v : cb_view) :
    cb_view * (bool * string * string) :=
  if v_is v HALF_OPEN && (limit <=? v_half_count v) then
    if window_stuck now (v_half_started v) stuck
    then (spec_half_open v 0 1 (Some now), (true, value HALF_OPEN, value HALF_OPEN))
    else (v, (false, value HALF_OPEN, value HALF_OPEN))
  else if v_is v OPEN then
    (spec_half_open v 0 1 (Some now), (true, value OPEN, value HALF_OPEN))
  else if v_is v HALF_OPEN then
    (spec_half_open v (v_successes v) (v_half_count v + 1)
       (Some (default now (v_half_started v))), (true, value HALF_OPEN, value HALF_OPEN))
  else (v, (false, v_state v, v_state v)).

(** The acquire as documented: the last branch also lists an operator's override
    among the cases in which the call is a no-op and nothing is granted. *)
Definition spec_acquire (now limit stuck : Z) (v : cb_view) :
    cb_view * (bool * string * string) :=
  if v_pinned now v then (v, (false, v_state v, v_state v))
  else branch_acquire now limit stuck v.

Definition spec_reset_half_open (v : cb_view) : cb_view := {|
  v_state := v_state v; v_failures := v_failures v; v_successes := v_successes v;
  v_last_failure := v_last_failure v; v_opened_at := v_opened_at v;
  v_controlled := v_controlled v; v_controlled_by := v_controlled_by v;
  v_reason := v_reason v; v_expires := v_expires v;
  v_half_count := 0; v_half_started := None |}.

(** ** The laws *)
Section views.
  Context {R : Type} `{CircuitBreakerStateRepository R}.

Definition vw (r : R) (name : string) : cb_view :=
  default fresh_view (view <$> r_get_by_service_name r name).

Definition present (r : R) (name : string) : Prop :=
  is_Some (r_get_by_service_name r name).

(** What a caller can see of the repository at a name. *)
Definition seen (r : R) (name : string) : option cb_view :=
  view <$> r_get_by_service_name r name.

(** [r'] is [r] with the row of [name] there and its view [v]. *)
Definition changes (r r' : R) (name : string) (v : cb_view) : Prop :=
  ∀ n, seen r' n = if decide (n = name) then Some v else seen r n.

Lemma vw_seen r name : vw r name = default fresh_view (seen r name).
Proof. done. Qed.

Lemma present_seen r name : present r name ↔ is_Some (seen r name).
Proof. unfold present, seen. by rewrite fmap_is_Some. Qed.

Lemma seen_present r name : present r name → seen r name = Some (vw r name).
Proof. rewrite present_seen, vw_seen. by intros [v ->]. Qed.

Lemma changes_eq r r' name v : changes r r' name v → vw r' name = v.
Proof. intros Hc. rewrite vw_seen, Hc. by rewrite decide_True. Qed.

Lemma changes_ne r r' name v n : changes r r' name v → n ≠ name → vw r' n = vw r n.
Proof. intros Hc Hne. rewrite !vw_seen, Hc. by rewrite decide_False. Qed.

Lemma changes_present r r' name v : changes r r' name v → present r' name.
Proof. intros Hc. rewrite present_seen, Hc, decide_True by done. done. Qed.
End views.

Class RepositoryLaws (R : Type) `{CircuitBreakerStateRepository R} : Type := {
  r_ok : R → Prop;
  law_get_or_create now r name :
    r_ok r →
    let '(r', row) := r_get_or_create now r name in
    r_ok r' ∧ changes r r' name (vw r name) ∧ view row = vw r name ∧ service_name row = name;
  law_update_state now r name a :
    r_ok r →
    let '(r', ok) := r_update_state now r name a in
    if ok then r_ok r' ∧ present r name ∧ changes r r' name (spec_update now a (vw r name))
    else r' = r ∧ ¬ present r name;
  law_record_failure now r name :
    r_ok r →
    let '(r', row) := r_record_failure now r name in
    r_ok r' ∧ changes r r' name (spec_record_failure now (vw r name)) ∧ view row = vw r' name;
  law_record_success now r name :
    r_ok r →
    let '(r', row) := r_record_success now r name in
    r_ok r' ∧ changes r r' name (spec_record_success (vw r name)) ∧ view row = vw r' name;
  law_close_check now r name thr :
    r_ok r →
    let '(r', att) := r_record_success_with_close_check now r name thr in
    let '(v', b) := spec_close_check thr (vw r name) in
    r_ok r' ∧ changes r r' name v' ∧ did_close att = b ∧ view (close_state att) = v';
  law_open_check now r name :
    r_ok r →
    let '(r', att) := r_record_failure_with_open_check now r name in
    let '(v', b) := spec_open_check now (vw r name) in
    r_ok r' ∧ changes r r' name v' ∧ did_open att = b ∧ view (open_state att) = v';
  law_trip now r name fc :
    r_ok r →
    let '(r', att) := r_trip_to_open now r name fc in
    let '(v', b, token) := spec_trip now fc (vw r name) in
    r_ok r' ∧ changes r r' name v' ∧ did_open att = b ∧ state (open_state att) = token;
  law_set_manual now r name s by_id reason exp :
    r_ok r →
    let '(r', ok) := r_set_manual_control now r name s by_id reason exp in
    r_ok r' ∧ ok = true ∧ changes r r' name (spec_set_manual now s by_id reason exp (vw r name));
  law_clear_manual now r name preserve :
    r_ok r →
    let '(r', ok) := r_clear_manual_control now r name preserve in
    if ok then r_ok r' ∧ present r name ∧ changes r r' name (spec_clear_manual preserve (vw r name))
    else r' = r ∧ ¬ present r name;
  law_reset now r name :
    r_ok r →
    let '(r', ok) := r_reset now r name in
    if ok then r_ok r' ∧ present r name ∧ changes r r' name fresh_view
    else r' = r ∧ ¬ present r name;
  law_delete r name :
    r_ok r →
    let '(r', ok) := r_delete_state r name in
    r_ok r' ∧ (∀ n, seen r' n = if decide (n = name) then None else seen r n) ∧
    (ok = true ↔ present r name);
  law_force_open now r name reason by_id ttl :
    r_ok r →
    let '(r', (ok, prev, new)) := r_atomic_force_open now r name reason by_id ttl in
    r_ok r' ∧ ok = true ∧ prev = v_state (vw r name) ∧ new = value OPEN ∧
    changes r r' name (spec_force_open now reason by_id ttl (vw r name));
  law_force_close now r name reason by_id ttl :
    r_ok r →
    let '(r', (ok, prev, new)) := r_atomic_force_close now r name reason by_id ttl in
    r_ok r' ∧ ok = true ∧ prev = v_state (vw r name) ∧ new = value CLOSED ∧
    changes r r' name (spec_force_close now reason by_id ttl (vw r name));
  law_atomic_reset now r name reason by_id :
    r_ok r →
    let '(r', (ok, prev, new)) := r_atomic_reset now r name reason by_id in
    if ok then r_ok r' ∧ present r name ∧ prev = v_state (vw r name) ∧ new = value CLOSED ∧
      changes r r' name (spec_reset reason)
    else r' = r ∧ ¬ present r name ∧ prev = "" ∧ new = "";
  law_acquire now r name limit stuck :
    r_ok r →
    let '(r', res) := r_try_acquire_half_open_slot now r name limit stuck in
    let '(v', res') := branch_acquire now limit stuck (vw r name) in
    r_ok r' ∧ changes r r' name v' ∧ res = res';
  law_reset_half_open now r name :
    r_ok r →
    let r' := r_reset_half_open_count now r name in
    (present r name → r_ok r' ∧ changes r r' name (spec_reset_half_open (vw r name))) ∧
    (¬ present r name → r' = r);
  law_row_name r name row :
    r_ok r → r_get_by_service_name r name = Some row → service_name row = name;
  law_get_all_states r row :
    r_ok r →
    row ∈ r_get_all_states r ↔
    r_get_by_service_name r (service_name row) = Some row;
}.

(** ** The abstract machine

    The contract as a machine of its own: a finite map of views, one transition
    per repository call, and what the call lets its caller observe. *)
Inductive repo_op : Type :=
| OGet (name : string)
| OGetOrCreate (now : Z) (name : string)
| OUpdate (now : Z) (name : string) (a : update_args)
| ORecordFailure (now : Z) (name : string)
| ORecordSuccess (now : Z) (name : string)
| OCloseCheck (now : Z) (name : string) (thr : Z)
| OOpenCheck (now : Z) (name : string)
| OTrip (now : Z) (name : string) (fc : Z)
| OSetManual (now : Z) (name st : string) (by_id : option Z) (reason : string) (exp : option Z)
| OClearManual (now : Z) (name : string) (preserve : bool)
| OGetAll
| OResetRow (now : Z) (name : string)
| ODelete (name : string)
| OForceOpen (now : Z) (name reason : string) (by_id ttl : option Z)
| OForceClose (now : Z) (name reason : string) (by_id ttl : option Z)
| OReset (now : Z) (name reason : string) (by_id : option Z)
| OAcquire (now : Z) (name : string) (limit stuck : Z)
| OResetHalfOpen (now : Z) (name : string).

Inductive repo_obs : Type :=
| SawRow (v : option cb_view)
| SawRows (rows : gmap string cb_view)
| SawFlag (b : bool)
| SawAttempt (b : bool) (v : cb_view)
| SawTrip (b : bool) (token : string)
| SawTransition (res : bool * string * string)
| SawNothing.

(** A listing, read by name: the order of its rows is the adapter's own. *)
Definition rows_by_name (rows : list CircuitBreakerStateData) : gmap string cb_view :=
  list_to_map ((λ row, (service_name row, view row)) <$> rows).

(** A call on an implementation. *)
Definition call {R} `{CircuitBreakerStateRepository R} (r : R) (o : repo_op) : R * repo_obs :=
  match o with
  | OGet n => (r, SawRow (view <$> r_get_by_service_name r n))
  | OGetOrCreate now n =>
      let '(r, row) := r_get_or_create now r n in (r, SawRow (Some (view row)))
  | OUpdate now n a => let '(r, ok) := r_update_state now r n a in (r, SawFlag ok)
  | ORecordFailure now n =>
      let '(r, row) := r_record_failure now r n in (r, SawRow (Some (view row)))
  | ORecordSuccess now n =>
      let '(r, row) := r_record_success now r n in (r, SawRow (Some (view row)))
  | OCloseCheck now n thr =>
      let '(r, att) := r_record_success_with_close_check now r n thr in
      (r, SawAttempt (did_close att) (view (close_state att)))
  | OOpenCheck now n =>
      let '(r, att) := r_record_failure_with_open_check now r n in
      (r, SawAttempt (did_open att) (view (open_state att)))
  | OTrip now n fc =>
      let '(r, att) := r_trip_to_open now r n fc in
      (r, SawTrip (did_open att) (state (open_state att)))
  | OSetManual now n st by_id reason exp =>
      let '(r, ok) := r_set_manual_control now r n st by_id reason exp in (r, SawFlag ok)
  | OClearManual now n preserve =>
      let '(r, ok) := r_clear_manual_control now r n preserve in (r, SawFlag ok)
  | OGetAll => (r, SawRows (rows_by_name (r_get_all_states r)))
  | OResetRow now n => let '(r, ok) := r_reset now r n in (r, SawFlag ok)
  | ODelete n => let '(r, ok) := r_delete_state r n in (r, SawFlag ok)
  | OForceOpen now n reason by_id ttl =>
      let '(r, res) := r_atomic_force_open now r n reason by_id ttl in (r, SawTransition res)
  | OForceClose now n reason by_id ttl =>
      let '(r, res) := r_atomic_force_close now r n reason by_id ttl in (r, SawTransition res)
  | OReset now n reason by_id =>
      let '(r, res) := r_atomic_reset now r n reason by_id in (r, SawTransition res)
  | OAcquire now n limit stuck =>
      let '(r, res) := r_try_acquire_half_open_slot now r n limit stuck in
      (r, SawTransition res)
  | OResetHalfOpen now n => (r_reset_half_open_count now r n, SawNothing)
  end.

(** The same call on the abstract machine. *)
Notation abs_state := (gmap string cb_view).
Definition abs_get (m : abs_state) (n : string) : cb_view := default fresh_view (m !! n).

(** [acq] is the reading of the slot acquire: [spec_acquire] as documented, or
    [branch_acquire]. *)
Definition abs_call (acq : Z → Z → Z → cb_view → cb_view * (bool * string * string))
    (m : abs_state) (o : repo_op) : abs_state * repo_obs :=
  match o with
  | OGet n => (m, SawRow (m !! n))
  | OGetOrCreate _ n => (<[n := abs_get m n]> m, SawRow (Some (abs_get m n)))
  | OUpdate now n a =>
      match m !! n with
      | None => (m, SawFlag false)
      | Some v => (<[n := spec_update now a v]> m, SawFlag true)
      end
  | ORecordFailure now n =>
      let v := spec_record_failure now (abs_get m n) in (<[n := v]> m, SawRow (Some v))
  | ORecordSuccess _ n =>
      let v := spec_record_success (abs_get m n) in (<[n := v]> m, SawRow (Some v))
  | OCloseCheck _ n thr =>
      let '(v, b) := spec_close_check thr (abs_get m n) in (<[n := v]> m, SawAttempt b v)
  | OOpenCheck now n =>
      let '(v, b) := spec_open_check now (abs_get m n) in (<[n := v]> m, SawAttempt b v)
  | OTrip now n fc =>
      let '(v, b, token) := spec_trip now fc (abs_get m n) in (<[n := v]> m, SawTrip b token)
  | OSetManual now n st by_id reason exp =>
      (<[n := spec_set_manual now st by_id reason exp (abs_get m n)]> m, SawFlag true)
  | OClearManual _ n preserve =>
      match m !! n with
      | None => (m, SawFlag false)
      | Some v => (<[n := spec_clear_manual preserve v]> m, SawFlag true)
      end
  | OGetAll => (m, SawRows m)
  | OResetRow _ n =>
      match m !! n with
      | None => (m, SawFlag false)
      | Some v => (<[n := fresh_view]> m, SawFlag true)
      end
  | ODelete n => (base.delete n m, SawFlag (bool_decide (is_Some (m !! n))))
  | OForceOpen now n reason by_id ttl =>
      let v := abs_get m n in
      (<[n := spec_force_open now reason by_id ttl v]> m,
       SawTransition (true, v_state v, value OPEN))
  | OForceClose now n reason by_id ttl =>
      let v := abs_get m n in
      (<[n := spec_force_close now reason by_id ttl v]> m,
       SawTransition (true, v_state v, value CLOSED))
  | OReset _ n reason _ =>
      match m !! n with
      | None => (m, SawTransition (false, "", ""))
      | Some v => (<[n := spec_reset reason]> m, SawTransition (true, v_state v, value CLOSED))
      end
  | OAcquire now n limit stuck =>
      let '(v, res) := acq now limit stuck (abs_get m n) in
      (<[n := v]> m, SawTransition res)
  | OResetHalfOpen _ n =>
      match m !! n with
      | None => (m, SawNothing)
      | Some v => (<[n := spec_reset_half_open v]> m, SawNothing)
      end
  end.

(** A run: what every call of a sequence let its caller observe. *)
Fixpoint observe {S : Type} (step : S → repo_op → S * repo_obs) (s : S) (ops : list repo_op) :
    list repo_obs :=
  match ops with
  | [] => []
  | o :: ops => let '(s', obs) := step s o in obs :: observe step s' ops
  end.

(** The state a sequence of calls leaves. *)
Fixpoint after {S : Type} (step : S → repo_op → S * repo_obs) (s : S) (ops : list repo_op) : S :=
  match ops with [] => s | o :: ops => after step (step s o).1 ops end.

(** No acquire of the sequence meets an operator's override in force. *)
Definition off_override (m : abs_state) (o : repo_op) : Prop :=
  match o with OAcquire now n _ _ => v_pinned now (abs_get m n) = false | _ => True end.

Fixpoint slots_off_override (m : abs_state) (ops : list repo_op) : Prop :=
  match ops with
  | [] => True
  | o :: ops => off_override m o ∧ slots_off_override (abs_call spec_acquire m o).1 ops
  end.

(** Off an override the two readings of the acquire agree. *)
Lemma readings_agree m o :
  off_override m o → abs_call spec_acquire m o = abs_call branch_acquire m o.
Proof. destruct o; simpl; intros Ho; try done. unfold spec_acquire. by rewrite Ho. Qed.

Lemma runs_agree ops m :
  slots_off_override m ops →
  observe (abs_call branch_acquire) m ops = observe (abs_call spec_acquire) m ops.
Proof.
  revert m. induction ops as [|o ops IH]; intros m; simpl; [done|]. intros [Ho Hops].
  rewrite <-(readings_agree m o Ho). specialize (IH _ Hops).
  destruct (abs_call spec_acquire m o) as [m' obs]. simpl in IH. by rewrite IH.
Qed.

Section simulation.
  Context {R : Type} `{RepositoryLaws R}.

(** The implementation's state stands for the abstract one. *)
Definition stands_for (r : R) (m : abs_state) : Prop := r_ok r ∧ ∀ n, seen r n = m !! n.

Lemma stands_vw r m n : stands_for r m → vw r n = abs_get m n.
Proof. intros [_ Hs]. unfold abs_get. by rewrite vw_seen, Hs. Qed.

Lemma stands_present r m n : stands_for r m → present r n ↔ is_Some (m !! n).
Proof. intros [_ Hs]. by rewrite present_seen, Hs. Qed.

Lemma stands_insert r m r' n v :
  stands_for r m → r_ok r' → changes r r' n v → stands_for r' (<[n := v]> m).
Proof.
  intros [_ Hs] Hok Hc. split; [done|]. intros n'. rewrite Hc, Hs.
  case_decide; subst; [by rewrite lookup_insert_eq|by rewrite lookup_insert_ne].
Qed.

(** A present row is the one the map holds. *)
Lemma stands_lookup r m n :
  stands_for r m → present r n → m !! n = Some (vw r n).
Proof. intros Hs Hp. rewrite <-(proj2 Hs). by apply seen_present. Qed.

Lemma stands_absent r m n : stands_for r m → ¬ present r n → m !! n = None.
Proof. intros Hs Hp. apply eq_None_not_Some. by rewrite <-stands_present. Qed.

(** Read a law of the call at hand on the abstract map: the call wrote the row it
    names, or found none and changed nothing. *)
Ltac by_law Hs law :=
  let Hl := fresh "Hl" in
  pose proof law as Hl; revert Hl; rewrite ?(stands_vw _ _ _ Hs);
  repeat (case_match; simplify_eq/=); intros Hl; destruct_and?; simplify_eq/=;
  repeat match goal with
  | Hp : present _ ?n |- _ =>
      apply (stands_lookup _ _ _ Hs) in Hp; rewrite (stands_vw _ _ n Hs) in Hp
  | Hp : ¬ present _ _ |- _ => apply (stands_absent _ _ _ Hs) in Hp
  end; simplify_eq/=;
  try match goal with
  | Hc : changes _ _ _ _ |- _ => let He := fresh in pose proof (changes_eq _ _ _ _ Hc) as He
  end;
  first [by split | split; [simpl; congruence|by eapply stands_insert]].

Lemma delete_simulates r m n :
  stands_for r m →
  (call r (ODelete n)).2 = (abs_call branch_acquire m (ODelete n)).2 ∧
  stands_for (call r (ODelete n)).1 (abs_call branch_acquire m (ODelete n)).1.
Proof.
  intros Hs. pose proof (law_delete r n (proj1 Hs)) as Hl. simpl.
  destruct (r_delete_state r n) as [r' ok]. destruct Hl as (Hok & Hseen & Hiff). simpl. split.
  - f_equal. apply eq_bool_prop_intro.
    rewrite Is_true_true, bool_decide_spec. by rewrite Hiff, stands_present.
  - split; [done|]. intros n'. rewrite Hseen, (proj2 Hs).
    case_decide; subst; [by rewrite lookup_delete_eq|by rewrite lookup_delete_ne].
Qed.

Lemma reset_half_open_simulates r m now n :
  stands_for r m →
  stands_for (call r (OResetHalfOpen now n)).1 (abs_call branch_acquire m (OResetHalfOpen now n)).1.
Proof.
  intros Hs. destruct (law_reset_half_open now r n (proj1 Hs)) as [Hp Ha]. simpl.
  destruct (decide (present r n)) as [Hin|Hout].
  - destruct (Hp Hin) as [Hok Hc]. rewrite (stands_lookup _ _ _ Hs Hin). by eapply stands_insert.
  - by rewrite (stands_absent _ _ _ Hs Hout), (Ha Hout).
Qed.

(** A listing read by name is the map of the rows a reader finds. *)
Lemma rows_by_name_simulates r m :
  stands_for r m → rows_by_name (r_get_all_states r) = m.
Proof.
  intros [Hok Hs]. apply map_eq. intros n. rewrite <-Hs. unfold rows_by_name, seen.
  assert (∀ v, (n, v) ∈ (λ row, (service_name row, view row)) <$> r_get_all_states r ↔
    view <$> r_get_by_service_name r n = Some v) as Hin.
  { intros v. rewrite list_elem_of_fmap, fmap_Some. split.
    - intros (row & [= -> ->] & Hrow%law_get_all_states); [|done]. eauto.
    - intros (row & Hrow & ->). pose proof (law_row_name _ _ _ Hok Hrow) as <-.
      exists row. split; [done|]. by apply law_get_all_states. }
  destruct (view <$> r_get_by_service_name r n) as [v|] eqn:E.
  - apply elem_of_list_to_map_1'; [|by apply Hin]. intros v' [= ->]%Hin. done.
  - apply not_elem_of_list_to_map_1. intros ([n' v] & Hn & Hv)%list_elem_of_fmap.
    simpl in Hn. subst n'. by apply Hin in Hv.
Qed.

Lemma call_simulates r m o :
  stands_for r m →
  (call r o).2 = (abs_call branch_acquire m o).2 ∧ stands_for (call r o).1 (abs_call branch_acquire m o).1.
Proof.
  intros Hs. pose proof Hs as [Hok Hseen]. destruct o; simpl.
  - by rewrite <-Hseen.
  - by_law Hs (law_get_or_create now r name Hok).
  - by_law Hs (law_update_state now r name a Hok).
  - by_law Hs (law_record_failure now r name Hok).
  - by_law Hs (law_record_success now r name Hok).
  - by_law Hs (law_close_check now r name thr Hok).
  - by_law Hs (law_open_check now r name Hok).
  - by_law Hs (law_trip now r name fc Hok).
  - by_law Hs (law_set_manual now r name st by_id reason exp Hok).
  - by_law Hs (law_clear_manual now r name preserve Hok).
  - by rewrite (rows_by_name_simulates r m Hs).
  - by_law Hs (law_reset now r name Hok).
  - by apply delete_simulates.
  - by_law Hs (law_force_open now r name reason by_id ttl Hok).
  - by_law Hs (law_force_close now r name reason by_id ttl Hok).
  - by_law Hs (law_atomic_reset now r name reason by_id Hok).
  - by_law Hs (law_acquire now r name limit stuck Hok).
  - pose proof (reset_half_open_simulates r m now name Hs) as Hr. simpl in Hr.
    by destruct (m !! name).
Qed.

(** Every run of the implementation shows what the abstract machine shows. *)
Lemma runs_simulate ops r m :
  stands_for r m → observe call r ops = observe (abs_call branch_acquire) m ops.
Proof.
  revert r m. induction ops as [|o ops IH]; intros r m Hs; simpl; [done|].
  destruct (call_simulates r m o Hs) as [Hobs Hs'].
  destruct (call r o), (abs_call branch_acquire m o). simpl in *. subst. f_equal. by apply IH.
Qed.

Lemma after_simulates ops r m :
  stands_for r m → stands_for (after call r ops) (after (abs_call branch_acquire) m ops).
Proof.
  revert r m. induction ops as [|o ops IH]; intros r m Hs; simpl; [done|].
  apply IH. by apply call_simulates.
Qed.
End simulation.

(** ** An invariant of the abstract machine

    A trial window that has handed out slots has a start. *)
Definition watermark_ok (v : cb_view) : Prop := 0 < v_half_count v → is_Some (v_half_started v).

(** Only a caller that sets the slot count by hand could break it. *)
Definition sets_no_count (o : repo_op) : Prop :=
  match o with OUpdate _ _ a => u_half_open_request_count a = None | _ => True end.

Lemma watermark_fresh (m : abs_state) n :
  map_Forall (λ _, watermark_ok) m → watermark_ok (abs_get m n).
Proof.
  intros Hm. unfold abs_get. destruct (m !! n) eqn:E; simpl; [by eapply Hm|].
  intros Hlt. simpl in Hlt. lia.
Qed.

Lemma acquire_watermark now limit stuck v :
  watermark_ok v → watermark_ok (branch_acquire now limit stuck v).1.
Proof.
  intros Hv. unfold branch_acquire. repeat case_match; simpl; try done;
    intros _; by eexists.
Qed.

Lemma update_watermark now a v :
  u_half_open_request_count a = None → watermark_ok v → watermark_ok (spec_update now a v).
Proof.
  intros Ha Hv. unfold spec_update. case_match; [done|]. unfold watermark_ok. simpl.
  rewrite Ha. simpl. case_match; [lia|done].
Qed.

Lemma abs_call_watermark (m : abs_state) o :
  sets_no_count o → map_Forall (λ _, watermark_ok) m →
  map_Forall (λ _, watermark_ok) (abs_call branch_acquire m o).1.
Proof.
  intros Ho Hm. assert (∀ n, watermark_ok (abs_get m n)) as Hf by (intros; by apply watermark_fresh).
  assert (∀ n v, watermark_ok v → map_Forall (λ _, watermark_ok) (<[n := v]> m)) as Hins
    by (intros; by apply map_Forall_insert_2).
  assert (∀ v, v_half_count v = 0 → watermark_ok v) as H0 by (intros v E; unfold watermark_ok; lia).
  assert (∀ n v, m !! n = Some v → watermark_ok v) as Hget by (intros; by eapply Hm).
  destruct o; simpl in *; try (apply Hins; exact (Hf name)); try (by apply Hins, H0); try done.
  - case_match; [|done]. apply Hins, update_watermark; eauto.
  - unfold spec_close_check.
    destruct (v_is (abs_get m name) HALF_OPEN && _); apply Hins; [by apply H0|apply Hf].
  - unfold spec_open_check.
    destruct (v_is (abs_get m name) HALF_OPEN); apply Hins; [by apply H0|apply Hf].
  - unfold spec_trip. destruct (v_pinned now (abs_get m name)); [apply Hins, Hf|].
    destruct (v_is (abs_get m name) CLOSED); apply Hins; [by apply H0|apply Hf].
  - case_match eqn:E; [|done]. apply Hins. exact (Hget _ _ E).
  - case_match; [|done]. by apply Hins, H0.
  - by apply map_Forall_delete.
  - case_match; [|done]. by apply Hins, H0.
  - pose proof (acquire_watermark now limit stuck (abs_get m name) (Hf name)) as Ha.
    case_match; simplify_eq. by apply Hins.
  - case_match; [|done]. by apply Hins, H0.
Qed.
