(* ===== verification/CBRepo.v ===== *)
(** * The in-memory circuit-breaker state repository

    Models [adapters/memory/circuit_breaker.py].  Every method holds the
    repository's reentrant lock for its whole body, so it is one function from
    the repository to the repository and its result; [now] is the clock reading
    of that critical section.  Rows are rebuilt field by field as the source
    rebuilds them, so a field a constructor call does not pass takes the
    dataclass default (the metadata of most writes). *)

From S2P Require Import Prelude CBData CBInterface.

Record InMemoryCircuitBreakerStateRepository : Type := {
  storage : dict string CircuitBreakerStateData;
  next_id : Z;
  last_acquire_marker : string;
}.

Definition new_repository : InMemoryCircuitBreakerStateRepository :=
  {| storage := []; next_id := 1; last_acquire_marker := "" |}.

(** [self._storage[name] = row] *)
Definition put (self : InMemoryCircuitBreakerStateRepository) (name : string)
    (row : CircuitBreakerStateData) : InMemoryCircuitBreakerStateRepository :=
  {| storage := dset (storage self) name row; next_id := next_id self;
     last_acquire_marker := last_acquire_marker self |}.

Definition mark (self : InMemoryCircuitBreakerStateRepository) (m : string) :
    InMemoryCircuitBreakerStateRepository :=
  {| storage := storage self; next_id := next_id self; last_acquire_marker := m |}.

Definition get_by_service_name (self : InMemoryCircuitBreakerStateRepository) (name : string) :
    option CircuitBreakerStateData := dget (storage self) name.

(** The row [_get_or_create_unlocked] builds for an absent name. *)
Definition new_row (now : Z) (self : InMemoryCircuitBreakerStateRepository) (name : string) :
    CircuitBreakerStateData := {|
  service_name := name; id := Some (next_id self); state := value CLOSED;
  failure_count := 0; success_count := 0; last_failure_at := None; opened_at := None;
  manually_controlled := false; controlled_by_id := None; control_reason := "";
  manual_override_expires_at := None; half_open_request_count := 0;
  half_open_window_started_at := None; metadata := [];
  created_at := Some now; updated_at := Some now |}.

(** [_get_or_create_unlocked] and [get_or_create] (whose lock-free first read
    only skips the lock for a row that is already there). *)
Definition get_or_create (now : Z) (self : InMemoryCircuitBreakerStateRepository)
    (name : string) : InMemoryCircuitBreakerStateRepository * CircuitBreakerStateData :=
  match dget (storage self) name with
  | Some row => (self, row)
  | None =>
      let row := new_row now self name in
      ({| storage := dset (storage self) name row; next_id := next_id self + 1;
          last_acquire_marker := last_acquire_marker self |}, row)
  end.

Definition hydrate_snapshot (now : Z) (self : InMemoryCircuitBreakerStateRepository)
    (snapshot : CircuitBreakerStateData) (skip_if_local_pin_active : bool) :
    InMemoryCircuitBreakerStateRepository * bool :=
  let name := service_name snapshot in
  let entry := dget (storage self) name in
  if skip_if_local_pin_active
     && match entry with Some e => is_pin_active now e | None => false end
  then (self, false)
  else
    let '(entry_id, created, half_count, half_started, nid) :=
      match entry with
      | None => (Some (next_id self), Some now, 0, None, next_id self + 1)
      | Some e => (id e, created_at e, half_open_request_count e,
                   half_open_window_started_at e, next_id self)
      end in
    ({| storage := dset (storage self) name {|
          service_name := name; id := entry_id; state := state snapshot;
          failure_count := failure_count snapshot; success_count := success_count snapshot;
          last_failure_at := last_failure_at snapshot; opened_at := opened_at snapshot;
          manually_controlled := manually_controlled snapshot;
          controlled_by_id := controlled_by_id snapshot;
          control_reason := control_reason snapshot;
          manual_override_expires_at := manual_override_expires_at snapshot;
          half_open_request_count := half_count;
          half_open_window_started_at := half_started;
          metadata := metadata snapshot;
          created_at := created; updated_at := Some now |};
        next_id := nid; last_acquire_marker := last_acquire_marker self |}, true).

Definition non_closed (s : string) : bool :=
  bool_decide (s = value OPEN) || bool_decide (s = value HALF_OPEN).

Definition update_state (now : Z) (self : InMemoryCircuitBreakerStateRepository)
    (name : string) (a : update_args) : InMemoryCircuitBreakerStateRepository * bool :=
  match dget (storage self) name with
  | None => (self, false)
  | Some e =>
      if u_skip_if_pinned a && is_pin_active now e then (self, true)
      else if u_keep_open a && non_closed (state e) then (self, true)
      else
        let '(half_count, half_started) :=
          if u_reset_half_open_count a then (0, None)
          else match u_half_open_request_count a with
               | Some c => (c, half_open_window_started_at e)
               | None => (half_open_request_count e, half_open_window_started_at e)
               end in
        (put self name {|
          service_name := name; id := id e; state := u_state a;
          failure_count := default (failure_count e) (u_failure_count a);
          success_count := default (success_count e) (u_success_count a);
          last_failure_at :=
            match u_last_failure_at a with Some t => Some t | None => last_failure_at e end;
          opened_at :=
            if u_clear_opened_at a then None
            else match u_opened_at a with Some t => Some t | None => opened_at e end;
          manually_controlled := manually_controlled e;
          controlled_by_id := controlled_by_id e; control_reason := control_reason e;
          manual_override_expires_at := manual_override_expires_at e;
          half_open_request_count := half_count;
          half_open_window_started_at := half_started; metadata := [];
          created_at := created_at e; updated_at := Some now |}, true)
  end.

Definition increment_failure_count (now : Z) (self : InMemoryCircuitBreakerStateRepository)
    (name : string) (last_failure : option Z) : InMemoryCircuitBreakerStateRepository * Z :=
  let '(self, e) := get_or_create now self name in
  let new_count := failure_count e + 1 in
  (put self name {|
    service_name := name; id := id e; state := state e;
    failure_count := new_count; success_count := success_count e;
    last_failure_at := Some (default now last_failure); opened_at := opened_at e;
    manually_controlled := manually_controlled e;
    controlled_by_id := controlled_by_id e; control_reason := control_reason e;
    manual_override_expires_at := manual_override_expires_at e;
    half_open_request_count := half_open_request_count e;
    half_open_window_started_at := half_open_window_started_at e; metadata := [];
    created_at := created_at e; updated_at := Some now |}, new_count).

Definition reset_counts (now : Z) (self : InMemoryCircuitBreakerStateRepository)
    (name : string) : InMemoryCircuitBreakerStateRepository * bool :=
  match dget (storage self) name with
  | None => (self, false)
  | Some e => (put self name {|
      service_name := name; id := id e; state := state e;
      failure_count := 0; success_count := 0;
      last_failure_at := last_failure_at e; opened_at := None;
      manually_controlled := manually_controlled e;
      controlled_by_id := controlled_by_id e; control_reason := control_reason e;
      manual_override_expires_at := manual_override_expires_at e;
      half_open_request_count := 0; half_open_window_started_at := None; metadata := [];
      created_at := created_at e; updated_at := Some now |}, true)
  end.

Definition converge_to_closed_unless_pinned (now : Z)
    (self : InMemoryCircuitBreakerStateRepository) (name : string) :
    InMemoryCircuitBreakerStateRepository * bool :=
  match dget (storage self) name with
  | None => (self, false)
  | Some e =>
      if is_pin_active now e then (self, false)
      else (put self name {|
        service_name := name; id := id e; state := value CLOSED;
        failure_count := 0; success_count := 0;
        last_failure_at := last_failure_at e; opened_at := None;
        manually_controlled := manually_controlled e;
        controlled_by_id := controlled_by_id e; control_reason := control_reason e;
        manual_override_expires_at := manual_override_expires_at e;
        half_open_request_count := 0; half_open_window_started_at := None;
        metadata := metadata e;
        created_at := created_at e; updated_at := Some now |}, true)
  end.

Definition set_manual_control (now : Z) (self : InMemoryCircuitBreakerStateRepository)
    (name st : string) (by_id : option Z) (reason : string) (exp : option Z) :
    InMemoryCircuitBreakerStateRepository * bool :=
  let '(self, e) := get_or_create now self name in
  (put self name {|
    service_name := name; id := id e; state := st;
    failure_count := failure_count e; success_count := success_count e;
    last_failure_at := last_failure_at e;
    opened_at := if bool_decide (st = value OPEN) then Some now else opened_at e;
    manually_controlled := true; controlled_by_id := by_id; control_reason := reason;
    manual_override_expires_at := exp;
    half_open_request_count := half_open_request_count e;
    half_open_window_started_at := half_open_window_started_at e; metadata := [];
    created_at := created_at e; updated_at := Some now |}, true).

Definition clear_manual_control (now : Z) (self : InMemoryCircuitBreakerStateRepository)
    (name : string) (preserve_reason : bool) :
    InMemoryCircuitBreakerStateRepository * bool :=
  match dget (storage self) name with
  | None => (self, false)
  | Some e => (put self name {|
      service_name := name; id := id e; state := state e;
      failure_count := failure_count e; success_count := success_count e;
      last_failure_at := last_failure_at e; opened_at := opened_at e;
      manually_controlled := false; controlled_by_id := None;
      control_reason := if preserve_reason then control_reason e else "";
      manual_override_expires_at := None;
      half_open_request_count := half_open_request_count e;
      half_open_window_started_at := half_open_window_started_at e; metadata := [];
      created_at := created_at e; updated_at := Some now |}, true)
  end.

Definition record_failure (now : Z) (self : InMemoryCircuitBreakerStateRepository)
    (name : string) : InMemoryCircuitBreakerStateRepository * CircuitBreakerStateData :=
  let '(self, e) := get_or_create now self name in
  let updated := {|
    service_name := name; id := id e; state := state e;
    failure_count := failure_count e + 1; success_count := success_count e;
    last_failure_at := Some now; opened_at := opened_at e;
    manually_controlled := manually_controlled e;
    controlled_by_id := controlled_by_id e; control_reason := control_reason e;
    manual_override_expires_at := manual_override_expires_at e;
    half_open_request_count := half_open_request_count e;
    half_open_window_started_at := half_open_window_started_at e; metadata := [];
    created_at := created_at e; updated_at := Some now |} in
  (put self name updated, updated).

Definition record_success (now : Z) (self : InMemoryCircuitBreakerStateRepository)
    (name : string) : InMemoryCircuitBreakerStateRepository * CircuitBreakerStateData :=
  let '(self, e) := get_or_create now self name in
  let updated := {|
    service_name := name; id := id e; state := state e;
    failure_count := failure_count e; success_count := success_count e + 1;
    last_failure_at := last_failure_at e; opened_at := opened_at e;
    manually_controlled := manually_controlled e;
    controlled_by_id := controlled_by_id e; control_reason := control_reason e;
    manual_override_expires_at := manual_override_expires_at e;
    half_open_request_count := half_open_request_count e;
    half_open_window_started_at := half_open_window_started_at e; metadata := [];
    created_at := created_at e; updated_at := Some now |} in
  (put self name updated, updated).

Definition record_success_with_close_check (now : Z)
    (self : InMemoryCircuitBreakerStateRepository) (name : string) (success_threshold : Z) :
    InMemoryCircuitBreakerStateRepository * CircuitBreakerCloseAttempt :=
  let '(self, e) := get_or_create now self name in
  let successes := success_count e + 1 in
  if state_is e HALF_OPEN && (success_threshold <=? successes) then
    let updated := {|
      service_name := name; id := id e; state := value CLOSED;
      failure_count := 0; success_count := 0;
      last_failure_at := last_failure_at e; opened_at := None;
      manually_controlled := manually_controlled e;
      controlled_by_id := controlled_by_id e; control_reason := control_reason e;
      manual_override_expires_at := manual_override_expires_at e;
      half_open_request_count := 0; half_open_window_started_at := None; metadata := [];
      created_at := created_at e; updated_at := Some now |} in
    (put self name updated, {| close_state := updated; did_close := true |})
  else
    let updated := {|
      service_name := name; id := id e; state := state e;
      failure_count := failure_count e; success_count := successes;
      last_failure_at := last_failure_at e; opened_at := opened_at e;
      manually_controlled := manually_controlled e;
      controlled_by_id := controlled_by_id e; control_reason := control_reason e;
      manual_override_expires_at := manual_override_expires_at e;
      half_open_request_count := half_open_request_count e;
      half_open_window_started_at := half_open_window_started_at e; metadata := [];
      created_at := created_at e; updated_at := Some now |} in
    (put self name updated, {| close_state := updated; did_close := false |}).

Definition record_failure_with_open_check (now : Z)
    (self : InMemoryCircuitBreakerStateRepository) (name : string) :
    InMemoryCircuitBreakerStateRepository * CircuitBreakerOpenAttempt :=
  let '(self, e) := get_or_create now self name in
  if negb (state_is e HALF_OPEN) then (self, {| open_state := e; did_open := false |})
  else
    let updated := {|
      service_name := name; id := id e; state := value OPEN;
      failure_count := 0; success_count := 0;
      last_failure_at := last_failure_at e; opened_at := Some now;
      manually_controlled := manually_controlled e;
      controlled_by_id := controlled_by_id e; control_reason := control_reason e;
      manual_override_expires_at := manual_override_expires_at e;
      half_open_request_count := 0; half_open_window_started_at := None; metadata := [];
      created_at := created_at e; updated_at := Some now |} in
    (put self name updated, {| open_state := updated; did_open := true |}).

Definition trip_to_open (now : Z) (self : InMemoryCircuitBreakerStateRepository)
    (name : string) (failures : Z) :
    InMemoryCircuitBreakerStateRepository * CircuitBreakerOpenAttempt :=
  let '(self, e) := get_or_create now self name in
  if is_pin_active now e then
    (self, pinned_trip_attempt name (manual_override_expires_at e))
  else if negb (state_is e CLOSED) then
    (self, {| open_state := e; did_open := false |})
  else
    let updated := {|
      service_name := name; id := id e; state := value OPEN;
      failure_count := failures; success_count := 0;
      last_failure_at := last_failure_at e; opened_at := Some now;
      manually_controlled := false; controlled_by_id := None;
      control_reason := control_reason e; manual_override_expires_at := None;
      half_open_request_count := 0; half_open_window_started_at := None;
      metadata := metadata e;
      created_at := created_at e; updated_at := Some now |} in
    (put self name updated, {| open_state := updated; did_open := true |}).

Definition get_all_states (self : InMemoryCircuitBreakerStateRepository) :
    list CircuitBreakerStateData := dvals (storage self).

(** The interface's default: this process's view is the cluster's. *)
Definition get_cluster_states (self : InMemoryCircuitBreakerStateRepository) : cluster_read :=
  ClusterRows (get_all_states self).

Definition reset (now : Z) (self : InMemoryCircuitBreakerStateRepository) (name : string) :
    InMemoryCircuitBreakerStateRepository * bool :=
  match dget (storage self) name with
  | None => (self, false)
  | Some e => (put self name {|
      service_name := name; id := id e; state := value CLOSED;
      failure_count := 0; success_count := 0; last_failure_at := None; opened_at := None;
      manually_controlled := false; controlled_by_id := None; control_reason := "";
      manual_override_expires_at := None;
      half_open_request_count := 0; half_open_window_started_at := None; metadata := [];
      created_at := created_at e; updated_at := Some now |}, true)
  end.

Definition atomic_force_open (now : Z) (self : InMemoryCircuitBreakerStateRepository)
    (name reason : string) (by_id ttl_minutes : option Z) :
    InMemoryCircuitBreakerStateRepository * (bool * string * string) :=
  let '(self, e) := get_or_create now self name in
  (put self name {|
    service_name := name; id := id e; state := value OPEN;
    failure_count := failure_count e; success_count := success_count e;
    last_failure_at := last_failure_at e; opened_at := Some now;
    manually_controlled := true; controlled_by_id := by_id; control_reason := reason;
    manual_override_expires_at := resolve_manual_override_expiry now ttl_minutes;
    half_open_request_count := 0; half_open_window_started_at := None; metadata := [];
    created_at := created_at e; updated_at := Some now |}, (true, state e, value OPEN)).

Definition atomic_force_close (now : Z) (self : InMemoryCircuitBreakerStateRepository)
    (name reason : string) (by_id ttl_minutes : option Z) :
    InMemoryCircuitBreakerStateRepository * (bool * string * string) :=
  let '(self, e) := get_or_create now self name in
  (put self name {|
    service_name := name; id := id e; state := value CLOSED;
    failure_count := 0; success_count := 0;
    last_failure_at := last_failure_at e; opened_at := None;
    manually_controlled := true; controlled_by_id := by_id; control_reason := reason;
    manual_override_expires_at := resolve_manual_override_expiry now ttl_minutes;
    half_open_request_count := 0; half_open_window_started_at := None; metadata := [];
    created_at := created_at e; updated_at := Some now |}, (true, state e, value CLOSED)).

Definition atomic_reset (now : Z) (self : InMemoryCircuitBreakerStateRepository)
    (name reason : string) (by_id : option Z) :
    InMemoryCircuitBreakerStateRepository * (bool * string * string) :=
  match dget (storage self) name with
  | None => (self, (false, "", ""))
  | Some e => (put self name {|
      service_name := name; id := id e; state := value CLOSED;
      failure_count := 0; success_count := 0; last_failure_at := None; opened_at := None;
      manually_controlled := false; controlled_by_id := None; control_reason := reason;
      manual_override_expires_at := None;
      half_open_request_count := 0; half_open_window_started_at := None; metadata := [];
      created_at := created_at e; updated_at := Some now |},
      (true, state e, value CLOSED))
  end.

(** The HALF_OPEN row a slot acquire writes over [e]. *)
Definition half_open_row (now : Z) (name : string) (e : CircuitBreakerStateData)
    (successes count : Z) (started : option Z) : CircuitBreakerStateData := {|
  service_name := name; id := id e; state := value HALF_OPEN;
  failure_count := failure_count e; success_count := successes;
  last_failure_at := last_failure_at e; opened_at := opened_at e;
  manually_controlled := manually_controlled e;
  controlled_by_id := controlled_by_id e; control_reason := control_reason e;
  manual_override_expires_at := manual_override_expires_at e;
  half_open_request_count := count; half_open_window_started_at := started;
  metadata := []; created_at := created_at e; updated_at := Some now |}.

Definition try_acquire_half_open_slot (now : Z) (self : InMemoryCircuitBreakerStateRepository)
    (name : string) (limit stuck_timeout_seconds : Z) :
    InMemoryCircuitBreakerStateRepository * (bool * string * string) :=
  let '(self, e) := get_or_create now self name in
  let current_count := half_open_request_count e in
  let started := half_open_window_started_at e in
  if state_is e HALF_OPEN && (limit <=? current_count) then
    if match started with
       | Some t => seconds stuck_timeout_seconds <? now - t
       | None => true (* an infinite age *)
       end
    then (mark (put self name (half_open_row now name e 0 1 (Some now))) "stuck_recovery",
          (true, value HALF_OPEN, value HALF_OPEN))
    else (mark self "rejected", (false, value HALF_OPEN, value HALF_OPEN))
  else if state_is e OPEN then
    (mark (put self name (half_open_row now name e 0 1 (Some now))) "transition",
     (true, value OPEN, value HALF_OPEN))
  else if state_is e HALF_OPEN && (current_count <? limit) then
    (mark (put self name
       (half_open_row now name e (success_count e) (current_count + 1)
          (match started with Some t => Some t | None => Some now end))) "increment",
     (true, value HALF_OPEN, value HALF_OPEN))
  else (mark self "no_op", (false, state e, state e)).

Definition reset_half_open_count (now : Z) (self : InMemoryCircuitBreakerStateRepository)
    (name : string) : InMemoryCircuitBreakerStateRepository :=
  match dget (storage self) name with
  | None => self
  | Some e => put self name {|
      service_name := service_name e; id := id e; state := state e;
      failure_count := failure_count e; success_count := success_count e;
      last_failure_at := last_failure_at e; opened_at := opened_at e;
      manually_controlled := manually_controlled e;
      controlled_by_id := controlled_by_id e; control_reason := control_reason e;
      manual_override_expires_at := manual_override_expires_at e;
      half_open_request_count := 0; half_open_window_started_at := None; metadata := [];
      created_at := created_at e; updated_at := Some now |}
  end.

(** [datetime.min] in microseconds. *)
Definition DATETIME_MIN : Z := -62135596800000000.

Definition get_open_states (self : InMemoryCircuitBreakerStateRepository) (limit : option Z) :
    list CircuitBreakerStateData :=
  take_limit limit
    (sort_by (λ s, default DATETIME_MIN (opened_at s))
       (filter (λ e, state_is e OPEN = true) (dvals (storage self)))).

Definition get_all_open (self : InMemoryCircuitBreakerStateRepository) :
    list CircuitBreakerStateData :=
  filter (λ e, state_is e OPEN = true) (dvals (storage self)).

Definition delete (self : InMemoryCircuitBreakerStateRepository) (name : string) :
    InMemoryCircuitBreakerStateRepository * bool :=
  match dget (storage self) name with
  | None => (self, false)
  | Some _ => ({| storage := ddel (storage self) name; next_id := next_id self;
                  last_acquire_marker := last_acquire_marker self |}, true)
  end.

Definition delete_state (self : InMemoryCircuitBreakerStateRepository) (name : string) :
    InMemoryCircuitBreakerStateRepository * bool := delete self name.

Definition clear (self : InMemoryCircuitBreakerStateRepository) :
    InMemoryCircuitBreakerStateRepository :=
  {| storage := []; next_id := 1; last_acquire_marker := last_acquire_marker self |}.

(** ** The repository implements the interface *)
#[export] Instance in_memory_repository :
    CircuitBreakerStateRepository InMemoryCircuitBreakerStateRepository := {|
  r_get_by_service_name := get_by_service_name;
  r_get_or_create := get_or_create;
  r_update_state := update_state;
  r_record_failure := record_failure;
  r_record_success := record_success;
  r_record_success_with_close_check := record_success_with_close_check;
  r_record_failure_with_open_check := record_failure_with_open_check;
  r_trip_to_open := trip_to_open;
  r_set_manual_control := set_manual_control;
  r_clear_manual_control := clear_manual_control;
  r_get_all_states := get_all_states;
  r_get_cluster_states := get_cluster_states;
  r_reset := reset;
  r_delete_state := delete_state;
  r_atomic_force_open := atomic_force_open;
  r_atomic_force_close := atomic_force_close;
  r_atomic_reset := atomic_reset;
  r_try_acquire_half_open_slot := try_acquire_half_open_slot;
  r_reset_half_open_count := reset_half_open_count |}.

(** The representation invariant: the dict has no key twice, a row is stored
    under its own name, and row ids are distinct and below the counter. *)
Definition repo_ok (r : InMemoryCircuitBreakerStateRepository) : Prop :=
  dict_wf (storage r) ∧ 0 < next_id r ∧
  (∀ name row, dget (storage r) name = Some row →
     service_name row = name ∧ ∃ i, id row = Some i ∧ 0 < i < next_id r) ∧
  (∀ n1 n2 row1 row2, dget (storage r) n1 = Some row1 → dget (storage r) n2 = Some row2 →
     id row1 = id row2 → n1 = n2).

Lemma new_repository_ok : repo_ok new_repository.
Proof. split_and!; simpl; [apply dict_wf_nil|lia|done|done]. Qed.

(** Replacing a row by one with the same name and id keeps the invariant. *)
Lemma put_ok r name e row :
  repo_ok r → dget (storage r) name = Some e →
  service_name row = name → id row = id e → repo_ok (put r name row).
Proof.
  intros (Hwf & Hn & Hrow & Hinj) He Hname Hid.
  split_and!; simpl; [by apply dict_wf_dset|done| |].
  - intros n r'. rewrite dget_dset. case_decide; subst; [|apply Hrow].
    intros [= <-]. split; [done|]. rewrite Hid. by eapply Hrow.
  - intros n1 n2 r1 r2. rewrite !dget_dset. repeat case_decide; subst; [done| | |apply Hinj];
      intros; simplify_eq; eapply Hinj; eauto; congruence.
Qed.

Lemma mark_ok r m : repo_ok r → repo_ok (mark r m).
Proof. done. Qed.

(** Adding a row for an absent name under the next id keeps it too. *)
Lemma insert_fresh_ok r name row m :
  repo_ok r → dget (storage r) name = None →
  service_name row = name → id row = Some (next_id r) →
  repo_ok {| storage := dset (storage r) name row; next_id := next_id r + 1;
             last_acquire_marker := m |}.
Proof.
  intros (Hwf & Hn & Hrow & Hinj) Hnone Hname Hid.
  split_and!; simpl; [by apply dict_wf_dset|lia| |].
  - intros n r'. rewrite dget_dset. case_decide; subst.
    + intros [= <-]. split; [done|]. eexists. split; [done|]. lia.
    + intros [? (i & ? & ?)]%Hrow. split; [done|]. exists i. split; [done|]. lia.
  - intros n1 n2 r1 r2. rewrite !dget_dset. repeat case_decide; subst; [done| | |apply Hinj].
    + intros [= <-] [_ (i & Hi & ?)]%Hrow Heq. rewrite Hid, Hi in Heq. simplify_eq. lia.
    + intros [_ (i & Hi & ?)]%Hrow [= <-] Heq. rewrite Hid, Hi in Heq. simplify_eq. lia.
Qed.

Lemma get_or_create_spec now r name r' e :
  repo_ok r → get_or_create now r name = (r', e) →
  repo_ok r' ∧ dget (storage r') name = Some e ∧ service_name e = name ∧
  view e = vw r name ∧ changes r r' name (view e).
Proof.
  intros Hok. unfold get_or_create, changes, vw, seen. simpl. unfold get_by_service_name.
  destruct (dget (storage r) name) as [row|] eqn:Hrow; intros [= <- <-].
  - pose proof Hok as (_ & _ & Hname & _). split_and!; [done|done|by eapply Hname|done|].
    intros n. case_decide; subst; [by rewrite Hrow|done].
  - split_and!; [by apply insert_fresh_ok|simpl; by rewrite dget_dset_eq|done|done|].
    intros n. simpl. rewrite dget_dset. by repeat case_decide; subst.
Qed.

Lemma seen_put r name row n :
  seen (put r name row) n = if decide (n = name) then Some (view row) else seen r n.
Proof.
  unfold seen. simpl. unfold get_by_service_name. simpl. rewrite dget_dset.
  by repeat case_decide; subst.
Qed.

(** Every operation of the shape "get or create, then replace that row". *)
Lemma goc_put_spec now r name r1 e row :
  repo_ok r → get_or_create now r name = (r1, e) →
  service_name row = name → id row = id e →
  repo_ok (put r1 name row) ∧ changes r (put r1 name row) name (view row) ∧
  vw (put r1 name row) name = view row.
Proof.
  intros Hok Hg Hname Hid.
  destruct (get_or_create_spec _ _ _ _ _ Hok Hg) as (Hok1 & Hget & _ & _ & Hseen).
  assert (changes r (put r1 name row) name (view row)) as Hc.
  { intros n. rewrite seen_put, Hseen. by case_decide. }
  split_and!; [by eapply put_ok|done|by eapply changes_eq].
Qed.

(** Every operation of the shape "replace the row if there is one". *)
Lemma put_spec r name e row :
  repo_ok r → dget (storage r) name = Some e →
  service_name row = name → id row = id e →
  repo_ok (put r name row) ∧ present r name ∧ changes r (put r name row) name (view row).
Proof.
  intros Hok He Hname Hid. split_and!; [by eapply put_ok| |].
  - unfold present. simpl. unfold get_by_service_name. by rewrite He.
  - intros n. by rewrite seen_put.
Qed.

Lemma absent_not_present r name : dget (storage r) name = None → ¬ present r name.
Proof. unfold present. simpl. unfold get_by_service_name. intros ->. by intros [? ?]. Qed.

Lemma vw_some r name e : dget (storage r) name = Some e → vw r name = view e.
Proof. unfold vw. simpl. unfold get_by_service_name. by intros ->. Qed.

(** The two guards read the same fields on a row and on its view. *)
Lemma v_is_view e s : v_is (view e) s = state_is e s.
Proof. done. Qed.

Lemma v_pinned_view now e : v_pinned now (view e) = is_pin_active now e.
Proof. done. Qed.

(** Open an operation that starts with [get_or_create]: its row has the view the
    specification is applied to, and nothing has changed yet. *)
Ltac open_row Hok r name e :=
  match goal with
  | |- context [get_or_create ?now r name] =>
      let r1 := fresh "r1" in let Hg := fresh "Hg" in
      destruct (get_or_create now r name) as [r1 e] eqn:Hg;
      let Hok1 := fresh "Hok1" in let Hview := fresh "Hview" in
      destruct (get_or_create_spec _ _ _ _ _ Hok Hg)
        as (Hok1 & Hget & Hname & Hview & Hsame);
      rewrite <-?Hview
  end.

(** The write half: the row put in place is the specified one. *)
Ltac put_row Hok :=
  cbv zeta;
  match goal with
  | Hg : get_or_create _ _ _ = _ |- context [put ?r1 ?name ?row] =>
      destruct (goc_put_spec _ _ _ _ _ row Hok Hg eq_refl eq_refl) as (? & ? & ?)
  | He : dget (storage ?r) ?name = Some ?e |- context [put ?r ?name ?row] =>
      destruct (put_spec r name e row Hok He) as (? & ? & ?); [done..|]
  end.

Lemma trip_to_open_spec now r name fc :
  repo_ok r →
  let '(r', att) := trip_to_open now r name fc in
  let '(v', b, token) := spec_trip now fc (vw r name) in
  repo_ok r' ∧ changes r r' name v' ∧ did_open att = b ∧ state (open_state att) = token.
Proof.
  intros Hok. unfold trip_to_open. open_row Hok r name e.
  unfold spec_trip. rewrite v_pinned_view, v_is_view.
  destruct (is_pin_active now e); [done|].
  destruct (state_is e CLOSED) eqn:Hst; simpl; [|done]. by put_row Hok.
Qed.

Lemma close_check_spec now r name thr :
  repo_ok r →
  let '(r', att) := record_success_with_close_check now r name thr in
  let '(v', b) := spec_close_check thr (vw r name) in
  repo_ok r' ∧ changes r r' name v' ∧ did_close att = b ∧ view (close_state att) = v'.
Proof.
  intros Hok. unfold record_success_with_close_check. open_row Hok r name e.
  unfold spec_close_check. rewrite v_is_view. simpl v_successes.
  destruct (state_is e HALF_OPEN && (thr <=? success_count e + 1)) eqn:E; simpl in E |- *;
    rewrite ?E; by put_row Hok.
Qed.

Lemma open_check_spec now r name :
  repo_ok r →
  let '(r', att) := record_failure_with_open_check now r name in
  let '(v', b) := spec_open_check now (vw r name) in
  repo_ok r' ∧ changes r r' name v' ∧ did_open att = b ∧ view (open_state att) = v'.
Proof.
  intros Hok. unfold record_failure_with_open_check. open_row Hok r name e.
  unfold spec_open_check. rewrite v_is_view.
  destruct (state_is e HALF_OPEN); simpl; [by put_row Hok|done].
Qed.

Lemma acquire_spec now r name limit stuck :
  repo_ok r →
  let '(r', res) := try_acquire_half_open_slot now r name limit stuck in
  let '(v', res') := branch_acquire now limit stuck (vw r name) in
  repo_ok r' ∧ changes r r' name v' ∧ res = res'.
Proof.
  intros Hok. unfold try_acquire_half_open_slot. open_row Hok r name e. cbv zeta.
  unfold branch_acquire. rewrite !v_is_view.
  change (v_half_count (view e)) with (half_open_request_count e).
  change (v_half_started (view e)) with (half_open_window_started_at e).
  change (match half_open_window_started_at e with
          | Some t => seconds stuck <? now - t | None => true end)
    with (window_stuck now (half_open_window_started_at e) stuck).
  rewrite Z.ltb_antisym.
  destruct (state_is e HALF_OPEN) eqn:Hho, (limit <=? half_open_request_count e),
    (window_stuck now (half_open_window_started_at e) stuck), (state_is e OPEN) eqn:Ho;
    simpl; try done; try (by put_row Hok);
    destruct (half_open_window_started_at e); by put_row Hok.
Qed.

Lemma update_state_spec now r name a :
  repo_ok r →
  let '(r', ok) := update_state now r name a in
  if ok then repo_ok r' ∧ present r name ∧ changes r r' name (spec_update now a (vw r name))
  else r' = r ∧ ¬ present r name.
Proof.
  intros Hok. unfold update_state. destruct (dget (storage r) name) as [e|] eqn:He;
    [|split; [done|by apply absent_not_present]].
  rewrite (vw_some _ _ _ He). unfold spec_update. rewrite v_pinned_view, !v_is_view.
  change (state_is e OPEN || state_is e HALF_OPEN) with (non_closed (state e)).
  assert (present r name) by (unfold present; simpl; unfold get_by_service_name; by rewrite He).
  assert (changes r r name (view e)).
  { intros n. case_decide; subst; [|done]. rewrite seen_present by done.
    by rewrite (vw_some _ _ _ He). }
  destruct (u_skip_if_pinned a && is_pin_active now e); simpl; [done|].
  destruct (u_keep_open a && non_closed (state e)); simpl; [done|].
  destruct (u_reset_half_open_count a); [by put_row Hok|].
  destruct (u_half_open_request_count a); by put_row Hok.
Qed.

Lemma delete_spec r name :
  repo_ok r →
  let '(r', ok) := delete_state r name in
  repo_ok r' ∧ (∀ n, seen r' n = if decide (n = name) then None else seen r n) ∧
  (ok = true ↔ present r name).
Proof.
  intros Hok. unfold delete_state, delete.
  destruct (dget (storage r) name) as [e|] eqn:He.
  - split_and!.
    + destruct Hok as (Hwf & Hn & Hrow & Hinj).
      split_and!; simpl; [by apply dict_wf_ddel|done| |].
      * intros n row. rewrite dget_ddel. case_decide; [done|apply Hrow].
      * intros n1 n2 r1 r2. rewrite !dget_ddel. repeat case_decide; try done. apply Hinj.
    + intros n. unfold seen. simpl. unfold get_by_service_name. simpl. rewrite dget_ddel.
      by repeat case_decide; subst.
    + split; [|done]. intros _. unfold present. simpl. unfold get_by_service_name.
      by rewrite He.
  - split_and!; [done| |].
    + intros n. case_decide; subst; [|done]. unfold seen. simpl. unfold get_by_service_name.
      by rewrite He.
    + split; [done|]. intros Hp. by apply absent_not_present in He.
Qed.

Lemma get_or_create_law now r name :
  repo_ok r →
  let '(r', row) := get_or_create now r name in
  repo_ok r' ∧ changes r r' name (vw r name) ∧ view row = vw r name ∧ service_name row = name.
Proof.
  intros Hok. by open_row Hok r name e.
Qed.

Lemma record_failure_spec now r name :
  repo_ok r →
  let '(r', row) := record_failure now r name in
  repo_ok r' ∧ changes r r' name (spec_record_failure now (vw r name)) ∧ view row = vw r' name.
Proof. intros Hok. unfold record_failure. open_row Hok r name e. by put_row Hok. Qed.

Lemma record_success_spec now r name :
  repo_ok r →
  let '(r', row) := record_success now r name in
  repo_ok r' ∧ changes r r' name (spec_record_success (vw r name)) ∧ view row = vw r' name.
Proof. intros Hok. unfold record_success. open_row Hok r name e. by put_row Hok. Qed.

Lemma set_manual_spec now r name s by_id reason exp :
  repo_ok r →
  let '(r', ok) := set_manual_control now r name s by_id reason exp in
  repo_ok r' ∧ ok = true ∧ changes r r' name (spec_set_manual now s by_id reason exp (vw r name)).
Proof. intros Hok. unfold set_manual_control. open_row Hok r name e. by put_row Hok. Qed.

Lemma clear_manual_spec now r name preserve :
  repo_ok r →
  let '(r', ok) := clear_manual_control now r name preserve in
  if ok then repo_ok r' ∧ present r name ∧ changes r r' name (spec_clear_manual preserve (vw r name))
  else r' = r ∧ ¬ present r name.
Proof.
  intros Hok. unfold clear_manual_control. destruct (dget (storage r) name) as [e|] eqn:He;
    [|split; [done|by apply absent_not_present]].
  rewrite (vw_some _ _ _ He). by put_row Hok.
Qed.

Lemma force_open_spec now r name reason by_id ttl :
  repo_ok r →
  let '(r', (ok, prev, new)) := atomic_force_open now r name reason by_id ttl in
  repo_ok r' ∧ ok = true ∧ prev = v_state (vw r name) ∧ new = value OPEN ∧
  changes r r' name (spec_force_open now reason by_id ttl (vw r name)).
Proof. intros Hok. unfold atomic_force_open. open_row Hok r name e. by put_row Hok. Qed.

Lemma force_close_spec now r name reason by_id ttl :
  repo_ok r →
  let '(r', (ok, prev, new)) := atomic_force_close now r name reason by_id ttl in
  repo_ok r' ∧ ok = true ∧ prev = v_state (vw r name) ∧ new = value CLOSED ∧
  changes r r' name (spec_force_close now reason by_id ttl (vw r name)).
Proof. intros Hok. unfold atomic_force_close. open_row Hok r name e. by put_row Hok. Qed.

Lemma atomic_reset_spec now r name reason by_id :
  repo_ok r →
  let '(r', (ok, prev, new)) := atomic_reset now r name reason by_id in
  if ok then repo_ok r' ∧ present r name ∧ prev = v_state (vw r name) ∧ new = value CLOSED ∧
    changes r r' name (spec_reset reason)
  else r' = r ∧ ¬ present r name ∧ prev = "" ∧ new = "".
Proof.
  intros Hok. unfold atomic_reset. destruct (dget (storage r) name) as [e|] eqn:He;
    [|split; [done|split; [by apply absent_not_present|done]]].
  rewrite (vw_some _ _ _ He). by put_row Hok.
Qed.

Lemma reset_spec now r name :
  repo_ok r →
  let '(r', ok) := reset now r name in
  if ok then repo_ok r' ∧ present r name ∧ changes r r' name fresh_view
  else r' = r ∧ ¬ present r name.
Proof.
  intros Hok. unfold reset. destruct (dget (storage r) name) as [e|] eqn:He;
    [|split; [done|by apply absent_not_present]].
  by put_row Hok.
Qed.

Lemma reset_half_open_spec now r name :
  repo_ok r →
  let r' := reset_half_open_count now r name in
  (present r name → repo_ok r' ∧ changes r r' name (spec_reset_half_open (vw r name))) ∧
  (¬ present r name → r' = r).
Proof.
  intros Hok. unfold reset_half_open_count. destruct (dget (storage r) name) as [e|] eqn:He.
  - rewrite (vw_some _ _ _ He). cbv zeta.
    assert (service_name e = name) by (destruct Hok as (_ & _ & Hrow & _); by eapply Hrow).
    match goal with |- context [put r name ?row] =>
      destruct (put_spec r name e row Hok He) as (? & ? & ?); [done..|] end.
    split; [done|]. intros Hp. by destruct Hp.
  - by pose proof (absent_not_present _ _ He).
Qed.

Lemma row_name_law r name row :
  repo_ok r → get_by_service_name r name = Some row → service_name row = name.
Proof. intros (_ & _ & Hrow & _) Hg. by eapply Hrow. Qed.

Lemma get_all_states_spec r row :
  repo_ok r → row ∈ get_all_states r ↔ get_by_service_name r (service_name row) = Some row.
Proof.
  intros Hok. unfold get_all_states, get_by_service_name.
  rewrite elem_of_dvals by apply Hok. split; [|eauto].
  intros [k Hk]. by rewrite (row_name_law r k row).
Qed.

#[export] Instance in_memory_laws : RepositoryLaws InMemoryCircuitBreakerStateRepository := {|
  r_ok := repo_ok;
  law_get_or_create := get_or_create_law;
  law_update_state := update_state_spec;
  law_record_failure := record_failure_spec;
  law_record_success := record_success_spec;
  law_close_check := close_check_spec;
  law_open_check := open_check_spec;
  law_trip := trip_to_open_spec;
  law_set_manual := set_manual_spec;
  law_clear_manual := clear_manual_spec;
  law_reset := reset_spec;
  law_delete := delete_spec;
  law_force_open := force_open_spec;
  law_force_close := force_close_spec;
  law_atomic_reset := atomic_reset_spec;
  law_acquire := acquire_spec;
  law_reset_half_open := reset_half_open_spec;
  law_row_name := row_name_law;
  law_get_all_states := get_all_states_spec |}.

(** ** Properties of the repository *)

(** C11: The in-memory repository implements the documented contract, for its
    eighteen operations other than the two fleet listings [get_cluster_states]
    and [get_open_states]: for every sequence of calls, started empty, in which
    no slot is asked for on a row whose operator override is in force, what each
    call lets its caller observe (rows, listings by name, flags, attempts, state
    tokens) is what the abstract machine of the interface shows for the same
    sequence.  On a row under override the documentation makes the slot acquire
    a no-op; the adapter decides by the state, the count and the watermark alone,
    and for every sequence, overrides included, it shows what the machine with
    that reading of the acquire shows. *)
Theorem in_memory_refines_contract ops :
  observe call new_repository ops = observe (abs_call branch_acquire) ∅ ops ∧
  (slots_off_override ∅ ops →
   observe call new_repository ops = observe (abs_call spec_acquire) ∅ ops).
Proof.
  assert (observe call new_repository ops = observe (abs_call branch_acquire) ∅ ops) as Hr.
  { apply runs_simulate. split; [apply new_repository_ok|done]. }
  split; [done|]. intros Hops. by rewrite Hr, runs_agree.
Qed.

Lemma in_memory_refines_contract_witness :
  let ops := [ORecordFailure 5 "db"; OTrip 10 "db" 3; OAcquire 40 "db" 2 60;
              OCloseCheck 41 "db" 1; OForceOpen 50 "db" "hold" (Some 7) None; OGetAll;
              OGetOrCreate 51 "api"; OReset 60 "db" "done" None; OResetRow 61 "api"] in
  observe call new_repository ops = observe (abs_call spec_acquire) ∅ ops.
Proof. apply in_memory_refines_contract. vm_compute. tauto. Defined.

(** The acquire does not consult the override: asked on an OPEN row an operator
    holds, it opens the trial window and grants the slot, where the documented
    branch is a no-op.  An admission that begins under a block never asks there;
    one that read the row before the block was set can. *)
Theorem acquire_ignores_override now r name limit stuck :
  repo_ok r → v_state (vw r name) = value OPEN → v_pinned now (vw r name) = true →
  (try_acquire_half_open_slot now r name limit stuck).2 = (true, value OPEN, value HALF_OPEN) ∧
  (spec_acquire now limit stuck (vw r name)).2 = (false, value OPEN, value OPEN).
Proof.
  intros Hok Hst Hpin. unfold spec_acquire. rewrite Hpin, Hst. split; [|done].
  pose proof (acquire_spec now r name limit stuck Hok) as Hl.
  unfold branch_acquire, v_is in Hl. rewrite Hst in Hl. simpl in Hl.
  destruct (try_acquire_half_open_slot now r name limit stuck). simpl. tauto.
Qed.

Lemma acquire_ignores_override_witness :
  let r := (atomic_force_open 10 new_repository "db" "hold" (Some 7) None).1 in
  (try_acquire_half_open_slot 20 r "db" 3 60).2 = (true, value OPEN, value HALF_OPEN).
Proof.
  apply (acquire_ignores_override 20
    (atomic_force_open 10 new_repository "db" "hold" (Some 7) None).1 "db" 3 60);
    [|reflexivity|reflexivity].
  exact (proj1 (force_open_spec 10 new_repository "db" "hold" (Some 7) None new_repository_ok)).
Defined.

(** Trips of one name, one after the other, by callers with their own clock
    readings and failure counts; the flags say who opened the circuit. *)
Fixpoint trips (r : InMemoryCircuitBreakerStateRepository) (name : string)
    (callers : list (Z * Z)) : InMemoryCircuitBreakerStateRepository * list bool :=
  match callers with
  | [] => (r, [])
  | (now, fc) :: rest =>
      let '(r1, att) := trip_to_open now r name fc in
      let '(r2, bs) := trips r1 name rest in (r2, did_open att :: bs)
  end.

(** An OPEN row stays as it is and nobody opens it again. *)
Lemma trips_open callers r name :
  repo_ok r → v_state (vw r name) = value OPEN →
  Forall (λ b, b = false) (trips r name callers).2.
Proof.
  revert r. induction callers as [|[now fc] rest IH]; intros r Hok Hst; simpl; [done|].
  pose proof (trip_to_open_spec now r name fc Hok) as Hl. unfold spec_trip, v_is in Hl.
  rewrite Hst in Hl. simpl in Hl.
  destruct (trip_to_open now r name fc) as [r1 att].
  assert (repo_ok r1 ∧ vw r1 name = vw r name ∧ did_open att = false) as (Hok1 & Hv & Hb).
  { destruct (v_pinned now (vw r name)); destruct Hl as (? & Hc & ? & ?);
      by rewrite (changes_eq _ _ _ _ Hc). }
  specialize (IH r1 Hok1). rewrite Hv in IH. specialize (IH Hst).
  destruct (trips r1 name rest) as [r2 bs]. simpl in *. by constructor.
Qed.

(** Single winner. However many callers trip one CLOSED, unpinned circuit,
    exactly one is told it opened it: the first to reach the lock. *)
Theorem trip_single_winner r name now fc rest :
  repo_ok r → v_state (vw r name) = value CLOSED → v_pinned now (vw r name) = false →
  let '(_, bs) := trips r name ((now, fc) :: rest) in
  ∃ bs', bs = true :: bs' ∧ Forall (λ b, b = false) bs'.
Proof.
  intros Hok Hst Hpin. simpl.
  pose proof (trip_to_open_spec now r name fc Hok) as Hl. unfold spec_trip, v_is in Hl.
  rewrite Hst, Hpin in Hl. rewrite bool_decide_eq_true_2 in Hl by done.
  destruct (trip_to_open now r name fc) as [r1 att]. destruct Hl as (Hok1 & Hc & Hb & _).
  pose proof (trips_open rest r1 name Hok1) as Hrest. rewrite (changes_eq _ _ _ _ Hc) in Hrest.
  specialize (Hrest eq_refl). destruct (trips r1 name rest) as [r2 bs]. simpl in *.
  exists bs. by rewrite Hb.
Qed.

Lemma trip_single_winner_witness :
  let '(_, bs) := trips new_repository "db" [(5, 3); (6, 4); (7, 5)] in
  ∃ bs', bs = true :: bs' ∧ Forall (λ b, b = false) bs'.
Proof.
  apply (trip_single_winner new_repository "db" 5 3 [(6, 4); (7, 5)]);
    [apply new_repository_ok|reflexivity|reflexivity].
Defined.

(** Slot acquires of one name, in the order they reach the lock, each with its
    clock reading. *)
Fixpoint acquires (r : InMemoryCircuitBreakerStateRepository) (name : string)
    (limit stuck : Z) (nows : list Z) :
    InMemoryCircuitBreakerStateRepository * list bool :=
  match nows with
  | [] => (r, [])
  | now :: rest =>
      let '(r1, (ok, _, _)) := try_acquire_half_open_slot now r name limit stuck in
      let '(r2, oks) := acquires r1 name limit stuck rest in (r2, ok :: oks)
  end.

Definition granted (oks : list bool) : Z := Zlength (filter (λ b, b = true) oks).

Lemma granted_cons b oks : granted (b :: oks) = (if b then 1 else 0) + granted oks.
Proof.
  unfold granted, Zlength. rewrite filter_cons.
  destruct b; [rewrite decide_True by done|rewrite decide_False by done]; simpl; lia.
Qed.

(** While the trial window is younger than the stuck timeout, [count] slots taken
    leave [limit - count] to give, and they are all given. *)
Lemma acquires_half_open nows r name limit stuck t0 :
  repo_ok r → v_state (vw r name) = value HALF_OPEN → v_half_started (vw r name) = Some t0 →
  0 <= v_half_count (vw r name) <= limit →
  Forall (λ now, now - t0 <= seconds stuck) nows →
  granted (acquires r name limit stuck nows).2
    = Z.min (Zlength nows) (limit - v_half_count (vw r name)).
Proof.
  revert r. induction nows as [|now rest IH]; intros r Hok Hst Hw Hc Hnow; simpl.
  { unfold granted, Zlength. simpl. lia. }
  apply Forall_cons in Hnow as [Hnow Hrest].
  pose proof (acquire_spec now r name limit stuck Hok) as Hl.
  unfold branch_acquire, v_is in Hl. rewrite Hst, Hw in Hl. simpl in Hl.
  rewrite (proj2 (Z.ltb_ge _ _) Hnow) in Hl.
  destruct (try_acquire_half_open_slot now r name limit stuck) as [r1 [[ok p] q]].
  destruct (limit <=? v_half_count (vw r name)) eqn:E; destruct Hl as (Hok1 & Hch & [= -> _ _]);
    apply changes_eq in Hch; specialize (IH r1 Hok1); rewrite Hch in IH; simpl in IH;
    [apply Z.leb_le in E|apply Z.leb_gt in E]; specialize (IH ltac:(done) ltac:(done));
    specialize (IH ltac:(lia) Hrest); destruct (acquires r1 name limit stuck rest) as [r2 oks];
    simpl; rewrite granted_cons; unfold Zlength in *; simpl in *; lia.
Qed.

(** Bounded trial traffic. When an OPEN circuit starts its recovery, the calls
    admitted before the stuck timeout are exactly [half_open_max_calls] (or all
    of them, when fewer ask): never more, and no slot is withheld. *)
Theorem half_open_admits_exactly_limit r name limit stuck t0 nows :
  repo_ok r → v_state (vw r name) = value OPEN → 1 <= limit →
  Forall (λ now, now - t0 <= seconds stuck) nows →
  granted (acquires r name limit stuck (t0 :: nows)).2 = Z.min (1 + Zlength nows) limit.
Proof.
  intros Hok Hst Hlim Hnows. simpl.
  pose proof (acquire_spec t0 r name limit stuck Hok) as Hl.
  unfold branch_acquire, v_is in Hl. rewrite Hst in Hl. simpl in Hl.
  destruct (try_acquire_half_open_slot t0 r name limit stuck) as [r1 [[ok p] q]].
  destruct Hl as (Hok1 & Hch & [= -> _ _]). apply changes_eq in Hch.
  pose proof (acquires_half_open nows r1 name limit stuck t0 Hok1) as IH.
  rewrite Hch in IH. simpl in IH. specialize (IH eq_refl eq_refl ltac:(lia) Hnows).
  destruct (acquires r1 name limit stuck nows) as [r2 oks].
  simpl in *. rewrite granted_cons. unfold Zlength in *. lia.
Qed.

Lemma half_open_admits_exactly_limit_witness :
  let r := (atomic_force_open 10 new_repository "db" "" None None).1 in
  granted (acquires r "db" 3 60 [1000; 1001; 1002; 1003; 1004]).2 = 3.
Proof.
  cbv zeta. rewrite (half_open_admits_exactly_limit _ "db" 3 60 1000 [1001; 1002; 1003; 1004]);
    [reflexivity| |reflexivity|lia|repeat constructor; vm_compute; discriminate].
  exact (proj1 (force_open_spec 10 new_repository "db" "" None None new_repository_ok)).
Defined.

(** An active operator pin shields its row from every write the code makes on
    its own account: an automatic trip, the reset sweep of a drained peer, the
    hydration from the shared store and a guarded state write all leave the whole
    repository as it was, and none reports success in moving it. *)
Theorem pin_shields_automatic_writes now r name e :
  dget (storage r) name = Some e → is_pin_active now e = true →
  (∀ fc, (trip_to_open now r name fc).1 = r ∧ did_open (trip_to_open now r name fc).2 = false) ∧
  converge_to_closed_unless_pinned now r name = (r, false) ∧
  (∀ snapshot, service_name snapshot = name → hydrate_snapshot now r snapshot true = (r, false)) ∧
  (∀ a, u_skip_if_pinned a = true → update_state now r name a = (r, true)).
Proof.
  intros He Hpin.
  unfold trip_to_open, get_or_create, converge_to_closed_unless_pinned, update_state.
  rewrite He, Hpin. split_and!; [done|done| |].
  - intros snapshot <-. unfold hydrate_snapshot. by rewrite He, Hpin.
  - intros a ->. done.
Qed.

Lemma pin_shields_automatic_writes_witness :
  let r := (atomic_force_close 10 new_repository "db" "keep" (Some 7) (Some 5)).1 in
  (trip_to_open 20 r "db" 9).1 = r ∧ converge_to_closed_unless_pinned 20 r "db" = (r, false).
Proof.
  cbv zeta. edestruct (pin_shields_automatic_writes 20
    (atomic_force_close 10 new_repository "db" "keep" (Some 7) (Some 5)).1 "db")
    as (Ht & Hc & _); [reflexivity|reflexivity|].
  split; [exact (proj1 (Ht 9))|exact Hc].
Defined.

(** Hydrating a snapshot of the shared store shows its state, counters and
    override to every later reader, while the trial window of this process
    (slots taken and the time the window opened) and the other rows stay; the
    representation invariant is kept, also when the row is new. *)
Theorem hydrate_keeps_trial_window now r snapshot :
  repo_ok r →
  let name := service_name snapshot in
  let '(r', ok) := hydrate_snapshot now r snapshot false in
  ok = true ∧ repo_ok r' ∧
  changes r r' name {|
    v_state := state snapshot; v_failures := failure_count snapshot;
    v_successes := success_count snapshot; v_last_failure := last_failure_at snapshot;
    v_opened_at := opened_at snapshot; v_controlled := manually_controlled snapshot;
    v_controlled_by := controlled_by_id snapshot; v_reason := control_reason snapshot;
    v_expires := manual_override_expires_at snapshot;
    v_half_count := v_half_count (vw r name); v_half_started := v_half_started (vw r name) |}.
Proof.
  intros Hok. unfold hydrate_snapshot. simpl.
  assert (∀ row nid m, changes r {| storage := dset (storage r) (service_name snapshot) row;
    next_id := nid; last_acquire_marker := m |} (service_name snapshot) (view row)) as Hc.
  { intros row nid m n. apply (seen_put r (service_name snapshot) row n). }
  destruct (dget (storage r) (service_name snapshot)) as [e|] eqn:He.
  - rewrite (vw_some _ _ _ He). split_and!; [done| |apply Hc].
    by eapply (put_ok r _ e).
  - assert (vw r (service_name snapshot) = fresh_view) as ->.
    { unfold vw. simpl. unfold get_by_service_name. by rewrite He. }
    split_and!; [done| |apply Hc]. by apply insert_fresh_ok.
Qed.

Lemma hydrate_keeps_trial_window_witness :
  let r := (try_acquire_half_open_slot 20
              (atomic_force_open 10 new_repository "db" "" None None).1 "db" 3 60).1 in
  let '(r', ok) := hydrate_snapshot 30 r (new_row 5 new_repository "db") false in
  v_half_count (vw r' "db") = 1.
Proof.
  cbv zeta.
  set (r0 := (atomic_force_open 10 new_repository "db" "" None None).1).
  assert (repo_ok r0) as H0
    by exact (proj1 (force_open_spec 10 new_repository "db" "" None None new_repository_ok)).
  assert (repo_ok (try_acquire_half_open_slot 20 r0 "db" 3 60).1) as H1
    by exact (proj1 (acquire_spec 20 r0 "db" 3 60 H0)).
  pose proof (hydrate_keeps_trial_window 30 (try_acquire_half_open_slot 20 r0 "db" 3 60).1
    (new_row 5 new_repository "db") H1) as Hh.
  cbv zeta in Hh. destruct (hydrate_snapshot 30 _ (new_row 5 new_repository "db") false).
  destruct Hh as (_ & _ & Hc). exact (f_equal v_half_count (changes_eq _ _ _ _ Hc)).
Defined.

(** The recovery scan's input: [get_open_states] with no limit lists exactly
    the OPEN rows, longest-open first, and a limit keeps the head of that list. *)
Theorem open_states_oldest_first r limit :
  repo_ok r → 0 <= limit →
  get_open_states r (Some limit) = take (Z.to_nat limit) (get_open_states r None) ∧
  Sorted (λ a b, default DATETIME_MIN (opened_at a) <= default DATETIME_MIN (opened_at b))
    (get_open_states r None) ∧
  (∀ row, row ∈ get_open_states r None ↔
     get_by_service_name r (service_name row) = Some row ∧ state row = value OPEN).
Proof.
  intros Hok Hl. unfold get_open_states. simpl. split_and!.
  - unfold py_take. by rewrite (proj2 (Z.ltb_ge _ _) Hl).
  - apply sort_by_sorted.
  - intros row. rewrite sort_by_perm, list_elem_of_filter, state_is_true.
    change (dvals (storage r)) with (get_all_states r).
    rewrite get_all_states_spec by done. naive_solver.
Qed.

Lemma open_states_oldest_first_witness :
  let r := (atomic_force_open 10 new_repository "db" "" None None).1 in
  get_open_states r (Some 1) = take 1 (get_open_states r None).
Proof.
  apply (open_states_oldest_first (atomic_force_open 10 new_repository "db" "" None None).1 1);
    [|lia].
  exact (proj1 (force_open_spec 10 new_repository "db" "" None None new_repository_ok)).
Defined.

(** A trial window that has handed out slots has a start. Whatever calls the
    repository has served, none of them setting the slot count by hand, a row
    with a positive half-open count carries the watermark the stuck-recovery
    timeout is measured from. *)
Theorem slots_imply_watermark ops name row :
  Forall sets_no_count ops →
  get_by_service_name (after call new_repository ops) name = Some row →
  0 < half_open_request_count row → is_Some (half_open_window_started_at row).
Proof.
  intros Hops Hrow.
  assert (stands_for (after call new_repository ops) (after (abs_call branch_acquire) ∅ ops)) as [_ Hs].
  { apply after_simulates. split; [apply new_repository_ok|done]. }
  assert (map_Forall (λ _, watermark_ok) (after (abs_call branch_acquire) ∅ ops)) as Hm.
  { clear -Hops. assert (map_Forall (λ _, watermark_ok) (∅ : gmap string cb_view)) as H0 by done.
    revert H0. generalize (∅ : gmap string cb_view).
    induction Hops as [|o ops Ho Hops IH]; intros m Hm; simpl; [done|].
    by apply IH, abs_call_watermark. }
  apply (Hm name (view row)). rewrite <-Hs. unfold seen. simpl. by rewrite Hrow.
Qed.

Lemma slots_imply_watermark_witness :
  ∃ row, get_by_service_name (after call new_repository
      [OForceOpen 10 "db" "" None None; OAcquire 20 "db" 3 60; OAcquire 21 "db" 3 60]) "db"
    = Some row ∧ half_open_request_count row = 2 ∧ is_Some (half_open_window_started_at row).
Proof.
  eexists. split; [reflexivity|split; [reflexivity|]].
  eapply (slots_imply_watermark
    [OForceOpen 10 "db" "" None None; OAcquire 20 "db" 3 60; OAcquire 21 "db" 3 60] "db");
    [repeat constructor|reflexivity|reflexivity].
Defined.
