(* ===== verification/CBService.v ===== *)
(** * The circuit-breaker service

    Models [services/circuit_breaker/service.py] (admission, failure and success
    recording, the automatic trip, the recovery sweep, manual control, cell
    reconciliation, aggregate evidence), [manual_control.py] (force open/close,
    reset, override expiry and extension) and [freeze_mode.py].

    A service method is an [eprog] over the world the threads of a process
    share: the repository, the outcome window, the threshold overrides, what the
    outside currently answers (clock, configuration, emergency level, kill
    switch, downstream checkers) and the trace of the effects handed to other
    components (events, audit rows, metrics, budget).  Each call of a component
    is one atomic action; between two of them another thread may run.  The
    repository is any type with the operations of [CBInterface].  Its in-memory
    adapter never raises, so the handlers that only log a storage error have no
    path here; a [KeyError] of the override lookup does. *)

From Stdlib Require Import Ascii.
From stdpp Require Import pretty.
From S2P Require Import Prelude Interleave CBData OutcomeWindow CBInterface.

(** ** What the service exchanges with other components *)

Inductive EmergencyLevel : Type := NORMAL | LEVEL_1 | LEVEL_2 | LEVEL_3.

(** [EmergencyLevel.severity] *)
Definition severity (l : EmergencyLevel) : Z :=
  match l with NORMAL => 0 | LEVEL_1 => 1 | LEVEL_2 => 2 | LEVEL_3 => 3 end.

Definition FREEZE_LEVEL : EmergencyLevel := LEVEL_3.

(** What consulting the emergency manager gives: none registered, it raised, it
    answered something that is not a level, or a level. *)
Inductive emergency_reading : Type :=
| NoManager
| ReadFailed
| NotALevel
| AtLevel (l : EmergencyLevel).

(** [FreezeModeManager._is_lockdown] *)
Definition is_lockdown (r : emergency_reading) : bool :=
  match r with
  | AtLevel l => severity FREEZE_LEVEL <=? severity l
  | NoManager | ReadFailed | NotALevel => false
  end.

(** [FreezeModeManager.should_allow_state_change], its verdict. *)
Definition should_allow_state_change (r : emergency_reading) : bool := negb (is_lockdown r).

Record threshold_override : Type := {
  adjusted_failure_threshold : Z;
  adjusted_recovery_timeout : Z;
  override_expires_at : Z;
}.

Inductive EventType : Type :=
| CIRCUIT_BREAKER_OPENED
| CIRCUIT_BREAKER_CLOSED
| CIRCUIT_BREAKER_HALF_OPENED.

#[export] Instance event_type_eq_dec : EqDecision EventType.
Proof. solve_decision. Defined.

Record cb_event : Type := {
  ev_type : EventType;
  ev_service : string;
  ev_previous : string;
  ev_timestamp : Z;
  ev_trigger : string;
  ev_trigger_replay : option bool;
  ev_evidence : option (Z * Z * Z); (* window failures, window total, consecutive *)
}.

Record actor : Type := { actor_id : string; actor_type : string }.

(** What the event emitter meets when it turns to the bus: a bus that takes the
    event, none ([_get_event_bus] gives [None]), or one whose [emit] raises. *)
Inductive bus_reading : Type := BusUp | BusUnavailable | BusRaises.

(** The calls that leave the service, in the order it makes them.  Each is
    fail-safe in the source: it never raises into the service.  An event the bus
    did not take is counted ([_record_emit_skipped], [_record_emit_failed]) and
    gone. *)
Inductive effect : Type :=
| Emit (ev : cb_event)
| EmitSkipped (ev : cb_event)
| EmitFailed (ev : cb_event)
| Audit (name old new reason : string) (who : option actor)
| StateMetric (name old new : string)
| BlockedMetric (name reason : string)
| PreemptiveFallbackMetric
| BurnRate (name : string) (raw_minutes multiplier : float)
| OperatorReplay (name : string)
| KillSwitchOverrideAudit (name action reason : string).

Record world (R : Type) : Type := {
  repo : R;
  window : OutcomeWindow;
  overrides : dict string threshold_override;
  downstream_checkers : list (string → option bool); (* [None]: the checker raised *)
  clock : Z;
  config : CircuitBreakerConfig;
  emergency : emergency_reading;
  system_enabled : bool;
  bus : bus_reading;
  trace : list effect;
}.
Arguments repo {R} _.
Arguments window {R} _.
Arguments overrides {R} _.
Arguments downstream_checkers {R} _.
Arguments clock {R} _.
Arguments config {R} _.
Arguments emergency {R} _.
Arguments system_enabled {R} _.
Arguments bus {R} _.
Arguments trace {R} _.

Section service.
  Context {R : Type} `{CircuitBreakerStateRepository R}.

Definition set_repo (w : world R) (r : R) : world R := {|
  repo := r; window := window w; overrides := overrides w;
  downstream_checkers := downstream_checkers w; clock := clock w; config := config w;
  emergency := emergency w; system_enabled := system_enabled w; bus := bus w;
  trace := trace w |}.

Definition set_window (w : world R) (o : OutcomeWindow) : world R := {|
  repo := repo w; window := o; overrides := overrides w;
  downstream_checkers := downstream_checkers w; clock := clock w; config := config w;
  emergency := emergency w; system_enabled := system_enabled w; bus := bus w;
  trace := trace w |}.

Definition set_overrides (w : world R) (o : dict string threshold_override) : world R := {|
  repo := repo w; window := window w; overrides := o;
  downstream_checkers := downstream_checkers w; clock := clock w; config := config w;
  emergency := emergency w; system_enabled := system_enabled w; bus := bus w;
  trace := trace w |}.

Definition set_checkers (w : world R) (c : list (string → option bool)) : world R := {|
  repo := repo w; window := window w; overrides := overrides w;
  downstream_checkers := c; clock := clock w; config := config w;
  emergency := emergency w; system_enabled := system_enabled w; bus := bus w;
  trace := trace w |}.

Definition add_effect (w : world R) (e : effect) : world R := {|
  repo := repo w; window := window w; overrides := overrides w;
  downstream_checkers := downstream_checkers w; clock := clock w; config := config w;
  emergency := emergency w; system_enabled := system_enabled w; bus := bus w;
  trace := trace w ++ [e] |}.

(** ** Atomic actions *)
Notation method A := (eprog (world R) A).

Definition ask {A} (f : world R → A) : method A := atomically (λ w, (w, f w)).

(** A repository call; it takes the clock reading of its critical section. *)
Definition storing {A} (f : Z → R → R * A) : method A :=
  atomically (λ w, let '(r, a) := f (clock w) (repo w) in (set_repo w r, a)).

(** An outcome-window call. *)
Definition windowing {A} (f : OutcomeWindow → OutcomeWindow * A) : method A :=
  atomically (λ w, let '(o, a) := f (window w) in (set_window w o, a)).

(** A change of the override map. *)
Definition overriding {A}
    (f : dict string threshold_override → dict string threshold_override * A) : method A :=
  atomically (λ w, let '(o, a) := f (overrides w) in (set_overrides w o, a)).

Definition perform (e : effect) : method () := atomically (λ w, (add_effect w e, ())).

Definition utc_now : method Z := ask clock.
Definition epoch_now (name : string) : method Z := ask (λ w, epoch_of (window w) name).

(** [self._outcome_window.observe_state(name, state, as_of=...)] *)
Definition observing (name st : string) (as_of : option Z) : method () :=
  windowing (λ o, ((observe_state o name st as_of).1, ())).

Definition clearing (name : string) : method () :=
  windowing (λ o, (OutcomeWindow.clear o name, ())).

Definition get_or_create_state (name : string) : method CircuitBreakerStateData :=
  storing (λ now r, r_get_or_create now r name).

Definition get_state (name : string) : method string :=
  row <- get_or_create_state name;; ret (state row).

Definition is_enabled : method bool := ask (λ w, enabled (config w)).

Definition register_downstream_checker (c : string → option bool) : method () :=
  atomically (λ w, (set_checkers w (downstream_checkers w ++ [c]), ())).

Definition apply_threshold_override (name : string) (o : threshold_override) : method () :=
  overriding (λ d, (dset d name o, ())).

Definition remove_threshold_override (name : string) : method () :=
  overriding (λ d, (ddel d name, ())).

(** [_emit_event]: the bus takes the event, or the metric of the skipped or
    failed emit is recorded. *)
Definition sent (b : bus_reading) (ev : cb_event) : effect :=
  match b with
  | BusUp => Emit ev
  | BusUnavailable => EmitSkipped ev
  | BusRaises => EmitFailed ev
  end.

Definition sending (ev : cb_event) : method () :=
  atomically (λ w, (add_effect w (sent (bus w) ev), ())).

(** [self._emit_event(...)] with the data every event carries. *)
Definition emit_event (t : EventType) (name previous trigger : string)
    (replay : option bool) (evidence : option (Z * Z * Z)) : method () :=
  now <- utc_now;;
  sending {| ev_type := t; ev_service := name; ev_previous := previous;
    ev_timestamp := now; ev_trigger := trigger; ev_trigger_replay := replay;
    ev_evidence := evidence |}.

(** ** Configuration *)

Definition with_override (c : CircuitBreakerConfig) (o : threshold_override) :
    CircuitBreakerConfig := {|
  enabled := enabled c;
  failure_threshold := adjusted_failure_threshold o;
  recovery_timeout := adjusted_recovery_timeout o;
  success_threshold := success_threshold c;
  minimum_calls := minimum_calls c;
  sliding_window_size := sliding_window_size c;
  failure_rate_threshold := failure_rate_threshold c;
  fallback_strategy := fallback_strategy c;
  fallback_cache_ttl_seconds := fallback_cache_ttl_seconds c;
  cb_open_burn_rate_multiplier := cb_open_burn_rate_multiplier c;
  cb_open_base_consumption_minutes := cb_open_base_consumption_minutes c;
  manual_override_ttl_minutes := manual_override_ttl_minutes c;
  half_open_max_calls := half_open_max_calls c;
  half_open_stuck_timeout_seconds := half_open_stuck_timeout_seconds c;
  max_pending_duration_hours := max_pending_duration_hours c;
  max_retry_lifetime_hours := max_retry_lifetime_hours c;
  rate_limit_cascade_threshold := rate_limit_cascade_threshold c;
  rate_limit_cascade_window_seconds := rate_limit_cascade_window_seconds c;
  rate_limit_cascade_rate := rate_limit_cascade_rate c;
  rate_limit_cascade_minimum_calls := rate_limit_cascade_minimum_calls c;
  self_ddos_protection_enabled := self_ddos_protection_enabled c;
  self_ddos_rps_limit := self_ddos_rps_limit c;
  self_ddos_window_seconds := self_ddos_window_seconds c;
  self_ddos_backoff_multiplier := self_ddos_backoff_multiplier c;
  self_ddos_backoff_base_seconds := self_ddos_backoff_base_seconds c;
  self_ddos_backoff_max_seconds := self_ddos_backoff_max_seconds c;
  self_ddos_backoff_jitter_factor := self_ddos_backoff_jitter_factor c;
  rate_limit_distributed := rate_limit_distributed c |}.

(** [d.pop(k)] without a default, and [d[k]]: both raise on an absent key. *)
Definition pop_override (name : string) : method () :=
  popped <- overriding (λ d,
    match dget d name with None => (d, false) | Some _ => (ddel d name, true) end);;
  if popped then ret () else raise (KeyError name).

Definition lookup_override (name : string) : method threshold_override :=
  found <- ask (λ w, dget (overrides w) name);;
  match found with None => raise (KeyError name) | Some o => ret o end.

Definition get_effective_config (name : string) : method CircuitBreakerConfig :=
  present <- ask (λ w, bool_decide (is_Some (dget (overrides w) name)));;
  if negb present then ask config
  else
    o <- lookup_override name;;
    now <- utc_now;;
    if override_expires_at o <? now then
      _ <- pop_override name;;
      ask config
    else
      c <- ask config;;
      ret (with_override c o).

(** ** Admission *)

(** [_auto_transition_allowed]: fail-open, and so is every reading below it. *)
Definition auto_transition_allowed : method bool :=
  ask (λ w, should_allow_state_change (emergency w)).

Definition record_blocked_metric (name reason : string) : method () :=
  perform (BlockedMetric name reason).

Definition record_rejection (name : string) (row : CircuitBreakerStateData) : method () :=
  now <- utc_now;;
  if is_manual_pin_active now row then ret ()
  else
    c <- get_effective_config name;;
    windowing (λ o, (OutcomeWindow.record_rejection o name (sliding_window_size c), ())).

(** [_admission_refusal_reason].  [total_seconds() < recovery_timeout] compares
    the exact elapsed time with the configured whole seconds. *)
Definition admission_refusal_reason (name : string) (row : CircuitBreakerStateData)
    (c : CircuitBreakerConfig) : method (option string) :=
  held <-
    (if state_is row OPEN then
       now <- utc_now;;
       if is_operator_block_in_force now row then ret true
       else
         now <- utc_now;;
         if is_pin_lift_due now row then ret false
         else
           match opened_at row with
           | None => ret true
           | Some t =>
               now <- utc_now;;
               ret (now - t <? seconds (recovery_timeout c))
           end
     else ret false);;
  if held then ret (Some "open")
  else
    free <- auto_transition_allowed;;
    ret (if free then None else Some "frozen").

Definition refuses_calls (row : CircuitBreakerStateData) : method bool :=
  catch
    (if state_is row CLOSED then ret false
     else
       c <- get_effective_config (service_name row);;
       reason <- admission_refusal_reason (service_name row) row c;;
       ret (bool_decide (is_Some reason)))
    (λ _, ret true).

(** The downstream pre-check: [true] when a checker asks for the fallback.  The
    loop walks the registered checkers by position, each answering at its own
    step; one that raises is skipped. *)
Fixpoint downstream_refuses (name : string) (positions : list nat) : method bool :=
  match positions with
  | [] => ret false
  | i :: rest =>
      answer <- ask (λ w,
        match downstream_checkers w !! i with None => None | Some c => Some (c name) end);;
      match answer with
      | Some (Some false) =>
          _ <- perform PreemptiveFallbackMetric;;
          ret true
      | _ => downstream_refuses name rest
      end
  end.

(** [dataclasses.replace(state, state=new_state)] *)
Definition with_state (row : CircuitBreakerStateData) (st : string) :
    CircuitBreakerStateData := {|
  service_name := service_name row; id := id row; state := st;
  failure_count := failure_count row; success_count := success_count row;
  last_failure_at := last_failure_at row; opened_at := opened_at row;
  manually_controlled := manually_controlled row;
  controlled_by_id := controlled_by_id row; control_reason := control_reason row;
  manual_override_expires_at := manual_override_expires_at row;
  half_open_request_count := half_open_request_count row;
  half_open_window_started_at := half_open_window_started_at row;
  metadata := metadata row; created_at := created_at row; updated_at := updated_at row |}.

(** The decision with the epoch the dataclass defaults to. *)
Definition decision (ok : bool) (row : CircuitBreakerStateData) : CircuitBreakerDecision :=
  {| allowed := ok; decision_state := row; window_epoch := 0 |}.

(** The refusal and trial part of [_evaluate_admission], for a row that is not
    CLOSED. *)
Definition admit_trial (name : string) (row : CircuitBreakerStateData)
    (c : CircuitBreakerConfig) : method CircuitBreakerDecision :=
  res <- storing (λ now r,
    r_try_acquire_half_open_slot now r name (half_open_max_calls c)
      (half_open_stuck_timeout_seconds c));;
  let '(ok, prev, new) := res in
  _ <- (if bool_decide (prev = value OPEN) && bool_decide (new = value HALF_OPEN) then
         _ <- perform (Audit name (value OPEN) (value HALF_OPEN)
               ("auto_recovery: recovery_timeout (" +:+ pretty (recovery_timeout c)
                +:+ "s) elapsed") None);;
         emit_event CIRCUIT_BREAKER_HALF_OPENED name "open" "auto" None None
       else ret ());;
  _ <- (if negb ok then
         record_blocked_metric name
           (if bool_decide (new = value HALF_OPEN) then "half_open_full" else "open")
       else ret ());;
  let row' := if bool_decide (state row = new) then row else with_state row new in
  _ <- observing name (state row') None;;
  _ <- (if negb ok && negb (state_is row' CLOSED) then record_rejection name row' else ret ());;
  ret (decision ok row').

Definition evaluate_admission (name : string) (c : CircuitBreakerConfig) :
    method CircuitBreakerDecision :=
  n <- ask (λ w, length (downstream_checkers w));;
  refused <- downstream_refuses name (seq 0 n);;
  if refused then
    row <- get_or_create_state name;;
    ret (decision false row)
  else
    epoch <- epoch_now name;;
    row <- get_or_create_state name;;
    _ <- observing name (state row) (Some epoch);;
    if state_is row CLOSED then
      ret {| allowed := true; decision_state := row; window_epoch := epoch |}
    else
      reason <- admission_refusal_reason name row c;;
      match reason with
      | Some why =>
          _ <- record_blocked_metric name why;;
          _ <- record_rejection name row;;
          ret (decision false row)
      | None => admit_trial name row c
      end.

Definition should_allow (name : string) : method bool :=
  on <- is_enabled;;
  if negb on then ret true
  else
    c <- get_effective_config name;;
    d <- evaluate_admission name c;;
    ret (allowed d).

Definition should_allow_with_state (name : string) : method CircuitBreakerDecision :=
  on <- is_enabled;;
  if negb on then
    row <- get_or_create_state name;;
    ret (decision true row)
  else
    c <- get_effective_config name;;
    evaluate_admission name c.

(** ** Recording a failure *)

Definition get_window_evidence (name : string) : method (Z * Z) :=
  ask (λ w, OutcomeWindow.read (window w) name).

Definition should_open_circuit (row : CircuitBreakerStateData) (c : CircuitBreakerConfig)
    (evidence : Z * Z) : bool :=
  bool_decide (is_Some (evaluate_trip (failure_count row) evidence.1 evidence.2 c)).

(** The part of the failure snapshot the audit row is composed from; the error
    context carries its values as formatted text. *)
Record failure_snapshot : Type := {
  snap_failure_count : Z;
  snap_success_count : Z;
  snap_window_failures : Z;
  snap_window_total : Z;
  snap_rate_percent : float;
  snap_failure_threshold : Z;
  snap_minimum_calls : Z;
  snap_failure_rate_threshold : float;
  snap_error_context : dict string string;
}.

Definition collect_failure_snapshot (row : CircuitBreakerStateData)
    (error_context : dict string string) (window_failures window_total : Z)
    (c : CircuitBreakerConfig) : failure_snapshot := {|
  snap_failure_count := failure_count row;
  snap_success_count := success_count row;
  snap_window_failures := window_failures;
  snap_window_total := window_total;
  snap_rate_percent :=
    (if 0 <? window_total
     then fl_mul (fl_div (fl_of_Z window_failures) (fl_of_Z window_total)) (fl_of_Z 100)
     else fl_of_Z 0);
  snap_failure_threshold := failure_threshold c;
  snap_minimum_calls := minimum_calls c;
  snap_failure_rate_threshold := failure_rate_threshold c;
  snap_error_context := error_context |}.

Definition RATE_LIMIT_CASCADE_TRIGGER : string := "rate_limit_cascade".

(** [value or "N/A"] on an integer: 0 is falsy. *)
Definition or_na (z : Z) : string := if z =? 0 then "N/A" else pretty z.

Definition compose_open_audit_reason (s : failure_snapshot) (trigger : string) : string :=
  if bool_decide (trigger = RATE_LIMIT_CASCADE_TRIGGER) then
    let get k := default "N/A" (dget (snap_error_context s) k) in
    trigger +:+ "|rate_limits=" +:+ get "rate_limit_count"
      +:+ "|total=" +:+ get "total_requests" +:+ "|rate=" +:+ get "rate_percent"
  else
    "auto_trigger|failures=" +:+ or_na (snap_failure_count s)
      +:+ "|threshold=" +:+ or_na (snap_failure_threshold s).

(** [_log_circuit_open_audit] and [_apply_burn_rate_multiplier] *)
Definition log_circuit_open_audit (name : string) (s : failure_snapshot) (trigger : string) :
    method () :=
  perform (Audit name "closed" "open" (compose_open_audit_reason s trigger) None).

Definition apply_burn_rate_multiplier (name : string) (c : CircuitBreakerConfig) : method () :=
  perform (BurnRate name (cb_open_base_consumption_minutes c) (cb_open_burn_rate_multiplier c)).

Definition trip_circuit_open (name : string) (row : CircuitBreakerStateData)
    (error_context : dict string string) (c : CircuitBreakerConfig)
    (window_failures window_total : Z) (trigger : string) :
    method CircuitBreakerOpenAttempt :=
  let snapshot :=
    collect_failure_snapshot row error_context window_failures window_total c in
  attempt <- storing (λ now r, r_trip_to_open now r name (failure_count row));;
  if bool_decide (state (open_state attempt) = CIRCUIT_BREAKER_PINNED_TOKEN) then
    _ <- clearing name;;
    ret attempt
  else
    _ <- observing name (state (open_state attempt)) None;;
    if negb (did_open attempt) then ret attempt
    else
      _ <- log_circuit_open_audit name snapshot trigger;;
      _ <- apply_burn_rate_multiplier name c;;
      _ <- perform (StateMetric name "closed" "open");;
      _ <- emit_event CIRCUIT_BREAKER_OPENED name "closed" trigger None
            (Some (window_failures, window_total, failure_count row));;
      ret attempt.

(** The HALF_OPEN branch of [record_failure]. *)
Definition record_trial_failure (name : string) : method () :=
  free <- auto_transition_allowed;;
  if negb free then ret ()
  else
    attempt <- storing (λ now r, r_record_failure_with_open_check now r name);;
    _ <- observing name (state (open_state attempt)) None;;
    if did_open attempt then
      _ <- perform (Audit name (value HALF_OPEN) (value OPEN)
            "half_open_test_failure: request failed during recovery testing" None);;
      _ <- perform (StateMetric name "half_open" "open");;
      emit_event CIRCUIT_BREAKER_OPENED name "half_open" "half_open_failure" None None
    else ret ().

(** The end of [record_failure]: the evidence is read once, the decision taken on
    it, and the trip made unless the freeze withholds it. *)
Definition trip_if_due (name : string) (error_context : dict string string)
    (updated : CircuitBreakerStateData) (c : CircuitBreakerConfig) : method () :=
  evidence <- get_window_evidence name;;
  if should_open_circuit updated c evidence && bool_decide (state updated = "closed") then
    free <- auto_transition_allowed;;
    if negb free then ret ()
    else
      _ <- trip_circuit_open name updated error_context c evidence.1 evidence.2 "auto";;
      ret ()
  else ret ().

(** The second half of [record_failure], from the row its write returned. *)
Definition decide_trip (name : string) (error_context : dict string string)
    (updated : CircuitBreakerStateData) : method () :=
  _ <- observing name (state updated) None;;
  c <- get_effective_config name;;
  _ <- (if bool_decide (state updated = "closed")
        then windowing (λ o, (OutcomeWindow.record_failure o name (sliding_window_size c), ()))
        else ret ());;
  trip_if_due name error_context updated c.

Definition record_failure (name : string) (error_context : dict string string) : method () :=
  on <- is_enabled;;
  if negb on then ret ()
  else
    read_epoch <- epoch_now name;;
    row <- get_or_create_state name;;
    _ <- observing name (state row) (Some read_epoch);;
    now <- utc_now;;
    if is_manual_pin_active now row then ret ()
    else if state_is row HALF_OPEN then record_trial_failure name
    else
      _ <- windowing (λ o, (begin_write o name, ()));;
      updated <- storing (λ now r, r_record_failure now r name);;
      _ <- windowing (λ o, (end_write o name, ()));;
      decide_trip name error_context updated.

(** ** Recording a success *)

(** The admission decision a caller may pass along: its row and its epoch. *)
Record success_hint : Type := {
  hint_state : CircuitBreakerStateData;
  hint_epoch : Z;
}.

(** The side effects of the close this caller performed. *)
Definition announce_close (name : string) (c : CircuitBreakerConfig) : method () :=
  _ <- perform (Audit name "half_open" "closed"
        ("auto_recovery: success_threshold (" +:+ pretty (success_threshold c)
         +:+ ") reached") None);;
  _ <- perform (StateMetric name "half_open" "closed");;
  emit_event CIRCUIT_BREAKER_CLOSED name "half_open" "auto" (Some true) None.

(** The read-free fast path: [true] when the success was appended by it. *)
Definition success_fast_path (name : string) (c : CircuitBreakerConfig)
    (hint : option success_hint) : method bool :=
  match hint with
  | None => ret false
  | Some h =>
      let row := hint_state h in
      if bool_decide (service_name row = name) && state_is row CLOSED then
        now <- utc_now;;
        if negb (is_manual_pin_active now row) && (failure_count row =? 0) then
          windowing (λ o, record_success_if_epoch o name (sliding_window_size c)
                            (hint_epoch h) true)
        else ret false
      else ret false
  end.

(** The reset of the consecutive-failure count: [update_state] with
    [keep_open=True]. *)
Definition reset_consecutive : update_args := {|
  u_state := "closed"; u_failure_count := Some 0; u_success_count := None;
  u_opened_at := None; u_last_failure_at := None; u_half_open_request_count := None;
  u_reset_half_open_count := false; u_clear_opened_at := false;
  u_skip_if_pinned := false; u_keep_open := true |}.

Definition record_success (name : string) (hint : option success_hint) : method () :=
  on <- is_enabled;;
  if negb on then ret ()
  else
    c <- get_effective_config name;;
    done_fast <- success_fast_path name c hint;;
    if done_fast then ret ()
    else
      read_epoch <- epoch_now name;;
      row <- get_or_create_state name;;
      _ <- observing name (state row) (Some read_epoch);;
      now <- utc_now;;
      if is_manual_pin_active now row then ret ()
      else if bool_decide (state row = "half_open") then
        free <- auto_transition_allowed;;
        if negb free then ret ()
        else
          attempt <- storing (λ now r,
            r_record_success_with_close_check now r name (success_threshold c));;
          _ <- observing name (state (close_state attempt)) None;;
          if did_close attempt then announce_close name c else ret ()
      else if bool_decide (state row = "closed") then
        _ <- windowing (λ o, record_success_if_epoch o name (sliding_window_size c)
                              read_epoch false);;
        if negb (failure_count row =? 0) then
          _ <- storing (λ now r, r_update_state now r name reset_consecutive);;
          ret ()
        else ret ()
      else ret ().

(** ** The recovery sweep *)

Record sweep_result : Type := {
  sweep_success : bool;
  sweep_message : string;
  sweep_error : option exn;
  transitioned : list string;
  sweep_count : Z;
}.

(** The rows past their recovery timeout, with one clock and one configuration
    reading per row. *)
Fixpoint select_due (rows : list CircuitBreakerStateData) :
    method (list CircuitBreakerStateData) :=
  match rows with
  | [] => ret []
  | row :: rest =>
      match opened_at row with
      | None => select_due rest
      | Some t =>
          now <- utc_now;;
          c <- get_effective_config (service_name row);;
          due <- select_due rest;;
          ret (if seconds (recovery_timeout c) <=? now - t then row :: due else due)
      end
  end.

(** [update_state(name, HALF_OPEN, success_count=0)] *)
Definition to_half_open : update_args := {|
  u_state := value HALF_OPEN; u_failure_count := None; u_success_count := Some 0;
  u_opened_at := None; u_last_failure_at := None; u_half_open_request_count := None;
  u_reset_half_open_count := false; u_clear_opened_at := false;
  u_skip_if_pinned := false; u_keep_open := false |}.

(** Only the selection can raise, before anything was written. *)
Definition check_recovery_transitions : method sweep_result :=
  on <- is_enabled;;
  if negb on then
    ret {| sweep_success := true; sweep_message := "Circuit breaker disabled";
           sweep_error := None; transitioned := []; sweep_count := 0 |}
  else
    catch
      (rows <- ask (λ w, r_get_all_states (repo w));;
       due <- select_due
         (filter (λ s, state_is s OPEN && negb (manually_controlled s) = true) rows);;
       free <- auto_transition_allowed;;
       if negb free then
         ret {| sweep_success := true; sweep_message := "frozen"; sweep_error := None;
                transitioned := []; sweep_count := 0 |}
       else
         _ <- for_each due (λ s,
           _ <- storing (λ now r, r_update_state now r (service_name s) to_half_open);;
           ret ());;
         ret {| sweep_success := true; sweep_message := ""; sweep_error := None;
                transitioned := service_name <$> due; sweep_count := Zlength due |})
      (λ e, ret {| sweep_success := false; sweep_message := ""; sweep_error := Some e;
                   transitioned := []; sweep_count := 0 |}).

(** ** Operator control *)

Definition is_system_enabled : method bool := ask system_enabled.

(** [_check_kill_switch]: [Some] refuses. *)
Definition check_kill_switch (name action reason : string) (override : bool) :
    method (option CircuitBreakerResult) :=
  on <- is_system_enabled;;
  if on then ret None
  else if negb override then
    ret (Some (failed name
      "Kill Switch is active: use override_kill_switch=True for manual control"))
  else
    _ <- perform (KillSwitchOverrideAudit name action reason);;
    ret None.

(** [_read_back_override_expiry] *)
Definition read_back_override_expiry (name : string) : method (option Z) :=
  row <- ask (λ w, r_get_by_service_name (repo w) name);;
  ret (match row with None => None | Some s => manual_override_expires_at s end).

(** The TTL of a force: the operator's minutes or the configured default. *)
Definition ttl_in_force (ttl_minutes : pyval) : method (option Z) :=
  match ttl_minutes with
  | VInt t => ret (Some t)
  | _ => c <- ask config;; ret (Some (manual_override_ttl_minutes c))
  end.

Definition reset_half_open (name : string) : method () :=
  storing (λ now r, (r_reset_half_open_count now r name, ())).

Definition reason_line (action reason : string) : string :=
  if bool_decide (reason = "") then action +:+ ": manual" else action +:+ ": " +:+ reason.

(** [force_open]; [who] is the ambient actor context. *)
Definition force_open (who : actor) (name reason : string) (override_kill_switch : bool)
    (ttl_minutes : pyval) : method CircuitBreakerResult :=
  match reject_out_of_range_ttl name ttl_minutes with
  | Some refusal => ret refusal
  | None =>
      blocked <- check_kill_switch name "force_open" reason override_kill_switch;;
      match blocked with
      | Some refusal => ret refusal
      | None =>
          ttl <- ttl_in_force ttl_minutes;;
          res <- storing (λ now r, r_atomic_force_open now r name reason None ttl);;
          let '(ok, prev, new) := res in
          if ok then
            exp <- read_back_override_expiry name;;
            _ <- clearing name;;
            _ <- reset_half_open name;;
            if bool_decide (prev = new) then
              ret (succeeded name prev new "Circuit breaker already open" exp)
            else
              _ <- perform (Audit name prev new (reason_line "force_open" reason) (Some who));;
              _ <- perform (StateMetric name prev new);;
              _ <- emit_event CIRCUIT_BREAKER_OPENED name prev "manual" None None;;
              ret (succeeded name prev new ("Circuit breaker opened for " +:+ name) exp)
          else ret (failed name "Failed to force open circuit breaker")
      end
  end.

(** [_handle_force_close_success] *)
Definition handle_force_close_success (who : actor) (name prev new reason : string)
    (trigger_replay : bool) (exp : option Z) : method CircuitBreakerResult :=
  if bool_decide (prev = new) then
    _ <- (if trigger_replay then perform (OperatorReplay name) else ret ());;
    ret (succeeded name prev new "Circuit breaker already closed" exp)
  else
    _ <- perform (Audit name prev new (reason_line "force_close" reason) (Some who));;
    _ <- perform (StateMetric name prev new);;
    _ <- emit_event CIRCUIT_BREAKER_CLOSED name prev "manual" (Some trigger_replay) None;;
    ret (succeeded name prev new ("Circuit breaker closed for " +:+ name) exp).

Definition force_close (who : actor) (name reason : string)
    (trigger_replay override_kill_switch : bool) (ttl_minutes : pyval) :
    method CircuitBreakerResult :=
  match reject_out_of_range_ttl name ttl_minutes with
  | Some refusal => ret refusal
  | None =>
      blocked <- check_kill_switch name "force_close" reason override_kill_switch;;
      match blocked with
      | Some refusal => ret refusal
      | None =>
          ttl <- ttl_in_force ttl_minutes;;
          res <- storing (λ now r, r_atomic_force_close now r name reason None ttl);;
          let '(ok, prev, new) := res in
          if ok then
            exp <- read_back_override_expiry name;;
            _ <- clearing name;;
            _ <- reset_half_open name;;
            handle_force_close_success who name prev new reason trigger_replay exp
          else ret (failed name "Failed to force close circuit breaker")
      end
  end.

Definition reset (who : actor) (name : string) (controlled_by : option Z) (reason : string) :
    method CircuitBreakerResult :=
  res <- storing (λ now r, r_atomic_reset now r name reason controlled_by);;
  let '(ok, prev, new) := res in
  if ok then
    _ <- clearing name;;
    _ <- (if bool_decide (prev = new) then ret ()
          else
            _ <- perform (Audit name prev new (reason_line "reset" reason) (Some who));;
            _ <- perform (StateMetric name prev new);;
            emit_event CIRCUIT_BREAKER_CLOSED name prev "manual_reset" (Some true) None);;
    ret (succeeded name prev new ("Circuit breaker reset for " +:+ name) None)
  else ret (failed name ("Circuit breaker for '" +:+ name +:+ "' does not exist")).

(** [manual_control]; [controlled_by] is the formatted argument, [None] or empty
    when it is falsy. *)
Definition manual_control (who : actor) (name action reason : string)
    (controlled_by : option string) : method CircuitBreakerResult :=
  row <- get_or_create_state name;;
  let reason' :=
    match controlled_by with
    | None => reason
    | Some c =>
        if bool_decide (c = "") then reason
        else if bool_decide (reason = "") then "controlled_by=" +:+ c
        else reason +:+ " (controlled_by=" +:+ c +:+ ")"
    end in
  if bool_decide (action = "open") then force_open who name reason' false VNone
  else if bool_decide (action = "close") then force_close who name reason' false false VNone
  else
    _ <- storing (λ now r, r_clear_manual_control now r name true);;
    ret (succeeded name (state row) (state row)
           ("Circuit breaker for '" +:+ name +:+ "' switched to auto mode") None).

(** One row of the expiry pass: revalidated on a fresh read, then cleared. *)
Definition expire_override (current_time : Z) (snapshot : CircuitBreakerStateData) :
    method (option string) :=
  if negb (manually_controlled snapshot
           && match manual_override_expires_at snapshot with
              | None => false
              | Some e => e <=? current_time
              end) then ret None
  else
    fresh <- ask (λ w, r_get_by_service_name (repo w) (service_name snapshot));;
    match fresh with
    | None => ret None
    | Some row =>
        if negb (manually_controlled row) then ret None
        else
          now <- utc_now;;
          if is_manual_pin_active now row then ret None
          else
            now <- utc_now;;
            if is_pin_lift_due now row then ret None
            else
              _ <- storing (λ now r, r_clear_manual_control now r (service_name row) true);;
              ret (Some (service_name row))
    end.

Fixpoint expire_overrides (current_time : Z) (rows : list CircuitBreakerStateData) :
    method (list string) :=
  match rows with
  | [] => ret []
  | s :: rest =>
      one <- expire_override current_time s;;
      more <- expire_overrides current_time rest;;
      ret (match one with None => more | Some n => n :: more end)
  end.

Definition check_and_expire_manual_overrides : method (list string) :=
  rows <- ask (λ w, r_get_all_states (repo w));;
  now <- utc_now;;
  expire_overrides now rows.

Definition extend_manual_override (name : string) (additional_minutes : pyval)
    (controlled_by : option Z) (reason : string) : method CircuitBreakerResult :=
  match reject_out_of_range_ttl name additional_minutes with
  | Some refusal => ret refusal
  | None =>
      found <- ask (λ w, r_get_by_service_name (repo w) name);;
      match found with
      | None => ret (failed name ("Circuit breaker for '" +:+ name +:+ "' does not exist"))
      | Some row =>
          if negb (manually_controlled row) then
            ret (failed name "Circuit is not under manual control")
          else
            match additional_minutes with
            | VInt m =>
                now <- utc_now;;
                let base := default now (manual_override_expires_at row) in
                let exp := Z.max base now + minutes m in
                let reason' :=
                  if bool_decide (reason = "") then control_reason row
                  else control_reason row +:+ " | Extended: " +:+ reason in
                _ <- storing (λ now r,
                  r_set_manual_control now r name (state row) controlled_by reason' (Some exp));;
                _ <- windowing (λ o, (bump o name, ()));;
                ret (succeeded name (state row) (state row)
                  ("Manual override extended by " +:+ pretty m +:+ " minutes") None)
            | _ => (* [additional_minutes=None]: [timedelta(minutes=None)] raises *)
                ret (failed name
                  "unsupported type for timedelta minutes component: NoneType")
            end
      end
  end.

(** ** Cell reconciliation *)

(** [name.split("::", 1)] when the separator occurs, else [(name, "")]. *)
Fixpoint split_sep (s : string) : option (string * string) :=
  match s with
  | EmptyString => None
  | String a rest =>
      match a, rest with
      | ":"%char, String ":"%char tail => Some (EmptyString, tail)
      | _, _ =>
          match split_sep rest with
          | None => None
          | Some (b, c) => Some (String a b, c)
          end
      end
  end.

Definition parse_composite_cb_name (s : string) : string * string :=
  default (s, "") (split_sep s).

Definition make_cell_scoped_cb_name (s cell : string) : string := s +:+ "::" +:+ cell.

(** [reconcile_cb_cell_mapping]: the names whose orphan rows were deleted;
    [cell_for] is the hash ring's answer. *)
Fixpoint reconcile_rows (cell_for : string → string) (rows : list CircuitBreakerStateData) :
    method (list string) :=
  match rows with
  | [] => ret []
  | s :: rest =>
      let '(base, old_cell) := parse_composite_cb_name (service_name s) in
      if bool_decide (old_cell = "") || bool_decide (old_cell = cell_for base) then
        reconcile_rows cell_for rest
      else
        _ <- storing (λ _ r, r_delete_state r (service_name s));;
        more <- reconcile_rows cell_for rest;;
        ret (service_name s :: more)
  end.

Definition reconcile_cb_cell_mapping (cell_for : string → string) : method (list string) :=
  rows <- ask (λ w, r_get_all_states (repo w));;
  reconcile_rows cell_for rows.

(** ** Aggregate evidence *)

Definition UNREACHED_DEFAULT_STORE_REASON : string := "unreached_default_store".

(** [row.state in _NON_CLOSED_STATES] *)
Definition row_non_closed (row : CircuitBreakerStateData) : bool :=
  state_is row OPEN || state_is row HALF_OPEN.

(** [_tripped_row], at the clock reading [now]. *)
Definition tripped_row (now : Z) (local_row cluster_row : option CircuitBreakerStateData) :
    option CircuitBreakerStateData :=
  let rows := option_list local_row ++ option_list cluster_row in
  if existsb (is_manual_pin_active now) rows then None
  else list_find (λ r, row_non_closed r = true) rows ≫= λ p, Some p.2.

Definition held_on_own_row (now : Z) (local_row : option CircuitBreakerStateData) : bool :=
  match local_row with
  | None => false
  | Some r => row_non_closed r && negb (is_manual_pin_active now r)
  end.

Fixpoint observe_rows (epochs_before : dict string Z) (rows : list CircuitBreakerStateData) :
    method () :=
  match rows with
  | [] => ret ()
  | r :: rest =>
      _ <- observing (service_name r) (state r)
             (Some (default 0 (dget epochs_before (service_name r))));;
      observe_rows epochs_before rest
  end.

(** [{row.service_name: row for row in rows}] *)
Definition by_name (rows : list CircuitBreakerStateData) : dict string CircuitBreakerStateData :=
  foldl (λ d r, dset d (service_name r) r) [] rows.

Fixpoint insert_name (x : string) (l : list string) : list string :=
  match l with
  | [] => [x]
  | y :: l' => if String.leb x y then x :: l else y :: insert_name x l'
  end.

Definition no_evidence (fleet_read : bool) : AggregateFailureEvidence := {|
  failures := 0; total_calls := 0; open_circuits := 0; fleet_read := fleet_read;
  tripped_failures := 0; tripped_calls := 0; tripped_names := [] |}.

(** One name's contribution to the running totals; [threshold] is the name's
    effective [failure_threshold], read only for a tripped row. *)
Definition add_name (now : Z) (name : string) (evidence : Z * Z)
    (local_row tripped : option CircuitBreakerStateData) (threshold : Z)
    (acc : AggregateFailureEvidence) : AggregateFailureEvidence :=
  let '(wf, wt) := evidence in
  let '(f, t, o) :=
    match tripped with
    | None => (wf, wt, 0)
    | Some row =>
        let lifted := Z.max wf (Z.max (failure_count row) threshold) in
        (lifted, wt + (lifted - wf), 1)
    end in
  let counted := bool_decide (is_Some tripped) || held_on_own_row now local_row in
  {| failures := failures acc + f; total_calls := total_calls acc + t;
     open_circuits := open_circuits acc + o; fleet_read := fleet_read acc;
     tripped_failures := tripped_failures acc + (if counted then f else 0);
     tripped_calls := tripped_calls acc + (if counted then t else 0);
     tripped_names := if counted then insert_name name (tripped_names acc)
                      else tripped_names acc |}.

Fixpoint add_names (per_name : dict string (Z * Z))
    (local_rows cluster_rows : dict string CircuitBreakerStateData) (names : list string)
    (acc : AggregateFailureEvidence) : method AggregateFailureEvidence :=
  match names with
  | [] => ret acc
  | name :: rest =>
      now <- utc_now;;
      let local_row := dget local_rows name in
      let tripped := tripped_row now local_row (dget cluster_rows name) in
      threshold <-
        (match tripped with
         | None => ret 0
         | Some _ => c <- get_effective_config name;; ret (failure_threshold c)
         end);;
      now <- utc_now;;
      add_names per_name local_rows cluster_rows rest
        (add_name now name (default (0, 0) (dget per_name name)) local_row tripped threshold acc)
  end.

(** [get_aggregate_failure_evidence]; a Python set is walked in no particular
    order, here in the order the three dicts first list their keys. *)
Definition get_aggregate_failure_evidence (fleet : bool) : method AggregateFailureEvidence :=
  epochs_before <- ask (λ w, epochs_snapshot (window w));;
  rows <- ask (λ w, r_get_all_states (repo w));;
  let local_rows := by_name rows in
  _ <- observe_rows epochs_before (dvals local_rows);;
  cluster <-
    (if fleet then ask (λ w, r_get_cluster_states (repo w))
     else ret (Unavailable UNREACHED_DEFAULT_STORE_REASON));;
  match cluster with
  | Unavailable reason =>
      if bool_decide (reason = UNREACHED_DEFAULT_STORE_REASON) then
        per_name <- ask (λ w, read_each (window w));;
        add_names per_name local_rows []
          (remove_dups (dkeys per_name ++ dkeys local_rows)) (no_evidence false)
      else raise (StateUnavailableError reason)
  | ClusterRows rows' =>
      let cluster_rows := by_name rows' in
      per_name <- ask (λ w, read_each (window w));;
      add_names per_name local_rows cluster_rows
        (remove_dups (dkeys per_name ++ dkeys local_rows ++ dkeys cluster_rows))
        (no_evidence true)
  end.

Definition get_total_calls (name : string) : method Z :=
  row <- get_or_create_state name;;
  ret (failure_count row + success_count row).
End service.

(** ** The environment

    Between two actions the outside may change: time does not go back, the
    configuration is replaced, the emergency level, the kill switch, the event
    bus and the checkers answer what they answer.  The repository, the window, the overrides
    and the trace are the process's own. *)
Inductive outside {R} : world R → world R → Prop :=
| outside_changes w chk t cfg em sys b :
    clock w <= t →
    outside w {| repo := repo w; window := window w; overrides := overrides w;
      downstream_checkers := chk; clock := t; config := cfg; emergency := em;
      system_enabled := sys; bus := b; trace := trace w |}.
