(* ===== verification/CBTokens.v ===== *)
(** * What the repository's calls do to the state tokens

    The laws of [CBInterface] give the whole row a call leaves; the interleaving
    proofs need two things of it: the call keeps the rows well formed, and it
    either leaves every state token alone ([stays]) or moves one name's token
    from one state to another ([goes]). *)

From S2P Require Import Prelude CBData CBInterface CBService.

Create HintDb tokens.

Section tokens.
  Context {R : Type} `{RepositoryLaws R}.

Definition token_ok (s : string) : Prop := ∃ st, s = value st.

(** The state token of a name; an absent row is CLOSED. *)
Definition token (r : R) (n : string) : string := v_state (vw r n).

Definition rows_ok (r : R) : Prop := r_ok r ∧ ∀ n, token_ok (token r n).

Definition stays (r r' : R) : Prop := rows_ok r' ∧ ∀ n, token r' n = token r n.

Definition goes (r r' : R) (n q t : string) : Prop :=
  rows_ok r' ∧ token r n = q ∧ token r' n = t ∧ ∀ n', n' ≠ n → token r' n' = token r n'.

Lemma token_value st : token_ok (value st).
Proof. by exists st. Qed.

Lemma changes_goes r r' n v :
  rows_ok r → r_ok r' → changes r r' n v → token_ok (v_state v) →
  goes r r' n (token r n) (v_state v).
Proof.
  intros [_ Ht] Hok Hc Hv. unfold goes, token.
  assert (∀ n', n' ≠ n → v_state (vw r' n') = v_state (vw r n')) as Hne.
  { intros n' Hn. by rewrite (changes_ne _ _ _ _ _ Hc Hn). }
  split_and!; [|done|by rewrite (changes_eq _ _ _ _ Hc)|done].
  split; [done|]. intros n'. unfold token. destruct (decide (n' = n)) as [->|Hn].
  - by rewrite (changes_eq _ _ _ _ Hc).
  - rewrite Hne by done. apply Ht.
Qed.

Lemma changes_stays r r' n v :
  rows_ok r → r_ok r' → changes r r' n v → v_state v = token r n → stays r r'.
Proof.
  intros Hr Hok Hc Hv. destruct (changes_goes r r' n v) as (Hr' & _ & Ht & Hne); try done.
  { rewrite Hv. apply Hr. }
  split; [done|]. intros n'. destruct (decide (n' = n)) as [->|Hn]; [congruence|by apply Hne].
Qed.

Lemma stays_refl r : rows_ok r → stays r r.
Proof. done. Qed.

Lemma get_or_create_stays now r n : rows_ok r → stays r (r_get_or_create now r n).1.
Proof.
  intros Hr. pose proof (law_get_or_create now r n (proj1 Hr)) as Hl.
  destruct (r_get_or_create now r n) as [r' row]. destruct Hl as (? & Hc & _).
  by eapply changes_stays.
Qed.

Lemma record_failure_stays now r n : rows_ok r → stays r (r_record_failure now r n).1.
Proof.
  intros Hr. pose proof (law_record_failure now r n (proj1 Hr)) as Hl.
  destruct (r_record_failure now r n) as [r' row]. destruct Hl as (? & Hc & _).
  by eapply changes_stays.
Qed.

(** A trip reports a pinned row only without having opened it. *)
Lemma trip_goes now r n fc :
  rows_ok r →
  let '(r', att) := r_trip_to_open now r n fc in
  (if did_open att then goes r r' n "closed" "open" else stays r r') ∧
  (state (open_state att) = CIRCUIT_BREAKER_PINNED_TOKEN → did_open att = false).
Proof.
  intros Hr. pose proof (law_trip now r n fc (proj1 Hr)) as Hl.
  destruct (r_trip_to_open now r n fc) as [r' att]. unfold spec_trip, v_is in Hl.
  destruct (v_pinned now (vw r n)); [|case_bool_decide as Hst];
    destruct Hl as (? & Hc & -> & ->); (split; [|done]).
  - by eapply changes_stays.
  - pose proof (changes_goes _ _ _ _ Hr ltac:(done) Hc (token_value OPEN)) as Hg.
    unfold token at 1 in Hg. by rewrite Hst in Hg.
  - by eapply changes_stays.
Qed.

Lemma open_check_goes now r n :
  rows_ok r →
  let '(r', att) := r_record_failure_with_open_check now r n in
  if did_open att then goes r r' n "half_open" "open" else stays r r'.
Proof.
  intros Hr. pose proof (law_open_check now r n (proj1 Hr)) as Hl.
  destruct (r_record_failure_with_open_check now r n) as [r' att].
  unfold spec_open_check, v_is in Hl. case_bool_decide as Hst; destruct Hl as (? & Hc & -> & _).
  - pose proof (changes_goes _ _ _ _ Hr ltac:(done) Hc (token_value OPEN)) as Hg.
    unfold token at 1 in Hg. by rewrite Hst in Hg.
  - by eapply changes_stays.
Qed.

Lemma close_check_goes now r n thr :
  rows_ok r →
  let '(r', att) := r_record_success_with_close_check now r n thr in
  if did_close att then goes r r' n "half_open" "closed" else stays r r'.
Proof.
  intros Hr. pose proof (law_close_check now r n thr (proj1 Hr)) as Hl.
  destruct (r_record_success_with_close_check now r n thr) as [r' att].
  unfold spec_close_check, v_is in Hl.
  destruct (bool_decide (v_state (vw r n) = value HALF_OPEN) && _) eqn:Hst;
    destruct Hl as (? & Hc & -> & _).
  - apply andb_true_iff in Hst as [Hst%bool_decide_eq_true _].
    pose proof (changes_goes _ _ _ _ Hr ltac:(done) Hc (token_value CLOSED)) as Hg.
    unfold token at 1 in Hg. by rewrite Hst in Hg.
  - by eapply changes_stays.
Qed.

Lemma acquire_goes now r n limit stuck :
  rows_ok r →
  let '(r', (ok, prev, new)) := r_try_acquire_half_open_slot now r n limit stuck in
  if bool_decide (prev = value OPEN) && bool_decide (new = value HALF_OPEN)
  then goes r r' n "open" "half_open" else stays r r'.
Proof.
  intros Hr. pose proof (law_acquire now r n limit stuck (proj1 Hr)) as Hl.
  destruct (r_try_acquire_half_open_slot now r n limit stuck) as [r' [[ok prev] new]].
  unfold branch_acquire, v_is in Hl.
  destruct (bool_decide_reflect (v_state (vw r n) = value HALF_OPEN)) as [Hho|Hho],
    (bool_decide_reflect (v_state (vw r n) = value OPEN)) as [Ho|Ho];
    [by rewrite Hho in Ho| | |]; destruct (limit <=? v_half_count (vw r n)),
    (window_stuck now (v_half_started (vw r n)) stuck); simpl in Hl;
    destruct Hl as (? & Hc & [= -> -> ->]); simpl; rewrite ?Hho, ?Ho;
    try (eapply changes_stays; [done..|by rewrite <-Hho]);
    try (pose proof (changes_goes _ _ _ _ Hr ltac:(done) Hc (token_value HALF_OPEN)) as Hg;
         unfold token at 1 in Hg; rewrite Ho in Hg; done);
    repeat case_bool_decide; try done; by eapply changes_stays.
Qed.

Lemma force_open_goes now r n reason by_id ttl :
  rows_ok r →
  let '(r', (ok, prev, new)) := r_atomic_force_open now r n reason by_id ttl in
  goes r r' n prev new ∧ ok = true ∧ new = "open".
Proof.
  intros Hr. pose proof (law_force_open now r n reason by_id ttl (proj1 Hr)) as Hl.
  destruct (r_atomic_force_open now r n reason by_id ttl) as [r' [[ok prev] new]].
  destruct Hl as (? & -> & -> & -> & Hc). split; [|done].
  apply (changes_goes _ _ _ _ Hr ltac:(done) Hc (token_value OPEN)).
Qed.

Lemma force_close_goes now r n reason by_id ttl :
  rows_ok r →
  let '(r', (ok, prev, new)) := r_atomic_force_close now r n reason by_id ttl in
  goes r r' n prev new ∧ ok = true ∧ new = "closed".
Proof.
  intros Hr. pose proof (law_force_close now r n reason by_id ttl (proj1 Hr)) as Hl.
  destruct (r_atomic_force_close now r n reason by_id ttl) as [r' [[ok prev] new]].
  destruct Hl as (? & -> & -> & -> & Hc). split; [|done].
  apply (changes_goes _ _ _ _ Hr ltac:(done) Hc (token_value CLOSED)).
Qed.

Lemma reset_goes now r n reason by_id :
  rows_ok r →
  let '(r', (ok, prev, new)) := r_atomic_reset now r n reason by_id in
  if (ok : bool) then goes r r' n prev new ∧ new = "closed" else stays r r'.
Proof.
  intros Hr. pose proof (law_atomic_reset now r n reason by_id (proj1 Hr)) as Hl.
  destruct (r_atomic_reset now r n reason by_id) as [r' [[[] prev] new]].
  - destruct Hl as (? & _ & -> & -> & Hc). split; [|done].
    apply (changes_goes _ _ _ _ Hr ltac:(done) Hc (token_value CLOSED)).
  - by destruct Hl as (-> & _).
Qed.

Lemma reset_half_open_stays now r n : rows_ok r → stays r (r_reset_half_open_count now r n).
Proof.
  intros Hr. destruct (law_reset_half_open now r n (proj1 Hr)) as [Hin Hout].
  destruct (decide (present r n)) as [Hp|Hp].
  - destruct (Hin Hp) as [? Hc]. by eapply changes_stays.
  - by rewrite (Hout Hp).
Qed.

Lemma clear_manual_stays now r n preserve :
  rows_ok r → stays r (r_clear_manual_control now r n preserve).1.
Proof.
  intros Hr. pose proof (law_clear_manual now r n preserve (proj1 Hr)) as Hl.
  destruct (r_clear_manual_control now r n preserve) as [r' []]; simpl.
  - destruct Hl as (? & _ & Hc). by eapply changes_stays.
  - by destruct Hl as [-> _].
Qed.

(** The success path's counter reset never moves a state: on a row that is not
    CLOSED it declines. *)
Lemma reset_consecutive_stays now r n :
  rows_ok r → stays r (r_update_state now r n reset_consecutive).1.
Proof.
  intros Hr. pose proof (law_update_state now r n reset_consecutive (proj1 Hr)) as Hl.
  destruct (r_update_state now r n reset_consecutive) as [r' []]; simpl;
    [|by destruct Hl as [-> _]].
  destruct Hl as (? & _ & Hc). unfold spec_update, v_is in Hc. simpl in Hc.
  eapply changes_stays; [done..|].
  destruct (proj2 Hr n) as [st Hst]. unfold token in *.
  destruct (bool_decide _ || bool_decide _) eqn:E; [done|]. simpl.
  apply orb_false_iff in E as [E1%bool_decide_eq_false E2%bool_decide_eq_false].
  rewrite Hst in *. by destruct st.
Qed.

(** The recovery sweep's write, which reads nothing. *)
Lemma to_half_open_goes now r n :
  rows_ok r →
  let '(r', ok) := r_update_state now r n to_half_open in
  if (ok : bool) then goes r r' n (token r n) "half_open" else stays r r'.
Proof.
  intros Hr. pose proof (law_update_state now r n to_half_open (proj1 Hr)) as Hl.
  destruct (r_update_state now r n to_half_open) as [r' []]; [|by destruct Hl as [-> _]].
  destruct Hl as (? & _ & Hc). apply (changes_goes _ _ _ _ Hr ltac:(done) Hc (token_value HALF_OPEN)).
Qed.
End tokens.

#[export] Hint Resolve get_or_create_stays record_failure_stays reset_half_open_stays
  clear_manual_stays reset_consecutive_stays stays_refl : tokens.
