(* ===== verification/CBRules.v ===== *)
(** * Proof rules for the service's actions

    The interleaving proofs about the service share their bookkeeping: an
    invariant [I] of the world, a balance [delta] charged to every change of it,
    and a [cost] settled by every effect.  [accounting] says that the actions
    which touch neither rows nor the outside respect them; the rules and the
    tactic [wp_run] then walk a method action by action, leaving the repository
    calls to the proof at hand. *)

From S2P Require Import Prelude Interleave CBData OutcomeWindow CBInterface CBService.

Record accounting {R} `{CircuitBreakerStateRepository R} (I : world R → Prop)
    (delta : world R → world R → Z) (cost : effect → Z) : Prop := {
  acc_ask w : I w → delta w w = 0;
  acc_window w o : I w → I (set_window w o) ∧ delta w (set_window w o) = 0;
  acc_overrides w o : I w → I (set_overrides w o) ∧ delta w (set_overrides w o) = 0;
  acc_effect w e : I w → I (add_effect w e) ∧ delta w (add_effect w e) = - cost e;
  acc_free e :
    match e with Emit _ | EmitSkipped _ | EmitFailed _ => True | _ => cost e = 0 end;
  acc_sent w ev : I w → cost (sent (bus w) ev) = cost (Emit ev);
  acc_create w n :
    I w →
    I (set_repo w (r_get_or_create (clock w) (repo w) n).1) ∧
    delta w (set_repo w (r_get_or_create (clock w) (repo w) n).1) = 0;
}.

Section rules.
  Context {R : Type} `{CircuitBreakerStateRepository R}.
  Context (I : world R → Prop) (delta : world R → world R → Z) (cost : effect → Z).
  Context (HA : accounting I delta cost).

Lemma wp_ask_val {A} (f : world R → A) n (Φ : Z → exn + A → Prop) :
  (∀ w, I w → Φ n (inr (f w))) → wp I delta (ask f) n Φ.
Proof.
  intros HΦ. apply wp_atomically. intros w Hw. simpl. split; [done|].
  rewrite (acc_ask _ _ _ HA w Hw), Z.add_0_r. by apply HΦ.
Qed.

Lemma wp_ask {A} (f : world R → A) n (Φ : Z → exn + A → Prop) :
  (∀ a, Φ n (inr a)) → wp I delta (ask f) n Φ.
Proof. intros HΦ. by apply wp_ask_val. Qed.

Lemma wp_windowing {A} (f : OutcomeWindow → OutcomeWindow * A) n (Φ : Z → exn + A → Prop) :
  (∀ a, Φ n (inr a)) → wp I delta (windowing f) n Φ.
Proof.
  intros HΦ. apply wp_atomically. intros w Hw. destruct (f (window w)) as [o a]. simpl.
  destruct (acc_window _ _ _ HA w o Hw) as [? ->]. by rewrite Z.add_0_r.
Qed.

Lemma wp_overriding {A} f n (Φ : Z → exn + A → Prop) :
  (∀ a, Φ n (inr a)) → wp I delta (overriding f) n Φ.
Proof.
  intros HΦ. apply wp_atomically. intros w Hw. destruct (f (overrides w)) as [o a]. simpl.
  destruct (acc_overrides _ _ _ HA w o Hw) as [? ->]. by rewrite Z.add_0_r.
Qed.

Lemma wp_perform e n (Φ : Z → exn + unit → Prop) :
  Φ (n - cost e) (inr ()) → wp I delta (perform e) n Φ.
Proof.
  intros HΦ. apply wp_atomically. intros w Hw. simpl.
  by destruct (acc_effect _ _ _ HA w e Hw) as [? ->].
Qed.

(** A performed effect that is not an event is free. *)
Lemma wp_perform_free e n (Φ : Z → exn + unit → Prop) :
  (match e with Emit _ | EmitSkipped _ | EmitFailed _ => False | _ => True end) →
  Φ n (inr ()) → wp I delta (perform e) n Φ.
Proof.
  intros He HΦ. apply wp_perform. replace (cost e) with 0; [by rewrite Z.sub_0_r|].
  pose proof (acc_free _ _ _ HA e). by destruct e.
Qed.

(** An event settles its cost whatever became of it. *)
Lemma wp_sending ev n (Φ : Z → exn + unit → Prop) :
  Φ (n - cost (Emit ev)) (inr ()) → wp I delta (sending ev) n Φ.
Proof.
  intros HΦ. apply wp_atomically. intros w Hw. simpl.
  destruct (acc_effect _ _ _ HA w (sent (bus w) ev) Hw) as [? ->].
  by rewrite (acc_sent _ _ _ HA w ev Hw).
Qed.

Lemma wp_storing {A} (f : Z → R → R * A) n (Φ : Z → exn + A → Prop) :
  (∀ w, I w → let '(r, a) := f (clock w) (repo w) in
     I (set_repo w r) ∧ Φ (n + delta w (set_repo w r)) (inr a)) →
  wp I delta (storing f) n Φ.
Proof.
  intros Hf. apply wp_atomically. intros w Hw. specialize (Hf w Hw).
  by destruct (f (clock w) (repo w)) as [r a].
Qed.

(** A repository call that costs nothing, whatever it answers. *)
Lemma wp_storing_still {A} (f : Z → R → R * A) n (Φ : Z → exn + A → Prop) :
  (∀ w, I w → I (set_repo w (f (clock w) (repo w)).1) ∧
              delta w (set_repo w (f (clock w) (repo w)).1) = 0) →
  (∀ a, Φ n (inr a)) → wp I delta (storing f) n Φ.
Proof.
  intros Hf HΦ. apply wp_storing. intros w Hw. destruct (Hf w Hw) as [HI Hd].
  destruct (f (clock w) (repo w)) as [r a]. simpl in *. rewrite Hd, Z.add_0_r. by split.
Qed.

Lemma wp_create name n (Φ : Z → exn + CircuitBreakerStateData → Prop) :
  (∀ row, Φ n (inr row)) → wp I delta (get_or_create_state name) n Φ.
Proof. apply wp_storing_still. intros w Hw. by apply (acc_create _ _ _ HA). Qed.

Lemma wp_ret_e {A} (a : A) n (Φ : Z → exn + A → Prop) : Φ n (inr a) → wp I delta (ret a) n Φ.
Proof. done. Qed.

Lemma wp_raise {A} e n (Φ : Z → exn + A → Prop) : Φ n (inl e) → wp I delta (raise e) n Φ.
Proof. done. Qed.
End rules.

(** One step of a method: its next action, or a case of what it was answered. *)
Ltac wp_step :=
  lazymatch goal with
  | |- wp _ _ (ebind _ _) _ _ => apply wp_ebind
  | |- wp _ _ (ask _) _ _ => eapply wp_ask; [eassumption|intros ?]
  | |- wp _ _ utc_now _ _ => eapply wp_ask; [eassumption|intros ?]
  | |- wp _ _ (epoch_now _) _ _ => eapply wp_ask; [eassumption|intros ?]
  | |- wp _ _ is_enabled _ _ => eapply wp_ask; [eassumption|intros ?]
  | |- wp _ _ auto_transition_allowed _ _ => eapply wp_ask; [eassumption|intros ?]
  | |- wp _ _ (get_window_evidence _) _ _ => eapply wp_ask; [eassumption|intros ?]
  | |- wp _ _ is_system_enabled _ _ => eapply wp_ask; [eassumption|intros ?]
  | |- wp _ _ (windowing _) _ _ => eapply wp_windowing; [eassumption|intros ?]
  | |- wp _ _ (observing _ _ _) _ _ => eapply wp_windowing; [eassumption|intros ?]
  | |- wp _ _ (clearing _) _ _ => eapply wp_windowing; [eassumption|intros ?]
  | |- wp _ _ (overriding _) _ _ => eapply wp_overriding; [eassumption|intros ?]
  | |- wp _ _ (record_blocked_metric _ _) _ _ =>
      eapply wp_perform_free; [eassumption|exact Logic.I|]
  | |- wp _ _ (sending _) _ _ => eapply wp_sending; [eassumption|]
  | |- wp _ _ (perform _) _ _ => eapply wp_perform_free; [eassumption|exact Logic.I|]
  | |- wp _ _ (get_or_create_state _) _ _ => eapply wp_create; [eassumption|intros ?]
  | |- wp _ _ (ret _) _ _ => apply wp_ret_e
  | |- wp _ _ (raise _) _ _ => apply wp_raise
  | |- wp _ _ (if ?b then _ else _) _ _ => destruct b eqn:?
  | |- wp _ _ (match ?b with _ => _ end) _ _ => destruct b eqn:?
  | |- _ => progress cbv beta iota
  end.

Ltac wp_run := repeat wp_step.

Section quiet_methods.
  Context {R : Type} `{CircuitBreakerStateRepository R}.
  Context (I : world R → Prop) (delta : world R → world R → Z) (cost : effect → Z).
  Context (HA : accounting I delta cost).

(** Methods that cost nothing; they may raise. *)
Definition quiet {A} (p : eprog (world R) A) : Prop :=
  ∀ n (Φ : Z → exn + A → Prop), (∀ r, Φ n r) → wp I delta p n Φ.

Lemma quiet_config name : quiet (get_effective_config name).
Proof.
  intros n Φ HΦ. unfold get_effective_config, lookup_override, pop_override.
  wp_run; apply HΦ.
Qed.

Lemma quiet_rejection name row : quiet (record_rejection name row).
Proof.
  intros n Φ HΦ. unfold record_rejection. wp_run; try apply HΦ.
  apply quiet_config. intros [e|c]; wp_run; apply HΦ.
Qed.

Lemma quiet_refusal name row c : quiet (admission_refusal_reason name row c).
Proof. intros n Φ HΦ. unfold admission_refusal_reason. wp_run; apply HΦ. Qed.

Lemma quiet_downstream name l : quiet (downstream_refuses name l).
Proof.
  induction l as [|i l IH]; intros n Φ HΦ; cbn [downstream_refuses]; wp_run;
    try apply HΦ; apply IH, HΦ.
Qed.

Lemma quiet_fast_path name c hint : quiet (success_fast_path name c hint).
Proof. intros n Φ HΦ. unfold success_fast_path. cbv zeta. wp_run; apply HΦ. Qed.

Lemma quiet_kill_switch name action reason ov : quiet (check_kill_switch name action reason ov).
Proof. intros n Φ HΦ. unfold check_kill_switch. wp_run; apply HΦ. Qed.

Lemma quiet_ttl ttl : quiet (ttl_in_force ttl).
Proof. intros n Φ HΦ. unfold ttl_in_force. wp_run; apply HΦ. Qed.

Lemma quiet_select rows : quiet (select_due rows).
Proof.
  induction rows as [|s rows IH]; intros n Φ HΦ; cbn [select_due]; wp_run; try apply HΦ;
    [|apply IH, HΦ].
  apply quiet_config. intros [e|c]; wp_run; [apply HΦ|].
  apply IH. intros [e|due]; wp_run; apply HΦ.
Qed.

Lemma quiet_observe_rows epochs rows : quiet (observe_rows epochs rows).
Proof.
  induction rows as [|s rows IH]; intros n Φ HΦ; cbn [observe_rows]; wp_run; [apply HΦ|].
  by apply IH.
Qed.

Lemma quiet_add_names per l c names acc : quiet (add_names per l c names acc).
Proof.
  revert acc. induction names as [|name names IH]; intros acc n Φ HΦ; cbn [add_names];
    wp_run; [apply HΦ| |by apply IH].
  apply quiet_config. intros [e|cfg]; wp_run; [apply HΦ|by apply IH].
Qed.

Lemma quiet_aggregate fleet : quiet (get_aggregate_failure_evidence fleet).
Proof.
  intros n Φ HΦ. unfold get_aggregate_failure_evidence. wp_run. apply quiet_observe_rows.
  intros [e|[]]; wp_run; try apply HΦ; by apply quiet_add_names.
Qed.

Lemma wp_emit t name prev trig rep ev n (Φ : Z → exn + unit → Prop) :
  (∀ now, Φ (n - cost (Emit {| ev_type := t; ev_service := name; ev_previous := prev;
     ev_timestamp := now; ev_trigger := trig; ev_trigger_replay := rep; ev_evidence := ev |}))
     (inr ())) →
  wp I delta (emit_event t name prev trig rep ev) n Φ.
Proof. intros HΦ. unfold emit_event. wp_run. apply HΦ. Qed.
End quiet_methods.
