(* ===== verification/CBEvents.v ===== *)
(** * Every transition is announced exactly once

    The service is called from many threads; these theorems are about every
    interleaving of the methods' atomic actions, against any repository that
    follows the interface's laws. *)

From S2P Require Import Prelude Interleave CBData OutcomeWindow CBInterface CBRepo CBService CBTokens CBRules.

(** ** The calls *)
Inductive operation : Type :=
| OpShouldAllow (name : string)
| OpAdmit (name : string)
| OpFailure (name : string) (error_context : dict string string)
| OpSuccess (name : string) (hint : option success_hint)
| OpRejection (name : string) (row : CircuitBreakerStateData)
| OpForceOpen (who : actor) (name reason : string) (override : bool) (ttl : pyval)
| OpForceClose (who : actor) (name reason : string) (replay override : bool) (ttl : pyval)
| OpReset (who : actor) (name : string) (by_id : option Z) (reason : string)
| OpManual (who : actor) (name action reason : string) (by_id : option string)
| OpExpire
| OpSweep
| OpAggregate (fleet : bool)
| OpOverride (name : string) (o : threshold_override)
| OpRemoveOverride (name : string).

(** The calls protected traffic makes on its own. *)
Definition traffic (o : operation) : bool :=
  match o with
  | OpShouldAllow _ | OpAdmit _ | OpFailure _ _ | OpSuccess _ _ | OpRejection _ _ => true
  | _ => false
  end.

Definition sweeps (o : operation) : bool := match o with OpSweep => true | _ => false end.

Section events.
  Context {R : Type} `{RepositoryLaws R}.

Definition body (o : operation) : thread (world R) :=
  match o with
  | OpShouldAllow n => spawn (should_allow n)
  | OpAdmit n => spawn (should_allow_with_state n)
  | OpFailure n ctx => spawn (record_failure n ctx)
  | OpSuccess n h => spawn (record_success n h)
  | OpRejection n row => spawn (record_rejection n row)
  | OpForceOpen who n reason ov ttl => spawn (force_open who n reason ov ttl)
  | OpForceClose who n reason rep ov ttl => spawn (force_close who n reason rep ov ttl)
  | OpReset who n by_id reason => spawn (reset who n by_id reason)
  | OpManual who n action reason by_id => spawn (manual_control who n action reason by_id)
  | OpExpire => spawn check_and_expire_manual_overrides
  | OpSweep => spawn check_recovery_transitions
  | OpAggregate fleet => spawn (get_aggregate_failure_evidence fleet)
  | OpOverride n o => spawn (apply_threshold_override n o)
  | OpRemoveOverride n => spawn (remove_threshold_override n)
  end.

Definition world_ok (w : world R) : Prop := rows_ok (repo w).

(** ** Counting

    Fix a name and a transition [from -> to]. *)
Context (tracked from to : string) (Hft : from ≠ to).

(** Whether the bus is known to take every event: then an event counts when it
    was taken, else when it was handed over. *)
Context (sure : bool).

Definition books_ok (w : world R) : Prop := world_ok w ∧ (sure = true → bus w = BusUp).

(** 1 when a change of [name]'s state from [q] to [t] is the tracked one. *)
Definition tick (name q t : string) : Z :=
  if decide (name = tracked ∧ q = from ∧ t = to) then 1 else 0.

Definition moved (r r' : R) : Z := tick tracked (token r tracked) (token r' tracked).

Definition type_token (t : EventType) : string :=
  match t with
  | CIRCUIT_BREAKER_OPENED => "open"
  | CIRCUIT_BREAKER_CLOSED => "closed"
  | CIRCUIT_BREAKER_HALF_OPENED => "half_open"
  end.

(** 1 for an event that announces the tracked transition. *)
Definition event_tick (ev : cb_event) : Z :=
  tick (ev_service ev) (ev_previous ev) (type_token (ev_type ev)).

Definition taken (e : effect) : Z := match e with Emit ev => event_tick ev | _ => 0 end.

Definition dropped (e : effect) : Z :=
  match e with EmitSkipped ev | EmitFailed ev => event_tick ev | _ => 0 end.

Definition announces (e : effect) : Z :=
  match e with
  | Emit ev => event_tick ev
  | EmitSkipped ev | EmitFailed ev => if sure then 0 else event_tick ev
  | _ => 0
  end.

Definition announced (w : world R) : Z := Zsum (announces <$> trace w).

Lemma announced_split w :
  announced w = Zsum (taken <$> trace w) + if sure then 0 else Zsum (dropped <$> trace w).
Proof.
  unfold announced. induction (trace w) as [|e l IH]; [by destruct sure|].
  unfold Zsum in *. cbn [fmap list_fmap foldr]. rewrite IH.
  destruct e; cbn [announces taken dropped]; destruct sure; lia.
Qed.

(** Transitions made minus transitions announced, over one change. *)
Definition debt (w w' : world R) : Z :=
  moved (repo w) (repo w') - (announced w' - announced w).

Lemma tick_same name q : tick name q q = 0.
Proof. unfold tick. case_decide; [|done]. naive_solver. Qed.

Lemma moved_same r : moved r r = 0.
Proof. apply tick_same. Qed.

(** A call that leaves every state token as it was is free. *)
Lemma debt_repo w r : debt w (set_repo w r) = moved (repo w) r.
Proof. unfold debt, announced. simpl. lia. Qed.

(** ** Calls, counted *)
Lemma moved_stays r r' : stays r r' → moved r r' = 0.
Proof. intros [_ Hs]. unfold moved. rewrite Hs. apply tick_same. Qed.

Lemma moved_goes r r' n q t : goes r r' n q t → moved r r' = tick n q t.
Proof.
  intros (_ & <- & <- & Hne). unfold moved. destruct (decide (tracked = n)) as [<-|Hn]; [done|].
  rewrite (Hne _ Hn), tick_same. unfold tick. rewrite decide_False; naive_solver.
Qed.

(** ** The account: transitions made, minus transitions announced *)
Lemma events_accounting : accounting books_ok debt announces.
Proof.
  assert (∀ w (w' : world R), repo w' = repo w → trace w' = trace w → debt w w' = 0) as Hsame.
  { intros w w' Hr Ht. unfold debt, announced. rewrite Hr, Ht, moved_same. lia. }
  split; intros.
  - by apply Hsame.
  - split; [done|by apply Hsame].
  - split; [done|by apply Hsame].
  - split; [done|]. unfold debt, announced. simpl. rewrite moved_same, fmap_app, Zsum_app.
    simpl. lia.
  - by destruct e.
  - match goal with Hok : books_ok w |- _ => destruct Hok as [_ Hb] end.
    unfold announces. destruct sure; [by rewrite (Hb eq_refl)|by destruct (bus w)].
  - match goal with Hok : books_ok w |- _ => destruct Hok as [Hw Hb] end.
    pose proof (get_or_create_stays (clock w) (repo w) n Hw) as Hs.
    rewrite debt_repo. split; [split; [apply Hs|done]|by apply moved_stays].
Qed.

Notation wps p n Φ := (wp books_ok debt p n Φ).

(** A repository call, by its effect on the tokens. *)
Lemma wp_moves {A} (f : Z → R → R * A) n (Φ : Z → exn + A → Prop) :
  (∀ now r, rows_ok r → let '(r', a) := f now r in
     rows_ok r' ∧ Φ (n + moved r r') (inr a)) →
  wps (storing f) n Φ.
Proof.
  intros Hf. apply wp_storing. intros w [Hw Hb]. specialize (Hf (clock w) (repo w) Hw).
  destruct (f (clock w) (repo w)) as [r a]. rewrite debt_repo.
  split; [split; [apply Hf|done]|apply Hf].
Qed.

Lemma wp_still {A} (f : Z → R → R * A) n (Φ : Z → exn + A → Prop) :
  (∀ now r, rows_ok r → stays r (f now r).1) →
  (∀ a, Φ n (inr a)) → wps (storing f) n Φ.
Proof.
  intros Hf HΦ. apply wp_moves. intros now r Hr. specialize (Hf now r Hr).
  destruct (f now r) as [r' a]. simpl in Hf.
  rewrite (moved_stays _ _ Hf), Z.add_0_r. split; [apply Hf|done].
Qed.

(** A call that reports whether it made the move [q -> t]. *)
Lemma wp_flagged {A} (f : Z → R → R * A) (flag : A → bool) (P : A → Prop) name q t n
    (Φ : Z → exn + A → Prop) :
  (∀ now r, rows_ok r → let '(r', a) := f now r in
     (if flag a then goes r r' name q t else stays r r') ∧ P a) →
  (∀ a, P a → Φ (n + if flag a then tick name q t else 0) (inr a)) →
  wps (storing f) n Φ.
Proof.
  intros Hf HΦ. apply wp_moves. intros now r Hr. specialize (Hf now r Hr).
  destruct (f now r) as [r' a]. destruct Hf as [Hm HP]. specialize (HΦ a HP).
  destruct (flag a).
  - rewrite (moved_goes _ _ _ _ _ Hm). split; [apply Hm|done].
  - rewrite (moved_stays _ _ Hm). split; [apply Hm|done].
Qed.

Lemma wp_trip name fc n (Φ : Z → exn + CircuitBreakerOpenAttempt → Prop) :
  (∀ att, (state (open_state att) = CIRCUIT_BREAKER_PINNED_TOKEN → did_open att = false) →
     Φ (n + if did_open att then tick name "closed" "open" else 0) (inr att)) →
  wps (storing (λ now r, r_trip_to_open now r name fc)) n Φ.
Proof. by apply wp_flagged; intros; apply trip_goes. Qed.

Lemma wp_open_check name n (Φ : Z → exn + CircuitBreakerOpenAttempt → Prop) :
  (∀ att, Φ (n + if did_open att then tick name "half_open" "open" else 0) (inr att)) →
  wps (storing (λ now r, r_record_failure_with_open_check now r name)) n Φ.
Proof.
  intros HΦ. apply (wp_flagged _ did_open (λ _, True) name "half_open" "open"); [|by auto].
  intros now r Hr. pose proof (open_check_goes now r name Hr) as Hg. by case_match.
Qed.

Lemma wp_close_check name thr n (Φ : Z → exn + CircuitBreakerCloseAttempt → Prop) :
  (∀ att, Φ (n + if did_close att then tick name "half_open" "closed" else 0) (inr att)) →
  wps (storing (λ now r, r_record_success_with_close_check now r name thr)) n Φ.
Proof.
  intros HΦ. apply (wp_flagged _ did_close (λ _, True) name "half_open" "closed"); [|by auto].
  intros now r Hr. pose proof (close_check_goes now r name thr Hr) as Hg. by case_match.
Qed.

Lemma wp_acquire name limit stuck n (Φ : Z → exn + bool * string * string → Prop) :
  (∀ ok prev new,
     Φ (n + if bool_decide (prev = value OPEN) && bool_decide (new = value HALF_OPEN)
            then tick name "open" "half_open" else 0) (inr (ok, prev, new))) →
  wps (storing (λ now r, r_try_acquire_half_open_slot now r name limit stuck)) n Φ.
Proof.
  intros HΦ. apply (wp_flagged _ (λ res : bool * string * string,
    bool_decide (res.1.2 = value OPEN) && bool_decide (res.2 = value HALF_OPEN)) (λ _, True)
    name "open" "half_open"); [|intros [[ok prev] new] _; apply HΦ].
  intros now r Hr. pose proof (acquire_goes now r name limit stuck Hr) as Hg.
  by destruct (r_try_acquire_half_open_slot now r name limit stuck) as [r' [[ok prev] new]].
Qed.

(** A force always makes its move, from whatever state it found. *)
Lemma wp_forced (f : Z → R → R * (bool * string * string)) name t n
    (Φ : Z → exn + bool * string * string → Prop) :
  (∀ now r, rows_ok r → let '(r', (ok, prev, new)) := f now r in
     goes r r' name prev new ∧ ok = true ∧ new = t) →
  (∀ prev, Φ (n + tick name prev t) (inr (true, prev, t))) →
  wps (storing f) n Φ.
Proof.
  intros Hf HΦ. apply wp_moves. intros now r Hr. specialize (Hf now r Hr).
  destruct (f now r) as [r' [[ok prev] new]]. destruct Hf as (Hg & -> & ->).
  rewrite (moved_goes _ _ _ _ _ Hg). split; [apply Hg|done].
Qed.

Lemma wp_reset name reason by_id n (Φ : Z → exn + bool * string * string → Prop) :
  (∀ prev, Φ (n + tick name prev "closed") (inr (true, prev, "closed"))) →
  (∀ prev new, Φ n (inr (false, prev, new))) →
  wps (storing (λ now r, r_atomic_reset now r name reason by_id)) n Φ.
Proof.
  intros Ht Hf. apply wp_moves. intros now r Hr.
  pose proof (reset_goes now r name reason by_id Hr) as Hm.
  destruct (r_atomic_reset now r name reason by_id) as [r' [[[] prev] new]].
  - destruct Hm as [Hg ->]. rewrite (moved_goes _ _ _ _ _ Hg). split; [apply Hg|done].
  - rewrite (moved_stays _ _ Hm), Z.add_0_r. split; [apply Hm|done].
Qed.

(** ** The methods settle their debt *)
Let HA := events_accounting.

(** Close a path: the ticks charged and the ticks announced cancel. *)
Ltac settle :=
  intros; unfold announces, event_tick in *; cbn [ev_service ev_previous ev_type type_token] in *;
  try case_bool_decide; subst; rewrite ?tick_same; lia.

Lemma settle_admit_trial name row c : wps (admit_trial name row c) 0 (λ m _, m = 0).
Proof.
  unfold admit_trial. apply wp_ebind, wp_acquire. intros ok prev new. cbv beta iota.
  destruct (bool_decide (prev = value OPEN) && bool_decide (new = value HALF_OPEN));
    wp_run; try (apply (wp_emit _ _ _ HA); intros ?); wp_run;
    try (apply (quiet_rejection _ _ _ HA); intros [e|[]]; wp_run); settle.
Qed.

Lemma settle_admission name c : wps (evaluate_admission name c) 0 (λ m _, m = 0).
Proof.
  unfold evaluate_admission. wp_run. apply (quiet_downstream _ _ _ HA). intros [e|b]; wp_run; try settle.
  apply (quiet_refusal _ _ _ HA). intros [e|[why|]]; wp_run; try settle; [|apply settle_admit_trial].
  apply (quiet_rejection _ _ _ HA). intros [e|[]]; wp_run; settle.
Qed.

Lemma settle_should_allow name : wps (should_allow name) 0 (λ m _, m = 0).
Proof.
  unfold should_allow. wp_run; try settle. apply (quiet_config _ _ _ HA). intros [e|c]; wp_run; try settle.
  eapply wp_mono; [apply settle_admission|]. intros m [e|d] ->; wp_run; settle.
Qed.

Lemma settle_admit name : wps (should_allow_with_state name) 0 (λ m _, m = 0).
Proof.
  unfold should_allow_with_state. wp_run; try settle.
  apply (quiet_config _ _ _ HA). intros [e|c]; wp_run; try settle. apply settle_admission.
Qed.

Lemma settle_trip name row ctx c wf wt trig :
  wps (trip_circuit_open name row ctx c wf wt trig) 0 (λ m _, m = 0).
Proof.
  unfold trip_circuit_open. cbv zeta. apply wp_ebind, wp_trip. intros att Hpin.
  unfold log_circuit_open_audit, apply_burn_rate_multiplier.
  wp_run; try (apply (wp_emit _ _ _ HA); intros ?); wp_run.
  - match goal with E : bool_decide _ = true |- _ => apply bool_decide_eq_true, Hpin in E end.
    by match goal with E : did_open _ = _ |- _ => rewrite E end.
  - match goal with E : negb _ = true |- _ => apply negb_true_iff in E; by rewrite E end.
  - match goal with E : negb _ = false |- _ => apply negb_false_iff in E; rewrite E end. settle.
Qed.

Lemma settle_trial_failure name : wps (record_trial_failure name) 0 (λ m _, m = 0).
Proof.
  unfold record_trial_failure. wp_run; try settle. apply wp_open_check. intros att. wp_run.
  - apply (wp_emit _ _ _ HA). settle.
  - settle.
Qed.

Lemma settle_failure name ctx : wps (record_failure name ctx) 0 (λ m _, m = 0).
Proof.
  unfold record_failure. wp_run; try settle; [apply settle_trial_failure|].
  apply wp_still; [by eauto with tokens|intros updated]. unfold decide_trip, trip_if_due. wp_run.
  apply (quiet_config _ _ _ HA). intros [e|c]; wp_run; try settle;
    (eapply wp_mono; [apply settle_trip|]; intros m [e|att] ->; wp_run; settle).
Qed.

Lemma settle_success name hint : wps (record_success name hint) 0 (λ m _, m = 0).
Proof.
  unfold record_success. wp_run; try settle.
  apply (quiet_config _ _ _ HA). intros [e|c]; wp_run; try settle.
  apply (quiet_fast_path _ _ _ HA). intros [e|b]; wp_run; try settle.
  - apply wp_close_check. intros att. unfold announce_close.
    wp_run; try (apply (wp_emit _ _ _ HA); intros ?); settle.
  - apply wp_still; [by eauto with tokens|intros ?]. wp_run. settle.
Qed.

Lemma wp_after_force name n (k : option Z → eprog (world R) CircuitBreakerResult) Φ :
  (∀ exp, wps (k exp) n Φ) →
  wps (exp <- read_back_override_expiry name;; _ <- clearing name;; _ <- reset_half_open name;;
       k exp) n Φ.
Proof.
  intros Hk. unfold read_back_override_expiry. wp_run.
  apply wp_still; [by eauto with tokens|intros ?]. wp_run. apply Hk.
Qed.

Lemma settle_force_open who name reason ov ttl :
  wps (force_open who name reason ov ttl) 0 (λ m _, m = 0).
Proof.
  unfold force_open. wp_run; try settle.
  apply (quiet_kill_switch _ _ _ HA). intros [e|[refusal|]]; wp_run; try settle.
  apply (quiet_ttl _ _ _ HA). intros [e|t]; wp_run; try settle.
  eapply wp_forced; [intros; by apply force_open_goes|]. intros prev. cbv beta iota. apply wp_after_force. intros exp.
  wp_run; try (apply (wp_emit _ _ _ HA); intros ?); wp_run; settle.
Qed.

Lemma settle_force_close who name reason rep ov ttl :
  wps (force_close who name reason rep ov ttl) 0 (λ m _, m = 0).
Proof.
  unfold force_close. wp_run; try settle.
  apply (quiet_kill_switch _ _ _ HA). intros [e|[refusal|]]; wp_run; try settle.
  apply (quiet_ttl _ _ _ HA). intros [e|t]; wp_run; try settle.
  eapply wp_forced; [intros; by apply force_close_goes|]. intros prev. cbv beta iota. apply wp_after_force. intros exp.
  unfold handle_force_close_success. wp_run; try (apply (wp_emit _ _ _ HA); intros ?); wp_run; settle.
Qed.

Lemma settle_reset who name by_id reason : wps (reset who name by_id reason) 0 (λ m _, m = 0).
Proof.
  unfold reset. wp_run. apply wp_reset; intros; wp_run; try (apply (wp_emit _ _ _ HA); intros ?); wp_run; settle.
Qed.

Lemma settle_manual who name action reason by_id :
  wps (manual_control who name action reason by_id) 0 (λ m _, m = 0).
Proof.
  unfold manual_control. wp_run. cbv zeta. wp_run.
  - apply settle_force_open.
  - apply settle_force_close.
  - apply wp_still; [by eauto with tokens|intros ?]. wp_run. settle.
Qed.

Lemma quiet_expire now rows : quiet books_ok debt (expire_overrides now rows).
Proof.
  induction rows as [|s rows IH]; intros n Φ HΦ; cbn [expire_overrides]; [wp_run; apply HΦ|].
  unfold expire_override. wp_run;
    try (apply wp_still; [by eauto with tokens|intros ?]); wp_run;
    apply IH; intros [e|l]; wp_run; apply HΦ.
Qed.

(** The sweep's write is not an announced move, and never one to OPEN or CLOSED. *)
Lemma wp_sweep_write name n (Φ : Z → exn + bool → Prop) :
  to ≠ value HALF_OPEN → (∀ ok, Φ n (inr ok)) →
  wps (storing (λ now r, r_update_state now r name to_half_open)) n Φ.
Proof.
  intros Hto HΦ. apply wp_moves. intros now r Hr.
  pose proof (to_half_open_goes now r name Hr) as Hg.
  destruct (r_update_state now r name to_half_open) as [r' []].
  - rewrite (moved_goes _ _ _ _ _ Hg). unfold tick. rewrite decide_False by naive_solver.
    rewrite Z.add_0_r. split; [apply Hg|done].
  - rewrite (moved_stays _ _ Hg), Z.add_0_r. split; [apply Hg|done].
Qed.

Lemma settle_sweep :
  to ≠ value HALF_OPEN → wps check_recovery_transitions 0 (λ m _, m = 0).
Proof.
  intros Hto. unfold check_recovery_transitions. wp_run; try settle. apply wp_catch. wp_run.
  apply (quiet_select _ _ _ HA). intros [e|due]; wp_run; try settle.
  apply wp_for_each; [|wp_run; settle]. intros s. wp_run.
  apply wp_sweep_write; [done|intros ?]. by wp_run.
Qed.


Lemma operation_settles o :
  to ≠ value HALF_OPEN ∨ sweeps o = false → settles books_ok debt 0 (body o).
Proof.
  intros Ho. destruct o; apply settles_spawn.
  - apply settle_should_allow.
  - apply settle_admit.
  - apply settle_failure.
  - apply settle_success.
  - apply (quiet_rejection _ _ _ HA). done.
  - apply settle_force_open.
  - apply settle_force_close.
  - apply settle_reset.
  - apply settle_manual.
  - unfold check_and_expire_manual_overrides. wp_run. by apply quiet_expire.
  - apply settle_sweep. naive_solver.
  - by apply (quiet_aggregate _ _ _ HA).
  - by apply (wp_overriding _ _ _ HA).
  - by apply (wp_overriding _ _ _ HA).
Qed.

Lemma outside_free w w' :
  books_ok w → outside w w' ∧ (sure = true → bus w' = BusUp) → books_ok w' ∧ debt w w' = 0.
Proof.
  intros [Hw _] [Ho Hb]. split; [split; [by destruct Ho|done]|].
  unfold debt, announced. destruct Ho. simpl. rewrite moved_same. lia.
Qed.
End events.

(** The transitions [from -> to] of [name] over one change of the world; the
    events about them that the bus took, and those it did not. *)
Definition transitions {R} `{CircuitBreakerStateRepository R}
    (name : string) (from to : CircuitBreakerStateEnum) (w w' : world R) : Z :=
  moved name (value from) (value to) (repo w) (repo w').

Definition events_taken {R} (name : string) (from to : CircuitBreakerStateEnum) (w : world R) : Z :=
  Zsum (taken name (value from) (value to) <$> trace w).

Definition events_dropped {R} (name : string) (from to : CircuitBreakerStateEnum) (w : world R) : Z :=
  Zsum (dropped name (value from) (value to) <$> trace w).

(** The outside; with [up], while the event bus takes every event. *)
Definition outside_with {R} (up : bool) (w w' : world R) : Prop :=
  outside w w' ∧ (up = true → bus w' = BusUp).

(** What the books say once every call has returned: each of the [d] transitions
    was handed to the bus exactly once, and a bus that stays up took them all. *)
Definition books_closed {R} (name : string) (from to : CircuitBreakerStateEnum) (up : bool)
    (w w' : world R) (d : Z) : Prop :=
  d = (events_taken name from to w' - events_taken name from to w)
      + (events_dropped name from to w' - events_dropped name from to w) ∧
  (up = true → events_dropped name from to w' = events_dropped name from to w).

(** A pool over a world that holds the service's closes its books when every
    thread settles, under each reading of what counts as announced. *)
Lemma pool_closes_books {R V} `{RepositoryLaws R} (env : V → V → Prop) (pr : V → world R)
    (I : bool → V → Prop) name (from to : CircuitBreakerStateEnum) up ts v d ts' v' :
  let δ sure w w' := debt name (value from) (value to) sure (pr w) (pr w') in
  (∀ sure, (sure = true → up = true) →
     (∀ v v', I sure v → env v v' → I sure v' ∧ δ sure v v' = 0) ∧
     I sure v ∧ Forall (settles (I sure) (δ sure) 0) ts) →
  exec env (λ v v', transitions name from to (pr v) (pr v')) (ts, v) d (ts', v') →
  Forall finished ts' → books_closed name from to up (pr v) (pr v') d ∧ I false v'.
Proof.
  intros δ Hpool Hexec Hfin.
  assert (∀ sure, (sure = true → up = true) → I sure v' ∧
    d = announced name (value from) (value to) sure (pr v')
        - announced name (value from) (value to) sure (pr v)) as Hd.
  { intros sure Hsure. destruct (Hpool sure Hsure) as (Henv & Hv & Hts).
    pose proof (exec_telescopes _ _ (λ v, announced name (value from) (value to) sure (pr v))
      _ _ _ Hexec) as Ht. simpl in Ht.
    destruct (exec_balanced env (I sure) (δ sure) Henv ts v _ ts' v' Hv Hts Ht) as [Hv' Hzero].
    split; [done|]. specialize (Hzero Hfin). lia. }
  destruct (Hd false ltac:(done)) as [Hv' Hall]. split; [|done].
  rewrite !announced_split in Hall. unfold books_closed, events_taken, events_dropped.
  split; [lia|]. intros Hup. destruct (Hd true ltac:(done)) as [_ Hsure].
  rewrite !announced_split in Hsure. lia.
Qed.

(** C1: Exactly-once announcement. Whatever traffic, operators and background
    passes run concurrently (admissions, recorded outcomes and rejections,
    force_open, force_close, reset, manual_control, the expiry pass, the recovery
    sweep, aggregate reads, threshold overrides), and however their atomic steps
    interleave, once they have all returned each time a circuit went from one
    state to OPEN or CLOSED the service has handed the event bus exactly one
    CIRCUIT_BREAKER_OPENED / CLOSED event for it with that previous state: the
    transitions equal the events the bus took plus those it refused (no bus, or
    its emit raised: logged, counted and not retried).  While the bus stays up
    none is refused, so no transition is lost and none announced twice.  With no
    recovery sweep among the calls the same holds for HALF_OPEN.  Two operator
    calls are not among them, since they move a row without announcing it: the
    extension of an override ([extension_resurrects_block]) and the cell
    reconciliation ([reconciliation_unannounced]). *)
Theorem transitions_announced_exactly_once {R} `{RepositoryLaws R}
    name (from to : CircuitBreakerStateEnum) up ops (w : world R) d ts w' :
  from ≠ to → to ≠ HALF_OPEN ∨ Forall (λ o, sweeps o = false) ops →
  world_ok w → (up = true → bus w = BusUp) →
  exec (outside_with up) (transitions name from to) (body <$> ops, w) d (ts, w') →
  Forall finished ts → books_closed name from to up w w' d ∧ world_ok w'.
Proof.
  intros Hne Hops Hw Hbus Hexec Hfin.
  assert (value from ≠ value to) as Hv by (intros Heq%value_inj; done).
  destruct (pool_closes_books (outside_with up) (λ w, w) books_ok name from to up
    (body <$> ops) w d ts w') as [Hd [Hw' _]]; [|done..].
  intros sure Hsure. split_and!; [|by split; auto|].
  - intros v v' Hok [Ho Hb]. by apply outside_free; auto.
  - apply Forall_fmap, Forall_forall. intros o Ho. apply operation_settles; [done|].
    destruct Hops as [Hto|Hops]; [left; intros Heq; by apply Hto, value_inj|right].
    by apply (proj1 (Forall_forall _ _) Hops).
Qed.

(** ** A process at boot, over the in-memory repository *)
Definition boot (c : CircuitBreakerConfig) (now : Z) :
    world InMemoryCircuitBreakerStateRepository := {|
  repo := new_repository; window := new_window; overrides := []; downstream_checkers := [];
  clock := now; config := c; emergency := NoManager; system_enabled := true; bus := BusUp; trace := [] |}.

Lemma boot_ok c now : world_ok (boot c now).
Proof. split; [apply new_repository_ok|]. intros n. by exists CLOSED. Qed.

Lemma transitions_announced_exactly_once_witness :
  let ops := [OpForceOpen {| actor_id := "op"; actor_type := "user" |} "db" "" false VNone;
              OpFailure "db" [];
              OpForceClose {| actor_id := "op"; actor_type := "user" |} "db" "" true false VNone]
  in
  ∃ d ts w', exec (outside_with true) (transitions "db" CLOSED OPEN)
      (body <$> ops, boot default_config 1000) d (ts, w') ∧
    Forall finished ts ∧ d = events_taken "db" CLOSED OPEN w' ∧
    events_taken "db" CLOSED OPEN w' = 1 ∧ v_state (vw (repo w') "db") = "closed".
Proof.
  cbv zeta. set (ops := [_; _; _]).
  destruct (exec_run_all (outside_with true) (transitions "db" CLOSED OPEN)
    (body <$> ops) (boot default_config 1000)) as (d & ts & He & Hf).
  assert (events_taken "db" CLOSED OPEN (run_all (body <$> ops) (boot default_config 1000)) = 1 ∧
    v_state (vw (repo (run_all (body <$> ops) (boot default_config 1000))) "db") = "closed")
    as Hst by (vm_compute; done).
  revert He Hst. generalize (run_all (body <$> ops) (boot default_config 1000)). intros w' He Hst.
  exists d, ts, w'. split; [exact He|split; [exact Hf|split; [|exact Hst]]].
  edestruct (transitions_announced_exactly_once "db" CLOSED OPEN true ops) as [[Hd Hup] _];
    [discriminate|left; discriminate|apply boot_ok|reflexivity|exact He|exact Hf|].
  rewrite Hd, (Hup eq_refl). unfold events_taken at 2. simpl. lia.
Defined.
