(* ===== verification/CBSafety.v ===== *)
(** * What traffic, freezes and operators may do to a circuit

    Safety of the service in every interleaving: the edges traffic can take,
    the freeze, the operator's block; and the three races in which a background
    or stale write overrides an operator. *)

From S2P Require Import Prelude Interleave CBData OutcomeWindow CBInterface CBRepo.
From S2P Require Import CBService CBTokens CBRules CBEvents.

(** ** The edges of the state machine *)
Inductive edge : string → string → Prop :=
| edge_same s : edge s s
| edge_trip : edge "closed" "open"
| edge_trial : edge "open" "half_open"
| edge_reopen : edge "half_open" "open"
| edge_close : edge "half_open" "closed".

Section edges.
  Context {R : Type} `{RepositoryLaws R}.

Definition along_edges (w w' : world R) : Prop :=
  ∀ n, edge (token (repo w) n) (token (repo w') n).

Lemma along_stays (w : world R) r : stays (repo w) r → along_edges w (set_repo w r).
Proof. intros [_ Hs] n. simpl. rewrite Hs. constructor. Qed.

Lemma along_goes (w : world R) r n q t :
  goes (repo w) r n q t → edge q t → along_edges w (set_repo w r).
Proof.
  intros (_ & <- & <- & Hne) He n'. simpl. destruct (decide (n' = n)) as [->|Hn]; [done|].
  rewrite Hne by done. constructor.
Qed.

Notation moral p := (obeys world_ok along_edges p).

Lemma moral_storing {A} (f : Z → R → R * A) :
  (∀ now r, rows_ok r → let '(r', _) := f now r in
     stays r r' ∨ ∃ n q t, goes r r' n q t ∧ edge q t) →
  moral (storing f).
Proof.
  intros Hf. apply obeys_atomically. intros w Hw. specialize (Hf (clock w) (repo w) Hw).
  destruct (f (clock w) (repo w)) as [r a]. simpl.
  destruct Hf as [Hs|(n & q & t & Hg & He)].
  - split; [apply Hs|by apply along_stays].
  - split; [apply Hg|by eapply along_goes].
Qed.

Lemma moral_still {A} (f : Z → R → R * A) :
  (∀ now r, rows_ok r → stays r (f now r).1) → moral (storing f).
Proof.
  intros Hf. apply moral_storing. intros now r Hr. specialize (Hf now r Hr).
  destruct (f now r). by left.
Qed.

(** An action that leaves the repository alone. *)
Lemma moral_apart {A} (f : world R → world R * A) :
  (∀ w, repo (f w).1 = repo w) → moral (atomically f).
Proof.
  intros Hf. apply obeys_atomically. intros w Hw. unfold world_ok, along_edges. rewrite Hf.
  split; [done|]. intros n. constructor.
Qed.

Lemma moral_trip name fc : moral (storing (λ now r, r_trip_to_open now r name fc)).
Proof.
  apply moral_storing. intros now r Hr. pose proof (trip_goes now r name fc Hr) as Hg.
  destruct (r_trip_to_open now r name fc) as [r' att]. destruct Hg as [Hg _].
  destruct (did_open att); [right|by left]. do 3 eexists; split; [exact Hg|constructor].
Qed.

Lemma moral_open_check name :
  moral (storing (λ now r, r_record_failure_with_open_check now r name)).
Proof.
  apply moral_storing. intros now r Hr. pose proof (open_check_goes now r name Hr) as Hg.
  destruct (r_record_failure_with_open_check now r name) as [r' att].
  destruct (did_open att); [right|by left]. do 3 eexists; split; [exact Hg|constructor].
Qed.

Lemma moral_close_check name thr :
  moral (storing (λ now r, r_record_success_with_close_check now r name thr)).
Proof.
  apply moral_storing. intros now r Hr. pose proof (close_check_goes now r name thr Hr) as Hg.
  destruct (r_record_success_with_close_check now r name thr) as [r' att].
  destruct (did_close att); [right|by left]. do 3 eexists; split; [exact Hg|constructor].
Qed.

Lemma moral_acquire name limit stuck :
  moral (storing (λ now r, r_try_acquire_half_open_slot now r name limit stuck)).
Proof.
  apply moral_storing. intros now r Hr. pose proof (acquire_goes now r name limit stuck Hr) as Hg.
  destruct (r_try_acquire_half_open_slot now r name limit stuck) as [r' [[ok prev] new]].
  destruct (bool_decide (prev = value OPEN) && bool_decide (new = value HALF_OPEN));
    [right|by left]. do 3 eexists; split; [exact Hg|constructor].
Qed.

(** Walk a method: every action is apart from the repository or one of the above. *)
Ltac moral_step :=
  cbv beta iota zeta;
  lazymatch goal with
  | |- obeys _ _ (ebind _ _) => apply obeys_ebind; [|intros ?]
  | |- obeys _ _ (ret _) => exact Logic.I
  | |- obeys _ _ (raise _) => exact Logic.I
  | |- obeys _ _ (storing _) =>
      first [ apply moral_trip | apply moral_open_check | apply moral_close_check
            | apply moral_acquire | by apply moral_still; eauto with tokens ]
  | |- obeys _ _ (get_or_create_state _) => by apply moral_still; eauto with tokens
  | |- obeys _ _ (if ?b then _ else _) => destruct b
  | |- obeys _ _ (match ?b with _ => _ end) => destruct b
  | |- obeys _ _ (atomically _) => apply moral_apart; intros ?; first [done|by case_match]
  | |- obeys _ _ (downstream_refuses _ _) => fail
  | |- obeys _ _ ?p => let q := eval red in p in change p with q
  end.
Ltac moral_run := repeat moral_step.

Lemma moral_downstream name l : moral (downstream_refuses name l).
Proof. induction l as [|i l IH]; cbn [downstream_refuses]; moral_run; done. Qed.

Lemma moral_traffic o : traffic o = true → obeys world_ok along_edges (body (R := R) o).
Proof.
  intros Ho. destruct o; try done; unfold body, spawn; (apply obeys_bind; [|done]);
    moral_run; apply moral_downstream.
Qed.

Lemma outside_moral (w w' : world R) : world_ok w → outside w w' → world_ok w' ∧ along_edges w w'.
Proof. intros Hw Ho. destruct Ho. split; [done|]. intros n. constructor. Qed.
End edges.

(** C3: Traffic moves circuits along the breaker's edges only. In every
    interleaving of admissions, failures, successes and rejections, of any
    circuits, every step leaves each circuit's state or takes CLOSED to OPEN,
    OPEN to HALF_OPEN, or HALF_OPEN to OPEN or CLOSED. In particular a success
    that raced with a trip never writes the circuit back to CLOSED. *)
Theorem traffic_follows_edges {R} `{RepositoryLaws R} ops (w : world R) ts w' ts' w'' n :
  Forall (λ o, traffic o = true) ops → world_ok w →
  rtc (step outside) (body <$> ops, w) (ts, w') → step outside (ts, w') (ts', w'') →
  edge (token (repo w') n) (token (repo w'') n).
Proof.
  intros Hops Hw Hr Hs.
  refine (steps_obey outside world_ok along_edges outside_moral _ (ts, w') (ts', w'') _ _ Hr Hs n).
  - done.
  - apply Forall_fmap. eapply Forall_impl; [done|]. by apply moral_traffic.
Qed.

Lemma traffic_follows_edges_witness :
  ∃ w' ts', step outside (body <$> [OpAdmit "db"], boot default_config 0) (ts', w') ∧
    edge (token (repo (boot default_config 0)) "db") (token (repo w') "db").
Proof.
  assert (∃ c, step outside (body <$> [OpAdmit "db"], boot default_config 0) c) as [[ts' w'] Hs].
  { eexists. apply (step_thread outside (body <$> [OpAdmit "db"]) (boot default_config 0) 0).
    reflexivity. }
  exists w', ts'. split; [exact Hs|].
  eapply (traffic_follows_edges [OpAdmit "db"] (boot default_config 0));
    [repeat constructor|apply boot_ok|apply rtc_refl|exact Hs].
Defined.

(** ** The freeze *)

(** Everything but the operator's own calls. *)
Definition automatic (o : operation) : bool :=
  match o with
  | OpForceOpen _ _ _ _ _ | OpForceClose _ _ _ _ _ _ | OpReset _ _ _ _ | OpManual _ _ _ _ _ =>
      false
  | _ => true
  end.

(** The outside, while the emergency level is at the freeze level or above. *)
Definition frozen_outside {R} (w w' : world R) : Prop :=
  outside w w' ∧ is_lockdown (emergency w') = true.

Section freeze.
  Context {R : Type} `{RepositoryLaws R} (held : string → string).

Definition frozen (w : world R) : Prop :=
  world_ok w ∧ is_lockdown (emergency w) = true ∧ ∀ n, token (repo w) n = held n.

Lemma frozen_stays w r : frozen w → stays (repo w) r → frozen (set_repo w r).
Proof.
  intros (_ & He & Ht) [Hr Hs]. split_and!; [done..|]. intros n. simpl. by rewrite Hs.
Qed.

Lemma frozen_accounting : accounting frozen (λ _ _, 0) (λ _, 0).
Proof.
  split; intros; try done; [by destruct e|]. split; [|done].
  apply frozen_stays; [done|]. apply get_or_create_stays. by destruct H1.
Qed.

Let HA := frozen_accounting.
Notation wpf p Φ := (wp frozen (λ _ _, 0) p 0 Φ).

Lemma wpf_still {A} (f : Z → R → R * A) n (Φ : Z → exn + A → Prop) :
  (∀ now r, rows_ok r → stays r (f now r).1) →
  (∀ a, Φ n (inr a)) → wp frozen (λ _ _, 0) (storing f) n Φ.
Proof.
  intros Hf HΦ. apply wp_storing_still; [|done]. intros w Hw. split; [|done].
  apply frozen_stays; [done|]. apply Hf. by destruct Hw.
Qed.

(** The gate every automatic transition consults is shut. *)
Lemma wpf_gate n (Φ : Z → exn + bool → Prop) :
  Φ n (inr false) → wp frozen (λ _ _, 0) auto_transition_allowed n Φ.
Proof.
  intros HΦ. apply (wp_ask_val _ _ _ HA). intros w (_ & He & _).
  unfold should_allow_state_change. by rewrite He.
Qed.

(** Walk a method with the gate shut. *)
Ltac frozen_step :=
  lazymatch goal with
  | |- wp _ _ auto_transition_allowed _ _ => apply wpf_gate
  | |- wp _ _ (storing _) _ _ => apply wpf_still; [by eauto with tokens|intros ?]
  | |- wp _ _ (get_effective_config _) _ _ =>
      apply (quiet_config _ _ _ HA); let e := fresh in let a := fresh in intros [e|a]
  | |- wp _ _ (record_rejection _ _) _ _ =>
      apply (quiet_rejection _ _ _ HA); let e := fresh in intros [e|[]]
  | |- wp _ _ (downstream_refuses _ _) _ _ =>
      apply (quiet_downstream _ _ _ HA); let e := fresh in let a := fresh in intros [e|a]
  | |- wp _ _ (success_fast_path _ _ _) _ _ =>
      apply (quiet_fast_path _ _ _ HA); let e := fresh in let a := fresh in intros [e|a]
  | |- wp _ _ (select_due _) _ _ =>
      apply (quiet_select _ _ _ HA); let e := fresh in let a := fresh in intros [e|a]
  | |- _ => first [wp_step | progress cbv beta iota delta [negb andb]]
  end.
Ltac frozen_run := repeat frozen_step.

Lemma frozen_refusal name row c n (Φ : Z → exn + option string → Prop) :
  (∀ why, Φ n (inr (Some why))) →
  wp frozen (λ _ _, 0) (admission_refusal_reason name row c) n Φ.
Proof. intros HΦ. unfold admission_refusal_reason. frozen_run; apply HΦ. Qed.

Lemma frozen_admission name c : wpf (evaluate_admission name c) (λ m _, m = 0).
Proof.
  unfold evaluate_admission. frozen_run; try done. apply frozen_refusal. intros why.
  by frozen_run.
Qed.

Lemma frozen_expire now rows n (Φ : Z → exn + list string → Prop) :
  (∀ r, Φ n r) → wp frozen (λ _ _, 0) (expire_overrides now rows) n Φ.
Proof.
  revert n Φ. induction rows as [|s rows IH]; intros n Φ HΦ; cbn [expire_overrides];
    [frozen_run; apply HΦ|].
  unfold expire_override. frozen_run; apply IH; intros [e|l]; frozen_run; apply HΦ.
Qed.

Lemma frozen_operation o :
  automatic o = true → settles frozen (λ _ _, 0) 0 (body (R := R) o).
Proof.
  intros Ho. destruct o; try discriminate Ho; apply settles_spawn.
  - unfold should_allow. frozen_run; try done.
    eapply wp_mono; [apply frozen_admission|]. by intros m [e|d] ->.
  - unfold should_allow_with_state. frozen_run; try done. apply frozen_admission.
  - unfold record_failure, record_trial_failure, decide_trip, trip_if_due. by frozen_run.
  - unfold record_success. by frozen_run.
  - by apply (quiet_rejection _ _ _ HA).
  - unfold check_and_expire_manual_overrides. frozen_run. by apply frozen_expire.
  - unfold check_recovery_transitions. frozen_run; try done. apply wp_catch. by frozen_run.
  - by apply (quiet_aggregate _ _ _ HA).
  - by apply (wp_overriding _ _ _ HA).
  - by apply (wp_overriding _ _ _ HA).
Qed.
End freeze.

(** C10: A freeze holds every circuit. While the emergency level stays at LEVEL_3,
    no interleaving of traffic, background passes and aggregate reads changes the
    state of any circuit, on any thread, at any point: only operators move it. *)
Theorem freeze_holds_every_circuit {R} `{RepositoryLaws R} ops (w : world R) d ts w' n :
  Forall (λ o, automatic o = true) ops →
  world_ok w → is_lockdown (emergency w) = true →
  exec frozen_outside (λ _ _, 0) (body <$> ops, w) d (ts, w') →
  token (repo w') n = token (repo w) n.
Proof.
  intros Hops Hw He Hexec.
  enough (frozen (token (repo w)) w') as (_ & _ & Ht) by apply Ht.
  eapply (exec_invariant frozen_outside); [| | |exact Hexec].
  - intros v v' (Hv & _ & Ht) [Ho Hl]. by destruct Ho.
  - done.
  - apply Forall_fmap. eapply Forall_impl; [done|]. by apply frozen_operation.
Qed.

(** A frozen process with one OPEN circuit past its recovery timeout. *)
Definition frozen_boot : world InMemoryCircuitBreakerStateRepository := {|
  repo := (trip_to_open 0 new_repository "db" 5).1; window := new_window; overrides := [];
  downstream_checkers := []; clock := seconds 600; config := default_config;
  emergency := AtLevel LEVEL_3; system_enabled := true; bus := BusUp; trace := [] |}.

Lemma tripped_boot_ok : rows_ok (trip_to_open 0 new_repository "db" 5).1.
Proof.
  assert (rows_ok new_repository) as Hr by apply (boot_ok default_config 0).
  exact (proj1 (proj1 (trip_goes 0 new_repository "db" 5 Hr))).
Qed.

Lemma freeze_holds_every_circuit_witness :
  ∃ d ts, exec frozen_outside (λ _ _, 0)
      (body <$> [OpAdmit "db"; OpSweep; OpFailure "db" []], frozen_boot) d
      (ts, run_all (body <$> [OpAdmit "db"; OpSweep; OpFailure "db" []]) frozen_boot) ∧
    token (repo (run_all (body <$> [OpAdmit "db"; OpSweep; OpFailure "db" []]) frozen_boot)) "db"
      = token (repo frozen_boot) "db".
Proof.
  destruct (exec_run_all frozen_outside (λ _ _, 0)
    (body <$> [OpAdmit "db"; OpSweep; OpFailure "db" []]) frozen_boot) as (d & ts & He & _).
  exists d, ts. split; [exact He|].
  eapply (freeze_holds_every_circuit [OpAdmit "db"; OpSweep; OpFailure "db" []] frozen_boot);
    [repeat constructor|apply tripped_boot_ok|reflexivity|exact He].
Defined.
