(* ===== verification/CBBlock.v ===== *)
(** * The operator's block

    An operator's block, once in force, is left alone by everything automatic
    until it expires; and the two schedules in which a call or a pass that began
    before the block overrides it all the same. *)

From S2P Require Import Prelude Interleave CBData OutcomeWindow CBInterface CBRepo.
From S2P Require Import CBService CBTokens CBRules CBEvents CBSafety.

Section block.
  Context {R : Type} `{RepositoryLaws R}.

(** A repository call on [name] that leaves the other rows as they are. *)
Definition frames {A} (f : Z → R → R * A) (name : string) : Prop :=
  ∀ now r, rows_ok r →
    rows_ok (f now r).1 ∧ ∀ n, n ≠ name → vw (f now r).1 n = vw r n.

Lemma frames_create name : frames (λ now r, r_get_or_create now r name) name.
Proof.
  intros now r Hr. split; [by apply get_or_create_stays|]. intros n Hn.
  pose proof (law_get_or_create now r name (proj1 Hr)) as Hl.
  destruct (r_get_or_create now r name). destruct Hl as (_ & Hc & _). by eapply changes_ne.
Qed.

Lemma frames_record_failure name : frames (λ now r, r_record_failure now r name) name.
Proof.
  intros now r Hr. split; [by apply record_failure_stays|]. intros n Hn.
  pose proof (law_record_failure now r name (proj1 Hr)) as Hl.
  destruct (r_record_failure now r name). destruct Hl as (_ & Hc & _). by eapply changes_ne.
Qed.

Lemma frames_clear_manual name p : frames (λ now r, r_clear_manual_control now r name p) name.
Proof.
  intros now r Hr. split; [by apply clear_manual_stays|]. intros n Hn.
  pose proof (law_clear_manual now r name p (proj1 Hr)) as Hl.
  destruct (r_clear_manual_control now r name p) as [r' []]; simpl.
  - destruct Hl as (_ & _ & Hc). by eapply changes_ne.
  - by destruct Hl as [-> _].
Qed.

Lemma frames_update name a :
  token_ok (u_state a) → frames (λ now r, r_update_state now r name a) name.
Proof.
  intros Ha now r Hr. pose proof (law_update_state now r name a (proj1 Hr)) as Hl.
  destruct (r_update_state now r name a) as [r' []]; simpl; [|by destruct Hl as [-> _]].
  destruct Hl as (Hok & _ & Hc).
  assert (token_ok (v_state (spec_update now a (vw r name)))) as Ht.
  { unfold spec_update. case_match; [apply Hr|done]. }
  split; [apply (changes_goes _ _ _ _ Hr Hok Hc Ht)|]. intros n Hn. by eapply changes_ne.
Qed.

Lemma frames_trip name fc : frames (λ now r, r_trip_to_open now r name fc) name.
Proof.
  intros now r Hr. pose proof (trip_goes now r name fc Hr) as Hg.
  pose proof (law_trip now r name fc (proj1 Hr)) as Hl.
  destruct (r_trip_to_open now r name fc) as [r' att], (spec_trip now fc (vw r name)) as [[v b] t].
  destruct Hl as (_ & Hc & _), Hg as [Hg _]. simpl.
  split; [destruct (did_open att); apply Hg|]. intros n Hn. by eapply changes_ne.
Qed.

Lemma frames_open_check name :
  frames (λ now r, r_record_failure_with_open_check now r name) name.
Proof.
  intros now r Hr. pose proof (open_check_goes now r name Hr) as Hg.
  pose proof (law_open_check now r name (proj1 Hr)) as Hl.
  destruct (r_record_failure_with_open_check now r name) as [r' att],
    (spec_open_check now (vw r name)) as [v b].
  destruct Hl as (_ & Hc & _). simpl.
  split; [destruct (did_open att); apply Hg|]. intros n Hn. by eapply changes_ne.
Qed.

Lemma frames_close_check name thr :
  frames (λ now r, r_record_success_with_close_check now r name thr) name.
Proof.
  intros now r Hr. pose proof (close_check_goes now r name thr Hr) as Hg.
  pose proof (law_close_check now r name thr (proj1 Hr)) as Hl.
  destruct (r_record_success_with_close_check now r name thr) as [r' att],
    (spec_close_check thr (vw r name)) as [v b].
  destruct Hl as (_ & Hc & _). simpl.
  split; [destruct (did_close att); apply Hg|]. intros n Hn. by eapply changes_ne.
Qed.

Lemma frames_acquire name limit stuck :
  frames (λ now r, r_try_acquire_half_open_slot now r name limit stuck) name.
Proof.
  intros now r Hr. pose proof (acquire_goes now r name limit stuck Hr) as Hg.
  pose proof (law_acquire now r name limit stuck (proj1 Hr)) as Hl.
  destruct (r_try_acquire_half_open_slot now r name limit stuck) as [r' [[ok p] q]],
    (branch_acquire now limit stuck (vw r name)) as [v res].
  destruct Hl as (_ & Hc & _). simpl.
  split; [case_match; apply Hg|]. intros n Hn. by eapply changes_ne.
Qed.

(** ** A block in force *)
Context (blocked : string) (V : cb_view).
Context (HV : v_state V = value OPEN).

Definition in_force (w : world R) : Prop :=
  world_ok w ∧ vw (repo w) blocked = V ∧ v_pinned (clock w) V = true.

Lemma in_force_frame {A} (f : Z → R → R * A) name w :
  frames f name → name ≠ blocked → in_force w →
  in_force (set_repo w (f (clock w) (repo w)).1).
Proof.
  intros Hf Hne (Hw & Hv & Hp). destruct (Hf (clock w) (repo w) Hw) as [Hr Hfr].
  split_and!; [done| |done]. simpl. by rewrite Hfr.
Qed.

Lemma in_force_create w name :
  in_force w → in_force (set_repo w (r_get_or_create (clock w) (repo w) name).1).
Proof.
  intros Hw. pose proof Hw as (Hok & Hv & Hp).
  destruct (decide (name = blocked)) as [->|Hne].
  - split_and!; [by apply (get_or_create_stays (clock w) (repo w) blocked)| |done]. simpl.
    pose proof (law_get_or_create (clock w) (repo w) blocked (proj1 Hok)) as Hl.
    destruct (r_get_or_create (clock w) (repo w) blocked). destruct Hl as (_ & Hc & _).
    simpl. by rewrite (changes_eq _ _ _ _ Hc).
  - by apply (in_force_frame (λ now r, r_get_or_create now r name) name);
      [apply frames_create|..].
Qed.

Lemma block_accounting : accounting in_force (λ _ _, 0) (λ _, 0).
Proof.
  split; intros; try done; [by destruct e|]. split; [|done]. by apply in_force_create.
Qed.

Let HA := block_accounting.
Notation wpb p n Φ := (wp in_force (λ _ _, 0) p n Φ).

Lemma wpb_now n (Φ : Z → exn + Z → Prop) :
  (∀ t, v_pinned t V = true → Φ n (inr t)) → wpb utc_now n Φ.
Proof. intros HΦ. apply (wp_ask_val _ _ _ HA). intros w (_ & _ & Hp). by apply HΦ. Qed.

Lemma wpb_create name n (Φ : Z → exn + CircuitBreakerStateData → Prop) :
  (∀ row, (name = blocked → view row = V) → Φ n (inr row)) →
  wpb (get_or_create_state name) n Φ.
Proof.
  intros HΦ. apply wp_storing. intros w Hw. pose proof (in_force_create w name Hw) as Hi.
  pose proof Hw as (Hok & Hv & _).
  pose proof (law_get_or_create (clock w) (repo w) name (proj1 Hok)) as Hl.
  destruct (r_get_or_create (clock w) (repo w) name) as [r row].
  destruct Hl as (_ & _ & Hrow & _). rewrite Z.add_0_r. split; [done|]. apply HΦ.
  intros ->. congruence.
Qed.

Lemma wpb_frame {A} (f : Z → R → R * A) name n (Φ : Z → exn + A → Prop) :
  frames f name → name ≠ blocked → (∀ a, Φ n (inr a)) → wpb (storing f) n Φ.
Proof.
  intros Hf Hne HΦ. apply wp_storing_still; [|done]. intros w Hw. split; [|done].
  by eapply in_force_frame.
Qed.

Lemma block_state row : view row = V → state row = value OPEN.
Proof. intros Hrow. by rewrite <-HV, <-Hrow. Qed.

(** The row of the blocked circuit: pinned at every reading, and OPEN. *)
Lemma block_row row t :
  view row = V → v_pinned t V = true →
  is_manual_pin_active t row = true ∧ is_operator_block_in_force t row = true.
Proof.
  intros Hrow Hp.
  assert (is_manual_pin_active t row = true) as Hpin by (rewrite <-Hp, <-Hrow; done).
  unfold is_operator_block_in_force, state_is. rewrite (block_state row Hrow), Hpin.
  split; [done|]. simpl. unfold is_manual_pin_active, manual_pin_is_active in Hpin.
  by apply andb_true_iff in Hpin as [-> _].
Qed.

(** Walk a method about another circuit, or past the blocked one's checks. *)
Ltac block_step :=
  lazymatch goal with
  | |- wp _ _ (storing _) _ _ =>
      eapply wpb_frame;
      [first [apply frames_record_failure | apply frames_trip | apply frames_open_check
             | apply frames_close_check | apply frames_acquire | apply frames_clear_manual
             | apply frames_update;
               first [apply (token_value CLOSED) | apply (token_value HALF_OPEN)]]
      |done|intros ?]
  | |- wp _ _ (get_effective_config _) _ _ =>
      apply (quiet_config _ _ _ HA); let e := fresh in let a := fresh in intros [e|a]
  | |- wp _ _ (record_rejection _ _) _ _ =>
      apply (quiet_rejection _ _ _ HA); let e := fresh in intros [e|[]]
  | |- wp _ _ (downstream_refuses _ _) _ _ =>
      apply (quiet_downstream _ _ _ HA); let e := fresh in let a := fresh in intros [e|a]
  | |- wp _ _ (success_fast_path _ _ _) _ _ =>
      apply (quiet_fast_path _ _ _ HA); let e := fresh in let a := fresh in intros [e|a]
  | |- wp _ _ (emit_event _ _ _ _ _ _) _ _ => apply (wp_emit _ _ _ HA); intros ?
  | |- wp _ _ (get_or_create_state _) _ _ =>
      apply wpb_create; let row := fresh "row" in let Hrow := fresh "Hrow" in intros row Hrow
  | |- wp _ _ utc_now _ _ =>
      apply wpb_now; let t := fresh "t" in let Ht := fresh "Ht" in intros t Ht
  | |- _ => wp_step
  end.
Ltac block_run := repeat block_step.

Lemma block_refusal row c n (Φ : Z → exn + option string → Prop) :
  view row = V → Φ n (inr (Some "open")) →
  wpb (admission_refusal_reason blocked row c) n Φ.
Proof.
  intros Hrow HΦ. unfold admission_refusal_reason. apply wp_ebind.
  assert (state_is row OPEN = true) as ->.
  { by apply state_is_true, block_state. }
  apply wp_ebind, wpb_now. intros t Ht. destruct (block_row row t Hrow Ht) as (_ & ->).
  block_run. apply HΦ.
Qed.

(** An admission of the blocked circuit refuses; of another one, whatever it
    does, it leaves the block alone. *)
Lemma block_admission name c :
  wpb (evaluate_admission name c) 0 (λ m r, m = 0 ∧
    (name = blocked → match r with inr d => allowed d = false | inl _ => True end)).
Proof.
  unfold evaluate_admission. destruct (decide (name = blocked)) as [->|Hne].
  - block_run; try done.
    + exfalso. match goal with E : state_is _ CLOSED = true |- _ => apply state_is_true in E end.
      rewrite block_state in *; [done|by auto].
    + apply block_refusal; [by auto|]. by block_run.
  - block_run; try done. apply (quiet_refusal _ _ _ HA). unfold admit_trial.
    intros [e|[why|]]; by block_run.
Qed.

Lemma block_failure name ctx : wpb (record_failure name ctx) 0 (λ m _, m = 0).
Proof.
  unfold record_failure, record_trial_failure, decide_trip, trip_if_due, trip_circuit_open, log_circuit_open_audit,
    apply_burn_rate_multiplier. cbv zeta.
  destruct (decide (name = blocked)) as [->|Hne]; [|block_run; done].
  block_run; try done;
    destruct (block_row row t) as [Hpin _]; try done; try (by auto); congruence.
Qed.

Lemma block_success name hint : wpb (record_success name hint) 0 (λ m _, m = 0).
Proof.
  unfold record_success, announce_close.
  destruct (decide (name = blocked)) as [->|Hne]; [|block_run; done].
  block_run; try done;
    destruct (block_row row t) as [Hpin _]; try done; try (by auto); congruence.
Qed.

(** A snapshot of the blocked row shows it under control; the sweep skips it. *)
Definition not_blocked (row : CircuitBreakerStateData) : Prop := service_name row ≠ blocked.

Lemma wpb_rows n (Φ : Z → exn + list CircuitBreakerStateData → Prop) :
  (∀ rows, (∀ row, row ∈ rows → service_name row = blocked → manually_controlled row = true) →
     Φ n (inr rows)) →
  wpb (ask (λ w, r_get_all_states (repo w))) n Φ.
Proof.
  intros HΦ. apply (wp_ask_val _ _ _ HA). intros w (Hw & Hv & Hp). apply HΦ.
  intros row Hin Hname. apply law_get_all_states in Hin; [|apply Hw].
  rewrite Hname in Hin. unfold vw in Hv. rewrite Hin in Hv. simpl in Hv.
  unfold v_pinned, manual_pin_is_active in Hp. rewrite <-Hv in Hp.
  by apply andb_true_iff in Hp as [? _].
Qed.

Lemma block_select rows n (Φ : Z → exn + list CircuitBreakerStateData → Prop) :
  Forall not_blocked rows →
  (∀ e, Φ n (inl e)) → (∀ due, Forall not_blocked due → Φ n (inr due)) →
  wpb (select_due rows) n Φ.
Proof.
  intros Hrows He. revert n Φ He. induction Hrows as [|s rows Hs Hrows IH]; intros n Φ He HΦ;
    cbn [select_due]; block_run; try (by apply HΦ); [by apply He| |by apply IH].
  apply IH; [done|]. intros due Hdue. block_run. apply HΦ. case_match; by repeat constructor.
Qed.

Lemma block_for_each due n (Φ : Z → exn + unit → Prop) :
  Forall not_blocked due → Φ n (inr ()) →
  wpb (for_each due (λ s,
    _ <- storing (λ now r, r_update_state now r (service_name s) to_half_open);; ret ())) n Φ.
Proof.
  intros Hdue HΦ. induction Hdue as [|s due Hs Hdue IH]; cbn [for_each]; block_run; done.
Qed.

Lemma block_sweep : wpb check_recovery_transitions 0 (λ m _, m = 0).
Proof.
  unfold check_recovery_transitions. do 3 block_step; [block_run; done|].
  apply wp_catch, wp_ebind, wpb_rows. intros rows Hrows. apply wp_ebind, block_select.
  - apply Forall_forall. intros row Hin Hname. apply list_elem_of_filter in Hin as [Hf Hin].
    rewrite (Hrows row Hin Hname), andb_false_r in Hf. done.
  - intros e. block_run. done.
  - intros due Hdue. block_run; try done. apply block_for_each; [done|]. block_run. done.
Qed.

Lemma block_expire now rows n (Φ : Z → exn + list string → Prop) :
  (∀ r, Φ n r) → wpb (expire_overrides now rows) n Φ.
Proof.
  revert n Φ. induction rows as [|s rows IH]; intros n Φ HΦ; cbn [expire_overrides];
    [block_run; apply HΦ|].
  apply wp_ebind. unfold expire_override. block_step.
  { block_run. apply IH. intros [e|l]; block_run; apply HΦ. }
  apply wp_ebind, (wp_ask_val _ _ _ HA). intros w (Hw & Hv & _).
  destruct (r_get_by_service_name (repo w) (service_name s)) as [row|] eqn:Hrow;
    [|block_run; apply IH; intros [e|l]; block_run; apply HΦ].
  pose proof (law_row_name _ _ _ (proj1 Hw) Hrow) as Hname.
  assert (service_name row = blocked → view row = V) as Hblk.
  { intros Hb. rewrite <-Hv. unfold vw. by rewrite <-Hb, Hname, Hrow. }
  destruct (decide (service_name row = blocked)) as [Hb|Hne].
  - block_run; try (apply IH; intros [e|l]; block_run; apply HΦ).
    all: destruct (block_row row t) as [Hpin _]; try done; try (by auto); congruence.
  - block_run; apply IH; intros [e|l]; block_run; apply HΦ.
Qed.

Lemma block_operation o :
  automatic o = true → settles in_force (λ _ _, 0) 0 (body (R := R) o).
Proof.
  intros Ho. destruct o; try discriminate Ho; apply settles_spawn.
  - unfold should_allow. block_run; try done.
    eapply wp_mono; [apply block_admission|]. intros m [e|d] [-> _]; block_run; done.
  - unfold should_allow_with_state. block_run; try done.
    eapply wp_mono; [apply block_admission|]. by intros m r [-> _].
  - apply block_failure.
  - apply block_success.
  - by apply (quiet_rejection _ _ _ HA).
  - unfold check_and_expire_manual_overrides. block_run. by apply block_expire.
  - apply block_sweep.
  - by apply (quiet_aggregate _ _ _ HA).
  - by apply (wp_overriding _ _ _ HA).
  - by apply (wp_overriding _ _ _ HA).
Qed.
End block.

(** The outside, while the block of [V] has not expired. *)
Definition before_expiry {R} (V : cb_view) (w w' : world R) : Prop :=
  outside w w' ∧ v_pinned (clock w') V = true.

(** C4: A block in force holds. Once an operator's OPEN override is in place and
    until it expires, no interleaving of automatic calls that begin under it
    (admissions, failures, successes, the recovery sweep, the expiry pass, ...)
    changes anything of the blocked circuit's row. *)
Theorem operator_block_holds {R} `{RepositoryLaws R} name ops (w : world R) d ts w' :
  Forall (λ o, automatic o = true) ops →
  world_ok w → v_state (vw (repo w) name) = value OPEN →
  v_pinned (clock w) (vw (repo w) name) = true →
  exec (before_expiry (vw (repo w) name)) (λ _ _, 0) (body <$> ops, w) d (ts, w') →
  vw (repo w') name = vw (repo w) name.
Proof.
  intros Hops Hw Hst Hp Hexec.
  enough (in_force name (vw (repo w) name) w') as (_ & Hv & _) by apply Hv.
  eapply (exec_invariant (before_expiry (vw (repo w) name))); [| | |exact Hexec].
  - intros v v' (Hv & Hvw & _) [Ho Hp']. by destruct Ho.
  - done.
  - apply Forall_fmap. eapply Forall_impl; [done|]. intros o. by apply block_operation.
Qed.

(** An operator's 30-minute block, one hour's recovery timeout long gone. *)
Definition blocked_world : world InMemoryCircuitBreakerStateRepository := {|
  repo := (atomic_force_open 0 new_repository "db" "maintenance" None (Some 30)).1;
  window := new_window; overrides := []; downstream_checkers := []; clock := seconds 600;
  config := default_config; emergency := NoManager; system_enabled := true; bus := BusUp; trace := [] |}.

Lemma blocked_world_ok : world_ok blocked_world.
Proof.
  assert (rows_ok new_repository) as Hr by apply (boot_ok default_config 0).
  exact (proj1 (proj1 (force_open_goes 0 new_repository "db" "maintenance" None (Some 30) Hr))).
Qed.

Lemma operator_block_holds_witness :
  let ops := [OpAdmit "db"; OpFailure "db" []; OpSweep; OpExpire; OpSuccess "db" None] in
  ∃ d ts, exec (before_expiry (vw (repo blocked_world) "db")) (λ _ _, 0)
      (body <$> ops, blocked_world) d (ts, run_all (body <$> ops) blocked_world) ∧
    vw (repo (run_all (body <$> ops) blocked_world)) "db" = vw (repo blocked_world) "db".
Proof.
  cbv zeta. set (ops := [_; _; _; _; _]).
  destruct (exec_run_all (before_expiry (vw (repo blocked_world) "db")) (λ _ _, 0)
    (body <$> ops) blocked_world) as (d & ts & He & _).
  exists d, ts. split; [exact He|].
  eapply (operator_block_holds "db" ops blocked_world);
    [repeat constructor|apply blocked_world_ok|reflexivity|reflexivity|exact He].
Defined.

(** ** The races

    Each of these is a schedule: a method suspended after some of its actions,
    another one run in the gap, the first one resumed. *)

Definition operator : actor := {| actor_id := "op"; actor_type := "user" |}.

(** A circuit that tripped and whose recovery timeout has elapsed. *)
Definition tripped_world : world InMemoryCircuitBreakerStateRepository := {|
  repo := (trip_to_open 0 new_repository "db" 5).1; window := new_window; overrides := [];
  downstream_checkers := []; clock := seconds 600; config := default_config;
  emergency := NoManager; system_enabled := true; bus := BusUp; trace := [] |}.

(** A block can be overridden by an admission that began before it. The
    admission reads the tripped row and passes its checks; the operator's
    force_open then succeeds and is reported in force; the resumed admission takes
    the trial slot all the same, moves the pinned row to HALF_OPEN, and the next
    call is admitted under the live block. The slot acquire has no pin check. *)
Theorem block_overridden_by_stale_admission :
  let '(w, admitted, forced) :=
    overtaken 6 (should_allow "db") (force_open operator "db" "maintenance" false VNone)
      tripped_world in
  (∃ res, forced = inr res ∧ success res = true ∧ new_state res = "open") ∧
  admitted = inr true ∧
  v_state (vw (repo w) "db") = "half_open" ∧ v_pinned (clock w) (vw (repo w) "db") = true ∧
  (run (should_allow "db") w).2 = inr true.
Proof. vm_compute. split; [by eexists|done]. Qed.

(** The recovery sweep can undo an operator's decision. It selects OPEN rows
    no operator controls and later writes HALF_OPEN without looking again: a block
    placed in between is turned into a trial window while its pin is live, and a
    forced-closed circuit is taken out of CLOSED. *)
Theorem sweep_overrides_operator :
  let '(w, swept, forced) :=
    overtaken 5 check_recovery_transitions
      (force_open operator "db" "maintenance" false VNone) tripped_world in
  let '(w', swept', closed) :=
    overtaken 5 check_recovery_transitions
      (force_close operator "db" "verified healthy" false false VNone) tripped_world in
  v_state (vw (repo w) "db") = "half_open" ∧ v_pinned (clock w) (vw (repo w) "db") = true ∧
  v_state (vw (repo w') "db") = "half_open" ∧ v_pinned (clock w') (vw (repo w') "db") = true.
Proof. vm_compute. done. Qed.

(** Extending an override can resurrect a block another operator lifted. The
    extension reads the row and writes its state back: a force_close in between,
    reported as a success and announced as CLOSED, is overwritten with OPEN, and
    no OPENED event says so. *)
Theorem extension_resurrects_block :
  let '(w, extended, closed) :=
    overtaken 1 (extend_manual_override "db" (VInt 30) None "")
      (force_close operator "db" "recovered" false false VNone) blocked_world in
  (∃ res, closed = inr res ∧ success res = true ∧ new_state res = "closed") ∧
  v_state (vw (repo w) "db") = "open" ∧ v_pinned (clock w) (vw (repo w) "db") = true ∧
  omap (λ e, match e with Emit ev => Some (ev_type ev) | _ => None end) (trace w)
    = [CIRCUIT_BREAKER_CLOSED].
Proof. vm_compute. split; [by eexists|done]. Qed.

(** The cell reconciliation deletes the rows of names the ring has moved to
    another cell, whatever their state: a tripped circuit's row is gone, its name
    reads as CLOSED again, and no event says so. *)
Theorem reconciliation_unannounced :
  let w0 := (run (force_open operator "db::cell-1" "hold" false VNone) (boot default_config 1000)).1 in
  let '(w, res) := run (reconcile_cb_cell_mapping (λ _, "cell-2")) w0 in
  v_state (vw (repo w0) "db::cell-1") = "open" ∧
  res = inr ["db::cell-1"] ∧ v_state (vw (repo w) "db::cell-1") = "closed" ∧ trace w = trace w0.
Proof. vm_compute. done. Qed.

(** A process with a lapsed mesh override that nobody has read since. *)
Definition lapsed_override_world : world InMemoryCircuitBreakerStateRepository := {|
  repo := new_repository; window := new_window;
  overrides := [("db", {| adjusted_failure_threshold := 2; adjusted_recovery_timeout := 5;
                          override_expires_at := 10 |})];
  downstream_checkers := []; clock := 11; config := default_config;
  emergency := NoManager; system_enabled := true; bus := BusUp; trace := [] |}.

(** Two calls that find the same lapsed threshold override race to remove it,
    and the loser's admission raises KeyError out of should_allow. *)
Theorem lapsed_override_race_raises :
  let '(_, first, second) :=
    overtaken 3 (should_allow "db") (should_allow "db") lapsed_override_world in
  second = inr true ∧ first = inl (KeyError "db").
Proof. vm_compute. done. Qed.
