(* ===== verification/CBLifecycle.v ===== *)
(** * One call at a time

    What each service method does when nothing runs between its steps, against
    any repository that follows the laws: the admission rule, the trip, the
    trial's two ends, and what an operator's calls leave behind. *)

From S2P Require Import Prelude Interleave CBData OutcomeWindow CBInterface CBRepo.
From S2P Require Import CBService CBTokens CBRules CBEvents CBSafety CBBlock.

Section lifecycle.
  Context {R : Type} `{RepositoryLaws R}.

(** ** The configuration in force *)
Definition effective (w : world R) (name : string) : CircuitBreakerConfig :=
  match dget (overrides w) name with
  | Some o => if override_expires_at o <? clock w then config w else with_override (config w) o
  | None => config w
  end.

(** The world after the configuration was read: a lapsed override is gone. *)
Definition after_config (w : world R) (name : string) : world R :=
  match dget (overrides w) name with
  | Some o =>
      if override_expires_at o <? clock w then set_overrides w (ddel (overrides w) name) else w
  | None => w
  end.

Lemma run_config w name :
  run (get_effective_config name) w = (after_config w name, inr (effective w name)).
Proof.
  unfold get_effective_config, lookup_override, pop_override, utc_now, ask, overriding,
    after_config, effective.
  autorewrite with run. simpl. destruct (dget (overrides w) name) as [o|] eqn:Ho; simpl.
  - autorewrite with run. simpl. rewrite Ho. autorewrite with run. simpl.
    destruct (override_expires_at o <? clock w) eqn:E; simpl;
      autorewrite with run; simpl; rewrite ?Ho; simpl; autorewrite with run; done.
  - done.
Qed.

Lemma after_config_same w name :
  repo (after_config w name) = repo w ∧ clock (after_config w name) = clock w ∧
  window (after_config w name) = window w ∧ emergency (after_config w name) = emergency w ∧
  config (after_config w name) = config w ∧
  downstream_checkers (after_config w name) = downstream_checkers w ∧
  trace (after_config w name) = trace w.
Proof. unfold after_config. by repeat case_match. Qed.

Lemma effective_after w name : effective (after_config w name) name = effective w name.
Proof.
  unfold after_config, effective. destruct (dget (overrides w) name) as [o|] eqn:Ho;
    [|by rewrite Ho].
  destruct (override_expires_at o <? clock w) eqn:E; simpl; [by rewrite dget_ddel_eq|].
  by rewrite Ho, E.
Qed.

Lemma run_ask {A} (f : world R → A) w : run (ask f) w = (w, inr (f w)).
Proof. unfold ask. by rewrite run_atomically. Qed.

Lemma run_storing {A} (f : Z → R → R * A) (w : world R) :
  run (storing f) w =
  (set_repo w (f (clock w) (repo w)).1, inr (f (clock w) (repo w)).2).
Proof. unfold storing. rewrite run_atomically. by destruct (f (clock w) (repo w)). Qed.

Lemma run_windowing {A} (f : OutcomeWindow → OutcomeWindow * A) (w : world R) :
  run (windowing f) w = (set_window w (f (window w)).1, inr (f (window w)).2).
Proof. unfold windowing. rewrite run_atomically. by destruct (f (window w)). Qed.

Lemma run_perform e (w : world R) : run (perform e) w = (add_effect w e, inr ()).
Proof. unfold perform. by rewrite run_atomically. Qed.
End lifecycle.

#[export] Hint Rewrite @run_config @run_ask @run_storing @run_windowing @run_perform : run.

(** ** The admission rule

    What a reader of the row may expect, with no program in sight: a CLOSED
    circuit admits; an OPEN one is held while an operator's block is in force,
    or until its recovery timeout has elapsed unless the block's own lift is due;
    a frozen one admits nothing; otherwise the trial slots decide. *)
Definition lift_due (now : Z) (v : cb_view) : bool :=
  v_controlled v && v_is v OPEN &&
  match v_expires v with
  | None => false
  | Some e => (e <=? now) && match v_opened_at v with None => true | Some o => o <=? e end
  end.

Definition held (now : Z) (c : CircuitBreakerConfig) (v : cb_view) : bool :=
  v_is v OPEN &&
  ((v_controlled v && v_pinned now v)
   || (negb (lift_due now v)
       && match v_opened_at v with
          | None => true
          | Some t => now - t <? seconds (recovery_timeout c)
          end)).

Definition admission_rule (now : Z) (c : CircuitBreakerConfig) (locked : bool) (v : cb_view) :
    bool * cb_view :=
  if v_is v CLOSED then (true, v)
  else if held now c v || locked then (false, v)
  else
    let '(v', (ok, _, _)) :=
      branch_acquire now (half_open_max_calls c) (half_open_stuck_timeout_seconds c) v in
    (ok, v').

Section admission.
  Context {R : Type} `{RepositoryLaws R}.

Lemma run_downstream name l (w : world R) :
  Forall (λ chk, chk name ≠ Some false) (downstream_checkers w) →
  run (downstream_refuses name l) w = (w, inr false).
Proof.
  intros Hc. induction l as [|i l IH]; cbn [downstream_refuses]; autorewrite with run; [done|].
  destruct (downstream_checkers w !! i) as [chk|] eqn:Hi; [|done].
  pose proof (Forall_lookup_1 _ _ _ _ Hc Hi) as Hchk. simpl in Hchk.
  by destruct (chk name) as [[]|].
Qed.

(** A method that touches no row and returns something [P] accepts; run alone,
    no reading of the configuration raises. *)
Definition inert {A} (p : eprog (world R) A) (P : A → Prop) : Prop :=
  ∀ w, ∃ w' a, run p w = (w', inr a) ∧ repo w' = repo w ∧ P a.

Lemma inert_bind {A B} (p : eprog (world R) A) (k : A → eprog (world R) B) Q P :
  inert p Q → (∀ a, Q a → inert (k a) P) → inert (ebind p k) P.
Proof.
  intros Hp Hk w. destruct (Hp w) as (w1 & a & Hr & Hw1 & Ha).
  destruct (Hk a Ha w1) as (w2 & b & Hr2 & Hw2 & Hb). exists w2, b.
  rewrite run_ebind, Hr, Hr2. split_and!; [done|congruence|done].
Qed.

Lemma inert_ret {A} (a : A) (P : A → Prop) : P a → inert (ret a) P.
Proof. intros Ha w. by exists w, a. Qed.

Lemma inert_ask {A} (f : world R → A) : inert (ask f) (λ _, True).
Proof. intros w. rewrite run_ask. by eexists _, _. Qed.

Lemma inert_windowing {A} f : inert (A := A) (windowing f) (λ _, True).
Proof. intros w. rewrite run_windowing. by eexists _, _. Qed.

Lemma inert_perform e : inert (perform e) (λ _, True).
Proof. intros w. rewrite run_perform. by eexists _, _. Qed.

Lemma inert_sending ev : inert (sending ev) (λ _, True).
Proof. intros w. by eexists _, _. Qed.

Lemma inert_config name : inert (get_effective_config name) (λ _, True).
Proof. intros w. rewrite run_config. eexists _, _. split_and!; [done|apply after_config_same|done]. Qed.

End admission.

Ltac inert_step :=
  cbv beta iota zeta;
  lazymatch goal with
  | |- inert (ebind _ _) _ => apply (inert_bind _ _ (λ _, True)); [|intros ? _]
  | |- inert (ret _) _ => by apply inert_ret
  | |- inert (ask _) _ => apply inert_ask
  | |- inert (windowing _) _ => apply inert_windowing
  | |- inert (perform _) _ => apply inert_perform
  | |- inert (sending _) _ => apply inert_sending
  | |- inert (get_effective_config _) _ => apply inert_config
  | |- inert (if ?b then _ else _) _ => destruct b
  | |- inert (match ?b with _ => _ end) _ => destruct b
  | |- inert ?p _ => let q := eval red in p in change p with q
  end.
Ltac inert_run := repeat inert_step.

Section leaving.
  Context {R : Type} `{RepositoryLaws R}.

(** What a run leaves: a result, and the one row it was about. *)
Definition leaves {A} (p : eprog (world R) A) (w : world R) (name : string)
    (v : cb_view) (P : A → Prop) : Prop :=
  ∃ w' a, run p w = (w', inr a) ∧ P a ∧ r_ok (repo w') ∧ changes (repo w) (repo w') name v.

(** After its repository call a method is inert. *)
Lemma leaves_storing {A B} (f : Z → R → R * A) (k : A → eprog (world R) B) w name v P r' a :
  f (clock w) (repo w) = (r', a) →
  r_ok r' → changes (repo w) r' name v → inert (k a) P →
  leaves (ebind (storing f) k) w name v P.
Proof.
  intros Hf Hok Hc Hk.
  destruct (Hk (set_repo w r')) as (w' & b & Hr & Hw & Hb). exists w', b.
  rewrite run_ebind, run_storing, Hf. simpl. rewrite Hr, Hw. done.
Qed.

(** Before it, it may have created the row and moved on. *)
Lemma leaves_create {A B} (p : eprog (world R) A) (k : A → eprog (world R) B) w w1 a name v P :
  run p w = (w1, inr a) →
  changes (repo w) (repo w1) name (vw (repo w) name) →
  leaves (k a) w1 name v P → leaves (ebind p k) w name v P.
Proof.
  intros Hp Hc (w' & b & Hr & Hb & Hok & Hc'). exists w', b. rewrite run_ebind, Hp.
  split_and!; [done..|]. intros n. rewrite (Hc' n), (Hc n). by case_decide.
Qed.

Lemma leaves_pre {A B} (p : eprog (world R) A) (k : A → eprog (world R) B) w w1 a name v P :
  run p w = (w1, inr a) → repo w1 = repo w →
  leaves (k a) w1 name v P → leaves (ebind p k) w name v P.
Proof.
  intros Hp Hw (w' & b & Hr & Hb & Hok & Hc'). exists w', b. rewrite run_ebind, Hp.
  rewrite Hw in Hc'. done.
Qed.

Lemma leaves_inert {A} (p : eprog (world R) A) w name P :
  r_ok (repo w) → present (repo w) name → inert p P → leaves p w name (vw (repo w) name) P.
Proof.
  intros Hok Hpr Hp. destruct (Hp w) as (w' & a & Hr & Hw & Ha). exists w', a.
  rewrite Hw. split_and!; [done..|]. intros n. case_decide; subst; [by apply seen_present|done].
Qed.

(** A decision on a row: whether it admits, and if it shows a CLOSED row, which. *)
Definition decides (ok : bool) (v : cb_view) (d : CircuitBreakerDecision) : Prop :=
  allowed d = ok ∧
  (state_is (decision_state d) CLOSED = true →
   view (decision_state d) = v).

Lemma acquire_not_closed now limit stuck v :
  v_is v CLOSED = false → (branch_acquire now limit stuck v).2.2 ≠ value CLOSED.
Proof.
  unfold branch_acquire, v_is. intros Hv%bool_decide_eq_false. repeat case_match; done.
Qed.

Lemma run_admit_trial name row c (w : world R) :
  r_ok (repo w) → view row = vw (repo w) name → v_is (vw (repo w) name) CLOSED = false →
  let '(v', (ok, _, _)) :=
    branch_acquire (clock w) (half_open_max_calls c) (half_open_stuck_timeout_seconds c)
      (vw (repo w) name) in
  leaves (admit_trial name row c) w name v' (decides ok v').
Proof.
  intros Hok Hrow Hcl.
  pose proof (acquire_not_closed (clock w) (half_open_max_calls c) (half_open_stuck_timeout_seconds c) _ Hcl) as Hnc.
  pose proof (law_acquire (clock w) (repo w) name (half_open_max_calls c)
    (half_open_stuck_timeout_seconds c) Hok) as Hl.
  destruct (r_try_acquire_half_open_slot _ _ _ _ _) as [r' [[ok prev] new]] eqn:Hf.
  destruct (branch_acquire _ _ _ _) as [v' [[ok' prev'] new']].
  destruct Hl as (Hok' & Hc & [= -> -> ->]).
  assert (state_is (if bool_decide (state row = new') then row else with_state row new') CLOSED ≠ true) as Hno.
  { intros He%state_is_true. apply Hnc. simpl. case_bool_decide as Hs; [by rewrite <-Hs|done]. }
  eapply leaves_storing; [exact Hf|done|done|]. inert_run; by split.
Qed.

Lemma run_refusal name row c (w : world R) :
  run (admission_refusal_reason name row c) w =
  (w, inr (if held (clock w) c (view row) then Some "open"
           else if is_lockdown (emergency w) then Some "frozen" else None)).
Proof.
  unfold admission_refusal_reason, utc_now, auto_transition_allowed, held,
    is_operator_block_in_force, is_pin_lift_due, lift_due, should_allow_state_change.
  autorewrite with run. simpl.
  change (v_is (view row) OPEN) with (state_is row OPEN).
  change (v_pinned (clock w) (view row)) with (is_manual_pin_active (clock w) row).
  destruct (state_is row OPEN); simpl; autorewrite with run; simpl;
    [|by destruct (is_lockdown (emergency w))].
  destruct (manually_controlled row && is_manual_pin_active (clock w) row); simpl;
    autorewrite with run; [done|]. simpl. rewrite andb_true_r.
  destruct (manually_controlled row && match manual_override_expires_at row with
            | Some e => (e <=? clock w) && match opened_at row with
                                           | Some o => o <=? e | None => true end
            | None => false end); simpl; autorewrite with run; simpl;
    [by destruct (is_lockdown (emergency w))|].
  destruct (opened_at row) as [t|]; autorewrite with run; simpl; [|done].
  destruct (clock w - t <? seconds (recovery_timeout c)); simpl; autorewrite with run; [done|].
  by destruct (is_lockdown (emergency w)).
Qed.

(** The row the method reads first, and the world it then continues in. *)
Lemma run_create name (w : world R) :
  r_ok (repo w) →
  ∃ r row, run (get_or_create_state name) w = (set_repo w r, inr row) ∧ r_ok r ∧
    changes (repo w) r name (vw (repo w) name) ∧ view row = vw (repo w) name ∧
    service_name row = name.
Proof.
  intros Hok. unfold get_or_create_state. rewrite run_storing.
  pose proof (law_get_or_create (clock w) (repo w) name Hok) as Hl.
  destruct (r_get_or_create (clock w) (repo w) name) as [r row].
  destruct Hl as (? & ? & ? & ?). by exists r, row.
Qed.

Lemma run_admission name c (w : world R) :
  r_ok (repo w) → Forall (λ chk, chk name ≠ Some false) (downstream_checkers w) →
  let '(ok, v') := admission_rule (clock w) c (is_lockdown (emergency w)) (vw (repo w) name) in
  leaves (evaluate_admission name c) w name v' (decides ok v').
Proof.
  intros Hok Hchk.
  destruct (run_create name w Hok) as (r & row & Hrun & Hr & Hc & Hrow & _).
  destruct (admission_rule _ _ _ _) as [ok v'] eqn:Hrule. unfold evaluate_admission.
  eapply leaves_pre; [apply run_ask|done|]. eapply leaves_pre; [by apply run_downstream|done|].
  cbv beta iota. eapply leaves_pre; [apply run_ask|done|].
  eapply leaves_create; [exact Hrun|exact Hc|].
  eapply leaves_pre; [apply run_windowing|done|].
  set (w1 := set_window _ _).
  assert (vw (repo w1) name = vw (repo w) name) as Hvw by (by apply (changes_eq _ _ _ _ Hc)).
  assert (present (repo w1) name) as Hpr by (by eapply changes_present).
  unfold admission_rule in Hrule. rewrite <-Hrow, v_is_view in Hrule.
  destruct (state_is row CLOSED) eqn:Hcl.
  { simplify_eq. rewrite Hrow, <-Hvw. apply leaves_inert; [done..|]. apply inert_ret. split; [done|]. intros _. cbn. by rewrite Hrow, ?Hvw. }
  eapply leaves_pre; [apply run_refusal|done|].
  change (clock w1) with (clock w). change (emergency w1) with (emergency w).
  destruct (held (clock w) c (view row)), (is_lockdown (emergency w)); simpl in Hrule; simplify_eq;
    try (rewrite Hrow, <-Hvw; apply leaves_inert; [done..|]; inert_run; apply inert_ret; split; [done|];
         intros _; cbn; (by rewrite Hrow, ?Hvw)).
  pose proof (run_admit_trial name row c w1 Hr) as Ht.
  rewrite Hvw, <-Hrow, v_is_view in Ht. specialize (Ht eq_refl Hcl). change (clock w1) with (clock w) in Ht.
  destruct (branch_acquire _ _ _ _) as [v1 [[ok1 p1] n1]]. by simplify_eq.
Qed.
End leaving.

Lemma leaves_should_allow {R} `{RepositoryLaws R} name (w : world R) :
  r_ok (repo w) → enabled (config w) = true →
  Forall (λ chk, chk name ≠ Some false) (downstream_checkers w) →
  let '(ok, v') := admission_rule (clock w) (effective w name) (is_lockdown (emergency w))
                     (vw (repo w) name) in
  leaves (should_allow name) w name v' (λ b, b = ok).
Proof.
  intros Hok Hen Hchk. destruct (after_config_same w name) as (E1 & E2 & _ & E4 & _ & E6 & _).
  pose proof (run_admission name (effective w name) (after_config w name)) as Ha.
  rewrite E1, E2, E4, E6 in Ha. specialize (Ha Hok Hchk).
  destruct (admission_rule _ _ _ _) as [ok v'] eqn:Hrule. unfold should_allow.
  eapply leaves_pre; [apply run_ask|done|]. cbv beta. rewrite Hen. cbv beta iota delta [negb].
  eapply leaves_pre; [apply run_config|done|].
  destruct Ha as (w' & d & Hr & [Hd _] & Hok' & Hc). exists w', (allowed d).
  rewrite run_ebind, Hr. rewrite E1 in *. by rewrite run_ret_e.
Qed.

Lemma leaves_admit {R} `{RepositoryLaws R} name (w : world R) :
  r_ok (repo w) → enabled (config w) = true →
  Forall (λ chk, chk name ≠ Some false) (downstream_checkers w) →
  let '(ok, v') := admission_rule (clock w) (effective w name) (is_lockdown (emergency w))
                     (vw (repo w) name) in
  leaves (should_allow_with_state name) w name v' (decides ok v').
Proof.
  intros Hok Hen Hchk. destruct (after_config_same w name) as (E1 & E2 & _ & E4 & _ & E6 & _).
  pose proof (run_admission name (effective w name) (after_config w name)) as Ha.
  rewrite E1, E2, E4, E6 in Ha. specialize (Ha Hok Hchk).
  destruct (admission_rule _ _ _ _) as [ok v'] eqn:Hrule. unfold should_allow_with_state.
  eapply leaves_pre; [apply run_ask|done|]. cbv beta. rewrite Hen. cbv beta iota delta [negb].
  by eapply leaves_pre; [apply run_config|done|].
Qed.

(** Admission follows its rule. Run on its own, should_allow decides exactly
    as the rule says from the row, the effective configuration, the clock and the
    freeze, whatever the repository's implementation, and leaves exactly the row
    the rule leaves: in particular an operator's block refuses until it expires,
    its lift is honoured at the expiry whatever the recovery timeout, and a freeze
    admits nothing that is not CLOSED. *)
Theorem should_allow_follows_rule {R} `{RepositoryLaws R} name (w : world R) :
  r_ok (repo w) → enabled (config w) = true →
  Forall (λ chk, chk name ≠ Some false) (downstream_checkers w) →
  let '(ok, v') := admission_rule (clock w) (effective w name) (is_lockdown (emergency w))
                     (vw (repo w) name) in
  leaves (should_allow name) w name v' (λ b, b = ok).
Proof. apply leaves_should_allow. Qed.

Lemma should_allow_follows_rule_witness :
  leaves (should_allow "db") blocked_world "db" (vw (repo blocked_world) "db") (λ b, b = false).
Proof.
  exact (should_allow_follows_rule "db" blocked_world (proj1 blocked_world_ok) eq_refl
    (List.Forall_nil _)).
Defined.

(** ** Recording a failure *)

(** The window once a failure of a row in state [st] has been recorded, up to the
    reading of the evidence. *)
Definition window_decided (o : OutcomeWindow) (name st : string) (size : Z) : OutcomeWindow :=
  let o := (observe_state o name st None).1 in
  if bool_decide (st = "closed") then OutcomeWindow.record_failure o name size else o.

Definition window_after_failure (o : OutcomeWindow) (name st : string) (size : Z) :
    OutcomeWindow :=
  let o := (observe_state o name st (Some (epoch_of o name))).1 in
  window_decided (end_write (begin_write o name) name) name st size.

(** What a failure does to the row: nothing under an override; a trial is lost;
    otherwise the count grows and the trip predicate, on the count and the
    evidence, opens a CLOSED circuit. A freeze withholds both transitions. *)
Definition failure_rule (now : Z) (c : CircuitBreakerConfig) (locked : bool)
    (evidence : Z * Z) (v : cb_view) : cb_view :=
  if v_pinned now v then v
  else if v_is v HALF_OPEN then if locked then v else (spec_open_check now v).1
  else
    let v1 := spec_record_failure now v in
    if v_is v CLOSED && bool_decide (is_Some (evaluate_trip (v_failures v1) evidence.1 evidence.2 c))
       && negb locked
    then (spec_trip now (v_failures v1) v1).1.1
    else v1.

Section failure.
  Context {R : Type} `{RepositoryLaws R}.

Lemma leaves_trip name row ctx c wf wt trig (w : world R) :
  r_ok (repo w) →
  leaves (trip_circuit_open name row ctx c wf wt trig) w name
    (spec_trip (clock w) (failure_count row) (vw (repo w) name)).1.1 (λ _, True).
Proof.
  intros Hok. pose proof (law_trip (clock w) (repo w) name (failure_count row) Hok) as Hl.
  destruct (r_trip_to_open (clock w) (repo w) name (failure_count row)) as [r' att] eqn:Hf.
  destruct (spec_trip _ _ _) as [[v' b] t]. destruct Hl as (Hok' & Hc & _ & _).
  unfold trip_circuit_open. cbv zeta. eapply leaves_storing; [exact Hf|done|done|]. inert_run.
Qed.

Lemma leaves_trial_failure name (w : world R) :
  r_ok (repo w) → present (repo w) name →
  leaves (record_trial_failure name) w name
    (if is_lockdown (emergency w) then vw (repo w) name
     else (spec_open_check (clock w) (vw (repo w) name)).1) (λ _, True).
Proof.
  intros Hok Hpr. unfold record_trial_failure.
  eapply leaves_pre; [apply run_ask|done|]. unfold should_allow_state_change.
  destruct (is_lockdown (emergency w)); cbv beta iota delta [negb].
  { apply leaves_inert; [done..|]. by apply inert_ret. }
  pose proof (law_open_check (clock w) (repo w) name Hok) as Hlaw.
  destruct (r_record_failure_with_open_check (clock w) (repo w) name) as [r' att] eqn:Hf.
  destruct (spec_open_check _ _) as [v' b]. destruct Hlaw as (Hok' & Hc & _ & _).
  eapply leaves_storing; [exact Hf|done|done|]. inert_run.
Qed.

(** The same, after a call that is not the last to touch the row. *)
Lemma leaves_store_then {A B} (f : Z → R → R * A) (k : A → eprog (world R) B) w name v1 v P r' a :
  f (clock w) (repo w) = (r', a) →
  changes (repo w) r' name v1 →
  leaves (k a) (set_repo w r') name v P → leaves (ebind (storing f) k) w name v P.
Proof.
  intros Hf Hc (w' & b & Hr & Hb & Hok & Hc'). exists w', b.
  rewrite run_ebind, run_storing, Hf. simpl. split_and!; [done..|].
  intros n. rewrite (Hc' n). simpl. rewrite (Hc n). by case_decide.
Qed.

(** The decision on the evidence in the window. *)
Lemma leaves_decision name ctx updated c (w : world R) :
  r_ok (repo w) → present (repo w) name →
  let evidence := OutcomeWindow.read (window w) name in
  leaves (trip_if_due name ctx updated c) w name
    (if state_is updated CLOSED
        && bool_decide (is_Some (evaluate_trip (failure_count updated) evidence.1 evidence.2 c))
        && negb (is_lockdown (emergency w))
     then (spec_trip (clock w) (failure_count updated) (vw (repo w) name)).1.1
     else vw (repo w) name) (λ _, True).
Proof.
  intros Hok Hpr evidence. unfold trip_if_due, should_open_circuit.
  eapply leaves_pre; [apply run_ask|done|]. cbv beta. fold evidence.
  change (bool_decide (state updated = "closed")) with (state_is updated CLOSED).
  rewrite (andb_comm (bool_decide _) (state_is updated CLOSED)).
  destruct (state_is updated CLOSED && bool_decide _);
    [|apply leaves_inert; [done..|]; by apply inert_ret].
  eapply leaves_pre; [apply run_ask|done|]. unfold should_allow_state_change. cbv beta.
  destruct (is_lockdown (emergency w)); cbv beta iota delta [negb andb];
    [apply leaves_inert; [done..|]; by apply inert_ret|].
  destruct (leaves_trip name updated ctx c evidence.1 evidence.2 "auto" w Hok)
    as (w' & att & Hr & _ & Hok' & Hc). exists w', (). by rewrite run_ebind, Hr.
Qed.

(** The decision half: the row stays as the write left it, or is tripped. *)
Lemma leaves_decide name ctx updated (w : world R) :
  r_ok (repo w) → present (repo w) name →
  let c := effective w name in
  let evidence :=
    OutcomeWindow.read (window_decided (window w) name (state updated) (sliding_window_size c))
      name in
  leaves (decide_trip name ctx updated) w name
    (if state_is updated CLOSED
        && bool_decide (is_Some (evaluate_trip (failure_count updated) evidence.1 evidence.2 c))
        && negb (is_lockdown (emergency w))
     then (spec_trip (clock w) (failure_count updated) (vw (repo w) name)).1.1
     else vw (repo w) name) (λ _, True).
Proof.
  intros Hok Hpr c evidence. unfold decide_trip.
  eapply leaves_pre; [apply run_windowing|done|].
  eapply leaves_pre; [apply run_config|apply after_config_same|].
  match goal with |- leaves _ (after_config ?u name) _ _ _ => set (w1 := u) end.
  change (effective w1 name) with c.
  destruct (after_config_same w1 name) as (E1 & E2 & E3 & E4 & _).
  set (w2 := after_config w1 name) in *. clearbody w2.
  change (repo w1) with (repo w) in E1. change (clock w1) with (clock w) in E2.
  change (emergency w1) with (emergency w) in E4.
  destruct (bool_decide (state updated = "closed")) eqn:Hst.
  - eapply leaves_pre; [apply run_windowing|done|]. rewrite E3.
    match goal with |- leaves _ ?u _ _ _ => pose proof (leaves_decision name ctx updated c u) as Hd
    end.
    simpl in Hd. rewrite E1, E2, E4 in Hd. specialize (Hd Hok Hpr).
    unfold evidence, window_decided. rewrite Hst. exact Hd.
  - eapply leaves_pre; [apply run_ret_e|done|].
    pose proof (leaves_decision name ctx updated c w2) as Hd.
    simpl in Hd. rewrite E1, E2, E3, E4 in Hd. specialize (Hd Hok Hpr).
    unfold evidence, window_decided. rewrite Hst. exact Hd.
Qed.
End failure.

Lemma leaves_record_failure {R} `{RepositoryLaws R} name ctx (w : world R) :
  r_ok (repo w) → enabled (config w) = true →
  let v := vw (repo w) name in
  let c := effective w name in
  let evidence :=
    OutcomeWindow.read (window_after_failure (window w) name (v_state v) (sliding_window_size c))
      name in
  leaves (record_failure name ctx) w name
    (failure_rule (clock w) c (is_lockdown (emergency w)) evidence v) (λ _, True).
Proof.
  intros Hok Hen v c evidence.
  destruct (run_create name w Hok) as (r & row & Hrun & Hr & Hc & Hrow & _).
  assert (state row = v_state v) as Hst0.
  { change (state row) with (v_state (view row)). by rewrite Hrow. }
  unfold record_failure.
  eapply leaves_pre; [apply run_ask|done|]. cbv beta. rewrite Hen. cbv beta iota delta [negb].
  eapply leaves_pre; [apply run_ask|done|]. eapply leaves_create; [exact Hrun|exact Hc|].
  eapply leaves_pre; [apply run_windowing|done|]. eapply leaves_pre; [apply run_ask|done|].
  rewrite Hst0. set (w1 := set_window _ _).
  assert (vw (repo w1) name = v) as Hvw by (by apply (changes_eq _ _ _ _ Hc)).
  assert (present (repo w1) name) as Hpr by (by eapply changes_present).
  cbv beta. change (clock w1) with (clock w).
  change (is_manual_pin_active (clock w) row) with (v_pinned (clock w) (view row)).
  rewrite <-(v_is_view row HALF_OPEN). fold v in Hrow. rewrite Hrow. unfold failure_rule.
  destruct (v_pinned (clock w) v) eqn:Hpin.
  { rewrite <-Hvw. apply leaves_inert; [done..|]. by apply inert_ret. }
  destruct (v_is v HALF_OPEN) eqn:Hho.
  { rewrite <-Hvw. by apply (leaves_trial_failure name w1). }
  eapply leaves_pre; [apply run_windowing|done|].
  set (w2 := set_window w1 _).
  pose proof (law_record_failure (clock w2) (repo w2) name Hr) as Hlaw.
  destruct (r_record_failure (clock w2) (repo w2) name) as [r' updated] eqn:Hf.
  change (vw (repo w2) name) with (vw (repo w1) name) in Hlaw. rewrite Hvw in Hlaw.
  destruct Hlaw as (Hok' & Hc' & Hupd). rewrite (changes_eq _ _ _ _ Hc') in Hupd.
  eapply leaves_store_then; [exact Hf|exact Hc'|].
  eapply leaves_pre; [apply run_windowing|done|].
  match goal with |- leaves _ ?u _ _ _ => set (w3 := u) end.
  assert (vw (repo w3) name = spec_record_failure (clock w) v) as Hv3
    by (by apply (changes_eq _ _ _ _ Hc')).
  pose proof (leaves_decide name ctx updated w3 Hok' (changes_present _ _ _ _ Hc')) as Hd.
  assert (state updated = v_state v ∧ failure_count updated = v_failures v + 1) as [Hs3 Hf3].
  { change (state updated) with (v_state (view updated)).
    change (failure_count updated) with (v_failures (view updated)). by rewrite Hupd. }
  unfold state_is in Hd. rewrite Hv3, Hs3, Hf3 in Hd.
  exact Hd.
Qed.

(** A failure does what its rule says. Run on its own, record_failure leaves
    exactly the row the rule gives, from the row it found, the effective
    configuration, the freeze and the evidence of the outcome window with this
    failure in it, for any repository that follows the laws. *)
Theorem record_failure_follows_rule {R} `{RepositoryLaws R} name ctx (w : world R) :
  r_ok (repo w) → enabled (config w) = true →
  let v := vw (repo w) name in
  let c := effective w name in
  let evidence :=
    OutcomeWindow.read (window_after_failure (window w) name (v_state v) (sliding_window_size c))
      name in
  leaves (record_failure name ctx) w name
    (failure_rule (clock w) c (is_lockdown (emergency w)) evidence v) (λ _, True).
Proof. apply leaves_record_failure. Qed.

Lemma record_failure_follows_rule_witness :
  leaves (record_failure "db" []) (boot default_config 1000) "db"
    (spec_record_failure 1000 fresh_view) (λ _, True).
Proof.
  exact (record_failure_follows_rule "db" [] (boot default_config 1000)
    (proj1 (boot_ok default_config 1000)) eq_refl).
Defined.

(** ** Recording a success *)

Definition success_rule (now : Z) (c : CircuitBreakerConfig) (locked : bool) (v : cb_view) :
    cb_view :=
  if v_pinned now v then v
  else if v_is v HALF_OPEN then if locked then v else (spec_close_check (success_threshold c) v).1
  else if v_is v CLOSED && negb (v_failures v =? 0) then spec_update now reset_consecutive v
  else v.

(** The trial branch of a success: the closing write, unless the freeze holds. *)
Lemma leaves_trial_success {R} `{RepositoryLaws R} name (c : CircuitBreakerConfig) (w : world R) :
  r_ok (repo w) → present (repo w) name →
  leaves (free <- auto_transition_allowed;;
          if negb free then ret ()
          else
            attempt <- storing (λ now r,
              r_record_success_with_close_check now r name (success_threshold c));;
            _ <- observing name (state (close_state attempt)) None;;
            if did_close attempt then announce_close name c else ret ()) w name
    (if is_lockdown (emergency w) then vw (repo w) name
     else (spec_close_check (success_threshold c) (vw (repo w) name)).1) (λ _, True).
Proof.
  intros Hok Hpr. eapply leaves_pre; [apply run_ask|done|]. unfold should_allow_state_change.
  cbv beta. destruct (is_lockdown (emergency w)); cbv beta iota delta [negb].
  { apply leaves_inert; [done..|]. by apply inert_ret. }
  pose proof (law_close_check (clock w) (repo w) name (success_threshold c) Hok) as Hlaw.
  destruct (r_record_success_with_close_check _ _ _ _) as [r' att] eqn:Hf.
  destruct (spec_close_check _ _) as [v' b]. destruct Hlaw as (Hok' & Hc' & _ & _).
  eapply leaves_storing; [exact Hf|done|done|]. inert_run.
Qed.

(** The CLOSED branch: consecutive failures are forgotten. *)
Lemma leaves_closed_success {R} `{RepositoryLaws R} name size epoch failures (w : world R) :
  r_ok (repo w) → present (repo w) name →
  leaves (_ <- windowing (λ o, record_success_if_epoch o name size epoch false);;
          if negb (failures =? 0) then
            _ <- storing (λ now r, r_update_state now r name reset_consecutive);;
            ret ()
          else ret ()) w name
    (if negb (failures =? 0) then spec_update (clock w) reset_consecutive (vw (repo w) name)
     else vw (repo w) name) (λ _, True).
Proof.
  intros Hok Hpr. eapply leaves_pre; [apply run_windowing|done|]. set (w2 := set_window w _).
  destruct (failures =? 0); cbv beta iota delta [negb].
  { apply (leaves_inert _ w2); [done..|]. by apply inert_ret. }
  pose proof (law_update_state (clock w2) (repo w2) name reset_consecutive Hok) as Hlaw.
  destruct (r_update_state _ _ _ _) as [r' ok] eqn:Hf.
  destruct ok; [|by destruct Hlaw as [_ []]]. destruct Hlaw as (Hok' & _ & Hc').
  eapply leaves_storing; [exact Hf|done|done|]. inert_run.
Qed.

(** The fast path leaves everything but the window, and is taken only on the
    word of the hint. *)
Lemma run_fast_path {R} `{RepositoryLaws R} name c hint (w : world R) :
  ∃ w' b, run (success_fast_path name c hint) w = (w', inr b) ∧ repo w' = repo w ∧ clock w' = clock w ∧
    emergency w' = emergency w ∧
    (b = true → ∃ h, hint = Some h ∧ state_is (hint_state h) CLOSED = true ∧
       is_manual_pin_active (clock w) (hint_state h) = false ∧ (failure_count (hint_state h) =? 0) = true).
Proof.
  unfold success_fast_path. destruct hint as [h|]; [|by exists w, false].
  destruct (bool_decide (service_name (hint_state h) = name) && state_is (hint_state h) CLOSED) eqn:Hh;
    [|by exists w, false]. apply andb_true_iff in Hh as [_ Hst].
  unfold utc_now. rewrite run_ebind, run_ask.
  destruct (negb (is_manual_pin_active (clock w) (hint_state h)) && (failure_count (hint_state h) =? 0)) eqn:Hp;
    [|by exists w, false]. apply andb_true_iff in Hp as [Hp%negb_true_iff Hf].
  rewrite run_windowing. eexists _, _. split; [done|]. split_and!; [done..|]. intros _. by exists h.
Qed.

(** A success does what its rule says. Run on its own, without a hint or with one
    that shows the row as it is, record_success counts a trial success and closes the circuit exactly when the
    count reaches the success threshold, forgets the consecutive failures of a
    CLOSED circuit, and leaves every other row (pinned, OPEN, frozen trial) as it
    was. *)
Lemma leaves_record_success {R} `{RepositoryLaws R} name hint (w : world R) :
  r_ok (repo w) → enabled (config w) = true → present (repo w) name ∨ hint = None →
  let v := vw (repo w) name in
  (∀ h, hint = Some h → state_is (hint_state h) CLOSED = true → view (hint_state h) = v) →
  leaves (record_success name hint) w name
    (success_rule (clock w) (effective w name) (is_lockdown (emergency w)) v) (λ _, True).
Proof.
  intros Hok Hen Hex v Hhint. unfold record_success.
  eapply leaves_pre; [apply run_ask|done|]. cbv beta. rewrite Hen. cbv beta iota delta [negb].
  eapply leaves_pre; [apply run_config|apply after_config_same|].
  destruct (after_config_same w name) as (E1 & E2 & _ & E4 & _).
  set (c := effective w name). set (w0 := after_config w name) in *. clearbody w0.
  rewrite <-E1 in Hok.
  destruct (run_fast_path name c hint w0) as (w0' & b & Hfast & E1' & E2' & E4' & Hb).
  eapply leaves_pre; [exact Hfast|done|]. rewrite <-E1' in Hok, E1. rewrite <-E2' in E2.
  rewrite <-E4' in E4. destruct b.
  { destruct (Hb eq_refl) as (h & -> & Hst & Hpin & Hf0). destruct Hex as [Hex|]; [|done].
    rewrite <-(Hhint h eq_refl Hst) in *. unfold success_rule.
    change (v_pinned (clock w) (view (hint_state h))) with (is_manual_pin_active (clock w) (hint_state h)).
    rewrite <-E2, E2', Hpin. rewrite !v_is_view, Hst. apply state_is_true in Hst.
    change (v_failures (view (hint_state h))) with (failure_count (hint_state h)). rewrite Hf0. cbn [negb andb].
    unfold state_is. rewrite Hst. cbn. rewrite (Hhint h eq_refl) by (by apply state_is_true). unfold v.
    rewrite <-E1. apply leaves_inert; [done|by rewrite E1|by apply inert_ret]. }
  clear Hb Hfast Hex. clear w0 E1' E2' E4'. rename w0' into w0.
  destruct (run_create name w0 Hok) as (r & row & Hrun & Hr & Hc & Hrow & _).
  rewrite E1 in Hrow. fold v in Hrow.
  eapply leaves_pre; [apply run_ask|done|]. eapply leaves_create; [exact Hrun|exact Hc|].
  eapply leaves_pre; [apply run_windowing|done|]. eapply leaves_pre; [apply run_ask|done|].
  set (w1 := set_window _ _).
  assert (vw (repo w1) name = v) as Hvw by (unfold v; rewrite <-E1; by apply (changes_eq _ _ _ _ Hc)).
  assert (present (repo w1) name) as Hpr by (by eapply changes_present).
  cbv beta. change (clock w1) with (clock w0). rewrite E2.
  change (is_manual_pin_active (clock w) row) with (v_pinned (clock w) (view row)).
  change (bool_decide (state row = "half_open")) with (v_is (view row) HALF_OPEN).
  change (bool_decide (state row = "closed")) with (v_is (view row) CLOSED).
  change (failure_count row) with (v_failures (view row)).
  rewrite Hrow. unfold success_rule.
  destruct (v_pinned (clock w) v).
  { rewrite <-Hvw. apply leaves_inert; [done..|]. by apply inert_ret. }
  rewrite <-E4, <-E2, <-Hvw. change (emergency w0) with (emergency w1).
  change (clock w0) with (clock w1).
  destruct (v_is (vw (repo w1) name) HALF_OPEN); [by apply leaves_trial_success|].
  destruct (v_is (vw (repo w1) name) CLOSED); cbv beta iota delta [andb];
    [|apply leaves_inert; [done..|]; by apply inert_ret].
  by apply leaves_closed_success.
Qed.

Theorem record_success_follows_rule {R} `{RepositoryLaws R} name (w : world R) :
  r_ok (repo w) → enabled (config w) = true →
  let v := vw (repo w) name in
  leaves (record_success name None) w name
    (success_rule (clock w) (effective w name) (is_lockdown (emergency w)) v) (λ _, True).
Proof. intros Hok Hen v. apply leaves_record_success; [done|done|by right|done]. Qed.

Lemma record_success_follows_rule_witness :
  leaves (record_success "db" None) (boot default_config 1000) "db" fresh_view (λ _, True).
Proof.
  exact (record_success_follows_rule "db" (boot default_config 1000)
    (proj1 (boot_ok default_config 1000)) eq_refl).
Defined.

(** ** The operator's block, from its placing to its lift *)
Section operator_calls.
  Context {R : Type} `{RepositoryLaws R}.

(** The minutes a force holds for. *)
Definition force_minutes (w : world R) (ttl : pyval) : Z :=
  match ttl with VInt t => t | _ => manual_override_ttl_minutes (config w) end.

Lemma run_ttl ttl (w : world R) : run (ttl_in_force ttl) w = (w, inr (Some (force_minutes w ttl))).
Proof. by destruct ttl; unfold ttl_in_force, force_minutes; rewrite ?run_ebind, ?run_ask. Qed.

Lemma run_kill_switch name action reason ov (w : world R) :
  system_enabled w || ov = true →
  ∃ w', run (check_kill_switch name action reason ov) w = (w', inr None) ∧ repo w' = repo w ∧
    clock w' = clock w ∧ config w' = config w.
Proof.
  intros Hen. unfold check_kill_switch, is_system_enabled. autorewrite with run. simpl.
  destruct (system_enabled w); simpl; autorewrite with run; [by exists w|].
  simpl in Hen. subst. simpl.
  autorewrite with run. by eexists.
Qed.

(** After a force: the stored expiry is read back and the trial window of the
    forced row, already empty, is cleared again. *)
Lemma leaves_after_force {B} name v (k : option Z → eprog (world R) B) (w : world R) P :
  r_ok (repo w) → seen (repo w) name = Some v → spec_reset_half_open v = v →
  (inert (k (v_expires v)) P) →
  leaves (exp <- read_back_override_expiry name;; _ <- clearing name;; _ <- reset_half_open name;;
          k exp) w name v P.
Proof.
  intros Hok Hseen Hv Hk. unfold read_back_override_expiry.
  assert (vw (repo w) name = v) as Hvw by (by rewrite vw_seen, Hseen).
  assert (present (repo w) name) as Hpr by (by rewrite present_seen, Hseen).
  eapply leaves_pre; [rewrite run_ebind, run_ask; cbv beta iota; apply run_ret_e|done|].
  assert (match r_get_by_service_name (repo w) name with
          | Some s => manual_override_expires_at s | None => None end = v_expires v) as ->.
  { unfold seen in Hseen. destruct (r_get_by_service_name (repo w) name); [|done].
    simpl in Hseen. injection Hseen as Hview. by rewrite <-Hview. }
  eapply leaves_pre; [apply run_windowing|done|]. set (w1 := set_window w _).
  destruct (law_reset_half_open (clock w1) (repo w1) name Hok) as [Hin _].
  destruct (Hin Hpr) as [Hok' Hc]. change (repo w1) with (repo w) in Hc.
  rewrite Hvw, Hv in Hc. eapply leaves_storing; [done|exact Hok'|exact Hc|exact Hk].
Qed.

Lemma leaves_force_open who name reason ov ttl (w : world R) :
  r_ok (repo w) → reject_out_of_range_ttl name ttl = None → system_enabled w || ov = true →
  leaves (force_open who name reason ov ttl) w name
    (spec_force_open (clock w) reason None (Some (force_minutes w ttl)) (vw (repo w) name))
    (λ res, success res = true ∧ previous_state res = v_state (vw (repo w) name) ∧
       new_state res = "open" ∧
       expires_at res
         = resolve_manual_override_expiry (clock w) (Some (force_minutes w ttl))).
Proof.
  intros Hok Httl Hen. unfold force_open. rewrite Httl.
  destruct (run_kill_switch name "force_open" reason ov w Hen) as (w0 & Hr & E1 & E2 & E3).
  eapply leaves_pre; [exact Hr|done|]. cbv beta iota. eapply leaves_pre; [apply run_ttl|done|].
  assert (force_minutes w0 ttl = force_minutes w ttl) as -> by (unfold force_minutes; by rewrite E3).
  set (t := Some (force_minutes w ttl)). rewrite <-E1 in *. rewrite <-E2.
  pose proof (law_force_open (clock w0) (repo w0) name reason None t Hok) as Hl.
  destruct (r_atomic_force_open (clock w0) (repo w0) name reason None t)
    as [r' [[ok prev] new]] eqn:Hf.
  destruct Hl as (Hok' & -> & -> & -> & Hc).
  eapply leaves_store_then; [exact Hf|exact Hc|]. cbv beta iota.
  apply leaves_after_force; [done| |done|].
  - simpl. rewrite Hc. by rewrite decide_True.
  - inert_run.
Qed.
End operator_calls.

(** The rule on a freshly forced row: refused before the expiry, a trial after. *)
Lemma rule_on_forced_row now0 reason by_id m v now c :
  1 <= m →
  (admission_rule now c false (spec_force_open now0 reason by_id (Some m) v)).1
    = bool_decide (now0 + minutes m <= now).
Proof.
  intros Hm. set (v' := spec_force_open now0 reason by_id (Some m) v).
  assert (v_expires v' = Some (now0 + minutes m)) as Hx.
  { simpl. by rewrite (proj2 (Z.leb_gt _ _)) by lia. }
  assert (now0 <= now0 + minutes m) as Hle by (unfold minutes, seconds, US_PER_SECOND; lia).
  assert (v_is v' CLOSED = false ∧ v_is v' OPEN = true ∧ v_is v' HALF_OPEN = false)
    as (H1 & H2 & H3) by done.
  unfold admission_rule, held, lift_due, v_pinned, manual_pin_is_active, branch_acquire.
  rewrite H1, H2, H3, Hx. change (v_controlled v') with true.
  change (v_opened_at v') with (Some now0). simpl.
  rewrite (proj2 (Z.leb_le _ _) Hle), andb_true_r.
  case_bool_decide as Hb.
  - rewrite (proj2 (Z.ltb_ge _ _)), (proj2 (Z.leb_le _ _)) by lia. done.
  - rewrite (proj2 (Z.ltb_lt _ _)) by lia. done.
Qed.

(** A block lasts exactly as long as it was placed for. When force_open
    succeeds at time [now] it reports the expiry it stored, and an admission at
    any later time, nothing else having touched the row and no freeze being in
    force, refuses before that expiry and is admitted as a trial from it on,
    whatever the recovery timeout. *)
Theorem block_lasts_until_expiry {R} `{RepositoryLaws R} who name reason ov ttl (w : world R) :
  r_ok (repo w) → reject_out_of_range_ttl name ttl = None → system_enabled w || ov = true →
  1 <= force_minutes w ttl →
  let expiry := clock w + minutes (force_minutes w ttl) in
  ∃ w1 res, run (force_open who name reason ov ttl) w = (w1, inr res) ∧
    success res = true ∧ expires_at res = Some expiry ∧
    ∀ w2, repo w2 = repo w1 → enabled (config w2) = true → is_lockdown (emergency w2) = false →
      Forall (λ chk, chk name ≠ Some false) (downstream_checkers w2) →
      (run (should_allow name) w2).2 = inr (bool_decide (expiry <= clock w2)).
Proof.
  intros Hok Httl Hen Hpos expiry.
  destruct (leaves_force_open who name reason ov ttl w Hok Httl Hen)
    as (w1 & res & Hr & (Hs & _ & _ & He) & Hok1 & Hc).
  assert (resolve_manual_override_expiry (clock w) (Some (force_minutes w ttl)) = Some expiry) as Hx.
  { simpl. by rewrite (proj2 (Z.leb_gt _ _)) by lia. }
  exists w1, res. split_and!; [done|done|congruence|].
  intros w2 E Hen2 Hlock Hchk.
  pose proof (leaves_should_allow name w2) as Ha. rewrite E, Hlock in Ha.
  specialize (Ha Hok1 Hen2 Hchk). rewrite (changes_eq _ _ _ _ Hc) in Ha.
  unfold expiry. rewrite <-(rule_on_forced_row (clock w) reason None _ (vw (repo w) name) (clock w2)
    (effective w2 name)) by done.
  destruct (admission_rule _ _ _ _) as [ok v']. destruct Ha as (w' & b & -> & -> & _). done.
Qed.

Lemma block_lasts_until_expiry_witness :
  let w := boot default_config 1000 in
  ∃ w1 res, run (force_open operator "db" "maintenance" false (VInt 30)) w = (w1, inr res) ∧
    expires_at res = Some (1000 + minutes 30) ∧
    (run (should_allow "db") w1).2 = inr false.
Proof.
  cbv zeta.
  destruct (block_lasts_until_expiry operator "db" "maintenance" false (VInt 30)
    (boot default_config 1000) (proj1 (boot_ok default_config 1000)) eq_refl eq_refl ltac:(done))
    as (w1 & res & Hr & Hs & He & Hall).
  exists w1, res. split; [exact Hr|split; [exact He|]].
  assert (w1 = (run (force_open operator "db" "maintenance" false (VInt 30))
    (boot default_config 1000)).1) as -> by (rewrite Hr; reflexivity).
  rewrite Hall; [reflexivity|reflexivity|reflexivity|reflexivity|constructor].
Defined.
