(* ===== verification/DLQRepo.v ===== *)
(** * The in-memory dead-letter queue

    Models [adapters/memory/failed_operation.py] and the entry of
    [interfaces/repositories.py]: entries under string ids, the three secondary
    indexes, the replay lifecycle, cleanup, the size cap's eviction, and the
    paged selection of replayable entries.  Every method holds the repository's
    lock for each of its critical sections and is a function on the store; the
    two evictions release it between selecting and deleting and are programs of
    atomic steps.  The clock readings of one critical section coincide.  Python
    sets are [gset]s, and the order in which one is iterated is a parameter.  A
    selection cursor is the position it encodes, (creation time, id): the source
    renders it to a string at microsecond precision and reads it back. *)

From stdpp Require Import pretty sorting.
From S2P Require Import Prelude Interleave.

(** ** Entries *)
Definition PENDING : string := "pending".
Definition REPLAYING : string := "replaying".
Definition REVIEWING : string := "reviewing".
Definition REQUIRES_REVIEW : string := "requires_review".
Definition RESOLVED : string := "resolved".
Definition REJECTED : string := "rejected".
Definition ARCHIVED : string := "archived".

Record FailedOperationData : Type := {
  id : string;
  domain : string;
  failure_type : string;
  status : string;
  entity_type : option string;
  entity_id : option string;
  entity_refs : dict string pyval;
  user_id : option Z;
  snapshot_data : dict string pyval;
  error_code : string;
  error_message : string;
  retry_count : Z;
  max_retries : Z;
  last_retry_at : option Z;
  request_data : dict string pyval;
  response_data : dict string pyval;
  metadata : dict string pyval;
  resolved_at : option Z;
  resolved_by_id : option Z;
  resolution_type : string;
  resolution_note : string;
  next_action_hint : string;
  recommended_action : string;
  created_at : option Z;
  updated_at : option Z;
  expires_at : option Z;
}.

Definition can_retry (e : FailedOperationData) : bool := retry_count e <? max_retries e.

Definition STALE_RELEASE_AT_CAP_NOTE : string := "interrupted on its last allowed attempt".

Definition TERMINAL_STATUSES : list string := [RESOLVED; REJECTED; ARCHIVED].
Definition EVICTION_PROTECTED_STATUSES : list string := [REPLAYING; REVIEWING].
Definition NON_EVICTABLE_STATUSES : list string :=
  TERMINAL_STATUSES ++ EVICTION_PROTECTED_STATUSES.

Definition status_in (l : list string) (e : FailedOperationData) : bool :=
  bool_decide (status e ∈ l).

(** A summary of evicted entries. *)
Record DLQCompressedEntry : Type := {
  z_id : string;
  z_domain : string;
  z_failure_type : string;
  z_error_code : string;
  z_count : Z;
  z_first_seen : Z;
  z_last_seen : Z;
  z_sample_error_message : string;
  z_sample_context : dict string pyval;
  z_status : string;
  z_compressed_at : Z;
  z_stale_at : option Z;
  z_archived_at : option Z;
}.
Definition Z_ACTIVE : string := "active".
Definition Z_STALE : string := "stale".
Definition Z_ARCHIVED : string := "archived".

(** ** The store *)
Record InMemoryFailedOperationRepository : Type := {
  storage : dict string FailedOperationData;
  next_id : Z;
  index_by_status : dict string (gset string);
  index_by_domain : dict string (gset string);
  index_by_status_domain : dict (string * string) (gset string);
  compressed_storage : dict string DLQCompressedEntry;
}.

Definition new_store : InMemoryFailedOperationRepository := {|
  storage := []; next_id := 1; index_by_status := []; index_by_domain := [];
  index_by_status_domain := []; compressed_storage := [] |}.

(** [self._index.get(key, set())] *)
Definition bucket {K} `{EqDecision K} (d : dict K (gset string)) (k : K) : gset string :=
  default ∅ (dget d k).

(** [if key not in index: index[key] = set()] / [index[key].add(x)] *)
Definition bucket_add {K} `{EqDecision K} (d : dict K (gset string)) (k : K) (x : string) :
    dict K (gset string) := dset d k (bucket d k ∪ {[x]}).

(** [if key in index: index[key].discard(x)] *)
Definition bucket_discard {K} `{EqDecision K} (d : dict K (gset string)) (k : K) (x : string) :
    dict K (gset string) :=
  match dget d k with None => d | Some s => dset d k (s ∖ {[x]}) end.

Definition add_to_index (self : InMemoryFailedOperationRepository) (eid st dom : string) :
    InMemoryFailedOperationRepository := {|
  storage := storage self; next_id := next_id self;
  index_by_status := bucket_add (index_by_status self) st eid;
  index_by_domain := bucket_add (index_by_domain self) dom eid;
  index_by_status_domain := bucket_add (index_by_status_domain self) (st, dom) eid;
  compressed_storage := compressed_storage self |}.

Definition remove_from_index (self : InMemoryFailedOperationRepository) (eid st dom : string) :
    InMemoryFailedOperationRepository := {|
  storage := storage self; next_id := next_id self;
  index_by_status := bucket_discard (index_by_status self) st eid;
  index_by_domain := bucket_discard (index_by_domain self) dom eid;
  index_by_status_domain := bucket_discard (index_by_status_domain self) (st, dom) eid;
  compressed_storage := compressed_storage self |}.

Definition update_index_status (self : InMemoryFailedOperationRepository)
    (eid old_status new_status dom : string) : InMemoryFailedOperationRepository :=
  add_to_index (remove_from_index self eid old_status dom) eid new_status dom.

(** [self._storage[id] = entry] / [del self._storage[id]] *)
Definition put (self : InMemoryFailedOperationRepository) (eid : string)
    (e : FailedOperationData) : InMemoryFailedOperationRepository := {|
  storage := dset (storage self) eid e; next_id := next_id self;
  index_by_status := index_by_status self; index_by_domain := index_by_domain self;
  index_by_status_domain := index_by_status_domain self;
  compressed_storage := compressed_storage self |}.

Definition erase (self : InMemoryFailedOperationRepository) (eid : string) :
    InMemoryFailedOperationRepository := {|
  storage := ddel (storage self) eid; next_id := next_id self;
  index_by_status := index_by_status self; index_by_domain := index_by_domain self;
  index_by_status_domain := index_by_status_domain self;
  compressed_storage := compressed_storage self |}.

(** ** Creation and copies *)
Record create_args : Type := {
  c_domain : string; c_failure_type : string; c_error_message : string; c_error_code : string;
  c_entity_type : option string; c_entity_id : option string; c_entity_refs : dict string pyval;
  c_user_id : option Z; c_snapshot_data : dict string pyval;
  c_request_data : dict string pyval; c_response_data : dict string pyval;
  c_metadata : dict string pyval; c_retry_count : Z; c_max_retries : Z;
  c_next_action_hint : string; c_recommended_action : string; c_expires_at : option Z;
}.

Definition create (now : Z) (self : InMemoryFailedOperationRepository) (a : create_args) :
    InMemoryFailedOperationRepository * FailedOperationData :=
  let eid := pretty (next_id self) in
  let e := {|
    id := eid; domain := c_domain a; failure_type := c_failure_type a; status := PENDING;
    entity_type := c_entity_type a; entity_id := c_entity_id a; entity_refs := c_entity_refs a;
    user_id := c_user_id a; snapshot_data := c_snapshot_data a; error_code := c_error_code a;
    error_message := c_error_message a; retry_count := c_retry_count a;
    max_retries := c_max_retries a; last_retry_at := None; request_data := c_request_data a;
    response_data := c_response_data a; metadata := c_metadata a; resolved_at := None;
    resolved_by_id := None; resolution_type := ""; resolution_note := "";
    next_action_hint := c_next_action_hint a; recommended_action := c_recommended_action a;
    created_at := Some now; updated_at := Some now; expires_at := c_expires_at a |} in
  let self := add_to_index (put self eid e) eid PENDING (c_domain a) in
  ({| storage := storage self; next_id := next_id self + 1;
      index_by_status := index_by_status self; index_by_domain := index_by_domain self;
      index_by_status_domain := index_by_status_domain self;
      compressed_storage := compressed_storage self |}, e).

(** The keyword arguments callers pass to [_copy_with_updates]. *)
Record updates : Type := {
  u_status : option string; u_retry_count : option Z; u_last_retry_at : option (option Z);
  u_metadata : option (dict string pyval); u_error_message : option string;
  u_resolved_at : option (option Z); u_resolved_by_id : option (option Z);
  u_resolution_type : option string; u_resolution_note : option string;
  u_recommended_action : option string; u_updated_at : option (option Z);
}.

Definition copy_with_updates (now : Z) (e : FailedOperationData) (u : updates) :
    FailedOperationData := {|
  id := id e; domain := domain e; failure_type := failure_type e;
  status := default (status e) (u_status u);
  entity_type := entity_type e; entity_id := entity_id e; entity_refs := entity_refs e;
  user_id := user_id e; snapshot_data := snapshot_data e; error_code := error_code e;
  error_message := default (error_message e) (u_error_message u);
  retry_count := default (retry_count e) (u_retry_count u); max_retries := max_retries e;
  last_retry_at := default (last_retry_at e) (u_last_retry_at u);
  request_data := request_data e; response_data := response_data e;
  metadata := default (metadata e) (u_metadata u);
  resolved_at := default (resolved_at e) (u_resolved_at u);
  resolved_by_id := default (resolved_by_id e) (u_resolved_by_id u);
  resolution_type := default (resolution_type e) (u_resolution_type u);
  resolution_note := default (resolution_note e) (u_resolution_note u);
  next_action_hint := next_action_hint e;
  recommended_action := default (recommended_action e) (u_recommended_action u);
  created_at := created_at e; updated_at := default (Some now) (u_updated_at u);
  expires_at := expires_at e |}.

(** Only the status. *)
Definition new_status (s : string) : updates := {|
  u_status := Some s; u_retry_count := None; u_last_retry_at := None; u_metadata := None;
  u_error_message := None; u_resolved_at := None; u_resolved_by_id := None;
  u_resolution_type := None; u_resolution_note := None; u_recommended_action := None;
  u_updated_at := None |}.

(** [x or y] on strings and ids: the empty string and 0 are falsy. *)
Definition str_or (x y : string) : string := if bool_decide (x = "") then y else x.
Definition id_or (x y : option Z) : option Z :=
  match x with Some z => if z =? 0 then y else x | None => y end.

Definition get_by_id (self : InMemoryFailedOperationRepository) (eid : string) :
    option FailedOperationData := dget (storage self) eid.

Definition update_status (now : Z) (self : InMemoryFailedOperationRepository)
    (eid st res_type note : string) (by_id : option Z) (action : string) :
    InMemoryFailedOperationRepository * bool :=
  match dget (storage self) eid with
  | None => (self, false)
  | Some e =>
      let updated := copy_with_updates now e {|
        u_status := Some st; u_retry_count := None; u_last_retry_at := None;
        u_metadata := None; u_error_message := None;
        u_resolved_at := Some (if bool_decide (st = RESOLVED) then Some now else resolved_at e);
        u_resolved_by_id := Some (id_or by_id (resolved_by_id e));
        u_resolution_type := Some (str_or res_type (resolution_type e));
        u_resolution_note := Some (str_or note (resolution_note e));
        u_recommended_action := Some (str_or action (recommended_action e));
        u_updated_at := None |} in
      let self := put self eid updated in
      (if bool_decide (status e = st) then self
       else update_index_status self eid (status e) st (domain e), true)
  end.

Definition increment_retry_count (now : Z) (self : InMemoryFailedOperationRepository)
    (eid : string) : InMemoryFailedOperationRepository * bool :=
  match dget (storage self) eid with
  | None => (self, false)
  | Some e => (put self eid (copy_with_updates now e {|
      u_status := None; u_retry_count := Some (retry_count e + 1);
      u_last_retry_at := Some (Some now); u_metadata := None; u_error_message := None;
      u_resolved_at := None; u_resolved_by_id := None; u_resolution_type := None;
      u_resolution_note := None; u_recommended_action := None; u_updated_at := None |}), true)
  end.

Definition mark_as_resolved (now : Z) (self : InMemoryFailedOperationRepository)
    (eid res_type note : string) (by_id : option Z) : InMemoryFailedOperationRepository * bool :=
  update_status now self eid RESOLVED res_type note by_id "".

Fixpoint bulk_update_status (nows : nat → Z) (self : InMemoryFailedOperationRepository)
    (ids : list string) (st : string) : InMemoryFailedOperationRepository * Z :=
  match ids with
  | [] => (self, 0)
  | eid :: rest =>
      let '(self, ok) := update_status (nows (length rest)) self eid st "" "" None "" in
      let '(self, n) := bulk_update_status nows self rest st in
      (self, if ok then n + 1 else n)
  end.

(** ** Replay *)
Definition FORCE_ACQUIRABLE : list string := [PENDING; REQUIRES_REVIEW].

(** [metadata.get(key, 0)] as a number; [None]: adding to it raises. *)
Definition meta_int (d : dict string pyval) (k : string) : option Z :=
  match dget d k with
  | None => Some 0
  | Some (VInt z) => Some z
  | Some (VBool b) => Some (if b then 1 else 0)
  | Some _ => None
  end.

(** The forensic stamp of a forced redrive. *)
Definition stamp_force (d : dict string pyval) (retries : Z) : option (dict string pyval) :=
  match meta_int d "previous_total_retries" with
  | None => None
  | Some p =>
      let d := dset d "previous_total_retries" (VInt (p + retries)) in
      match meta_int d "force_redrive_count" with
      | None => None
      | Some c => Some (dset d "force_redrive_count" (VInt (c + 1)))
      end
  end.

(** What an acquire gives: nothing, the entry, or a [TypeError] on metadata that
    cannot be counted. *)
Inductive acquired : Type :=
| NotAcquired
| Acquired (e : FailedOperationData)
| AcquireTypeError.

Definition acquire_updates (now retries : Z) (d : option (dict string pyval)) : updates := {|
  u_status := Some REPLAYING; u_retry_count := Some retries;
  u_last_retry_at := Some (Some now); u_metadata := d; u_error_message := None;
  u_resolved_at := None; u_resolved_by_id := None; u_resolution_type := None;
  u_resolution_note := None; u_recommended_action := None; u_updated_at := None |}.

Definition try_acquire_for_replay (now : Z) (self : InMemoryFailedOperationRepository)
    (eid : string) (cap : Z) (force : bool) : InMemoryFailedOperationRepository * acquired :=
  match dget (storage self) eid with
  | None => (self, NotAcquired)
  | Some e =>
      let take updated :=
        (update_index_status (put self eid updated) eid (status e) REPLAYING (domain e),
         Acquired updated) in
      if force then
        if negb (status_in FORCE_ACQUIRABLE e) then (self, NotAcquired)
        else
          match stamp_force (metadata e) (retry_count e) with
          | None => (self, AcquireTypeError)
          | Some d => take (copy_with_updates now e (acquire_updates now 1 (Some d)))
          end
      else if negb (bool_decide (status e = PENDING)) then (self, NotAcquired)
      else if cap <=? retry_count e then (self, NotAcquired)
      else take (copy_with_updates now e (acquire_updates now (retry_count e + 1) None))
  end.

(** [{**old, **new}] *)
Definition dict_merge (old new : dict string pyval) : dict string pyval :=
  foldl (λ d p, dset d p.1 p.2) old new.

Definition complete_replay (now : Z) (self : InMemoryFailedOperationRepository)
    (eid : string) (success : bool) (res_type note : string) (by_id : option Z)
    (error_details : dict string pyval) : InMemoryFailedOperationRepository * bool :=
  match dget (storage self) eid with
  | None => (self, false)
  | Some e =>
      let '(st, resolved) :=
        if success then (RESOLVED, Some now)
        else if max_retries e <=? retry_count e then (REQUIRES_REVIEW, resolved_at e)
        else (PENDING, resolved_at e) in
      let updated := copy_with_updates now e {|
        u_status := Some st; u_retry_count := None; u_last_retry_at := None;
        u_metadata := Some (dict_merge (metadata e) error_details);
        u_error_message := Some (str_or note (error_message e));
        u_resolved_at := Some resolved; u_resolved_by_id := Some (id_or by_id (resolved_by_id e));
        u_resolution_type := Some (str_or res_type (resolution_type e));
        u_resolution_note := Some (str_or note (resolution_note e));
        u_recommended_action := None; u_updated_at := None |} in
      let self := put self eid updated in
      (if bool_decide (status e = st) then self
       else update_index_status self eid (status e) st (domain e), true)
  end.

Definition return_replay_attempt (now : Z) (self : InMemoryFailedOperationRepository)
    (eid : string) (acquired_retry_count : Z) : InMemoryFailedOperationRepository * bool :=
  match dget (storage self) eid with
  | None => (self, false)
  | Some e =>
      if negb (bool_decide (status e = REPLAYING)) || negb (retry_count e =? acquired_retry_count)
      then (self, false)
      else (put self eid (copy_with_updates now e {|
        u_status := None; u_retry_count := Some (acquired_retry_count - 1);
        u_last_retry_at := None; u_metadata := None; u_error_message := None;
        u_resolved_at := None; u_resolved_by_id := None; u_resolution_type := None;
        u_resolution_note := None; u_recommended_action := None;
        u_updated_at := Some (updated_at e) |}), true)
  end.

(** [for id, entry in list(self._storage.items()): if due(entry): ...] — the
    status sweeps: rewrite the due entries of a snapshot and move their ids. *)
Fixpoint sweep (due : FailedOperationData → bool)
    (rewrite : FailedOperationData → FailedOperationData)
    (items : list (string * FailedOperationData)) (self : InMemoryFailedOperationRepository)
    (n : Z) : InMemoryFailedOperationRepository * Z :=
  match items with
  | [] => (self, n)
  | (eid, e) :: items =>
      if due e then
        sweep due rewrite items
          (update_index_status (put self eid (rewrite e)) eid
             (status e) (status (rewrite e)) (domain e)) (n + 1)
      else sweep due rewrite items self n
  end.

(** [x and x < cutoff] *)
Definition before (x : option Z) (cutoff : Z) : bool :=
  match x with Some t => t <? cutoff | None => false end.

Definition stale_replaying (cutoff : Z) (e : FailedOperationData) : bool :=
  bool_decide (status e = REPLAYING) && before (last_retry_at e) cutoff.

Definition released (now : Z) (e : FailedOperationData) : FailedOperationData :=
  if max_retries e <=? retry_count e then
    copy_with_updates now e {|
      u_status := Some REQUIRES_REVIEW; u_retry_count := None; u_last_retry_at := None;
      u_metadata := None; u_error_message := None; u_resolved_at := None;
      u_resolved_by_id := None; u_resolution_type := None;
      u_resolution_note := Some STALE_RELEASE_AT_CAP_NOTE; u_recommended_action := None;
      u_updated_at := None |}
  else copy_with_updates now e (new_status PENDING).

Definition release_stale_replaying (now : Z) (self : InMemoryFailedOperationRepository)
    (older_than_minutes : Z) : InMemoryFailedOperationRepository * Z :=
  sweep (stale_replaying (now - minutes older_than_minutes)) (released now)
    (storage self) self 0.

Definition clear (self : InMemoryFailedOperationRepository) :
    InMemoryFailedOperationRepository := {|
  storage := []; next_id := 1; index_by_status := []; index_by_domain := [];
  index_by_status_domain := []; compressed_storage := compressed_storage self |}.

(** ** Cleanup *)
Definition resolved_before (cutoff : Z) (e : FailedOperationData) : bool :=
  bool_decide (status e = RESOLVED) && before (resolved_at e) cutoff.

Definition archive_old_resolved (now : Z) (self : InMemoryFailedOperationRepository)
    (older_than_days : Z) : InMemoryFailedOperationRepository * Z :=
  sweep (resolved_before (now - days older_than_days))
    (λ e, copy_with_updates now e (new_status ARCHIVED)) (storage self) self 0.

(** [self._remove_from_index(id, entry.status, entry.domain)] and
    [del self._storage[id]], in either order. *)
Definition remove (self : InMemoryFailedOperationRepository) (eid : string)
    (e : FailedOperationData) : InMemoryFailedOperationRepository :=
  erase (remove_from_index self eid (status e) (domain e)) eid.

(** The entries deleted before the offending id stay deleted. *)
Fixpoint purge_by_ids (self : InMemoryFailedOperationRepository) (ids : list string) (n : Z) :
    InMemoryFailedOperationRepository * (exn + Z) :=
  match ids with
  | [] => (self, inr n)
  | eid :: ids =>
      match dget (storage self) eid with
      | Some e =>
          if bool_decide (status e = ARCHIVED) then purge_by_ids (remove self eid e) ids (n + 1)
          else (self, inl (ValueError eid))
      | None => purge_by_ids self ids n
      end
  end.

Definition archived_updated_before (cutoff : Z) (e : FailedOperationData) : bool :=
  bool_decide (status e = ARCHIVED) && before (updated_at e) cutoff.

Definition purge_older_than (now : Z) (self : InMemoryFailedOperationRepository)
    (older_than_days : Z) : InMemoryFailedOperationRepository * Z :=
  let to_delete :=
    List.filter (λ p, archived_updated_before (now - days older_than_days) p.2)
      (storage self) in
  (foldl (λ self p, remove self p.1 p.2) self to_delete, Zlength to_delete).

Definition purge_archived (now : Z) (self : InMemoryFailedOperationRepository)
    (ids : option (list string)) (older_than_days : option Z) :
    InMemoryFailedOperationRepository * (exn + Z) :=
  match ids, older_than_days with
  | Some _, Some _ => (self, inl (ValueError "Specify either ids or older_than_days, not both"))
  | Some ids, None => purge_by_ids self ids 0
  | None, Some d => let '(self, n) := purge_older_than now self d in (self, inr n)
  | None, None => (self, inr 0)
  end.

(** [sum(1 for entry in self._storage.values() if p(entry))] *)
Definition count_if (p : FailedOperationData → bool)
    (self : InMemoryFailedOperationRepository) : Z :=
  Zlength (List.filter p (dvals (storage self))).

Definition archived_resolved_before (cutoff : Z) (e : FailedOperationData) : bool :=
  bool_decide (status e = ARCHIVED) && before (resolved_at e) cutoff.

Definition count_archived_older_than (now : Z) (self : InMemoryFailedOperationRepository)
    (older_than_days : Z) : Z :=
  count_if (archived_resolved_before (now - days older_than_days)) self.

Definition set_len (s : gset string) : Z := Z.of_nat (size s).

Definition count_all (self : InMemoryFailedOperationRepository) : Z :=
  Zlength (storage self) -
  Zsum (map (λ st, set_len (bucket (index_by_status self) st)) TERMINAL_STATUSES).

Record cleanup_stats : Type := {
  stats_total : Z; stats_by_status : dict string Z;
  resolved_older_than_30_days : Z; archived_older_than_90_days : Z;
}.

(** [counts[key] = counts.get(key, 0) + 1] *)
Definition tally {K} `{EqDecision K} (d : dict K Z) (k : K) : dict K Z :=
  dset d k (default 0 (dget d k) + 1).

Definition get_cleanup_stats (now : Z) (self : InMemoryFailedOperationRepository) :
    cleanup_stats := {|
  stats_total := Zlength (storage self);
  stats_by_status := foldl (λ d e, tally d (status e)) [] (dvals (storage self));
  resolved_older_than_30_days := count_if (resolved_before (now - days 30)) self;
  archived_older_than_90_days := count_if (archived_updated_before (now - days 90)) self |}.

Definition delete (self : InMemoryFailedOperationRepository) (eid : string) :
    InMemoryFailedOperationRepository * bool :=
  match dget (storage self) eid with
  | None => (self, false)
  | Some e => (remove self eid e, true)
  end.

(** [l[i:j]]: bounds are clamped, negative ones count from the end. *)
Definition py_index (n i : Z) : Z := if i <? 0 then Z.max 0 (n + i) else Z.min i n.
Definition py_slice {A} (i j : Z) (l : list A) : list A :=
  let i := py_index (Zlength l) i in
  let j := py_index (Zlength l) j in
  take (Z.to_nat (j - i)) (list.drop (Z.to_nat i) l).

(** [if domain:] — [None] and the empty string are both "no domain". *)
Definition truthy (x : option string) : option string :=
  match x with Some s => if bool_decide (s = "") then None else Some s | None => None end.

(** [wanted and x != wanted] is false: the filter lets [x] through. *)
Definition admits (wanted : option string) (x : string) : bool :=
  match wanted with Some s => bool_decide (x = s) | None => true end.

(** [(entry.metadata or {}).get("source") == source], a filter only when given. *)
Definition source_admits (source : option string) (e : FailedOperationData) : bool :=
  match source with
  | None => true
  | Some s => bool_decide (dget (metadata e) "source" = Some (VStr s))
  end.

(** Positions of the selection walk, ordered like the tuples of the source. *)
Definition position : Type := Z * string.
Definition pos_le (p q : position) : Prop := p.1 < q.1 ∨ (p.1 = q.1 ∧ String.le p.2 q.2).

#[global] Instance pos_le_dec : RelDecision pos_le.
Proof. intros p q. unfold pos_le. apply _. Defined.

Record ReplayablePage : Type := {
  entries : list FailedOperationData;
  next_cursor : option position;
  scan_exhausted : bool;
}.

Section queries.
(** The order in which iterating a Python set visits it. *)
  Context (set_order : gset string → list string).

(** [[self._storage[i] for i in ids if i in self._storage]] *)
Definition resolve (self : InMemoryFailedOperationRepository) (ids : gset string) :
    list FailedOperationData := omap (dget (storage self)) (set_order ids).

(** The loops that stop at [len(results) >= limit]. *)
Fixpoint collect (self : InMemoryFailedOperationRepository) (limit : Z)
    (keep : FailedOperationData → bool) (ids : list string)
    (results : list FailedOperationData) : list FailedOperationData :=
  match ids with
  | [] => results
  | eid :: ids =>
      if limit <=? Zlength results then results
      else match dget (storage self) eid with
           | None => collect self limit keep ids results
           | Some e =>
               if keep e then collect self limit keep ids (results ++ [e])
               else collect self limit keep ids results
           end
  end.

Definition get_pending_by_domain (self : InMemoryFailedOperationRepository) (dom : string)
    (limit : Z) : list FailedOperationData :=
  collect self limit (λ _, true)
    (set_order (bucket (index_by_status_domain self) (PENDING, dom))) [].

Definition get_pending_count_by_domain (self : InMemoryFailedOperationRepository)
    (dom : string) : Z := set_len (bucket (index_by_status_domain self) (PENDING, dom)).

Definition get_expired_operations (self : InMemoryFailedOperationRepository)
    (before_date limit : Z) : list FailedOperationData :=
  py_take limit (List.filter (λ e, before (expires_at e) before_date) (dvals (storage self))).

Definition find_by_status (self : InMemoryFailedOperationRepository) (st : string)
    (dom ftype : option string) (limit : Z) : list FailedOperationData :=
  let ids := match truthy dom with
             | Some d => bucket (index_by_status_domain self) (st, d)
             | None => bucket (index_by_status self) st
             end in
  collect self limit (λ e, admits (truthy ftype) (failure_type e)) (set_order ids) [].

Definition select_for_find (self : InMemoryFailedOperationRepository)
    (st dom ftype : option string) : list FailedOperationData :=
  let es :=
    match st, dom with
    | Some s, Some d => resolve self (bucket (index_by_status_domain self) (s, d))
    | Some s, None => resolve self (bucket (index_by_status self) s)
    | None, Some d => resolve self (bucket (index_by_domain self) d)
    | None, None => dvals (storage self)
    end in
  match ftype with
  | Some f => List.filter (λ e, bool_decide (failure_type e = f)) es
  | None => es
  end.

Definition find (now : Z) (self : InMemoryFailedOperationRepository)
    (st dom ftype : option string) (offset limit : Z) : list FailedOperationData :=
  py_slice offset (offset + limit)
    (sort_by (λ e, - default now (created_at e)) (select_for_find self st dom ftype)).

Definition count (self : InMemoryFailedOperationRepository)
    (st dom ftype : option string) : Z := Zlength (select_for_find self st dom ftype).

Definition count_created_in_window (self : InMemoryFailedOperationRepository)
    (first last : Z) : Z :=
  count_if (λ e, match created_at e with
                 | Some t => (first <=? t) && (t <=? last)
                 | None => false
                 end) self.

(** The scan: every member above the cursor, its position, and whether it
    matches; then the [limit] smallest. *)
Definition examined (self : InMemoryFailedOperationRepository) (floor : option position)
    (ids : list string) : list (position * FailedOperationData) :=
  omap (λ eid,
    e ← dget (storage self) eid;
    t ← created_at e;
    match floor with
    | Some f => if decide (pos_le (t, id e) f) then None else Some ((t, id e), e)
    | None => Some ((t, id e), e)
    end) ids.

Definition replayable (cap : Z) (ftype source : option string) (e : FailedOperationData) : bool :=
  negb (cap <=? retry_count e) && admits (truthy ftype) (failure_type e) &&
  source_admits source e.

(** [highest_position] after the scan. *)
Definition highest (ps : list (position * FailedOperationData)) : option position :=
  foldl (λ h p, match h with
                | Some q => if decide (pos_le p.1 q) then Some q else Some p.1
                | None => Some p.1
                end) None ps.

Definition nsmallest (limit : Z) (ps : list (position * FailedOperationData)) :
    list (position * FailedOperationData) :=
  take (Z.to_nat limit) (merge_sort (λ p q, pos_le p.1 q.1) ps).

Definition find_replayable_page (self : InMemoryFailedOperationRepository) (cap : Z)
    (dom ftype source : option string) (limit : Z) (cursor : option position) :
    ReplayablePage :=
  let ids := match truthy dom with
             | Some d => bucket (index_by_status_domain self) (PENDING, d)
             | None => bucket (index_by_status self) PENDING
             end in
  let scan := examined self cursor (set_order ids) in
  let matches := List.filter (λ p, replayable cap ftype source p.2) scan in
  let selected := nsmallest limit matches in
  let boundary :=
    match last selected with
    | Some p => if Zlength selected <? Zlength matches then Some p.1 else highest scan
    | None => highest scan
    end in
  {| entries := selected.*2; next_cursor := boundary; scan_exhausted := false |}.

(** [sla_thresholds.get(domain, timedelta(hours=24))] *)
Definition find_sla_breached (self : InMemoryFailedOperationRepository) (current : Z)
    (thresholds : dict string Z) : list FailedOperationData :=
  List.filter (λ e, match created_at e with
                    | Some t => default (minutes 1440) (dget thresholds (domain e)) <? current - t
                    | None => false
                    end) (resolve self (bucket (index_by_status self) PENDING)).

Definition find_expired (self : InMemoryFailedOperationRepository) (current : Z) :
    list FailedOperationData :=
  List.filter (λ e, before (expires_at e) current) (dvals (storage self)).

Record statistics : Type := {
  s_total : Z; s_by_status : dict string Z; s_by_domain : dict string Z;
  s_pending_by_domain : dict string Z;
  s_pending_by_domain_and_failure_type : dict string (dict string Z);
}.

Definition get_statistics (self : InMemoryFailedOperationRepository) : statistics :=
  let pending := resolve self (bucket (index_by_status self) PENDING) in {|
  s_total := Zlength (storage self);
  s_by_status := map (λ p, (p.1, set_len p.2)) (index_by_status self);
  s_by_domain := map (λ p, (p.1, set_len p.2)) (index_by_domain self);
  s_pending_by_domain := foldl (λ d e, tally d (domain e)) [] pending;
  s_pending_by_domain_and_failure_type :=
    foldl (λ d e, dset d (domain e)
                    (tally (default [] (dget d (domain e))) (failure_type e))) [] pending |}.

(** Buckets that are not empty, with their sizes. *)
Definition facet {K} (key : K → option string) (index : dict K (gset string)) :
    dict string Z :=
  foldl (λ d p, match key p.1 with
                | Some k => if bool_decide (p.2 = ∅) then d else dset d k (set_len p.2)
                | None => d
                end) [] index.

Definition get_facet_counts (self : InMemoryFailedOperationRepository)
    (st dom : option string) : dict string Z * dict string Z :=
  (match dom with
   | None => facet Some (index_by_status self)
   | Some d => facet (λ k, if bool_decide (k.2 = d) then Some k.1 else None)
                 (index_by_status_domain self)
   end,
   match st with
   | None => facet Some (index_by_domain self)
   | Some s => facet (λ k, if bool_decide (k.1 = s) then Some k.2 else None)
                 (index_by_status_domain self)
   end).

Definition count_by_domain (self : InMemoryFailedOperationRepository) (dom : string) : Z :=
  Zlength (List.filter (λ e, negb (status_in TERMINAL_STATUSES e))
             (resolve self (bucket (index_by_domain self) dom))).

Definition get_oldest_ids (now : Z) (self : InMemoryFailedOperationRepository)
    (n : Z) (dom : option string) : list string :=
  let items := match truthy dom with
               | Some d => omap (λ eid, e ← dget (storage self) eid; Some (eid, e))
                             (set_order (bucket (index_by_domain self) d))
               | None => storage self
               end in
  let items := List.filter (λ p, negb (status_in NON_EVICTABLE_STATUSES p.2)) items in
  (py_take n (sort_by (λ p, default now (created_at p.2)) items)).*1.

(** The deletion pass of [evict_oldest]: protection is checked again. *)
Fixpoint evict_ids (self : InMemoryFailedOperationRepository) (ids : list string) (n : Z) :
    InMemoryFailedOperationRepository * Z :=
  match ids with
  | [] => (self, n)
  | eid :: ids =>
      match dget (storage self) eid with
      | Some e =>
          if status_in EVICTION_PROTECTED_STATUSES e then evict_ids self ids n
          else evict_ids (remove self eid e) ids (n + 1)
      | None => evict_ids self ids n
      end
  end.

(** Selection and deletion are two critical sections. *)
Definition evict_oldest (now n : Z) (dom : option string) :
    eprog InMemoryFailedOperationRepository Z :=
  oldest_ids <- atomically (λ self, (self, get_oldest_ids now self n dom));;
  atomically (λ self, evict_ids self oldest_ids 0).

Definition store_compressed_entry (self : InMemoryFailedOperationRepository)
    (z : DLQCompressedEntry) : InMemoryFailedOperationRepository := {|
  storage := storage self; next_id := next_id self;
  index_by_status := index_by_status self; index_by_domain := index_by_domain self;
  index_by_status_domain := index_by_status_domain self;
  compressed_storage := dset (compressed_storage self) (z_id z) z |}.

(** The deletion pass of [compress_and_evict_oldest]: [pop] whatever is there. *)
Fixpoint pop_ids (self : InMemoryFailedOperationRepository) (ids : list string) (n : Z) :
    InMemoryFailedOperationRepository * Z :=
  match ids with
  | [] => (self, n)
  | eid :: ids =>
      match dget (storage self) eid with
      | Some e => pop_ids (remove self eid e) ids (n + 1)
      | None => pop_ids self ids n
      end
  end.

(** The compression module, which the repository does not hold; [None] when it
    is not loaded. *)
  Context (compress_entries : list FailedOperationData → option (list DLQCompressedEntry)).

Definition compress_and_evict_oldest (now n : Z) (dom : option string) :
    eprog InMemoryFailedOperationRepository Z :=
  oldest_ids <- atomically (λ self, (self, get_oldest_ids now self n dom));;
  if bool_decide (oldest_ids = []) then ret 0 else
  es <- atomically (λ self, (self, (omap (dget (storage self)) oldest_ids : list _)));;
  match es with
  | [] => ret 0
  | _ =>
      match compress_entries es with
      | None => ret 0
      | Some summaries =>
          _ <- for_each summaries (λ z, atomically (λ self, (store_compressed_entry self z, ())));;
          atomically (λ self, pop_ids self oldest_ids 0)
      end
  end.
End queries.

(** ** Compressed summaries *)
Definition get_compressed_entries (self : InMemoryFailedOperationRepository)
    (dom st : option string) (limit : Z) : list DLQCompressedEntry :=
  let zs := sort_by (λ z, - z_compressed_at z) (dvals (compressed_storage self)) in
  let zs := List.filter (λ z, admits (truthy dom) (z_domain z)) zs in
  py_take limit (List.filter (λ z, admits (truthy st) (z_status z)) zs).

Definition get_compressed_entry (self : InMemoryFailedOperationRepository) (zid : string) :
    option DLQCompressedEntry := dget (compressed_storage self) zid.

Definition get_compressed_entries_before (self : InMemoryFailedOperationRepository)
    (st : string) (upto limit offset : Z) (after : option Z) : list DLQCompressedEntry :=
  let zs := List.filter (λ z, bool_decide (z_status z = st) && (z_compressed_at z <? upto) &&
                                match after with Some t => t <=? z_compressed_at z | None => true end)
              (dvals (compressed_storage self)) in
  py_slice offset (offset + limit) (sort_by z_compressed_at zs).

Definition get_compressed_summary (self : InMemoryFailedOperationRepository) :
    Z * Z * dict string Z :=
  (Zlength (compressed_storage self),
   Zsum (map z_count (dvals (compressed_storage self))),
   foldl (λ d z, tally d (z_status z)) [(Z_ACTIVE, 0); (Z_STALE, 0); (Z_ARCHIVED, 0)]
     (dvals (compressed_storage self))).

Definition update_compressed_status (now : Z) (self : InMemoryFailedOperationRepository)
    (zid st : string) : InMemoryFailedOperationRepository * bool :=
  match dget (compressed_storage self) zid with
  | None => (self, false)
  | Some z =>
      let z := {|
        z_id := z_id z; z_domain := z_domain z; z_failure_type := z_failure_type z;
        z_error_code := z_error_code z; z_count := z_count z; z_first_seen := z_first_seen z;
        z_last_seen := z_last_seen z; z_sample_error_message := z_sample_error_message z;
        z_sample_context := z_sample_context z; z_status := st;
        z_compressed_at := z_compressed_at z;
        z_stale_at := if bool_decide (st = Z_STALE) then Some now else z_stale_at z;
        z_archived_at := if bool_decide (st = Z_STALE) then z_archived_at z
                         else if bool_decide (st = Z_ARCHIVED) then Some now
                         else z_archived_at z |} in
      ({| storage := storage self; next_id := next_id self;
          index_by_status := index_by_status self; index_by_domain := index_by_domain self;
          index_by_status_domain := index_by_status_domain self;
          compressed_storage := dset (compressed_storage self) zid z |}, true)
  end.
