(* ===== verification/DLQInv.v ===== *)
(** * The dead-letter queue's representation invariant

    [dlq_ok]: ids are the decimal renderings of the counter, each entry carries
    its own key, and each secondary index holds exactly the ids of the entries
    whose key it files.  Every operation keeps it; [dlq_op] lists the operations
    as data, so that a history is a list of them. *)

From stdpp Require Import pretty.
From S2P Require Import Prelude Interleave DLQRepo.

(** ** Buckets *)
Section buckets.
  Context {K : Type} `{EqDecision K}.
  Implicit Types (d : dict K (gset string)).

Lemma elem_bucket_add d k k' x y :
  x ∈ bucket (bucket_add d k y) k' ↔ x ∈ bucket d k' ∨ (k' = k ∧ x = y).
Proof.
  unfold bucket_add. unfold bucket at 1. rewrite dget_dset.
  case_decide; subst; simpl; set_solver.
Qed.

Lemma elem_bucket_discard d k k' x y :
  x ∈ bucket (bucket_discard d k y) k' ↔ x ∈ bucket d k' ∧ ¬ (k' = k ∧ x = y).
Proof.
  unfold bucket_discard, bucket. destruct (dget d k) as [s|] eqn:Hk.
  - rewrite dget_dset. case_decide; subst; simpl; [rewrite Hk; simpl|]; set_solver.
  - split; [|tauto]. intros Hx. split; [done|]. intros [-> ->]. rewrite Hk in Hx. set_solver.
Qed.

Lemma dict_wf_bucket_add d k x : dict_wf d → dict_wf (bucket_add d k x).
Proof. apply dict_wf_dset. Qed.

Lemma dict_wf_bucket_discard d k x : dict_wf d → dict_wf (bucket_discard d k x).
Proof. unfold bucket_discard. case_match; [apply dict_wf_dset|done]. Qed.

(** An index files exactly the stored entries, under [key]. *)
Definition index_exact (key : FailedOperationData → K) (d : dict K (gset string))
    (st : dict string FailedOperationData) : Prop :=
  dict_wf d ∧ ∀ k x, x ∈ bucket d k ↔ ∃ e, dget st x = Some e ∧ key e = k.

Lemma index_put key d st x e e' :
  index_exact key d st → dget st x = Some e → key e' = key e →
  index_exact key d (dset st x e').
Proof.
  intros [Hwf Hd] He Hk. split; [done|]. intros k y. rewrite Hd, dget_dset.
  case_decide; subst; naive_solver.
Qed.

Lemma index_move key d st x e e' :
  index_exact key d st → dget st x = Some e →
  index_exact key (bucket_add (bucket_discard d (key e) x) (key e') x) (dset st x e').
Proof.
  intros [Hwf Hd] He. split; [by apply dict_wf_bucket_add, dict_wf_bucket_discard|].
  intros k y. rewrite elem_bucket_add, elem_bucket_discard, Hd, dget_dset.
  case_decide; subst; naive_solver.
Qed.

Lemma index_add key d st x e :
  index_exact key d st → dget st x = None →
  index_exact key (bucket_add d (key e) x) (dset st x e).
Proof.
  intros [Hwf Hd] He. split; [by apply dict_wf_bucket_add|].
  intros k y. rewrite elem_bucket_add, Hd, dget_dset. case_decide; subst; naive_solver.
Qed.

Lemma index_remove key d st x e :
  index_exact key d st → dget st x = Some e →
  index_exact key (bucket_discard d (key e) x) (ddel st x).
Proof.
  intros [Hwf Hd] He. split; [by apply dict_wf_bucket_discard|].
  intros k y. rewrite elem_bucket_discard, Hd, dget_ddel. case_decide; subst; naive_solver.
Qed.

Lemma index_nil key : index_exact key [] [].
Proof. split; [apply dict_wf_nil|]. intros k x. simpl. split; [set_solver|naive_solver]. Qed.
End buckets.

Definition status_domain (e : FailedOperationData) : string * string := (status e, domain e).

Record dlq_ok (self : InMemoryFailedOperationRepository) : Prop := {
  ok_wf : dict_wf (storage self);
  ok_next : 1 <= next_id self;
  ok_entry : ∀ x e, dget (storage self) x = Some e →
    id e = x ∧ is_Some (created_at e) ∧ ∃ n, 1 <= n < next_id self ∧ x = pretty n;
  ok_status : index_exact status (index_by_status self) (storage self);
  ok_domain : index_exact domain (index_by_domain self) (storage self);
  ok_status_domain :
    index_exact status_domain (index_by_status_domain self) (storage self);
}.

(** ** The three ways a store changes *)

(** [e'] is a later version of [e]. *)
Definition revises (e e' : FailedOperationData) : Prop :=
  id e' = id e ∧ domain e' = domain e ∧ created_at e' = created_at e ∧
  failure_type e' = failure_type e ∧ max_retries e' = max_retries e.

Lemma copy_revises now e u : revises e (copy_with_updates now e u).
Proof. done. Qed.

Lemma revises_refl e : revises e e.
Proof. done. Qed.

Create HintDb dlq.
#[export] Hint Resolve copy_revises revises_refl : dlq.

Lemma ok_entry_revised self x e e' y e0 :
  dlq_ok self → dget (storage self) x = Some e → revises e e' →
  dget (dset (storage self) x e') y = Some e0 →
  id e0 = y ∧ is_Some (created_at e0) ∧ ∃ n, 1 <= n < next_id self ∧ y = pretty n.
Proof.
  intros Hok He (Hi & _ & Hc & _). rewrite dget_dset. case_decide; subst.
  - intros [= <-]. rewrite Hi, Hc. by apply (ok_entry _ Hok).
  - by apply (ok_entry _ Hok).
Qed.

Lemma put_keeps_ok self x e e' :
  dlq_ok self → dget (storage self) x = Some e → revises e e' → status e' = status e →
  dlq_ok (put self x e').
Proof.
  intros Hok He Hrev Hst. pose proof Hok as [? ? ? ? ? ?].
  pose proof Hrev as (?&?&?&?&?).
  constructor; simpl; [by apply dict_wf_dset|done| |eapply index_put; eauto..].
  - intros ???. by eapply (ok_entry_revised _ _ e).
  - unfold status_domain. congruence.
Qed.

Lemma move_ok self x e e' :
  dlq_ok self → dget (storage self) x = Some e → revises e e' →
  dlq_ok (update_index_status (put self x e') x (status e) (status e') (domain e)).
Proof.
  intros Hok He Hrev. pose proof Hok as [? ? ? ? ? ?].
  pose proof Hrev as (?&Hdom&?&?&?).
  constructor; simpl; [by apply dict_wf_dset|done| |..].
  - intros ???. by eapply (ok_entry_revised _ _ e).
  - by apply index_move.
  - rewrite <-Hdom at 2. by apply index_move.
  - change (status e, domain e) with (status_domain e).
    replace (status e', domain e) with (status_domain e') by (unfold status_domain; congruence).
    by apply index_move.
Qed.

(** What an operation that changes the status writes: the index moves only when
    the status did. *)
Lemma rewrite_ok self x e e' :
  dlq_ok self → dget (storage self) x = Some e → revises e e' →
  dlq_ok (if bool_decide (status e = status e') then put self x e'
          else update_index_status (put self x e') x (status e) (status e') (domain e)).
Proof. intros. case_bool_decide; [by eapply put_keeps_ok|by eapply move_ok]. Qed.

Lemma remove_ok self x e :
  dlq_ok self → dget (storage self) x = Some e → dlq_ok (remove self x e).
Proof.
  intros Hok He. pose proof Hok as [? ? ? ? ? ?].
  constructor; simpl; [by apply dict_wf_ddel|done| |..].
  - intros y e0. rewrite dget_ddel. case_decide; [done|]. by apply (ok_entry _ Hok).
  - by apply index_remove.
  - by apply index_remove.
  - change (status e, domain e) with (status_domain e). by apply index_remove.
Qed.

Lemma new_ok : dlq_ok new_store.
Proof. constructor; simpl; auto using dict_wf_nil, index_nil; [lia|done]. Qed.

Lemma clear_ok self : dlq_ok (clear self).
Proof. constructor; simpl; auto using dict_wf_nil, index_nil; [lia|done]. Qed.

(** The counter's rendering is a fresh key. *)
Lemma next_id_fresh self : dlq_ok self → dget (storage self) (pretty (next_id self)) = None.
Proof.
  intros Hok. destruct (dget _ _) as [e|] eqn:He; [|done]. exfalso.
  destruct (ok_entry _ Hok _ _ He) as (_ & _ & n & ? & Heq%(inj pretty)). lia.
Qed.

Lemma create_ok now self a : dlq_ok self → dlq_ok (create now self a).1.
Proof.
  intros Hok. pose proof (next_id_fresh _ Hok) as Hf. pose proof Hok as [? ? He ? ? ?].
  unfold create. set (e := Build_FailedOperationData _ _ _ _ _ _ _ _ _ _ _ _ _ _ _ _ _ _ _ _ _ _ _ _ _ _).
  constructor; simpl; [by apply dict_wf_dset|lia| |..].
  - intros y e0. rewrite dget_dset. case_decide; subst.
    + intros [= <-]. simpl. eauto 8 with lia.
    + intros Hy. destruct (He _ _ Hy) as (? & ? & n & ? & ?).
      split_and!; [done..|]. exists n. split; [lia|done].
  - by apply (index_add status _ _ _ e).
  - by apply (index_add domain _ _ _ e).
  - by apply (index_add status_domain _ _ _ e).
Qed.
#[export] Hint Resolve put_keeps_ok move_ok remove_ok new_ok clear_ok create_ok : dlq.

(** ** Operations as data *)
Inductive dlq_op : Type :=
| OpCreate (a : create_args)
| OpUpdateStatus (eid st res_type note : string) (by_id : option Z) (action : string)
| OpIncrement (eid : string)
| OpAcquire (eid : string) (cap : Z) (force : bool)
| OpComplete (eid : string) (success : bool) (res_type note : string) (by_id : option Z)
    (error_details : dict string pyval)
| OpReturn (eid : string) (acquired_retry_count : Z)
| OpReleaseStale (older_than_minutes : Z)
| OpArchive (older_than_days : Z)
| OpPurge (ids : option (list string)) (older_than_days : option Z)
| OpDelete (eid : string)
| OpEvictIds (ids : list string)
| OpPopIds (ids : list string)
| OpStoreCompressed (z : DLQCompressedEntry)
| OpCompressedStatus (zid st : string)
| OpClear.

Definition perform (now : Z) (op : dlq_op) (self : InMemoryFailedOperationRepository) :
    InMemoryFailedOperationRepository :=
  match op with
  | OpCreate a => (create now self a).1
  | OpUpdateStatus eid st rt note by_id action =>
      (update_status now self eid st rt note by_id action).1
  | OpIncrement eid => (increment_retry_count now self eid).1
  | OpAcquire eid cap force => (try_acquire_for_replay now self eid cap force).1
  | OpComplete eid success rt note by_id details =>
      (complete_replay now self eid success rt note by_id details).1
  | OpReturn eid n => (return_replay_attempt now self eid n).1
  | OpReleaseStale m => (release_stale_replaying now self m).1
  | OpArchive d => (archive_old_resolved now self d).1
  | OpPurge ids d => (purge_archived now self ids d).1
  | OpDelete eid => (delete self eid).1
  | OpEvictIds ids => (evict_ids self ids 0).1
  | OpPopIds ids => (pop_ids self ids 0).1
  | OpStoreCompressed z => store_compressed_entry self z
  | OpCompressedStatus zid st => (update_compressed_status now self zid st).1
  | OpClear => clear self
  end.

(** A history: operations with the clock reading each saw. *)
Definition history : Type := list (Z * dlq_op).
Definition perform_all (h : history) (self : InMemoryFailedOperationRepository) :
    InMemoryFailedOperationRepository := foldl (λ s p, perform p.1 p.2 s) self h.

(** ** Every operation keeps the invariant *)
Lemma update_status_ok now self x st rt note by_id action :
  dlq_ok self → dlq_ok (update_status now self x st rt note by_id action).1.
Proof.
  intros Hok. unfold update_status. destruct (dget _ _) as [e|] eqn:He; [|done]. simpl.
  set (e' := copy_with_updates _ _ _). apply (rewrite_ok _ _ e e' Hok He), copy_revises.
Qed.

Lemma increment_ok now self x : dlq_ok self → dlq_ok (increment_retry_count now self x).1.
Proof.
  intros Hok. unfold increment_retry_count. destruct (dget _ _) eqn:He; [|done]. simpl.
  eapply put_keeps_ok; eauto with dlq.
Qed.

Lemma acquire_ok now self x cap force :
  dlq_ok self → dlq_ok (try_acquire_for_replay now self x cap force).1.
Proof.
  intros Hok. unfold try_acquire_for_replay. destruct (dget _ _) as [e|] eqn:He; [|done].
  repeat case_match; simplify_eq/=; try done; eapply (move_ok _ _ e); eauto with dlq.
Qed.

Lemma complete_ok now self x success rt note by_id details :
  dlq_ok self → dlq_ok (complete_replay now self x success rt note by_id details).1.
Proof.
  intros Hok. unfold complete_replay. destruct (dget _ _) as [e|] eqn:He; [|done].
  destruct (if success then _ else _) as [st res]. simpl.
  set (e' := copy_with_updates _ _ _). apply (rewrite_ok _ _ e e' Hok He), copy_revises.
Qed.

Lemma return_ok now self x n : dlq_ok self → dlq_ok (return_replay_attempt now self x n).1.
Proof.
  intros Hok. unfold return_replay_attempt. destruct (dget _ _) eqn:He; [|done].
  case_match; [done|]. eapply put_keeps_ok; eauto with dlq.
Qed.

(** *** Sweeps *)
Definition swept (due : FailedOperationData → bool)
    (rewrite : FailedOperationData → FailedOperationData) (e : FailedOperationData) :
    FailedOperationData := if due e then rewrite e else e.

Section sweeps.
  Context (due : FailedOperationData → bool).
  Context (rewrite : FailedOperationData → FailedOperationData).
  Context (rewrite_revises : ∀ e, revises e (rewrite e)).

Definition sweep_one (self : InMemoryFailedOperationRepository) (y : string)
    (e : FailedOperationData) : InMemoryFailedOperationRepository :=
  if due e then update_index_status (put self y (rewrite e)) y (status e)
                  (status (rewrite e)) (domain e) else self.

Lemma sweep_one_spec self y e :
  dget (storage self) y = Some e →
  (dlq_ok self → dlq_ok (sweep_one self y e)) ∧
  next_id (sweep_one self y e) = next_id self ∧
  dkeys (storage (sweep_one self y e)) = dkeys (storage self) ∧
  ∀ x, dget (storage (sweep_one self y e)) x =
    if decide (y = x) then Some (swept due rewrite e) else dget (storage self) x.
Proof.
  intros He. unfold sweep_one, swept. destruct (due e); simpl.
  - split_and!; [eauto with dlq|done|apply dkeys_dset_Some; eauto|].
    intros x. apply dget_dset.
  - split_and!; [done..|]. intros x. case_decide; by subst.
Qed.

Lemma sweep_spec items self n :
  NoDup items.*1 → (∀ x e, (x, e) ∈ items → dget (storage self) x = Some e) →
  let self' := (sweep due rewrite items self n).1 in
  (dlq_ok self → dlq_ok self') ∧
  next_id self' = next_id self ∧ dkeys (storage self') = dkeys (storage self) ∧
  ∀ x, dget (storage self') x =
    if decide (x ∈ items.*1) then swept due rewrite <$> dget (storage self) x
    else dget (storage self) x.
Proof.
  revert self n. induction items as [|[y e] items IH]; intros self n Hnd Hin; simpl.
  { split_and!; [done..|]. intros x. done. }
  apply NoDup_cons in Hnd as [Hni Hnd]. simpl in *.
  assert (dget (storage self) y = Some e) as Hy by (apply Hin; left).
  destruct (sweep_one_spec self y e Hy) as (Hok1 & Hn1 & Hk1 & Hg1).
  destruct (IH (sweep_one self y e) (if due e then n + 1 else n) Hnd) as (Hok & Hn & Hk & Hg).
  { intros x e0 Hx. rewrite Hg1, decide_False; [apply Hin; by right|].
    intros ->. apply Hni, list_elem_of_fmap. by exists (x, e0). }
  assert ((if due e then sweep due rewrite items (update_index_status (put self y (rewrite e)) y
    (status e) (status (rewrite e)) (domain e)) (n + 1) else sweep due rewrite items self n)
    = sweep due rewrite items (sweep_one self y e) (if due e then n + 1 else n)) as ->
    by (unfold sweep_one; by destruct (due e)).
  split_and!; [by auto|congruence|congruence|]. intros x. rewrite Hg, Hg1.
  destruct (decide (y = x)) as [<-|Hne].
  - rewrite (decide_False (P := y ∈ _)), decide_True by (done || by left). by rewrite Hy.
  - destruct (decide (x ∈ items.*1)); [by rewrite decide_True by (by right)|].
    rewrite decide_False; [done|]. rewrite elem_of_cons. naive_solver.
Qed.
End sweeps.

Lemma sweep_all due rewrite self :
  (∀ e, revises e (rewrite e)) → dict_wf (storage self) →
  let self' := (sweep due rewrite (storage self) self 0).1 in
  (dlq_ok self → dlq_ok self') ∧ next_id self' = next_id self ∧
  dkeys (storage self') = dkeys (storage self) ∧
  ∀ x, dget (storage self') x = swept due rewrite <$> dget (storage self) x.
Proof.
  intros Hrev Hwf. destruct (sweep_spec due rewrite Hrev (storage self) self 0) as (? & ? & ? & Hg).
  { done. }
  { intros x e. by apply elem_of_dict. }
  split_and!; [done..|]. intros x. rewrite Hg. case_decide as Hx; [done|].
  destruct (dget (storage self) x) eqn:Hgx; [|done].
  exfalso. apply Hx, elem_of_dkeys. eauto.
Qed.

Lemma sweep_count due rewrite items self n :
  (sweep due rewrite items self n).2 = n + Zlength (List.filter (λ p, due p.2) items).
Proof.
  revert self n. induction items as [|[y e] items IH]; intros self n; simpl; [unfold Zlength; simpl; lia|].
  destruct (due e); rewrite IH; unfold Zlength; simpl; lia.
Qed.

Lemma released_revises now e : revises e (released now e).
Proof. unfold released. case_match; apply copy_revises. Qed.
#[export] Hint Resolve released_revises : dlq.

(** *** Deletions *)

(** The entries [doomed] marks are gone, the others are as they were. *)
Definition deletes (doomed : string → FailedOperationData → bool)
    (self self' : InMemoryFailedOperationRepository) : Prop :=
  (dlq_ok self → dlq_ok self') ∧ next_id self' = next_id self ∧
  ∀ x, dget (storage self') x =
    match dget (storage self) x with
    | Some e => if doomed x e then None else Some e
    | None => None
    end.

Lemma deletes_none self : deletes (λ _ _, false) self self.
Proof. split_and!; [done..|]. intros x. by case_match. Qed.

Lemma deletes_ext d d' self self' :
  (∀ x e, dget (storage self) x = Some e → d x e = d' x e) →
  deletes d self self' → deletes d' self self'.
Proof.
  intros Hd (? & ? & Hg). split_and!; [done..|]. intros x. rewrite Hg.
  destruct (dget (storage self) x) eqn:Hx; [|done]. by rewrite (Hd _ _ Hx).
Qed.

Lemma deletes_remove d self y e self' :
  dget (storage self) y = Some e → deletes d (remove self y e) self' →
  deletes (λ x e, bool_decide (x = y) || d x e) self self'.
Proof.
  intros He (Hok & Hn & Hg). split_and!; [eauto with dlq|done|].
  intros x. rewrite Hg. simpl. rewrite dget_ddel.
  case_decide; case_bool_decide; simplify_eq/=; [by rewrite He|done].
Qed.

Lemma pop_ids_deletes self ids n :
  deletes (λ x _, bool_decide (x ∈ ids)) self (pop_ids self ids n).1.
Proof.
  revert self n. induction ids as [|y ids IH]; intros self n; simpl.
  { eapply deletes_ext; [|apply deletes_none]. done. }
  destruct (dget (storage self) y) as [e|] eqn:He.
  - eapply deletes_ext; [|eapply deletes_remove; [exact He|apply IH]]. intros x e' Hx. simpl.
    repeat case_bool_decide; set_solver.
  - eapply deletes_ext; [|apply IH]. intros x e' Hx. simpl.
    assert (x ≠ y) by congruence. repeat case_bool_decide; set_solver.
Qed.

Definition evictable (e : FailedOperationData) : bool :=
  negb (status_in EVICTION_PROTECTED_STATUSES e).

Lemma evict_ids_deletes self ids n :
  deletes (λ x e, bool_decide (x ∈ ids) && evictable e) self (evict_ids self ids n).1.
Proof.
  revert self n. induction ids as [|y ids IH]; intros self n; simpl.
  { eapply deletes_ext; [|apply deletes_none]. done. }
  destruct (dget (storage self) y) as [e|] eqn:He.
  - case_match eqn:Hp.
    + eapply deletes_ext; [|apply IH]. intros x e' Hx. simpl.
      destruct (decide (x = y)) as [->|]; [|repeat case_bool_decide; set_solver].
      simplify_eq. unfold evictable. rewrite Hp. simpl. by rewrite !andb_false_r.
    + eapply deletes_ext; [|eapply deletes_remove; [exact He|apply IH]]. intros x e' Hx. simpl.
      destruct (decide (x = y)) as [->|]; [|repeat case_bool_decide; set_solver].
      simplify_eq. unfold evictable. rewrite Hp. by repeat case_bool_decide; set_solver.
  - eapply deletes_ext; [|apply IH]. intros x e' Hx. simpl.
    assert (x ≠ y) by congruence. repeat case_bool_decide; set_solver.
Qed.

Lemma delete_deletes self y : deletes (λ x _, bool_decide (x = y)) self (delete self y).1.
Proof.
  unfold delete. destruct (dget (storage self) y) as [e|] eqn:He; simpl.
  - eapply deletes_ext; [|eapply deletes_remove; [exact He|apply deletes_none]].
    intros x e' _. simpl. by rewrite orb_false_r.
  - eapply deletes_ext; [|apply deletes_none]. intros x e' Hx. simpl.
    case_bool_decide; congruence.
Qed.

Lemma remove_all_deletes items self :
  NoDup items.*1 → (∀ p, p ∈ items → dget (storage self) p.1 = Some p.2) →
  deletes (λ x _, bool_decide (x ∈ items.*1)) self
    (foldl (λ self p, remove self p.1 p.2) self items).
Proof.
  revert self. induction items as [|[y e] items IH]; intros self Hnd Hin; simpl.
  { eapply deletes_ext; [|apply deletes_none]. done. }
  apply NoDup_cons in Hnd as [Hni Hnd]. simpl in *.
  eapply deletes_ext; [|eapply deletes_remove; [apply (Hin (y, e)); by left|apply IH]].
  - intros x e' Hx. simpl. repeat case_bool_decide; set_solver.
  - done.
  - intros p Hp. simpl. rewrite dget_ddel, decide_False; [apply Hin; by right|].
    intros ->. apply Hni, list_elem_of_fmap. eauto.
Qed.

Lemma purge_older_deletes now self d :
  dict_wf (storage self) →
  deletes (λ _ e, archived_updated_before (now - days d) e) self (purge_older_than now self d).1.
Proof.
  intros Hwf. unfold purge_older_than. simpl.
  set (p := λ p : string * FailedOperationData, _).
  assert (∀ q, q ∈ List.filter p (storage self) ↔ p q = true ∧ q ∈ storage self) as Hf.
  { intros q. rewrite !list_elem_of_In, filter_In. tauto. }
  eapply deletes_ext; [|apply remove_all_deletes].
  - intros x e Hx. simpl. apply eq_true_iff_eq. rewrite bool_decide_eq_true.
    rewrite list_elem_of_fmap. split.
    + intros ([x' e'] & -> & [Hp Hin]%Hf). simpl in *. apply elem_of_dict in Hin; [|done].
      by simplify_eq.
    + intros Hp. exists (x, e). split; [done|]. apply Hf. split; [done|]. by apply elem_of_dict.
  - apply (sublist_NoDup _ (storage self).*1); [exact Hwf|]. apply fmap_sublist, filter_sublist.
  - intros [x e] [_ Hin]%Hf. by apply elem_of_dict.
Qed.

(** A purge by ids stops at the first id that is not archived. *)
Lemma purge_by_ids_spec self ids n :
  let self' := (purge_by_ids self ids n).1 in
  (dlq_ok self → dlq_ok self') ∧ next_id self' = next_id self ∧
  ∀ x, dget (storage self') x = dget (storage self) x ∨
       (dget (storage self') x = None ∧
        ∃ e, dget (storage self) x = Some e ∧ status e = ARCHIVED ∧ x ∈ ids).
Proof.
  revert self n. induction ids as [|y ids IH]; intros self n; simpl; [eauto|].
  destruct (dget (storage self) y) as [e|] eqn:He.
  - case_bool_decide as Ha; simpl; [|eauto].
    destruct (IH (remove self y e) (n + 1)) as (Hok & Hn & Hg).
    split_and!; [eauto with dlq|done|]. intros x. specialize (Hg x). simpl in Hg.
    rewrite dget_ddel in Hg. case_decide as Hx; subst; [|set_solver].
    right. split; [naive_solver|]. exists e. set_solver.
  - destruct (IH self n) as (Hok & Hn & Hg). split_and!; [done..|].
    intros x. specialize (Hg x). set_solver.
Qed.

(** ** All operations *)
Lemma perform_ok now op self : dlq_ok self → dlq_ok (perform now op self).
Proof.
  intros Hok. pose proof (ok_wf _ Hok).
  destruct op as [| | | | | | | |ids d| | | | | |]; simpl.
  - by apply create_ok.
  - by apply update_status_ok.
  - by apply increment_ok.
  - by apply acquire_ok.
  - by apply complete_ok.
  - by apply return_ok.
  - apply sweep_all; auto with dlq.
  - apply sweep_all; auto with dlq.
  - unfold purge_archived. destruct ids, d; try done; [by apply purge_by_ids_spec|].
    simpl. by apply purge_older_deletes.
  - by apply delete_deletes.
  - by apply evict_ids_deletes.
  - by apply pop_ids_deletes.
  - by destruct Hok.
  - unfold update_compressed_status. case_match; [by destruct Hok|done].
  - apply clear_ok.
Qed.

Lemma perform_all_ok h self : dlq_ok self → dlq_ok (perform_all h self).
Proof. revert self. induction h as [|[now op] h IH]; simpl; [done|]. eauto using perform_ok. Qed.
#[export] Hint Resolve perform_ok perform_all_ok : dlq.

Lemma release_get now self m x :
  dict_wf (storage self) →
  dget (storage (release_stale_replaying now self m).1) x =
  swept (stale_replaying (now - minutes m)) (released now) <$> dget (storage self) x.
Proof. intros. apply sweep_all; auto with dlq. Qed.

Lemma archive_get now self d x :
  dict_wf (storage self) →
  dget (storage (archive_old_resolved now self d).1) x =
  swept (resolved_before (now - days d)) (λ e, copy_with_updates now e (new_status ARCHIVED))
    <$> dget (storage self) x.
Proof. intros. apply sweep_all; auto with dlq. Qed.

(** A purge deletes archived entries only. *)
Lemma purge_get now self ids d x :
  dict_wf (storage self) →
  dget (storage (purge_archived now self ids d).1) x = dget (storage self) x ∨
  (dget (storage (purge_archived now self ids d).1) x = None ∧
   ∃ e, dget (storage self) x = Some e ∧ status e = ARCHIVED).
Proof.
  intros Hwf. unfold purge_archived. destruct ids as [ids|], d as [d|]; simpl; try (by left).
  - destruct (purge_by_ids_spec self ids 0) as (_ & _ & Hg). specialize (Hg x). naive_solver.
  - destruct (purge_older_deletes now self d Hwf) as (_ & _ & ->).
    destruct (dget (storage self) x) as [e|]; [|by left].
    case_match eqn:Ha; [|by left]. right. split; [done|]. exists e. split; [done|].
    by apply andb_true_iff in Ha as [?%bool_decide_eq_true _].
Qed.

(** The operations on one entry: unfold, split on every guard, and read the
    store back. *)
Ltac entry_op :=
  unfold update_status, increment_retry_count, try_acquire_for_replay, complete_replay,
    return_replay_attempt, update_compressed_status in *;
  repeat (case_match; simplify_eq/=); rewrite ?dget_dset in *; repeat case_decide; simplify_eq/=.

(** One goal per way an operation can leave the entry [x], which was [e]: the
    goal reads [dget (storage (perform now op self)) x]. *)
Ltac perform_cases Hok He :=
  let Hwf := fresh "Hwf" in pose proof (ok_wf _ Hok) as Hwf;
  lazymatch goal with |- context [perform ?now ?op ?self] => destruct op; simpl in * end;
  lazymatch goal with
  | |- context [pretty (next_id _)] =>
      rewrite dget_dset; case_decide; subst; [try (rewrite next_id_fresh in He by done; done)|]
  | |- context [release_stale_replaying] => rewrite release_get by done
  | |- context [archive_old_resolved] => rewrite archive_get by done
  | |- context [dget (storage (purge_archived ?now ?self ?ids ?d).1) ?x] =>
      let e := fresh "e" in let Ha := fresh "Harch" in
      destruct (purge_get now self ids d x Hwf) as [->|[-> (e & ? & Ha)]]
  | |- context [dget (storage (delete ?self ?y).1) ?x] =>
      rewrite (proj2 (proj2 (delete_deletes self y)) x)
  | |- context [dget (storage (evict_ids ?self ?ids ?n).1) ?x] =>
      rewrite (proj2 (proj2 (evict_ids_deletes self ids n)) x)
  | |- context [dget (storage (pop_ids ?self ?ids ?n).1) ?x] =>
      rewrite (proj2 (proj2 (pop_ids_deletes self ids n)) x)
  | |- _ => entry_op
  end; rewrite ?He; simpl.

(** What an operation leaves of an entry that is there is a later version of it. *)
Lemma perform_revises now op self x e e' :
  dlq_ok self → op ≠ OpClear → dget (storage self) x = Some e →
  dget (storage (perform now op self)) x = Some e' → revises e e'.
Proof.
  intros Hok Hop He. perform_cases Hok He; try done;
    unfold swept; repeat case_match; intros; simplify_eq; auto with dlq.
Qed.

Lemma perform_next now op self :
  dlq_ok self → op ≠ OpClear → next_id self <= next_id (perform now op self).
Proof.
  intros Hok Hop. pose proof (ok_wf _ Hok) as H.
  destruct op as [| | | | | | | |ids d| | | | | |]; simpl; try done; try lia;
    try (entry_op; lia).
  - unfold release_stale_replaying.
    rewrite (proj1 (proj2 (sweep_all _ _ self (released_revises now) H))). lia.
  - unfold archive_old_resolved.
    rewrite (proj1 (proj2 (sweep_all _ _ self (λ e, copy_revises now e _) H))). lia.
  - unfold purge_archived. destruct ids as [ids|], d; simpl; try lia.
    + destruct (purge_by_ids_spec self ids 0) as (_ & -> & _). lia.
    + pose proof (proj1 (proj2 (purge_older_deletes now self z H))). simpl in *. lia.
  - destruct (delete_deletes self eid) as (_ & -> & _). lia.
  - destruct (evict_ids_deletes self ids 0) as (_ & -> & _). lia.
  - destruct (pop_ids_deletes self ids 0) as (_ & -> & _). lia.
Qed.

(** Ids are never reused: an id the counter has passed and that is no longer
    stored stays absent, short of a [clear]. *)
Lemma perform_gone now op self x n :
  dlq_ok self → op ≠ OpClear → x = pretty n → 1 <= n < next_id self →
  dget (storage self) x = None → dget (storage (perform now op self)) x = None.
Proof.
  intros Hok Hop Hx Hn He.
  perform_cases Hok He; try done; try congruence; try (by destruct (decide _)).
  exfalso. match goal with H : pretty _ = pretty _ |- _ => apply (inj pretty) in H; lia end.
Qed.

(** A sample failure: two attempts allowed. *)
Definition sample_args : create_args := {|
  c_domain := "payment"; c_failure_type := "TIMEOUT"; c_error_message := "boom";
  c_error_code := "E1"; c_entity_type := None; c_entity_id := None; c_entity_refs := [];
  c_user_id := None; c_snapshot_data := []; c_request_data := []; c_response_data := [];
  c_metadata := []; c_retry_count := 0; c_max_retries := 2; c_next_action_hint := "";
  c_recommended_action := ""; c_expires_at := None |}.
Definition sample_store : InMemoryFailedOperationRepository := (create 0 new_store sample_args).1.

Lemma sample_ok : dlq_ok sample_store.
Proof. apply create_ok, new_ok. Qed.

(** C27: Every store any history reaches is well-formed.  After any sequence of
    creations, status updates, acquisitions, completions, returned attempts,
    stale releases, archivals, purges (also those that raise halfway),
    deletions, evictions and clears, each entry is stored under its own id,
    which is a rendering of the counter below its current value, and the
    status, domain and (status, domain) indexes each hold exactly the ids of the
    entries they should. *)
Theorem every_history_well_formed h : dlq_ok (perform_all h new_store).
Proof. apply perform_all_ok, new_ok. Qed.
