(* ===== verification/DLQReplay.v ===== *)
(** * Replay: who holds an entry, how often it is tried, what eviction spares

    Theorems about histories of the dead-letter queue: acquisition is exclusive,
    the retry budget is an exact ledger, a failing entry reaches review after
    its budget and not before, and eviction spares what is being worked on. *)

From stdpp Require Import pretty.
From S2P Require Import Prelude Interleave DLQRepo DLQInv.

(** ** Histories *)

(** The operations that may end the hold on [x]: the ones that name it and set
    its status or delete it, the release of stale replays, and [clear]. *)
Definition ends_hold (x : string) (op : dlq_op) : bool :=
  match op with
  | OpUpdateStatus y _ _ _ _ _ | OpComplete y _ _ _ _ _ | OpDelete y => bool_decide (y = x)
  | OpPopIds ids => bool_decide (x ∈ ids)
  | OpReleaseStale _ | OpClear => true
  | _ => false
  end.

Lemma hold_kept now op self x e :
  dlq_ok self → dget (storage self) x = Some e → status e = REPLAYING →
  ends_hold x op = false →
  ∃ e', dget (storage (perform now op self)) x = Some e' ∧ status e' = REPLAYING.
Proof.
  intros Hok He Hst Hends. perform_cases Hok He; simplify_eq/=; eauto;
    repeat case_bool_decide; simplify_eq/=; eauto.
  - exists e. unfold swept, resolved_before. rewrite Hst. done.
  - rewrite Hst in Harch. discriminate Harch.
  - exists e. unfold evictable, status_in, EVICTION_PROTECTED_STATUSES. rewrite Hst. done.
Qed.

Lemma hold_kept_all h self x e :
  dlq_ok self → dget (storage self) x = Some e → status e = REPLAYING →
  Forall (λ p, ends_hold x p.2 = false) h →
  ∃ e', dget (storage (perform_all h self)) x = Some e' ∧ status e' = REPLAYING.
Proof.
  revert self e. induction h as [|[now op] h IH]; intros self e Hok He Hst Hh; simpl; [eauto|].
  apply Forall_cons in Hh as [Hop Hh].
  destruct (hold_kept now op self x e Hok He Hst Hop) as (e' & He' & Hst').
  by apply (IH _ e'); [apply perform_ok|..].
Qed.

(** What a successful acquisition leaves: the entry is REPLAYING and was not. *)
Lemma acquired_entry now self x cap force e' :
  (try_acquire_for_replay now self x cap force).2 = Acquired e' →
  ∃ e, dget (storage self) x = Some e ∧
    (status e = PENDING ∨ force = true ∧ status e = REQUIRES_REVIEW) ∧
    status e' = REPLAYING ∧
    retry_count e' = (if force then 1 else retry_count e + 1) ∧
    (force = false → retry_count e < cap) ∧
    dget (storage (try_acquire_for_replay now self x cap force).1) x = Some e'.
Proof.
  unfold try_acquire_for_replay. intros Hacq.
  destruct (dget (storage self) x) as [e|] eqn:He; [|done]. exists e. split; [done|].
  destruct force; simpl in *.
  - destruct (status_in FORCE_ACQUIRABLE e) eqn:Hf; simpl in *; [|done].
    apply bool_decide_eq_true in Hf. case_match; simplify_eq/=.
    rewrite dget_dset_eq. split_and!; try done. unfold FORCE_ACQUIRABLE in Hf. set_solver.
  - case_bool_decide as Hp; simpl in *; [|done]. destruct (Z.leb_spec cap (retry_count e)); simplify_eq/=.
    rewrite dget_dset_eq. split_and!; auto.
Qed.

Lemma held_refuses now self x cap force e :
  dget (storage self) x = Some e → status e = REPLAYING →
  try_acquire_for_replay now self x cap force = (self, NotAcquired).
Proof.
  intros He Hst. unfold try_acquire_for_replay, status_in, FORCE_ACQUIRABLE.
  rewrite He, Hst. by destruct force.
Qed.

(** C28: Acquisition is exclusive.  Once [try_acquire_for_replay] has handed an
    entry to a worker, then after any further operations by anyone, other than
    those that end the hold (a completion, status update or deletion of that
    entry, the release of stale replays, a clear, and the compressing
    eviction's unchecked deletion), the entry is still REPLAYING and every
    further acquisition, forced or not, is refused and changes nothing.
    Evictions, sweeps, purges and creations never end a hold. *)
Theorem replay_held_exclusively now self x cap force e h :
  dlq_ok self →
  (try_acquire_for_replay now self x cap force).2 = Acquired e →
  Forall (λ p, ends_hold x p.2 = false) h →
  let self' := perform_all h (try_acquire_for_replay now self x cap force).1 in
  (∃ e', dget (storage self') x = Some e' ∧ status e' = REPLAYING) ∧
  ∀ now' cap' force', try_acquire_for_replay now' self' x cap' force' = (self', NotAcquired).
Proof.
  intros Hok Hacq Hh self'.
  destruct (acquired_entry _ _ _ _ _ _ Hacq) as (_ & _ & _ & Hst & _ & _ & He).
  destruct (hold_kept_all h _ x e (acquire_ok now self x cap force Hok) He Hst Hh)
    as (e' & He' & Hst').
  split; [eauto|]. intros. by eapply held_refuses.
Qed.

Lemma replay_held_exclusively_witness :
  let h := [(2, OpCreate sample_args); (3, OpEvictIds ["1"]); (4, OpAcquire "1" 9 true)] in
  let self' := perform_all h (try_acquire_for_replay 1 sample_store "1" 2 false).1 in
  (∃ e', dget (storage self') "1" = Some e' ∧ status e' = REPLAYING) ∧
  ∀ now' cap' force', try_acquire_for_replay now' self' "1" cap' force' = (self', NotAcquired).
Proof.
  intros h self'. eapply (replay_held_exclusively 1 sample_store "1" 2 false).
  - apply sample_ok.
  - vm_compute. reflexivity.
  - repeat constructor.
Defined.

(** ** The attempt ledger *)

(** What an operation adds to the attempts charged to [x]. *)
Definition attempts (now : Z) (op : dlq_op) (x : string)
    (self : InMemoryFailedOperationRepository) : Z :=
  match op with
  | OpAcquire y cap false =>
      if decide (y = x) then
        match (try_acquire_for_replay now self y cap false).2 with Acquired _ => 1 | _ => 0 end
      else 0
  | OpReturn y n =>
      if decide (y = x) then if (return_replay_attempt now self y n).2 then -1 else 0 else 0
  | _ => 0
  end.

Fixpoint attempts_all (h : history) (x : string) (self : InMemoryFailedOperationRepository) : Z :=
  match h with
  | [] => 0
  | (now, op) :: h => attempts now op x self + attempts_all h x (perform now op self)
  end.

(** Histories without an operator's override of [x]'s budget (a forced redrive,
    a bare [increment_retry_count]), whose acquisitions use a cap of at most [cap]. *)
Definition within_budget (cap : Z) (x : string) (op : dlq_op) : bool :=
  match op with
  | OpAcquire y c force => bool_decide (y = x → force = false ∧ c <= cap)
  | OpIncrement y => bool_decide (y ≠ x)
  | OpClear => false
  | _ => true
  end.

Lemma released_count now e : retry_count (released now e) = retry_count e.
Proof. unfold released. by case_match. Qed.

Lemma ledger_step now op self x e e' cap :
  dlq_ok self → dget (storage self) x = Some e → within_budget cap x op = true →
  dget (storage (perform now op self)) x = Some e' →
  retry_count e' = retry_count e + attempts now op x self ∧
  (attempts now op x self <= 0 ∨ retry_count e' <= cap).
Proof.
  intros Hok He Hb. perform_cases Hok He; intros; simplify_eq/=;
    try (split; [lia|left; lia]).
  all: try (repeat case_match; simplify_eq; split; [lia|left; lia]).
  - split; [lia|]. right. lia.
  - unfold swept. case_match; rewrite ?released_count; lia.
  - unfold swept. case_match; simpl; lia.
Qed.

Lemma gone_all h self x n cap :
  dlq_ok self → Forall (λ p, within_budget cap x p.2 = true) h →
  x = pretty n → 1 <= n < next_id self → dget (storage self) x = None →
  dget (storage (perform_all h self)) x = None.
Proof.
  revert self. induction h as [|[now op] h IH]; intros self Hok Hh Hx Hn Hg; simpl; [done|].
  apply Forall_cons in Hh as [Hop Hh].
  assert (op ≠ OpClear) as Hnc by (by intros ->).
  pose proof (perform_next now op self Hok Hnc).
  apply IH; [by apply perform_ok|done|done|lia|by eapply perform_gone].
Qed.

(** C29: The retry count is an exact ledger of attempts.  Over any history, by any
    number of workers, in which nobody overrides the entry's budget and every
    acquisition uses a cap of at most [cap], an entry that still exists has been
    charged exactly the acquisitions that succeeded less the attempts that were
    handed back, and their balance never exceeds what was left of the cap. *)
Theorem retry_count_is_ledger self x e h cap e' :
  dlq_ok self → dget (storage self) x = Some e →
  Forall (λ p, within_budget cap x p.2 = true) h →
  dget (storage (perform_all h self)) x = Some e' →
  retry_count e' = retry_count e + attempts_all h x self ∧
  attempts_all h x self <= Z.max 0 (cap - retry_count e).
Proof.
  intros Hok He Hh He'.
  enough (retry_count e' = retry_count e + attempts_all h x self ∧
          retry_count e' <= Z.max cap (retry_count e)) by lia.
  revert self e Hok He He'.
  induction h as [|[now op] h IH]; intros self e Hok He He'; simpl in *; [simplify_eq; lia|].
  apply Forall_cons in Hh as [Hop Hh]. specialize (IH Hh). simpl in Hop.
  destruct (dget (storage (perform now op self)) x) as [e1|] eqn:He1.
  - destruct (ledger_step now op self x e e1 cap Hok He Hop He1) as [Hc Hb].
    destruct (IH _ e1 (perform_ok now op self Hok) He1 He') as [Hc' Hb']. lia.
  - exfalso. destruct (ok_entry _ Hok _ _ He) as (_ & _ & n & Hn & Hx).
    assert (op ≠ OpClear) as Hnc by (by intros ->).
    pose proof (perform_next now op self Hok Hnc).
    rewrite (gone_all h _ x n cap) in He'; [done|by apply perform_ok|done..|lia|done].
Qed.

Lemma retry_count_is_ledger_witness :
  let h := [(1, OpAcquire "1" 2 false); (2, OpReturn "1" 1); (3, OpReleaseStale (-1));
            (4, OpAcquire "1" 2 false); (5, OpAcquire "1" 2 false)] in
  let e := (create 0 new_store sample_args).2 in
  attempts_all h "1" sample_store = 1 ∧
  ∃ e', retry_count e' = retry_count e + attempts_all h "1" sample_store ∧
        attempts_all h "1" sample_store <= Z.max 0 (2 - retry_count e).
Proof.
  intros h e. split; [vm_compute; reflexivity|].
  eexists. apply (retry_count_is_ledger sample_store "1" e h 2).
  - apply sample_ok.
  - vm_compute. reflexivity.
  - repeat constructor.
  - vm_compute. reflexivity.
Defined.

(** ** An entry that keeps failing *)

(** One round at [now]: the entry is acquired and the replay fails, either
    reported ([None]) or interrupted and released at [Some later]. *)
Definition failed_round (x : string) (cap : Z) (self : InMemoryFailedOperationRepository)
    (r : Z * option Z) : InMemoryFailedOperationRepository :=
  match try_acquire_for_replay r.1 self x cap false with
  | (self, Acquired _) =>
      match r.2 with
      | None => (complete_replay r.1 self x false "" "replay failed" None []).1
      | Some later => (release_stale_replaying later self 0).1
      end
  | (self, _) => self
  end.

Definition PENDING_or_review (e : FailedOperationData) : Prop :=
  status e = if max_retries e <=? retry_count e then REQUIRES_REVIEW else PENDING.

Lemma failed_round_spec x cap self r e :
  dlq_ok self → dget (storage self) x = Some e → PENDING_or_review e → max_retries e = cap →
  (∀ later, r.2 = Some later → r.1 < later) →
  dlq_ok (failed_round x cap self r) ∧
  ∃ e', dget (storage (failed_round x cap self r)) x = Some e' ∧ max_retries e' = cap ∧
    PENDING_or_review e' ∧
    retry_count e' = if cap <=? retry_count e then retry_count e else retry_count e + 1.
Proof.
  intros Hok He Hst Hcap Hr. unfold failed_round, PENDING_or_review in *. rewrite Hcap in Hst.
  pose proof (acquire_ok r.1 self x cap false Hok) as Hok1. revert Hok1.
  unfold try_acquire_for_replay. rewrite He, Hst. destruct (Z.leb_spec cap (retry_count e)); simpl.
  { intros _. split; [done|]. exists e. rewrite Hcap. rewrite (proj2 (Z.leb_le _ _)); [done|lia]. }
  intros Hok1. destruct (r.2) as [later|].
  - pose proof (perform_ok later (OpReleaseStale 0) _ Hok1) as Hok2. simpl in *.
    split; [done|]. rewrite release_get by apply (ok_wf _ Hok1). simpl. rewrite dget_dset_eq.
    eexists. split; [done|]. unfold swept, stale_replaying, released. simpl.
    specialize (Hr later eq_refl). rewrite (proj2 (Z.ltb_lt _ _)) by (unfold minutes, seconds; lia).
    rewrite Hcap. destruct (Z.leb_spec cap (retry_count e + 1)); simpl; rewrite Hcap;
      [rewrite (proj2 (Z.leb_le _ _)) by lia|rewrite (proj2 (Z.leb_gt _ _)) by lia]; done.
  - pose proof (complete_ok r.1 _ x false "" "replay failed" None [] Hok1) as Hok2.
    split; [done|]. unfold complete_replay. simpl. rewrite dget_dset_eq. simpl. rewrite Hcap.
    destruct (Z.leb_spec cap (retry_count e + 1)); simpl; rewrite dget_dset_eq;
      eexists; (split; [done|]); simpl; rewrite Hcap;
      [rewrite (proj2 (Z.leb_le _ _)) by lia|rewrite (proj2 (Z.leb_gt _ _)) by lia]; done.
Qed.

(** C30: A failing entry reaches review after exactly its budget.  From a PENDING
    entry with [r] of its [cap] attempts used, after [n] further rounds, each of
    which fails or is interrupted and later released, the entry is PENDING with
    [r + n] attempts while [r + n < cap], and from then on it is in
    REQUIRES_REVIEW with exactly [cap] attempts, however many more rounds are
    tried: it is neither parked early nor retried for ever. *)
Theorem failing_entry_reaches_review x cap self e rounds :
  dlq_ok self → dget (storage self) x = Some e → status e = PENDING →
  max_retries e = cap → retry_count e < cap →
  Forall (λ r, ∀ later, r.2 = Some later → r.1 < later) rounds →
  ∃ e', dget (storage (foldl (failed_round x cap) self rounds)) x = Some e' ∧
    retry_count e' = Z.min cap (retry_count e + Zlength rounds) ∧
    status e' = if cap <=? retry_count e + Zlength rounds then REQUIRES_REVIEW else PENDING.
Proof.
  intros Hok He Hst Hcap Hlt Hr.
  assert (PENDING_or_review e) as Hp.
  { unfold PENDING_or_review. by rewrite (proj2 (Z.leb_gt _ _)) by lia. }
  assert (retry_count e <= cap) as Hle by lia. clear Hst Hlt.
  revert self e Hok He Hcap Hp Hle. induction Hr as [|r rounds Hr1 Hr IH]; intros self e Hok He Hcap Hp Hle; simpl.
  { exists e. rewrite He. split_and!; [done|unfold Zlength; simpl; lia|].
    unfold PENDING_or_review in Hp. rewrite Hp, Hcap. unfold Zlength. simpl. by rewrite Z.add_0_r. }
  destruct (failed_round_spec x cap self r e Hok He Hp Hcap Hr1) as (Hok1 & e1 & He1 & Hcap1 & Hp1 & Hc1).
  destruct (IH _ e1 Hok1 He1 Hcap1 Hp1) as (e' & He' & Hc' & Hst').
  { destruct (Z.leb_spec cap (retry_count e)); lia. }
  exists e'. split; [done|]. rewrite Hc', Hst', Hc1. unfold Zlength. simpl.
  destruct (Z.leb_spec cap (retry_count e)); (split; [lia|]).
  - by rewrite !(proj2 (Z.leb_le _ _)) by lia.
  - by rewrite <-Z.add_assoc, Z.add_1_l, Nat2Z.inj_succ.
Qed.

Lemma failing_entry_reaches_review_witness :
  let rounds := [(1, None); (2, Some 3); (4, None)] in
  ∃ e', dget (storage (foldl (failed_round "1" 2) sample_store rounds)) "1" = Some e' ∧
    retry_count e' = 2 ∧ status e' = REQUIRES_REVIEW.
Proof.
  intros rounds. apply (failing_entry_reaches_review "1" 2 sample_store (create 0 new_store sample_args).2 rounds).
  - apply sample_ok.
  - vm_compute. reflexivity.
  - reflexivity.
  - reflexivity.
  - reflexivity.
  - unfold rounds. rewrite !Forall_cons. split_and!; [naive_solver lia..|constructor].
Defined.
