(* ===== verification/DLQQueries.v ===== *)
(** * Queries, counts, eviction and the paged selection

    The secondary indexes answer like a scan of the whole store; the counts the
    size cap is enforced against are exact; eviction takes the oldest evictable
    entries and spares what is in flight; the paged selection reaches every
    replayable entry exactly once.  The order in which a Python set is iterated
    is a parameter, any permutation of its members. *)

From stdpp Require Import pretty sorting.
From S2P Require Import Prelude Interleave DLQRepo DLQInv.

Section queries.
  Context (set_order : gset string → list string).
  Context (set_order_perm : ∀ s, set_order s ≡ₚ elements s).

(** ** Reading through an index *)
Lemma elem_of_set_order x s : x ∈ set_order s ↔ x ∈ s.
Proof. by rewrite set_order_perm, elem_of_elements. Qed.

Lemma elem_of_filter_bool {A} (p : A → bool) l x : x ∈ List.filter p l ↔ p x = true ∧ x ∈ l.
Proof. rewrite !list_elem_of_In, filter_In. tauto. Qed.

Lemma NoDup_filter_bool {A} (p : A → bool) (l : list A) : NoDup l → NoDup (List.filter p l).
Proof. rewrite !NoDup_ListNoDup. apply List.NoDup_filter. Qed.

Lemma Zlength_perm {A} (l l' : list A) : l ≡ₚ l' → Zlength l = Zlength l'.
Proof. intros Hp. unfold Zlength. by rewrite Hp. Qed.

Lemma ids_of_entries self (l : list string) :
  dlq_ok self → (∀ x, x ∈ l → is_Some (dget (storage self) x)) →
  id <$> omap (dget (storage self)) l = l.
Proof.
  intros Hok. induction l as [|x l IH]; intros Hl; [done|]. simpl.
  destruct (Hl x) as [e He]; [by left|]. rewrite He. simpl.
  destruct (ok_entry _ Hok _ _ He) as [-> _]. f_equal. apply IH. intros y Hy. apply Hl. by right.
Qed.

Lemma ids_of_values self : dlq_ok self → id <$> dvals (storage self) = dkeys (storage self).
Proof.
  intros Hok. unfold dvals, dkeys. rewrite <-list_fmap_compose. apply list_fmap_ext.
  intros i [x e] Hi%list_elem_of_lookup_2. simpl.
  apply elem_of_dict in Hi; [|by apply ok_wf]. by destruct (ok_entry _ Hok _ _ Hi).
Qed.

Lemma values_NoDup self : dlq_ok self → NoDup (dvals (storage self)).
Proof. intros Hok. apply (NoDup_fmap_1 id). rewrite ids_of_values by done. by apply ok_wf. Qed.

Lemma elem_of_values self e :
  dlq_ok self → e ∈ dvals (storage self) ↔ dget (storage self) (id e) = Some e.
Proof.
  intros Hok. rewrite elem_of_dvals by (by apply ok_wf). split; [|eauto].
  intros [x Hx]. by destruct (ok_entry _ Hok _ _ Hx) as [-> _].
Qed.

(** An exact index resolves to the scan by its key. *)
Lemma resolve_exact {K} `{EqDecision K} (key : FailedOperationData → K) index self k :
  dlq_ok self → index_exact key index (storage self) →
  resolve set_order self (bucket index k) ≡ₚ
  List.filter (λ e, bool_decide (key e = k)) (dvals (storage self)).
Proof.
  intros Hok [_ Hx].
  assert (id <$> resolve set_order self (bucket index k) = set_order (bucket index k)) as Hids.
  { apply ids_of_entries; [done|]. intros x. rewrite elem_of_set_order, Hx. naive_solver. }
  apply NoDup_Permutation.
  - apply (NoDup_fmap_1 id). rewrite Hids, set_order_perm. apply NoDup_elements.
  - by apply NoDup_filter_bool, values_NoDup.
  - intros e. rewrite elem_of_filter_bool, bool_decide_eq_true, elem_of_values by done.
    unfold resolve. rewrite list_elem_of_omap. split.
    + intros (x & Hin & He). rewrite elem_of_set_order, Hx in Hin.
      destruct Hin as (e' & He' & Hk). assert (e' = e) as -> by congruence.
      by destruct (ok_entry _ Hok _ _ He) as [-> _].
    + intros [Hk He]. exists (id e). split; [|done]. rewrite elem_of_set_order, Hx. eauto.
Qed.

(** The size of an exact bucket is the number of entries it files. *)
Lemma bucket_size {K} `{EqDecision K} (key : FailedOperationData → K) index self k :
  dlq_ok self → index_exact key index (storage self) →
  set_len (bucket index k) = count_if (λ e, bool_decide (key e = k)) self.
Proof.
  intros Hok Hx. unfold count_if. rewrite <-(Zlength_perm _ _ (resolve_exact key index self k Hok Hx)).
  unfold Zlength, set_len, resolve. rewrite <-(length_fmap id), ids_of_entries; [|done|].
  - by rewrite set_order_perm.
  - intros x. rewrite elem_of_set_order, (proj2 Hx). naive_solver.
Qed.

(** What a search is asked for. *)
Definition wanted (st dom ftype : option string) (e : FailedOperationData) : bool :=
  admits st (status e) && admits dom (domain e) && admits ftype (failure_type e).

Lemma filter_filter_bool {A} (p q : A → bool) l :
  List.filter p (List.filter q l) = List.filter (λ x, q x && p x) l.
Proof.
  induction l as [|x l IH]; simpl; [done|]. destruct (q x); simpl; [|done].
  destruct (p x); by rewrite IH.
Qed.

Lemma filter_perm {A} (p : A → bool) l l' : l ≡ₚ l' → List.filter p l ≡ₚ List.filter p l'.
Proof.
  induction 1; simpl; repeat case_match; eauto using Permutation_trans, Permutation.
Qed.

Lemma filter_ext_bool {A} (p q : A → bool) l :
  (∀ x, x ∈ l → p x = q x) → List.filter p l = List.filter q l.
Proof. intros Hpq. apply filter_ext_in. intros x Hx. by apply Hpq, list_elem_of_In. Qed.

Lemma select_indexed self st dom :
  dlq_ok self →
  match st, dom with
  | Some s, Some d => resolve set_order self (bucket (index_by_status_domain self) (s, d))
  | Some s, None => resolve set_order self (bucket (index_by_status self) s)
  | None, Some d => resolve set_order self (bucket (index_by_domain self) d)
  | None, None => dvals (storage self)
  end ≡ₚ List.filter (λ e, admits st (status e) && admits dom (domain e)) (dvals (storage self)).
Proof.
  intros Hok. pose proof Hok as [_ _ _ Hs Hd Hsd]. destruct st as [s|], dom as [d|].
  - rewrite (resolve_exact status_domain) by done. apply reflexive_eq, filter_ext_bool.
    intros e _. unfold status_domain, admits. repeat case_bool_decide; naive_solver.
  - rewrite (resolve_exact status) by done. apply reflexive_eq, filter_ext_bool.
    intros e _. simpl. by rewrite andb_true_r.
  - by rewrite (resolve_exact domain) by done.
  - simpl. apply reflexive_eq. symmetry. apply forallb_filter_id. by apply forallb_forall.
Qed.

(** Searching through the indexes is searching the whole store.  Whatever
    combination of status, domain and failure type is asked for, the entries
    [find] and [count] select through the most selective index are exactly the
    entries of the store that match, each once, and [count] is their number. *)
Theorem indexed_search_is_scan self st dom ftype :
  dlq_ok self →
  select_for_find set_order self st dom ftype ≡ₚ
    List.filter (wanted st dom ftype) (dvals (storage self)) ∧
  NoDup (select_for_find set_order self st dom ftype) ∧
  count set_order self st dom ftype = count_if (wanted st dom ftype) self.
Proof.
  intros Hok.
  assert (select_for_find set_order self st dom ftype ≡ₚ
    List.filter (wanted st dom ftype) (dvals (storage self))) as Hp.
  { unfold select_for_find. destruct ftype as [f|].
    - etrans; [apply filter_perm, select_indexed; done|]. rewrite filter_filter_bool. done.
    - etrans; [apply select_indexed; done|]. apply reflexive_eq, filter_ext_bool.
      intros e _. unfold wanted. simpl. by rewrite andb_true_r. }
  split_and!; [done| |].
  - rewrite Hp. by apply NoDup_filter_bool, values_NoDup.
  - unfold count, count_if. by apply Zlength_perm.
Qed.

(** ** Counts *)
Lemma Zlength_filter_split {A} (p : A → bool) l :
  Zlength l = Zlength (List.filter p l) + Zlength (List.filter (λ x, negb (p x)) l).
Proof.
  unfold Zlength. induction l as [|x l IH]; simpl; [done|]. destruct (p x); simpl; lia.
Qed.

Definition terminal (e : FailedOperationData) : bool := status_in TERMINAL_STATUSES e.

Lemma count_terminal (l : list FailedOperationData) :
  Zlength (List.filter terminal l) =
  Zsum (map (λ st, Zlength (List.filter (λ e, bool_decide (status e = st)) l)) TERMINAL_STATUSES).
Proof.
  assert (∀ e, terminal e = bool_decide (status e = RESOLVED) ||
    bool_decide (status e = REJECTED) || bool_decide (status e = ARCHIVED)) as Ht.
  { intros e. unfold terminal, status_in, TERMINAL_STATUSES. apply eq_true_iff_eq.
    rewrite !orb_true_iff, !bool_decide_eq_true. set_solver. }
  unfold Zlength. induction l as [|e l IH]; [done|]. simpl in *. rewrite Ht.
  destruct (decide (status e = RESOLVED)) as [->|]; [simpl; lia|].
  destruct (decide (status e = REJECTED)) as [->|]; [simpl; lia|].
  destruct (decide (status e = ARCHIVED)) as [->|]; [simpl; lia|].
  rewrite !bool_decide_eq_false_2 by done. simpl. lia.
Qed.

(** The counts the size cap is enforced against are exact.  [count_all],
    computed from the store's size and three index buckets, is the number of
    entries that are not resolved, rejected or archived; [count_by_domain] is
    that number within one domain; the pending count of a domain is the number
    of its PENDING entries. *)
Theorem counts_are_exact self dom :
  dlq_ok self →
  count_all self = count_if (λ e, negb (terminal e)) self ∧
  count_by_domain set_order self dom =
    count_if (λ e, bool_decide (domain e = dom) && negb (terminal e)) self ∧
  get_pending_count_by_domain self dom =
    count_if (λ e, bool_decide (status e = PENDING) && bool_decide (domain e = dom)) self.
Proof.
  intros Hok. pose proof Hok as [_ _ _ Hs Hd Hsd]. split_and!.
  - unfold count_all, count_if.
    replace (Zlength (storage self)) with (Zlength (dvals (storage self)))
      by (unfold Zlength, dvals; by rewrite length_fmap).
    rewrite (Zlength_filter_split terminal), count_terminal. simpl.
    rewrite !(bucket_size status _ self) by done. unfold count_if. lia.
  - unfold count_by_domain, count_if. rewrite <-filter_filter_bool.
    by apply Zlength_perm, filter_perm, resolve_exact.
  - unfold get_pending_count_by_domain. rewrite (bucket_size status_domain _ self) by done.
    unfold count_if. f_equal. apply filter_ext_bool. intros e _.
    unfold status_domain. apply eq_true_iff_eq.
    rewrite andb_true_iff, !bool_decide_eq_true. apply pair_eq.
Qed.

(** *** Facets *)
Lemma dget_snoc {K V} `{EqDecision K} (d : dict K V) k v k' :
  k ∉ dkeys d → dget (d ++ [(k, v)]) k' = if decide (k = k') then Some v else dget d k'.
Proof.
  induction d as [|[k1 v1] d IH]; intros Hni; [done|]. simpl in *.
  apply not_elem_of_cons in Hni as [? ?]. rewrite IH by done.
  repeat case_decide; subst; done.
Qed.

Lemma facet_spec {K} `{EqDecision K} (key : K → option string) (index : dict K (gset string)) s n :
  dict_wf index →
  (∀ k k', key k = Some s → key k' = Some s → k = k') →
  dget (facet key index) s = Some n ↔
  ∃ k b, key k = Some s ∧ dget index k = Some b ∧ b ≠ ∅ ∧ n = set_len b.
Proof.
  intros Hwf Hinj. induction index as [|[k b] index IH] using rev_ind.
  { split; [done|]. intros (? & ? & _ & ? & _). done. }
  unfold dict_wf, dkeys in Hwf. rewrite fmap_app in Hwf.
  apply NoDup_app in Hwf as (Hwf & Hni & _). specialize (IH Hwf).
  assert (k ∉ dkeys index) as Hk by (intros Hin; apply (Hni k Hin); left).
  assert (dget index k = None) as Hnone.
  { destruct (dget index k) eqn:E; [|done]. destruct Hk. apply elem_of_dkeys. eauto. }
  setoid_rewrite dget_snoc; [|done..].
  unfold facet. rewrite foldl_app. fold (facet key index). simpl.
  destruct (decide (key k = Some s)) as [Hs|Hs].
  - rewrite Hs. case_bool_decide as Hb.
    + rewrite IH. split; intros (k' & b' & Hk' & Hb' & Hne & Hn); exists k', b';
        assert (k = k') as <- by eauto; try rewrite decide_True in *; naive_solver.
    + rewrite dget_dset_eq. split.
      * intros [= <-]. exists k, b. by rewrite decide_True.
      * intros (k' & b' & Hk' & Hb' & Hne & Hn). assert (k = k') as <- by eauto.
        rewrite decide_True in Hb' by done. by simplify_eq.
  - assert (dget match key k with
                 | Some k0 => if bool_decide (b = ∅) then facet key index
                              else dset (facet key index) k0 (set_len b)
                 | None => facet key index end s = dget (facet key index) s) as ->.
    { destruct (key k) as [s'|]; [|done]. case_bool_decide; [done|].
      apply dget_dset_ne. congruence. }
    rewrite IH. split; intros (k' & b' & Hk' & Hb' & Hne & Hn); exists k', b';
      (assert (k ≠ k') by congruence; rewrite decide_False in * by done; done).
Qed.

(** The facet over an exact index counts the entries under each key. *)
Lemma facet_counts {K} `{EqDecision K} (file : FailedOperationData → K) (key : K → option string)
    (label : FailedOperationData → option string) index self s n :
  dlq_ok self → index_exact file index (storage self) →
  (∀ e, key (file e) = label e) →
  (∀ k k', key k = Some s → key k' = Some s → k = k') →
  dget (facet key index) s = Some n ↔
  n = count_if (λ e, bool_decide (label e = Some s)) self ∧ 0 < n.
Proof.
  intros Hok Hx Hlab Hinj. rewrite facet_spec by (done || apply Hx).
  assert (∀ k, key k = Some s → set_len (bucket index k) =
    count_if (λ e, bool_decide (label e = Some s)) self) as Hsize.
  { intros k Hk. rewrite (bucket_size file _ self) by done. unfold count_if. f_equal.
    apply filter_ext_bool. intros e _. apply eq_true_iff_eq. rewrite !bool_decide_eq_true.
    rewrite <-Hlab. split; [congruence|eauto]. }
  assert (∀ b : gset string, b ≠ ∅ ↔ 0 < set_len b) as Hpos.
  { intros b. unfold set_len. split.
    - intros Hne. destruct (decide (size b = 0%nat)) as [?%size_empty_inv|]; [|lia].
      destruct Hne. by apply leibniz_equiv.
    - intros Hlt ->. rewrite size_empty in Hlt. lia. }
  split.
  - intros (k & b & Hk & Hb & Hne & ->). apply Hpos in Hne. split; [|done].
    rewrite <-(Hsize k Hk). unfold bucket. by rewrite Hb.
  - intros [-> Hn]. assert (∃ e, label e = Some s) as [e He].
    { unfold count_if in Hn. destruct (List.filter _ _) as [|e l] eqn:Hf; [done|].
      assert (e ∈ e :: l) as Hin by left. rewrite <-Hf in Hin.
      apply elem_of_filter_bool in Hin as [?%bool_decide_eq_true _]. eauto. }
    rewrite <-Hlab in He. rewrite <-(Hsize _ He) in Hn |- *. unfold bucket in *.
    destruct (dget index (file e)) as [b|] eqn:Hb; [|done].
    exists (file e), b. rewrite Hpos. done.
Qed.

Lemma count_if_ext p q self : (∀ e, p e = q e) → count_if p self = count_if q self.
Proof. intros Hpq. unfold count_if. f_equal. by apply filter_ext_bool. Qed.

(** A two-dimensional index read along one of its keys. *)
Lemma facet_counts_2d self side scope along fixed s n :
  dlq_ok self →
  (side, along, fixed) = (@snd string string, @fst string string, domain) ∨
  (side, along, fixed) = (@fst string string, @snd string string, status) →
  dget (facet (λ k, if bool_decide (side k = scope) then Some (along k) else None)
          (index_by_status_domain self)) s = Some n ↔
  n = count_if (λ e, bool_decide (fixed e = scope) &&
                     bool_decide (along (status_domain e) = s)) self ∧ 0 < n.
Proof.
  intros Hok Hax.
  rewrite (facet_counts status_domain _ (λ e, if bool_decide (fixed e = scope)
    then Some (along (status_domain e)) else None) _ self); [|done|by destruct Hok|..].
  - rewrite (count_if_ext _ (λ e, bool_decide (fixed e = scope) &&
      bool_decide (along (status_domain e) = s))); [done|].
    intros e. destruct (bool_decide (fixed e = scope)); simpl.
    + apply bool_decide_ext. split; congruence.
    + done.
  - intros e. destruct Hax as [[= -> -> ->]|[= -> -> ->]]; done.
  - intros [k1 k2] [k1' k2'] ? ?. destruct Hax as [[= -> -> ->]|[= -> -> ->]];
      repeat case_bool_decide; simplify_eq/=; congruence.
Qed.

(** Facet counts are exact and drop empty buckets.  The [by_status] facet,
    scoped by a domain when one is given, maps a status to the number of
    matching entries and lists no status with none, although drained buckets
    linger in the indexes; likewise [by_domain], scoped by a status. *)
Theorem facets_are_exact self st dom s n :
  dlq_ok self →
  (dget (get_facet_counts self st dom).1 s = Some n ↔
     n = count_if (wanted (Some s) dom None) self ∧ 0 < n) ∧
  (dget (get_facet_counts self st dom).2 s = Some n ↔
     n = count_if (wanted st (Some s) None) self ∧ 0 < n).
Proof.
  intros Hok. pose proof Hok as [_ _ _ Hs Hd Hsd].
  unfold get_facet_counts. simpl. split.
  - destruct dom as [d|]; simpl.
    + rewrite (facet_counts_2d self snd d fst domain) by auto.
      erewrite count_if_ext; [done|]. intros e. unfold wanted. simpl.
      by rewrite andb_true_r, andb_comm.
    + rewrite (facet_counts status Some (λ e, Some (status e)) _ self) by (done || congruence).
      erewrite count_if_ext; [done|]. intros e. unfold wanted. simpl.
      rewrite !andb_true_r. repeat case_bool_decide; congruence.
  - destruct st as [d|]; simpl.
    + rewrite (facet_counts_2d self fst d snd status) by auto.
      erewrite count_if_ext; [done|]. intros e. unfold wanted. simpl. by rewrite andb_true_r.
    + rewrite (facet_counts domain Some (λ e, Some (domain e)) _ self) by (done || congruence).
      erewrite count_if_ext; [done|]. intros e. unfold wanted. simpl.
      rewrite !andb_true_r. repeat case_bool_decide; congruence.
Qed.
End queries.

(** ** The theorems at concrete stores *)

(** Three entries, one of them archived, under two domains. *)
Definition other_args : create_args := {|
  c_domain := "search"; c_failure_type := "TIMEOUT"; c_error_message := "boom";
  c_error_code := "E1"; c_entity_type := None; c_entity_id := None; c_entity_refs := [];
  c_user_id := None; c_snapshot_data := []; c_request_data := []; c_response_data := [];
  c_metadata := []; c_retry_count := 0; c_max_retries := 2; c_next_action_hint := "";
  c_recommended_action := ""; c_expires_at := None |}.
Definition three_entries : InMemoryFailedOperationRepository :=
  perform_all [(3, OpCreate other_args); (1, OpCreate sample_args); (2, OpCreate sample_args);
               (5, OpUpdateStatus "2" ARCHIVED "" "" None "")] new_store.

Lemma three_entries_ok : dlq_ok three_entries.
Proof. apply perform_all_ok, new_ok. Qed.

Definition py_set_order : gset string → list string := elements.
Lemma py_set_order_perm s : py_set_order s ≡ₚ elements s.
Proof. done. Qed.

Lemma indexed_search_is_scan_witness :
  map id (select_for_find py_set_order three_entries (Some PENDING) (Some "payment") None) = ["3"] ∧
  count py_set_order three_entries (Some PENDING) (Some "payment") None =
    count_if (wanted (Some PENDING) (Some "payment") None) three_entries.
Proof.
  split; [vm_compute; reflexivity|].
  apply (indexed_search_is_scan py_set_order py_set_order_perm three_entries
    (Some PENDING) (Some "payment") None three_entries_ok).
Defined.

Lemma counts_are_exact_witness :
  count_all three_entries = 2 ∧
  count_by_domain py_set_order three_entries "payment" =
    count_if (λ e, bool_decide (domain e = "payment") && negb (terminal e)) three_entries.
Proof.
  split; [vm_compute; reflexivity|].
  apply (counts_are_exact py_set_order py_set_order_perm three_entries "payment" three_entries_ok).
Defined.

Lemma facets_are_exact_witness :
  dget (get_facet_counts three_entries None (Some "payment")).1 ARCHIVED = Some 1.
Proof.
  apply (facets_are_exact py_set_order py_set_order_perm three_entries None (Some "payment")
    ARCHIVED 1 three_entries_ok).
  split; vm_compute; reflexivity.
Defined.
