(* ===== verification/DLQEvict.v ===== *)
(** * Eviction

    The size cap evicts the oldest evictable entries: which ones, how many, and
    what is spared when other threads run between the selection and the
    deletion. *)

From stdpp Require Import pretty.
From S2P Require Import Prelude Interleave DLQRepo DLQInv DLQQueries.

Section eviction.
  Context (set_order : gset string → list string).
  Context (set_order_perm : ∀ s, set_order s ≡ₚ elements s).

(** What the candidate scan may pick for a domain ([None]: any). *)
Definition candidate (dom : option string) (e : FailedOperationData) : bool :=
  negb (status_in NON_EVICTABLE_STATUSES e) && admits (truthy dom) (domain e).

Definition candidates (self : InMemoryFailedOperationRepository) (dom : option string) :
    list (string * FailedOperationData) :=
  List.filter (λ p, negb (status_in NON_EVICTABLE_STATUSES p.2))
    (match truthy dom with
     | Some d => omap (λ eid, e ← dget (storage self) eid; Some (eid, e))
                   (set_order (bucket (index_by_domain self) d))
     | None => storage self
     end).

Lemma filter_snd {A B} (f : B → bool) (l : list (A * B)) :
  (List.filter (λ p, f p.2) l).*2 = List.filter f l.*2.
Proof. induction l as [|[a b] l IH]; simpl; [done|]. destruct (f b); [simpl; f_equal|]; exact IH. Qed.

Lemma omap_pairs (d : dict string FailedOperationData) (l : list string) :
  (omap (λ x, e ← dget d x; Some (x, e)) l).*2 = omap (dget d) l.
Proof. induction l as [|x l IH]; simpl; [done|]. destruct (dget d x); [simpl; f_equal|]; exact IH. Qed.

Lemma candidates_stored self dom x e :
  dlq_ok self → (x, e) ∈ candidates self dom → dget (storage self) x = Some e.
Proof.
  intros Hok [_ Hin]%elem_of_filter_bool. destruct (truthy dom) as [d|].
  - apply list_elem_of_omap in Hin as (y & _ & Hy).
    destruct (dget (storage self) y) eqn:E; simplify_eq/=. done.
  - apply elem_of_dict; [by apply ok_wf|done].
Qed.

(** The scan through the domain index, or through the whole store, yields
    exactly the candidates. *)
Lemma candidates_values self dom :
  dlq_ok self →
  (candidates self dom).*2 ≡ₚ List.filter (candidate dom) (dvals (storage self)).
Proof.
  intros Hok. pose proof Hok as [_ _ _ _ Hd _]. unfold candidates, candidate.
  rewrite (filter_snd (λ e, negb (status_in NON_EVICTABLE_STATUSES e))).
  destruct (truthy dom) as [d|]; simpl.
  - rewrite omap_pairs. etrans.
    { apply filter_perm, (resolve_exact set_order set_order_perm domain _ self d Hok Hd). }
    rewrite filter_filter_bool. apply reflexive_eq, filter_ext_bool.
    intros e _. by rewrite andb_comm.
  - apply reflexive_eq, filter_ext_bool. intros e _. by rewrite andb_true_r.
Qed.

Lemma candidates_ids self dom :
  dlq_ok self → (candidates self dom).*1 = id <$> (candidates self dom).*2.
Proof.
  intros Hok. rewrite <-list_fmap_compose. apply list_fmap_ext.
  intros i [x e] Hi%list_elem_of_lookup_2. simpl.
  apply candidates_stored in Hi; [|done]. by destruct (ok_entry _ Hok _ _ Hi) as [-> _].
Qed.

Lemma candidates_spec self dom :
  dlq_ok self →
  NoDup (candidates self dom).*1 ∧
  (∀ x e, dget (storage self) x = Some e → candidate dom e = true → (x, e) ∈ candidates self dom) ∧
  (∀ x e, (x, e) ∈ candidates self dom → dget (storage self) x = Some e ∧ candidate dom e = true) ∧
  Zlength (candidates self dom) = count_if (candidate dom) self.
Proof.
  intros Hok. pose proof (candidates_values self dom Hok) as Hv. split_and!.
  - rewrite candidates_ids by done. rewrite Hv. apply (sublist_NoDup _ (dkeys (storage self))).
    { by apply ok_wf. }
    rewrite <-(ids_of_values self Hok). apply fmap_sublist. apply filter_sublist.
  - intros x e He Hc. assert (e ∈ (candidates self dom).*2) as Hin.
    { rewrite Hv, elem_of_filter_bool, elem_of_values by done. split; [done|].
      by destruct (ok_entry _ Hok _ _ He) as [-> _]. }
    apply list_elem_of_fmap in Hin as ([y e'] & -> & Hin). simpl in *.
    pose proof (candidates_stored _ _ _ _ Hok Hin) as Hy.
    destruct (ok_entry _ Hok _ _ He) as [<- _]. by destruct (ok_entry _ Hok _ _ Hy) as [-> _].
  - intros x e Hin. split; [by eapply candidates_stored|].
    assert (e ∈ (candidates self dom).*2) as Hin2 by (apply list_elem_of_fmap; by exists (x, e)).
    rewrite Hv, elem_of_filter_bool in Hin2. naive_solver.
  - unfold count_if. rewrite <-(Zlength_perm _ _ Hv). unfold Zlength. by rewrite length_fmap.
Qed.

Lemma evict_ids_count self ids n :
  NoDup ids →
  (∀ x, x ∈ ids → ∃ e, dget (storage self) x = Some e ∧ evictable e = true) →
  (evict_ids self ids n).2 = n + Zlength ids.
Proof.
  revert self n. induction ids as [|x ids IH]; intros self n Hnd Hall; simpl.
  { unfold Zlength. simpl. lia. }
  apply NoDup_cons in Hnd as [Hni Hnd]. destruct (Hall x) as (e & He & Hev); [by left|].
  rewrite He. unfold evictable in Hev. apply negb_true_iff in Hev. rewrite Hev.
  rewrite IH; [unfold Zlength; simpl; lia|done|]. intros y Hy.
  destruct (Hall y) as (e' & He' & Hev'); [by right|]. exists e'. split; [|done].
  simpl. rewrite dget_ddel_ne by set_solver. done.
Qed.

Lemma candidate_evictable dom e : candidate dom e = true → evictable e = true.
Proof.
  unfold candidate, evictable. intros [Hn _]%andb_true_iff.
  apply negb_true_iff in Hn. apply negb_true_iff. unfold status_in in *.
  apply bool_decide_eq_false in Hn. apply bool_decide_eq_false.
  unfold NON_EVICTABLE_STATUSES in Hn. set_solver.
Qed.

(** The ids [get_oldest_ids] picks. *)
Lemma get_oldest_ids_spec now self n dom :
  dlq_ok self → 0 <= n →
  let ids := get_oldest_ids set_order now self n dom in
  NoDup ids ∧ Zlength ids = Z.min n (count_if (candidate dom) self) ∧
  ∀ x, x ∈ ids → ∃ e, dget (storage self) x = Some e ∧ candidate dom e = true ∧
    ∀ y e', dget (storage self) y = Some e' → candidate dom e' = true → y ∉ ids →
      default now (created_at e) <= default now (created_at e').
Proof.
  intros Hok Hn ids. destruct (candidates_spec self dom Hok) as (Hnd & Hin & Hout & Hlen).
  pose proof (sort_by_perm (λ p : string * FailedOperationData, default now (created_at p.2))
    (candidates self dom)) as Hp.
  pose proof (sort_by_sorted (λ p : string * FailedOperationData, default now (created_at p.2))
    (candidates self dom)) as Hs.
  set (sorted := sort_by _ _) in *.
  assert (ids = (take (Z.to_nat n) sorted).*1) as Hids.
  { unfold ids, get_oldest_ids. fold (candidates self dom). unfold py_take.
    by rewrite (proj2 (Z.ltb_ge n 0)). }
  split_and!.
  - rewrite Hids, <-firstn_map. apply (sublist_NoDup _ sorted.*1); [by rewrite Hp|].
    apply sublist_take.
  - rewrite <-Hlen, Hids. unfold Zlength. rewrite length_fmap, length_take, Hp. lia.
  - intros x. rewrite Hids. intros ([x' e] & -> & Hx)%list_elem_of_fmap. simpl.
    assert ((x', e) ∈ candidates self dom) as Hc.
    { rewrite <-Hp. rewrite <-(take_drop (Z.to_nat n) sorted). apply elem_of_app. by left. }
    apply Hout in Hc as [He Hc]. exists e. split_and!; [done..|].
    intros y e' Hy Hc' Hni.
    assert ((y, e') ∈ sorted) as Hys by (rewrite Hp; by apply Hin).
    rewrite <-(take_drop (Z.to_nat n) sorted) in Hys. apply elem_of_app in Hys as [Hys|Hys].
    + destruct Hni. apply list_elem_of_fmap. by exists (y, e').
    + apply Sorted_StronglySorted in Hs; [|intros ???; lia].
      apply (sorted_split _ _ _ (x', e) (y, e') Hs Hx Hys).
Qed.

(** Eviction takes the oldest evictable entries, as many as asked.  Run
    alone, [evict_oldest] deletes exactly as many candidates as asked for, or all
    of them, reports that number, leaves every other entry as it was, and no
    candidate it leaves is older than one it took.  Finished and in-flight
    entries, and other domains' when a domain is given, are never candidates. *)
Theorem evict_oldest_takes_oldest now self n dom :
  dlq_ok self → 0 <= n →
  ∃ self' (victims : list string),
    run (evict_oldest set_order now n dom) self = (self', inr (Zlength victims)) ∧
    NoDup victims ∧ Zlength victims = Z.min n (count_if (candidate dom) self) ∧
    (∀ x, dget (storage self') x =
            if decide (x ∈ victims) then None else dget (storage self) x) ∧
    ∀ x, x ∈ victims → ∃ e, dget (storage self) x = Some e ∧ candidate dom e = true ∧
      ∀ y e', dget (storage self') y = Some e' → candidate dom e' = true →
        default now (created_at e) <= default now (created_at e').
Proof.
  intros Hok Hn. destruct (get_oldest_ids_spec now self n dom Hok Hn) as (Hnd & Hlen & Hold).
  set (ids := get_oldest_ids set_order now self n dom) in *.
  assert (∀ x, x ∈ ids → ∃ e, dget (storage self) x = Some e ∧ evictable e = true) as Hev.
  { intros x Hx. destruct (Hold x Hx) as (e & ? & ? & _). eauto using candidate_evictable. }
  assert (∀ x, dget (storage (evict_ids self ids 0).1) x =
    if decide (x ∈ ids) then None else dget (storage self) x) as Hget.
  { intros x. destruct (evict_ids_deletes self ids 0) as (_ & _ & ->).
    case_decide as Hx.
    - destruct (Hev x Hx) as (e & -> & ->). by rewrite bool_decide_eq_true_2.
    - rewrite bool_decide_eq_false_2 by done. by destruct (dget _ _). }
  exists (evict_ids self ids 0).1, ids. split_and!; [|done|done|done|].
  - unfold evict_oldest. autorewrite with run. simpl. fold ids.
    rewrite (evict_ids_count self ids 0 Hnd Hev). done.
  - intros x Hx. destruct (Hold x Hx) as (e & He & Hc & Hmin). exists e. split_and!; [done..|].
    intros y e'. rewrite Hget. case_decide; [done|]. intros. by eapply Hmin.
Qed.

(** Every entry that is REPLAYING or REVIEWING is left exactly as it is. *)
Definition spares_in_flight (self self' : InMemoryFailedOperationRepository) : Prop :=
  ∀ x e, dget (storage self) x = Some e →
    status_in EVICTION_PROTECTED_STATUSES e = true → dget (storage self') x = Some e.

(** Eviction never deletes work in flight.  Whatever other threads do
    between the candidate selection and the deletion, every step of
    [evict_oldest] keeps the store well-formed and leaves every entry that is
    REPLAYING or REVIEWING at that moment exactly as it is, even one that was
    acquired after it had been selected. *)
Theorem eviction_spares_in_flight now n dom :
  obeys dlq_ok spares_in_flight (evict_oldest set_order now n dom).
Proof.
  apply obeys_ebind.
  { apply obeys_atomically. intros self Hok. by split; [|intros x e He _]. }
  intros ids. apply obeys_atomically.
  intros self Hok. destruct (evict_ids_deletes self ids 0) as (Hok' & _ & Hget).
  split; [auto|]. intros x e He Hp. rewrite Hget, He. unfold evictable. rewrite Hp.
  by rewrite andb_false_r.
Qed.
End eviction.

Lemma evict_oldest_takes_oldest_witness :
  ∃ self' (victims : list string),
    run (evict_oldest py_set_order 9 1 None) three_entries = (self', inr (Zlength victims)) ∧
    Zlength victims = 1.
Proof.
  destruct (evict_oldest_takes_oldest py_set_order py_set_order_perm 9 three_entries 1 None
    three_entries_ok) as (self' & victims & Hrun & _ & Hlen & _); [lia|].
  exists self', victims. split; [exact Hrun|]. rewrite Hlen. vm_compute. reflexivity.
Defined.

(** ** Two disagreements *)

(** Another thread's acquisition of the sample entry. *)
Definition acquire_meanwhile (now : Z) : eprog InMemoryFailedOperationRepository acquired :=
  atomically (λ self, try_acquire_for_replay now self "1" 2 false).

(** The compressing eviction can delete work in flight.  A worker acquires an
    entry after [compress_and_evict_oldest] has selected it: the acquisition
    succeeds and the entry is REPLAYING, and the eviction then deletes it
    anyway, because its deletion pass does not look at the status again, unlike
    [evict_oldest]'s; the worker's completion finds no entry. *)
Theorem compression_deletes_in_flight :
  let '(self', result, acquisition) :=
    overtaken 2 (compress_and_evict_oldest py_set_order (λ _, Some []) 5 1 None)
      (acquire_meanwhile 6) sample_store in
  (∃ e, acquisition = inr (Acquired e) ∧ status e = REPLAYING) ∧ result = inr 1 ∧
  get_by_id self' "1" = None ∧
  complete_replay 7 self' "1" true "" "" None [] = (self', false).
Proof. vm_compute. split_and!; [eexists; split; reflexivity|reflexivity..]. Qed.

(** The same race against [evict_oldest] spares the entry. *)
Lemma eviction_rechecks :
  let '(self', result, _) :=
    overtaken 1 (evict_oldest py_set_order 5 1 None)
      (acquire_meanwhile 6) sample_store in
  result = inr 0 ∧ is_Some (get_by_id self' "1").
Proof. vm_compute. split; [reflexivity|eexists; reflexivity]. Qed.

(** Resolved on day 0, archived on day 31. *)
Definition archived_late : InMemoryFailedOperationRepository := perform_all
  [(0, OpUpdateStatus "1" RESOLVED "" "" None ""); (days 31, OpArchive 30)] sample_store.

(** The purge preview and the purge disagree.  An entry resolved on day 0 and
    archived on day 31 counts, on day 40, as archived for more than 10 days
    ([count_archived_older_than] looks at the resolution time), and purging the
    entries archived for more than 10 days deletes nothing ([purge_archived]
    looks at the last update, which the archiving was). *)
Theorem purge_preview_disagrees :
  count_archived_older_than (days 40) archived_late 10 = 1 ∧
  purge_archived (days 40) archived_late None (Some 10) = (archived_late, inr 0).
Proof. vm_compute. split; reflexivity. Qed.
