(* ===== verification/DLQPaging.v ===== *)
(** * The paged selection of replayable entries

    Every page returns the smallest matches above its cursor and a cursor that
    never passes an unreturned match, so that a walk, even one during which the
    store keeps changing, returns each entry that stays replayable exactly once
    when its cursor passes it. *)

From stdpp Require Import pretty sorting.
From S2P Require Import Prelude Interleave DLQRepo DLQInv DLQQueries.

(** ** Positions are totally ordered *)
#[global] Instance pos_le_refl : Reflexive pos_le.
Proof. intros p. right. by split. Qed.

#[global] Instance pos_le_trans : Transitive pos_le.
Proof.
  intros p q r [?|[? ?]] [?|[? ?]]; [left; lia..|right].
  split; [lia|by etrans].
Qed.

#[global] Instance pos_le_antisymm : AntiSymm (=) pos_le.
Proof.
  intros [a x] [b y] [?|[? ?]] [?|[? ?]]; simpl in *; try lia.
  f_equal; [done|by apply (anti_symm String.le)].
Qed.

#[global] Instance pos_le_total : Total pos_le.
Proof.
  intros [a x] [b y]. unfold pos_le. simpl.
  destruct (Z.lt_trichotomy a b) as [?|[->|?]]; [by left; left| |by right; left].
  destruct (total String.le x y); [left|right]; by right.
Qed.

Lemma pos_not_le p q : ¬ pos_le p q → pos_le q p.
Proof. intros Hn. by destruct (total pos_le p q). Qed.

Definition pos_lt (p q : position) : Prop := ¬ pos_le q p.

(** Where an entry is in the walk. *)
Definition position_of (e : FailedOperationData) : option position :=
  t ← created_at e; Some (t, id e).

(** Strictly above a cursor. *)
Definition above (floor : option position) (p : position) : Prop :=
  match floor with Some f => ¬ pos_le p f | None => True end.

#[global] Instance above_dec floor p : Decision (above floor p).
Proof. destruct floor; apply _. Defined.

Lemma above_mono floor p q : above floor p → pos_le p q → above floor q.
Proof. destruct floor as [f|]; simpl; [|done]. intros Hp Hpq Hq. apply Hp. by etrans. Qed.

Lemma highest_spec ps :
  match highest ps with
  | Some h => (∃ e, (h, e) ∈ ps) ∧ ∀ q, q ∈ ps → pos_le q.1 h
  | None => ps = []
  end.
Proof.
  induction ps as [|[p e] ps IH] using rev_ind; [done|].
  unfold highest. rewrite foldl_app. fold (highest ps). simpl.
  destruct (highest ps) as [h|]; simpl.
  - destruct IH as [[e0 He0] Hmax]. case_decide as Hle; simpl.
    + split; [exists e0; set_solver|]. intros q. rewrite elem_of_app, list_elem_of_singleton.
      intros [?| ->]; auto.
    + split; [exists e; set_solver|]. intros q. rewrite elem_of_app, list_elem_of_singleton.
      intros [?| ->]; [|done]. etrans; [by apply Hmax|]. by apply pos_not_le.
  - subst. split; [exists e; set_solver|]. intros q ->%list_elem_of_singleton. done.
Qed.

Section paging.
  Context (set_order : gset string → list string).
  Context (set_order_perm : ∀ s, set_order s ≡ₚ elements s).
  Context (cap : Z) (dom ftype source : option string) (limit : Z).
  Context (limit_pos : 1 <= limit).

Definition the_page (self : InMemoryFailedOperationRepository) (cursor : option position) :
    ReplayablePage := find_replayable_page set_order self cap dom ftype source limit cursor.

(** A PENDING entry of the selected domain, at its position. *)
Definition pending_at (self : InMemoryFailedOperationRepository) (p : position)
    (e : FailedOperationData) : Prop :=
  dget (storage self) (id e) = Some e ∧ status e = PENDING ∧
  admits (truthy dom) (domain e) = true ∧ created_at e = Some p.1 ∧ p.2 = id e.

(** A replayable one. *)
Definition match_at (self : InMemoryFailedOperationRepository) (p : position)
    (e : FailedOperationData) : Prop :=
  pending_at self p e ∧ replayable cap ftype source e = true.

Definition scan_ids (self : InMemoryFailedOperationRepository) : gset string :=
  match truthy dom with
  | Some d => bucket (index_by_status_domain self) (PENDING, d)
  | None => bucket (index_by_status self) PENDING
  end.

Definition scan (self : InMemoryFailedOperationRepository) (cursor : option position) :
    list (position * FailedOperationData) := examined self cursor (set_order (scan_ids self)).

Definition matches (self : InMemoryFailedOperationRepository) (cursor : option position) :
    list (position * FailedOperationData) :=
  List.filter (λ p, replayable cap ftype source p.2) (scan self cursor).

Lemma elem_of_scan_ids self x :
  dlq_ok self →
  x ∈ scan_ids self ↔
  ∃ e, dget (storage self) x = Some e ∧ status e = PENDING ∧ admits (truthy dom) (domain e) = true.
Proof.
  intros Hok. pose proof Hok as [_ _ _ [_ Hs] _ [_ Hsd]]. unfold scan_ids.
  destruct (truthy dom) as [d|]; simpl.
  - rewrite Hsd. setoid_rewrite bool_decide_eq_true. unfold status_domain.
    setoid_rewrite pair_eq. done.
  - rewrite Hs. naive_solver.
Qed.

Lemma elem_of_scan self cursor p e :
  dlq_ok self → (p, e) ∈ scan self cursor ↔ pending_at self p e ∧ above cursor p.
Proof.
  intros Hok. unfold scan, examined. rewrite list_elem_of_omap.
  setoid_rewrite elem_of_set_order; [|done]. setoid_rewrite elem_of_scan_ids; [|done]. split.
  - intros (x & (e1 & He1 & Hst & Hdom) & Hx). rewrite He1 in Hx. simpl in Hx.
    destruct (created_at e1) as [t|] eqn:Ht; [|done]. simpl in Hx.
    destruct (ok_entry _ Hok _ _ He1) as (Hid & _ & _).
    assert (above cursor (t, id e1) ∧ ((t, id e1), e1) = (p, e)) as [Ha [= <- <-]].
    { destruct cursor as [f|]; [case_decide; [done|]|]; by simplify_eq. }
    split; [|done]. rewrite <-Hid in He1. done.
  - intros [(He & Hst & Hdom & Ht & Hp) Ha]. exists (id e). split; [eauto|].
    rewrite He. simpl. rewrite Ht. simpl. destruct p as [t x]. simpl in *. subst x.
    destruct cursor as [f|]; [|done]. by rewrite decide_False.
Qed.

Lemma elem_of_matches self cursor p e :
  dlq_ok self → (p, e) ∈ matches self cursor ↔ match_at self p e ∧ above cursor p.
Proof.
  intros Hok. unfold matches, match_at. rewrite elem_of_filter_bool, elem_of_scan by done.
  simpl. tauto.
Qed.

Lemma matches_NoDup self cursor : dlq_ok self → NoDup (id <$> (matches self cursor).*2).
Proof.
  intros Hok. apply (sublist_NoDup _ (id <$> (scan self cursor).*2)).
  - assert (sublist (id <$> (scan self cursor).*2) (set_order (scan_ids self))) as Hsub.
    { unfold scan, examined.
      assert (∀ x, x ∈ set_order (scan_ids self) → ∀ e, dget (storage self) x = Some e → id e = x)
        as Hid by (intros x _ e He; apply (ok_entry _ Hok _ _ He)).
      induction (set_order (scan_ids self)) as [|x l IH]; [constructor|]. simpl.
      destruct (dget (storage self) x) as [e|] eqn:He; simpl; [|constructor; apply IH; set_solver].
      destruct (created_at e) as [t|]; simpl; [|constructor; apply IH; set_solver].
      destruct cursor as [f|]; [case_decide|]; simpl;
        rewrite ?(Hid x ltac:(set_solver) e He); constructor; apply IH; set_solver. }
    eapply sublist_NoDup; [|done]. rewrite set_order_perm. apply NoDup_elements.
  - apply fmap_sublist, fmap_sublist, filter_sublist.
Qed.

Definition selected (self : InMemoryFailedOperationRepository) (cursor : option position) :
    list (position * FailedOperationData) := nsmallest limit (matches self cursor).

(** The page in those terms. *)
Lemma the_page_eq self cursor :
  the_page self cursor = {|
    entries := (selected self cursor).*2;
    next_cursor :=
      match last (selected self cursor) with
      | Some p => if Zlength (selected self cursor) <? Zlength (matches self cursor)
                  then Some p.1 else highest (scan self cursor)
      | None => highest (scan self cursor)
      end;
    scan_exhausted := false |}.
Proof. done. Qed.

Definition by_position (p q : position * FailedOperationData) : Prop := pos_le p.1 q.1.

#[local] Instance by_position_refl : Reflexive by_position.
Proof. intros p. apply pos_le_refl. Qed.
#[local] Instance by_position_trans : Transitive by_position.
Proof. intros p q r. apply pos_le_trans. Qed.
#[local] Instance by_position_total : Total by_position.
Proof. intros p q. apply (total pos_le). Qed.

(** Matches as the walk sees them. *)
Definition ahead (self : InMemoryFailedOperationRepository) (cursor : option position)
    (p : position) (e : FailedOperationData) : Prop := match_at self p e ∧ above cursor p.

Lemma match_at_inj self p e e' : match_at self p e → match_at self p e' → e = e'.
Proof. intros [(? & _ & _ & _ & Hp) _] [(? & _ & _ & _ & Hp') _]. congruence. Qed.

Definition sorted_matches (self : InMemoryFailedOperationRepository) (cursor : option position) :=
  merge_sort by_position (matches self cursor).

Lemma sorted_matches_spec self cursor :
  sorted_matches self cursor ≡ₚ matches self cursor ∧
  StronglySorted by_position (sorted_matches self cursor) ∧
  selected self cursor = take (Z.to_nat limit) (sorted_matches self cursor) ∧
  Zlength (matches self cursor) = Zlength (sorted_matches self cursor).
Proof.
  pose proof (merge_sort_Permutation by_position (matches self cursor)) as Hp. split_and!.
  - done.
  - apply StronglySorted_merge_sort; apply _.
  - done.
  - unfold Zlength, sorted_matches. by rewrite Hp.
Qed.

(** A page that holds every match: its cursor is the highest position examined. *)
Lemma full_page self cursor :
  dlq_ok self → (length (sorted_matches self cursor) <= Z.to_nat limit)%nat →
  next_cursor (the_page self cursor) = highest (scan self cursor) ∧
  ∀ e, e ∈ entries (the_page self cursor) ↔ ∃ p, ahead self cursor p e.
Proof.
  intros Hok Hle. destruct (sorted_matches_spec self cursor) as (Hp & _ & Hsel & Hlen).
  rewrite the_page_eq. rewrite take_ge in Hsel by done. simpl. rewrite Hsel, Hlen, Z.ltb_irrefl.
  split; [by case_match|]. intros e. rewrite Hp, list_elem_of_fmap. split.
  - intros ([p e'] & -> & Hin). exists p. by apply elem_of_matches.
  - intros [p Ha]. exists (p, e). split; [done|]. by apply elem_of_matches.
Qed.

(** A truncated page: its cursor is the position of its last entry. *)
Lemma truncated_page self cursor :
  dlq_ok self → (Z.to_nat limit < length (sorted_matches self cursor))%nat →
  ∃ c e0, next_cursor (the_page self cursor) = Some c ∧ ahead self cursor c e0 ∧
  ∀ e, e ∈ entries (the_page self cursor) ↔ ∃ p, ahead self cursor p e ∧ pos_le p c.
Proof.
  intros Hok Hlt. destruct (sorted_matches_spec self cursor) as (Hp & Hs & Hsel & Hlen).
  set (l := sorted_matches self cursor) in *.
  assert (∀ q, q ∈ l ↔ ahead self cursor q.1 q.2) as Hl.
  { intros [p e]. rewrite Hp. by apply elem_of_matches. }
  destruct (last (selected self cursor)) as [z|] eqn:Hz.
  2:{ apply last_None in Hz. rewrite Hsel in Hz. apply (f_equal length) in Hz.
      rewrite length_take in Hz. simpl in Hz. lia. }
  assert (z ∈ take (Z.to_nat limit) l) as Hzin.
  { rewrite <-Hsel. apply last_Some in Hz as [l' ->]. set_solver. }
  assert (∀ q, q ∈ take (Z.to_nat limit) l → q ∈ l) as Hsub.
  { intros q Hq. rewrite <-(take_drop (Z.to_nat limit) l). set_solver. }
  exists z.1, z.2. rewrite the_page_eq. simpl. rewrite Hz, Hsel, Hlen.
  assert (Zlength (take (Z.to_nat limit) l) <? Zlength l = true) as ->.
  { apply Z.ltb_lt. unfold Zlength. rewrite length_take. lia. }
  split_and!; [done|by apply Hl, Hsub|]. intros e. rewrite list_elem_of_fmap. split.
  - intros ([p e'] & -> & Hin). exists p. split; [by apply (Hl (p, e')), Hsub|].
    apply (sorted_last by_position (take (Z.to_nat limit) l) (p, e') z); [|by rewrite <-Hsel|done].
    by apply sorted_take.
  - intros (p & Ha & Hle). exists (p, e). split; [done|].
    assert ((p, e) ∈ l) as Hin by (by apply Hl).
    rewrite <-(take_drop (Z.to_nat limit) l) in Hin. apply elem_of_app in Hin as [?|Hd]; [done|].
    pose proof (sorted_split by_position l _ _ _ Hs Hzin Hd) as Hge.
    assert (p = z.1) as -> by (by apply (anti_symm pos_le)).
    assert (e = z.2) as ->; [|by destruct z].
    eapply match_at_inj; [apply Ha|]. by apply Hl, Hsub.
Qed.

(** What any page promises: it returns exactly the matches between its two
    cursors, each once, moves its cursor forward, stands still only when nothing
    is left, and is never empty while a match is ahead. *)
Lemma page_spec self cursor :
  dlq_ok self →
  NoDup (id <$> entries (the_page self cursor)) ∧
  ((∃ p e, ahead self cursor p e) → entries (the_page self cursor) ≠ []) ∧
  match next_cursor (the_page self cursor) with
  | Some c => above cursor c ∧
      ∀ e, e ∈ entries (the_page self cursor) ↔ ∃ p, ahead self cursor p e ∧ pos_le p c
  | None => entries (the_page self cursor) = [] ∧ ∀ p e, ¬ ahead self cursor p e
  end.
Proof.
  intros Hok. split.
  { destruct (sorted_matches_spec self cursor) as (Hp & _ & Hsel & _). rewrite the_page_eq. simpl.
    apply (sublist_NoDup _ (id <$> (sorted_matches self cursor).*2)).
    - rewrite Hp. by apply matches_NoDup.
    - rewrite Hsel. apply fmap_sublist, fmap_sublist, sublist_take. }
  destruct (decide (length (sorted_matches self cursor) <= Z.to_nat limit)%nat) as [Hle|Hgt].
  - destruct (full_page self cursor Hok Hle) as [-> He].
    pose proof (highest_spec (scan self cursor)) as Hh.
    assert (∀ p e, ahead self cursor p e → (p, e) ∈ scan self cursor) as Hsc.
    { intros p e [[? ?] ?]. by apply elem_of_scan. }
    split.
    + intros (p & e & Ha) Hnil. assert (e ∈ entries (the_page self cursor)) as Hin by (apply He; eauto).
      rewrite Hnil in Hin. by apply elem_of_nil in Hin.
    + destruct (highest (scan self cursor)) as [c|].
      * destruct Hh as [[e0 Hc] Hmax]. split; [by apply elem_of_scan in Hc as [_ ?]|].
        intros e. rewrite He. split; [|naive_solver].
        intros [p Ha]. exists p. split; [done|]. by apply (Hmax (p, e)), Hsc.
      * assert (∀ p e, ¬ ahead self cursor p e) as Hno.
        { intros p e Ha%Hsc. rewrite Hh in Ha. by apply elem_of_nil in Ha. }
        split; [|done]. destruct (entries _) as [|e es]; [done|]. exfalso.
        destruct (proj1 (He e)) as [p Hp]; [by left|]. by eapply Hno.
  - destruct (truncated_page self cursor) as (c & e0 & -> & Ha0 & He); [done|lia|].
    split; [|by destruct Ha0].
    intros _ Hnil. assert (e0 ∈ entries (the_page self cursor)) as Hin by (apply He; by exists c).
    rewrite Hnil in Hin. by apply elem_of_nil in Hin.
Qed.

(** ** Walks

    Page after page, each on the store as it is then; a page without a cursor
    leaves the caller's. *)
Fixpoint walk (stores : list InMemoryFailedOperationRepository) (cursor : option position) :
    list FailedOperationData * option position :=
  match stores with
  | [] => ([], cursor)
  | self :: stores =>
      let page := the_page self cursor in
      let '(rest, final) :=
        walk stores (match next_cursor page with Some c => Some c | None => cursor end) in
      (entries page ++ rest, final)
  end.

Definition occurrences (x : string) (es : list FailedOperationData) : Z :=
  Zlength (List.filter (λ e, bool_decide (id e = x)) es).

(** [x] is replayable at [p] in the store. *)
Definition stays (x : string) (p : position) (self : InMemoryFailedOperationRepository) : Prop :=
  dlq_ok self ∧ ∃ e, id e = x ∧ match_at self p e.

Lemma occurrences_app x l l' : occurrences x (l ++ l') = occurrences x l + occurrences x l'.
Proof. unfold occurrences. by rewrite List.filter_app, Zlength_app. Qed.

Lemma occurrences_none x es : (∀ e, e ∈ es → id e ≠ x) → occurrences x es = 0.
Proof.
  intros Hx. unfold occurrences.
  replace (List.filter _ es) with (@nil FailedOperationData); [done|].
  symmetry. destruct (List.filter _ es) as [|e l] eqn:Hf; [done|].
  assert (e ∈ e :: l) as Hin by left. rewrite <-Hf in Hin.
  apply elem_of_filter_bool in Hin as [?%bool_decide_eq_true Hin]. by destruct (Hx e).
Qed.

Lemma occurrences_once x es e : NoDup (id <$> es) → e ∈ es → id e = x → occurrences x es = 1.
Proof.
  intros Hnd Hin Hx. apply list_elem_of_split in Hin as (l1 & l2 & ->).
  rewrite fmap_app in Hnd. apply NoDup_app in Hnd as (_ & H1 & H2). simpl in *.
  apply NoDup_cons in H2 as [H2 _]. rewrite occurrences_app. change (e :: l2) with ([e] ++ l2).
  rewrite occurrences_app, (occurrences_none x l1), (occurrences_none x l2).
  - unfold occurrences. simpl. by rewrite bool_decide_eq_true_2.
  - intros e' He' Hid. apply H2. apply list_elem_of_fmap. exists e'. naive_solver.
  - intros e' He' Hid. apply (H1 (id e')); [apply list_elem_of_fmap; eauto|].
    apply elem_of_cons. left. congruence.
Qed.

(** Every page entry with the id of [x] is [x], at its position. *)
Lemma page_entry_at self cursor x p e :
  stays x p self → e ∈ entries (the_page self cursor) → id e = x → above cursor p.
Proof.
  intros (Hok & e0 & Hx & Hm) Hin Hid.
  destruct (page_spec self cursor Hok) as (_ & _ & Hc).
  destruct (next_cursor _) as [c|]; [|destruct Hc as [Hnil _]; rewrite Hnil in Hin; by apply elem_of_nil in Hin].
  apply Hc in Hin as (q & [Hq Ha] & _). destruct Hq as [(He & _ & _ & Ht & Hq2) _].
  destruct Hm as [(He0 & _ & _ & Ht0 & Hp2) _]. assert (e = e0) as -> by congruence.
  destruct p, q; simpl in *. congruence.
Qed.

(** The cursor a page leaves its caller with. *)
Definition advance (self : InMemoryFailedOperationRepository) (cursor : option position) :
    option position :=
  match next_cursor (the_page self cursor) with Some c => Some c | None => cursor end.

Lemma walk_cons self stores cursor :
  walk (self :: stores) cursor =
  (entries (the_page self cursor) ++ (walk stores (advance self cursor)).1,
   (walk stores (advance self cursor)).2).
Proof. simpl. fold (advance self cursor). by destruct (walk stores _). Qed.

(** One page, for an entry that stays replayable. *)
Lemma page_passes self cursor x p :
  stays x p self → above cursor p →
  occurrences x (entries (the_page self cursor)) =
  if decide (above (advance self cursor) p) then 0 else 1.
Proof.
  intros Hst Ha. pose proof Hst as (Hok & e & Hx & Hm).
  destruct (page_spec self cursor Hok) as (Hnd & _ & Hc). unfold advance.
  destruct (next_cursor _) as [c|].
  - destruct Hc as [_ Hc]. case_decide as Hp.
    + apply occurrences_none. intros e' (q & [Hq _] & Hqc)%Hc Hid.
      destruct Hq as [(He' & _ & _ & Ht & Hq2) _], Hm as [(He & _ & _ & Ht0 & Hp2) _].
      assert (e' = e) as -> by congruence. apply Hp. destruct p, q; simpl in *. congruence.
    + apply (occurrences_once x _ e); [done| |done]. apply Hc. exists p. split; [done|].
      by apply dec_stable.
  - destruct Hc as [_ Hno]. destruct (Hno p e). done.
Qed.

Lemma advance_behind self cursor p : dlq_ok self → ¬ above cursor p → ¬ above (advance self cursor) p.
Proof.
  intros Hok Hp. unfold advance. destruct (page_spec self cursor Hok) as (_ & _ & Hc).
  destruct (next_cursor _) as [c|]; [|done]. destruct Hc as [Hc _]. intros Hn. apply Hp.
  eapply above_mono; [exact Hc|]. by apply pos_not_le.
Qed.

Lemma walk_behind stores cursor x p :
  Forall (stays x p) stores → ¬ above cursor p →
  occurrences x (walk stores cursor).1 = 0 ∧ ¬ above (walk stores cursor).2 p.
Proof.
  intros Hall. revert cursor. induction Hall as [|self stores Hst Hall IH]; intros cursor Hp; [done|].
  rewrite walk_cons. cbn [fst snd]. rewrite occurrences_app.
  destruct (IH (advance self cursor)) as [-> ?]; [apply advance_behind; [apply Hst|done]|].
  rewrite occurrences_none; [done|]. intros e He Hid. by eapply Hp, page_entry_at.
Qed.

Lemma occurrences_passed stores cursor x p :
  Forall (stays x p) stores → above cursor p →
  occurrences x (walk stores cursor).1 =
  if decide (above (walk stores cursor).2 p) then 0 else 1.
Proof.
  intros Hall. revert cursor. induction Hall as [|self stores Hst Hall IH]; intros cursor Ha.
  { simpl. by rewrite decide_True. }
  rewrite walk_cons. cbn [fst snd]. rewrite occurrences_app, (page_passes self cursor x p Hst Ha).
  case_decide as Hp; [by rewrite IH|].
  destruct (walk_behind stores _ x p Hall Hp) as [-> Hb]. by rewrite decide_False.
Qed.

(** C31: The walk skips nothing and repeats nothing, even while the store changes.
    Page by page, each on the store as it then is, an entry that is replayable at
    every page and starts above the cursor is returned exactly once if the walk's
    cursor passes it, and not at all if the cursor is still below it; whatever
    else is created, acquired, deleted or evicted in between. *)
Theorem walk_returns_exactly_once stores cursor x p :
  Forall (stays x p) stores → above cursor p →
  occurrences x (walk stores cursor).1 =
  if decide (above (walk stores cursor).2 p) then 0 else 1.
Proof. apply occurrences_passed. Qed.

(** Matches left above the cursor: every page that finds one returns one. *)
Lemma matches_shrink self cursor :
  dlq_ok self → matches self cursor ≠ [] →
  (length (matches self (advance self cursor)) < length (matches self cursor))%nat.
Proof.
  intros Hok Hne. destruct (page_spec self cursor Hok) as (_ & Hprog & Hc). unfold advance.
  assert (∃ p e, ahead self cursor p e) as Hex.
  { destruct (matches self cursor) as [|[p e] l] eqn:E; [done|]. exists p, e.
    apply elem_of_matches; [done|]. rewrite E. left. }
  specialize (Hprog Hex). destruct (next_cursor _) as [c|]; [|by destruct Hc as [? ?]].
  destruct Hc as [_ Hc], (entries _) as [|e es] eqn:E; [done|].
  destruct (proj1 (Hc e)) as (p & Ha & Hle); [by left|].
  assert (∀ cur, NoDup (matches self cur)) as Hnd.
  { intros cur. apply (NoDup_fmap_1 snd), (NoDup_fmap_1 id). by apply matches_NoDup. }
  assert (((p, e) :: matches self (Some c)) ⊆+ matches self cursor) as Hsub.
  { apply NoDup_submseteq.
    - apply NoDup_cons. split; [|done]. intros [_ Hn]%elem_of_matches; [|done]. by apply Hn.
    - intros [q e']. rewrite elem_of_cons. intros [[= -> ->]|[Hm Hq]%elem_of_matches]; [| |done].
      + by apply elem_of_matches.
      + apply elem_of_matches; [done|]. split; [done|]. destruct Ha as [_ Ha].
        eapply above_mono; [exact Ha|]. etrans; [exact Hle|]. by apply pos_not_le. }
  apply submseteq_length in Hsub. simpl in Hsub. lia.
Qed.

Lemma walk_exhausts self n cursor :
  dlq_ok self → (length (matches self cursor) <= n)%nat →
  matches self (walk (replicate n self) cursor).2 = [].
Proof.
  intros Hok. revert cursor. induction n as [|n IH]; intros cursor Hlen; simpl replicate.
  { simpl. by apply length_zero_iff_nil, Nat.le_0_r. }
  rewrite walk_cons. cbn [fst snd]. apply IH.
  destruct (decide (matches self cursor = [])) as [Hnil|Hne].
  - unfold advance. destruct (page_spec self cursor Hok) as (_ & _ & Hc).
    destruct (next_cursor _) as [c|]; [|rewrite Hnil; simpl; lia].
    destruct (matches self (Some c)) as [|[p e] l] eqn:E; simpl; [lia|]. exfalso.
    assert (ahead self (Some c) p e) as [Hm Hp].
    { apply elem_of_matches; [done|]. rewrite E. left. }
    assert ((p, e) ∈ matches self cursor) as Hin.
    { apply elem_of_matches; [done|]. split; [done|]. destruct Hc as [Hc _].
      eapply above_mono; [exact Hc|]. by apply pos_not_le. }
    rewrite Hnil in Hin. by apply elem_of_nil in Hin.
  - pose proof (matches_shrink self cursor Hok Hne). lia.
Qed.

Lemma walk_sound self n cursor e :
  dlq_ok self → e ∈ (walk (replicate n self) cursor).1 → ∃ p, match_at self p e.
Proof.
  intros Hok. revert cursor. induction n as [|n IH]; intros cursor; simpl replicate.
  { simpl. by intros ?%elem_of_nil. }
  rewrite walk_cons. cbn [fst snd]. rewrite elem_of_app. intros [Hin|Hin]; [|by eapply IH].
  destruct (page_spec self cursor Hok) as (_ & _ & Hc). destruct (next_cursor _) as [c|].
  - destruct Hc as [_ Hc]. destruct (proj1 (Hc e) Hin) as (p & Ha & _). exists p. apply Ha.
  - destruct Hc as [Hnil _]. rewrite Hnil in Hin. by apply elem_of_nil in Hin.
Qed.

Lemma matches_bound self : dlq_ok self → Zlength (matches self None) <= Zlength (storage self).
Proof.
  intros Hok.
  assert (id <$> (matches self None).*2 ⊆+ dkeys (storage self)) as Hsub.
  { apply NoDup_submseteq; [by apply matches_NoDup|].
    intros x (e & -> & Hin)%list_elem_of_fmap. apply list_elem_of_fmap in Hin as ([p e'] & -> & Hin).
    apply elem_of_matches in Hin as [[(He & _) _] _]; [|done]. apply elem_of_dkeys. simpl. eauto. }
  apply submseteq_length in Hsub. unfold Zlength. unfold dkeys in Hsub.
  rewrite !length_fmap in Hsub. lia.
Qed.

(** A walk of a store at rest returns exactly the replayable entries.
    However small the page size (at least 1), as many pages as the store has
    entries return every PENDING entry under the cap that passes the domain,
    failure-type and source filters exactly once, and no other entry. *)
Theorem walk_covers_store self n x e :
  dlq_ok self → Zlength (storage self) <= Z.of_nat n → dget (storage self) x = Some e →
  occurrences x (walk (replicate n self) None).1 =
  if bool_decide (status e = PENDING) && admits (truthy dom) (domain e) &&
     replayable cap ftype source e then 1 else 0.
Proof.
  intros Hok Hn He. destruct (ok_entry _ Hok _ _ He) as (Hid & [t Ht] & _).
  assert (bool_decide (status e = PENDING) && admits (truthy dom) (domain e) &&
    replayable cap ftype source e = true ↔ match_at self (t, x) e) as Hiff.
  { unfold match_at, pending_at. rewrite !andb_true_iff, bool_decide_eq_true, Hid. tauto. }
  match goal with |- _ = if ?b then _ else _ => destruct b eqn:E end.
  - assert (match_at self (t, x) e) as Hm by (by apply Hiff).
    assert (Forall (stays x (t, x)) (replicate n self)) as Hall.
    { apply Forall_replicate. split; [done|]. eauto. }
    rewrite (occurrences_passed (replicate n self) None x (t, x)); [|done..].
    rewrite decide_False; [done|]. intros Habove.
    assert (((t, x), e) ∈ matches self (walk (replicate n self) None).2) as Hin
      by (by apply elem_of_matches).
    rewrite walk_exhausts in Hin; [by apply elem_of_nil in Hin|done|].
    pose proof (matches_bound self Hok). unfold Zlength in *. lia.
  - apply occurrences_none. intros e' He' Hid'.
    destruct (walk_sound _ _ _ _ Hok He') as [p Hm]. pose proof Hm as [(He2 & _ & _ & Ht' & Hp) _].
    rewrite Hid' in He2. simplify_eq. destruct p as [t' x']. simpl in *. simplify_eq.
    by apply Hiff in Hm.
Qed.

(** ** What a page takes, for the callers that count *)
Lemma page_length self cursor :
  Zlength (entries (the_page self cursor)) = Z.min limit (Zlength (matches self cursor)).
Proof.
  destruct (sorted_matches_spec self cursor) as (_ & _ & Hsel & ->).
  rewrite the_page_eq. cbn [entries]. rewrite Hsel. unfold Zlength.
  rewrite length_fmap, length_take. lia.
Qed.

Lemma selected_entry self cursor p e :
  dlq_ok self → (p, e) ∈ selected self cursor →
  ahead self cursor p e ∧ e ∈ entries (the_page self cursor).
Proof.
  intros Hok Hin. split.
  - apply elem_of_matches; [done|].
    destruct (sorted_matches_spec self cursor) as (Hp & _ & Hsel & _).
    rewrite <-Hp, <-(take_drop (Z.to_nat limit)). rewrite Hsel in Hin. set_solver.
  - rewrite the_page_eq. cbn [entries]. apply list_elem_of_fmap. by exists (p, e).
Qed.

Lemma entry_selected self cursor p e :
  dlq_ok self → e ∈ entries (the_page self cursor) → match_at self p e →
  (p, e) ∈ selected self cursor.
Proof.
  intros Hok Hin Hm. rewrite the_page_eq in Hin. cbn [entries] in Hin.
  apply list_elem_of_fmap in Hin as ([q e'] & -> & Hin).
  destruct (selected_entry _ _ _ _ Hok Hin) as [[[(_ & _ & _ & Ht & Hq) _] _] _].
  destruct Hm as [(_ & _ & _ & Ht' & Hp) _]. destruct p, q; simpl in *. congruence.
Qed.

(** A page splits the matches ahead: those it returns and those still ahead. *)
Lemma matches_advance self cursor :
  dlq_ok self →
  Zlength (matches self cursor) =
  Zlength (entries (the_page self cursor)) + Zlength (matches self (advance self cursor)).
Proof.
  intros Hok.
  assert (∀ cur, NoDup (matches self cur)) as Hnd.
  { intros cur. apply (NoDup_fmap_1 snd), (NoDup_fmap_1 id). by apply matches_NoDup. }
  assert (matches self cursor ≡ₚ selected self cursor ++ matches self (advance self cursor)) as Hp.
  { destruct (page_spec self cursor Hok) as (_ & _ & Hc). apply NoDup_Permutation; [done| |].
    - apply NoDup_app. split_and!; [|intros [p e] Hsel [_ Hq]%elem_of_matches; [|done]|done].
      + destruct (sorted_matches_spec self cursor) as (Hp & _ & Hsel & _). rewrite Hsel.
        eapply sublist_NoDup; [|apply sublist_take]. by rewrite Hp.
      + destruct (selected_entry _ _ _ _ Hok Hsel) as [Ha He]. unfold advance in Hq.
        destruct (next_cursor _) as [c|]; [|destruct Hc as [_ Hno]; by destruct (Hno p e)].
        apply Hc in He as (q & Haq & Hle). apply Hq.
        assert (p = q) as ->; [|done]. destruct Ha as [[(_ & _ & _ & Ht & H2) _] _],
          Haq as [[(_ & _ & _ & Ht' & H2') _] _]. destruct p, q; simpl in *. congruence.
    - intros [p e]. rewrite elem_of_app, !elem_of_matches by done. unfold advance.
      destruct (next_cursor _) as [c|].
      + destruct Hc as [Hc He]. split.
        * intros Ha. destruct (decide (pos_le p c)); [left|right; by split; [apply Ha|]].
          apply entry_selected; [done| |apply Ha]. apply He. eauto.
        * intros [Hsel|[Hm Hq]]; [by apply selected_entry in Hsel as [? _]|].
          split; [done|]. eapply above_mono; [exact Hc|]. by apply pos_not_le.
      + destruct Hc as [Hnil Hno]. split; [intros Ha; by destruct (Hno p e)|].
        intros [Hsel|Ha]; [by apply selected_entry in Hsel as [? _]|done]. }
  rewrite (Zlength_perm _ _ Hp), Zlength_app. f_equal.
  rewrite the_page_eq. cbn [entries]. unfold Zlength. by rewrite length_fmap.
Qed.

Lemma page_dated self cursor e :
  dlq_ok self → e ∈ entries (the_page self cursor) → is_Some (position_of e).
Proof.
  intros Hok Hin. rewrite the_page_eq in Hin. cbn [entries] in Hin.
  apply list_elem_of_fmap in Hin as ([p e'] & -> & Hin).
  destruct (selected_entry _ _ _ _ Hok Hin) as [[[(_ & _ & _ & Ht & _) _] _] _].
  simpl in *. unfold position_of. rewrite Ht. by eexists.
Qed.

(** The positions of a page's entries, in order. *)
Lemma page_positions self cursor :
  dlq_ok self →
  omap position_of (entries (the_page self cursor)) = (selected self cursor).*1 ∧
  StronglySorted pos_lt (selected self cursor).*1 ∧
  ∀ p, p ∈ (selected self cursor).*1 → above cursor p ∧ ¬ above (advance self cursor) p.
Proof.
  intros Hok. rewrite the_page_eq. cbn [entries].
  assert (∀ q, q ∈ selected self cursor → position_of q.2 = Some q.1) as Hpos.
  { intros [p e] Hin. destruct (selected_entry _ _ _ _ Hok Hin) as [[[(_ & _ & _ & Ht & Hp) _] _] _].
    simpl. unfold position_of. rewrite Ht. simpl. rewrite <-Hp. by destruct p. }
  split_and!.
  - induction (selected self cursor) as [|q l IH]; [done|]. simpl.
    rewrite (Hpos q) by left. f_equal. apply IH. intros q' Hq'. apply Hpos. by right.
  - assert (NoDup (selected self cursor).*2) as Hnd.
    { destruct (page_spec self cursor Hok) as (Hnd & _). rewrite the_page_eq in Hnd.
      cbn [entries] in Hnd. by apply NoDup_fmap_1 in Hnd. }
    destruct (sorted_matches_spec self cursor) as (_ & Hs & Hsel & _).
    apply (sorted_take by_position _ (Z.to_nat limit)) in Hs. rewrite <-Hsel in Hs.
    assert (∀ q, q ∈ selected self cursor → match_at self q.1 q.2) as Hm.
    { intros [p e] Hin. by destruct (selected_entry _ _ _ _ Hok Hin) as [[? _] _]. }
    clear Hpos Hsel. induction Hs as [|q l Hs IH Hq]; simpl; constructor.
    + apply IH; [by apply NoDup_cons in Hnd as [_ ?]|]. intros q' Hq'. apply Hm. by right.
    + apply Forall_forall. intros p (q' & -> & Hin)%list_elem_of_fmap Hle.
      assert (by_position q q') as Hqq by (by eapply Forall_forall in Hq).
      assert (q.1 = q'.1) as Heq by (by apply (anti_symm pos_le)).
      apply NoDup_cons in Hnd as [Hni _]. apply Hni, list_elem_of_fmap. exists q'.
      split; [|done]. apply (match_at_inj self q.1); [apply Hm; left|]. rewrite Heq. apply Hm. by right.
  - intros p ([q e] & -> & Hin)%list_elem_of_fmap. simpl.
    destruct (selected_entry _ _ _ _ Hok Hin) as [Ha He]. split; [apply Ha|].
    destruct (page_spec self cursor Hok) as (_ & _ & Hc). unfold advance.
    destruct (next_cursor _) as [c|]; [|destruct Hc as [_ Hno]; by destruct (Hno q e)].
    destruct Hc as [_ Hc]. destruct (proj1 (Hc e) He) as (q' & Haq & Hle). intros Hq. apply Hq.
    assert (q = q') as ->; [|done]. destruct Ha as [[(_ & _ & _ & Ht & H2) _] _],
      Haq as [[(_ & _ & _ & Ht' & H2') _] _]. destruct q, q'; simpl in *. congruence.
Qed.
End paging.

(** ** The theorems at concrete stores *)
Lemma walk_returns_exactly_once_witness :
  let stores := [three_entries; perform 9 (OpAcquire "1" 2 false) three_entries] in
  occurrences "3" (walk py_set_order 2 None None None 1 stores None).1 =
  if decide (above (walk py_set_order 2 None None None 1 stores None).2 (2, "3")) then 0 else 1.
Proof.
  intros stores.
  apply (walk_returns_exactly_once py_set_order py_set_order_perm 2 None None None 1).
  - lia.
  - assert (∀ s, dlq_ok s → (∃ e, dget (storage s) "3" = Some e ∧ id e = "3" ∧
      status e = PENDING ∧ created_at e = Some 2 ∧ replayable 2 None None e = true) →
      stays 2 None None None "3" (2, "3") s) as Hs.
    { intros s Hok (e & He & Hid & Hst & Ht & Hr). split; [done|]. exists e. split; [done|].
      split; [|done]. unfold pending_at. by rewrite Hid. }
    constructor; [|constructor; [|constructor]]; apply Hs.
    + exact three_entries_ok.
    + eexists. vm_compute. repeat split; reflexivity.
    + exact (perform_ok _ _ _ three_entries_ok).
    + eexists. vm_compute. repeat split; reflexivity.
  - done.
Defined.

Lemma walk_covers_store_witness :
  let result := (walk py_set_order 2 None None None 1 (replicate 3 three_entries) None).1 in
  (map id result = ["3"; "1"]) ∧
  ∃ e, dget (storage three_entries) "3" = Some e ∧
    occurrences "3" result =
    if bool_decide (status e = PENDING) && admits (truthy None) (domain e) &&
       replayable 2 None None e then 1 else 0.
Proof.
  intros result. split; [vm_compute; reflexivity|].
  destruct (dget (storage three_entries) "3") as [e|] eqn:He; [|vm_compute in He; discriminate].
  exists e. split; [done|].
  apply (walk_covers_store py_set_order py_set_order_perm 2 None None None 1 ltac:(lia)
    three_entries 3 "3" e three_entries_ok); [|exact He].
  vm_compute. by intros.
Defined.
