(* ===== verification/Domains.v ===== *)
(** * Stored domain names

    Models [utils/domain_validation.py] and the label projection of
    [metrics/registry.py] it falls back to: which name a dead letter captured
    under a raw domain is stored under.  Strings are ASCII here: the source's
    [str.lower] and [str.strip] are modelled on the ASCII range. *)

From Stdlib Require Import Ascii.
From S2P Require Import Prelude.

(** ** Characters *)
Definition code (c : ascii) : Z := Z.of_N (N_of_ascii c).
Definition within (lo hi : Z) (c : ascii) : bool := (lo <=? code c) && (code c <=? hi).

Definition is_lower : ascii → bool := within 97 122.
Definition is_upper : ascii → bool := within 65 90.
Definition is_digit : ascii → bool := within 48 57.
(** [c.isspace()] *)
Definition is_space (c : ascii) : bool := within 9 13 c || within 28 32 c.

Definition char_lower (c : ascii) : ascii :=
  if is_upper c then ascii_of_N (N_of_ascii c + 32) else c.

(** [[a-z0-9_]] *)
Definition word_char (c : ascii) : bool := is_lower c || is_digit c || (code c =? 95).

(** ** Strings *)
Fixpoint str_map (f : ascii → ascii) (s : string) : string :=
  match s with EmptyString => EmptyString | String c s => String (f c) (str_map f s) end.

Definition py_lower : string → string := str_map char_lower.

Fixpoint py_lstrip (s : string) : string :=
  match s with
  | EmptyString => EmptyString
  | String c s' => if is_space c then py_lstrip s' else s
  end.

Fixpoint py_rstrip (s : string) : string :=
  match s with
  | EmptyString => EmptyString
  | String c s =>
      match py_rstrip s with
      | EmptyString => if is_space c then EmptyString else String c EmptyString
      | r => String c r
      end
  end.

Definition py_strip (s : string) : string := py_rstrip (py_lstrip s).

(** ** The segmented identifier

    [^[a-z][a-z0-9_]*(\.[a-z0-9_]+)*$] as the automaton of its language; [$]
    also matches just before a final newline. *)
Inductive scan_state : Type := Start | InSegment | AfterDot | Rejected.

Definition scan_step (st : scan_state) (c : ascii) : scan_state :=
  match st with
  | Start => if is_lower c then InSegment else Rejected
  | InSegment =>
      if word_char c then InSegment else if code c =? 46 then AfterDot else Rejected
  | AfterDot => if word_char c then InSegment else Rejected
  | Rejected => Rejected
  end.

Fixpoint scan (st : scan_state) (s : string) : scan_state :=
  match s with EmptyString => st | String c s => scan (scan_step st c) s end.

Definition identifier (s : string) : bool :=
  match scan Start s with InSegment => true | _ => false end.

Definition newline : ascii := ascii_of_N 10.

(** [s] without a final newline. *)
Fixpoint chop_newline (s : string) : option string :=
  match s with
  | EmptyString => None
  | String c EmptyString => if code c =? 10 then Some EmptyString else None
  | String c s => String c <$> chop_newline s
  end.

(** [_DOMAIN_PATTERN.match(s)] *)
Definition DOMAIN_PATTERN_match (s : string) : bool :=
  identifier s || match chop_newline s with Some s' => identifier s' | None => false end.

(** ** Validation *)
Inductive DomainRejectReason : Type := TOO_LONG | EMPTY | INVALID_CHARSET | NOT_STRING.

Definition FALLBACK_DOMAIN : string := "OTHER_DOMAIN".
Definition MAX_DOMAIN_LENGTH : Z := 64.

Definition validate_and_normalize_domain (domain : pyval) : DomainRejectReason + string :=
  match domain with
  | VStr d =>
      let normalized := py_lower d in
      if bool_decide (normalized = "") || bool_decide (py_strip normalized = "") then inl EMPTY
      else if MAX_DOMAIN_LENGTH <? Z.of_nat (String.length normalized) then inl TOO_LONG
      else if negb (DOMAIN_PATTERN_match normalized) then inl INVALID_CHARSET
      else inr normalized
  | _ => inl NOT_STRING
  end.

(** ** The label projection *)
Definition UNKNOWN_LABEL_VALUE : string := "unknown".
Definition DEFAULT_LABEL_MAX_LENGTH : nat := 128.
Definition NON_REGISTRABLE_DOMAIN_LABELS : list string :=
  [UNKNOWN_LABEL_VALUE; "other_domain"; "default"].

(** [[^a-zA-Z0-9_]] becomes an underscore. *)
Definition label_char (c : ascii) : ascii :=
  if is_lower c || is_upper c || is_digit c || (code c =? 95) then c else ascii_of_N 95.

Fixpoint str_take (n : nat) (s : string) : string :=
  match n, s with S n, String c s => String c (str_take n s) | _, _ => EmptyString end.

Definition sanitize_label_value (value : string) (max_length : nat) : string :=
  if bool_decide (value = "") || bool_decide (py_strip value = "") then UNKNOWN_LABEL_VALUE
  else str_take max_length (str_map label_char (py_strip value)).

Definition canonicalize_domain_label (domain : pyval) : string :=
  match domain with
  | VStr d => sanitize_label_value (py_lower (py_strip d)) DEFAULT_LABEL_MAX_LENGTH
  | _ => UNKNOWN_LABEL_VALUE
  end.

Definition resolve_stored_domain (domain : pyval) : string :=
  match validate_and_normalize_domain domain with
  | inr d => d
  | inl _ =>
      let canonical := canonicalize_domain_label domain in
      if bool_decide (canonical ∈ NON_REGISTRABLE_DOMAIN_LABELS) then FALLBACK_DOMAIN
      else match validate_and_normalize_domain (VStr canonical) with
           | inr d => d
           | inl _ => FALLBACK_DOMAIN
           end
  end.

Example resolve_examples :
  resolve_stored_domain (VStr "  Payment-API ") = "payment_api" ∧
  resolve_stored_domain (VStr "region.1_primary") = "region.1_primary" ∧
  resolve_stored_domain (VStr "1234") = FALLBACK_DOMAIN ∧
  resolve_stored_domain VNone = FALLBACK_DOMAIN ∧
  resolve_stored_domain (VStr FALLBACK_DOMAIN) = "other_domain".
Proof. vm_compute. repeat split. Qed.

(** ** What the pattern accepts *)
Fixpoint all_chars (p : ascii → bool) (s : string) : bool :=
  match s with EmptyString => true | String c s => p c && all_chars p s end.

Definition segment (s : string) : Prop := s ≠ "" ∧ all_chars word_char s = true.

(** [".a.b.c"] *)
Definition dots (segments : list string) : string :=
  foldr (λ s rest, "." +:+ s +:+ rest) "" segments.

(** A letter and word characters, then dotted segments. *)
Definition dotted_name (s : string) : Prop :=
  ∃ c first rest, is_lower c = true ∧ all_chars word_char first = true ∧
    Forall segment rest ∧ s = String c (first +:+ dots rest).

Lemma code_inj c d : code c = code d → c = d.
Proof.
  unfold code. intros Hc%N2Z.inj. rewrite <-(ascii_N_embedding c), <-(ascii_N_embedding d).
  by rewrite Hc.
Qed.

Lemma scan_rejected s : scan Rejected s = Rejected.
Proof. by induction s. Qed.

(** What remains of a dotted name inside a segment, and after a dot. *)
Lemma scan_language s :
  (scan InSegment s = InSegment ↔
     ∃ w rest, all_chars word_char w = true ∧ Forall segment rest ∧ s = w +:+ dots rest) ∧
  (scan AfterDot s = InSegment ↔
     ∃ w rest, segment w ∧ Forall segment rest ∧ s = w +:+ dots rest).
Proof.
  induction s as [|c s [IHs IHd]]; simpl.
  { split; split; try done.
    - by exists "", [].
    - intros ([|? ?] & [|? ?] & [? _] & _ & ?); done. }
  assert ((∃ w rest, segment w ∧ Forall segment rest ∧ String c s = w +:+ dots rest) ↔
    word_char c = true ∧ scan InSegment s = InSegment) as Hdot.
  { rewrite IHs. split.
    - intros ([|c' w] & rest & [? Hw] & Hrest & Heq); [done|]. injection Heq as <- ->.
      simpl in Hw. apply andb_true_iff in Hw as [? ?]. eauto 6.
    - intros (Hc & w & rest & Hw & Hrest & ->). exists (String c w), rest.
      split; [|done]. split; [done|]. simpl. by rewrite Hc. }
  split.
  - destruct (word_char c) eqn:Hc.
    + rewrite IHs. split.
      * intros (w & rest & Hw & Hrest & ->). exists (String c w), rest.
        split_and!; [simpl; by rewrite Hc|done|done].
      * intros ([|c' w] & rest & Hw & Hrest & Heq).
        { destruct rest as [|r rest]; [done|]. simpl in Heq. injection Heq as -> _. done. }
        injection Heq as -> ->. simpl in Hw. apply andb_true_iff in Hw as [_ ?]. eauto.
    + destruct (Z.eqb_spec (code c) 46) as [Hd|Hd].
      * rewrite IHd. assert (c = ".")%char as -> by (by apply code_inj). split.
        { intros (w & rest & Hw & Hrest & ->). exists "", (w :: rest). auto. }
        intros ([|c' w] & rest & Hw & Hrest & Heq).
        { destruct rest as [|r rest]; [done|]. apply Forall_cons in Hrest as [? ?].
          simpl in Heq. injection Heq as ->. eauto. }
        simpl in Heq. injection Heq as <- _. done.
      * rewrite scan_rejected. split; [done|].
        intros ([|c' w] & rest & Hw & Hrest & Heq).
        { destruct rest as [|r rest]; [done|]. simpl in Heq. injection Heq as -> _. done. }
        simpl in Heq. injection Heq as <- _. simpl in Hw. rewrite Hc in Hw. done.
  - rewrite Hdot. destruct (word_char c); [naive_solver|]. rewrite scan_rejected. naive_solver.
Qed.

Lemma identifier_spec s : identifier s = true ↔ dotted_name s.
Proof.
  unfold identifier, dotted_name. destruct s as [|c s]; simpl.
  { split; [done|]. naive_solver. }
  destruct (is_lower c) eqn:Hc.
  - destruct (scan_language s) as [Hs _]. split.
    + intros Ht. destruct (scan InSegment s) eqn:E; try done.
      destruct (proj1 Hs eq_refl) as (w & rest & ? & ? & ->). by exists c, w, rest.
    + intros (c' & w & rest & ? & ? & ? & [= -> ->]). by rewrite (proj2 Hs) by eauto.
  - rewrite scan_rejected. split; [done|]. intros (c' & w & rest & ? & ? & ? & [= -> ->]). congruence.
Qed.

Lemma chop_newline_spec s s' :
  chop_newline s = Some s' ↔ s = s' +:+ String newline "".
Proof.
  revert s'. induction s as [|c s IH]; intros s'; simpl.
  { split; [done|]. by destruct s'. }
  destruct s as [|c2 s].
  - destruct (Z.eqb_spec (code c) 10) as [Hc|Hc].
    + assert (c = newline) as -> by (by apply code_inj). split; [by intros [= <-]|].
      destruct s' as [|c' [|? ?]]; by intros [=].
    + split; [done|]. destruct s' as [|c' [|? ?]]; intros [=]. subst. done.
  - rewrite fmap_Some. split.
    + intros (r & Hr & ->). apply IH in Hr. by rewrite Hr.
    + destruct s' as [|c' s']; [by intros [=]|]. simpl. intros [= -> Heq]. exists s'.
      split; [|done]. by apply IH.
Qed.

Lemma str_app_nil s : s +:+ "" = s.
Proof. induction s as [|c s IH]; [done|].
  change (String c (s +:+ "") = String c s). by rewrite IH.
Qed.

Lemma dotted_name_not_blank s : dotted_name s → s ≠ "" ∧ ∀ t, py_strip (s +:+ t) ≠ "".
Proof.
  intros (c & first & rest & Hc & _ & _ & ->). split; [done|]. intros t. unfold py_strip. simpl.
  assert (is_space c = false) as Hs.
  { unfold is_lower, is_space, within in *. apply andb_true_iff in Hc as [?%Z.leb_le ?%Z.leb_le].
    rewrite (proj2 (Z.leb_gt (code c) 13)), (proj2 (Z.leb_gt (code c) 32)) by lia.
    by rewrite !andb_false_r. }
  rewrite Hs. simpl. rewrite Hs. by case_match.
Qed.

(** Validation accepts exactly the segmented identifiers, and a trailing
    newline.  A domain is accepted as [n] iff it is a string whose lower-casing
    is [n], at most 64 characters long, and [n] is a letter followed by word
    characters and then dot-separated non-empty segments of word characters,
    or such a name followed by a newline, which the pattern's final anchor
    lets through. *)
Theorem validation_accepts_exactly domain n :
  validate_and_normalize_domain domain = inr n ↔
  ∃ d, domain = VStr d ∧ n = py_lower d ∧ Z.of_nat (String.length n) <= MAX_DOMAIN_LENGTH ∧
    ∃ name, dotted_name name ∧ (n = name ∨ n = name +:+ String newline "").
Proof.
  unfold validate_and_normalize_domain. split.
  - destruct domain as [| | |d|]; try done. case_match; [done|].
    destruct (Z.ltb_spec MAX_DOMAIN_LENGTH (Z.of_nat (String.length (py_lower d)))); [done|].
    destruct (DOMAIN_PATTERN_match (py_lower d)) eqn:Hm; [|done]. intros [= <-].
    exists d. split_and!; [done..|]. unfold DOMAIN_PATTERN_match in Hm.
    apply orb_true_iff in Hm as [Hi|Hi]; [exists (py_lower d); rewrite <-identifier_spec; auto|].
    destruct (chop_newline (py_lower d)) as [s|] eqn:Hc; [|done]. exists s.
    apply chop_newline_spec in Hc. rewrite <-identifier_spec. auto.
  - intros (d & -> & -> & Hlen & name & Hname & Heq).
    destruct (dotted_name_not_blank name Hname) as [Hne Hblank].
    assert (py_lower d ≠ "" ∧ py_strip (py_lower d) ≠ "") as [H1 H2].
    { destruct Heq as [->| ->]; [|split; [by destruct name|apply Hblank]].
      split; [done|]. specialize (Hblank ""). by rewrite str_app_nil in Hblank. }
    rewrite !bool_decide_eq_false_2 by done. simpl. rewrite (proj2 (Z.ltb_ge _ _)) by lia.
    assert (DOMAIN_PATTERN_match (py_lower d) = true) as ->; [|done].
    unfold DOMAIN_PATTERN_match. apply orb_true_iff. apply identifier_spec in Hname.
    destruct Heq as [->|Heq]; [by left|right].
    apply chop_newline_spec in Heq. by rewrite Heq.
Qed.

(** ** The stored name is a normal form *)
Lemma str_map_map f g s : str_map f (str_map g s) = str_map (λ c, f (g c)) s.
Proof. induction s as [|c s IH]; simpl; [done|]. by rewrite IH. Qed.

Lemma str_map_ext f g s : (∀ c, f c = g c) → str_map f s = str_map g s.
Proof. intros Hfg. induction s as [|c s IH]; simpl; [done|]. by rewrite Hfg, IH. Qed.

Lemma char_lower_idem c : char_lower (char_lower c) = char_lower c.
Proof. destruct c as [[] [] [] [] [] [] [] []]; reflexivity. Qed.

Lemma char_lower_space c : is_space (char_lower c) = is_space c.
Proof. destruct c as [[] [] [] [] [] [] [] []]; reflexivity. Qed.

Lemma py_lower_idem s : py_lower (py_lower s) = py_lower s.
Proof. unfold py_lower. rewrite str_map_map. apply str_map_ext, char_lower_idem. Qed.

Lemma strip_lower s : py_strip (py_lower s) = py_lower (py_strip s).
Proof.
  unfold py_strip, py_lower.
  assert (∀ s, py_lstrip (str_map char_lower s) = str_map char_lower (py_lstrip s)) as ->.
  { intros t. induction t as [|c t IH]; simpl; [done|]. rewrite char_lower_space. by destruct (is_space c). }
  induction (py_lstrip s) as [|c t IH]; simpl; [done|]. rewrite IH, char_lower_space.
  destruct (py_rstrip t); simpl; [by destruct (is_space c)|done].
Qed.

Lemma validated_fixed domain n :
  validate_and_normalize_domain domain = inr n → validate_and_normalize_domain (VStr n) = inr n.
Proof.
  unfold validate_and_normalize_domain. destruct domain as [| | |d|]; try done.
  intros Hd. assert (n = py_lower d) as -> by (repeat case_match; by simplify_eq).
  by rewrite py_lower_idem.
Qed.

(** C40: Resolving gives a normal form.  Whatever is passed in, the stored name is
    the fallback bucket or a name that validates to itself and resolves to
    itself, so that looking an entry up by its stored name finds the name it is
    stored under; and letter case never matters. *)
Theorem stored_domain_is_normal_form domain :
  (resolve_stored_domain domain = FALLBACK_DOMAIN ∨
   validate_and_normalize_domain (VStr (resolve_stored_domain domain)) =
     inr (resolve_stored_domain domain) ∧
   resolve_stored_domain (VStr (resolve_stored_domain domain)) = resolve_stored_domain domain) ∧
  ∀ d, resolve_stored_domain (VStr (py_lower d)) = resolve_stored_domain (VStr d).
Proof.
  split.
  - assert (∀ dom n, validate_and_normalize_domain dom = inr n →
      validate_and_normalize_domain (VStr n) = inr n ∧ resolve_stored_domain (VStr n) = n) as Hfix.
    { intros dom n Hn%validated_fixed. split; [done|]. unfold resolve_stored_domain. by rewrite Hn. }
    unfold resolve_stored_domain at 1 2 3 5 6.
    destruct (validate_and_normalize_domain domain) as [r|n] eqn:Hv; [|right; by eapply Hfix].
    case_bool_decide; [by left|].
    destruct (validate_and_normalize_domain (VStr (canonicalize_domain_label domain))) as [r'|n] eqn:Hc;
      [by left|]. right. by eapply Hfix.
  - intros d. unfold resolve_stored_domain.
    assert (validate_and_normalize_domain (VStr (py_lower d)) =
            validate_and_normalize_domain (VStr d)) as ->.
    { unfold validate_and_normalize_domain. by rewrite py_lower_idem. }
    assert (canonicalize_domain_label (VStr (py_lower d)) = canonicalize_domain_label (VStr d)) as ->.
    { unfold canonicalize_domain_label. by rewrite strip_lower, py_lower_idem. }
    done.
Qed.

(** A name and the same name with a newline are two domains, although any other
    surrounding white space is dropped. *)
Theorem newline_splits_domain :
  resolve_stored_domain (VStr ("payment" +:+ String newline "")) = "payment" +:+ String newline "" ∧
  resolve_stored_domain (VStr " payment ") = "payment".
Proof. vm_compute. split; reflexivity. Qed.
