(* ===== verification/ReplayLanes.v ===== *)
(** * Replay lanes

    Models the selection of [services/replay_service/service.py]: the lanes an
    automatic recovery selects through ([recovery_lanes]), the two fill rounds of
    a pass ([_fill_circuit_close_lanes], [_fill_one_lane]) and the cursors an
    interrupted pass resumes from ([_roll_back_lane_cursors]); and the handler
    registry of [handlers.py] they consult.  A pass reads the queue once per
    lane and the clock once per check, and other threads run in between, so the
    fill is a program over the shared queue and clock. *)

From stdpp Require Import pretty sorting.
From S2P Require Import Prelude Interleave DLQRepo DLQInv DLQQueries DLQPaging Domains.

(** ** Lanes *)
Definition OPEN_CIRCUIT_FAILURE_TYPE : string := "CIRCUIT_BREAKER_OPEN".
Definition POLICY_CHAIN_CAPTURE_SOURCE : string := "policy_chain".

Record Lane : Type := {
  lane_failure_type : string;
  lane_domain : option string;
  lane_source : option string;
}.

(** [f"{failure_type}|{domain or ''}"] *)
Definition lane_key (l : Lane) : string :=
  lane_failure_type l +:+ "|" +:+ default "" (lane_domain l).

(** The registered handlers by key: the failure types each declares, [None] when
    reading them raises. *)
Definition handler_registry : Type := dict string (option (list pyval)).

Definition registry_key (domain : string) : string :=
  if bool_decide (domain = FALLBACK_DOMAIN) then domain
  else let stored := resolve_stored_domain (VStr domain) in
       if bool_decide (stored = FALLBACK_DOMAIN) then domain else stored.

Definition has_replay_handler (handlers : handler_registry) (domain : string) : bool :=
  bool_decide (is_Some (dget handlers (registry_key domain))).

(** [if isinstance(t, str) and t not in mapped: mapped.append(t)] *)
Definition add_type (mapped : list string) (t : pyval) : list string :=
  match t with
  | VStr s => if bool_decide (s ∈ mapped) then mapped else mapped ++ [s]
  | _ => mapped
  end.

(** The types mapped to a service whose stored domain is [domain]; a value that
    is not a list is skipped ([None]). *)
Definition mapped_types (domain : string) (failure_type_map : dict string (option (list pyval))) :
    list string :=
  foldl (λ mapped p,
    match p.2 with
    | None => mapped
    | Some types =>
        if bool_decide (resolve_stored_domain (VStr p.1) = domain)
        then foldl add_type mapped types else mapped
    end) [] failure_type_map.

(** [dict.fromkeys(declared)], filtered. *)
Definition declared_types (declared : list pyval) (mapped : list string) : list string :=
  List.filter (λ t, negb (bool_decide (t ∈ mapped)) &&
                    negb (bool_decide (t = OPEN_CIRCUIT_FAILURE_TYPE)))
    (foldl add_type [] declared).

Definition recovery_lanes (handlers : handler_registry) (domain : string)
    (failure_type_map : dict string (option (list pyval))) : list Lane :=
  if bool_decide (domain = FALLBACK_DOMAIN) || negb (has_replay_handler handlers domain) then []
  else
    let mapped := mapped_types domain failure_type_map in
    let declared := default [] (default None (dget handlers (registry_key domain))) in
    let lane t := {| lane_failure_type := t; lane_domain := Some domain; lane_source := None |} in
    map lane mapped ++ map lane (declared_types declared mapped) ++
    (if bool_decide (OPEN_CIRCUIT_FAILURE_TYPE ∈ mapped) then []
     else [{| lane_failure_type := OPEN_CIRCUIT_FAILURE_TYPE; lane_domain := Some domain;
              lane_source := Some POLICY_CHAIN_CAPTURE_SOURCE |}]).

(** [lanes[rotation:] + lanes[:rotation]] *)
Definition rotate (continuation : Z) (lanes : list Lane) : list Lane :=
  let rotation := Z.to_nat (continuation mod Zlength lanes) in
  list.drop rotation lanes ++ take rotation lanes.

(** ** One pass's selection *)
Record LaneSelection : Type := {
  chosen : list (string * FailedOperationData);
  cursors : dict string position;
  scan_exhausted_lanes : list string;
  capped : bool;
}.

Record sweep_world : Type := { queue : InMemoryFailedOperationRepository; monotonic : Z }.

Section fill.
  Context (set_order : gset string → list string).
  Context (max_replays : Z) (deadline : option Z).

Definition new_selection (carried : dict string position) : LaneSelection :=
  {| chosen := []; cursors := carried; scan_exhausted_lanes := []; capped := false |}.

(** What a lane's page adds to the selection. *)
Definition take_page (sel : LaneSelection) (l : Lane) (quota : Z) (page : ReplayablePage) :
    LaneSelection :=
  let key := lane_key l in {|
  chosen := chosen sel ++ map (pair key) (entries page);
  cursors := match next_cursor page with
             | Some c => dset (cursors sel) key c
             | None => cursors sel
             end;
  scan_exhausted_lanes :=
    if scan_exhausted page && negb (bool_decide (key ∈ scan_exhausted_lanes sel))
    then scan_exhausted_lanes sel ++ [key] else scan_exhausted_lanes sel;
  capped := capped sel || (Zlength (entries page) =? quota) |}.

Definition fill_one_lane (sel : LaneSelection) (l : Lane) (quota : Z) :
    eprog sweep_world (LaneSelection * Z) :=
  page <- atomically (λ w, (w,
    find_replayable_page set_order (queue w) max_replays (lane_domain l)
      (Some (lane_failure_type l)) (lane_source l) quota (dget (cursors sel) (lane_key l))));;
  ret (take_page sel l quota page, Zlength (entries page)).

(** [deadline is not None and time.monotonic() >= deadline] *)
Definition past_deadline : eprog sweep_world bool :=
  match deadline with
  | None => ret false
  | Some d => atomically (λ w, (w, d <=? monotonic w))
  end.

(** [selection.capped = True] *)
Definition cap_selection (sel : LaneSelection) : LaneSelection := {|
  chosen := chosen sel; cursors := cursors sel;
  scan_exhausted_lanes := scan_exhausted_lanes sel; capped := true |}.

(** The first round from lane number [i] on: every lane its share. *)
Fixpoint first_round (lanes : list Lane) (i quota_base extra : Z) (sel : LaneSelection)
    (used : Z) (filled_exactly : list Lane) :
    eprog sweep_world (LaneSelection * Z * list Lane) :=
  match lanes with
  | [] => ret (sel, used, filled_exactly)
  | l :: lanes =>
      late <- past_deadline;;
      if late then ret (cap_selection sel, used, filled_exactly)
      else
        let quota := quota_base + (if i <? extra then 1 else 0) in
        if quota <=? 0 then ret (sel, used, filled_exactly)
        else
          res <- fill_one_lane sel l quota;;
          let '(sel, taken) := res in
          first_round lanes (i + 1) quota_base extra sel (used + taken)
            (if taken =? quota then filled_exactly ++ [l] else filled_exactly)
  end.

(** The second round: what is left over to the lanes that filled theirs. *)
Fixpoint second_round (lanes : list Lane) (leftover : Z) (sel : LaneSelection) :
    eprog sweep_world LaneSelection :=
  match lanes with
  | [] => ret sel
  | l :: lanes =>
      if leftover <=? 0 then ret sel
      else
        late <- past_deadline;;
        if late then ret (cap_selection sel)
        else
          res <- fill_one_lane sel l leftover;;
          let '(sel, taken) := res in
          second_round lanes (leftover - taken) sel
  end.

Definition fill_circuit_close_lanes (ordered_lanes : list Lane) (max_items : Z)
    (lane_cursors : dict string position) : eprog sweep_world LaneSelection :=
  let n := Zlength ordered_lanes in
  res <- first_round ordered_lanes 0 (max_items / n) (max_items mod n)
           (new_selection lane_cursors) 0 [];;
  let '(sel, used, filled_exactly) := res in
  second_round filled_exactly (max_items - used) sel.
End fill.

(** ** Rolling back *)
Definition roll_back_lane_cursors (sel : LaneSelection) (processed : nat)
    (carried_cursors : dict string position) : dict string position :=
  let selected_lanes := map fst (chosen sel) in
  let rolled := foldl (λ d p, if bool_decide (p.1 ∈ selected_lanes) then d else dset d p.1 p.2)
                  carried_cursors (cursors sel) in
  foldl (λ d p, match position_of p.2 with Some c => dset d p.1 c | None => d end)
    rolled (take processed (chosen sel)).

(** ** What a selection guarantees *)

(** The positions a lane's chosen entries have, in the order they were chosen. *)
Definition positions (key : string) (l : list (string * FailedOperationData)) : list position :=
  omap (λ q, if bool_decide (q.1 = key) then position_of q.2 else None) l.

Record good_selection (carried : dict string position) (sel : LaneSelection) : Prop := {
  good_cursors : dict_wf (cursors sel);
  good_dated : ∀ q, q ∈ chosen sel → is_Some (position_of q.2);
  good_sorted : ∀ key, StronglySorted pos_lt (positions key (chosen sel));
  good_above : ∀ key p, p ∈ positions key (chosen sel) → above (dget carried key) p;
  good_passed : ∀ key p, p ∈ positions key (chosen sel) → ¬ above (dget (cursors sel) key) p;
  good_forward : ∀ key p, ¬ above (dget carried key) p → ¬ above (dget (cursors sel) key) p;
}.

Lemma positions_app key l l' : positions key (l ++ l') = positions key l ++ positions key l'.
Proof. apply omap_app. Qed.

Lemma positions_lane key key' es :
  positions key (map (pair key') es) = if bool_decide (key' = key) then omap position_of es else [].
Proof.
  unfold positions. induction es as [|e es IH]; simpl; [by case_bool_decide|].
  case_bool_decide; simpl; [|exact IH]. destruct (position_of e); [|exact IH].
  f_equal. exact IH.
Qed.

Lemma good_new carried : dict_wf carried → good_selection carried (new_selection carried).
Proof.
  intros Hwf. constructor; simpl; auto; try (intros; by apply elem_of_nil in H).
  intros key. constructor.
Qed.

Lemma good_capped carried sel : good_selection carried sel → good_selection carried (cap_selection sel).
Proof. by intros []. Qed.

Section guarantees.
  Context (set_order : gset string → list string).
  Context (set_order_perm : ∀ s, set_order s ≡ₚ elements s).
  Context (max_replays : Z) (deadline : option Z).

(** The page a lane is filled from. *)
Definition lane_page (self : InMemoryFailedOperationRepository) (l : Lane) (quota : Z)
    (cursor : option position) : ReplayablePage :=
  the_page set_order max_replays (lane_domain l) (Some (lane_failure_type l)) (lane_source l)
    quota self cursor.

Lemma good_page carried sel l quota self :
  good_selection carried sel → dlq_ok self → 1 <= quota →
  good_selection carried
    (take_page sel l quota (lane_page self l quota (dget (cursors sel) (lane_key l)))).
Proof.
  intros [Hwf Hd Hs Ha Hp Hf] Hok Hq. set (key := lane_key l).
  set (cur := dget (cursors sel) key). unfold take_page. fold key. set (page := lane_page self l quota cur).
  destruct (page_positions set_order set_order_perm max_replays (lane_domain l)
    (Some (lane_failure_type l)) (lane_source l) quota Hq self cur Hok) as (Hpos & Hsort & Hnew).
  fold (lane_page self l quota cur) in Hpos. fold page in Hpos.
  set (adv := advance _ _ _ _ _ _ self cur) in Hnew.
  set (sp := (selected _ _ _ _ _ _ self cur).*1) in *.
  assert (∀ k, dget (match next_cursor page with Some c => dset (cursors sel) key c
                     | None => cursors sel end) k = if decide (key = k) then adv else dget (cursors sel) k)
    as Hcur.
  { intros k. subst adv. unfold advance. fold (lane_page self l quota cur). fold page.
    destruct (next_cursor page); [rewrite dget_dset; by case_decide|by case_decide; subst]. }
  assert (∀ p, ¬ above cur p → ¬ above adv p) as Hadv.
  { intros p. by apply advance_behind. }
  assert (∀ k, positions k (chosen sel ++ map (pair key) (entries page)) =
    positions k (chosen sel) ++ if decide (key = k) then sp else []) as Hpp.
  { intros k. rewrite positions_app, positions_lane, Hpos. by case_decide; case_bool_decide. }
  constructor; cbn [chosen cursors].
  - case_match; [by apply dict_wf_dset|done].
  - intros q [?|Hin]%elem_of_app; [auto|].
    apply list_elem_of_fmap in Hin as (e & -> & Hin). by eapply page_dated.
  - intros k. rewrite Hpp. case_decide as Hk; [|by rewrite app_nil_r]. subst k.
    apply StronglySorted_app_2; [|done..]. intros x y Hx%Hp Hy%Hnew Hle.
    fold cur in Hx. destruct Hy as [Hy _]. apply Hx. by eapply above_mono.
  - intros k p. rewrite Hpp, elem_of_app. intros [?|Hin]; [auto|]. case_decide as Hk; [subst k|set_solver].
    apply Hnew in Hin as [Hab _]. apply dec_stable. intros Hn. by apply Hf in Hn.
  - intros k p. rewrite Hpp, Hcur, elem_of_app. case_decide as Hk; [subst k|set_solver].
    intros [Hin|Hin]; [by apply Hadv, Hp|by apply Hnew].
  - intros k p Hn. rewrite Hcur. case_decide; [subst k|auto]. apply Hadv. by apply Hf.
Qed.

(** ** Both rounds, whatever runs in between *)
Notation safe p Φ :=
  (wp (λ w : sweep_world, dlq_ok (queue w)) (λ _ _, 0) p 0 (λ _ r, ∃ a, r = inr a ∧ Φ a)).

Lemma safe_bind {A B} (p : eprog sweep_world A) (k : A → eprog sweep_world B)
    (Φ : A → Prop) (Ψ : B → Prop) :
  safe p Φ → (∀ a, Φ a → safe (k a) Ψ) → safe (ebind p k) Ψ.
Proof.
  intros Hp Hk. apply wp_ebind.
  assert (∀ (q : eprog sweep_world A) n, wp (λ w : sweep_world, dlq_ok (queue w)) (λ _ _, 0) q n
    (λ _ r, ∃ a, r = inr a ∧ Φ a) → n = 0 →
    wp (λ w : sweep_world, dlq_ok (queue w)) (λ _ _, 0) q n
    (λ m r, m = 0 ∧ ∃ a, r = inr a ∧ Φ a)) as Hz.
  { induction q as [r|C f c IH]; intros n; simpl; [by auto|]. intros Hq -> w Hw.
    destruct (Hq w Hw) as [? Hc]. split; [done|]. by apply IH. }
  eapply wp_mono; [by apply Hz|]. intros m r (-> & a & -> & Ha). by apply Hk.
Qed.

Lemma safe_ret {A} (a : A) (Φ : A → Prop) : Φ a → safe (ret a : eprog sweep_world A) Φ.
Proof. intros Ha. simpl. eauto. Qed.

Lemma safe_read {A} (f : sweep_world → A) (Φ : A → Prop) :
  (∀ w, dlq_ok (queue w) → Φ (f w)) → safe (atomically (λ w, (w, f w))) Φ.
Proof. intros Hf. apply wp_atomically. intros w Hw. eauto. Qed.

Lemma safe_deadline (Φ : bool → Prop) : (∀ b, Φ b) → safe (past_deadline deadline) Φ.
Proof. intros Hb. unfold past_deadline. destruct deadline; [by apply safe_read|by apply safe_ret]. Qed.

(** A lane adds at most its quota, and the selection stays good. *)
Lemma safe_lane carried sel l quota :
  good_selection carried sel → 1 <= quota →
  safe (fill_one_lane set_order max_replays sel l quota) (λ res,
    good_selection carried res.1 ∧ 0 <= res.2 <= quota ∧
    Zlength (chosen res.1) = Zlength (chosen sel) + res.2).
Proof.
  intros Hg Hq. eapply safe_bind; [apply (safe_read (λ w, lane_page (queue w) l quota
    (dget (cursors sel) (lane_key l)))) with (Φ := λ page,
    good_selection carried (take_page sel l quota page) ∧ Zlength (entries page) <= quota)|].
  - intros w Hw. split; [by apply good_page|].
    unfold lane_page. rewrite page_length by done. lia.
  - intros page [Hgp Hlen]. apply safe_ret. split; [done|]. simpl.
    pose proof (Zlength_nonneg (entries page)).
    rewrite Zlength_app. unfold Zlength at 4. rewrite length_map. unfold Zlength in *. lia.
Qed.

(** What the first [i] lanes may take together. *)
Definition shares (base extra i : Z) : Z := if base <? 0 then 0 else i * base + Z.min i extra.

Lemma safe_first lanes i base extra sel used filled carried :
  good_selection carried sel → Zlength (chosen sel) = used → 0 <= i → 0 <= extra →
  used <= shares base extra i →
  safe (first_round set_order max_replays deadline lanes i base extra sel used filled) (λ res,
    good_selection carried res.1.1 ∧ Zlength (chosen res.1.1) = res.1.2 ∧
    res.1.2 <= shares base extra (i + Zlength lanes)).
Proof.
  revert i sel used filled. induction lanes as [|l lanes IH]; intros i sel used filled Hg Hu Hi He Hle;
    simpl first_round.
  { apply safe_ret. simpl. unfold Zlength at 2. simpl. rewrite Z.add_0_r. auto. }
  assert (shares base extra i <= shares base extra (i + Zlength (l :: lanes))) as Hmono.
  { pose proof (Zlength_nonneg (l :: lanes)). unfold shares.
    destruct (Z.ltb_spec base 0); [done|]. nia. }
  eapply safe_bind; [by apply (safe_deadline (λ _, True))|]. intros late _.
  destruct late; [apply safe_ret; simpl; split_and!; [by apply good_capped|done|lia]|].
  destruct (Z.leb_spec (base + (if i <? extra then 1 else 0)) 0) as [|Hq];
    [apply safe_ret; simpl; split_and!; [done|done|lia]|].
  eapply safe_bind; [apply (safe_lane carried); [done|lia]|].
  intros [sel' taken] (Hg' & Ht & Hlen). simpl in *.
  eapply wp_mono; [apply IH; [done|lia|lia|done|]|].
  - unfold shares in *. destruct (Z.ltb_spec i extra), (Z.ltb_spec base 0); nia.
  - intros m r (a & -> & Ha). exists a. split; [done|].
    replace (i + Zlength (l :: lanes)) with (i + 1 + Zlength lanes) by (unfold Zlength; simpl; lia).
    done.
Qed.

Lemma safe_second lanes leftover sel carried bound :
  good_selection carried sel → Zlength (chosen sel) + Z.max 0 leftover <= bound →
  safe (second_round set_order max_replays deadline lanes leftover sel) (λ sel',
    good_selection carried sel' ∧ Zlength (chosen sel') <= bound).
Proof.
  revert leftover sel. induction lanes as [|l lanes IH]; intros leftover sel Hg Hle;
    simpl second_round; [apply safe_ret; split; [done|lia]|].
  destruct (Z.leb_spec leftover 0); [apply safe_ret; split; [done|lia]|].
  eapply safe_bind; [by apply (safe_deadline (λ _, True))|]. intros late _.
  destruct late; [apply safe_ret; split; [by apply good_capped|simpl; lia]|].
  eapply safe_bind; [apply (safe_lane carried); [done|lia]|].
  intros [sel' taken] (Hg' & Ht & Hlen). simpl in *. apply IH; [done|lia].
Qed.

Lemma safe_fill lanes max_items carried :
  dict_wf carried → lanes ≠ [] →
  safe (fill_circuit_close_lanes set_order max_replays deadline lanes max_items carried) (λ sel,
    good_selection carried sel ∧ Zlength (chosen sel) <= Z.max 0 max_items).
Proof.
  intros Hwf Hne. assert (0 < Zlength lanes) as Hn.
  { destruct lanes; [done|]. unfold Zlength. simpl. lia. }
  pose proof (Z.mod_pos_bound max_items (Zlength lanes) Hn).
  pose proof (Z.div_mod max_items (Zlength lanes)).
  eapply safe_bind; [apply (safe_first lanes 0 _ _ _ 0 [] carried)|].
  - by apply good_new.
  - done.
  - done.
  - lia.
  - unfold shares. case_match; lia.
  - intros [[sel used] filled] (Hg & Hu & Hle). simpl in *. apply safe_second; [done|].
    unfold shares in Hle. pose proof (Zlength_nonneg (chosen sel)).
    destruct (Z.ltb_spec (max_items / Zlength lanes) 0); nia.
Qed.
End guarantees.

(** ** Where an interrupted pass resumes *)
Lemma rolled_unselected (lanes : list string) (cs d : dict string position) key :
  dict_wf cs →
  dget (foldl (λ d p, if bool_decide (p.1 ∈ lanes) then d else dset d p.1 p.2) d cs) key =
  if decide (key ∈ lanes) then dget d key
  else match dget cs key with Some c => Some c | None => dget d key end.
Proof.
  revert d. induction cs as [|[k c] cs IH]; intros d Hwf; simpl; [by case_decide|].
  apply NoDup_cons in Hwf as [Hni Hwf]. rewrite IH by done. simpl in *.
  destruct (decide (key ∈ lanes)) as [Hin|Hin].
  - case_bool_decide; [done|]. rewrite dget_dset_ne; [done|]. set_solver.
  - destruct (decide (k = key)) as [->|Hk].
    + assert (dget cs key = None) as ->.
      { destruct (dget cs key) eqn:E; [|done]. destruct Hni. apply elem_of_dkeys. eauto. }
      rewrite bool_decide_eq_false_2 by done. apply dget_dset_eq.
    + case_bool_decide; [done|]. by rewrite dget_dset_ne.
Qed.

Lemma rolled_processed (l : list (string * FailedOperationData)) (d : dict string position) key :
  dget (foldl (λ d p, match position_of p.2 with Some c => dset d p.1 c | None => d end) d l) key =
  match last (positions key l) with Some p => Some p | None => dget d key end.
Proof.
  induction l as [|[k e] l IH] using rev_ind; [done|].
  rewrite foldl_app, positions_app. simpl foldl.
  assert (positions key [(k, e)] = if bool_decide (k = key) then
    match position_of e with Some p => [p] | None => [] end else []) as ->
    by (unfold positions; simpl; by case_bool_decide; [destruct (position_of e)|]).
  case_bool_decide as Hk; [subst k|].
  - destruct (position_of e) as [p|]; [|by rewrite app_nil_r].
    rewrite last_snoc. apply dget_dset_eq.
  - rewrite app_nil_r. destruct (position_of e); [|done]. by rewrite dget_dset_ne.
Qed.

(** The lanes' cursors after a pass that stopped before entry [processed]: every
    entry processed is at or below its lane's cursor, every entry selected and
    not processed is above it, and a lane that selected nothing keeps the
    position its walk reached. *)
Definition resumes_exactly (carried : dict string position) (sel : LaneSelection)
    (processed : nat) : Prop :=
  let rolled := roll_back_lane_cursors sel processed carried in
  (∀ i key e, chosen sel !! i = Some (key, e) →
     ∃ p, position_of e = Some p ∧ (above (dget rolled key) p ↔ (processed <= i)%nat)) ∧
  ∀ key, key ∉ map fst (chosen sel) → dget rolled key = dget (cursors sel) key.

Lemma elem_of_positions key p l :
  p ∈ positions key l ↔ ∃ e, (key, e) ∈ l ∧ position_of e = Some p.
Proof.
  unfold positions. rewrite list_elem_of_omap. split.
  - intros ([k e] & Hin & Hp). simpl in Hp. case_bool_decide; [|done]. subst. eauto.
  - intros (e & Hin & Hp). exists (key, e). simpl. by rewrite bool_decide_eq_true_2.
Qed.

Lemma good_resumes carried sel processed :
  good_selection carried sel → resumes_exactly carried sel processed.
Proof.
  intros [Hwf Hd Hs Ha Hp Hf]. unfold resumes_exactly, roll_back_lane_cursors.
  set (done_part := take processed (chosen sel)).
  split.
  - intros i key e Hi. pose proof (list_elem_of_lookup_2 _ _ _ Hi) as Hin.
    destruct (Hd _ Hin) as [p Hpos]. simpl in Hpos. exists p. split; [done|].
    rewrite rolled_processed, rolled_unselected by done.
    rewrite decide_True by (apply list_elem_of_fmap; by exists (key, e)).
    specialize (Hs key). rewrite <-(take_drop processed (chosen sel)), positions_app in Hs.
    fold done_part in Hs.
    assert ((processed <= i)%nat → p ∈ positions key (list.drop processed (chosen sel))) as Hlate.
    { intros Hle. apply elem_of_positions. exists e. split; [|done].
      apply (list_elem_of_lookup_2 _ (i - processed)). rewrite lookup_drop. by rewrite Nat.add_comm, Nat.sub_add. }
    assert (¬ (processed <= i)%nat → p ∈ positions key done_part) as Hearly.
    { intros Hlt. apply elem_of_positions. exists e. split; [|done].
      apply (list_elem_of_lookup_2 _ i). unfold done_part. rewrite lookup_take_lt by lia. done. }
    destruct (last (positions key done_part)) as [z|] eqn:Hz.
    + split.
      * intros Hab. apply dec_stable. intros Hlt%Hearly. apply Hab. simpl.
        apply StronglySorted_app_1_l in Hs. apply last_Some in Hz as [l' Hl']. rewrite Hl' in Hs, Hlt.
        apply elem_of_app in Hlt as [Hlt| ->%list_elem_of_singleton]; [|done].
        apply pos_not_le. apply (StronglySorted_app_1_elem_of _ _ _ _ _ Hs Hlt). by left.
      * intros Hle%Hlate. apply (StronglySorted_app_1_elem_of _ _ _ z p Hs); [|done].
        apply last_Some in Hz as [l' ->]. set_solver.
    + apply last_None in Hz. rewrite Hz in Hearly. split.
      * intros _. apply dec_stable. intros Hlt. by apply Hearly, elem_of_nil in Hlt.
      * intros _. apply Ha, elem_of_positions. eauto.
  - intros key Hkey. rewrite rolled_processed, rolled_unselected by done. rewrite decide_False by done.
    destruct (last (positions key done_part)) as [z|] eqn:Hz.
    { destruct Hkey. apply last_Some in Hz as [l' Hz].
      assert (z ∈ positions key done_part) as Hin by (rewrite Hz; set_solver).
      apply elem_of_positions in Hin as (e & Hin & _). apply list_elem_of_fmap.
      exists (key, e). split; [done|]. unfold done_part in Hin.
      rewrite <-(take_drop processed (chosen sel)). set_solver. }
    destruct (dget (cursors sel) key) as [c|] eqn:Hc; [done|].
    destruct (dget carried key) as [f|] eqn:Hcar; [|done]. exfalso.
    apply (Hf key f); [|by rewrite Hc]. rewrite Hcar. intros Hn. by apply Hn.
Qed.

(** C32: An interrupted pass loses nothing and repeats nothing.  Whatever other
    threads do to the queue between its reads, the fill returns a selection of
    at most [max_items] entries such that, wherever the pass is cut, the
    rolled-back cursors put every entry it processed at or below its lane's
    cursor and every entry it selected and did not process strictly above, so
    that the next pass selects the tail again and nothing before it; and a lane
    that selected nothing keeps the position its walk reached. *)
Theorem interrupted_pass_resumes set_order max_replays deadline lanes max_items carried :
  (∀ s, set_order s ≡ₚ elements s) → dict_wf carried → lanes ≠ [] →
  wp (λ w, dlq_ok (queue w)) (λ _ _, 0)
    (fill_circuit_close_lanes set_order max_replays deadline lanes max_items carried) 0
    (λ _ r, ∃ sel, r = inr sel ∧ Zlength (chosen sel) <= Z.max 0 max_items ∧
       ∀ processed, resumes_exactly carried sel processed).
Proof.
  intros Hord Hwf Hne. eapply wp_mono; [by apply (safe_fill set_order Hord)|].
  intros _ r (sel & -> & Hg & Hlen). exists sel. split_and!; [done..|].
  intros processed. by apply good_resumes.
Qed.

Lemma interrupted_pass_resumes_witness :
  let lane t := {| lane_failure_type := t; lane_domain := Some "payment"; lane_source := None |} in
  wp (λ w, dlq_ok (queue w)) (λ _ _, 0)
    (fill_circuit_close_lanes py_set_order 2 (Some 100) [lane "TIMEOUT"; lane "REFUSED"] 3 []) 0
    (λ _ r, ∃ sel, r = inr sel ∧ Zlength (chosen sel) <= Z.max 0 3 ∧
       ∀ processed, resumes_exactly [] sel processed).
Proof.
  intros lane. apply (interrupted_pass_resumes py_set_order 2 (Some 100)).
  - apply py_set_order_perm.
  - apply dict_wf_nil.
  - done.
Defined.

(** ** How much a pass selects, run alone *)
Section quota.
  Context (set_order : gset string → list string).
  Context (set_order_perm : ∀ s, set_order s ≡ₚ elements s).
  Context (max_replays : Z) (w : sweep_world).
  Context (w_ok : dlq_ok (queue w)).

(** The entries a lane can still reach from its cursor. *)
Definition reachable (cs : dict string position) (l : Lane) : Z :=
  Zlength (matches set_order max_replays (lane_domain l) (Some (lane_failure_type l))
    (lane_source l) (queue w) (dget cs (lane_key l))).

Definition reachable_all (cs : dict string position) (ls : list Lane) : Z :=
  Zsum (map (reachable cs) ls).

Lemma reachable_nonneg cs l : 0 <= reachable cs l.
Proof. apply Zlength_nonneg. Qed.

Lemma reachable_all_nonneg cs ls : 0 <= reachable_all cs ls.
Proof.
  unfold reachable_all. induction ls as [|l ls IH]; simpl; [done|].
  pose proof (reachable_nonneg cs l). lia.
Qed.

Lemma reachable_all_cons cs l ls : reachable_all cs (l :: ls) = reachable cs l + reachable_all cs ls.
Proof. done. Qed.

Lemma reachable_all_app cs ls ls' :
  reachable_all cs (ls ++ ls') = reachable_all cs ls + reachable_all cs ls'.
Proof. unfold reachable_all. by rewrite map_app, Zsum_app. Qed.

(** Filling one lane takes what it can, up to its quota, from that lane alone. *)
Lemma run_lane sel l quota :
  1 <= quota →
  ∃ sel' taken, run (fill_one_lane set_order max_replays sel l quota) w = (w, inr (sel', taken)) ∧
    taken = Z.min quota (reachable (cursors sel) l) ∧
    Zlength (chosen sel') = Zlength (chosen sel) + taken ∧
    reachable (cursors sel') l = reachable (cursors sel) l - taken ∧
    ∀ l', lane_key l' ≠ lane_key l → reachable (cursors sel') l' = reachable (cursors sel) l'.
Proof.
  intros Hq. unfold fill_one_lane. autorewrite with run. cbn [fst snd].
  set (cur := dget (cursors sel) (lane_key l)).
  set (page := find_replayable_page _ _ _ _ _ _ _ _).
  assert (page = the_page set_order max_replays (lane_domain l) (Some (lane_failure_type l))
    (lane_source l) quota (queue w) cur) as Hpage by done.
  clearbody page. exists (take_page sel l quota page), (Zlength (entries page)). split; [done|].
  assert (Zlength (entries page) = Z.min quota (reachable (cursors sel) l)) as Hlen.
  { rewrite Hpage. by apply page_length. }
  split_and!; [done| | |].
  - simpl. rewrite Zlength_app. f_equal. unfold Zlength. by rewrite length_map.
  - assert (dget (cursors (take_page sel l quota page)) (lane_key l) =
      advance set_order max_replays (lane_domain l) (Some (lane_failure_type l))
        (lane_source l) quota (queue w) cur) as Hcur.
    { simpl. unfold advance. rewrite <-Hpage. destruct (next_cursor page); [apply dget_dset_eq|done]. }
    unfold reachable. rewrite Hcur. fold cur.
    rewrite (matches_advance set_order set_order_perm max_replays (lane_domain l)
      (Some (lane_failure_type l)) (lane_source l) quota Hq (queue w) cur w_ok), <-Hpage. lia.
  - intros l' Hne. unfold reachable. do 2 f_equal. simpl. destruct (next_cursor page); [|done].
    by apply dget_dset_ne.
Qed.

Lemma reachable_others sel sel' l ls :
  (∀ l', lane_key l' ≠ lane_key l → reachable (cursors sel') l' = reachable (cursors sel) l') →
  lane_key l ∉ map lane_key ls →
  reachable_all (cursors sel') ls = reachable_all (cursors sel) ls.
Proof.
  intros Hoth Hni. unfold reachable_all. f_equal. apply map_ext_in. intros l' Hin. apply Hoth.
  intros Heq. apply Hni. rewrite <-Heq. apply list_elem_of_In, in_map. done.
Qed.

Lemma run_first lanes i base extra sel used filled :
  1 <= base → 0 <= i → 0 <= extra → used <= shares base extra i →
  NoDup (map lane_key (filled ++ lanes)) →
  ∃ sel' used' filled',
    run (first_round set_order max_replays None lanes i base extra sel used filled) w =
      (w, inr (sel', used', filled')) ∧
    used' + reachable_all (cursors sel') filled' =
      used + reachable_all (cursors sel) (filled ++ lanes) ∧
    used' <= shares base extra (i + Zlength lanes) ∧
    Zlength (chosen sel') - used' = Zlength (chosen sel) - used ∧
    NoDup (map lane_key filled').
Proof.
  revert i sel used filled. induction lanes as [|l lanes IH];
    intros i sel used filled Hb Hi He Hu Hnd; simpl first_round.
  { autorewrite with run. exists sel, used, filled. rewrite app_nil_r in *.
    unfold Zlength at 1. simpl. rewrite Z.add_0_r. auto. }
  autorewrite with run. simpl. set (quota := base + (if i <? extra then 1 else 0)).
  assert (1 <= quota) as Hq by (unfold quota; case_match; lia).
  rewrite (proj2 (Z.leb_gt quota 0)) by lia. autorewrite with run.
  destruct (run_lane sel l quota Hq) as (sel1 & taken & -> & Ht & Hch & Hrem & Hoth).
  assert (lane_key l ∉ map lane_key (filled ++ lanes)) as Hni.
  { rewrite !map_app in *. simpl in Hnd. apply NoDup_app in Hnd as (_ & H1 & H2).
    apply NoDup_cons in H2 as [H2 _]. rewrite elem_of_app. intros [H|H]; [|done].
    apply (H1 _ H). by left. }
  set (filled1 := if taken =? quota then filled ++ [l] else filled).
  destruct (IH (i + 1) sel1 (used + taken) filled1) as (sel' & used' & filled' & -> & Heq & Hle & Hd & Hn);
    [done|lia|done| | |].
  - unfold shares in *. destruct (Z.ltb_spec base 0); [lia|]. unfold quota in Ht.
    destruct (Z.ltb_spec i extra); lia.
  - unfold filled1. case_match; [by rewrite <-app_assoc|].
    rewrite !map_app in *. simpl in Hnd. apply NoDup_app in Hnd as (? & H1 & H2).
    apply NoDup_cons in H2 as [_ ?]. apply NoDup_app. split_and!; [done| |done].
    intros x Hx Hx'. apply (H1 x Hx). by right.
  - exists sel', used', filled'. split_and!; [done| | |lia|done].
    + rewrite Heq. unfold filled1. case_match eqn:Hfull.
      * apply Z.eqb_eq in Hfull. rewrite !reachable_all_app, !reachable_all_cons.
        rewrite !map_app, not_elem_of_app in Hni. destruct Hni.
        rewrite (reachable_others sel sel1 l filled), (reachable_others sel sel1 l lanes) by done.
        change (reachable_all (cursors sel1) []) with 0. lia.
      * apply Z.eqb_neq in Hfull. rewrite !reachable_all_app, !reachable_all_cons.
        rewrite !map_app, not_elem_of_app in Hni. destruct Hni.
        rewrite (reachable_others sel sel1 l filled), (reachable_others sel sel1 l lanes) by done. lia.
    + replace (i + Zlength (l :: lanes)) with (i + 1 + Zlength lanes)
        by (unfold Zlength; simpl; lia). done.
Qed.

Lemma run_second lanes leftover sel :
  0 <= leftover → NoDup (map lane_key lanes) →
  ∃ sel', run (second_round set_order max_replays None lanes leftover sel) w = (w, inr sel') ∧
    Zlength (chosen sel') = Zlength (chosen sel) +
      Z.min leftover (reachable_all (cursors sel) lanes).
Proof.
  revert leftover sel. induction lanes as [|l lanes IH]; intros leftover sel Hl Hnd;
    simpl second_round.
  { autorewrite with run. exists sel. split; [done|]. unfold reachable_all. simpl. lia. }
  rewrite reachable_all_cons. pose proof (reachable_nonneg (cursors sel) l).
  pose proof (reachable_all_nonneg (cursors sel) lanes).
  destruct (Z.leb_spec leftover 0).
  { autorewrite with run. exists sel. split; [done|]. lia. }
  rewrite run_ebind, run_ret_e. cbn beta iota. rewrite run_ebind.
  destruct (run_lane sel l leftover ltac:(lia)) as (sel1 & taken & -> & Ht & Hch & Hrem & Hoth).
  simpl in Hnd. apply NoDup_cons in Hnd as [Hni Hnd].
  destruct (IH (leftover - taken) sel1) as (sel' & -> & Hlen); [lia|done|].
  exists sel'. split; [done|]. rewrite Hlen, (reachable_others sel sel1 l) by done. lia.
Qed.

Lemma run_fill lanes max_items carried :
  lanes ≠ [] → NoDup (map lane_key lanes) → Zlength lanes <= max_items →
  ∃ sel, run (fill_circuit_close_lanes set_order max_replays None lanes max_items carried) w =
      (w, inr sel) ∧
    Zlength (chosen sel) = Z.min max_items (reachable_all carried lanes).
Proof.
  intros Hne Hnd Hle. assert (0 < Zlength lanes) as Hn.
  { destruct lanes; [done|]. unfold Zlength. simpl. lia. }
  pose proof (Z.mod_pos_bound max_items (Zlength lanes) Hn).
  pose proof (Z.div_mod max_items (Zlength lanes)).
  assert (1 <= max_items / Zlength lanes) as Hb by (apply Z.div_le_lower_bound; lia).
  unfold fill_circuit_close_lanes. autorewrite with run.
  destruct (run_first lanes 0 (max_items / Zlength lanes) (max_items mod Zlength lanes)
    (new_selection carried) 0 []) as (sel & used & filled & -> & Heq & Hu & Hch & Hf);
    [done|done|lia|unfold shares; case_match; lia|done|].
  assert (used <= max_items) as Hmax.
  { unfold shares in Hu. destruct (Z.ltb_spec (max_items / Zlength lanes) 0); nia. }
  destruct (run_second filled (max_items - used) sel) as (sel' & -> & Hlen); [lia|done|].
  exists sel'. split; [done|]. rewrite Hlen.
  change (Zlength (chosen (new_selection carried))) with 0 in Hch. simpl in Heq. lia.
Qed.
End quota.

(** ** The lanes of a recovery are distinct *)
Lemma str_length_app s t : String.length (s +:+ t) = (String.length s + String.length t)%nat.
Proof.
  induction s as [|c s IH]; [done|].
  change (S (String.length (s +:+ t)) = S (String.length s + String.length t)). by rewrite IH.
Qed.

Lemma str_app_inj_r s t u : s +:+ u = t +:+ u → s = t.
Proof.
  revert t. induction s as [|c s IH]; intros [|d t] Heq; [done| | |].
  - apply (f_equal String.length) in Heq. rewrite !str_length_app in Heq. simpl in Heq. lia.
  - apply (f_equal String.length) in Heq. rewrite !str_length_app in Heq. simpl in Heq. lia.
  - injection Heq as <- Heq. f_equal. by apply IH.
Qed.

Lemma add_types_NoDup l mapped : NoDup mapped → NoDup (foldl add_type mapped l).
Proof.
  revert mapped. induction l as [|t l IH]; intros mapped Hnd; simpl; [done|]. apply IH.
  unfold add_type. destruct t; try done. case_bool_decide; [done|].
  apply NoDup_app. split_and!; [done|set_solver|apply NoDup_singleton].
Qed.

Lemma mapped_types_NoDup domain fmap : NoDup (mapped_types domain fmap).
Proof.
  unfold mapped_types. assert (NoDup (@nil string)) as Hnil by constructor. revert Hnil.
  generalize (@nil string). induction fmap as [|p fmap IH]; intros l Hl; simpl; [done|].
  apply IH. case_match; [|done]. case_bool_decide; [by apply add_types_NoDup|done].
Qed.

Lemma recovery_types_NoDup handlers domain fmap :
  NoDup (map lane_failure_type (recovery_lanes handlers domain fmap)).
Proof.
  unfold recovery_lanes. destruct (_ || _); [constructor|].
  set (mapped := mapped_types domain fmap).
  set (declared := default [] _). rewrite !map_app, !map_map. simpl.
  rewrite !map_id. apply NoDup_app. split_and!.
  - apply mapped_types_NoDup.
  - intros t Ht. rewrite elem_of_app. intros [Hd|Ho].
    + apply elem_of_filter_bool in Hd as [[Hn _]%andb_true_iff _].
      apply negb_true_iff, bool_decide_eq_false in Hn. done.
    + case_bool_decide; simpl in Ho; set_solver.
  - apply NoDup_app. split_and!.
    + apply NoDup_filter_bool, add_types_NoDup. constructor.
    + intros t Hd Ho. apply elem_of_filter_bool in Hd as [[_ Hn]%andb_true_iff _].
      apply negb_true_iff, bool_decide_eq_false in Hn. case_bool_decide; simpl in Ho; set_solver.
    + case_bool_decide; simpl; [constructor|apply NoDup_singleton].
Qed.

Lemma recovery_lanes_domain handlers domain fmap l :
  l ∈ recovery_lanes handlers domain fmap → lane_domain l = Some domain.
Proof.
  unfold recovery_lanes. destruct (_ || _); [by intros ?%elem_of_nil|].
  rewrite !elem_of_app. intros [Hl|[Hl|Hl]].
  - apply list_elem_of_fmap in Hl as (t & -> & _). done.
  - apply list_elem_of_fmap in Hl as (t & -> & _). done.
  - case_bool_decide; [by apply elem_of_nil in Hl|]. apply list_elem_of_singleton in Hl. by subst.
Qed.

Lemma recovery_keys_NoDup handlers domain fmap :
  NoDup (map lane_key (recovery_lanes handlers domain fmap)).
Proof.
  pose proof (recovery_types_NoDup handlers domain fmap) as Hnd.
  assert (map lane_key (recovery_lanes handlers domain fmap) =
    (λ t, t +:+ "|" +:+ domain) <$> map lane_failure_type (recovery_lanes handlers domain fmap)) as ->.
  { rewrite <-(list_fmap_compose lane_failure_type). apply list_fmap_ext.
    intros i l Hl%list_elem_of_lookup_2. unfold lane_key.
    by rewrite (recovery_lanes_domain _ _ _ _ Hl). }
  apply NoDup_fmap_2; [|done]. intros s t. apply str_app_inj_r.
Qed.

Lemma rotate_perm k lanes : rotate k lanes ≡ₚ lanes.
Proof. unfold rotate. rewrite Permutation_app_comm. by rewrite take_drop. Qed.

(** A pass moves as many entries as fit.  Run alone and without a deadline,
    with at least one item per lane, the two fill rounds over the lanes of a
    recovery, in whatever rotation, select exactly the smaller of [max_items]
    and all the entries the lanes can reach from their cursors: what one lane
    does not need goes to the others. *)
Theorem pass_moves_what_fits set_order max_replays w handlers domain fmap continuation
    max_items carried :
  (∀ s, set_order s ≡ₚ elements s) → dlq_ok (queue w) →
  let lanes := rotate continuation (recovery_lanes handlers domain fmap) in
  lanes ≠ [] → Zlength lanes <= max_items →
  ∃ sel,
    run (fill_circuit_close_lanes set_order max_replays None lanes max_items carried) w =
      (w, inr sel) ∧
    Zlength (chosen sel) =
      Z.min max_items (reachable_all set_order max_replays w carried lanes).
Proof.
  intros Hord Hok lanes Hne Hle. apply (run_fill set_order Hord max_replays w Hok); [done| |done].
  unfold lanes. rewrite rotate_perm. apply recovery_keys_NoDup.
Qed.

(** Two lanes of a domain with a handler that declares one type, over the sample
    store's one TIMEOUT entry. *)
Definition sample_handlers : handler_registry := [("payment", Some [VStr "TIMEOUT"])].
Definition sample_world : sweep_world := {| queue := sample_store; monotonic := 0 |}.

Lemma pass_moves_what_fits_witness :
  let lanes := rotate 1 (recovery_lanes sample_handlers "payment" []) in
  ∃ sel,
    run (fill_circuit_close_lanes py_set_order 2 None lanes 2 []) sample_world =
      (sample_world, inr sel) ∧
    Zlength (chosen sel) = Z.min 2 (reachable_all py_set_order 2 sample_world [] lanes).
Proof.
  apply (pass_moves_what_fits py_set_order 2 sample_world sample_handlers "payment" [] 1 2 []).
  - apply py_set_order_perm.
  - apply sample_ok.
  - by vm_compute.
  - by vm_compute.
Defined.

(** With fewer items than lanes a pass can move nothing although an entry is
    reachable: the lane that was offered the item has none, and the lane that
    has one was never asked. *)
Theorem small_pass_moves_nothing :
  let lanes := rotate 1 (recovery_lanes sample_handlers "payment" []) in
  reachable_all py_set_order 2 sample_world [] lanes = 1 ∧
  ∃ sel, run (fill_circuit_close_lanes py_set_order 2 None lanes 1 []) sample_world =
    (sample_world, inr sel) ∧ chosen sel = [].
Proof. split; [vm_compute; reflexivity|]. eexists. split; vm_compute; reflexivity. Qed.
