(* ===== verification/TimeWindow.v ===== *)
(** The time-bucketed outcome window ([services/circuit_breaker/time_outcome_window.py]):
    the producer of the five-minute failure rate.  Each key owns a ring of 31
    ten-second buckets; recording is constant time, and reading is what ages
    keys out, re-reads the cardinality cap and evicts healthy keys.  The
    theorems compare the ring with the plain log of outcomes it stands for.
    Times are microseconds of the monotonic clock; the three [int64] arrays of a
    ring are lists of integers (a counter grows by one per recorded outcome, so
    the width of 63 bits is not reached). *)
From stdpp Require Import sorting.
From S2P Require Import Prelude Domains.

(** ** Constants *)
Definition FAILURE_RATE_WINDOW_SECONDS : Z := 300.
Definition BUCKET_SECONDS : Z := 10.
Definition BUCKET_COUNT : Z := FAILURE_RATE_WINDOW_SECONDS / BUCKET_SECONDS + 1.
Definition MAX_OUTCOME_KEYS : Z := 50.
Definition HEADROOM_DIVISOR : Z := 10.
Definition MAX_SPELLING_MEMO : Z := 256.
Definition EMPTY_EPOCH : Z := -1.

(** [int(clock() // _BUCKET_SECONDS)] *)
Definition epoch_of (now : Z) : Z := now / seconds BUCKET_SECONDS.

(** ** The ring of one key *)
Record bucket_ring := BucketRing {
  br_epochs : list Z;
  br_failures : list Z;
  br_totals : list Z;
}.

Definition new_ring : bucket_ring :=
  BucketRing (replicate (Z.to_nat BUCKET_COUNT) EMPTY_EPOCH)
    (replicate (Z.to_nat BUCKET_COUNT) 0) (replicate (Z.to_nat BUCKET_COUNT) 0).

(** [array[i]]; every index used is below [BUCKET_COUNT] *)
Definition at_ (l : list Z) (i : nat) : Z := nth i l 0.

(** The tail of [record], on the ring it found or made. *)
Definition ring_record (r : bucket_ring) (epoch : Z) (failure : bool) : bucket_ring :=
  let i := Z.to_nat (epoch mod BUCKET_COUNT) in
  let r :=
    if at_ (br_epochs r) i =? epoch then r
    else BucketRing (<[i := epoch]> (br_epochs r)) (<[i := 0]> (br_failures r))
           (<[i := 0]> (br_totals r)) in
  let totals := <[i := at_ (br_totals r) i + 1]> (br_totals r) in
  let failures :=
    if failure then <[i := at_ (br_failures r) i + 1]> (br_failures r)
    else br_failures r in
  BucketRing (br_epochs r) failures totals.

(** One iteration of [_walk]'s loop. *)
Definition walk_step (r : bucket_ring) (now_epoch : Z) (acc : Z * Z * Z) (i : nat) : Z * Z * Z :=
  let '(window_failures, window_total, last_epoch) := acc in
  let epoch := at_ (br_epochs r) i in
  if epoch <? 0 then acc else
  let age := now_epoch - epoch in
  if (age <? 0) || (BUCKET_COUNT <=? age) then acc else
  let total := at_ (br_totals r) i in
  if total =? 0 then acc else
  (window_failures + at_ (br_failures r) i, window_total + total,
   if last_epoch <? epoch then epoch else last_epoch).

Definition walk (r : bucket_ring) (now_epoch : Z) : Z * Z * Z :=
  foldl (walk_step r now_epoch) (0, 0, EMPTY_EPOCH) (seq 0 (Z.to_nat BUCKET_COUNT)).

(** ** The window *)
Record tow := TOW {
  tw_keys : dict string bucket_ring;
  tw_cap : Z;
  tw_cap_epoch_warned : bool;
  tw_first_spelling : dict string string;
  tw_collisions_warned : gset string;
}.

Definition tow_init : tow := TOW [] MAX_OUTCOME_KEYS false [] ∅.

(** [record]: the new window and the warning emitted after the lock, if any
    ([refused_key], [cap_at_refusal]).  [now] is the clock reading the caller made
    before it took the lock; the rest is the section under the lock.  Two callers
    may take the lock in the other order than they read the clock. *)
Definition record (w : tow) (now : Z) (key : string) (failure : bool) : tow * option (string * Z) :=
  let epoch := epoch_of now in
  match dget (tw_keys w) key with
  | Some ring =>
      (TOW (dset (tw_keys w) key (ring_record ring epoch failure)) (tw_cap w)
         (tw_cap_epoch_warned w) (tw_first_spelling w) (tw_collisions_warned w), None)
  | None =>
      if tw_cap w <=? Zlength (tw_keys w) then
        if tw_cap_epoch_warned w then (w, None)
        else (TOW (tw_keys w) (tw_cap w) true (tw_first_spelling w) (tw_collisions_warned w),
              Some (key, tw_cap w))
      else
        (TOW (dset (tw_keys w) key (ring_record new_ring epoch failure)) (tw_cap w)
           false (tw_first_spelling w) (tw_collisions_warned w), None)
  end.

(** [note_key_spelling]: the new window and the collision warned about. *)
Definition note_key_spelling (w : tow) (spelling key : string) : tow * option (string * string) :=
  match dget (tw_first_spelling w) key with
  | None =>
      if Zlength (tw_first_spelling w) <? MAX_SPELLING_MEMO then
        (TOW (tw_keys w) (tw_cap w) (tw_cap_epoch_warned w)
           (dset (tw_first_spelling w) key spelling) (tw_collisions_warned w), None)
      else (w, None)
  | Some first =>
      if negb (bool_decide (first = spelling)) && negb (bool_decide (key ∈ tw_collisions_warned w))
      then (TOW (tw_keys w) (tw_cap w) (tw_cap_epoch_warned w) (tw_first_spelling w)
              ({[key]} ∪ tw_collisions_warned w), Some (first, spelling))
      else (w, None)
  end.

(** [_resolve_cap]; [None] is a cap provider that raises. *)
Definition resolve_cap (provided : option Z) : Z :=
  match provided with
  | None => MAX_OUTCOME_KEYS
  | Some cap => if 0 <? cap then cap else MAX_OUTCOME_KEYS
  end.

(** The loop of [snapshot]: [observed], [evictable], [stale]. *)
Definition observe_step (now_epoch : Z)
    (acc : dict string (Z * Z) * list (Z * string) * list string) (kr : string * bucket_ring) :=
  let '(observed, evictable, stale) := acc in
  let '(failures, total, last_epoch) := walk kr.2 now_epoch in
  if total =? 0 then (observed, evictable, stale ++ [kr.1])
  else (dset observed kr.1 (failures, total),
        if failures =? 0 then evictable ++ [(last_epoch, kr.1)] else evictable, stale).

Definition observe (keys : dict string bucket_ring) (now_epoch : Z) :=
  foldl (observe_step now_epoch) ([], [], []) keys.

(** The order of Python's tuples [(last_active_epoch, key)]. *)
Definition tuple_le (a b : Z * string) : Prop :=
  a.1 < b.1 ∨ (a.1 = b.1 ∧ String.leb a.2 b.2 = true).

#[export] Instance tuple_le_dec a b : Decision (tuple_le a b).
Proof. unfold tuple_le. apply _. Defined.

(** The keys [snapshot] evicts, given the loop's results. *)
Definition evicted_keys (cap free : Z) (evictable : list (Z * string)) : list string :=
  let headroom := Z.max 1 (cap / HEADROOM_DIVISOR) in
  if (free <? headroom) && negb (bool_decide (evictable = [])) then
    (py_take (headroom - free) (merge_sort tuple_le evictable)).*2
  else [].

(** [for key in ...: del d[key]] *)
Definition del_all {V} (d : dict string V) (ks : list string) : dict string V := foldl ddel d ks.

(** [snapshot]: as in [record], [now] was read (after the cap) before the lock. *)
Definition snapshot (w : tow) (now : Z) (provided : option Z) : tow * dict string (Z * Z) :=
  let cap := resolve_cap provided in
  let '(observed, evictable, stale) := observe (tw_keys w) (epoch_of now) in
  let keys := del_all (tw_keys w) stale in
  let evicted := evicted_keys cap (cap - Zlength keys) evictable in
  (TOW (del_all keys evicted) cap (tw_cap_epoch_warned w) (tw_first_spelling w)
     (tw_collisions_warned w),
   del_all observed evicted).

Definition read_all_step (now_epoch : Z) (acc : Z * Z) (ring : bucket_ring) : Z * Z :=
  let '(failures, total, _) := walk ring now_epoch in (acc.1 + failures, acc.2 + total).

Definition read_all (w : tow) (now : Z) : Z * Z :=
  foldl (read_all_step (epoch_of now)) (0, 0) (dvals (tw_keys w)).

Definition reset_all (w : tow) : tow := TOW [] MAX_OUTCOME_KEYS false [] ∅.

(** [resolve_outcome_key] on the process-wide window. *)
Definition resolve_outcome_key (w : tow) (service_name : string) : tow * option string :=
  let key := canonicalize_domain_label (VStr service_name) in
  if bool_decide (key = "") then (w, None)
  else ((note_key_spelling w service_name key).1, Some key).

Definition record_call_outcome (w : tow) (now : Z) (key : option string) (failure : bool) : tow :=
  match key with None => w | Some k => (record w now k failure).1 end.

(** ** The log a ring stands for *)

(** Outcomes recorded for one key, newest first: bucket index and verdict. *)
Definition outcomes := list (Z * bool).

(** An outcome of bucket [e] is in the window of a read in bucket [now]. *)
Definition in_band (now e : Z) : bool := (0 <=? now - e) && (now - e <? BUCKET_COUNT).

Definition any (o : Z * bool) : bool := true.
Definition in_window (q : Z * bool → bool) (now : Z) (l : outcomes) : Z :=
  countb (λ o, in_band now o.1 && q o) l.

(** Summing over the 31 residues counts every outcome once. *)
Definition of_class (i : nat) (o : Z * bool) : bool := Nat.eqb i (Z.to_nat (o.1 mod BUCKET_COUNT)).

Lemma count_by_class p l :
  Zsum (map (λ i, countb (λ o, of_class i o && p o) l) (seq 0 (Z.to_nat BUCKET_COUNT))) = countb p l.
Proof.
  induction l as [|o l IH].
  - rewrite (Zsum_map_ext _ (λ _, 0)) by done. vm_compute. done.
  - rewrite countb_cons, <-IH.
    rewrite (Zsum_map_ext _ (λ i, (if Nat.eqb i (Z.to_nat (o.1 mod BUCKET_COUNT))
      then (if p o then 1 else 0) else 0) + countb (λ o, of_class i o && p o) l)).
    + rewrite Zsum_map_add, Zsum_indicator; [done|].
      pose proof (Z.mod_pos_bound o.1 BUCKET_COUNT ltac:(done)). lia.
    + intros i _. rewrite countb_cons. unfold of_class. by destruct (Nat.eqb i _), (p o).
Qed.

(** ** The ring invariant *)

(** [r] holds the outcomes [l], whose newest bucket is at most [last]. *)
Record ring_ok (r : bucket_ring) (l : outcomes) (last : Z) : Prop := {
  ro_epochs_len : length (br_epochs r) = Z.to_nat BUCKET_COUNT;
  ro_failures_len : length (br_failures r) = Z.to_nat BUCKET_COUNT;
  ro_totals_len : length (br_totals r) = Z.to_nat BUCKET_COUNT;
  ro_log : ∀ o, o ∈ l → 0 <= o.1 <= last;
  ro_total : ∀ i, (i < Z.to_nat BUCKET_COUNT)%nat →
    at_ (br_totals r) i = countb (λ o, o.1 =? at_ (br_epochs r) i) l;
  ro_failure : ∀ i, (i < Z.to_nat BUCKET_COUNT)%nat →
    at_ (br_failures r) i = countb (λ o, (o.1 =? at_ (br_epochs r) i) && o.2) l;
  ro_stamp : ∀ i, (i < Z.to_nat BUCKET_COUNT)%nat →
    at_ (br_epochs r) i = EMPTY_EPOCH ∨
    0 <= at_ (br_epochs r) i <= last ∧ Z.to_nat (at_ (br_epochs r) i mod BUCKET_COUNT) = i;
  ro_newest : ∀ i o, (i < Z.to_nat BUCKET_COUNT)%nat → o ∈ l → of_class i o = true →
    o.1 <= at_ (br_epochs r) i;
}.

Lemma at_replicate n c i : (i < n)%nat → at_ (replicate n c) i = c.
Proof. revert i. induction n; intros [|i] ?; simpl; try lia; [done|]. apply IHn. lia. Qed.

Lemma at_insert (l : list Z) i j v :
  (i < length l)%nat → at_ (<[i:=v]> l) j = if decide (i = j) then v else at_ l j.
Proof.
  unfold at_. revert i j. induction l as [|x l IH]; intros [|i] [|j] Hi; simpl in *; try lia; try done.
  rewrite IH by lia. repeat case_decide; congruence || lia.
Qed.

Lemma bucket_bound e : (Z.to_nat (e mod BUCKET_COUNT) < Z.to_nat BUCKET_COUNT)%nat.
Proof. pose proof (Z.mod_pos_bound e BUCKET_COUNT ltac:(done)). lia. Qed.

Lemma new_ring_ok last : ring_ok new_ring [] last.
Proof.
  split; unfold new_ring; cbn [br_epochs br_failures br_totals]; try by rewrite length_replicate.
  - by intros o ?%elem_of_nil.
  - intros i Hi. by rewrite at_replicate.
  - intros i Hi. by rewrite at_replicate.
  - intros i Hi. left. by rewrite at_replicate.
  - by intros i o _ ?%elem_of_nil.
Qed.

(** What one write changes, bucket by bucket. *)
Definition carried (r : bucket_ring) (e : Z) (cells : list Z) : Z :=
  let k := Z.to_nat (e mod BUCKET_COUNT) in
  if at_ (br_epochs r) k =? e then at_ cells k else 0.

Lemma ring_record_reads r l last e f :
  ring_ok r l last →
  let r' := ring_record r e f in
  let k := Z.to_nat (e mod BUCKET_COUNT) in
  (length (br_epochs r') = Z.to_nat BUCKET_COUNT ∧ length (br_failures r') = Z.to_nat BUCKET_COUNT ∧
   length (br_totals r') = Z.to_nat BUCKET_COUNT) ∧
  ∀ j, at_ (br_epochs r') j = (if decide (k = j) then e else at_ (br_epochs r) j) ∧
       at_ (br_totals r') j = (if decide (k = j) then carried r e (br_totals r) + 1 else at_ (br_totals r) j) ∧
       at_ (br_failures r') j =
         (if decide (k = j) then carried r e (br_failures r) + (if f then 1 else 0)
          else at_ (br_failures r) j).
Proof.
  intros [Le Lf Lt _ _ _ _ _]. pose proof (bucket_bound e) as Hb. cbv zeta.
  unfold ring_record, carried. cbv zeta.
  set (k := Z.to_nat (e mod BUCKET_COUNT)) in *.
  destruct (Z.eqb_spec (at_ (br_epochs r) k) e) as [He|He];
    destruct f; cbn [br_epochs br_failures br_totals];
    (split; [by rewrite ?length_insert, ?Le, ?Lf, ?Lt|]); intros j;
    rewrite ?at_insert by (rewrite ?length_insert; lia);
    (destruct (decide (k = j)) as [<-|]; [|done]); rewrite ?decide_True by done;
    split_and!; try done; lia.
Qed.

Lemma ring_record_ok r l last e f :
  ring_ok r l last → 0 <= e → last <= e → ring_ok (ring_record r e f) ((e, f) :: l) e.
Proof.
  intros Hok He Hlast. pose proof (bucket_bound e) as Hb.
  destruct (ring_record_reads r l last e f Hok) as [(Le & Lf & Lt) Hr].
  destruct Hok as [_ _ _ Hlog Ht Hf Hs Hn].
  set (k := Z.to_nat (e mod BUCKET_COUNT)) in *.
  (* no outcome of this bucket is lost when the cell is stamped anew *)
  assert (Hzero : at_ (br_epochs r) k ≠ e → ∀ o, o ∈ l → (o.1 =? e) = false).
  { intros Hne o Ho. apply Z.eqb_neq. intros Hoe. apply Hne.
    pose proof (Hn k o Hb Ho) as Hle. unfold of_class in Hle. rewrite Nat.eqb_eq, Hoe in Hle.
    specialize (Hle eq_refl). destruct (Hs k Hb) as [Hk|[? ?]]; unfold EMPTY_EPOCH in *; lia. }
  assert (Hother : ∀ j, (j < Z.to_nat BUCKET_COUNT)%nat → k ≠ j → (e =? at_ (br_epochs r) j) = false).
  { intros j Hj Hne. apply Z.eqb_neq. intros Heq.
    destruct (Hs j Hj) as [Hj'|[_ Hj']]; [unfold EMPTY_EPOCH in *; lia|]. by subst e. }
  split; try done.
  - intros o [->|Ho]%elem_of_cons; simpl; [lia|]. specialize (Hlog o Ho). lia.
  - intros j Hj. destruct (Hr j) as (-> & -> & _). rewrite countb_cons. cbn [fst].
    case_decide as Hk; [|rewrite Hother, Ht by done; lia].
    rewrite Z.eqb_refl. unfold carried. fold k. destruct (Z.eqb_spec (at_ (br_epochs r) k) e) as [Hke|Hke].
    + rewrite (Ht k Hb), Hke. lia.
    + rewrite (proj2 (countb_zero (λ o, o.1 =? e) l)) by auto. lia.
  - intros j Hj. destruct (Hr j) as (-> & _ & ->). rewrite countb_cons. cbn [fst snd].
    case_decide as Hk; [|rewrite Hother, Hf by done; simpl; lia].
    rewrite Z.eqb_refl. unfold carried. fold k. destruct (Z.eqb_spec (at_ (br_epochs r) k) e) as [Hke|Hke].
    + rewrite (Hf k Hb), Hke. destruct f; simpl; lia.
    + rewrite (proj2 (countb_zero (λ o, (o.1 =? e) && o.2) l)); [destruct f; simpl; lia|].
      intros o Ho. by rewrite Hzero.
  - intros j Hj. destruct (Hr j) as (-> & _). case_decide as Hk; [right; split; [lia|done]|].
    destruct (Hs j Hj) as [?|[? ?]]; [by left|right; split; [lia|done]].
  - intros j o Hj Ho Hc. destruct (Hr j) as (-> & _). apply elem_of_cons in Ho as [->|Ho].
    + unfold of_class in Hc. apply Nat.eqb_eq in Hc. simpl in *. rewrite decide_True by done. lia.
    + case_decide; [specialize (Hlog o Ho); lia|eauto].
Qed.

Lemma ring_ok_later r l last last' : ring_ok r l last → last <= last' → ring_ok r l last'.
Proof.
  intros [? ? ? Hlog ? ? Hs ?] Hle. split; try done.
  - intros o Ho. specialize (Hlog o Ho). lia.
  - intros i Hi. destruct (Hs i Hi) as [?|[? ?]]; [by left|right; split; [lia|done]].
Qed.

(** ** Reading a ring *)

Definition live (r : bucket_ring) (now : Z) (i : nat) : bool :=
  negb (at_ (br_epochs r) i <? 0) && in_band now (at_ (br_epochs r) i) &&
  negb (at_ (br_totals r) i =? 0).

Lemma walk_step_live r now acc i :
  walk_step r now acc i =
    if live r now i then
      (acc.1.1 + at_ (br_failures r) i, acc.1.2 + at_ (br_totals r) i,
       Z.max acc.2 (at_ (br_epochs r) i))
    else acc.
Proof.
  destruct acc as [[a b] c]. unfold walk_step, live, in_band. cbn [fst snd].
  rewrite <-Z.leb_antisym.
  destruct (Z.ltb_spec (at_ (br_epochs r) i) 0); [by rewrite (proj2 (Z.leb_gt 0 _)) by lia|].
  rewrite (proj2 (Z.leb_le 0 _)) by lia. cbn [andb].
  destruct (Z.ltb_spec (now - at_ (br_epochs r) i) 0).
  { by rewrite (proj2 (Z.leb_gt 0 (now - _))) by lia. }
  rewrite (proj2 (Z.leb_le 0 (now - _))) by lia. cbn [andb orb].
  destruct (Z.leb_spec BUCKET_COUNT (now - at_ (br_epochs r) i)).
  { by rewrite (proj2 (Z.ltb_ge _ BUCKET_COUNT)) by lia. }
  rewrite (proj2 (Z.ltb_lt _ BUCKET_COUNT)) by lia. cbn [andb].
  destruct (at_ (br_totals r) i =? 0); [done|]. cbn [negb]. f_equal.
  destruct (Z.ltb_spec c (at_ (br_epochs r) i)); lia.
Qed.

Lemma walk_fold r now ix a :
  foldl (walk_step r now) a ix =
    (a.1.1 + Zsum (map (λ i, if live r now i then at_ (br_failures r) i else 0) ix),
     a.1.2 + Zsum (map (λ i, if live r now i then at_ (br_totals r) i else 0) ix),
     foldl (λ m i, if live r now i then Z.max m (at_ (br_epochs r) i) else m) a.2 ix).
Proof.
  revert a. induction ix as [|i ix IH]; intros a; simpl.
  - destruct a as [[? ?] ?]; simpl. by rewrite !Z.add_0_r.
  - rewrite IH, walk_step_live. destruct (live r now i); simpl; [|done].
    by rewrite <-!Z.add_assoc.
Qed.

Lemma fold_max (p : nat → bool) (g : nat → Z) ix a :
  let m := foldl (λ m i, if p i then Z.max m (g i) else m) a ix in
  a <= m ∧ (∀ i, i ∈ ix → p i = true → g i <= m) ∧ (m = a ∨ ∃ i, i ∈ ix ∧ p i = true ∧ m = g i).
Proof.
  revert a. induction ix as [|i ix IH]; intros a; simpl.
  { split_and!; [lia|by intros ? ?%elem_of_nil|by left]. }
  destruct (IH (if p i then Z.max a (g i) else a)) as (H1 & H2 & H3). cbv zeta in *. split_and!.
  - destruct (p i); lia.
  - intros j [->|Hj]%elem_of_cons Hp; [rewrite Hp in *; lia|auto].
  - destruct H3 as [H3|(j & Hj & Hp & H3)]; [|right; exists j; split; [by right|done]].
    rewrite H3. destruct (p i) eqn:Hp; [|by left].
    destruct (Z.max_spec a (g i)) as [[? ->]|[? ->]]; [right; exists i; split; [by left|done]|by left].
Qed.

(** Two outcomes in the window of one read, of the same residue, are of the same
    bucket. *)
Lemma band_class now e e' :
  in_band now e = true → in_band now e' = true → e mod BUCKET_COUNT = e' mod BUCKET_COUNT → e = e'.
Proof.
  unfold in_band. rewrite !andb_true_iff, !Z.leb_le, !Z.ltb_lt. intros [? ?] [? ?] Hm.
  assert (Hd : (e - e') mod BUCKET_COUNT = 0).
  { rewrite Zminus_mod, Hm, Z.sub_diag. done. }
  apply Z.mod_divide in Hd as [q Hq]; [|done]. change BUCKET_COUNT with 31 in *. lia.
Qed.

(** One bucket holds exactly the outcomes of its residue that are in window. *)
Lemma live_bucket r l last now i (q : Z * bool → bool) :
  ring_ok r l last → last <= now → (i < Z.to_nat BUCKET_COUNT)%nat →
  (if live r now i then countb (λ o, (o.1 =? at_ (br_epochs r) i) && q o) l else 0) =
  countb (λ o, of_class i o && (in_band now o.1 && q o)) l.
Proof.
  intros [_ _ _ Hlog Ht _ Hs Hn] Hnow Hi.
  assert (Hcls : ∀ o, of_class i o = true ↔ Z.to_nat (o.1 mod BUCKET_COUNT) = i).
  { intros o. unfold of_class. rewrite Nat.eqb_eq. naive_solver. }
  set (s := at_ (br_epochs r) i) in *.
  assert (Hin : ∀ o, o ∈ l → of_class i o = true → in_band now o.1 = true → o.1 = s ∧ in_band now s = true).
  { intros o Ho Hc Hb. pose proof (Hlog o Ho). pose proof (Hn i o Hi Ho Hc) as Hle. fold s in Hle.
    destruct (Hs i Hi) as [Hk|[Hk1 Hk2]]; [fold s in Hk; unfold EMPTY_EPOCH in *; lia|fold s in Hk1, Hk2].
    assert (Hbs : in_band now s = true).
    { unfold in_band in *. rewrite !andb_true_iff, !Z.leb_le, !Z.ltb_lt in *. lia. }
    split; [|done]. apply (band_class now); [done..|]. apply Hcls in Hc.
    pose proof (Z.mod_pos_bound o.1 BUCKET_COUNT ltac:(done)).
    pose proof (Z.mod_pos_bound s BUCKET_COUNT ltac:(done)). lia. }
  destruct (live r now i) eqn:Hl.
  - apply countb_ext. intros o Ho. unfold live in Hl. fold s in Hl.
    rewrite !andb_true_iff, negb_true_iff, Z.ltb_ge in Hl. destruct Hl as [[Hl1 Hl2] _].
    destruct (Z.eqb_spec o.1 s) as [Hos|Hos]; simpl.
    + rewrite Hos, Hl2. destruct (Hs i Hi) as [Hk|[_ Hk]]; fold s in Hk; [unfold EMPTY_EPOCH in *; lia|].
      rewrite (proj2 (Hcls o)); [done|]. by rewrite Hos.
    + destruct (of_class i o) eqn:Hc; [|done]. destruct (in_band now o.1) eqn:Hb; [|done].
      by destruct (Hin o Ho Hc Hb).
  - symmetry. apply countb_zero. intros o Ho. destruct (of_class i o) eqn:Hc; [|done].
    destruct (in_band now o.1) eqn:Hb; [|done]. destruct (Hin o Ho Hc Hb) as [Hos Hbs].
    exfalso. unfold live in Hl. fold s in Hl. rewrite Hbs in Hl.
    rewrite (proj2 (Z.ltb_ge s 0)) in Hl by (specialize (Hlog o Ho); lia).
    cbn [negb andb] in Hl. apply negb_false_iff, Z.eqb_eq in Hl. rewrite (Ht i Hi) in Hl.
    apply (proj1 (countb_zero _ _)) with (o := o) in Hl; [|done]. fold s in Hl.
    rewrite Hos, Z.eqb_refl in Hl. done.
Qed.

(** The bucket of an outcome in window is live and carries its stamp. *)
Lemma live_of_outcome r l last now o :
  ring_ok r l last → last <= now → o ∈ l → in_band now o.1 = true →
  let i := Z.to_nat (o.1 mod BUCKET_COUNT) in live r now i = true ∧ at_ (br_epochs r) i = o.1.
Proof.
  intros Hok Hnow Ho Hb i. pose proof (bucket_bound o.1) as Hi. fold i in Hi.
  pose proof (live_bucket r l last now i (λ _, true) Hok Hnow Hi) as Hlb.
  assert (Hp : 0 < countb (λ o, of_class i o && (in_band now o.1 && true)) l).
  { apply countb_pos. exists o. split; [done|]. unfold of_class, i. by rewrite Nat.eqb_refl, Hb. }
  destruct (live r now i) eqn:Hl; [|lia]. split; [done|].
  unfold live in Hl. rewrite !andb_true_iff, negb_true_iff in Hl. destruct Hl as [[Hl0 Hl] _].
  apply Z.ltb_ge in Hl0. apply (band_class now); [done..|].
  destruct (ro_stamp _ _ _ Hok i Hi) as [Hk|[_ Hk]]; [unfold EMPTY_EPOCH in *; lia|].
  pose proof (Z.mod_pos_bound o.1 BUCKET_COUNT ltac:(done)).
  pose proof (Z.mod_pos_bound (at_ (br_epochs r) i) BUCKET_COUNT ltac:(done)). lia.
Qed.

(** A live bucket holds an outcome. *)
Lemma outcome_of_live r l last now i :
  ring_ok r l last → (i < Z.to_nat BUCKET_COUNT)%nat → live r now i = true →
  ∃ o, o ∈ l ∧ in_band now o.1 = true ∧ o.1 = at_ (br_epochs r) i.
Proof.
  intros Hok Hi Hl. unfold live in Hl. rewrite !andb_true_iff, !negb_true_iff in Hl.
  destruct Hl as [[_ Hb] Ht]. apply Z.eqb_neq in Ht. rewrite (ro_total _ _ _ Hok) in Ht by done.
  pose proof (countb_nonneg (λ o, o.1 =? at_ (br_epochs r) i) l).
  assert (Hc : 0 < countb (λ o, o.1 =? at_ (br_epochs r) i) l) by lia.
  apply countb_pos in Hc as (o & Ho & He%Z.eqb_eq). exists o. by rewrite He.
Qed.

(** [_walk] is the count of the outcomes in window, and its third component the
    newest bucket among them. *)
Lemma walk_spec r l last now :
  ring_ok r l last → last <= now →
  ∃ newest, walk r now = (in_window snd now l, in_window any now l, newest) ∧
    (∀ o, o ∈ l → in_band now o.1 = true → o.1 <= newest) ∧
    (0 < in_window any now l → ∃ o, o ∈ l ∧ in_band now o.1 = true ∧ o.1 = newest).
Proof.
  intros Hok Hnow. unfold walk. rewrite walk_fold. cbn [fst snd]. rewrite !Z.add_0_l.
  set (newest := foldl _ EMPTY_EPOCH _). exists newest.
  destruct (fold_max (live r now) (at_ (br_epochs r)) (seq 0 (Z.to_nat BUCKET_COUNT)) EMPTY_EPOCH)
    as (_ & Hmax & Hwit). fold newest in Hmax, Hwit.
  assert (Hle : ∀ o, o ∈ l → in_band now o.1 = true → o.1 <= newest).
  { intros o Ho Hb. destruct (live_of_outcome r l last now o Hok Hnow Ho Hb) as [Hl <-].
    apply Hmax; [|done]. apply elem_of_seq. pose proof (bucket_bound o.1). lia. }
  split_and!; [|done|].
  - f_equal. unfold in_window.
    f_equal; (etrans; [|apply count_by_class]); apply Zsum_map_ext; intros i Hi%elem_of_seq;
      rewrite <-live_bucket with (r := r) (last := last) by (done || lia);
      destruct (live r now i); try done.
    + apply (ro_failure _ _ _ Hok). lia.
    + rewrite (ro_total _ _ _ Hok) by lia. apply countb_ext. intros o _. by rewrite andb_true_r.
  - intros Hp. apply countb_pos in Hp as (o & Ho & Hb). rewrite andb_true_iff in Hb. destruct Hb as [Hb _].
    destruct Hwit as [Hw|(i & Hi & Hl & Hw)].
    + exfalso. pose proof (Hle o Ho Hb). pose proof (ro_log _ _ _ Hok o Ho).
      unfold EMPTY_EPOCH in *. lia.
    + apply elem_of_seq in Hi. rewrite Hw.
      by apply (outcome_of_live r l last now i Hok ltac:(lia)).
Qed.

(** ** What a read does to the table of keys *)

Lemma dget_app {K V} `{EqDecision K} (d1 d2 : dict K V) k :
  dget (d1 ++ d2) k = match dget d1 k with Some v => Some v | None => dget d2 k end.
Proof. induction d1 as [|[k' v'] d1 IH]; simpl; [done|]. by case_decide. Qed.

Lemma dict_wf_snoc {K V} `{EqDecision K} (d : dict K V) k v :
  dict_wf (d ++ [(k, v)]) → dict_wf d ∧ dget d k = None.
Proof.
  unfold dict_wf, dkeys. rewrite fmap_app. intros (Hd & Hk & _)%NoDup_app. split; [done|].
  destruct (dget d k) eqn:E; [|done]. exfalso. apply (Hk k); [|by left].
  apply elem_of_dkeys. eauto.
Qed.

Lemma del_all_get {V} (d : dict string V) ks k :
  dget (del_all d ks) k = if bool_decide (k ∈ ks) then None else dget d k.
Proof.
  unfold del_all. revert d. induction ks as [|k' ks IH]; intros d; simpl; [done|].
  rewrite IH, dget_ddel. destruct (decide (k' = k)); repeat case_bool_decide; set_solver.
Qed.

Lemma del_all_wf {V} (d : dict string V) ks : dict_wf d → dict_wf (del_all d ks).
Proof. unfold del_all. revert d. induction ks; simpl; eauto with dict. Qed.

Lemma length_del_all {V} (d : dict string V) ks :
  dict_wf d → NoDup ks → (∀ k, k ∈ ks → is_Some (dget d k)) →
  Zlength (del_all d ks) = Zlength d - Zlength ks.
Proof.
  unfold del_all. revert d. induction ks as [|k ks IH]; intros d Hd Hks Hin; simpl.
  { change (Zlength []) with 0. lia. }
  apply NoDup_cons in Hks as [Hk Hks]. rewrite IH; [|eauto with dict..|].
  - rewrite length_ddel by (auto; apply Hin; by left). unfold Zlength. simpl. lia.
  - intros k' Hk'. rewrite dget_ddel_ne by set_solver. apply Hin. by right.
Qed.

Definition row_of (now : Z) (r : bucket_ring) : option (Z * Z) :=
  let '(f, t, _) := walk r now in if t =? 0 then None else Some (f, t).

Lemma row_of_walk now r f t e : walk r now = (f, t, e) → row_of now r = if t =? 0 then None else Some (f, t).
Proof. unfold row_of. by intros ->. Qed.

(** From here on a ring's evidence is read through [walk_spec]. *)
#[local] Opaque walk row_of.
#[local] Arguments row_of : simpl never.
#[local] Arguments walk : simpl never.
#[local] Arguments epoch_of : simpl never.
#[local] Arguments ring_record : simpl never.
#[local] Arguments new_ring : simpl never.
#[local] Arguments del_all : simpl never.

Lemma observe_spec keys now :
  dict_wf keys →
  let '(observed, evictable, stale) := observe keys now in
  (∀ k, dget observed k = dget keys k ≫= row_of now) ∧
  (∀ k, k ∈ stale ↔ ∃ r, dget keys k = Some r ∧ row_of now r = None) ∧
  (∀ e k, (e, k) ∈ evictable ↔ ∃ r t, dget keys k = Some r ∧ walk r now = (0, t, e) ∧ t ≠ 0) ∧
  NoDup evictable.*2 ∧ NoDup stale.
Proof.
  induction keys as [|[k r] keys IH] using rev_ind; intros Hwf.
  { simpl. split_and!; try constructor; try set_solver. }
  apply dict_wf_snoc in Hwf as [Hwf Hk]. specialize (IH Hwf).
  unfold observe in *. rewrite foldl_snoc. destruct (foldl _ _ keys) as [[obs evb] stale].
  destruct IH as (Ho & Hs & He & Hnd & Hns).
  assert (Hg : ∀ k', dget (keys ++ [(k, r)]) k' = if decide (k = k') then Some r else dget keys k').
  { intros k'. rewrite dget_app. simpl. case_decide; [by subst; rewrite Hk|by destruct (dget keys k')]. }
  assert (Hes : ∀ e, (e, k) ∉ evb) by (intros e (? & ? & ? & _)%He; congruence).
  assert (Hss : k ∉ stale) by (intros (? & ? & _)%Hs; congruence).
  unfold observe_step. cbn [fst snd]. destruct (walk r now) as [[f t] e] eqn:Hw.
  assert (Hrow : row_of now r = if t =? 0 then None else Some (f, t)) by (by apply (row_of_walk _ _ _ _ e)).
  destruct (Z.eqb_spec t 0) as [->|Ht].
  - split_and!; try done.
    + intros k'. rewrite Hg. case_decide as Hd; [|done]. subst. rewrite Ho, Hk. simpl. by rewrite Hrow.
    + intros k'. rewrite elem_of_app, list_elem_of_singleton, Hs, Hg. case_decide.
      * subst. split; [intros _; by exists r|by right].
      * split; [by intros [?| ->]|by left].
    + intros e' k'. rewrite He, Hg. case_decide; [|done]. subst. rewrite Hk. split; intros (?&?&?&?&?); congruence.
    + apply NoDup_app. split_and!; [done|set_solver|apply NoDup_singleton].
  - assert (Hobs : ∀ k', dget (dset obs k (f, t)) k' = dget (keys ++ [(k, r)]) k' ≫= row_of now).
    { intros k'. rewrite dget_dset, Hg. case_decide; [simpl; by rewrite Hrow|apply Ho]. }
    assert (Hst : ∀ k', k' ∈ stale ↔ ∃ r0, dget (keys ++ [(k, r)]) k' = Some r0 ∧ row_of now r0 = None).
    { intros k'. rewrite Hs, Hg. case_decide; [|done]. subst. rewrite Hk. split; intros (?&?&?); congruence. }
    destruct (Z.eqb_spec f 0) as [->|Hf]; split_and!; try done.
    + intros e' k'. rewrite elem_of_app, list_elem_of_singleton, He, Hg. case_decide as Hd.
      * subst. rewrite Hk. split; [|intros (?&?&?&?&?); right; congruence].
        intros [(?&?&?&_)|[= <-]]; [done|by exists r, t].
      * split; [|by left]. intros [?|[= -> ->]]; done.
    + rewrite fmap_app. apply NoDup_app. split_and!; [done| |apply NoDup_singleton].
      intros k' Hk' ->%list_elem_of_singleton. apply list_elem_of_fmap in Hk' as ([e' k'] & ? & Hin).
      simpl in *. subst. by apply (Hes e').
    + intros e' k'. rewrite He, Hg. case_decide; [|done]. subst. rewrite Hk. split; intros (?&?&?&?&?); congruence.
Qed.

(** ** Histories *)

(** The calls other threads make; each holds the lock once. *)
Inductive tow_op :=
| Record (key : string) (failure : bool)
| Snapshot (provided : option Z)
| Spell (spelling key : string)
| ResetAll.

(** The window beside the plain log of the outcomes it admitted (newest first:
    key, time, verdict).  [record] refuses an outcome of a new key at the cap. *)
Definition journal := list (string * Z * bool).

Definition tow_step (wl : tow * journal) (call : Z * tow_op) : tow * journal :=
  let '(w, log) := wl in
  let '(now, op) := call in
  match op with
  | Record key failure =>
      let w' := (record w now key failure).1 in
      (w', if bool_decide (is_Some (dget (tw_keys w') key)) then (key, now, failure) :: log else log)
  | Snapshot provided => ((snapshot w now provided).1, log)
  | Spell spelling key => ((note_key_spelling w spelling key).1, log)
  | ResetAll => (reset_all w, [])
  end.

Definition tow_run (calls : list (Z * tow_op)) : tow * journal :=
  foldl tow_step (tow_init, []) calls.

(** The admitted outcomes of one key. *)
Definition of_key (key : string) (log : journal) : outcomes :=
  omap (λ '(k, t, f), if decide (k = key) then Some (epoch_of t, f) else None) log.

(** What a row of the rendered table says of a key; absent is no evidence. *)
Definition failures_shown (rows : dict string (Z * Z)) (key : string) : Z :=
  from_option fst 0 (dget rows key).

(** [old] holds no failure that a read now or later would count. *)
Definition aged (now : Z) (old : outcomes) : Prop :=
  ∀ o, o ∈ old → o.2 = true → in_band (epoch_of now) o.1 = false.

(** A key's ring holds the newest part of its outcomes, and what it does not
    hold contains no failure in window. *)
Definition key_ok (keys : dict string bucket_ring) (now : Z) (key : string) (l : outcomes) : Prop :=
  ∃ held old, l = held ++ old ∧ aged now old ∧
    match dget keys key with
    | Some r => ring_ok r held (epoch_of now)
    | None => held = []
    end.

Record tow_ok (now : Z) (wl : tow * journal) : Prop := {
  to_now : 0 <= epoch_of now;
  to_wf : dict_wf (tw_keys wl.1);
  to_log : ∀ k t f, (k, t, f) ∈ wl.2 → 0 <= epoch_of t <= epoch_of now;
  to_key : ∀ k, key_ok (tw_keys wl.1) now k (of_key k wl.2);
}.

(** The calls in the order they took the lock, each with its own clock reading:
    the readings fall in the order of the lock as far as their buckets tell, from
    the bucket [e] on (within one ten-second bucket they may be out of order). *)
Fixpoint in_order (e : Z) (calls : list (Z * tow_op)) (now : Z) : Prop :=
  match calls with
  | [] => e <= epoch_of now
  | (t, _) :: calls' => e <= epoch_of t ∧ in_order (epoch_of t) calls' now
  end.

(** What has left the window stays out of it. *)
Lemma band_later now now' e : now <= now' → e <= now → in_band now e = false → in_band now' e = false.
Proof. unfold in_band. rewrite !andb_false_iff, !Z.leb_gt, !Z.ltb_ge. lia. Qed.

Lemma aged_later now now' old :
  epoch_of now <= epoch_of now' → (∀ o, o ∈ old → o.1 <= epoch_of now) → aged now old → aged now' old.
Proof. intros Hle Hold Ha o Ho Hf. apply (band_later (epoch_of now)); auto. Qed.

Lemma of_key_bound now wl k o : tow_ok now wl → o ∈ of_key k wl.2 → 0 <= o.1 <= epoch_of now.
Proof.
  intros Hok Ho. unfold of_key in Ho. apply list_elem_of_omap in Ho as ([[k' t] f] & Hin & Heq).
  case_decide; [|done]. simplify_eq/=. by apply (to_log _ _ Hok) in Hin.
Qed.

Lemma tow_ok_init now : 0 <= epoch_of now → tow_ok now (tow_init, []).
Proof.
  intros. split; simpl; [done|constructor|by intros ? ? ? ?%elem_of_nil|].
  intros k. exists [], []. by split_and!; [|intros ? ?%elem_of_nil|].
Qed.

Lemma tow_ok_later now now' wl : tow_ok now wl → epoch_of now <= epoch_of now' → tow_ok now' wl.
Proof.
  intros Hok Hle. pose proof Hok as [Hn Hwf Hlog Hkey]. split; [lia|done| |].
  - intros k t f Hin. specialize (Hlog _ _ _ Hin). lia.
  - intros k. destruct (Hkey k) as (held & old & Heq & Ha & Hr). exists held, old. split_and!; [done| |].
    + eapply aged_later; [done| |done]. intros o Ho. apply (of_key_bound _ wl k _ Hok).
      rewrite Heq. apply elem_of_app. by right.
    + destruct (dget _ k); [|done]. by eapply ring_ok_later.
Qed.

(** *** Recording *)

Lemma of_key_cons k key t f log :
  of_key k ((key, t, f) :: log) =
    if decide (key = k) then (epoch_of t, f) :: of_key k log else of_key k log.
Proof. unfold of_key. simpl. by case_decide. Qed.

Lemma tow_ok_record now w log key f :
  tow_ok now (w, log) → tow_ok now (tow_step (w, log) (now, Record key f)).
Proof.
  intros Hok. pose proof Hok as [Hn Hwf Hlog Hkey]. cbn [fst snd] in *.
  pose proof Hn as He.
  (* writing into the ring of [key], found or new *)
  assert (Hwrite : ∀ r held old, of_key key log = held ++ old → aged now old →
    ring_ok r held (epoch_of now) → ∀ w', tw_keys w' = dset (tw_keys w) key (ring_record r (epoch_of now) f) →
    tow_ok now (w', (key, now, f) :: log)).
  { intros r held old Heq Ha Hr w' Hw'. split; cbn [fst snd]; rewrite ?Hw'; [done|eauto with dict| |].
    - intros k t f' [[= -> -> ->]|Hin]%elem_of_cons; [lia|eauto].
    - intros k. unfold key_ok. rewrite of_key_cons, dget_dset. destruct (decide (key = k)) as [<-|]; [|apply Hkey].
      exists ((epoch_of now, f) :: held), old. rewrite Heq. split_and!; [done|done|].
      eapply ring_record_ok; [done|lia|lia]. }
  unfold tow_step, record. destruct (Hkey key) as (held & old & Heq & Ha & Hr).
  destruct (dget (tw_keys w) key) as [r|] eqn:Hg; cbn [fst].
  - rewrite bool_decide_true by (cbn [tw_keys]; rewrite dget_dset_eq; eauto).
    by apply (Hwrite r held old).
  - subst held. destruct (tw_cap w <=? _).
    + assert (Hsame : ∀ w', tw_keys w' = tw_keys w → tow_ok now (w',
        if bool_decide (is_Some (dget (tw_keys w') key)) then (key, now, f) :: log else log)).
      { intros w' Hw'. rewrite Hw', Hg, bool_decide_false by (by intros [? ?]).
        split; cbn [fst snd]; by rewrite ?Hw'. }
      destruct (tw_cap_epoch_warned w); by apply Hsame.
    + rewrite bool_decide_true by (cbn [tw_keys fst]; rewrite dget_dset_eq; eauto).
      eapply (Hwrite new_ring [] old); [done|done|apply new_ring_ok|done].
Qed.

(** *** Reading *)

Lemma py_take_sublist {A} n (l : list A) : sublist (py_take n l) l.
Proof. unfold py_take. case_match; apply sublist_take. Qed.

Lemma evicted_spec cap free evictable :
  NoDup evictable.*2 →
  NoDup (evicted_keys cap free evictable) ∧
  ∀ k, k ∈ evicted_keys cap free evictable → ∃ e, (e, k) ∈ evictable.
Proof.
  intros Hnd. unfold evicted_keys. case_match; [|split; [constructor|by intros ? ?%elem_of_nil]].
  pose proof (merge_sort_Permutation tuple_le evictable) as Hp.
  pose proof (py_take_sublist (Z.max 1 (cap / HEADROOM_DIVISOR) - free) (merge_sort tuple_le evictable)) as Hs.
  split.
  - eapply (sublist_NoDup _ (merge_sort tuple_le evictable).*2); [by rewrite Hp|by apply fmap_sublist].
  - intros k Hk. apply list_elem_of_fmap in Hk as ([e k'] & -> & Hin). exists e.
    rewrite <-Hp. by apply (elem_of_sublist _ _ _ Hin).
Qed.

(** The keys a read keeps, and the rows it returns. *)
Lemma snapshot_spec w now provided :
  dict_wf (tw_keys w) →
  ∃ evicted, NoDup evicted ∧
    (∀ k, k ∈ evicted → ∃ r t e, dget (tw_keys w) k = Some r ∧ walk r (epoch_of now) = (0, t, e) ∧ t ≠ 0) ∧
    (∀ k, dget (snapshot w now provided).2 k =
       if bool_decide (k ∈ evicted) then None else dget (tw_keys w) k ≫= row_of (epoch_of now)) ∧
    (∀ k, dget (tw_keys (snapshot w now provided).1) k =
       if bool_decide (k ∈ evicted) then None else
       dget (tw_keys w) k ≫= λ r, if row_of (epoch_of now) r then Some r else None) ∧
    dict_wf (tw_keys (snapshot w now provided).1).
Proof.
  intros Hwf. unfold snapshot. pose proof (observe_spec (tw_keys w) (epoch_of now) Hwf) as Ho.
  destruct (observe _ _) as [[obs evb] stale]. destruct Ho as (Ho & Hs & He & Hnd & Hns).
  cbn [fst snd tw_keys]. set (ev := evicted_keys _ _ _).
  destruct (evicted_spec (resolve_cap provided)
    (resolve_cap provided - Zlength (del_all (tw_keys w) stale)) evb Hnd) as [Hev1 Hev2].
  fold ev in Hev1, Hev2. exists ev. split_and!; [done| | | |].
  - intros k Hk. destruct (Hev2 k Hk) as [e (r & t & Hr)%He]. by exists r, t, e.
  - intros k. rewrite del_all_get, Ho. reflexivity.
  - intros k. rewrite !del_all_get. case_bool_decide; [done|]. case_bool_decide as Hst.
    + apply Hs in Hst as (r & -> & Hrow). cbn [mbind option_bind]. by rewrite Hrow.
    + destruct (dget (tw_keys w) k) as [r|] eqn:Hr; [|done]. cbn [mbind option_bind].
      destruct (row_of _ r) eqn:Hrow; [done|]. exfalso. apply Hst, Hs. eauto.
  - by do 2 apply del_all_wf.
Qed.

(** A ring's row in terms of the outcomes it holds. *)
Lemma row_of_spec r held last now :
  ring_ok r held last → last <= now →
  row_of now r = (if in_window any now held =? 0 then None
                  else Some (in_window snd now held, in_window any now held)).
Proof. intros Hr Hle. destruct (walk_spec r held last now Hr Hle) as (e & Hw & _). exact (row_of_walk _ _ _ _ _ Hw). Qed.

Lemma in_window_zero q now l :
  in_window q now l = 0 → ∀ o, o ∈ l → q o = true → in_band now o.1 = false.
Proof.
  intros Hz o Ho Hq. apply (proj1 (countb_zero _ _)) with (o := o) in Hz; [|done].
  by rewrite Hq, andb_true_r in Hz.
Qed.

Lemma aged_app now l old : in_window snd (epoch_of now) l = 0 → aged now old → aged now (l ++ old).
Proof.
  intros Hz Ha o [Ho|Ho]%elem_of_app Hf; [|by apply Ha]. by apply (in_window_zero snd _ l).
Qed.

Lemma failures_le_total now l : in_window snd now l <= in_window any now l.
Proof. apply countb_mono. intros o _. rewrite !andb_true_iff. by intros [? ?]. Qed.

Lemma tow_ok_snapshot now w log provided :
  tow_ok now (w, log) → tow_ok now (tow_step (w, log) (now, Snapshot provided)).
Proof.
  intros [Hn Hwf Hlog Hkey]. cbn [fst snd] in *. unfold tow_step.
  destruct (snapshot_spec w now provided Hwf) as (ev & _ & Hev & _ & Hkeys & Hwf').
  split; cbn [fst snd]; [done..|]. intros k. unfold key_ok. rewrite Hkeys.
  destruct (Hkey k) as (held & old & Heq & Ha & Hr).
  (* a key that loses its ring held no failure in window *)
  assert (Hdrop : in_window snd (epoch_of now) held = 0 →
    ∃ held0 old0, of_key k log = held0 ++ old0 ∧ aged now old0 ∧ held0 = []).
  { intros Hz. exists [], (held ++ old). split_and!; [done|by apply aged_app|done]. }
  pose proof (countb_nonneg (λ o, in_band (epoch_of now) o.1 && o.2) held) as Hnn.
  pose proof (failures_le_total (epoch_of now) held) as Hle.
  case_bool_decide as Hk.
  - destruct (Hev k Hk) as (r & t & e & Hrk & Hw & _). rewrite Hrk in Hr. apply Hdrop.
    destruct (walk_spec r held (epoch_of now) (epoch_of now) Hr ltac:(lia)) as (? & Hw' & _). congruence.
  - destruct (dget (tw_keys w) k) as [r|]; cbn [mbind option_bind]; [|by exists held, old].
    rewrite (row_of_spec r held (epoch_of now)) by (done || lia).
    destruct (Z.eqb_spec (in_window any (epoch_of now) held) 0); [|by exists held, old].
    apply Hdrop. unfold in_window in *. lia.
Qed.

Lemma tow_ok_step now wl op : tow_ok now wl → tow_ok now (tow_step wl (now, op)).
Proof.
  destruct wl as [w log]. intros Hok. destruct op as [key f|provided|s key|].
  - by apply tow_ok_record.
  - by apply tow_ok_snapshot.
  - destruct Hok. unfold tow_step, note_key_spelling. cbn [fst snd] in *.
    repeat case_match; by split.
  - destruct Hok. apply (tow_ok_init now). done.
Qed.

Lemma tow_fold_ok calls t wl now :
  tow_ok t wl → in_order (epoch_of t) calls now → tow_ok now (foldl tow_step wl calls).
Proof.
  revert t wl. induction calls as [|[t' op] calls IH]; intros t wl Hok; simpl; [by apply tow_ok_later|].
  intros [Hle Hc]. apply (IH t'); [|done]. by apply tow_ok_step, (tow_ok_later t).
Qed.

Lemma tow_run_ok calls now : in_order 0 calls now → tow_ok now (tow_run calls).
Proof. intros Hc. apply (tow_fold_ok calls 0); [by apply tow_ok_init|done]. Qed.

(** ** The rows are the evidence *)

(** The admitted outcomes of [key] at most [age] old (failures only when [bad]). *)
Definition recent (key : string) (bad : bool) (now age : Z) (log : journal) : Z :=
  countb (λ '(k, t, f), bool_decide (k = key) && (now - t <=? age) && (negb bad || f)) log.

Lemma count_of_key q now key log :
  in_window q now (of_key key log) =
    countb (λ '(k, t, f), bool_decide (k = key) && (in_band now (epoch_of t) && q (epoch_of t, f))) log.
Proof.
  induction log as [|[[k t] f] log IH]; [done|]. rewrite of_key_cons, countb_cons.
  case_decide as Hk; [|by rewrite bool_decide_false].
  unfold in_window in *. rewrite countb_cons, IH, bool_decide_true by done. done.
Qed.

(** The 31 buckets cover every age up to 300 s and none from 310 s. *)
Lemma band_by_age now t :
  epoch_of t <= epoch_of now →
  (now - t <= seconds FAILURE_RATE_WINDOW_SECONDS → in_band (epoch_of now) (epoch_of t) = true) ∧
  (in_band (epoch_of now) (epoch_of t) = true →
   now - t < seconds (FAILURE_RATE_WINDOW_SECONDS + BUCKET_SECONDS)).
Proof.
  intros Hle. unfold in_band. rewrite andb_true_iff, Z.leb_le, Z.ltb_lt. unfold epoch_of, seconds in *.
  change BUCKET_COUNT with 31. change (BUCKET_SECONDS * US_PER_SECOND) with 10000000 in *.
  change (FAILURE_RATE_WINDOW_SECONDS * US_PER_SECOND) with 300000000.
  change ((FAILURE_RATE_WINDOW_SECONDS + BUCKET_SECONDS) * US_PER_SECOND) with 310000000.
  pose proof (Z.div_mod now 10000000 ltac:(done)). pose proof (Z.div_mod t 10000000 ltac:(done)).
  pose proof (Z.mod_pos_bound now 10000000 ltac:(done)). pose proof (Z.mod_pos_bound t 10000000 ltac:(done)).
  split; [intros; split|]; lia.
Qed.

Lemma recent_bounds key bad now log (q := λ o : Z * bool, negb bad || o.2) :
  (∀ k t f, (k, t, f) ∈ log → 0 <= epoch_of t <= epoch_of now) →
  recent key bad now (seconds FAILURE_RATE_WINDOW_SECONDS) log <= in_window q (epoch_of now) (of_key key log) ∧
  in_window q (epoch_of now) (of_key key log) <=
    recent key bad now (seconds (FAILURE_RATE_WINDOW_SECONDS + BUCKET_SECONDS) - 1) log.
Proof.
  intros Hlog. rewrite count_of_key. unfold recent, q.
  split; apply countb_mono; intros [[k t] f] Hin; cbn [snd];
    destruct (band_by_age now t ltac:(specialize (Hlog _ _ _ Hin); lia)) as [H1 H2];
    rewrite !andb_true_iff, Z.leb_le; intros H.
  - destruct H as [[? ?] ?]. split_and!; auto.
  - destruct H as (? & ? & ?). split_and!; [done| |done]. specialize (H2 ltac:(done)). lia.
Qed.

(** What a read shows of one key, from the outcomes admitted for it. *)
Lemma shown_spec calls now provided key :
  in_order 0 calls now →
  let '(w, log) := tow_run calls in
  let rows := (snapshot w now provided).2 in
  failures_shown rows key = in_window snd (epoch_of now) (of_key key log) ∧
  ∀ f t, dget rows key = Some (f, t) →
    0 < t ∧ f <= t ∧ t <= in_window any (epoch_of now) (of_key key log).
Proof.
  intros Hc. apply tow_run_ok in Hc as [Hn Hwf _ Hkey]. destruct (tow_run calls) as [w log].
  cbn [fst snd] in *. destruct (snapshot_spec w now provided Hwf) as (ev & _ & Hev & Hrows & _).
  destruct (Hkey key) as (held & old & -> & Ha & Hr).
  assert (Happ : ∀ q, in_window q (epoch_of now) (held ++ old) =
    in_window q (epoch_of now) held + in_window q (epoch_of now) old).
  { intros q. unfold in_window, countb. by rewrite List.filter_app, Zlength_app. }
  assert (Hold : in_window snd (epoch_of now) old = 0).
  { apply countb_zero. intros o Ho. destruct (o.2) eqn:Ef; [|apply andb_false_r].
    by rewrite (Ha o Ho Ef). }
  rewrite !Happ, Hold, Z.add_0_r. unfold failures_shown. rewrite Hrows.
  pose proof (countb_nonneg (λ o, in_band (epoch_of now) o.1 && o.2) held).
  pose proof (countb_nonneg (λ o, in_band (epoch_of now) o.1 && any o) held).
  pose proof (countb_nonneg (λ o, in_band (epoch_of now) o.1 && any o) old).
  pose proof (failures_le_total (epoch_of now) held).
  case_bool_decide as Hk.
  - destruct (Hev key Hk) as (r & t & e & Hrk & Hw & _). rewrite Hrk in Hr.
    destruct (walk_spec r held (epoch_of now) (epoch_of now) Hr ltac:(lia)) as (? & Hw' & _).
    simpl. split; [congruence|done].
  - destruct (dget (tw_keys w) key) as [r|]; cbn [mbind option_bind from_option]; [|subst held; done].
    rewrite (row_of_spec r held (epoch_of now)) by (done || lia).
    unfold in_window in *. case_match eqn:E; [apply Z.eqb_eq in E|apply Z.eqb_neq in E];
      cbn [from_option fst]; (split; [lia|]); intros f t [= <- <-]; lia.
Qed.

(** C39: The five-minute failure count is right at every read, whatever was
    recorded, read, evicted or spelled before by any number of callers, provided
    no caller takes the lock after one whose clock reading was in a later
    ten-second bucket ([in_order]; the clock is read before the lock, and
    [late_reader_loses_failure] shows what happens otherwise): it counts every
    admitted failure of the key up to 300 seconds old, and none 310 seconds old or
    older; a key without a row has none.  A row's total is positive, at least its
    failures, and counts nothing 310 seconds old either. *)
Theorem five_minute_failures calls now provided key :
  in_order 0 calls now →
  let '(w, log) := tow_run calls in
  let rows := (snapshot w now provided).2 in
  recent key true now (seconds 300) log <= failures_shown rows key ∧
  failures_shown rows key <= recent key true now (seconds 310 - 1) log ∧
  ∀ f t, dget rows key = Some (f, t) →
    f = failures_shown rows key ∧ 0 < t ∧ f <= t ∧ t <= recent key false now (seconds 310 - 1) log.
Proof.
  intros Hc. pose proof (shown_spec calls now provided key Hc) as Hs.
  pose proof (tow_run_ok _ _ Hc) as [_ _ Hlog _].
  destruct (tow_run calls) as [w log]. cbn [snd] in Hlog. destruct Hs as [Hf Ht].
  destruct (recent_bounds key true now log Hlog) as [H1 H2].
  destruct (recent_bounds key false now log Hlog) as [_ H4].
  change (λ o : Z * bool, negb true || o.2) with (λ o : Z * bool, o.2) in *.
  change (λ o : Z * bool, negb false || o.2) with any in *.
  change (in_window (λ o, o.2)) with (in_window snd) in *. rewrite <-Hf in H1, H2.
  split_and!; [done|done|]. intros f t Hrow. destruct (Ht f t Hrow) as (? & ? & ?).
  split_and!; [|done|done|exact (Z.le_trans _ _ _ ltac:(eassumption) H4)].
  unfold failures_shown. by rewrite Hrow.
Qed.

(** Two services; a read in between; the healthy one polls out of the window.
    The first two readings are out of the order of the lock, in one bucket. *)
Definition sample_calls : list (Z * tow_op) :=
  [(seconds 9, Record "db" true); (seconds 5, Record "api" false); (seconds 12, Record "db" false);
   (seconds 100, Snapshot (Some 10)); (seconds 200, Record "db" true)].

Lemma five_minute_failures_witness :
  in_order 0 sample_calls (seconds 310) ∧
  failures_shown (snapshot (tow_run sample_calls).1 (seconds 310) None).2 "db" <= 1 ∧
  1 <= failures_shown (snapshot (tow_run sample_calls).1 (seconds 310) None).2 "db".
Proof.
  split; [by vm_compute|].
  destruct (five_minute_failures sample_calls (seconds 310) None "db") as (H1 & H2 & _).
  { by vm_compute. }
  split; (etrans; [eassumption|by vm_compute]) || (etrans; [|exact H1]; by vm_compute).
Defined.

(** A read of the clock just before a bucket boundary that gets the lock only after
    a failure of the next bucket was recorded: the read takes the key's only
    bucket for one of the future, drops the key as stale, and the failure is gone
    from every later read, though it is a second old. *)
Theorem late_reader_loses_failure :
  let calls := [(seconds 110, Record "db" true); (seconds 109, Snapshot None)] in
  ~ in_order 0 calls (seconds 111) ∧
  let '(w, log) := tow_run calls in
  tw_keys w = [] ∧ recent "db" true (seconds 111) (seconds 300) log = 1 ∧
  failures_shown (snapshot w (seconds 111) None).2 "db" = 0.
Proof. vm_compute. split; [by intros (_ & H & _)|done]. Qed.

(** ** Headroom and the order of eviction *)

Definition headroom (cap : Z) : Z := Z.max 1 (cap / HEADROOM_DIVISOR).

Instance tuple_le_total : Total tuple_le.
Proof.
  intros [a x] [b y]. unfold tuple_le. simpl. destruct (Z.lt_trichotomy a b) as [?|[->|?]]; [left; by left| |right; by left].
  destruct (String.leb_total x y) as [H|H]; [left|right]; by right.
Qed.

Lemma tuples_by_epoch l :
  StronglySorted (λ a b : Z * string, a.1 <= b.1) (merge_sort tuple_le l).
Proof.
  apply Sorted_StronglySorted; [intros x y z ? ?; lia|].
  pose proof (Sorted_merge_sort tuple_le l) as Hs.
  induction Hs as [|a l' Hs IH Ha]; constructor; [done|].
  destruct Ha as [|b l'' [Hab|[Hab _]]]; constructor; lia.
Qed.

(** The evicted keys are the front of the candidates in order of activity, as
    many as the headroom lacks. *)
Lemma evicted_front cap free evictable :
  ∃ n, evicted_keys cap free evictable = (take n (merge_sort tuple_le evictable)).*2 ∧
    (headroom cap <= free ∨ (length evictable <= n)%nat ∨ Z.of_nat n = headroom cap - free).
Proof.
  unfold evicted_keys. fold (headroom cap).
  destruct (Z.ltb_spec free (headroom cap)) as [Hf|Hf]; cbn [andb]; [|by exists 0%nat; split; [|left]].
  case_bool_decide as He; cbn [negb].
  - exists 0%nat. split; [done|]. right; left. subst. simpl. lia.
  - unfold py_take. rewrite (proj2 (Z.ltb_ge (headroom cap - free) 0)) by lia.
    exists (Z.to_nat (headroom cap - free)). split; [done|]. right; right. lia.
Qed.

Lemma snapshot_shape w now provided (cap := resolve_cap provided) :
  dict_wf (tw_keys w) →
  ∃ candidates n kept,
    let evicted := (take n (merge_sort tuple_le candidates)).*2 in
    (∀ e k, (e, k) ∈ candidates ↔
       ∃ r t, dget (tw_keys w) k = Some r ∧ walk r (epoch_of now) = (0, t, e) ∧ t ≠ 0) ∧
    (∀ k, dget (tw_keys (snapshot w now provided).1) k =
       if bool_decide (k ∈ evicted) then None else
       dget (tw_keys w) k ≫= λ r, if row_of (epoch_of now) r then Some r else None) ∧
    Zlength (tw_keys (snapshot w now provided).1) = kept - Zlength evicted ∧
    (headroom cap <= cap - kept ∨ (length candidates <= n)%nat ∨ Z.of_nat n = headroom cap - (cap - kept)) ∧
    NoDup candidates.*2.
Proof.
  intros Hwf. unfold snapshot. pose proof (observe_spec (tw_keys w) (epoch_of now) Hwf) as Ho.
  destruct (observe _ _) as [[obs evb] stale]. destruct Ho as (_ & Hs & He & Hnd & Hns).
  cbn [fst tw_keys]. fold cap. set (kept := Zlength (del_all (tw_keys w) stale)).
  destruct (evicted_front cap (cap - kept) evb) as (n & Hev & Hn).
  destruct (evicted_spec cap (cap - kept) evb Hnd) as [Hnd' Hin]. rewrite Hev in *.
  exists evb, n, kept. split_and!; [done| | |done|done].
  - intros k. rewrite !del_all_get. case_bool_decide; [done|]. case_bool_decide as Hst.
    + apply Hs in Hst as (r & -> & Hrow). cbn [mbind option_bind]. by rewrite Hrow.
    + destruct (dget (tw_keys w) k) as [r|] eqn:Hr; [|done]. cbn [mbind option_bind].
      destruct (row_of _ r) eqn:Hrow; [done|]. exfalso. apply Hst, Hs. eauto.
  - apply length_del_all; [by apply del_all_wf|done|]. intros k Hk. rewrite del_all_get.
    destruct (Hin k Hk) as [e (r & t & Hr & Hw & Ht)%He]. rewrite bool_decide_false; [eauto|].
    intros (r' & Hr' & Hrow)%Hs. assert (r' = r) as -> by congruence.
    rewrite (row_of_walk _ _ _ _ _ Hw), (proj2 (Z.eqb_neq t 0) Ht) in Hrow. done.
Qed.

(** The keys around one read, with its candidates and how many it evicted. *)
Section one_read.
  Context (keys keys' : dict string bucket_ring) (now : Z) (cand : list (Z * string)) (n : nat).
Let evicted := (take n (merge_sort tuple_le cand)).*2.
  Hypothesis Hcand : ∀ e k, (e, k) ∈ cand ↔ ∃ r t, dget keys k = Some r ∧ walk r now = (0, t, e) ∧ t ≠ 0.
  Hypothesis Hkeys : ∀ k, dget keys' k = if bool_decide (k ∈ evicted) then None else
    dget keys k ≫= λ r, if row_of now r then Some r else None.

Lemma evicted_candidate k : k ∈ evicted → ∃ e, (e, k) ∈ take n (merge_sort tuple_le cand) ∧ (e, k) ∈ cand.
Proof using.
  intros ([e k'] & -> & Hin)%list_elem_of_fmap. exists e. split; [done|].
  rewrite <-(merge_sort_Permutation tuple_le cand). apply elem_of_take in Hin as (i & Hi & _).
  by eapply list_elem_of_lookup_2.
Qed.

Lemma survivor_row k r : dget keys' k = Some r → k ∉ evicted ∧ dget keys k = Some r ∧ is_Some (row_of now r).
Proof using Hkeys.
  rewrite Hkeys. case_bool_decide; [done|]. destruct (dget keys k) as [r0|]; [|done].
  cbn [mbind option_bind]. destruct (row_of now r0) eqn:Hrow; [|done]. intros [= ->]. rewrite Hrow. eauto.
Qed.

Lemma survivor_candidate k r t e :
  dget keys' k = Some r → walk r now = (0, t, e) → (e, k) ∈ drop n (merge_sort tuple_le cand).
Proof using Hkeys Hcand.
  intros Hk Hw. destruct (survivor_row k r Hk) as (Hev & Hr & [row Hrow]).
  assert (Hin : (e, k) ∈ merge_sort tuple_le cand).
  { rewrite merge_sort_Permutation. apply Hcand. exists r, t. split_and!; [done|done|].
    rewrite (row_of_walk _ _ _ _ _ Hw) in Hrow. by destruct (Z.eqb_spec t 0). }
  rewrite <-(take_drop n (merge_sort tuple_le cand)) in Hin. apply elem_of_app in Hin as [Hin|Hin]; [|done].
  destruct Hev. apply list_elem_of_fmap. by exists (e, k).
Qed.

Lemma lost_candidate k r t e :
  dget keys k = Some r → walk r now = (0, t, e) → t ≠ 0 → dget keys' k = None →
  (e, k) ∈ take n (merge_sort tuple_le cand).
Proof using Hkeys Hcand.
  intros Hk Hw Ht Hgone. rewrite Hkeys, Hk in Hgone. cbn [mbind option_bind] in Hgone.
  rewrite (row_of_walk _ _ _ _ _ Hw), (proj2 (Z.eqb_neq t 0) Ht) in Hgone.
  case_bool_decide as Hev; [|discriminate Hgone].
  apply evicted_candidate in Hev as (e' & Hin & (r' & t' & Hr' & Hw' & _)%Hcand).
  rewrite Hk in Hr'. injection Hr' as <-. rewrite Hw in Hw'. injection Hw' as _ <-. done.
Qed.

Lemma failing_survives k r held last :
  dget keys k = Some r → ring_ok r held last → last <= now → (walk r now).1.1 ≠ 0 → dget keys' k = Some r.
Proof using Hkeys Hcand.
  intros Hk Hr Hle Hf. destruct (walk_spec r held last now Hr Hle) as (e & Hw & _).
  rewrite Hw in Hf. cbn [fst] in Hf.
  pose proof (failures_le_total now held) as Hft.
  pose proof (countb_nonneg (λ o, in_band now o.1 && o.2) held) as Hnn. fold (in_window snd now held) in Hnn.
  rewrite Hkeys, Hk. rewrite bool_decide_false.
  - cbn [mbind option_bind]. rewrite (row_of_walk _ _ _ _ _ Hw).
    destruct (Z.eqb_spec (in_window any now held) 0); [lia|reflexivity].
  - intros (e' & _ & (r' & t' & Hr' & Hw' & _)%Hcand)%evicted_candidate.
    rewrite Hk in Hr'. injection Hr' as <-. rewrite Hw in Hw'. injection Hw' as Hz _ _. by apply Hf.
Qed.
End one_read.

(** After every read either at least a tenth of the cap (and one slot) is
    free, or every key left holds a failure in window; every key that holds one
    is left; and healthy keys are evicted least recently active first: no key
    that lost its slot was active after a healthy key that kept its own. *)
Theorem read_leaves_headroom calls now provided :
  in_order 0 calls now →
  let w := (tow_run calls).1 in
  let w' := (snapshot w now provided).1 in
  let cap := resolve_cap provided in
  (headroom cap <= cap - Zlength (tw_keys w') ∨
   ∀ k r, dget (tw_keys w') k = Some r → (walk r (epoch_of now)).1.1 ≠ 0) ∧
  (∀ k r, dget (tw_keys w) k = Some r → (walk r (epoch_of now)).1.1 ≠ 0 → dget (tw_keys w') k = Some r) ∧
  ∀ k r t e k' r' t' e',
    dget (tw_keys w) k = Some r → walk r (epoch_of now) = (0, t, e) → t ≠ 0 → dget (tw_keys w') k = None →
    dget (tw_keys w') k' = Some r' → walk r' (epoch_of now) = (0, t', e') → e <= e'.
Proof.
  intros Hc. apply tow_run_ok in Hc as [_ Hwf _ Hkey]. cbv zeta.
  set (w := (tow_run calls).1) in *. set (log := (tow_run calls).2) in *. clearbody w log.
  destruct (snapshot_shape w now provided Hwf) as (cand & n & kept & Hc & Hg & Hlen & Hn & Hnd).
  set (w' := (snapshot w now provided).1) in *. clearbody w'.
  assert (Hlc : length (merge_sort tuple_le cand) = length cand) by (by rewrite merge_sort_Permutation).
  split_and!.
  - destruct (decide (length cand <= n)%nat) as [Hall|Hsome].
    + right. intros k r Hk Hz. destruct (walk r (epoch_of now)) as [[f t] e] eqn:Hw. cbn [fst] in Hz. subst f.
      pose proof (survivor_candidate _ _ _ _ _ Hc Hg k r t e Hk Hw) as Hin.
      rewrite drop_ge in Hin by (rewrite Hlc; done). by apply elem_of_nil in Hin.
    + left. rewrite Hlen. unfold Zlength. rewrite length_fmap, length_take, Hlc. lia.
  - intros k r Hk Hf. destruct (Hkey k) as (held & old & _ & _ & Hr). rewrite Hk in Hr.
    exact (failing_survives _ _ _ _ _ Hc Hg k r held _ Hk Hr (Z.le_refl _) Hf).
  - intros k r t e k' r' t' e' Hk Hw Ht Hgone Hk' Hw'.
    exact (sorted_split _ _ n (e, k) (e', k') (tuples_by_epoch cand)
      (lost_candidate _ _ _ _ _ Hc Hg k r t e Hk Hw Ht Hgone)
      (survivor_candidate _ _ _ _ _ Hc Hg k' r' t' e' Hk' Hw')).
Qed.

(** Two healthy services and one failing fill a window of three slots. *)
Definition crowded_calls : list (Z * tow_op) :=
  [(0, Snapshot (Some 3)); (seconds 5, Record "api" false); (seconds 30, Record "cache" false);
   (seconds 31, Record "db" true); (seconds 32, Record "late" true)].

Lemma read_leaves_headroom_witness :
  in_order 0 crowded_calls (seconds 40) ∧
  dkeys (tw_keys (snapshot (tow_run crowded_calls).1 (seconds 40) (Some 3)).1) = ["cache"; "db"] ∧
  ∀ r, dget (tw_keys (tow_run crowded_calls).1) "db" = Some r →
    (walk r (epoch_of (seconds 40))).1.1 ≠ 0 →
    dget (tw_keys (snapshot (tow_run crowded_calls).1 (seconds 40) (Some 3)).1) "db" = Some r.
Proof.
  split; [by vm_compute|]. split; [by vm_compute|].
  destruct (read_leaves_headroom crowded_calls (seconds 40) (Some 3)) as (_ & H & _); [by vm_compute|].
  exact (H "db").
Defined.
