(* ===== verification/SlidingCounter.v ===== *)
(** The sliding-window event counter ([SlidingWindowCounter] of
    [core/rate_limiting.py]) and the limiter above it
    ([services/rate_limit/sliding_window.py]).  A key's series is the list of its
    event times; the clock is read once per call, under the lock, and given in
    microseconds.  The dictionary is a [defaultdict]: indexing an absent key
    inserts an empty series. *)
From Equations Require Import Equations.
From S2P Require Import Prelude.

(** ** [bisect.bisect_right] *)

(** The binary search of the standard library, on any list, sorted or not. *)
Equations? bisect_loop (a : list Z) (x : Z) (lo hi : nat) : nat by wf (hi - lo)%nat lt :=
  bisect_loop a x lo hi with decide (lo < hi)%nat => {
    | left _ with (x <? nth ((lo + hi) / 2) a 0) => {
        | true => bisect_loop a x lo ((lo + hi) / 2)
        | false => bisect_loop a x ((lo + hi) / 2 + 1) hi }
    | right _ => lo }.
Proof.
  - apply Nat.add_lt_mono_l with lo. pose proof (Nat.div_lt_upper_bound (lo + hi) 2 hi). lia.
  - pose proof (Nat.div_le_lower_bound (lo + hi) 2 lo). lia.
Qed.

Definition bisect_right (a : list Z) (x : Z) : nat := bisect_loop a x 0 (length a).

Lemma nth_lookup (a : list Z) i : (i < length a)%nat → a !! i = Some (nth i a 0).
Proof. revert i. induction a as [|y a IH]; intros [|i] Hi; simpl in *; try lia; [done|]. apply IH. lia. Qed.

Lemma bisect_loop_sorted a x lo hi :
  StronglySorted Z.le a → (lo <= hi <= length a)%nat →
  (∀ i y, a !! i = Some y → (i < lo)%nat → y <= x) →
  (∀ i y, a !! i = Some y → (hi <= i)%nat → x < y) →
  let d := bisect_loop a x lo hi in
  (lo <= d <= hi)%nat ∧
  (∀ i y, a !! i = Some y → (i < d)%nat → y <= x) ∧
  (∀ i y, a !! i = Some y → (d <= i)%nat → x < y).
Proof.
  intros Hs. assert (Hmono : ∀ i j y z, a !! i = Some y → a !! j = Some z → (i <= j)%nat → y <= z).
  { intros i j y z Hi Hj Hij. destruct (decide (i = j)) as [->|]; [rewrite Hi in Hj; by simplify_eq|].
    eapply (sorted_split Z.le a j); [done| |].
    - apply elem_of_take. exists i. split; [done|lia].
    - apply list_elem_of_lookup. exists 0%nat. rewrite lookup_drop. by rewrite Nat.add_0_r. }
  funelim (bisect_loop a x lo hi); clear Heqcall; intros Hb Hlo Hhi.
  { split_and!; [lia|lia|done|]. intros i y Hi ?. apply (Hhi i y Hi). lia. }
  all: set (m := ((lo + hi) / 2)%nat) in *;
    assert (Hm : (lo <= m < hi)%nat) by
      (subst m; pose proof (Nat.div_lt_upper_bound (lo + hi) 2 hi);
       pose proof (Nat.div_le_lower_bound (lo + hi) 2 lo); lia);
    assert (Hn : a !! m = Some (nth m a 0)) by (apply nth_lookup; lia).
  - apply Z.ltb_lt in Heq. destruct H as (H1 & H2 & H3); try done; [lia| |split_and!; eauto; lia].
    intros i y Hi Hmi. pose proof (Hmono m i _ _ Hn Hi Hmi). lia.
  - apply Z.ltb_ge in Heq. destruct H as (H1 & H2 & H3); try done; [lia| |split_and!; eauto; lia].
    intros i y Hi Hmi. pose proof (Hmono i m _ _ Hi Hn ltac:(lia)). lia.
Qed.

(** On a sorted series, dropping up to [bisect_right] keeps what is after [x]. *)
Lemma bisect_right_filter a x :
  StronglySorted Z.le a → drop (bisect_right a x) a = List.filter (λ y, x <? y) a.
Proof.
  intros Hs. destruct (bisect_loop_sorted a x 0 (length a) Hs) as (_ & H1 & H2); [lia|lia| |].
  { intros i y Hi%lookup_lt_Some. lia. }
  fold (bisect_right a x) in *. set (d := bisect_right a x) in *.
  rewrite <-(take_drop d a) at 2. rewrite List.filter_app.
  rewrite (filter_none _ (take d a)), (filter_all _ (drop d a)); [done|..].
  - intros y Hy. apply list_elem_of_lookup in Hy as [i Hi]. rewrite lookup_drop in Hi.
    apply Z.ltb_lt. eapply H2; [done|lia].
  - intros y Hy. apply elem_of_take in Hy as (i & Hi & Hd). apply Z.ltb_ge. eauto.
Qed.

(** ** The counter *)
Record swc := SWC {
  sw_events : dict string (list Z);
  sw_last_cleanup : Z;
  sw_cleanup_interval : option Z;
  sw_retention : option Z;
}.

Definition swc_init (cleanup_interval retention : option Z) (now : Z) : swc :=
  SWC [] now cleanup_interval retention.

Definition set_events (w : swc) (d : dict string (list Z)) : swc :=
  SWC d (sw_last_cleanup w) (sw_cleanup_interval w) (sw_retention w).

(** [self._events[key]] / [self._events.get(key, ())] *)
Definition series (w : swc) (key : string) : list Z := default [] (dget (sw_events w) key).

(** [[ts for ts in l if ts > window_start]] *)
Definition after (window_start : Z) (l : list Z) : list Z := List.filter (λ ts, window_start <? ts) l.

(** [_maybe_cleanup]: prune every series, drop the emptied keys. *)
Definition sweep (window_start : Z) (d : dict string (list Z)) : dict string (list Z) :=
  omap (λ kv, match after window_start kv.2 with [] => None | kept => Some (kv.1, kept) end) d.

Definition maybe_cleanup (w : swc) (now window : Z) : swc :=
  match sw_cleanup_interval w with
  | None => w
  | Some interval =>
      if now - sw_last_cleanup w <=? interval then w
      else SWC (sweep (now - window) (sw_events w)) now (sw_cleanup_interval w) (sw_retention w)
  end.

(** [_trim_retention] *)
Definition trim_retention (retention : Z) (events : list Z) (now : Z) : list Z :=
  drop (bisect_right events (now - retention)) events.

Definition try_acquire (w : swc) (now : Z) (key : string) (max_events window : Z) : swc * (bool * Z) :=
  let window_start := now - window in
  let w := maybe_cleanup w now window in
  let kept := after window_start (series w key) in
  let count := Zlength kept in
  if max_events <=? count then (set_events w (dset (sw_events w) key kept), (false, count))
  else (set_events w (dset (sw_events w) key (kept ++ [now])), (true, count + 1)).

Definition record (w : swc) (now : Z) (key : string) : swc :=
  let events := series w key ++ [now] in
  let events := match sw_retention w with
                | Some r => trim_retention r events now
                | None => events
                end in
  set_events w (dset (sw_events w) key events).

Definition record_and_count (w : swc) (now : Z) (key : string) (window : Z) : swc * Z :=
  let kept := after (now - window) (series w key ++ [now]) in
  (set_events w (dset (sw_events w) key kept), Zlength kept).

Definition count (w : swc) (now : Z) (key : string) (window : Z) : Z :=
  Zlength (after (now - window) (series w key)).

Definition snapshot (w : swc) (now : Z) (key : string) (window : Z) : list Z :=
  after (now - window) (series w key).

Definition restore (w : swc) (key : string) (timestamps : list Z) : swc :=
  set_events w (dset (sw_events w) key (sort_by (λ ts, ts) timestamps)).

Definition keys (w : swc) : list string := dkeys (sw_events w).

Definition reset (w : swc) (key : string) : swc * bool :=
  match dget (sw_events w) key with
  | Some _ => (set_events w (ddel (sw_events w) key), true)
  | None => (w, false)
  end.

Definition reset_all (w : swc) : swc := set_events w [].

(** ** The limiter *)
Record rate_limit_state := RateLimitState {
  rl_limit : Z;
  rl_remaining : Z;
  rl_reset_at : Z;
  rl_allowed : bool;
}.

Record swl := SWL {
  sl_counter : swc;
  sl_last_seen_window : option Z;
}.

(** [_warn_on_window_mismatch]: the new last-seen window, and the one warned about. *)
Definition warn_on_window_mismatch (last : option Z) (window : Z) : option Z * option Z :=
  match last with
  | None => (Some window, None)
  | Some w => if w =? window then (Some w, None) else (Some window, Some w)
  end.

(** [int(now + window_seconds)]: whole seconds *)
Definition reset_at (now window : Z) : Z := (now + window) / US_PER_SECOND.

(** [check]; [now] and [now'] are the two clock readings, the second under the
    counter's lock. *)
Definition check (l : swl) (now now' : Z) (key : string) (max_requests window : Z) :
    swl * rate_limit_state :=
  let last := (warn_on_window_mismatch (sl_last_seen_window l) window).1 in
  let '(counter, (allowed, current_count)) := try_acquire (sl_counter l) now' key max_requests window in
  (SWL counter last,
   RateLimitState max_requests (if allowed then max_requests - current_count else 0)
     (reset_at now window) allowed).

Definition peek (l : swl) (now now' : Z) (key : string) (max_requests window : Z) : rate_limit_state :=
  let current_count := count (sl_counter l) now' key window in
  RateLimitState max_requests (Z.max 0 (max_requests - current_count)) (reset_at now window)
    (current_count <? max_requests).

Definition reset_client (l : swl) (key : string) : swl * bool :=
  let '(c, b) := reset (sl_counter l) key in (SWL c (sl_last_seen_window l), b).

Definition reset_limiter (l : swl) : swl := SWL (reset_all (sl_counter l)) None.

(** ** Histories *)
Inductive call :=
| TryAcquire (key : string) (max_events window : Z)
| RecordEvent (key : string)
| RecordAndCount (key : string) (window : Z)
| Restore (key : string) (timestamps : list Z)
| Reset (key : string)
| ResetAll.

(** The events each key took since it was last reset, oldest first: what a
    counter that never forgot anything would hold. *)
Definition ledger := string → list Z.

Definition upd (log : ledger) (key : string) (l : list Z) : ledger :=
  λ k, if decide (k = key) then l else log k.

Definition swc_step (wl : swc * ledger) (tc : Z * call) : swc * ledger :=
  let '(w, log) := wl in
  let '(now, c) := tc in
  match c with
  | TryAcquire key m window =>
      let '(w', (allowed, _)) := try_acquire w now key m window in
      (w', if allowed then upd log key (log key ++ [now]) else log)
  | RecordEvent key => (record w now key, upd log key (log key ++ [now]))
  | RecordAndCount key window => ((record_and_count w now key window).1, upd log key (log key ++ [now]))
  | Restore key ts => (restore w key ts, upd log key (sort_by (λ t, t) ts))
  | Reset key => ((reset w key).1, upd log key [])
  | ResetAll => (reset_all w, λ _, [])
  end.

Definition swc_run (w : swc) (calls : list (Z * call)) : swc * ledger :=
  foldl swc_step (w, λ _, []) calls.

(** No call prunes a series to less than [W], and nothing is restored from the
    future. *)
Definition prunes_at_least (W now : Z) (c : call) : Prop :=
  match c with
  | TryAcquire _ _ window | RecordAndCount _ window => W <= window
  | Restore _ ts => Forall (λ t, t <= now) ts
  | _ => True
  end.

(** ** Series *)

Definition ordered (now : Z) (l : list Z) : Prop := StronglySorted Z.le l ∧ ∀ t, t ∈ l → t <= now.

Lemma elem_of_after s l t : t ∈ after s l ↔ t ∈ l ∧ s < t.
Proof.
  unfold after. rewrite !list_elem_of_In, filter_In, Z.ltb_lt. done.
Qed.

Lemma after_after a b l : a <= b → after b (after a l) = after b l.
Proof.
  intros Hab. induction l as [|t l IH]; [done|]. simpl.
  destruct (Z.ltb_spec a t); simpl; [by rewrite IH|]. destruct (Z.ltb_spec b t); [lia|done].
Qed.

Lemma after_app s l1 l2 : after s (l1 ++ l2) = after s l1 ++ after s l2.
Proof. apply List.filter_app. Qed.

Lemma after_mono a b l l' : a <= b → after a l = after a l' → after b l = after b l'.
Proof. intros Hab H. by rewrite <-(after_after a b l), <-(after_after a b l'), H. Qed.

Lemma ordered_after now s l : ordered now l → ordered now (after s l).
Proof.
  intros [Hs Hb]. split.
  - clear Hb. induction Hs as [|t l Hs IH Ht]; simpl; [constructor|].
    destruct (s <? t); [|done]. constructor; [done|]. apply Forall_forall. intros u [Hu _]%elem_of_after.
    rewrite Forall_forall in Ht. auto.
  - intros t [Ht _]%elem_of_after. auto.
Qed.

Lemma ordered_snoc now l : ordered now l → ordered now (l ++ [now]).
Proof.
  intros [Hs Hb]. split.
  - induction Hs as [|t l Hs IH Ht]; simpl; [repeat constructor|].
    constructor; [apply IH; intros; apply Hb; by right|]. apply Forall_app. split; [done|].
    constructor; [|done]. apply Hb. by left.
  - intros t [Ht| ->%list_elem_of_singleton]%elem_of_app; [auto|lia].
Qed.

Lemma ordered_later now now' l : ordered now l → now <= now' → ordered now' l.
Proof. intros [Hs Hb] Hle. split; [done|]. intros t Ht. specialize (Hb t Ht). lia. Qed.

Lemma ordered_nil now : ordered now [].
Proof. split; [constructor|by intros t ?%elem_of_nil]. Qed.

Lemma ordered_sorted now ts : Forall (λ t, t <= now) ts → ordered now (sort_by (λ t, t) ts).
Proof.
  intros H. split.
  - apply Sorted_StronglySorted; [intros x y z; lia|apply sort_by_sorted].
  - intros t. rewrite sort_by_perm. rewrite Forall_forall in H. auto.
Qed.

Lemma trim_is_after r events now : ordered now events → trim_retention r events now = after (now - r) events.
Proof. intros [Hs _]. by apply bisect_right_filter. Qed.

Create HintDb series.
#[local] Hint Resolve ordered_after ordered_snoc ordered_nil ordered_sorted : series.

Lemma dget_sweep s d k :
  dict_wf d →
  default [] (dget (sweep s d) k) = after s (default [] (dget d k)).
Proof.
  intros Hwf. induction d as [|[k' l] d IH]; [done|]. apply NoDup_cons in Hwf as [Hni Hwf].
  unfold sweep in *. cbn [omap list_omap fst snd dget].
  destruct (decide (k' = k)) as [->|Hne].
  - cbn [default]. destruct (after s l) as [|t kept] eqn:Ha.
    + specialize (IH Hwf). rewrite IH. destruct (dget d k) eqn:Hd; [|done].
      exfalso. apply Hni, elem_of_dkeys. eauto.
    + cbn [dget]. by rewrite decide_True.
  - destruct (after s l); cbn [dget]; rewrite ?decide_False by done; auto.
Qed.

Lemma sweep_wf s d : dict_wf d → dict_wf (sweep s d).
Proof.
  unfold dict_wf. induction d as [|[k l] d IH]; [done|]. intros [Hni Hwf]%NoDup_cons.
  unfold sweep in *. cbn [omap list_omap fst snd].
  destruct (after s l) as [|t kept]; [auto|].
  change (NoDup (k :: dkeys (sweep s d))). apply NoDup_cons. split; [|by apply IH]. intros Hin. apply Hni.
  apply list_elem_of_fmap in Hin as ([k' l'] & -> & Hin). apply list_elem_of_omap in Hin as ([k1 l1] & Hin & Heq).
  cbn [fst snd] in *. case_match; simplify_eq/=. apply list_elem_of_fmap. by exists (k', l1).
Qed.

(** ** Invariant: on the last [W], a series is the ledger *)
Record swc_ok (W now : Z) (wl : swc * ledger) : Prop := {
  so_wf : dict_wf (sw_events wl.1);
  so_retention : ∀ r, sw_retention wl.1 = Some r → W <= r;
  so_key : ∀ k, ordered now (series wl.1 k) ∧ ordered now (wl.2 k) ∧
    after (now - W) (series wl.1 k) = after (now - W) (wl.2 k);
}.

Lemma swc_ok_later W now now' wl : swc_ok W now wl → now <= now' → swc_ok W now' wl.
Proof.
  intros [Hwf Hr Hk] Hle. split; [done..|]. intros k. destruct (Hk k) as (H1 & H2 & H3).
  split_and!; [by eapply ordered_later..|]. eapply after_mono; [|done]. lia.
Qed.

Lemma series_dset w key k l :
  series (set_events w (dset (sw_events w) key l)) k = if decide (k = key) then l else series w k.
Proof. unfold series. simpl. rewrite dget_dset. by repeat case_decide; simplify_eq. Qed.

(** Replacing one series, and that key's ledger with it. *)
Lemma swc_ok_set W now w log key s l :
  swc_ok W now (w, log) → ordered now s → ordered now l → after (now - W) s = after (now - W) l →
  swc_ok W now (set_events w (dset (sw_events w) key s), upd log key l).
Proof.
  intros [Hwf Hr Hk] Hs Hl He. split; cbn [fst snd] in *; [by apply dict_wf_dset|done|].
  intros k. rewrite series_dset. unfold upd. case_decide; [done|apply Hk].
Qed.

(** Pruning one series or all of them to [W] or more. *)
Lemma swc_ok_prune W now w log key window :
  swc_ok W now (w, log) → W <= window →
  swc_ok W now (set_events w (dset (sw_events w) key (after (now - window) (series w key))), log).
Proof.
  intros [Hwf Hr Hk] Hw. split; cbn [fst snd] in *; [by apply dict_wf_dset|done|].
  intros k. rewrite series_dset. destruct (Hk k) as (H1 & H2 & H3).
  case_decide; [|done]. subst. split_and!; [by apply ordered_after|done|].
  by rewrite after_after by lia.
Qed.

Lemma series_cleanup w now window k :
  dict_wf (sw_events w) →
  series (maybe_cleanup w now window) k = series w k ∨
  series (maybe_cleanup w now window) k = after (now - window) (series w k).
Proof.
  intros Hwf. unfold maybe_cleanup. repeat case_match; [by left|right|by left].
  unfold series. simpl. by rewrite dget_sweep.
Qed.

Lemma swc_ok_cleanup W now w log window :
  swc_ok W now (w, log) → W <= window → swc_ok W now (maybe_cleanup w now window, log).
Proof.
  intros [Hwf Hr Hk] Hw. split; cbn [fst snd] in *.
  - unfold maybe_cleanup. repeat case_match; [done|by apply sweep_wf|done].
  - unfold maybe_cleanup. repeat case_match; done.
  - intros k. destruct (Hk k) as (H1 & H2 & H3).
    destruct (series_cleanup w now window k Hwf) as [-> | ->]; [done|].
    split_and!; [by apply ordered_after|done|]. by rewrite after_after by lia.
Qed.

Lemma swc_ok_step W now wl c : swc_ok W now wl → prunes_at_least W now c → swc_ok W now (swc_step wl (now, c)).
Proof.
  destruct wl as [w log]. intros Hok Hp. pose proof Hok as [Hwf Hr Hk]. cbn [fst snd] in *.
  destruct c as [key m window|key|key window|key ts|key|]; cbn [swc_step prunes_at_least] in *.
  - unfold try_acquire. pose proof (swc_ok_cleanup W now w log window Hok Hp) as Hok'.
    set (w' := maybe_cleanup w now window) in *. clearbody w'.
    pose proof Hok' as [_ _ Hk']. destruct (Hk' key) as (H1 & H2 & H3). cbn [fst snd] in *.
    destruct (m <=? _); [by apply swc_ok_prune|].
    apply swc_ok_set; eauto with series. rewrite !after_app, after_after by lia. by rewrite H3.
  - destruct (Hk key) as (H1 & H2 & H3).
    assert (He : after (now - W) (series w key ++ [now]) = after (now - W) (log key ++ [now])).
    { by rewrite !after_app, H3. }
    unfold record. destruct (sw_retention w) as [r|]; apply swc_ok_set; eauto with series.
    + rewrite trim_is_after by eauto with series. eauto with series.
    + rewrite trim_is_after by eauto with series. specialize (Hr r eq_refl).
      by rewrite after_after by lia.
  - destruct (Hk key) as (H1 & H2 & H3). unfold record_and_count. cbn [fst].
    apply swc_ok_set; eauto with series. by rewrite after_after, !after_app, H3 by lia.
  - apply swc_ok_set; eauto with series.
  - unfold reset. destruct (dget (sw_events w) key) eqn:Hd; cbn [fst].
    + split; cbn [fst snd]; [by apply dict_wf_ddel|done|]. intros k. unfold series, upd. simpl.
      rewrite dget_ddel. destruct (decide (k = key)) as [->|].
      * rewrite decide_True by done. simpl. eauto using ordered_nil.
      * rewrite decide_False by done. apply Hk.
    + split; cbn [fst snd]; [done..|]. intros k. unfold upd. case_decide; [|apply Hk].
      subst. unfold series. rewrite Hd. simpl. eauto using ordered_nil.
  - split; cbn [fst snd]; [constructor|done|]. intros k. unfold series. simpl. eauto using ordered_nil.
Qed.

(** A counter with no events yet, whose retention is unset or at least [W]. *)
Definition fresh (W : Z) (w : swc) : Prop :=
  sw_events w = [] ∧ ∀ r, sw_retention w = Some r → W <= r.

Lemma swc_run_ok W w calls t now :
  fresh W w → clocked t calls now → Forall (λ c, prunes_at_least W c.1 c.2) calls →
  swc_ok W now (swc_run w calls).
Proof.
  intros [He Hr] Hc Hp. apply (clocked_invariant swc_step (swc_ok W) (prunes_at_least W) t); try done.
  - intros. by eapply swc_ok_later.
  - intros. by apply swc_ok_step.
  - split; cbn [fst snd]; [rewrite He; constructor|done|].
    intros k. unfold series. rewrite He. simpl. eauto using ordered_nil.
Qed.

(** As long as no call prunes to less than [W], every answer over a window of
    at most [W] is the answer of a counter that never forgets: the count, the
    snapshot, and the decision and count of an acquisition, whatever trims,
    sweeps and resets of any key ran before. *)
Theorem reads_are_exact W w calls t now key window :
  fresh W w → clocked t calls now → Forall (λ c, prunes_at_least W c.1 c.2) calls → window <= W →
  let '(w', log) := swc_run w calls in
  let exact := after (now - window) (log key) in
  count w' now key window = Zlength exact ∧
  snapshot w' now key window = exact ∧
  ∀ max_events, (try_acquire w' now key max_events window).2 =
    if max_events <=? Zlength exact then (false, Zlength exact) else (true, Zlength exact + 1).
Proof.
  intros Hf Hc Hp Hw. apply (swc_run_ok W w calls t now Hf Hc) in Hp as [Hwf _ Hk].
  destruct (swc_run w calls) as [w' log]. cbn [fst snd] in *. destruct (Hk key) as (_ & _ & He).
  apply (after_mono _ (now - window)) in He; [|lia].
  split_and!; [by unfold count; rewrite He|done|]. intros m. unfold try_acquire.
  assert (Hs : after (now - window) (series (maybe_cleanup w' now window) key) =
               after (now - window) (log key)).
  { rewrite <-He. destruct (series_cleanup w' now window key Hwf) as [-> | ->]; [done|].
    by rewrite after_after by lia. }
  rewrite Hs. by case_match.
Qed.

(** Two clients of a limiter with a one-minute window that sweeps every minute. *)
Definition two_clients : list (Z * call) :=
  [(seconds 1, TryAcquire "a" 2 (seconds 60)); (seconds 2, TryAcquire "a" 2 (seconds 60));
   (seconds 3, TryAcquire "a" 2 (seconds 60)); (seconds 61, TryAcquire "b" 2 (seconds 60));
   (seconds 61, RecordEvent "b")].

Definition minute_counter : swc := swc_init (Some (seconds 60)) None 0.

Lemma reads_are_exact_witness :
  fresh (seconds 60) minute_counter ∧ clocked 0 two_clients (seconds 61) ∧
  Forall (λ c, prunes_at_least (seconds 60) c.1 c.2) two_clients ∧
  (let '(w', log) := swc_run minute_counter two_clients in
   let exact := after (seconds 61 - seconds 60) (log "a") in
   count w' (seconds 61) "a" (seconds 60) = Zlength exact ∧
   snapshot w' (seconds 61) "a" (seconds 60) = exact ∧
   ∀ max_events, (try_acquire w' (seconds 61) "a" max_events (seconds 60)).2 =
     if max_events <=? Zlength exact then (false, Zlength exact) else (true, Zlength exact + 1)) ∧
  snapshot (swc_run minute_counter two_clients).1 (seconds 61) "a" (seconds 60) = [seconds 2].
Proof.
  assert (Hf : fresh (seconds 60) minute_counter) by done.
  assert (Hc : clocked 0 two_clients (seconds 61)) by (by vm_compute).
  assert (Hp : Forall (λ c, prunes_at_least (seconds 60) c.1 c.2) two_clients)
    by (repeat constructor; by vm_compute).
  split_and!; [done..| |by vm_compute].
  exact (reads_are_exact (seconds 60) minute_counter two_clients 0 (seconds 61) "a" (seconds 60)
      Hf Hc Hp (Z.le_refl _)).
Defined.

(** ** The limit *)

(** Key [k] only takes events through acquisitions with a limit of at most [M]. *)
Definition limited (k : string) (M W now : Z) (c : call) : Prop :=
  prunes_at_least W now c ∧
  match c with
  | TryAcquire key m _ => key = k → m <= M
  | RecordEvent key | RecordAndCount key _ | Restore key _ => key ≠ k
  | Reset _ | ResetAll => True
  end.

(** How many of [l] fall into the window of length [W] that ends at [u]. *)
Definition in_span (W u : Z) (l : list Z) : Z := countb (λ t, (u - W <? t) && (t <=? u)) l.

Definition within_limit (k : string) (M W now : Z) (wl : swc * ledger) : Prop :=
  swc_ok W now wl ∧ ∀ u, in_span W u (wl.2 k) <= M.

Lemma in_span_snoc W u l now :
  in_span W u (l ++ [now]) = in_span W u l + (if (u - W <? now) && (now <=? u) then 1 else 0).
Proof. unfold in_span, countb. rewrite List.filter_app, Zlength_app. simpl. by case_match. Qed.

Lemma in_span_after W u now l :
  u - W >= now - W → in_span W u l <= Zlength (after (now - W) l).
Proof.
  intros. apply (countb_mono (λ t, (u - W <? t) && (t <=? u)) (λ t, now - W <? t)).
  intros t _. rewrite andb_true_iff, !Z.ltb_lt. lia.
Qed.

Lemma after_longer a b l : a <= b → Zlength (after b l) <= Zlength (after a l).
Proof. intros. apply (countb_mono (λ t, b <? t) (λ t, a <? t)). intros t _. rewrite !Z.ltb_lt. lia. Qed.

Lemma within_limit_step k M W now wl c :
  0 <= M → within_limit k M W now wl → limited k M W now c → within_limit k M W now (swc_step wl (now, c)).
Proof.
  intros HM [Hok Hl] [Hp Hc]. pose proof (swc_ok_step W now wl c Hok Hp) as Hok'. split; [done|].
  destruct wl as [w log]. pose proof Hok as [Hwf _ Hk]. cbn [fst snd] in *. intros u.
  destruct c as [key m window|key|key window|key ts|key|]; cbn [swc_step prunes_at_least] in *;
    try (cbn [snd]; unfold upd; rewrite decide_False by done; apply Hl).
  - unfold try_acquire. destruct (Z.leb_spec m (Zlength (after (now - window) (series (maybe_cleanup w now window) key))))
      as [Hm|Hm]; cbn [snd]; [apply Hl|]. unfold upd. case_decide as Hkey; [|apply Hl]. subst key.
    specialize (Hc eq_refl). rewrite in_span_snoc. destruct ((u - W <? now) && (now <=? u)) eqn:Hu; [|specialize (Hl u); lia].
    apply andb_true_iff in Hu as [Hu1%Z.ltb_lt Hu2%Z.leb_le].
    pose proof (in_span_after W u now (log k) ltac:(lia)) as Hspan.
    destruct (Hk k) as (_ & _ & He). rewrite <-He in Hspan.
    assert (Zlength (after (now - W) (series w k)) <=
            Zlength (after (now - window) (series (maybe_cleanup w now window) k))); [|lia].
    destruct (series_cleanup w now window k Hwf) as [-> | ->]; rewrite ?after_after by lia; apply after_longer; lia.
  - cbn [snd]. unfold upd. case_decide; [done|apply Hl].
  - cbn [snd]. done.
Qed.



(** The hypothesis on the other clients' windows is needed: on a counter that
    sweeps, a single call for another key with a shorter window prunes every
    series to that window, and the first client is granted four events in a
    window that allows two. *)
Theorem short_window_breaks_other_key :
  let minute := seconds 60 in
  let calls :=
    [(seconds 58, TryAcquire "a" 2 minute); (seconds 59, TryAcquire "a" 2 minute);
     (seconds 61, TryAcquire "b" 2 (seconds 1));
     (seconds 62, TryAcquire "a" 2 minute); (seconds 63, TryAcquire "a" 2 minute)] in
  in_span minute (seconds 63) ((swc_run minute_counter calls).2 "a") = 4.
Proof. by vm_compute. Qed.
