(* ===== verification/CooldownGate.v ===== *)
(** The single-slot cooldown gate ([CooldownGate] of [core/rate_limiting.py]):
    one reservation per key, released by token when the guarded action fails.
    Compared with a gate that never evicts anything.  Times are microseconds;
    the clock is read once per call, under the lock. *)
From S2P Require Import Prelude.

(** key -> (reserved_ts, window_at_reserve) *)
Definition gate := dict string (Z * Z).

(** [_evict_expired] *)
Definition evict_expired (g : gate) (now : Z) : gate :=
  List.filter (λ kv, negb (kv.2.2 <=? now - kv.2.1)) g.

Definition try_reserve (g : gate) (now : Z) (key : string) (cooldown : Z) : gate * (bool * option Z) :=
  let g := evict_expired g now in
  let suppressed :=
    (0 <? cooldown) &&
    match dget g key with Some (ts, _) => now - ts <? cooldown | None => false end in
  if suppressed then (g, (false, None))
  else (dset g key (now, cooldown), (true, Some now)).

Definition release (g : gate) (key : string) (token : Z) : gate * bool :=
  match dget g key with
  | Some (ts, _) => if ts =? token then (ddel g key, true) else (g, false)
  | None => (g, false)
  end.

Definition is_suppressed (g : gate) (now : Z) (key : string) (cooldown : Z) : bool :=
  if cooldown <=? 0 then false
  else match dget g key with
       | None => false
       | Some (ts, _) => now - ts <? cooldown
       end.

Definition snapshot (g : gate) : dict string Z := (λ kv, (kv.1, kv.2.1)) <$> g.
Definition keys (g : gate) : list string := dkeys g.

Definition reset (g : gate) (key : string) : gate * bool :=
  match dget g key with Some _ => (ddel g key, true) | None => (g, false) end.

Definition reset_all (g : gate) : gate := [].

(** ** Histories, beside a gate that never evicts *)
Inductive call :=
| TryReserve (key : string) (cooldown : Z)
| Release (key : string) (token : Z)
| Reset (key : string)
| ResetAll.

(** The last reservation of each key that was neither released nor reset. *)
Definition slots := string → option (Z * Z).

Definition upd (r : slots) (key : string) (v : option (Z * Z)) : slots :=
  λ k, if decide (k = key) then v else r k.

(** The rule: a key is free unless its last reservation is younger than both the
    cooldown it was made with and the one asked for now. *)
Definition must_wait (r : slots) (now : Z) (key : string) (cooldown : Z) : bool :=
  match r key with
  | Some (ts, window) => now - ts <? Z.min cooldown window
  | None => false
  end && (0 <? cooldown).

Definition gate_step (gr : gate * slots) (tc : Z * call) : gate * slots :=
  let '(g, r) := gr in
  let '(now, c) := tc in
  match c with
  | TryReserve key cooldown =>
      ((try_reserve g now key cooldown).1,
       if must_wait r now key cooldown then r else upd r key (Some (now, cooldown)))
  | Release key token =>
      ((release g key token).1,
       match r key with
       | Some (ts, _) => if ts =? token then upd r key None else r
       | None => r
       end)
  | Reset key => ((reset g key).1, upd r key None)
  | ResetAll => (reset_all g, λ _, None)
  end.

Definition gate_run (calls : list (Z * call)) : gate * slots := foldl gate_step ([], λ _, None) calls.

(** What is not stored has run out. *)
Record gate_ok (now : Z) (gr : gate * slots) : Prop := {
  go_wf : dict_wf gr.1;
  go_key : ∀ k, gr.2 k = dget gr.1 k ∨
    dget gr.1 k = None ∧ ∃ ts w, gr.2 k = Some (ts, w) ∧ w <= now - ts;
}.

Lemma dget_filter_value {K V} `{EqDecision K} (p : V → bool) (d : dict K V) k :
  dict_wf d →
  dget (List.filter (λ kv, p kv.2) d) k =
    match dget d k with Some v => if p v then Some v else None | None => None end.
Proof.
  intros Hwf. induction d as [|[k' v] d IH]; [done|]. apply NoDup_cons in Hwf as [Hni Hwf].
  specialize (IH Hwf). cbn [List.filter dget snd]. case_decide as Hk.
  - subst. destruct (p v); cbn [dget]; [by rewrite decide_True|]. rewrite IH.
    destruct (dget d k) eqn:Hd; [|done]. exfalso. apply Hni, elem_of_dkeys. eauto.
  - destruct (p v); cbn [dget]; [by rewrite decide_False|done].
Qed.

Lemma dict_wf_filter {K V} `{EqDecision K} (p : K * V → bool) (d : dict K V) :
  dict_wf d → dict_wf (List.filter p d).
Proof. intros Hwf. eapply sublist_NoDup; [exact Hwf|]. apply fmap_sublist, filter_sublist. Qed.

Lemma dget_evict g now k :
  dict_wf g →
  dget (evict_expired g now) k =
    match dget g k with Some (ts, w) => if w <=? now - ts then None else Some (ts, w) | None => None end.
Proof.
  intros Hwf. unfold evict_expired. rewrite (dget_filter_value (λ v, negb (v.2 <=? now - v.1))) by done.
  destruct (dget g k) as [[ts w]|]; [|done]. cbn [fst snd]. by destruct (w <=? now - ts).
Qed.

Lemma gate_ok_later now now' gr : gate_ok now gr → now <= now' → gate_ok now' gr.
Proof.
  intros [Hwf Hk] Hle. split; [done|]. intros k. destruct (Hk k) as [?|(? & ts & w & ? & ?)]; [by left|].
  right. split; [done|]. exists ts, w. split; [done|lia].
Qed.

(** The decision, seen from the gate that never evicts. *)
Lemma try_reserve_decides now g r key cooldown :
  gate_ok now (g, r) →
  try_reserve g now key cooldown =
    if must_wait r now key cooldown then (evict_expired g now, (false, None))
    else (dset (evict_expired g now) key (now, cooldown), (true, Some now)).
Proof.
  intros [Hwf Hk]. cbn [fst snd] in *. unfold try_reserve, must_wait. rewrite dget_evict by done.
  destruct (Z.ltb_spec 0 cooldown) as [Hc|Hc]; cbn [andb]; [|by rewrite andb_false_r].
  rewrite andb_true_r. destruct (Hk key) as [->|(-> & ts & w & -> & Hw)].
  - destruct (dget g key) as [[ts w]|]; [|done]. destruct (Z.leb_spec w (now - ts)).
    + by rewrite (proj2 (Z.ltb_ge _ _)) by lia.
    + destruct (Z.ltb_spec (now - ts) cooldown), (Z.ltb_spec (now - ts) (Z.min cooldown w)); done || lia.
  - by rewrite (proj2 (Z.ltb_ge _ _)) by lia.
Qed.

Lemma gate_ok_step now gr c : gate_ok now gr → gate_ok now (gate_step gr (now, c)).
Proof.
  destruct gr as [g r]. intros Hok. pose proof Hok as [Hwf Hk]. cbn [fst snd] in *.
  destruct c as [key cooldown|key token|key|]; cbn [gate_step].
  - rewrite (try_reserve_decides now g r) by done.
    assert (Hev : ∀ k, r k = dget (evict_expired g now) k ∨
      dget (evict_expired g now) k = None ∧ ∃ ts w, r k = Some (ts, w) ∧ w <= now - ts).
    { intros k. rewrite dget_evict by done. destruct (Hk k) as [->|(-> & ?)]; [|by right].
      destruct (dget g k) as [[ts w]|]; [|by left]. destruct (Z.leb_spec w (now - ts)); [right; eauto|by left]. }
    destruct (must_wait r now key cooldown); cbn [fst].
    + split; [by apply dict_wf_filter|done].
    + split; cbn [fst snd]; [by apply dict_wf_dset, dict_wf_filter|]. intros k. unfold upd.
      rewrite dget_dset. destruct (decide (k = key)) as [->|]; [left; by rewrite decide_True|].
      rewrite decide_False by done. apply Hev.
  - unfold release. destruct (Hk key) as [Hr|(Hg & ts & w & Hr & Hw)].
    + rewrite Hr. destruct (dget g key) as [[ts w]|] eqn:Hg; [|done]. destruct (ts =? token); [|done].
      split; cbn [fst snd]; [by apply dict_wf_ddel|]. intros k. unfold upd. rewrite dget_ddel.
      destruct (decide (k = key)) as [->|]; [left; by rewrite decide_True|]. rewrite decide_False by done. apply Hk.
    + rewrite Hg, Hr. cbn [fst]. destruct (ts =? token); [|done]. split; cbn [fst snd]; [done|].
      intros k. unfold upd. destruct (decide (k = key)) as [->|]; [by left|apply Hk].
  - unfold reset. destruct (dget g key) eqn:Hg; cbn [fst].
    + split; cbn [fst snd]; [by apply dict_wf_ddel|]. intros k. unfold upd. rewrite dget_ddel.
      destruct (decide (k = key)) as [->|]; [left; by rewrite decide_True|]. rewrite decide_False by done. apply Hk.
    + split; cbn [fst snd]; [done|]. intros k. unfold upd.
      destruct (decide (k = key)) as [->|]; [by left|apply Hk].
  - split; cbn [fst snd]; [constructor|by left].
Qed.

Lemma gate_run_ok calls t now : clocked t calls now → gate_ok now (gate_run calls).
Proof.
  intros Hc. apply (clocked_invariant gate_step gate_ok (λ _ _, True) t); try done.
  - intros. by eapply gate_ok_later.
  - intros. by apply gate_ok_step.
  - split; cbn [fst snd]; [constructor|by left].
  - by apply Forall_true.
Qed.

(** Whatever keys with whatever cooldowns share the gate, a reservation is
    refused exactly when the key's last reservation that was not released or
    reset is younger than both its own cooldown and the one asked for; evicting
    expired entries never shows. *)
Theorem reserve_follows_rule calls t now key cooldown :
  clocked t calls now →
  let '(g, r) := gate_run calls in
  (try_reserve g now key cooldown).2 =
    if must_wait r now key cooldown then (false, None) else (true, Some now).
Proof.
  intros Hc%gate_run_ok. destruct (gate_run calls) as [g r].
  rewrite (try_reserve_decides now g r) by done. by destruct (must_wait r now key cooldown).
Qed.

(** A short alert, a long one, a failed action that gives its slot back. *)
Definition alerts : list (Z * call) :=
  [(seconds 0, TryReserve "long" (seconds 60)); (seconds 1, TryReserve "short" (seconds 5));
   (seconds 20, TryReserve "short" (seconds 5)); (seconds 21, Release "short" (seconds 20))].

Lemma reserve_follows_rule_witness :
  clocked 0 alerts (seconds 22) ∧
  (let '(g, r) := gate_run alerts in
   (try_reserve g (seconds 22) "long" (seconds 60)).2 =
     if must_wait r (seconds 22) "long" (seconds 60) then (false, None) else (true, Some (seconds 22))) ∧
  must_wait (gate_run alerts).2 (seconds 22) "long" (seconds 60) = true ∧
  must_wait (gate_run alerts).2 (seconds 22) "short" (seconds 5) = false.
Proof.
  assert (Hc : clocked 0 alerts (seconds 22)) by (by vm_compute).
  split_and!; [done| |by vm_compute..].
  exact (reserve_follows_rule alerts 0 (seconds 22) "long" (seconds 60) Hc).
Defined.

(** A longer cooldown asked for now does not extend a reservation made with a
    shorter one: the lock-free read says the key is suppressed, and reserving it
    succeeds, because the entry is evicted by the cooldown it was made with. *)
Theorem longer_cooldown_not_honoured :
  let g := (try_reserve [] 0 "k" (seconds 10)).1 in
  is_suppressed g (seconds 12) "k" (seconds 60) = true ∧
  (try_reserve g (seconds 12) "k" (seconds 60)).2 = (true, Some (seconds 12)).
Proof. by vm_compute. Qed.
