(* ===== verification/TokenBucket.v ===== *)
(** The token bucket ([TokenBucket] of [core/rate_limiting.py]).  Token counts,
    rates and elapsed seconds are exact rationals in place of Python's floats
    (rounding is not modelled); clock readings are microseconds. *)
From Stdlib Require Import QArith Qminmax Lqa.
From S2P Require Import Prelude.
#[local] Open Scope Z_scope.

Record bucket := Bucket {
  tb_rate : Q;
  tb_capacity : Q;
  tb_tokens : Q;
  tb_last_update : Z;
}.

(** [capacity or rate]: an absent or zero capacity is the rate. *)
Definition bucket_init (rate : Q) (capacity : option Q) (now : Z) : bucket :=
  let c := match capacity with
           | Some c => if Qeq_bool c 0 then rate else c
           | None => rate
           end in
  Bucket rate c c now.

(** Seconds between two readings. *)
Definition elapsed (last now : Z) : Q := (inject_Z (now - last) / inject_Z US_PER_SECOND)%Q.

Definition set_rate (b : bucket) (rate : Q) : bucket :=
  Bucket rate (tb_capacity b) (tb_tokens b) (tb_last_update b).

Definition get_rate (b : bucket) : Q := tb_rate b.

Definition refilled (b : bucket) (now : Z) : Q :=
  Qmin (tb_capacity b) (tb_tokens b + elapsed (tb_last_update b) now * tb_rate b)%Q.

Definition consume (b : bucket) (now : Z) (tokens : Z) : bucket * bool :=
  let current := refilled b now in
  if Qle_bool (inject_Z tokens) current
  then (Bucket (tb_rate b) (tb_capacity b) (current - inject_Z tokens)%Q now, true)
  else (Bucket (tb_rate b) (tb_capacity b) current now, false).

Definition get_token_ratio (b : bucket) (now : Z) : Q :=
  if Qle_bool (tb_capacity b) 0 then 0%Q else (refilled b now / tb_capacity b)%Q.

(** [_WAIT_POLL_INTERVAL_SECONDS] *)
Definition WAIT_POLL_INTERVAL : Z := 10000.

(** The loop of [wait_for_token]: [clock i] is the [i]-th reading, each iteration
    makes one for its test and one inside [consume] and then sleeps; [None] means
    [fuel] iterations were not enough. *)
Fixpoint wait_loop (fuel : nat) (clock : nat → Z) (i : nat) (start timeout : Z) (b : bucket) :
    option (bucket * bool) :=
  match fuel with
  | O => None
  | S fuel =>
      if clock i - start <? timeout then
        match consume b (clock (S i)) 1 with
        | (b, true) => Some (b, true)
        | (b, false) => wait_loop fuel clock (S (S i)) start timeout b
        end
      else Some (b, false)
  end.

Definition wait_for_token (fuel : nat) (clock : nat → Z) (b : bucket) (timeout : Z) :=
  wait_loop fuel clock 1 (clock 0%nat) timeout b.

(** ** The bound on what is granted *)
Inductive call :=
| Consume (tokens : Z)
| SetRate (rate : Q).

(** The bucket beside the number of tokens granted so far. *)
Definition bucket_step (bg : bucket * Z) (tc : Z * call) : bucket * Z :=
  let '(b, granted) := bg in
  match tc.2 with
  | Consume n => let '(b', ok) := consume b tc.1 n in (b', if ok then granted + n else granted)
  | SetRate r => (set_rate b r, granted)
  end.

(** Calls ask for no negative number of tokens, and rates stay within [0, R]. *)
Definition sound_call (R : Q) (now : Z) (c : call) : Prop :=
  match c with Consume n => 0 <= n | SetRate r => (0 <= r <= R)%Q end.

Lemma elapsed_nonneg last now : last <= now → (0 <= elapsed last now)%Q.
Proof. intros. unfold elapsed. apply Qle_shift_div_l; [done|]. rewrite Qmult_0_l. change 0%Q with (inject_Z 0). rewrite <-Zle_Qle. lia. Qed.

Lemma elapsed_add a b c : (elapsed a b + elapsed b c == elapsed a c)%Q.
Proof.
  unfold elapsed. replace (c - a) with ((b - a) + (c - b)) by lia. rewrite inject_Z_plus.
  field. discriminate.
Qed.

(** Between [t0] and the last update, tokens in store and tokens granted never
    exceed what the bucket held plus what [R] produces. *)
Record bucket_ok (cap R : Q) (t0 now : Z) (bg : bucket * Z) : Prop := {
  bo_capacity : tb_capacity bg.1 = cap;
  bo_rate : (0 <= tb_rate bg.1 <= R)%Q;
  bo_tokens : (0 <= tb_tokens bg.1 <= cap)%Q;
  bo_clock : t0 <= tb_last_update bg.1 <= now;
  bo_granted : (tb_tokens bg.1 + inject_Z bg.2 <= cap + elapsed t0 (tb_last_update bg.1) * R)%Q;
}.

Lemma refilled_bounds cap R t0 now bg :
  bucket_ok cap R t0 now bg →
  (0 <= refilled bg.1 now <= cap)%Q ∧
  (refilled bg.1 now + inject_Z bg.2 <= cap + elapsed t0 now * R)%Q.
Proof.
  intros [Hc [Hr0 Hr1] [Ht0 Ht1] Hl Hg]. unfold refilled. rewrite Hc.
  pose proof (elapsed_nonneg (tb_last_update bg.1) now ltac:(lia)) as He.
  pose proof (elapsed_add t0 (tb_last_update bg.1) now) as Ha.
  set (e := elapsed (tb_last_update bg.1) now) in *. set (e0 := elapsed t0 (tb_last_update bg.1)) in *.
  set (e1 := elapsed t0 now) in *.
  assert (Hgain : (0 <= e * tb_rate bg.1 <= e * R)%Q) by (split; nra).
  assert (HR : (e1 * R == e0 * R + e * R)%Q) by (rewrite <-Ha; ring).
  destruct (Q.min_spec cap (tb_tokens bg.1 + e * tb_rate bg.1)) as [[Hlt Hm]|[Hlt Hm]]; rewrite Hm;
    (split; [split|]); lra.
Qed.

Lemma bucket_ok_step cap R t0 now bg c :
  bucket_ok cap R t0 now bg → sound_call R now c → bucket_ok cap R t0 now (bucket_step bg (now, c)).
Proof.
  intros Hok Hs. destruct (refilled_bounds cap R t0 now bg Hok) as [[H0 H1] H2].
  destruct bg as [b granted]. destruct Hok as [Hc Hr Ht Hl Hg]. cbn [fst snd] in *.
  destruct c as [n|r]; unfold bucket_step; cbn [fst snd sound_call] in *; [|by split].
  unfold consume. destruct (Qle_bool (inject_Z n) (refilled b now)) eqn:Hle.
  - apply Qle_bool_iff in Hle.
    assert (0 <= inject_Z n)%Q by (change 0%Q with (inject_Z 0); by rewrite <-Zle_Qle).
    split; cbn [fst snd tb_capacity tb_rate tb_tokens tb_last_update]; [done|done|split; lra|lia|].
    rewrite inject_Z_plus. lra.
  - split; cbn [fst snd tb_capacity tb_rate tb_tokens tb_last_update]; [done|done|done|lia|done].
Qed.

(** From any moment on, the tokens a bucket grants never exceed its capacity
    plus what its highest rate produces in the time that passed, and its store
    stays between zero and its capacity, whatever rate changes and requests
    arrive, as long as the clock does not run backwards. *)
Theorem grants_bounded R b calls now :
  (0 <= tb_tokens b <= tb_capacity b)%Q → (0 <= tb_rate b <= R)%Q →
  clocked (tb_last_update b) calls now → Forall (λ c, sound_call R c.1 c.2) calls →
  let '(b', granted) := foldl bucket_step (b, 0) calls in
  (0 <= tb_tokens b' <= tb_capacity b)%Q ∧
  (inject_Z granted <= tb_capacity b + elapsed (tb_last_update b) now * R)%Q.
Proof.
  intros Ht Hr Hc Hs.
  assert (Hok : bucket_ok (tb_capacity b) R (tb_last_update b) now (foldl bucket_step (b, 0) calls)).
  { apply (clocked_invariant bucket_step (bucket_ok (tb_capacity b) R (tb_last_update b)) (sound_call R)
      (tb_last_update b)); try done.
    - intros t t' s [] ?. split; try done. lia.
    - intros. by apply bucket_ok_step.
    - split; cbn [fst snd]; [done|done|done|lia|]. unfold elapsed. rewrite Z.sub_diag. change (inject_Z 0) with 0%Q.
      assert (0 / inject_Z US_PER_SECOND == 0)%Q as -> by reflexivity. lra. }
  destruct (foldl bucket_step (b, 0) calls) as [b' granted].
  pose proof (refilled_bounds _ _ _ _ _ Hok) as [[Hf _] H2]. destruct Hok as [_ _ Ht' _ _]. cbn [fst snd] in *.
  split; [done|]. lra.
Qed.

(** Ten requests in one second at five tokens a second. *)
Definition burst : list (Z * call) := (λ i, (Z.of_nat i * 100000, Consume 1)) <$> seq 1 10.

Lemma grants_bounded_witness :
  clocked 0 burst (seconds 1) ∧
  (let '(b', granted) := foldl bucket_step (bucket_init 5 None 0, 0) burst in
   (0 <= tb_tokens b' <= tb_capacity (bucket_init 5 None 0))%Q ∧
   (inject_Z granted <= tb_capacity (bucket_init 5 None 0) +
      elapsed (tb_last_update (bucket_init 5 None 0)) (seconds 1) * 5)%Q) ∧
  (foldl bucket_step (bucket_init 5 None 0, 0) burst).2 = 9.
Proof.
  split_and!; [by vm_compute| |by vm_compute].
  apply (grants_bounded 5 (bucket_init 5 None 0) burst (seconds 1)).
  - by vm_compute.
  - by vm_compute.
  - by vm_compute.
  - unfold burst. simpl. repeat constructor; done.
Defined.

(** ** Waiting ends *)

(** [wait_for_token] returns: if every sleep advances the clock by at least
    the poll interval, the loop ends within one iteration more than the timeout
    has poll intervals, whatever the bucket does. *)
Theorem wait_for_token_returns clock b timeout :
  (∀ i, clock (2 * i + 1)%nat + WAIT_POLL_INTERVAL <= clock (2 * i + 3)%nat) →
  clock 0%nat <= clock 1%nat → 0 <= timeout →
  ∃ result, wait_for_token (Z.to_nat (timeout / WAIT_POLL_INTERVAL) + 2) clock b timeout = Some result.
Proof.
  intros Hsleep H01 Ht. unfold wait_for_token.
  assert (Hloop : ∀ fuel n b, timeout < Z.of_nat (n + fuel) * WAIT_POLL_INTERVAL →
    clock 0%nat + Z.of_nat n * WAIT_POLL_INTERVAL <= clock (2 * n + 1)%nat →
    ∃ result, wait_loop (S fuel) clock (2 * n + 1) (clock 0%nat) timeout b = Some result).
  { induction fuel as [|fuel IH]; intros n b' Hf Hn; cbn [wait_loop].
    - rewrite (proj2 (Z.ltb_ge _ _)); [eauto|]. rewrite Nat.add_0_r in Hf. lia.
    - case_match; [|eauto]. destruct (consume _ _ _) as [b1 []]; [eauto|].
      specialize (IH (S n) b1). replace (S (S (2 * n + 1)))%nat with (2 * S n + 1)%nat by lia.
      apply IH; [by rewrite Nat.add_succ_comm|]. specialize (Hsleep n).
      replace (2 * S n + 1)%nat with (2 * n + 3)%nat by lia. lia. }
  specialize (Hloop (S (Z.to_nat (timeout / WAIT_POLL_INTERVAL))) 0%nat b).
  rewrite Nat.add_comm. apply Hloop; [|simpl; lia].
  pose proof (Z.div_pos timeout WAIT_POLL_INTERVAL Ht ltac:(done)).
  pose proof (Z.mul_succ_div_gt timeout WAIT_POLL_INTERVAL ltac:(done)). unfold WAIT_POLL_INTERVAL in *. lia.
Qed.

(** An empty bucket that never refills: the wait gives up. *)
Lemma wait_for_token_returns_witness :
  (∃ result, wait_for_token (Z.to_nat (50000 / WAIT_POLL_INTERVAL) + 2) (λ i, Z.of_nat i * 5000)
     (Bucket 0 1 0 0) 50000 = Some result) ∧
  wait_for_token 7 (λ i, Z.of_nat i * 5000) (Bucket 0 1 0 0) 50000 ≠ None.
Proof.
  split; [|by vm_compute].
  apply wait_for_token_returns; [|done|done]. intros i. unfold WAIT_POLL_INTERVAL. lia.
Defined.
