(* ===== verification/Bulkhead.v ===== *)
(** The semaphore bulkhead ([services/bulkhead/semaphore.py]): one seat count for
    threads and coroutines, a queue of waiters, and a list of pending operations
    that releasers append to without taking the lock.

    The first half is the code that runs under the lock, as functions on the
    object's state.  A waiter is a Python object that the queue, the pending list
    and its caller share, so waiters live in a heap and are referred to by
    identity.  The second half is the lock protocol around it
    ([_enter], [_exit], [_apply_pending_nonblocking], [release] and the waiting
    loops) as a step relation: any number of threads and coroutines interleave
    between any two accesses to the lock and to the pending list. *)
From S2P Require Import Prelude.

(** ** Waiters *)

(** [_ThreadWaiter] / [_LoopWaiter] with its loop *)
Inductive waiter_kind :=
| ThreadWaiter
| LoopWaiter (loop : nat).

(** [w_signal]: the thread's wake token has been released and not yet taken; the
    loop waiter's future is done or its result is scheduled. *)
Record waiter := Waiter {
  w_kind : waiter_kind;
  w_deadline : Z;
  w_queued : bool;
  w_woken : bool;
  w_signal : bool;
}.

Definition new_waiter (kind : waiter_kind) (deadline : Z) : waiter := Waiter kind deadline false false false.

(** What the code asks of its surroundings at one moment: the monotonic clock,
    and which event loops are closed or running. *)
Record env := Env {
  e_now : Z;
  e_closed : nat → bool;
  e_running : nat → bool;
}.

Definition is_dead (e : env) (w : waiter) : bool :=
  match w_kind w with
  | ThreadWaiter => w_deadline w <=? e_now e
  | LoopWaiter l => e_closed e l || (w_deadline w <=? e_now e)
  end.

Definition needs_rearm (w : waiter) : bool :=
  match w_kind w with
  | ThreadWaiter => w_woken w
  | LoopWaiter _ => w_woken w || w_signal w
  end.

(** [wake]: whether the wake reached a waiter that can run.  A closed loop refuses
    it ([call_soon_threadsafe] raises). *)
Definition wake (e : env) (w : waiter) : waiter * bool :=
  match w_kind w with
  | ThreadWaiter =>
      (if w_woken w then w else Waiter (w_kind w) (w_deadline w) (w_queued w) true true, true)
  | LoopWaiter l =>
      if w_woken w then (w, e_running e l)
      else if e_closed e l then (w, false)
      else (Waiter (w_kind w) (w_deadline w) (w_queued w) true true, e_running e l)
  end.

(** [rearm]: the token is taken back, or the future replaced. *)
Definition rearm (w : waiter) : waiter := Waiter (w_kind w) (w_deadline w) (w_queued w) false false.

Definition set_queued (w : waiter) (b : bool) : waiter :=
  Waiter (w_kind w) (w_deadline w) b (w_woken w) (w_signal w).
Definition set_woken (w : waiter) (b : bool) : waiter :=
  Waiter (w_kind w) (w_deadline w) (w_queued w) b (w_signal w).
Definition set_signal (w : waiter) (b : bool) : waiter :=
  Waiter (w_kind w) (w_deadline w) (w_queued w) (w_woken w) b.

(** ** The compartment *)

(** [_SEAT_RETURNED], or a waiter leaving without a seat *)
Inductive pending_op :=
| SeatReturned
| Leave (w : nat).

Record bulkhead := Bulkhead {
  max_concurrent : Z;
  taken : Z;
  waiters : list nat;
  pending : list pending_op;
  rejected_count : Z;
  last_rejection_time : option Z;
  heap : nat → waiter;
  next_waiter : nat;
}.

Definition bulkhead_init (max : Z) : bulkhead :=
  Bulkhead max 0 [] [] 0 None (λ _, new_waiter ThreadWaiter 0) 0.

Definition set_taken (s : bulkhead) (n : Z) : bulkhead :=
  Bulkhead (max_concurrent s) n (waiters s) (pending s) (rejected_count s) (last_rejection_time s)
    (heap s) (next_waiter s).
Definition set_waiters (s : bulkhead) (q : list nat) : bulkhead :=
  Bulkhead (max_concurrent s) (taken s) q (pending s) (rejected_count s) (last_rejection_time s)
    (heap s) (next_waiter s).
Definition set_pending (s : bulkhead) (p : list pending_op) : bulkhead :=
  Bulkhead (max_concurrent s) (taken s) (waiters s) p (rejected_count s) (last_rejection_time s)
    (heap s) (next_waiter s).
Definition set_waiter (s : bulkhead) (i : nat) (w : waiter) : bulkhead :=
  Bulkhead (max_concurrent s) (taken s) (waiters s) (pending s) (rejected_count s) (last_rejection_time s)
    (λ j, if decide (j = i) then w else heap s j) (next_waiter s).

(** [deque.remove]: the first occurrence *)
Fixpoint remove_first (i : nat) (l : list nat) : list nat :=
  match l with
  | [] => []
  | j :: l' => if decide (j = i) then l' else j :: remove_first i l'
  end.

Definition unqueue (s : bulkhead) (i : nat) : bulkhead :=
  if w_queued (heap s i)
  then set_waiters (set_waiter s i (set_queued (heap s i) false)) (remove_first i (waiters s))
  else s.

Definition enqueue (s : bulkhead) (i : nat) : bulkhead :=
  set_waiters (set_waiter s i (set_queued (heap s i) true)) (waiters s ++ [i]).

(** [_requeue] *)
Definition requeue (s : bulkhead) (i : nat) : bulkhead :=
  if needs_rearm (heap s i) || negb (w_queued (heap s i)) then
    let s := unqueue s i in
    let s := set_waiter s i (rearm (heap s i)) in
    enqueue s i
  else s.

(** [_wake_next], over [list(self._waiters)] *)
Fixpoint wake_from (e : env) (s : bulkhead) (l : list nat) : bulkhead :=
  match l with
  | [] => s
  | i :: l' =>
      if w_woken (heap s i) then wake_from e s l'
      else
        let '(w, reached) := wake e (heap s i) in
        let s := set_waiter s i w in
        if reached then s
        else if w_woken (heap s i) then wake_from e s l'
        else wake_from e (unqueue s i) l'
  end.

Definition wake_next (e : env) (s : bulkhead) : bulkhead := wake_from e s (waiters s).

Definition drop_waiter (e : env) (s : bulkhead) (i : nat) : bulkhead :=
  let s := unqueue s i in
  if w_woken (heap s i) then wake_next e (set_waiter s i (set_woken (heap s i) false)) else s.

(** The first loop of [_prune]: dead waiters leave, and their wakes are counted. *)
Fixpoint prune_from (e : env) (s : bulkhead) (lost : nat) (l : list nat) : bulkhead * nat :=
  match l with
  | [] => (s, lost)
  | i :: l' =>
      if is_dead e (heap s i) then
        let s := unqueue s i in
        if w_woken (heap s i)
        then prune_from e (set_waiter s i (set_woken (heap s i) false)) (S lost) l'
        else prune_from e s lost l'
      else prune_from e s lost l'
  end.

Definition prune (e : env) (s : bulkhead) : bulkhead :=
  let '(s, lost) := prune_from e s 0 (waiters s) in
  Nat.iter lost (wake_next e) s.

(** One turn of the loop of [_settle]. *)
Definition apply_pending (e : env) (s : bulkhead) (op : pending_op) : bulkhead :=
  match op with
  | SeatReturned =>
      if 0 <? taken s then wake_next e (set_taken s (taken s - 1)) else s
  | Leave i => drop_waiter e s i
  end.

(** What [_settle] does once the list is empty. *)
Definition settle_end (e : env) (s : bulkhead) : bulkhead :=
  match waiters s with [] => s | _ => prune e s end.

Definition take_seat_locked (s : bulkhead) : bulkhead * bool :=
  if taken s <? max_concurrent s then (set_taken s (taken s + 1), true) else (s, false).

Definition count_rejection_locked (now : Z) (s : bulkhead) : bulkhead :=
  Bulkhead (max_concurrent s) (taken s) (waiters s) (pending s) (rejected_count s + 1) (Some now)
    (heap s) (next_waiter s).

(** [_running_loop() is not None] makes a sync call's verdict immediate. *)
Definition sync_timeout (timeout : option Z) (on_loop : bool) : option Z :=
  if on_loop then None else timeout.

(** [get_state] *)
Record bulkhead_state := BulkheadState {
  bs_max_concurrent : Z;
  bs_active_count : Z;
  bs_waiting_count : Z;
  bs_rejected_count : Z;
  bs_last_rejection_time : option Z;
}.

Definition state_of (s : bulkhead) : bulkhead_state :=
  BulkheadState (max_concurrent s) (taken s) (Zlength (waiters s)) (rejected_count s) (last_rejection_time s).

Definition available_permits (b : bulkhead_state) : Z := Z.max 0 (bs_max_concurrent b - bs_active_count b).

(** What a critical section decides. *)
Inductive outcome :=
| Took
| Refused
| WaitOn (w : nat)
| Returned
| Abandoned
| Reported (st : bulkhead_state).

(** The critical section of [try_acquire] / [try_acquire_async]. *)
Definition try_section (e : env) (kind : waiter_kind) (timeout : option Z) (s : bulkhead) :
    bulkhead * outcome :=
  match take_seat_locked s with
  | (s, true) => (s, Took)
  | (s, false) =>
      let refuse := (count_rejection_locked (e_now e) s, Refused) in
      match timeout with
      | None => refuse
      | Some t =>
          if t <=? 0 then refuse
          else
            let i := next_waiter s in
            let s := Bulkhead (max_concurrent s) (taken s) (waiters s) (pending s) (rejected_count s)
                       (last_rejection_time s)
                       (λ j, if decide (j = i) then new_waiter kind (e_now e + t) else heap s j) (S i) in
            (enqueue s i, WaitOn i)
      end
  end.

(** The critical section of [_wait_as_thread] / [_wait_as_coroutine]. *)
Definition resume_section (e : env) (i : nat) (s : bulkhead) : bulkhead * outcome :=
  match take_seat_locked s with
  | (s, true) => (unqueue s i, Took)
  | (s, false) =>
      if e_now e <? w_deadline (heap s i) then (requeue s i, WaitOn i)
      else (count_rejection_locked (e_now e) (drop_waiter e s i), Refused)
  end.

(** ** The state under the lock *)


(** The queue is the set of waiters flagged as queued, and a queued thread that
    is not woken has its token locked (so that waking it is a valid release). *)
Record rep (s : bulkhead) : Prop := {
  rep_nodup : NoDup (waiters s);
  rep_queued : ∀ i, i ∈ waiters s ↔ w_queued (heap s i) = true;
  rep_token : ∀ i, w_kind (heap s i) = ThreadWaiter → i ∈ waiters s → w_woken (heap s i) = false →
    w_signal (heap s i) = false;
  rep_bound : ∀ i, i ∈ waiters s → (i < next_waiter s)%nat;
}.

(** A wake that was given can be received. *)
Definition lit (w : waiter) : Prop := w_woken w = true → w_signal w = true.

(** The kind and the deadline of a waiter are for its life. *)
Definition same_life (w w' : waiter) : Prop := w_kind w' = w_kind w ∧ w_deadline w' = w_deadline w.

Lemma same_life_dead e w w' : same_life w w' → is_dead e w' = is_dead e w.
Proof. intros [H1 H2]. unfold is_dead. by rewrite H1, H2. Qed.

(** What every operation on waiters preserves; only waiters in [gone] leave the queue. *)
Record evolve (gone : nat → Prop) (s s' : bulkhead) : Prop := {
  ev_rep : rep s';
  ev_taken : taken s' = taken s;
  ev_max : max_concurrent s' = max_concurrent s;
  ev_pending : pending s' = pending s;
  ev_next : next_waiter s' = next_waiter s;
  ev_queue : ∀ i, i ∈ waiters s' → i ∈ waiters s;
  ev_lit : ∀ i, lit (heap s i) → lit (heap s' i);
  ev_life : ∀ i, same_life (heap s i) (heap s' i);
  ev_keep : ∀ i, i ∈ waiters s → gone i ∨ i ∈ waiters s';
}.

Lemma evolve_refl gone s : rep s → evolve gone s s.
Proof. split; auto. by split. Qed.

Lemma evolve_trans gone s1 s2 s3 : evolve gone s1 s2 → evolve gone s2 s3 → evolve gone s1 s3.
Proof.
  intros [] []. split; try congruence; auto.
  - intros i. destruct (ev_life0 i), (ev_life1 i). split; congruence.
  - intros i Hi. destruct (ev_keep0 i Hi); auto.
Qed.

Lemma remove_first_elem i j l : NoDup l → j ∈ remove_first i l ↔ j ∈ l ∧ j ≠ i.
Proof.
  induction l as [|k l IH]; simpl; [set_solver|]. intros [Hk Hl]%NoDup_cons.
  case_decide; [set_solver|]. rewrite !elem_of_cons, IH by done. set_solver.
Qed.

Lemma remove_first_nodup i l : NoDup l → NoDup (remove_first i l).
Proof.
  induction l as [|k l IH]; simpl; [done|]. intros [Hk Hl]%NoDup_cons. case_decide; [done|].
  apply NoDup_cons. split; [|auto]. rewrite remove_first_elem by done. set_solver.
Qed.

Lemma remove_first_count (p : nat → bool) i l :
  NoDup l → i ∈ l → countb p (remove_first i l) = countb p l - (if p i then 1 else 0).
Proof.
  induction l as [|k l IH]; [set_solver|]. intros [Hk Hl]%NoDup_cons Hi. cbn [remove_first].
  rewrite countb_cons. case_decide as Hd; [subst; destruct (p i); lia|].
  rewrite countb_cons, IH by set_solver. lia.
Qed.

(** *** Unqueueing *)

Lemma unqueue_flags s i j :
  w_kind (heap (unqueue s i) j) = w_kind (heap s j) ∧ w_deadline (heap (unqueue s i) j) = w_deadline (heap s j) ∧
  w_woken (heap (unqueue s i) j) = w_woken (heap s j) ∧ w_signal (heap (unqueue s i) j) = w_signal (heap s j) ∧
  (w_queued (heap (unqueue s i) j) = if decide (j = i) then false else w_queued (heap s j)).
Proof.
  unfold unqueue. destruct (w_queued (heap s i)) eqn:Hq; cbn [heap set_waiters set_waiter].
  - case_decide; by subst.
  - split_and!; try done. case_decide; by subst.
Qed.

Lemma unqueue_waiters s i : rep s → ∀ j, j ∈ waiters (unqueue s i) ↔ j ∈ waiters s ∧ j ≠ i.
Proof.
  intros [Hn Hq _ _] j. unfold unqueue. destruct (w_queued (heap s i)) eqn:E; cbn [waiters set_waiters].
  - by apply remove_first_elem.
  - split; [|by intros [? _]]. intros Hj. split; [done|]. intros ->. apply Hq in Hj. congruence.
Qed.

Lemma unqueue_evolve (gone : nat → Prop) s i : rep s → gone i → evolve gone s (unqueue s i).
Proof.
  intros Hrep Hgone. pose proof (unqueue_waiters s i Hrep) as Hw. pose proof (unqueue_flags s i) as Hf.
  destruct Hrep as [Hn Hq Ht Hb].
  assert (Hsame : max_concurrent (unqueue s i) = max_concurrent s ∧ taken (unqueue s i) = taken s ∧
    pending (unqueue s i) = pending s ∧ next_waiter (unqueue s i) = next_waiter s) by (unfold unqueue; by case_match).
  destruct Hsame as (H1 & H2 & H3 & H4). split; try done.
  - split.
    + unfold unqueue. case_match; [by apply remove_first_nodup|done].
    + intros j. rewrite Hw, Hq. destruct (Hf j) as (_ & _ & _ & _ & ->). case_decide; naive_solver.
    + intros j. rewrite Hw. destruct (Hf j) as (-> & _ & -> & -> & _). intros ? [? _]. auto.
    + intros j. rewrite Hw, H4. intros [? _]. auto.
  - intros j. rewrite Hw. by intros [? _].
  - intros j. unfold lit. by destruct (Hf j) as (_ & _ & -> & -> & _).
  - intros j. by destruct (Hf j) as (? & ? & _).
  - intros j Hj. destruct (decide (j = i)) as [->|]; [by left|right; by apply Hw].
Qed.

(** *** Counting the waiters that can run *)

Section under_lock.
  (** Which event loops run; a stopped loop cannot act on a wake. *)
  Context (runs : nat → bool).

Definition can_run (w : waiter) : bool :=
  match w_kind w with ThreadWaiter => true | LoopWaiter l => runs l end.

Definition steady (e : env) : Prop := ∀ l, e_running e l = runs l.

(** The queued waiters that can run, and those of them that are woken. *)
Definition is_live (s : bulkhead) (i : nat) : bool := can_run (heap s i).
Definition is_ready (s : bulkhead) (i : nat) : bool := can_run (heap s i) && w_woken (heap s i).
Definition nwoken (s : bulkhead) : Z := countb (is_ready s) (waiters s).
Definition nqueued (s : bulkhead) : Z := countb (is_live s) (waiters s).

Lemma unqueue_counts s i :
  rep s →
  nqueued (unqueue s i) = nqueued s - (if w_queued (heap s i) && is_live s i then 1 else 0) ∧
  nwoken (unqueue s i) = nwoken s - (if w_queued (heap s i) && is_ready s i then 1 else 0).
Proof.
  intros [Hn Hq _ _]. unfold nwoken, nqueued.
  rewrite (countb_ext (is_ready (unqueue s i)) (is_ready s)), (countb_ext (is_live (unqueue s i)) (is_live s)).
  2-3: intros j _; unfold is_ready, is_live, can_run; destruct (unqueue_flags s i j) as (Hk & _ & Hw & _); by rewrite ?Hk, ?Hw.
  unfold unqueue. destruct (w_queued (heap s i)) eqn:E; cbn [waiters set_waiters andb]; [|lia].
  assert (i ∈ waiters s) by (by apply Hq). rewrite !remove_first_count by done. done.
Qed.

(** *** Changing a waiter's wake *)

Lemma set_waiter_flags s i w j :
  heap (set_waiter s i w) j = if decide (j = i) then w else heap s j.
Proof. done. Qed.

(** Replacing a waiter by one that differs in its wake only. *)
Lemma set_waiter_evolve gone s i w :
  rep s → same_life (heap s i) w → w_queued w = w_queued (heap s i) →
  (w_kind w = ThreadWaiter → i ∈ waiters s → w_woken w = false → w_signal w = false) →
  lit w → evolve gone s (set_waiter s i w).
Proof.
  intros [Hn Hq Ht Hb] Hk Hqw Htw Hl. split; try done; [| | |by right].
  - split; [done| |  |done].
    + intros j. rewrite set_waiter_flags. case_decide; [subst; by rewrite Hqw|done].
    + intros j. rewrite set_waiter_flags. case_decide; [subst; done|apply Ht].
  - intros j. rewrite set_waiter_flags. by case_decide.
  - intros j. rewrite set_waiter_flags. case_decide; by subst.
Qed.

Lemma set_waiter_counts s i w :
  rep s → w_kind w = w_kind (heap s i) → nqueued (set_waiter s i w) = nqueued s ∧
  nwoken (set_waiter s i w) =
    nwoken s + (if w_queued (heap s i) && can_run w
                then (if w_woken w then 1 else 0) - (if w_woken (heap s i) then 1 else 0) else 0).
Proof.
  intros [Hn Hq _ _] Hkind. assert (Hc : can_run w = can_run (heap s i)) by (unfold can_run; by rewrite Hkind).
  unfold nwoken, nqueued. cbn [waiters set_waiter]. split.
  { apply countb_ext. intros j _. unfold is_live. rewrite set_waiter_flags. case_decide; by subst. }
  destruct (w_queued (heap s i)) eqn:E.
  - assert (Hi : i ∈ waiters s) by (by apply Hq). clear Hq. induction (waiters s) as [|k l IH]; [set_solver|].
    apply NoDup_cons in Hn as [Hk Hn]. rewrite !countb_cons. unfold is_ready at 1 3. rewrite set_waiter_flags.
    apply elem_of_cons in Hi as [<-|Hi].
    + rewrite decide_True by done. rewrite (countb_ext (is_ready (set_waiter s i w)) (is_ready s)).
      { rewrite Hc. destruct (can_run (heap s i)), (w_woken w), (w_woken (heap s i)); cbn [andb]; lia. }
      intros j Hj. unfold is_ready. rewrite set_waiter_flags, decide_False; [done|]. intros ->. done.
    + rewrite decide_False by (intros ->; done). specialize (IH Hn Hi). lia.
  - rewrite Z.add_0_r. apply countb_ext. intros j Hj. unfold is_ready. rewrite set_waiter_flags, decide_False; [done|].
    intros ->. apply Hq in Hj. congruence.
Qed.

(** *** Waking *)

(** A wake is given, and it reached its waiter exactly if that can run; or the
    waiter's loop is closed. *)
Lemma wake_spec e w :
  w_woken w = false →
  ∃ w' reached, wake e w = (w', reached) ∧ same_life w w' ∧ w_queued w' = w_queued w ∧
    (w_woken w' = true ∧ w_signal w' = true ∧ (steady e → reached = can_run w) ∨
     w' = w ∧ reached = false ∧ is_dead e w = true).
Proof.
  intros Hw. unfold wake, same_life, is_dead, can_run. rewrite Hw. destruct (w_kind w) as [|l] eqn:Hk.
  - eexists _, _. split; [done|]. simpl. auto 7.
  - destruct (e_closed e l) eqn:Hc; eexists _, _; (split; [done|]); simpl; auto 8.
Qed.

(** A wake reaches one more waiter that can run, or all of those have one. *)
Definition woke_one (s s' : bulkhead) : Prop :=
  nqueued s' <= nqueued s ∧ nwoken s <= nwoken s' ∧
  (nwoken s + 1 <= nwoken s' ∨ nwoken s' = nqueued s').

Lemma all_woken s : (∀ i, i ∈ waiters s → w_woken (heap s i) = true) → nwoken s = nqueued s.
Proof.
  intros H. unfold nwoken, nqueued. apply countb_ext. intros i Hi. unfold is_ready, is_live.
  by rewrite (H i Hi), andb_true_r.
Qed.

Lemma wake_from_spec (gone : nat → Prop) e l s :
  rep s → NoDup l → (∀ i, i ∈ l → i ∈ waiters s) →
  (∀ i, i ∈ waiters s → i ∉ l → w_woken (heap s i) = true) →
  (∀ i, is_dead e (heap s i) = true → gone i) →
  evolve gone s (wake_from e s l) ∧ (steady e → woke_one s (wake_from e s l)).
Proof.
  revert s. induction l as [|i l IH]; intros s Hrep Hnd Hin Hdone Hgone; cbn [wake_from].
  { split; [by apply evolve_refl|]. intros _. split_and!; [lia|lia|right]. apply all_woken. intros i Hi.
    apply Hdone; set_solver. }
  apply NoDup_cons in Hnd as [Hi Hnd]. assert (Hq : w_queued (heap s i) = true).
  { apply (rep_queued _ Hrep), Hin. by left. }
  destruct (w_woken (heap s i)) eqn:Hw.
  { apply IH; [done|done|set_solver| |done]. intros j Hj Hjl. destruct (decide (j = i)) as [->|]; [done|].
    apply Hdone; [done|set_solver]. }
  destruct (wake_spec e (heap s i) Hw) as (w' & reached & -> & Hk & Hqw & [(Hw' & Hs & Hreach)|(-> & -> & Hdead)]).
  - (* the waiter has its wake *)
    assert (Hev : evolve gone s (set_waiter s i w')).
    { apply set_waiter_evolve; [done..| |].
      - intros _ _ Hw0. congruence.
      - intros _. done. }
    destruct (set_waiter_counts s i w' Hrep (proj1 Hk)) as [Hc1 Hc2]. rewrite Hq, Hw, Hw' in Hc2. cbn [andb] in Hc2.
    assert (Hcr : can_run w' = can_run (heap s i)) by (unfold can_run; by rewrite (proj1 Hk)).
    destruct reached.
    { split; [done|]. intros Hst. rewrite Hcr, <-(Hreach Hst) in Hc2. split_and!; [lia|lia|left; lia]. }
    rewrite set_waiter_flags, decide_True, Hw' by done.
    destruct (IH (set_waiter s i w')) as [Hev' Hone].
    + by destruct Hev.
    + done.
    + cbn [waiters set_waiter]. set_solver.
    + intros j Hj Hjl. rewrite set_waiter_flags. case_decide; [done|]. apply Hdone; [done|set_solver].
    + intros j Hj. apply Hgone. by rewrite (same_life_dead e _ _ (ev_life _ _ _ Hev j)) in Hj.
    + split; [by eapply evolve_trans|]. intros Hst. rewrite Hcr, <-(Hreach Hst) in Hc2.
      destruct (Hone Hst) as (H1 & H2 & H3). split_and!; lia.
  - (* its loop is closed *)
    rewrite set_waiter_flags, decide_True, Hw by done.
    set (s1 := set_waiter s i (heap s i)).
    assert (Hs1 : ∀ j, heap s1 j = heap s j) by (intros j; unfold s1; rewrite set_waiter_flags; by case_decide; subst).
    assert (Hev1 : evolve gone s s1).
    { apply set_waiter_evolve; [done..|apply (rep_token _ Hrep)|]. intros ?. congruence. }
    destruct (set_waiter_counts s i (heap s i) Hrep eq_refl) as [Hc1 Hc2]. fold s1 in Hc1, Hc2. rewrite Hq, Hw in Hc2.
    pose proof (unqueue_evolve gone s1 i (ev_rep _ _ _ Hev1) (Hgone i Hdead)) as Hev2.
    destruct (unqueue_counts s1 i (ev_rep _ _ _ Hev1)) as [Hd1 Hd2]. unfold is_live, is_ready in Hd1, Hd2.
    rewrite Hs1, Hq in Hd1. rewrite Hs1, Hq, Hw, andb_false_r in Hd2.
    pose proof (unqueue_waiters s1 i (ev_rep _ _ _ Hev1)) as Hu. cbn [waiters set_waiter] in Hu.
    destruct (IH (unqueue s1 i)) as [Hev' Hone].
    + by destruct Hev2.
    + done.
    + intros j Hj. apply Hu. cbn [waiters]. set_solver.
    + intros j [Hj Hji]%Hu Hjl. destruct (unqueue_flags s1 i j) as (_ & _ & -> & _). rewrite Hs1.
      apply Hdone; [done|set_solver].
    + intros j Hj. apply Hgone. rewrite (same_life_dead e _ _ (ev_life _ _ _ Hev2 j)) in Hj. by rewrite Hs1 in Hj.
    + split; [by do 2 (eapply evolve_trans; [done|])|]. intros Hst. destruct (Hone Hst) as (H1 & H2 & H3).
      split_and!; destruct (can_run (heap s i)); cbn [andb] in *; lia.
Qed.

Lemma wake_next_spec (gone : nat → Prop) e s :
  rep s → (∀ i, is_dead e (heap s i) = true → gone i) →
  evolve gone s (wake_next e s) ∧ (steady e → woke_one s (wake_next e s)).
Proof. intros Hrep. apply wake_from_spec; [done|by destruct Hrep|done|done]. Qed.

(** Enough wakes are out: one per free seat, or one per waiter that can run. *)
Definition served (s : bulkhead) : Prop :=
  Z.min (max_concurrent s - taken s) (nqueued s) <= nwoken s.

(** A waiter leaves the queue: its wake is forgotten, and it may leave others short. *)
Lemma leave_spec (gone : nat → Prop) s i :
  rep s → gone i →
  let s1 := unqueue s i in
  evolve gone s s1 ∧ i ∉ waiters s1 ∧
  if w_woken (heap s1 i) then
    let s2 := set_waiter s1 i (set_woken (heap s1 i) false) in
    evolve gone s s2 ∧ i ∉ waiters s2 ∧ nqueued s2 <= nqueued s ∧ nwoken s <= nwoken s2 + 1
  else nqueued s1 <= nqueued s ∧ nwoken s <= nwoken s1.
Proof.
  intros Hrep Hgone s1. pose proof (unqueue_evolve gone s i Hrep Hgone) as Hev.
  destruct (unqueue_counts s i Hrep) as [Hc1 Hc2]. pose proof (unqueue_waiters s i Hrep i) as Hni.
  destruct (unqueue_flags s i i) as (Hk & _ & Hw & _ & Hq). rewrite decide_True in Hq by done.
  fold s1 in Hev, Hc1, Hc2, Hni, Hk, Hw, Hq. pose proof (ev_rep _ _ _ Hev) as Hrep1. unfold is_ready, is_live in *.
  assert (Hin : i ∉ waiters s1) by tauto. split_and!; [done|done|]. destruct (w_woken (heap s1 i)) eqn:Hw1.
  - cbv beta iota zeta. set (s2 := set_waiter s1 i _). assert (Hev2 : evolve gone s1 s2).
    { apply set_waiter_evolve; [done|done|done| |done]. by intros _ ?. }
    destruct (set_waiter_counts s1 i (set_woken (heap s1 i) false) Hrep1 eq_refl) as [Hd1 Hd2]. rewrite Hq in Hd2.
    fold s2 in Hd1, Hd2. cbn [andb] in Hd2. split_and!; [by eapply evolve_trans|done| |];
      destruct (w_queued (heap s i)), (can_run (heap s i)), (w_woken (heap s i)); cbn [andb] in *; lia.
  - rewrite <-Hw in Hc2. destruct (w_queued (heap s i)), (can_run (heap s i)); cbn [andb] in *; lia.
Qed.

Lemma drop_waiter_spec (gone : nat → Prop) e s i :
  rep s → gone i → (∀ j, is_dead e (heap s j) = true → gone j) →
  evolve gone s (drop_waiter e s i) ∧ (steady e → served s → served (drop_waiter e s i)) ∧
  i ∉ waiters (drop_waiter e s i).
Proof.
  intros Hrep Hi Hgone. unfold drop_waiter. destruct (leave_spec gone s i Hrep Hi) as (Hev & Hni & Hl).
  set (s1 := unqueue s i) in *. destruct (w_woken (heap s1 i)) eqn:Hw1.
  - destruct Hl as (Hev2 & Hni2 & Hl1 & Hl2). set (s2 := set_waiter s1 i _) in *.
    destruct (wake_next_spec gone e s2 (ev_rep _ _ _ Hev2)) as [Hev3 Hone].
    { intros j Hj. apply Hgone. by rewrite (same_life_dead e _ _ (ev_life _ _ _ Hev2 j)) in Hj. }
    pose proof (evolve_trans _ _ _ _ Hev2 Hev3) as Hall. split_and!; [done| |].
    + intros Hst. destruct (Hone Hst) as (H1 & H2 & H3). unfold served.
      rewrite (ev_taken _ _ _ Hall), (ev_max _ _ _ Hall). lia.
    + by intros ?%(ev_queue _ _ _ Hev3).
  - destruct Hl as [Hl1 Hl2]. split_and!; [done| |done]. intros _. unfold served.
    rewrite (ev_taken _ _ _ Hev), (ev_max _ _ _ Hev). lia.
Qed.

Lemma nwoken_le s : nwoken s <= nqueued s.
Proof. apply countb_mono. intros i _. unfold is_ready, is_live. by destruct (can_run (heap s i)). Qed.

Lemma wake_iter_spec (gone : nat → Prop) e n s :
  rep s → (∀ j, is_dead e (heap s j) = true → gone j) → let s' := Nat.iter n (wake_next e) s in
  evolve gone s s' ∧
  (steady e → nqueued s' <= nqueued s ∧ (nwoken s + Z.of_nat n <= nwoken s' ∨ nwoken s' = nqueued s')).
Proof.
  intros Hrep Hgone. induction n as [|n (Hev & H1)]; simpl.
  - split; [by apply evolve_refl|]. intros _. split; [lia|left; lia].
  - destruct (wake_next_spec gone e (Nat.iter n (wake_next e) s) (ev_rep _ _ _ Hev)) as [Hev' H3].
    { intros j Hj. apply Hgone. by rewrite (same_life_dead e _ _ (ev_life _ _ _ Hev j)) in Hj. }
    pose proof (nwoken_le (wake_next e (Nat.iter n (wake_next e) s))).
    split; [by eapply evolve_trans|]. intros Hst. destruct (H1 Hst), (H3 Hst) as (? & ? & ?). lia.
Qed.

(** Dead waiters leave; the wakes they had are counted. *)
Lemma prune_from_spec (gone : nat → Prop) e l s lost :
  rep s → (∀ j, is_dead e (heap s j) = true → gone j) →
  let '(s', lost') := prune_from e s lost l in
  evolve gone s s' ∧ (lost <= lost')%nat ∧ nqueued s' <= nqueued s ∧
  nwoken s <= nwoken s' + Z.of_nat (lost' - lost).
Proof.
  revert s lost. induction l as [|i l IH]; intros s lost Hrep Hgone; cbn [prune_from].
  { split_and!; [by apply evolve_refl|lia..]. }
  destruct (is_dead e (heap s i)) eqn:Hd; [|by apply IH].
  destruct (leave_spec gone s i Hrep (Hgone i Hd)) as (Hev & Hni & Hl). set (s1 := unqueue s i) in *.
  assert (Hlater : ∀ s2, evolve gone s s2 → ∀ j, is_dead e (heap s2 j) = true → gone j).
  { intros s2 He j Hj. apply Hgone. by rewrite (same_life_dead e _ _ (ev_life _ _ _ He j)) in Hj. }
  destruct (w_woken (heap s1 i)) eqn:Hw1.
  - destruct Hl as (Hev2 & Hni2 & Hl1 & Hl2).
    specialize (IH _ (S lost) (ev_rep _ _ _ Hev2) (Hlater _ Hev2)). destruct (prune_from _ _ _ _) as [s' lost'].
    destruct IH as (H1 & H2 & H3 & H4). split_and!; [by eapply evolve_trans|lia..].
  - destruct Hl as [Hl1 Hl2].
    specialize (IH s1 lost (ev_rep _ _ _ Hev) (Hlater _ Hev)). destruct (prune_from _ _ _ _) as [s' lost'].
    destruct IH as (H1 & H2 & H3 & H4). split_and!; [by eapply evolve_trans|lia..].
Qed.

Lemma prune_spec (gone : nat → Prop) e s :
  rep s → (∀ j, is_dead e (heap s j) = true → gone j) →
  evolve gone s (prune e s) ∧ (steady e → served s → served (prune e s)).
Proof.
  intros Hrep Hgone. unfold prune. pose proof (prune_from_spec gone e (waiters s) s 0 Hrep Hgone) as Hp.
  destruct (prune_from _ _ _ _) as [s' lost]. destruct Hp as (Hev & _ & H2 & H3).
  destruct (wake_iter_spec gone e lost s' (ev_rep _ _ _ Hev)) as (Hev' & H4).
  { intros j Hj. apply Hgone. by rewrite (same_life_dead e _ _ (ev_life _ _ _ Hev j)) in Hj. }
  pose proof (evolve_trans _ _ _ _ Hev Hev') as Hall. split; [done|]. intros Hst. destruct (H4 Hst).
  unfold served. rewrite (ev_taken _ _ _ Hall), (ev_max _ _ _ Hall). rewrite Nat.sub_0_r in H3. lia.
Qed.

Lemma settle_end_spec (gone : nat → Prop) e s :
  rep s → (∀ j, is_dead e (heap s j) = true → gone j) →
  evolve gone s (settle_end e s) ∧ (steady e → served s → served (settle_end e s)).
Proof.
  intros Hrep Hgone. unfold settle_end.
  destruct (waiters s) eqn:E; [split; [by apply evolve_refl|done]|by apply prune_spec].
Qed.
End under_lock.
