(* ===== verification/BulkheadProtocol.v ===== *)
(** The lock protocol of the semaphore bulkhead and its theorems: callers are
    threads and coroutines, each at a point of [_enter], [_exit],
    [_apply_pending_nonblocking] or its waiting loop, and any of them may take
    the next step.  Asynchronous exceptions are modelled where the code handles
    them, at the wait ([Leave]); not inside [_settle]. *)
From S2P Require Import Prelude Bulkhead.

(** ** The protocol *)

(** What a caller entered the lock for. *)
Inductive request :=
| QTry (kind : waiter_kind) (timeout : option Z)
| QResume (w : nat)
| QState.

Definition section (e : env) (q : request) (s : bulkhead) : bulkhead * outcome :=
  match q with
  | QTry kind timeout => try_section e kind timeout s
  | QResume w => resume_section e w s
  | QState => (s, Reported (state_of s))
  end.

(** Where a caller is. *)
Inductive pc :=
| Idle
| Enter (q : request)          (* [_enter]: blocked on the lock *)
| EnterSettle (q : request)    (* [_enter]: settling, lock held *)
| ExitSettle (o : outcome)     (* [_exit]: settling after the section, lock held *)
| Settling (o : outcome)       (* [_apply_pending_nonblocking]: settling, lock held *)
| Unlocking (o : outcome)      (* saw the list empty, about to unlock *)
| Recheck (o : outcome)        (* unlocked, about to test the list *)
| TryLock (o : outcome)        (* saw it non-empty, about to try the lock *)
| Waiting (w : nat).           (* blocked on its token or future *)

(** Where a caller goes once the list is dealt with. *)
Definition finish (o : outcome) : pc := match o with WaitOn w => Waiting w | _ => Idle end.

(** [held] counts the seats callers hold: granted and not yet given back. *)
Record config := Config {
  shared : bulkhead;
  owner : option nat;
  pcs : nat → pc;
  held : Z;
}.

Definition config_init (max : Z) : config := Config (bulkhead_init max) None (λ _, Idle) 0.

Definition at_pc (p : nat → pc) (c : nat) (x : pc) : nat → pc := λ d, if decide (d = c) then x else p d.

(** Waking up from the wait: a thread that got its token has locked it again; a
    coroutine's future may have been cancelled by the timeout. *)
Definition after_wait (w : waiter) (cancelled : bool) : waiter :=
  match w_kind w with
  | ThreadWaiter => set_signal w false
  | LoopWaiter _ => set_signal w (w_signal w || cancelled)
  end.

Section protocol.
  (** The moments of the history: the surroundings in which its steps run. *)
  Context (moment : env → Prop).

Inductive step (c : nat) : config → config → Prop :=
| step_try s l p h timeout on_loop :
    p c = Idle →
    step c (Config s l p h) (Config s l (at_pc p c (Enter (QTry ThreadWaiter (sync_timeout timeout on_loop)))) h)
| step_try_async s l p h timeout loop :
    p c = Idle →
    step c (Config s l p h) (Config s l (at_pc p c (Enter (QTry (LoopWaiter loop) timeout))) h)
| step_get_state s l p h :
    p c = Idle → step c (Config s l p h) (Config s l (at_pc p c (Enter QState)) h)
| step_lock s p h q :
    p c = Enter q → step c (Config s None p h) (Config s (Some c) (at_pc p c (EnterSettle q)) h)
| step_apply e s l p h op ops x :
    p c = x → (∃ q, x = EnterSettle q) ∨ (∃ o, x = ExitSettle o ∨ x = Settling o) →
    pending s = op :: ops → moment e →
    step c (Config s l p h) (Config (apply_pending e (set_pending s ops) op) l (at_pc p c x) h)
| step_section e s l p h q :
    p c = EnterSettle q → pending s = [] → moment e →
    step c (Config s l p h)
      (let '(s', o) := section e q (settle_end e s) in
       Config s' l (at_pc p c (ExitSettle o)) (match o with Took => h + 1 | _ => h end))
| step_settled e s l p h o :
    p c = ExitSettle o ∨ p c = Settling o → pending s = [] → moment e →
    step c (Config s l p h) (Config (settle_end e s) l (at_pc p c (Unlocking o)) h)
| step_unlock s l p h o :
    p c = Unlocking o → step c (Config s l p h) (Config s None (at_pc p c (Recheck o)) h)
| step_recheck_empty s l p h o :
    p c = Recheck o → pending s = [] → step c (Config s l p h) (Config s l (at_pc p c (finish o)) h)
| step_recheck_more s l p h o :
    p c = Recheck o → pending s ≠ [] → step c (Config s l p h) (Config s l (at_pc p c (TryLock o)) h)
| step_trylock s p h o :
    p c = TryLock o → step c (Config s None p h) (Config s (Some c) (at_pc p c (Settling o)) h)
| step_trylock_busy s d p h o :
    p c = TryLock o → step c (Config s (Some d) p h) (Config s (Some d) (at_pc p c (finish o)) h)
| step_wake_up s l p h w cancelled :
    p c = Waiting w →
    step c (Config s l p h)
      (Config (set_waiter s w (after_wait (heap s w) cancelled)) l (at_pc p c (Enter (QResume w))) h)
| step_interrupted s l p h w :
    p c = Waiting w →
    step c (Config s l p h) (Config (set_pending s (pending s ++ [Leave w])) l (at_pc p c (Recheck Abandoned)) h)
| step_release s l p h :
    p c = Idle → 0 < h →
    step c (Config s l p h)
      (Config (set_pending s (pending s ++ [SeatReturned])) l (at_pc p c (Recheck Returned)) (h - 1)).

Definition any_step (cf cf' : config) : Prop := ∃ c, step c cf cf'.
Definition reachable (max : Z) (cf : config) : Prop := rtc any_step (config_init max) cf.

(** ** What holds in every reachable configuration *)

Definition is_seat (op : pending_op) : bool := match op with SeatReturned => true | Leave _ => false end.
Definition returned (s : bulkhead) : Z := countb is_seat (pending s).

Definition holds_lock (x : pc) : bool :=
  match x with EnterSettle _ | ExitSettle _ | Settling _ | Unlocking _ => true | _ => false end.

(** The caller will look at the pending list again. *)
Definition looks (x : pc) : bool :=
  match x with Recheck _ | TryLock _ => true | _ => holds_lock x end.

Definition outcome_waiter (o : outcome) : option nat := match o with WaitOn w => Some w | _ => None end.

(** The waiter of a caller that is parked on it, or on its way there. *)
Definition parked (x : pc) : option nat :=
  match x with
  | ExitSettle o | Settling o | Unlocking o | Recheck o | TryLock o => outcome_waiter o
  | Waiting w => Some w
  | _ => None
  end.

Definition pc_waiter (x : pc) : option nat :=
  match x with Enter (QResume w) | EnterSettle (QResume w) => Some w | _ => parked x end.

(** In no moment of the history is the waiter past its deadline or its loop closed. *)
Definition immortal (w : waiter) : Prop := ∀ e, moment e → is_dead e w = false.

Lemma immortal_same w w' : same_life w w' → immortal w' → immortal w.
Proof. intros Hl Hi e He. by rewrite <-(same_life_dead e _ _ Hl), Hi. Qed.

Section invariant.
  (** Which event loops run, if that never changes in the history. *)
  Context (runs : nat → bool).

Definition all_steady : Prop := ∀ e, moment e → steady runs e.

Record bulkhead_ok (s : bulkhead) : Prop := {
  bo_rep : rep s;
  bo_served : all_steady → served runs s;
  bo_taken : 0 <= taken s <= max_concurrent s;
}.

(** [co_called]: a queued waiter has a caller, or its caller left and said so;
    [co_queued]: a caller that waits is queued, unless it was found dead. *)
Record config_ok (max : Z) (cf : config) : Prop := {
  co_shared : bulkhead_ok (shared cf);
  co_max : max_concurrent (shared cf) = max;
  co_seats : held cf + returned (shared cf) = taken (shared cf);
  co_held : 0 <= held cf;
  co_owner : ∀ c, holds_lock (pcs cf c) = true ↔ owner cf = Some c;
  co_seen : pending (shared cf) ≠ [] → ∃ c, looks (pcs cf c) = true;
  co_mine : ∀ c d w, pc_waiter (pcs cf c) = Some w → pc_waiter (pcs cf d) = Some w → c = d;
  co_bound : ∀ c w, pc_waiter (pcs cf c) = Some w → (w < next_waiter (shared cf))%nat;
  co_lit : ∀ c w, parked (pcs cf c) = Some w → lit (heap (shared cf) w);
  co_called : ∀ w, w ∈ waiters (shared cf) → (∃ c, pc_waiter (pcs cf c) = Some w) ∨ Leave w ∈ pending (shared cf);
  co_queued : ∀ c w, parked (pcs cf c) = Some w → immortal (heap (shared cf) w) → w ∈ waiters (shared cf);
  co_left : ∀ w, Leave w ∈ pending (shared cf) →
    (w < next_waiter (shared cf))%nat ∧ ∀ c, pc_waiter (pcs cf c) ≠ Some w;
}.

(** A change of the compartment that keeps its invariant and everyone's wakes;
    waiters in [gone] may leave the queue and those in [came] may join it. *)
Record moves (gone came : nat → Prop) (s s' : bulkhead) : Prop := {
  mv_ok : bulkhead_ok s';
  mv_max : max_concurrent s' = max_concurrent s;
  mv_pending : pending s' = pending s;
  mv_next : (next_waiter s <= next_waiter s')%nat;
  mv_lit : ∀ i, (i < next_waiter s)%nat → lit (heap s i) → lit (heap s' i);
  mv_life : ∀ i, (i < next_waiter s)%nat → same_life (heap s i) (heap s' i);
  mv_keep : ∀ i, i ∈ waiters s → gone i ∨ i ∈ waiters s';
  mv_queue : ∀ i, i ∈ waiters s' → came i ∨ i ∈ waiters s;
}.

Lemma moves_refl gone came s : bulkhead_ok s → moves gone came s s.
Proof. intros. split; auto. by split. Qed.

Lemma moves_trans gone came s1 s2 s3 : moves gone came s1 s2 → moves gone came s2 s3 → moves gone came s1 s3.
Proof.
  intros [] []. split; try congruence; [lia| | | |].
  - intros. auto with lia.
  - intros i Hi. destruct (mv_life0 i Hi), (mv_life1 i ltac:(lia)). split; congruence.
  - intros i Hi. destruct (mv_keep0 i Hi); auto.
  - intros i Hi. destruct (mv_queue1 i Hi); auto.
Qed.

Lemma moves_mono (gone came gone' came' : nat → Prop) s s' :
  (∀ i, gone i → gone' i) → (∀ i, came i → came' i) → moves gone came s s' → moves gone' came' s s'.
Proof.
  intros Hg Hc []. split; auto.
  - intros i Hi. destruct (mv_keep0 i Hi); auto.
  - intros i Hi. destruct (mv_queue0 i Hi); auto.
Qed.

Lemma evolve_moves gone came e s s' :
  bulkhead_ok s → moment e → evolve gone s s' → (steady runs e → served runs s → served runs s') →
  moves gone came s s' ∧ taken s' = taken s.
Proof.
  intros [? ? ?] He [] Hs. split; [|done]. split; try done; [|lia|auto..].
  split; [done| |congruence]. intros Hst. auto.
Qed.

(** A waiter found dead now, or [i]. *)
Definition dead_or (e : env) (s : bulkhead) (i : option nat) (j : nat) : Prop :=
  is_dead e (heap s j) = true ∨ i = Some j.

Definition nobody (i : nat) : Prop := False.

Lemma settle_end_moves e s :
  bulkhead_ok s → moment e → moves (dead_or e s None) nobody s (settle_end e s) ∧ taken (settle_end e s) = taken s.
Proof.
  intros Hok He. destruct (settle_end_spec runs (dead_or e s None) e s (bo_rep _ Hok)) as [Hev Hs].
  { intros j Hj. by left. }
  by apply (evolve_moves _ _ e).
Qed.

(** A full compartment serves nobody, so its queue may change freely. *)
Lemma served_full s : max_concurrent s <= taken s → served runs s.
Proof.
  intros. unfold served. pose proof (countb_nonneg (is_ready runs s) (waiters s)). unfold nwoken, nqueued.
  pose proof (countb_nonneg (is_live runs s) (waiters s)). lia.
Qed.

Lemma set_taken_rep s n : rep s → rep (set_taken s n).
Proof. by intros []. Qed.

(** The waiter a pending operation takes out of the queue. *)
Definition leaver (op : pending_op) : option nat := match op with SeatReturned => None | Leave i => Some i end.

Lemma apply_pending_moves e s op :
  bulkhead_ok s → moment e → (op = SeatReturned → 0 < taken s) →
  moves (dead_or e s (leaver op)) nobody s (apply_pending e s op) ∧
  taken (apply_pending e s op) = taken s - (if is_seat op then 1 else 0) ∧
  ∀ i, leaver op = Some i → i ∉ waiters (apply_pending e s op).
Proof.
  intros Hok He Hpos. pose proof Hok as [Hrep Hs Ht]. destruct op as [|i]; cbn [apply_pending is_seat leaver].
  - specialize (Hpos eq_refl). rewrite (proj2 (Z.ltb_lt _ _)) by done.
    destruct (wake_next_spec runs (dead_or e s None) e (set_taken s (taken s - 1)) (set_taken_rep s _ Hrep)) as [Hev Hone].
    { intros j Hj. by left. }
    pose proof (nwoken_le runs s). destruct Hev. split_and!; [|by simpl in *|done].
    cbn [max_concurrent taken pending next_waiter set_taken] in *.
    split; try done; auto; [|lia|intros j _; apply ev_life]. split; [done| |lia]. intros Hst. specialize (Hs Hst). destruct (Hone (Hst e He)) as (H1 & H2 & H3).
    unfold served in *. change (nwoken runs (set_taken s _)) with (nwoken runs s) in *.
    change (nqueued runs (set_taken s _)) with (nqueued runs s) in *. lia.
  - destruct (drop_waiter_spec runs (dead_or e s (Some i)) e s i Hrep) as (Hev & Hserved & Hni).
    { by right. }
    { intros j Hj. by left. }
    destruct (evolve_moves _ nobody e _ _ Hok He Hev Hserved) as [? ->]. split_and!; [done|lia|].
    by intros j [= <-].
Qed.

(** *** The critical sections *)

Lemma enqueue_rep s i :
  rep s → i ∉ waiters s → (i < next_waiter s)%nat →
  (w_kind (heap s i) = ThreadWaiter → w_woken (heap s i) = false → w_signal (heap s i) = false) →
  rep (enqueue s i).
Proof.
  intros [Hn Hq Ht Hb] Hi Hlt Htok. unfold enqueue. split; cbn [waiters heap set_waiters set_waiter next_waiter].
  - apply NoDup_app. split_and!; [done| |apply NoDup_singleton]. intros j Hj ->%list_elem_of_singleton. done.
  - intros j. rewrite elem_of_app, list_elem_of_singleton. case_decide; [subst; simpl; tauto|].
    rewrite Hq. tauto.
  - intros j Hk Hj Hw. rewrite elem_of_app, list_elem_of_singleton in Hj.
    case_decide; [subst; simpl in *; auto|]. apply Ht; tauto.
  - intros j [Hj| ->%list_elem_of_singleton]%elem_of_app; auto.
Qed.

Lemma enqueue_lit s i j : lit (heap s j) → lit (heap (enqueue s i) j).
Proof. unfold enqueue, lit. cbn [heap set_waiters set_waiter]. case_decide; by subst. Qed.

Lemma enqueue_life s i j : same_life (heap s j) (heap (enqueue s i) j).
Proof. unfold enqueue, same_life. cbn [heap set_waiters set_waiter]. case_decide; by subst. Qed.

Lemma enqueue_waiters s i j : j ∈ waiters (enqueue s i) ↔ j ∈ waiters s ∨ j = i.
Proof. unfold enqueue. cbn [waiters set_waiters set_waiter]. by rewrite elem_of_app, list_elem_of_singleton. Qed.

Lemma take_seat_moves gone came s :
  bulkhead_ok s →
  let '(s', got) := take_seat_locked s in
  if got then moves gone came s s' ∧ taken s' = taken s + 1 ∧ taken s < max_concurrent s ∧
              waiters s' = waiters s ∧ heap s' = heap s
  else s' = s ∧ taken s = max_concurrent s.
Proof.
  intros [Hrep Hs Ht]. unfold take_seat_locked.
  destruct (Z.ltb_spec (taken s) (max_concurrent s)); cbv beta iota; [|split; [done|lia]].
  split_and!; try done. split; try done; auto; [|by right..].
  split; cbn [taken max_concurrent set_taken]; [by apply set_taken_rep| |lia].
  intros Hst. specialize (Hs Hst). unfold served in *. change (nwoken runs (set_taken s _)) with (nwoken runs s).
  change (nqueued runs (set_taken s _)) with (nqueued runs s). cbn [taken max_concurrent set_taken]. lia.
Qed.

(** The verdict of a critical section and what it did. *)
Definition verdict (e : env) (s s' : bulkhead) (mine : option nat) (o : outcome) : Prop :=
  moves (dead_or e s mine) (λ i, o = WaitOn i) s s' ∧
  match o with
  | Took => taken s' = taken s + 1 ∧ ∀ w, mine = Some w → w ∉ waiters s'
  | Refused => taken s' = taken s ∧ taken s = max_concurrent s ∧ ∀ w, mine = Some w → w ∉ waiters s'
  | WaitOn w => taken s' = taken s ∧ taken s = max_concurrent s ∧ (w < next_waiter s')%nat ∧
      lit (heap s' w) ∧ w ∈ waiters s' ∧ (mine = Some w ∨ mine = None ∧ (next_waiter s <= w)%nat)
  | Reported st => s' = s ∧ st = state_of s ∧ mine = None
  | Returned | Abandoned => False
  end.

Lemma rejection_ok gone came now s : bulkhead_ok s → moves gone came s (count_rejection_locked now s).
Proof. intros [[] Hs Ht]. split; try done; auto; by right. Qed.

Lemma try_section_spec e kind timeout s :
  bulkhead_ok s → let '(s', o) := try_section e kind timeout s in verdict e s s' None o.
Proof.
  intros Hok. unfold try_section. pose proof (take_seat_moves (dead_or e s None) (λ i, Took = WaitOn i) s Hok) as Hts.
  destruct (take_seat_locked s) as [s1 []]; [by destruct Hts as (? & ? & _); split|].
  destruct Hts as [-> Hfull].
  assert (Hr : verdict e s (count_rejection_locked (e_now e) s) None Refused)
    by (split; [by apply rejection_ok|done]).
  destruct timeout as [t|]; [|done]. destruct (t <=? 0); [done|]. clear Hr.
  set (i := next_waiter s). set (s1 := Bulkhead.Bulkhead _ _ _ _ _ _ _ _).
  destruct Hok as [[Hn Hq Htok Hb] Hserved Ht].
  assert (Hi : i ∉ waiters s) by (intros Hi%Hb; unfold i in Hi; lia).
  assert (Hnew : heap s1 i = new_waiter kind (e_now e + t)) by (unfold s1; simpl; by rewrite decide_True).
  assert (Hold : ∀ j, j ≠ i → heap s1 j = heap s j) by (intros j Hj; unfold s1; simpl; by rewrite decide_False).
  assert (Hr1 : rep s1).
  { split; [done| | |].
    - intros j. destruct (decide (j = i)) as [->|]; [|rewrite Hold by done; apply Hq]. rewrite Hnew. naive_solver.
    - intros j. destruct (decide (j = i)) as [->|]; [done|]. rewrite Hold by done. apply Htok.
    - intros j Hj. specialize (Hb j Hj). unfold s1, i. simpl. lia. }
  assert (Hr2 : rep (enqueue s1 i)).
  { apply enqueue_rep; [done|done|unfold s1; simpl; unfold i; lia|]. by rewrite Hnew. }
  split; [split; [|done|done|simpl; unfold i; lia|..]|split_and!; [done|done|simpl; unfold i; lia|..]].
  - split; [done|intros _; apply served_full; simpl; lia|done].
  - intros j Hj Hl. apply enqueue_lit. rewrite Hold; [done|]. unfold i. lia.
  - intros j Hj. rewrite <-(Hold j) by (unfold i; lia). apply enqueue_life.
  - intros j Hj. right. apply enqueue_waiters. by left.
  - intros j [Hj| ->]%enqueue_waiters; [by right|by left].
  - apply enqueue_lit. by rewrite Hnew.
  - apply enqueue_waiters. by right.
  - by right.
Qed.

Lemma requeue_moves e s i :
  bulkhead_ok s → taken s = max_concurrent s → (i < next_waiter s)%nat →
  moves (dead_or e s (Some i)) (λ j, WaitOn i = WaitOn j) s (requeue s i) ∧ taken (requeue s i) = taken s ∧
  lit (heap (requeue s i) i) ∧ i ∈ waiters (requeue s i).
Proof.
  intros Hok Hfull Hi. pose proof Hok as [Hrep _ Ht]. unfold requeue.
  destruct (needs_rearm (heap s i) || negb (w_queued (heap s i))) eqn:Hn.
  - pose proof (unqueue_evolve (dead_or e s (Some i)) s i Hrep ltac:(by right)) as Hev1.
    pose proof (unqueue_waiters s i Hrep i) as Hni.
    set (s1 := unqueue s i) in *. pose proof (ev_rep _ _ _ Hev1) as Hrep1.
    assert (Hev2 : evolve (dead_or e s (Some i)) s1 (set_waiter s1 i (rearm (heap s1 i)))) by (by apply set_waiter_evolve).
    set (s2 := set_waiter s1 i _) in *. assert (Hev := evolve_trans _ _ _ _ Hev1 Hev2).
    assert (Hh : heap s2 i = rearm (heap s1 i)) by (unfold s2; rewrite set_waiter_flags; by rewrite decide_True).
    assert (Hr3 : rep (enqueue s2 i)).
    { apply enqueue_rep; [by destruct Hev2| |rewrite (ev_next _ _ _ Hev); lia|by rewrite Hh].
      unfold s2. cbn [waiters set_waiter]. tauto. }
    destruct Hev as [_ He1 He2 He3 He4 He6 He5 He7 He8].
    assert (Hl : lit (heap (enqueue s2 i) i)) by (apply enqueue_lit; by rewrite Hh).
    split_and!; [|done|done|apply enqueue_waiters; by right].
    split; try done; [|cbn [next_waiter enqueue set_waiters set_waiter]; lia|..].
    + split; [done|intros _; apply served_full; cbn [taken max_concurrent enqueue set_waiters set_waiter]; lia|].
      cbn [taken max_concurrent enqueue set_waiters set_waiter]. lia.
    + intros j _ Hj. apply enqueue_lit. auto.
    + intros j _. destruct (He7 j), (enqueue_life s2 i j). split; congruence.
    + intros j Hj. destruct (He8 j Hj); [by left|]. right. apply enqueue_waiters. by left.
    + intros j [Hj| ->]%enqueue_waiters; [right; auto|by left].
  - apply orb_false_iff in Hn as [Hn Hq]. apply negb_false_iff in Hq.
    split_and!; [by apply moves_refl|done| |by apply (rep_queued _ Hrep)].
    intros Hw. unfold needs_rearm in Hn. rewrite Hw in Hn. by destruct (w_kind (heap s i)).
Qed.

Lemma resume_section_spec e i s :
  bulkhead_ok s → moment e → (i < next_waiter s)%nat →
  let '(s', o) := resume_section e i s in verdict e s s' (Some i) o.
Proof.
  intros Hok He Hi. unfold resume_section. pose proof Hok as [Hrep Hs Ht].
  pose proof (take_seat_moves (dead_or e s (Some i)) (λ j, Took = WaitOn j) s Hok) as Hts.
  destruct (take_seat_locked s) as [s1 []] eqn:Htake.
  - destruct Hts as (Hm & Ht1 & Hlt & Hw1 & Hh1).
    assert (Hs1 : s1 = set_taken s (taken s + 1)).
    { unfold take_seat_locked in Htake. case_match; by simplify_eq. }
    assert (Hrep1 : rep s1) by (subst s1; by apply set_taken_rep).
    pose proof (unqueue_evolve (dead_or e s (Some i)) s1 i Hrep1 ltac:(by right)) as Hev.
    destruct (unqueue_counts runs s1 i Hrep1) as [Hc1 Hc2].
    assert (Hserved : all_steady → served runs (unqueue s1 i)).
    { intros Hst. specialize (Hs Hst). unfold served in *.
      rewrite (ev_taken _ _ _ Hev), (ev_max _ _ _ Hev), (mv_max _ _ _ _ Hm), Ht1, Hc1, Hc2.
      assert (nqueued runs s1 = nqueued runs s) as -> by (by subst s1).
      assert (nwoken runs s1 = nwoken runs s) as -> by (by subst s1). unfold is_live, is_ready.
      destruct (w_queued (heap s1 i)), (can_run runs (heap s1 i)), (w_woken (heap s1 i)); cbn [andb]; lia. }
    pose proof (unqueue_waiters s1 i Hrep1 i) as Hni.
    split; [|split; [by rewrite (ev_taken _ _ _ Hev)|intros w [= <-]; tauto]]. destruct Hev.
    split; [split; [done|done|]|..].
    + rewrite ev_taken, ev_max, Ht1, (mv_max _ _ _ _ Hm). lia.
    + rewrite ev_max. apply Hm.
    + rewrite ev_pending. apply Hm.
    + rewrite ev_next. apply Hm.
    + intros j _ Hj. apply ev_lit. by rewrite Hh1.
    + intros j _. rewrite <-Hh1. apply ev_life.
    + intros j Hj. apply ev_keep. by rewrite Hw1.
    + intros j Hj. right. rewrite <-Hw1. auto.
  - destruct Hts as [-> Hfull]. destruct (e_now e <? w_deadline (heap s i)).
    + destruct (requeue_moves e s i Hok Hfull Hi) as (Hm & Ht1 & Hl & Hin). split; [done|].
      split_and!; [done|done| |done|done|by left]. pose proof (mv_next _ _ _ _ Hm). lia.
    + destruct (drop_waiter_spec runs (dead_or e s (Some i)) e s i Hrep) as (Hev & Hserved & Hni).
      { by right. }
      { intros j Hj. by left. }
      destruct (evolve_moves _ (λ j, Refused = WaitOn j) e _ _ Hok He Hev Hserved) as [Hm Ht1].
      split; [eapply moves_trans; [done|]; apply rejection_ok; by destruct Hm|].
      split_and!; [exact Ht1|exact Hfull|by intros w [= <-]].
Qed.

Definition mine_of (q : request) : option nat := match q with QResume w => Some w | _ => None end.

Lemma section_spec e q s :
  bulkhead_ok s → moment e → (∀ w, q = QResume w → (w < next_waiter s)%nat) →
  let '(s', o) := section e q s in verdict e s s' (mine_of q) o.
Proof.
  intros Hok He Hq. destruct q as [kind timeout|w|]; cbn [section mine_of].
  - by apply try_section_spec.
  - apply resume_section_spec; auto.
  - split; [by apply moves_refl|done].
Qed.

(** *** One caller's step, seen by the others *)

Lemma at_pc_eq p c x : at_pc p c x c = x.
Proof. unfold at_pc. by rewrite decide_True. Qed.

Lemma at_pc_ne p c x d : d ≠ c → at_pc p c x d = p d.
Proof. intros. unfold at_pc. by rewrite decide_False. Qed.

Lemma parked_waiter x w : parked x = Some w → pc_waiter x = Some w.
Proof. by destruct x as [|[]|[]| | | | | |]. Qed.

Lemma holds_looks x : holds_lock x = true → looks x = true.
Proof. by destruct x. Qed.

(** Caller [c] moves from [p c] to [x] and the compartment from [s] to [s']. *)
Lemma config_ok_move max s l p h s' l' x h' c :
  config_ok max (Config s l p h) →
  bulkhead_ok s' → max_concurrent s' = max → h' + returned s' = taken s' → 0 <= h' →
  (holds_lock x = true ↔ l' = Some c) →
  (∀ d, d ≠ c → l' = Some d ↔ l = Some d) →
  (pending s' ≠ [] → looks x = true ∨ ∃ d, d ≠ c ∧ looks (p d) = true) →
  (∀ w, pc_waiter x = Some w → (pc_waiter (p c) = Some w ∨ (next_waiter s <= w)%nat) ∧ (w < next_waiter s')%nat) →
  (∀ w, parked x = Some w → lit (heap s' w)) →
  (∀ d w, d ≠ c → parked (p d) = Some w → lit (heap s w) → lit (heap s' w)) →
  (next_waiter s <= next_waiter s')%nat →
  (∀ w, w ∈ waiters s' → pc_waiter x = Some w ∨ Leave w ∈ pending s' ∨ w ∈ waiters s ∧
    (Leave w ∈ pending s → Leave w ∈ pending s') ∧ pc_waiter (p c) ≠ Some w) →
  (∀ w, parked x = Some w → immortal (heap s' w) → w ∈ waiters s') →
  (∀ d w, d ≠ c → parked (p d) = Some w → immortal (heap s' w) → (immortal (heap s w) → w ∈ waiters s) → w ∈ waiters s') →
  (∀ w, Leave w ∈ pending s' → Leave w ∈ pending s ∧ pc_waiter x ≠ Some w ∨ pc_waiter (p c) = Some w ∧ pc_waiter x = None) →
  config_ok max (Config s' l' (at_pc p c x) h').
Proof.
  intros [_ _ _ _ Hown _ Hmine Hbound Hlit Hcalled Hqueued Hleft] H1 H2 H3 H4 Hx Hd Hseen Hwx Hlx Hlo Hnx Hcl Hqx Hqo Hlv.
  cbn [shared owner pcs held] in *.
  assert (Hnew : ∀ d w, d ≠ c → pc_waiter x = Some w → pc_waiter (p d) = Some w → False).
  { intros d w Hdc Hw Hw'. destruct (Hwx w Hw) as [[Hc|Hc] _]; [eauto|]. specialize (Hbound d w Hw'). lia. }
  split; cbn [shared owner pcs held]; try done.
  - intros d. destruct (decide (d = c)) as [->|Hne]; [by rewrite at_pc_eq|].
    rewrite at_pc_ne, Hd by done. apply Hown.
  - intros Hp. destruct (Hseen Hp) as [Hl|(d & Hne & Hl)]; [exists c; by rewrite at_pc_eq|].
    exists d. by rewrite at_pc_ne.
  - intros d d' w. destruct (decide (d = c)) as [->|Hne], (decide (d' = c)) as [->|Hne'];
      rewrite ?at_pc_eq, ?at_pc_ne by done; intros Ha Hb; [done| | |eauto];
      exfalso; [exact (Hnew d' w Hne' Ha Hb)|exact (Hnew d w Hne Hb Ha)].
  - intros d w. destruct (decide (d = c)) as [->|Hne]; rewrite ?at_pc_eq, ?at_pc_ne by done; intros Hw.
    + by apply Hwx.
    + specialize (Hbound d w Hw). lia.
  - intros d w. destruct (decide (d = c)) as [->|Hne]; rewrite ?at_pc_eq, ?at_pc_ne by done; [apply Hlx|].
    intros Hw. eapply Hlo; eauto.
  - intros w Hw. destruct (Hcl w Hw) as [?|[?|(Hws & Hlw & Hcw)]]; [left; exists c; by rewrite at_pc_eq|by right|].
    destruct (Hcalled w Hws) as [[d Hdw]|?]; [|by right; auto].
    destruct (decide (d = c)) as [->|Hne]; [done|]. left. exists d. by rewrite at_pc_ne.
  - intros d w. destruct (decide (d = c)) as [->|Hne]; rewrite ?at_pc_eq, ?at_pc_ne by done; [apply Hqx|].
    intros Hw Him. eapply Hqo; eauto.
  - intros w Hw. destruct (Hlv w Hw) as [[Hl Hxw]|[Hcw Hxw]].
    + destruct (Hleft w Hl) as [Hb Hall]. split; [lia|]. intros d.
      destruct (decide (d = c)) as [->|Hne]; rewrite ?at_pc_eq, ?at_pc_ne by done; auto.
    + split; [specialize (Hbound c w Hcw); lia|]. intros d.
      destruct (decide (d = c)) as [->|Hne]; rewrite ?at_pc_eq, ?at_pc_ne by done; [by rewrite Hxw|].
      intros Hdw. apply Hne. eauto.
Qed.

(** Somebody else looks at the list, or the caller did. *)
Lemma seen_by_others max s l p h c :
  config_ok max (Config s l p h) → pending s ≠ [] →
  looks (p c) = true ∨ ∃ d, d ≠ c ∧ looks (p d) = true.
Proof.
  intros Hok Hp. destruct (co_seen _ _ Hok Hp) as [d Hd]. cbn [pcs] in Hd.
  destruct (decide (d = c)) as [->|]; eauto.
Qed.

Lemma after_wait_flags w b :
  same_life w (after_wait w b) ∧ w_queued (after_wait w b) = w_queued w ∧ w_woken (after_wait w b) = w_woken w.
Proof. unfold after_wait, same_life. by destruct (w_kind w) eqn:E; rewrite ?E. Qed.

Lemma after_wait_rep s w b : rep s → rep (set_waiter s w (after_wait (heap s w) b)).
Proof.
  intros [Hn Hq Ht Hb]. destruct (after_wait_flags (heap s w) b) as ([Hk _] & Hqv & Hw).
  split; [done| | |done].
  - intros j. rewrite set_waiter_flags. case_decide; [subst; by rewrite Hqv|done].
  - intros j. rewrite set_waiter_flags. case_decide; [|apply Ht]. subst. intros Hth _ _.
    unfold after_wait. rewrite <-Hk, Hth. done.
Qed.

Lemma after_wait_ok s w b : bulkhead_ok s → bulkhead_ok (set_waiter s w (after_wait (heap s w) b)).
Proof.
  intros [Hrep Hs Htk]. destruct (after_wait_flags (heap s w) b) as ([Hk _] & Hqv & Hw).
  split; [by apply after_wait_rep| |done]. intros Hst. specialize (Hs Hst). unfold served in *.
  destruct (set_waiter_counts runs s w (after_wait (heap s w) b) Hrep Hk) as [-> ->]. rewrite Hw. simpl.
  destruct (w_queued (heap s w)), (can_run runs (after_wait (heap s w) b)), (w_woken (heap s w)); cbn [andb]; lia.
Qed.

Lemma returned_app s op : returned (set_pending s (pending s ++ [op])) = returned s + (if is_seat op then 1 else 0).
Proof. unfold returned, countb. cbn [pending set_pending]. rewrite List.filter_app, Zlength_app. simpl. by destruct (is_seat op). Qed.

Lemma set_pending_ok s ops : bulkhead_ok s → bulkhead_ok (set_pending s ops).
Proof. by intros [[] ? ?]. Qed.

(** Only the caller's place and the lock change. *)
Lemma config_ok_pc max s l p h l' x c :
  config_ok max (Config s l p h) →
  (holds_lock x = true ↔ l' = Some c) →
  (∀ d, d ≠ c → l' = Some d ↔ l = Some d) →
  (pending s ≠ [] → looks x = true ∨ ∃ d, d ≠ c ∧ looks (p d) = true) →
  pc_waiter x = pc_waiter (p c) → parked x = parked (p c) →
  config_ok max (Config s l' (at_pc p c x) h).
Proof.
  intros Hok Hx Hd Hs Hw Hl. pose proof Hok as [? ? ? ? ? ? ? Hb Hlit Hcalled Hqueued Hleft]. cbn [shared owner pcs held] in *.
  apply (config_ok_move max s l p h s l' x h c); try done.
  - intros w Hw'. rewrite Hw in Hw'. split; [auto|]. eapply Hb; eauto.
  - intros w Hw'. rewrite Hl in Hw'. eapply Hlit; eauto.
  - intros w Hin. destruct (decide (pc_waiter (p c) = Some w)); [left; congruence|]. auto.
  - intros w. rewrite Hl. apply Hqueued.
  - auto.
  - intros w Hin. left. split; [done|]. rewrite Hw. by apply Hleft.
Qed.

(** A step of the compartment under the lock, by its owner, whose waiter may
    leave the queue if the caller does not go on waiting for it. *)
Lemma config_ok_inside max e s l p h s' x h' c came :
  config_ok max (Config s l p h) → moment e → holds_lock (p c) = true → holds_lock x = true →
  moves (dead_or e s (pc_waiter (p c))) came s s' → h' + returned s' = taken s' → 0 <= h' →
  (∀ w, pc_waiter x = Some w → (pc_waiter (p c) = Some w ∨ (next_waiter s <= w)%nat) ∧ (w < next_waiter s')%nat) →
  (∀ w, parked x = Some w → lit (heap s' w)) →
  (∀ w, came w → pc_waiter x = Some w) →
  (∀ w, pc_waiter (p c) = Some w → w ∈ waiters s' → pc_waiter x = Some w) →
  (∀ w, parked x = Some w → immortal (heap s' w) → w ∈ waiters s') →
  config_ok max (Config s' l (at_pc p c x) h').
Proof.
  intros Hok He Hc Hx [Hm1 Hm2 Hm3 Hm4 Hm5 Hm6 Hm7 Hm8] Hh Hh0 Hw Hl Hcame Hmy Hqx.
  pose proof Hok as [? ? ? ? Hown ? Hmine Hb ? ? ? Hleft]. cbn [shared owner pcs held] in *.
  eapply config_ok_move; try done.
  - congruence.
  - rewrite Hx, <-Hown, Hc. done.
  - intros _. left. by apply holds_looks.
  - intros d w _ Hp. apply Hm5. eapply Hb. by apply parked_waiter.
  - intros w Hin. rewrite Hm3. destruct (Hm8 w Hin) as [?|Hins]; [auto|].
    destruct (decide (pc_waiter (p c) = Some w)); [auto|]. right. right. auto.
  - intros d w Hdc Hp Him Hin. apply parked_waiter in Hp as Hpw.
    pose proof (immortal_same _ _ (Hm6 w (Hb _ _ Hpw)) Him) as Him'.
    destruct (Hm7 w (Hin Him')) as [[Hdead|Hcw]|?]; [| |done].
    + specialize (Him' e He). congruence.
    + destruct Hdc. eauto.
  - intros w. rewrite Hm3. intros Hlv. left. split; [done|]. intros Hxw. destruct (Hleft w Hlv) as [Hlt Hall].
    destruct (Hw w Hxw) as [[?|?] _]; [by apply (Hall c)|lia].
Qed.

Lemma config_ok_apply max e s l p h op ops x c :
  config_ok max (Config s l p h) → moment e → p c = x → holds_lock (p c) = true → pending s = op :: ops →
  config_ok max (Config (apply_pending e (set_pending s ops) op) l (at_pc p c x) h).
Proof.
  intros Hok He Hp Hhold Hops. pose proof Hok as [Hb Hm Hs Hh _ _ _ Hbound Hlit Hcalled Hqueued Hleft].
  cbn [shared owner pcs held] in *.
  assert (Hret : returned s = (if is_seat op then 1 else 0) + returned (set_pending s ops)).
  { unfold returned. rewrite Hops. cbn [pending set_pending]. apply countb_cons. }
  pose proof (countb_nonneg is_seat ops) as Hnn.
  destruct (apply_pending_moves e (set_pending s ops) op) as ([Hm1 Hm2 Hm3 Hm4 Hm5 Hm6 Hm7 Hm8] & Ht & Hout).
  { by apply set_pending_ok. }
  { done. }
  { intros ->. cbn [taken set_pending]. unfold returned in *. cbn [pending set_pending is_seat] in *. lia. }
  cbn [taken max_concurrent pending next_waiter set_pending heap waiters] in *.
  assert (Hgone : ∀ d w, parked (p d) = Some w → immortal (heap (apply_pending e (set_pending s ops) op) w) →
    (immortal (heap s w) → w ∈ waiters s) → w ∈ waiters (apply_pending e (set_pending s ops) op)).
  { intros d w Hpd Him Hin. apply parked_waiter in Hpd. pose proof (immortal_same _ _ (Hm6 w (Hbound _ _ Hpd)) Him) as Him'.
    destruct (Hm7 w (Hin Him')) as [[Hdead|Hlv]|?]; [| |done].
    - specialize (Him' e He). cbn in Hdead. congruence.
    - destruct op as [|w']; [done|]. injection Hlv as ->. exfalso. apply (proj2 (Hleft w ltac:(rewrite Hops; by left)) d), Hpd. }
  apply (config_ok_move max s l p h _ _ _ _ c); try done.
  - congruence.
  - unfold returned at 1. rewrite Hm3. unfold returned at 2 in Hret. cbn [pending set_pending] in Hret. lia.
  - rewrite <-Hp. apply (co_owner _ _ Hok c).
  - intros _. left. rewrite <-Hp. by apply holds_looks.
  - intros w Hw. rewrite <-Hp in Hw. split; [by left|]. specialize (Hbound c w Hw). lia.
  - intros w Hw. rewrite <-Hp in Hw. apply Hm5; [|eauto]. apply (Hbound c). by apply parked_waiter.
  - intros d w _ Hw. apply Hm5. apply (Hbound d). by apply parked_waiter.
  - intros w Hin. rewrite Hm3, Hops. destruct (Hm8 w Hin) as [[]|Hins].
    destruct (decide (pc_waiter (p c) = Some w)); [left; congruence|]. right. right. split_and!; [done| |done].
    intros [Heq|?]%elem_of_cons; [|done]. exfalso. apply (Hout w); [by rewrite <-Heq|done].
  - intros w Hw Him. rewrite <-Hp in Hw. apply (Hgone c w Hw Him). eauto.
  - intros d w _ Hpd Him Hin. by apply (Hgone d w Hpd Him).
  - intros w. rewrite Hm3. intros Hlv. left. split; [rewrite Hops; by right|]. rewrite <-Hp. apply Hleft.
    rewrite Hops. by right.
Qed.

Lemma config_ok_section max e s l p h q c :
  config_ok max (Config s l p h) → moment e → p c = EnterSettle q → pending s = [] →
  config_ok max (let '(s', o) := section e q (settle_end e s) in
    Config s' l (at_pc p c (ExitSettle o)) (match o with Took => h + 1 | _ => h end)).
Proof.
  intros Hok He Hp Hops. pose proof Hok as [Hb Hm Hs Hh _ _ _ Hbound Hlit _ _ _]. cbn [shared owner pcs held] in *.
  destruct (settle_end_moves e s Hb He) as [Hm1 Ht1].
  assert (Hmine : pc_waiter (p c) = mine_of q) by (rewrite Hp; by destruct q).
  assert (Hq : ∀ w, mine_of q = Some w → (w < next_waiter s)%nat) by (intros w Hw; apply (Hbound c); congruence).
  pose proof (section_spec e q (settle_end e s) (mv_ok _ _ _ _ Hm1) He) as Hsec.
  destruct (section e q (settle_end e s)) as [s' o]. destruct Hsec as [Hm2 Ho].
  { intros w ->. specialize (Hq w eq_refl). pose proof (mv_next _ _ _ _ Hm1). lia. }
  assert (Hsame : ∀ j, same_life (heap s j) (heap (settle_end e s) j)).
  { apply (settle_end_spec runs (λ _, True) e s); [apply Hb|done]. }
  assert (Hmv : moves (dead_or e s (mine_of q)) (λ i, o = WaitOn i) s s').
  { eapply moves_trans; (eapply moves_mono; [| |eassumption]); try done.
    - intros i [?|?]; [by left|done].
    - intros i [Hd|?]; [left|by right]. by rewrite (same_life_dead e _ _ (Hsame i)) in Hd. }
  assert (Hret : returned s' = 0) by (unfold returned; by rewrite (mv_pending _ _ _ _ Hmv), Hops).
  assert (Hret0 : returned s = 0) by (unfold returned; by rewrite Hops).
  apply (config_ok_inside max e s l p h s' _ _ c (λ i, o = WaitOn i)); try done.
  - by rewrite Hp.
  - by rewrite Hmine.
  - destruct o; try (done || lia). destruct Ho as (-> & _ & _). lia.
  - destruct o; lia.
  - intros w Hw. destruct o as [| |w'| | |]; try done. injection Hw as ->.
    destruct Ho as (_ & _ & Hlt & _ & _ & Hmw). split; [|done]. rewrite Hmine. destruct Hmw as [?|[_ ?]]; [by left|].
    right. pose proof (mv_next _ _ _ _ Hm1). lia.
  - intros w Hw. destruct o as [| |w'| | |]; try done. injection Hw as ->. by destruct Ho as (_ & _ & _ & ? & _).
  - by intros w ->.
  - intros w Hw Hin. rewrite Hmine in Hw. destruct o as [| |w'| | |]; try done.
    + by destruct (proj2 Ho w).
    + by destruct (proj2 (proj2 Ho) w).
    + destruct Ho as (_ & _ & _ & _ & _ & [?|[? _]]); cbn; congruence.
    + destruct Ho as (_ & _ & ?). congruence.
  - intros w Hw _. destruct o as [| |w'| | |]; try done. injection Hw as ->. by destruct Ho as (_ & _ & _ & _ & ? & _).
Qed.

Lemma config_ok_settled max e s l p h o c :
  config_ok max (Config s l p h) → moment e → p c = ExitSettle o ∨ p c = Settling o → pending s = [] →
  config_ok max (Config (settle_end e s) l (at_pc p c (Unlocking o)) h).
Proof.
  intros Hok He Hp Hops. pose proof Hok as [Hb Hm Hs Hh _ _ _ Hbound Hlit _ Hqueued _]. cbn [shared owner pcs held] in *.
  destruct (settle_end_moves e s Hb He) as [Hmv Ht].
  assert (Hpc : pc_waiter (p c) = outcome_waiter o ∧ parked (p c) = outcome_waiter o) by (by destruct Hp as [-> | ->]).
  destruct Hpc as [Hpc Hpk]. apply (config_ok_inside max e s l p h _ _ _ c nobody); try done.
  - by destruct Hp as [-> | ->].
  - eapply moves_mono; [| |exact Hmv]; [|done]. intros i [?|?]; [by left|done].
  - unfold returned in *. rewrite (mv_pending _ _ _ _ Hmv). lia.
  - intros w Hw. cbn [pc_waiter parked] in Hw. rewrite <-Hpc in Hw. split; [by left|].
    specialize (Hbound c w Hw). pose proof (mv_next _ _ _ _ Hmv). lia.
  - intros w Hw. cbn [parked] in Hw. apply (mv_lit _ _ _ _ Hmv).
    + apply (Hbound c). by rewrite Hpc.
    + apply (Hlit c). by rewrite Hpk.
  - intros w Hw _. cbn. congruence.
  - intros w Hw Him. cbn [parked] in Hw.
    pose proof (immortal_same _ _ (mv_life _ _ _ _ Hmv w ltac:(apply (Hbound c); congruence)) Him) as Him'.
    destruct (mv_keep _ _ _ _ Hmv w) as [[Hd|?]|?]; [apply (Hqueued c); [congruence|done]| |done|done].
    specialize (Him' e He). congruence.
Qed.

Lemma config_ok_wake_up max s l p h w b c :
  config_ok max (Config s l p h) → p c = Waiting w →
  config_ok max (Config (set_waiter s w (after_wait (heap s w) b)) l (at_pc p c (Enter (QResume w))) h).
Proof.
  intros Hok Hp. pose proof Hok as [Hb Hm Hs Hh Ho Hseen Hmine Hbound Hlit Hcalled Hqueued Hleft]. cbn [shared owner pcs held] in *.
  pose proof (Ho c) as Hc. rewrite Hp in Hc. apply (config_ok_move max s l p h _ _ _ _ c); try done.
  - by apply after_wait_ok.
  - intros Hps. destruct (seen_by_others max s l p h c Hok Hps) as [Hl|?]; [by rewrite Hp in Hl|by right].
  - intros w' [= <-]. split; [left; by rewrite Hp|]. apply (Hbound c w). by rewrite Hp.
  - intros d w' Hd Hpd Hl. rewrite set_waiter_flags. case_decide; [|done]. subst w'.
    destruct Hd. apply (Hmine d c w); [by apply parked_waiter|by rewrite Hp].
  - intros w' Hin. destruct (decide (w' = w)) as [->|Hne]; [by left|]. right. right. rewrite Hp. cbn.
    split_and!; [done|done|congruence].
  - intros d w' Hd Hpd Him Hin. apply Hin. rewrite set_waiter_flags in Him. case_decide; [|done]. subst w'.
    by apply (immortal_same _ _ (proj1 (after_wait_flags (heap s w) b))).
  - intros w' Hlv. left. split; [done|]. specialize (Hleft w' Hlv) as [_ Hall]. specialize (Hall c). by rewrite Hp in Hall.
Qed.

(** Queueing an operation without the lock. *)
Lemma config_ok_append max s l p h op x h' c :
  config_ok max (Config s l p h) → holds_lock (p c) = false → holds_lock x = false → looks x = true →
  pc_waiter x = None → parked x = None → pc_waiter (p c) = leaver op →
  h' + (if is_seat op then 1 else 0) = h → 0 <= h' →
  config_ok max (Config (set_pending s (pending s ++ [op])) l (at_pc p c x) h').
Proof.
  intros Hok Hp Hx Hl Hw Hk Hlv Hh' Hpos. pose proof Hok as [Hb Hm Hs Hh Ho _ _ _ _ _ _ _]. cbn [shared owner pcs held] in *.
  apply (config_ok_move max s l p h _ _ _ _ c); try done.
  - by apply set_pending_ok.
  - rewrite returned_app. cbn [taken set_pending]. lia.
  - rewrite Hx, <-Hp. apply Ho.
  - auto.
  - intros w. by rewrite Hw.
  - intros w. by rewrite Hk.
  - intros w Hin. right. cbn [pending set_pending]. rewrite Hlv. destruct op as [|w']; cbn [leaver].
    + right. split_and!; [done|set_solver|done].
    + destruct (decide (w' = w)) as [->|Hne]; [left; set_solver|]. right. split_and!; [done|set_solver|congruence].
  - intros w. by rewrite Hk.
  - intros d w _ _ Him Hin. by apply Hin.
  - intros w. cbn [pending set_pending]. intros [Hin|Heq%list_elem_of_singleton]%elem_of_app; [left; by rewrite Hw|].
    right. rewrite Hlv, <-Heq. done.
Qed.

Lemma step_ok max c cf cf' : config_ok max cf → step c cf cf' → config_ok max cf'.
Proof.
  intros Hok Hstep. destruct Hstep as [s l p h timeout on_loop Hp|s l p h timeout loop Hp|s l p h Hp|s p h q Hp
    |e s l p h op ops x Hp Hx Hops He|e s l p h q Hp Hops He|e s l p h o Hp Hops He|s l p h o Hp|s l p h o Hp Hops
    |s l p h o Hp Hops|s p h o Hp|s d p h o Hp|s l p h w b Hp|s l p h w Hp|s l p h Hp Hh];
    pose proof (co_owner _ _ Hok) as Hown; cbn [owner pcs] in Hown; pose proof (Hown c) as Hc;
    try (rewrite Hp in Hc; cbn [holds_lock] in Hc).
  1-3: apply (config_ok_pc max s l p h); try done; [|by rewrite Hp..];
    (intros Hps; destruct (seen_by_others max s l p h c Hok Hps) as [Hl|?]; [by rewrite Hp in Hl|by right]).
  - (* step_lock *)
    apply (config_ok_pc max s None p h); try done; rewrite ?Hp; try done.
    + intros d Hd. split; [intros [= ?]|]; congruence.
    + auto.
  - (* step_apply *)
    apply (config_ok_apply max e s l p h op ops x c); try done.
    destruct Hx as [(q & ->)|(o & [-> | ->])]; by rewrite Hp.
  - (* step_section *)
    apply (config_ok_section max e s l p h q c); done.
  - (* step_settled *)
    by apply (config_ok_settled max e s l p h o c).
  - (* step_unlock *)
    apply (config_ok_pc max s l p h); try done; rewrite ?Hp; try done.
    + intros d Hd. split; [done|]. intros Hl. assert (l = Some c) by (by apply Hc). congruence.
    + auto.
  - (* step_recheck_empty *)
    apply (config_ok_pc max s l p h); try done; rewrite ?Hp.
    + rewrite <-Hc. by destruct o.
    + by destruct o.
    + by destruct o.
  - (* step_recheck_more *)
    apply (config_ok_pc max s l p h); try done; rewrite ?Hp; try done. auto.
  - (* step_trylock *)
    apply (config_ok_pc max s None p h); try done; rewrite ?Hp; try done.
    + intros d Hd. split; [intros [= ?]|]; congruence.
    + auto.
  - (* step_trylock_busy *)
    apply (config_ok_pc max s (Some d) p h); try done; rewrite ?Hp.
    + rewrite <-Hc. by destruct o.
    + intros _. right. exists d. assert (Hd : holds_lock (p d) = true) by (by apply Hown).
      split; [intros ->; by rewrite Hp in Hd|by apply holds_looks].
    + by destruct o.
    + by destruct o.
  - (* step_wake_up *)
    by apply (config_ok_wake_up max s l p h w b c).
  - (* step_interrupted *)
    apply (config_ok_append max s l p h (Leave w) (Recheck Abandoned) h c);
      rewrite ?Hp; cbn [is_seat]; try (done || lia). exact (co_held _ _ Hok).
  - (* step_release *)
    apply (config_ok_append max s l p h SeatReturned (Recheck Returned) (h - 1) c);
      rewrite ?Hp; cbn [is_seat]; (done || lia).
Qed.

Lemma reachable_ok max cf : 0 <= max → reachable max cf → config_ok max cf.
Proof.
  intros Hmax Hr.
  assert (Hinit : config_ok max (config_init max)).
  { split; try done; [|by intros ? ?%elem_of_nil..].
    split; [|intros _; unfold served, nqueued, nwoken, countb, Zlength; simpl; lia|simpl; lia].
    split; [constructor|intros i; split; [by intros ?%elem_of_nil|done]|by intros ? _ ?%elem_of_nil|by intros ? ?%elem_of_nil]. }
  unfold reachable in Hr. generalize dependent (config_init max). intros cf0 Hr.
  induction Hr as [|x y z [c Hstep] Hr IH]; [done|]. eauto using step_ok.
Qed.
End invariant.

(** ** The theorems *)

(** C34: The capacity is never exceeded: in every interleaving of sync and async
    acquisitions, waits, interruptions and releases the callers together hold
    between zero and [max] seats, and the seat count is exactly the seats held
    plus the seats given back that no lock holder has applied yet. *)
Theorem seats_never_exceeded max cf :
  0 <= max → reachable max cf →
  0 <= held cf <= max ∧ taken (shared cf) = held cf + returned (shared cf).
Proof.
  intros Hmax Hr. destruct (reachable_ok (λ _, true) max cf Hmax Hr) as [[_ _ Ht] Hm Hs Hh _ _ _ _ _ _ _ _].
  pose proof (countb_nonneg is_seat (pending (shared cf))). unfold returned in *. lia.
Qed.

(** Every verdict is exact at the moment it is given: a caller gets a seat only
    when fewer than [max] are held, is refused only when all [max] are held, and
    a status read reports the number held. *)
Theorem verdicts_are_exact max cf cf' c q o :
  0 <= max → reachable max cf → step c cf cf' → pcs cf c = EnterSettle q → pcs cf' c = ExitSettle o →
  match o with
  | Took => held cf < max ∧ held cf' = held cf + 1
  | Refused => held cf = max ∧ held cf' = held cf
  | Reported st => bs_active_count st = held cf ∧ available_permits st = max - held cf
  | WaitOn _ => held cf = max ∧ held cf' = held cf
  | Returned | Abandoned => False
  end.
Proof.
  intros Hmax Hr Hstep Hpc Hpc'. destruct (reachable_ok (λ _, true) max cf Hmax Hr) as [Hb Hm Hs Hh _ _ _ Hbound _ _ _ _].
  destruct Hstep as [ | | | | |e s l p h q' Hp Hops He| | | | | | | | | ];
    cbn [pcs shared held owner] in *; rewrite ?at_pc_eq in Hpc'; try congruence.
  assert (q' = q) as -> by congruence.
  destruct (settle_end_moves _ e s Hb He) as [Hm1 Ht1].
  assert (Hq : ∀ w, q = QResume w → (w < next_waiter (settle_end e s))%nat).
  { intros w ->. specialize (Hbound c w). rewrite Hp in Hbound. specialize (Hbound eq_refl).
    pose proof (mv_next _ _ _ _ _ Hm1). lia. }
  pose proof (section_spec _ e q (settle_end e s) (mv_ok _ _ _ _ _ Hm1) He Hq) as Hsec.
  destruct (section e q (settle_end e s)) as [s' o']. cbn [pcs held] in *. rewrite at_pc_eq in Hpc'.
  injection Hpc' as ->. destruct Hsec as [Hm2 Ho]. pose proof (mv_max _ _ _ _ _ Hm1) as Hmax1.
  pose proof (mv_max _ _ _ _ _ Hm2) as Hmax2.
  pose proof (bo_taken _ _ (mv_ok _ _ _ _ _ Hm2)) as Hb2.
  assert (returned s = 0) by (unfold returned; by rewrite Hops).
  destruct o as [| |w| | |st]; [lia|lia|lia|done|done|]. destruct Ho as (_ & -> & _). unfold available_permits, state_of. cbn.
  pose proof (bo_taken _ _ Hb). lia.
Qed.

(** A caller blocked on a free lock on its way back takes a free seat by itself. *)
Lemma resume_takes_seat e s p h c w :
  rep s → moment e → pending s = [] → taken s < max_concurrent s → p c = Enter (QResume w) →
  ∃ cf', rtc (step c) (Config s None p h) cf' ∧ pcs cf' c = ExitSettle Took ∧ held cf' = h + 1.
Proof.
  intros Hrep He Hops Hlt Hp.
  destruct (settle_end_spec (λ _, true) (λ _, True) e s Hrep) as [Hev _]; [done|].
  assert (Hsec : ∃ s', section e (QResume w) (settle_end e s) = (s', Took)).
  { eexists. cbn [section]. unfold resume_section, take_seat_locked.
    rewrite (ev_taken _ _ _ Hev), (ev_max _ _ _ Hev), (proj2 (Z.ltb_lt _ _) Hlt). done. }
  destruct Hsec as [s' Hsec]. exists (Config s' (Some c) (at_pc (at_pc p c (EnterSettle (QResume w))) c (ExitSettle Took)) (h + 1)).
  split_and!; [|apply at_pc_eq|done].
  eapply rtc_l; [by apply step_lock|]. eapply rtc_l; [|apply rtc_refl].
  pose proof (step_section c e s (Some c) (at_pc p c (EnterSettle (QResume w))) h (QResume w)) as Hst.
  rewrite Hsec in Hst. apply Hst; [apply at_pc_eq|done|done].
Qed.

Lemma caller_takes_seat e s p h c w :
  rep s → moment e → pending s = [] → taken s < max_concurrent s → p c = Waiting w ∨ p c = Enter (QResume w) →
  ∃ cf', rtc (step c) (Config s None p h) cf' ∧ pcs cf' c = ExitSettle Took ∧ held cf' = h + 1.
Proof.
  intros Hrep He Hops Hlt [Hp|Hp]; [|by apply (resume_takes_seat e s p h c w)].
  destruct (resume_takes_seat e (set_waiter s w (after_wait (heap s w) false)) (at_pc p c (Enter (QResume w))) h c w)
    as (cf' & Hr & H1 & H2); [|done|done|done|by rewrite at_pc_eq|].
  - by apply after_wait_rep.
  - exists cf'. split_and!; [|done|done]. eapply rtc_l; [by apply step_wake_up|done].
Qed.

(** The caller of a waiter while nobody is about to look at the pending list. *)
Definition blocked_on (cf : config) (c w : nat) : Prop :=
  pcs cf c = Waiting w ∧ (w_woken (heap (shared cf) w) = true → w_signal (heap (shared cf) w) = true) ∨
  pcs cf c = Enter (QResume w).

(** C33: No release and no wake is lost, in histories in which the running event
    loops run throughout and the stopped ones stay stopped ([runs]).  Whenever no
    caller is between the lock and its last look at the pending list:
    - that list is empty, the lock is free and the seat count is the seats held;
    - every queued waiter has a caller, blocked on it (and if it was woken, its
      token is free or its future done, so the wait returns) or blocked on the
      lock on its way back; and every caller that waits is queued, unless its
      deadline passed or its loop was closed;
    - one waiter per free seat has been woken, or all, counting only waiters that
      can run (threads, and coroutines of running loops): a wake given to a
      stopped loop does not count;
    - so if a seat is free and a waiter that can run is queued, some woken waiter
      that can run has a caller that takes the seat by its own steps alone. *)
Theorem no_wake_lost (runs : nat → bool) max cf :
  0 <= max → (∀ e l, moment e → e_running e l = runs l) → reachable max cf → (∀ c, looks (pcs cf c) = false) →
  let s := shared cf in
  (pending s = [] ∧ owner cf = None ∧ taken s = held cf) ∧
  (∀ w, w ∈ waiters s → ∃ c, blocked_on cf c w) ∧
  (∀ c w, pcs cf c = Waiting w → (∀ e, moment e → is_dead e (heap s w) = false) → w ∈ waiters s) ∧
  Z.min (max - held cf) (countb (λ w, can_run runs (heap s w)) (waiters s)) <=
    countb (λ w, can_run runs (heap s w) && w_woken (heap s w)) (waiters s) ∧
  (∀ e w, moment e → held cf < max → w ∈ waiters s → can_run runs (heap s w) = true →
    ∃ c w' cf', w' ∈ waiters s ∧ can_run runs (heap s w') = true ∧ w_woken (heap s w') = true ∧
      blocked_on cf c w' ∧ rtc (step c) cf cf' ∧ pcs cf' c = ExitSettle Took ∧ held cf' = held cf + 1).
Proof.
  intros Hmax Hst Hr Hq s.
  destruct (reachable_ok runs max cf Hmax Hr) as [[Hrep Hserved Ht] Hm Hs Hh Ho Hseen _ _ Hlit Hcalled Hqueued _].
  fold s in Hrep, Hserved, Ht, Hm, Hs, Hseen, Hlit, Hcalled, Hqueued.
  assert (Hp : pending s = []).
  { destruct (pending s) eqn:E; [done|]. destruct Hseen as [c Hc]; [done|]. by rewrite Hq in Hc. }
  assert (Hheld : taken s = held cf) by (unfold returned in Hs; rewrite Hp in Hs; change (countb is_seat []) with 0 in Hs; lia).
  assert (Hown : owner cf = None).
  { destruct (owner cf) as [c|] eqn:E; [|done]. assert (Hc : holds_lock (pcs cf c) = true) by (by apply Ho).
    apply holds_looks in Hc. by rewrite Hq in Hc. }
  assert (Hblocked : ∀ w, w ∈ waiters s → ∃ c, blocked_on cf c w).
  { intros w Hw. destruct (Hcalled w Hw) as [[c Hc]|Hl]; [|rewrite Hp in Hl; by apply elem_of_nil in Hl].
    exists c. specialize (Hq c). specialize (Hlit c w). unfold blocked_on.
    destruct (pcs cf c) as [|[]|[]| | | | | |]; simplify_eq/=; try (by right). left. split; [done|]. by apply Hlit. }
  assert (Hserve : Z.min (max - held cf) (countb (λ w, can_run runs (heap s w)) (waiters s)) <=
    countb (λ w, can_run runs (heap s w) && w_woken (heap s w)) (waiters s)).
  { specialize (Hserved ltac:(intros e He l; by apply Hst)). unfold served, nwoken, nqueued in Hserved.
    rewrite <-Hheld, <-Hm. exact Hserved. }
  split_and!; [done|done|done|done| |done|].
  - intros c w Hc Him. apply (Hqueued c); [by rewrite Hc|done].
  - intros e w He Hlt Hw Hrun.
    assert (Hpos : 0 < countb (λ w, can_run runs (heap s w)) (waiters s)) by (apply countb_pos; eauto).
    assert (Hready : 0 < countb (λ w, can_run runs (heap s w) && w_woken (heap s w)) (waiters s)) by lia.
    apply countb_pos in Hready as (w' & Hw' & Hr').
    apply andb_true_iff in Hr' as [Hr1 Hr2]. destruct (Hblocked w' Hw') as [c Hc].
    destruct (caller_takes_seat e s (pcs cf) (held cf) c w') as (cf' & Hsteps & H1 & H2); [done|done|done|lia| |].
    { destruct Hc as [[Hc _]|Hc]; auto. }
    exists c, w', cf'. split_and!; try done. revert Hsteps. rewrite <-Hown. by destruct cf.
Qed.
End protocol.

(** ** A schedule: one seat, a thread that waits for it, the release that wakes it *)

(** Loop 1 is stopped. *)
Definition noon : env := Env 0 (λ _, false) (λ l, negb (Nat.eqb l 1)).

Ltac go c rule := eapply rtc_l; [exists c; eapply rule; reflexivity|].

Ltac through c :=
  eapply rtc_l; [exists c; first
    [ eapply step_lock; reflexivity
    | eapply (step_apply _ _ noon); [reflexivity|first [left; eexists; reflexivity|right; eexists; (left; reflexivity) || (right; reflexivity)]|reflexivity|reflexivity]
    | eapply (step_section _ _ noon); reflexivity
    | eapply (step_settled _ _ noon); [(left; reflexivity) || (right; reflexivity)|reflexivity|reflexivity]
    | eapply step_unlock; reflexivity
    | eapply step_recheck_empty; reflexivity
    | eapply step_recheck_more; [reflexivity|discriminate]
    | eapply step_trylock; reflexivity ]|].

(** Caller 0 takes the seat, caller 3 (a coroutine of a stopped loop) and caller 1
    (a thread) queue up for ten seconds, caller 0 gives the seat back while caller
    2 holds the lock for a status read. *)
Lemma sample_schedule :
  ∃ cf, reachable (eq noon) 1 cf ∧ (∀ c, looks (pcs cf c) = false) ∧ pcs cf 1%nat = Waiting 1 ∧
    waiters (shared cf) = [0%nat; 1%nat] ∧ w_kind (heap (shared cf) 0) = LoopWaiter 1 ∧
    w_kind (heap (shared cf) 1) = ThreadWaiter ∧ held cf = 0.
Proof.
  eexists. split.
  - unfold reachable.
    eapply rtc_l; [exists 0%nat; eapply (step_try _ _ _ _ _ _ None false); reflexivity|].
    do 5 through 0%nat.
    eapply rtc_l; [exists 3%nat; eapply (step_try_async _ _ _ _ _ _ (Some (seconds 10)) 1); reflexivity|].
    do 5 through 3%nat.
    eapply rtc_l; [exists 1%nat; eapply (step_try _ _ _ _ _ _ (Some (seconds 10)) false); reflexivity|].
    do 5 through 1%nat.
    go 2%nat step_get_state. do 3 through 2%nat.
    eapply rtc_l; [exists 0%nat; eapply step_release; reflexivity|].
    through 0%nat. eapply rtc_l; [exists 0%nat; eapply step_trylock_busy; reflexivity|].
    do 7 through 2%nat. apply rtc_refl.
  - split; [|by vm_compute]. intros [|[|[|[|c]]]]; vm_compute; reflexivity.
Qed.

Lemma seats_never_exceeded_witness : ∃ cf, reachable (eq noon) 1 cf ∧ 0 <= held cf <= 1.
Proof.
  destruct sample_schedule as (cf & Hr & _). exists cf. split; [done|].
  exact (proj1 (seats_never_exceeded (eq noon) 1 cf ltac:(done) Hr)).
Defined.

(** The thread behind the stopped loop's coroutine takes the seat. *)
Lemma no_wake_lost_witness :
  ∃ cf, reachable (eq noon) 1 cf ∧ (∀ c, looks (pcs cf c) = false) ∧ held cf = 0 ∧
    ∃ c cf', blocked_on cf c 1 ∧ rtc (step (eq noon) c) cf cf' ∧ pcs cf' c = ExitSettle Took ∧ held cf' = 1.
Proof.
  destruct sample_schedule as (cf & Hr & Hq & Hpc & Hw & Hk0 & Hk & Hh).
  destruct (no_wake_lost (eq noon) (e_running noon) 1 cf ltac:(done) ltac:(by intros e l <-) Hr Hq)
    as (_ & _ & _ & _ & Hgo).
  rewrite Hw, Hh in Hgo. unfold can_run in Hgo.
  destruct (Hgo noon 1%nat eq_refl ltac:(done) ltac:(set_solver) ltac:(by rewrite Hk)) as (c & w & cf' & Hin & Hrun & _ & Hb & Hs & H1 & H2).
  assert (w = 1%nat) as ->.
  { apply elem_of_cons in Hin as [->|Hin%list_elem_of_singleton]; [|done]. by rewrite Hk0 in Hrun. }
  exists cf. split_and!; [done..|]. by exists c, cf'.
Defined.

(** The only seat is taken; caller 1 is refused at once. *)
Lemma verdicts_are_exact_witness :
  ∃ cf cf', reachable (eq noon) 1 cf ∧ step (eq noon) 1 cf cf' ∧ pcs cf 1%nat = EnterSettle (QTry ThreadWaiter None) ∧
    pcs cf' 1%nat = ExitSettle Refused ∧ held cf = 1 ∧ held cf' = held cf.
Proof.
  assert (Hex : ∃ cf cf', reachable (eq noon) 1 cf ∧ step (eq noon) 1 cf cf' ∧
    pcs cf 1%nat = EnterSettle (QTry ThreadWaiter None) ∧ pcs cf' 1%nat = ExitSettle Refused).
  { eexists _, _. split_and!.
    - unfold reachable.
      eapply rtc_l; [exists 0%nat; eapply (step_try _ _ _ _ _ _ None false); reflexivity|].
      do 5 through 0%nat.
      eapply rtc_l; [exists 1%nat; eapply (step_try _ _ _ _ _ _ (Some (seconds 10)) true); reflexivity|].
      through 1%nat. apply rtc_refl.
    - eapply (step_section _ _ noon); reflexivity.
    - reflexivity.
    - reflexivity. }
  destruct Hex as (cf & cf' & Hr & Hs & Hp & Hp'). exists cf, cf'. split_and!; [done..| |];
    apply (verdicts_are_exact (eq noon) 1 cf cf' 1 _ Refused ltac:(done) Hr Hs Hp Hp').
Defined.
