(* ===== verification/Backoff.v ===== *)
(** Backoff strategies ([core/backoff.py]), their construction from a retry
    configuration ([build_backoff] of [services/retry_handler/models.py]) and the
    adaptive retry budget ([services/backoff_calculator/budget.py]).

    Delays, factors and random draws are exact rationals in place of Python's
    floats; [random.uniform(a, b)] is [a + (b - a) * u] for a draw [u] between 0
    and 1, which is an argument.  The one float effect the code handles, the
    overflow of a power, is modelled: [py_pow] is [None] beyond the range of a
    double.  The budget's ratios are compared in binary64. *)
From Stdlib Require Import QArith Qminmax Qabs Qpower Lqa SpecFloat.
From S2P Require Import Prelude.
#[local] Open Scope Z_scope.

(** [random.uniform(a, b)] for the draw [u] *)
Definition uniform (a b u : Q) : Q := (a + (b - a) * u)%Q.

(** [max(0.0, x)], [min(x, y)] *)
Definition at_least_zero (x : Q) : Q := Qmax 0 x.

Definition apply_capped_jitter (raw_delay max_delay : Q) (jitter : bool) (jitter_factor u : Q) : Q :=
  if negb jitter then at_least_zero (Qmin raw_delay max_delay)
  else if Qle_bool max_delay raw_delay then
    at_least_zero (max_delay - uniform 0 (max_delay * jitter_factor) u)%Q
  else
    let jitter_range := (raw_delay * jitter_factor)%Q in
    let jittered := (raw_delay + uniform (- jitter_range) jitter_range u)%Q in
    at_least_zero (Qmin jittered max_delay).

(** [multiplier ** n] on floats: [OverflowError] outside the range of a double *)
Definition FLOAT_RANGE : Q := Qpower 2 1024.
Definition py_pow (m : Q) (n : Z) : option Q :=
  let r := Qpower m n in if Qle_bool FLOAT_RANGE (Qabs r) then None else Some r.

(** ** The strategies *)
Record exponential := Exponential {
  ex_base_delay : Q; ex_max_delay : Q; ex_multiplier : Q; ex_jitter : bool; ex_jitter_factor : Q;
}.

Record linear := Linear {
  li_base_delay : Q; li_increment : Q; li_max_delay : Q; li_jitter : bool; li_jitter_factor : Q;
}.

Record constant := Constant {
  co_delay : Q; co_jitter : bool; co_jitter_factor : Q; co_max_delay : option Q;
}.

Record decorrelated := Decorrelated {
  de_base_delay : Q; de_max_delay : Q; de_previous_delay : option Q;
}.

Definition exponential_calculate (s : exponential) (attempt : Z) (u : Q) : Q :=
  let raw := match py_pow (ex_multiplier s) (attempt - 1) with
             | Some p => (ex_base_delay s * p)%Q
             | None => ex_max_delay s
             end in
  apply_capped_jitter raw (ex_max_delay s) (ex_jitter s) (ex_jitter_factor s) u.

Definition linear_calculate (s : linear) (attempt : Z) (u : Q) : Q :=
  let raw := (li_base_delay s + li_increment s * inject_Z (attempt - 1))%Q in
  apply_capped_jitter raw (li_max_delay s) (li_jitter s) (li_jitter_factor s) u.

Definition constant_calculate (s : constant) (attempt : Z) (u : Q) : Q :=
  match co_max_delay s with
  | Some m => apply_capped_jitter (co_delay s) m (co_jitter s) (co_jitter_factor s) u
  | None =>
      if co_jitter s then
        let jitter_range := (co_delay s * co_jitter_factor s)%Q in
        at_least_zero (co_delay s + uniform (- jitter_range) jitter_range u)%Q
      else co_delay s
  end.

Definition decorrelated_calculate (s : decorrelated) (attempt : Z) (u : Q) : decorrelated * Q :=
  let delay :=
    match de_previous_delay s with
    | None => de_base_delay s
    | Some p => if attempt =? 1 then de_base_delay s else uniform (de_base_delay s) (p * 3) u
    end in
  let delay := Qmin delay (de_max_delay s) in
  (Decorrelated (de_base_delay s) (de_max_delay s) (Some delay), delay).

Definition decorrelated_reset (s : decorrelated) : decorrelated :=
  Decorrelated (de_base_delay s) (de_max_delay s) None.

(** [BackoffStrategy] *)
Inductive strategy :=
| SExponential (s : exponential)
| SLinear (s : linear)
| SConstant (s : constant)
| SDecorrelated (s : decorrelated).

Definition calculate (s : strategy) (attempt : Z) (u : Q) : strategy * Q :=
  match s with
  | SExponential e => (s, exponential_calculate e attempt u)
  | SLinear l => (s, linear_calculate l attempt u)
  | SConstant c => (s, constant_calculate c attempt u)
  | SDecorrelated d => let '(d, q) := decorrelated_calculate d attempt u in (SDecorrelated d, q)
  end.

Definition reset (s : strategy) : strategy :=
  match s with SDecorrelated d => SDecorrelated (decorrelated_reset d) | _ => s end.

(** [delays(n)]; [us i] is the draw of attempt [i] *)
Definition delays (s : strategy) (n : nat) (us : nat → Q) : list Q :=
  (foldl (λ '(s, acc) i, let '(s, d) := calculate s (Z.of_nat i) (us i) in (s, acc ++ [d]))
     (s, []) (seq 1 n)).2.

(** [get_backoff_calculator]: [None] is the [ValueError] of an unknown name; the
    keyword arguments are the four already built strategies. *)
Definition get_backoff_calculator (name : string) (e : exponential) (l : linear) (c : constant)
    (d : decorrelated) : option strategy :=
  if bool_decide (name = "exponential") then Some (SExponential e)
  else if bool_decide (name = "linear") then Some (SLinear l)
  else if bool_decide (name = "constant") then Some (SConstant c)
  else if bool_decide (name = "decorrelated") then Some (SDecorrelated d)
  else None.

(** ** The configuration's strategy *)
Record backoff_config := BackoffConfig {
  bc_backoff_base : Q; bc_backoff_max : Q; bc_jitter_percent : Q;
  bc_backoff_multiplier : Q; bc_backoff_increment : Q;
  bc_backoff_strategy : string;
}.

Definition FALLBACK_BACKOFF_STRATEGY : string := "exponential".
Definition STATEFUL_BACKOFF_STRATEGY : string := "decorrelated_jitter".

(** [_BACKOFF_BUILDERS.get(name)] *)
Definition BACKOFF_BUILDERS (name : string) : option (backoff_config → bool → strategy) :=
  let factor cfg := (bc_jitter_percent cfg / 100)%Q in
  let widened cfg jitter := jitter && negb (Qle_bool (bc_jitter_percent cfg) 0) in
  if bool_decide (name = "exponential") then
    Some (λ cfg jitter, SExponential (Exponential (bc_backoff_base cfg) (bc_backoff_max cfg)
            (bc_backoff_multiplier cfg) jitter (factor cfg)))
  else if bool_decide (name = "linear") then
    Some (λ cfg jitter, SLinear (Linear (bc_backoff_base cfg) (bc_backoff_increment cfg)
            (bc_backoff_max cfg) (widened cfg jitter) (factor cfg)))
  else if bool_decide (name = "constant") then
    Some (λ cfg jitter, SConstant (Constant (bc_backoff_base cfg) (widened cfg jitter) (factor cfg)
            (Some (bc_backoff_max cfg))))
  else if bool_decide (name = STATEFUL_BACKOFF_STRATEGY) then
    Some (λ cfg _, SDecorrelated (Decorrelated (bc_backoff_base cfg) (bc_backoff_max cfg) None))
  else None.

Definition build_backoff (cfg : backoff_config) (jitter : bool) : strategy :=
  match BACKOFF_BUILDERS (bc_backoff_strategy cfg) with
  | Some builder => builder cfg jitter
  | None => SExponential (Exponential (bc_backoff_base cfg) (bc_backoff_max cfg)
              (bc_backoff_multiplier cfg) jitter (bc_jitter_percent cfg / 100)%Q)
  end.

(** ** The adaptive retry budget *)
Record retry_budget := RetryBudget {
  rb_max_retry_ratio : float;
  rb_current_retry_count : Z;
  rb_current_total_count : Z;
  rb_window : Z;
  rb_window_start : Z;
}.

Definition maybe_reset_window (b : retry_budget) (now : Z) : retry_budget :=
  if rb_window b <? now - rb_window_start b
  then RetryBudget (rb_max_retry_ratio b) 0 0 (rb_window b) now
  else b.

Definition should_allow_retry (b : retry_budget) (now : Z) : retry_budget * bool :=
  let b := maybe_reset_window b now in
  (b, if rb_current_total_count b =? 0 then true
      else fl_ltb (fl_div (fl_of_Z (rb_current_retry_count b)) (fl_of_Z (rb_current_total_count b)))
             (rb_max_retry_ratio b)).

Definition record_request (b : retry_budget) (now : Z) (is_retry : bool) : retry_budget :=
  let b := maybe_reset_window b now in
  RetryBudget (rb_max_retry_ratio b)
    (if is_retry then rb_current_retry_count b + 1 else rb_current_retry_count b)
    (rb_current_total_count b + 1) (rb_window b) (rb_window_start b).

(** A decimal literal [n / d] of the source *)
Definition fl_ratio (n d : Z) : float := fl_div (fl_of_Z n) (fl_of_Z d).

(** [THROTTLE_BUDGET_RATIOS], as an association list *)
Definition THROTTLE_BUDGET_RATIOS : dict string float :=
  [("normal", fl_ratio 10 100); ("sla_warning", fl_ratio 7 100); ("sla_critical", fl_ratio 5 100);
   ("emergency_level_1", fl_ratio 3 100); ("emergency_level_2", fl_ratio 3 100);
   ("emergency_1_2", fl_ratio 3 100); ("emergency_level_3", fl_ratio 1 100);
   ("emergency_3", fl_ratio 1 100); ("full_stop", fl_of_Z 0); ("full_stop_active", fl_of_Z 0)].

Definition adjust_budget_for_throttle_state (b : retry_budget) (throttle_reason : string) : retry_budget :=
  RetryBudget
    (match dget THROTTLE_BUDGET_RATIOS throttle_reason with
     | Some ratio => ratio
     | None => fl_ratio 5 100
     end)
    (rb_current_retry_count b) (rb_current_total_count b) (rb_window b) (rb_window_start b).

(** ** Every delay stays within its cap *)

Definition draw (u : Q) : Prop := (0 <= u <= 1)%Q.

Lemma capped_jitter_bounds raw m jitter jf u :
  (0 <= m)%Q → (0 <= jf)%Q → draw u → (0 <= apply_capped_jitter raw m jitter jf u <= m)%Q.
Proof.
  intros Hm Hj [Hu0 Hu1]. unfold apply_capped_jitter, at_least_zero.
  destruct (negb jitter); [|destruct (Qle_bool m raw)].
  - destruct (Q.min_spec raw m) as [[? E]|[? E]], (Q.max_spec 0 (Qmin raw m)) as [[? F]|[? F]];
      rewrite F; rewrite E in *; split; lra.
  - unfold uniform. assert (0 <= (m * jf - 0) * u)%Q.
    { apply Qmult_le_0_compat; [|done]. assert (0 <= m * jf)%Q by (by apply Qmult_le_0_compat). lra. }
    destruct (Q.max_spec 0 (m - (0 + (m * jf - 0) * u))) as [[? E]|[? E]]; rewrite E; split; lra.
  - set (x := (raw + uniform _ _ u)%Q).
    destruct (Q.min_spec x m) as [[? E]|[? E]], (Q.max_spec 0 (Qmin x m)) as [[? F]|[? F]];
      rewrite F; rewrite E in *; split; lra.
Qed.

(** A decorrelated strategy remembers a non-negative delay. *)
Definition sane (m : Q) (s : strategy) : Prop :=
  match s with
  | SExponential e => ex_max_delay e = m ∧ (0 <= ex_jitter_factor e)%Q
  | SLinear l => li_max_delay l = m ∧ (0 <= li_jitter_factor l)%Q
  | SConstant c => co_max_delay c = Some m ∧ (0 <= co_jitter_factor c)%Q
  | SDecorrelated d => de_max_delay d = m ∧ (0 <= de_base_delay d)%Q ∧
      match de_previous_delay d with Some p => (0 <= p)%Q | None => True end
  end.

Lemma calculate_sane m s attempt u :
  (0 <= m)%Q → draw u → sane m s →
  sane m (calculate s attempt u).1 ∧ (0 <= (calculate s attempt u).2 <= m)%Q.
Proof.
  intros Hm Hu Hs. destruct s as [e|l|c|d]; cbn [sane calculate fst snd] in *.
  - destruct Hs as [<- ?]. split; [by split|]. by apply capped_jitter_bounds.
  - destruct Hs as [<- ?]. split; [by split|]. by apply capped_jitter_bounds.
  - split; [done|]. destruct Hs as [Hm' ?]. unfold constant_calculate. rewrite Hm'.
    by apply capped_jitter_bounds.
  - destruct Hs as (<- & Hb & Hp). unfold decorrelated_calculate.
    set (x := match de_previous_delay d with Some _ => _ | None => _ end).
    assert (Hx : (0 <= x)%Q).
    { subst x. destruct (de_previous_delay d) as [p|]; [|done]. destruct (attempt =? 1); [done|].
      unfold uniform. destruct Hu. nra. }
    cbn [sane fst snd de_max_delay de_base_delay de_previous_delay].
    destruct (Q.min_spec x (de_max_delay d)) as [[? E]|[? E]]; rewrite !E; (split; [split_and!; [done|done|lra]|split; lra]).
Qed.

Lemma delays_sane m s n us :
  (0 <= m)%Q → (∀ i, draw (us i)) → sane m s → Forall (λ d, 0 <= d <= m)%Q (delays s n us).
Proof.
  intros Hm Hu Hs. unfold delays.
  assert (H : ∀ l s acc, sane m s → Forall (λ d, 0 <= d <= m)%Q acc →
    Forall (λ d, 0 <= d <= m)%Q
      (foldl (λ '(s, acc) i, let '(s, d) := calculate s (Z.of_nat i) (us i) in (s, acc ++ [d])) (s, acc) l).2).
  { induction l as [|i l IH]; intros s' acc Hs' Ha; [done|]. cbn [foldl].
    destruct (calculate_sane m s' (Z.of_nat i) (us i) Hm (Hu i) Hs') as [H1 H2].
    destruct (calculate s' (Z.of_nat i) (us i)) as [s1 d]. apply IH; [done|]. apply Forall_app. split; [done|].
    by constructor. }
  by apply H.
Qed.

Lemma build_backoff_sane cfg jitter :
  (0 <= bc_backoff_base cfg)%Q → (0 <= bc_jitter_percent cfg)%Q →
  sane (bc_backoff_max cfg) (build_backoff cfg jitter).
Proof.
  intros Hb Hj. assert (Hf : (0 <= bc_jitter_percent cfg / 100)%Q) by (apply Qle_shift_div_l; [done|lra]).
  unfold build_backoff, BACKOFF_BUILDERS. by repeat case_bool_decide.
Qed.

(** Every delay of the strategy a retry configuration builds, whatever its
    name (an unknown one falls back to exponential), its jitter and the random
    draws, lies between zero and the configured maximum: the cap holds for the
    jittered value too. *)
Theorem delays_within_cap cfg jitter n us :
  (0 <= bc_backoff_base cfg)%Q → (0 <= bc_backoff_max cfg)%Q → (0 <= bc_jitter_percent cfg)%Q →
  (∀ i, draw (us i)) →
  Forall (λ d, 0 <= d <= bc_backoff_max cfg)%Q (delays (build_backoff cfg jitter) n us).
Proof. intros. apply delays_sane; [done..|]. by apply build_backoff_sane. Qed.

(** ** The overflow guard is exact *)

(** The delay without the guard, for unbounded floats. *)
Definition ideal_exponential (s : exponential) (attempt : Z) (u : Q) : Q :=
  apply_capped_jitter (ex_base_delay s * Qpower (ex_multiplier s) (attempt - 1))%Q
    (ex_max_delay s) (ex_jitter s) (ex_jitter_factor s) u.

(** Saturated delays do not depend on the raw value. *)
Lemma capped_jitter_saturated raw raw' m jitter jf u :
  (m <= raw)%Q → (m <= raw')%Q → (apply_capped_jitter raw m jitter jf u == apply_capped_jitter raw' m jitter jf u)%Q.
Proof.
  intros H1 H2. unfold apply_capped_jitter, at_least_zero. destruct (negb jitter).
  - by rewrite !Q.min_r.
  - rewrite (proj2 (Qle_bool_iff m raw) H1), (proj2 (Qle_bool_iff m raw') H2). reflexivity.
Qed.

(** Saturating instead of raising is exact: where the power overflows a double
    the delay is the one unbounded arithmetic gives, for every attempt, as long
    as the base is not so small that an overflowing power times it would still
    be below the cap. *)
Theorem overflow_guard_exact s attempt u :
  (0 <= ex_base_delay s)%Q → (0 <= ex_multiplier s)%Q →
  (ex_max_delay s <= ex_base_delay s * FLOAT_RANGE)%Q →
  (exponential_calculate s attempt u == ideal_exponential s attempt u)%Q.
Proof.
  intros Hb Hm Hcap. unfold exponential_calculate, ideal_exponential, py_pow.
  destruct (Qle_bool FLOAT_RANGE (Qabs (Qpower (ex_multiplier s) (attempt - 1)))) eqn:E; [|reflexivity].
  apply Qle_bool_iff in E. rewrite Qabs_pos in E by (by apply Qpower_pos).
  apply capped_jitter_saturated; [lra|]. apply (Qle_trans _ _ _ Hcap).
  rewrite !(Qmult_comm (ex_base_delay s)). by apply Qmult_le_compat_r.
Qed.

(** Without jitter the first retry waits exactly the base delay (or the cap),
    and the delays never shrink from one attempt to the next, through and beyond
    the overflow of the power. *)
Theorem exponential_ladder s attempt u :
  ex_jitter s = false → (0 <= ex_base_delay s)%Q → (1 <= ex_multiplier s)%Q → (0 <= ex_max_delay s)%Q →
  (ex_max_delay s <= ex_base_delay s * FLOAT_RANGE)%Q → 1 <= attempt →
  (exponential_calculate s 1 u == Qmin (ex_base_delay s) (ex_max_delay s))%Q ∧
  (exponential_calculate s attempt u <= exponential_calculate s (attempt + 1) u)%Q.
Proof.
  intros Hj Hb Hm Hx Hcap Ha.
  assert (Hpos : ∀ n, (0 <= Qpower (ex_multiplier s) n)%Q) by (intros n; apply Qpower_pos; lra).
  rewrite !overflow_guard_exact by (done || lra). unfold ideal_exponential, apply_capped_jitter, at_least_zero.
  rewrite Hj. cbn [negb].
  assert (Hmin : ∀ n, (0 <= Qmin (ex_base_delay s * Qpower (ex_multiplier s) n) (ex_max_delay s))%Q).
  { intros n. apply Q.min_glb; [|done]. by apply Qmult_le_0_compat. }
  rewrite !Q.max_r by apply Hmin. split.
  - change (1 - 1) with 0. change (Qpower (ex_multiplier s) 0) with 1%Q. by rewrite Qmult_1_r.
  - apply Q.min_le_compat_r. replace (attempt + 1 - 1) with (Z.succ (attempt - 1)) by lia.
    assert (He : (Qpower (ex_multiplier s) (Z.succ (attempt - 1)) ==
      Qpower (ex_multiplier s) (attempt - 1) * ex_multiplier s)%Q).
    { unfold Z.succ. rewrite Qpower_plus by lra. by change (Qpower (ex_multiplier s) 1) with (ex_multiplier s). }
    rewrite He. specialize (Hpos (attempt - 1)). rewrite Qmult_assoc.
    assert (0 <= ex_base_delay s * Qpower (ex_multiplier s) (attempt - 1))%Q by (by apply Qmult_le_0_compat).
    nra.
Qed.

(** The shipped ladder: one second doubling to one minute, 25 percent jitter. *)
Definition shipped_backoff : backoff_config := BackoffConfig 1 60 25 2 1 "exponential".
Definition shipped_exponential : exponential := Exponential 1 60 2 false 0.

Lemma delays_within_cap_witness :
  Forall (λ d, 0 <= d <= 60)%Q (delays (build_backoff shipped_backoff true) 9 (λ _, 1%Q)) ∧
  Qeq_bool (List.last (delays (build_backoff shipped_backoff true) 3 (λ _, 1%Q)) 0%Q) 5%Q = true.
Proof.
  split; [|by vm_compute].
  apply (delays_within_cap shipped_backoff true 9 (λ _, 1%Q)); by vm_compute || (intros; by vm_compute).
Defined.

(** Attempt 2000: the power is far outside the range of a double. *)
Lemma overflow_guard_exact_witness :
  py_pow 2 1999 = None ∧ (exponential_calculate shipped_exponential 2000 0 == ideal_exponential shipped_exponential 2000 0)%Q.
Proof. split; [by vm_compute|]. apply (overflow_guard_exact shipped_exponential 2000 0); by vm_compute. Defined.

Lemma exponential_ladder_witness :
  (exponential_calculate shipped_exponential 1 0 == Qmin 1 60)%Q ∧
  (exponential_calculate shipped_exponential 4 0 <= exponential_calculate shipped_exponential (4 + 1) 0)%Q.
Proof. apply (exponential_ladder shipped_exponential 4 0); by vm_compute. Defined.
