(* ===== verification/Retry.v ===== *)
(** Retrying: the primitive [retry_with_backoff] of [core/retry.py] and the loop of
    [RetryPolicy.execute] ([services/retry_handler/policy.py]).

    What the loop calls is given to it: the protected function, the clock, the
    sleeper, the coordinator of 429 cooldowns, the retry budget and the
    observation of outcomes are functions on an abstract world [W], so the
    theorems hold whatever they do.  Both loops also return the trace of what
    they did and, for the policy, of what it was told: the clock readings, the
    delays planned, the answers of the retry budget and of the coordinator.  Seconds are rationals, as in [Backoff]; logging is not modelled. *)
From Stdlib Require Import QArith Qminmax Lqa.
From S2P Require Import Prelude Backoff.
#[local] Open Scope Z_scope.

(** What [wait_if_needed] reports. *)
Record rl_result := RLResult {
  rl_deferred : bool;
  rl_not_before : option Q;
  rl_waited : bool;
  rl_was_rate_limited : bool;
}.

(** What the loops did and were told, oldest first. *)
Inductive event (E V : Type) :=
| Started (attempt : Z)                     (* an attempt was admitted *)
| Called (r : E + V)                        (* the function was called *)
| OnRetry (attempt : Z) (wait : Q)          (* the callback ran *)
| Slept (elapsed delay : Q)                 (* slept [delay], [elapsed] into the call *)
| Exhausted (attempts : Z)                  (* the exhaustion callback or event *)
| DeadlineStop                              (* the deadline's owner was told *)
| Elapsed (elapsed : Q)                     (* the clock was read, [elapsed] into the call *)
| Planned (delay : Q)                       (* the strategy gave the next delay *)
| Asked (ok : bool)                         (* the retry budget's answer *)
| Cooldown (r : option rl_result).          (* the coordinator's answer; [None]: it raised *)
Arguments Started {E V}. Arguments Called {E V}. Arguments OnRetry {E V}.
Arguments Slept {E V}. Arguments Exhausted {E V}. Arguments DeadlineStop {E V}.
Arguments Elapsed {E V}. Arguments Planned {E V}. Arguments Asked {E V}. Arguments Cooldown {E V}.

Definition calls {E V} (tr : list (event E V)) : list (E + V) :=
  omap (λ ev, match ev with Called r => Some r | _ => None end) tr.

Definition sleeps {E V} (tr : list (event E V)) : list Q :=
  omap (λ ev, match ev with Slept _ d => Some d | _ => None end) tr.

(** ** [retry_with_backoff] *)
Section primitive.
  Context {W E V : Type}.
  Context (func : W → (E + V) * W) (retryable : E → bool).
  (** [on_retry] / [on_exhausted] (an absent callback does nothing), the sleeper,
      and the random draw a strategy makes. *)
  Context (on_retry on_exhausted : E → W → W) (sleep : Q → W → W) (draw_random : W → Q * W).

Record retry_outcome := RetryOutcome {
  ro_success : bool;
  ro_result : option V;
  ro_exception : option E;
  ro_attempts : Z;
  ro_total_wait : Q;
}.

(** The body of the [for] loop; [n] attempts are left. *)
Fixpoint retry_loop (n : nat) (attempt max_retries : Z) (backoff : strategy) (last : option E)
    (total_wait : Q) (w : W) (tr : list (event E V)) : retry_outcome * W * list (event E V) :=
  match n with
  | O =>
      let '(w, tr) :=
        match last with
        | Some e => (on_exhausted e w, tr ++ [Exhausted max_retries])
        | None => (w, tr)
        end in
      (RetryOutcome false None last max_retries total_wait, w, tr)
  | S n =>
      let '(r, w) := func w in
      let tr := tr ++ [Called r] in
      match r with
      | inr v => (RetryOutcome true (Some v) None (attempt + 1) 0, w, tr)
      | inl e =>
          if retryable e then
            if attempt <? max_retries - 1 then
              let '(u, w) := draw_random w in
              let '(backoff, wait) := calculate backoff (attempt + 1) u in
              let total_wait' := (total_wait + wait)%Q in
              let w := on_retry e w in
              retry_loop n (attempt + 1) max_retries backoff (Some e) total_wait' (sleep wait w)
                (tr ++ [OnRetry attempt wait; Slept total_wait wait])
            else
              retry_loop n (attempt + 1) max_retries backoff (Some e) total_wait (on_retry e w)
                (tr ++ [OnRetry attempt 0])
          else (RetryOutcome false None (Some e) (attempt + 1) total_wait, w, tr)
      end
  end.

Definition retry_with_backoff (max_retries : Z) (backoff : strategy) (w : W) :
    retry_outcome * W * list (event E V) :=
  retry_loop (Z.to_nat max_retries) 0 max_retries backoff None 0 w [].

(** What the loop promises about the calls it made and the outcome it returns. *)
Definition outcome_explains (max_retries : Z) (o : retry_outcome) (cs : list (E + V)) : Prop :=
  ro_attempts o = Zlength cs ∧ Zlength cs <= max_retries ∧
  match ro_success o, ro_result o, ro_exception o with
  | true, Some v, None => ∃ l, cs = l ++ [inr v] ∧ Forall (λ r, ∃ e, r = inl e ∧ retryable e = true) l
  | false, None, Some e =>
      ∃ l, cs = l ++ [inl e] ∧ Forall (λ r, ∃ e, r = inl e ∧ retryable e = true) l ∧
        (retryable e = true → Zlength cs = max_retries)
  | false, None, None => cs = [] ∧ max_retries = 0
  | _, _, _ => False
  end.

Definition all_waits (tr : list (event E V)) : Q := foldr Qplus 0%Q (sleeps tr).

Lemma calls_app tr1 tr2 : calls (E := E) (V := V) (tr1 ++ tr2) = calls tr1 ++ calls tr2.
Proof. unfold calls. by rewrite omap_app. Qed.

Lemma sleeps_app tr1 tr2 : sleeps (E := E) (V := V) (tr1 ++ tr2) = sleeps tr1 ++ sleeps tr2.
Proof. unfold sleeps. by rewrite omap_app. Qed.

Lemma retry_loop_spec n attempt max_retries backoff last total_wait w tr :
  Z.of_nat n + attempt = max_retries → attempt = Zlength (calls tr) →
  Forall (λ r, ∃ e, r = inl e ∧ retryable e = true) (calls tr) →
  (match last with Some e => ∃ l, calls tr = l ++ [inl e] | None => calls tr = [] end) →
  let '(o, _, tr') := retry_loop n attempt max_retries backoff last total_wait w tr in
  outcome_explains max_retries o (calls tr').
Proof using.
  revert attempt backoff last total_wait w tr.
  induction n as [|n IH]; intros attempt backoff last total_wait w tr Hn Ha Hf Hl; cbn [retry_loop].
  { assert (Hlen : max_retries = Zlength (calls tr)) by lia. destruct last as [e|]; unfold outcome_explains;
      cbn [ro_attempts ro_success ro_result ro_exception].
    - rewrite calls_app, app_nil_r. split_and!; [done|lia|]. destruct Hl as [l Hl]. exists l.
      split_and!; [done| |lia]. rewrite Hl in Hf. by apply Forall_app in Hf as [? _].
    - split_and!; [done|lia|done|]. rewrite Hl in Hlen. by rewrite Hlen. }
  destruct (func w) as [r w1]. assert (Hlen : Zlength (calls (tr ++ [Called r])) = attempt + 1).
  { rewrite calls_app, Zlength_app, Ha. done. }
  assert (Hlast : calls (tr ++ [Called r]) = calls tr ++ [r]) by (by rewrite calls_app).
  destruct r as [e|v].
  - destruct (retryable e) eqn:Hr.
    + assert (Hf' : Forall (λ r, ∃ e, r = inl e ∧ retryable e = true) (calls tr ++ [inl e])).
      { apply Forall_app. split; [done|]. constructor; eauto. }
      assert (Hc : ∀ x, calls x = [] → calls ((tr ++ [Called (inl e)]) ++ x) = calls tr ++ [inl e]).
      { intros x Hx. rewrite calls_app, Hx, app_nil_r. done. }
      destruct (attempt <? max_retries - 1).
      * destruct (draw_random w1) as [u w2]. destruct (calculate backoff (attempt + 1) u) as [b wait].
        apply IH; [lia|rewrite Hc, <-Hlast by done; lia|by rewrite Hc|rewrite Hc by done; eauto].
      * apply IH; [lia|rewrite Hc, <-Hlast by done; lia|by rewrite Hc|rewrite Hc by done; eauto].
    + unfold outcome_explains. cbn [ro_attempts ro_success ro_result ro_exception]. split_and!; [lia|lia|].
      exists (calls tr). rewrite Hlast. split_and!; [done|done|]. congruence.
  - unfold outcome_explains. cbn [ro_attempts ro_success ro_result ro_exception]. split_and!; [lia|lia|].
    exists (calls tr). by rewrite Hlast.
Qed.

(** The primitive's outcome explains what it did, whatever the function, the
    callbacks and the strategy do: it calls the function once per reported
    attempt and at most [max_retries] times; it succeeds exactly with the value
    of the first call that returned, after retryable failures only; it fails with
    the error of its last call, and with a retryable one only when every attempt
    was used. *)
Theorem retry_outcome_explained max_retries backoff w :
  0 <= max_retries →
  let '(o, _, tr) := retry_with_backoff max_retries backoff w in
  outcome_explains max_retries o (calls tr).
Proof using.
  intros Hm. unfold retry_with_backoff. apply retry_loop_spec; [lia|done|constructor|done].
Qed.
End primitive.

(** A function that fails [k] times and then returns 7; the world counts calls. *)
Definition flaky (k : nat) (w : nat) : (string + Z) * nat :=
  (if (w <? k)%nat then inl "timeout" else inr 7, S w).

Definition plain_backoff : strategy := SExponential (Exponential 1 60 2 false 0).

Definition run_flaky (k : nat) (max_retries : Z) :=
  retry_with_backoff (flaky k) (λ _, true) (λ _ w, w) (λ _ w, w) (λ _ w, w) (λ w, (0%Q, w))
    max_retries plain_backoff 0%nat.

Lemma retry_outcome_explained_witness :
  (let '(o, _, tr) := run_flaky 2 3 in outcome_explains (λ _, true) 3 o (calls tr)) ∧
  calls (run_flaky 2 3).2 = [inl "timeout"; inl "timeout"; inr 7].
Proof. split; [|by vm_compute]. apply (retry_outcome_explained (flaky 2)). done. Defined.

(** A success after retries reports no waiting time: two failures and three
    seconds of sleep later the outcome's cumulative sleep is zero. *)
Theorem success_forgets_wait :
  let '(o, _, tr) := run_flaky 2 3 in
  ro_success o = true ∧ (all_waits tr == 3)%Q ∧ (ro_total_wait o == 0)%Q.
Proof. by vm_compute. Qed.

(** ** [RetryPolicy.execute] *)

Inductive stop_reason := MaxAttempts | MaxElapsed | Deadline | RetryBudgetSpent | RateLimitDeferred | NonRetryable.

#[export] Instance stop_reason_eq_dec : EqDecision stop_reason.
Proof. solve_decision. Defined.

(** The error of a failed execution: the function's own, the deferral or the
    exhaustion the loop synthesises. *)
Inductive policy_error (E : Type) :=
| Raised (e : E)
| RateLimitDeferredError (key : string) (not_before : option Q)
| MaxRetriesExceededError (retry_count max_retries : Z).
Arguments Raised {E}. Arguments RateLimitDeferredError {E}. Arguments MaxRetriesExceededError {E}.

(** A retry history entry: the attempt, and whether its result was rejected. *)
Record history_entry := HistoryEntry { he_attempt : Z; he_result_rejected : bool }.

Record policy_result (E V : Type) := PolicyResult {
  pr_success : bool;
  pr_value : option V;
  pr_error : option (policy_error E);
  pr_total_attempts : Z;
  pr_reason : option stop_reason;
  pr_not_before : option Q;
  pr_history : list history_entry;
}.
Arguments PolicyResult {E V}. Arguments pr_success {E V}. Arguments pr_value {E V}. Arguments pr_error {E V}.
Arguments pr_total_attempts {E V}. Arguments pr_reason {E V}. Arguments pr_not_before {E V}. Arguments pr_history {E V}.

(** The configuration fields the loop reads. *)
Record policy_config := PolicyConfig {
  pc_max_attempts : Z;
  pc_max_elapsed : option Q;
  pc_rate_limit_key : string;
}.

(** [__init__] refuses a count below 1. *)
Definition policy_init (cfg : policy_config) : option policy_config :=
  if pc_max_attempts cfg <? 1 then None else Some cfg.

(** [_resolve_effective_budget]; the request's remaining time, if it has a deadline. *)
Definition resolve_effective_budget (knob deadline : option Q) : option Q * stop_reason :=
  match knob, deadline with
  | None, None => (None, MaxElapsed)
  | None, Some d => (Some d, Deadline)
  | Some k, None => (Some k, MaxElapsed)
  | Some k, Some d => if Qle_bool k d then (Some k, MaxElapsed) else (Some d, Deadline)
  end.

Section policy.
  Context {W E V : Type}.
  Context (func : W → (E + V) * W) (clock : W → Q * W) (draw_random : W → Q * W) (sleeper : Q → W → W).
  (** [_should_retry]; whether an exception is an inner deferral, and its
      [not_before]; [_evaluate_result_rejected]. *)
  Context (should_retry : E → bool) (inner_deferral : E → option (option Q)) (result_rejected : V → bool).
  (** The collaborators: the retry budget's two calls, the coordinator's wait
      ([None]: it raised) and success notice, the observation of one outcome. *)
  Context (budget_record : option (bool → W → W)) (budget_allows : W → bool * W).
  Context (coordinator_wait : option (option Q → W → option rl_result * W)) (coordinator_success : W → W).
  Context (observe : (E + V) → W → bool * W).
  Context (cfg : policy_config).

(** The loop's local variables. *)
Record loop_state := LoopState {
  ls_attempt : Z;
  ls_last_error : option (policy_error E);
  ls_last_result : option V;
  ls_result_rejected : bool;
  ls_history : list history_entry;
  ls_signal : bool;
  ls_backoff : strategy;
  ls_world : W;
  ls_trace : list (event E V);
}.

Inductive loop_exit :=
| Return (v : V) (attempt : Z) (s : loop_state)
| Break (reason : stop_reason) (not_before : option Q) (s : loop_state).

Definition with_world (s : loop_state) (w : W) : loop_state :=
  LoopState (ls_attempt s) (ls_last_error s) (ls_last_result s) (ls_result_rejected s) (ls_history s)
    (ls_signal s) (ls_backoff s) w (ls_trace s).

Definition with_event (s : loop_state) (ev : event E V) : loop_state :=
  LoopState (ls_attempt s) (ls_last_error s) (ls_last_result s) (ls_result_rejected s) (ls_history s)
    (ls_signal s) (ls_backoff s) (ls_world s) (ls_trace s ++ [ev]).

Definition with_signal (s : loop_state) (b : bool) : loop_state :=
  LoopState (ls_attempt s) (ls_last_error s) (ls_last_result s) (ls_result_rejected s) (ls_history s)
    (ls_signal s || b) (ls_backoff s) (ls_world s) (ls_trace s).

(** [time.monotonic() - start] *)
Definition elapsed_since (start : Q) (s : loop_state) : Q * loop_state :=
  let '(now, w) := clock (ls_world s) in
  ((now - start)%Q, with_event (with_world s w) (Elapsed (now - start)%Q)).

(** Check (i), at the top of the loop: the budget is spent. *)
Definition budget_spent (start : Q) (budget : option Q) (s : loop_state) : bool * loop_state :=
  match budget with
  | Some b =>
      if 1 <? ls_attempt s
      then let '(e, s) := elapsed_since start s in (Qle_bool b e, s)
      else (false, s)
  | None => (false, s)
  end.

(** The adaptive budget: count the request, and refuse a retry it does not cover. *)
Definition budget_refuses (s : loop_state) : bool * loop_state :=
  match budget_record with
  | None => (false, s)
  | Some record =>
      let s := with_world s (record (1 <? ls_attempt s) (ls_world s)) in
      if 1 <? ls_attempt s
      then let '(ok, w) := budget_allows (ls_world s) in (negb ok, with_event (with_world s w) (Asked ok))
      else (false, s)
  end.

(** The cooldown wait, bounded by the budget left; [inl]: deferred. *)
Definition cooldown (start : Q) (budget : option Q) (s : loop_state) : option Q * loop_state + loop_state :=
  match coordinator_wait with
  | None => inr s
  | Some wait =>
      let '(bound, s) :=
        match budget with
        | None => (None, s)
        | Some b => let '(e, s) := elapsed_since start s in (Some (Qmax 0 (b - e)%Q), s)
        end in
      let '(r, w) := wait bound (ls_world s) in
      let s := with_event (with_world s w) (Cooldown r) in
      match r with
      | None => inr s
      | Some r =>
          if rl_deferred r then inl (rl_not_before r, s)
          else inr (with_signal s (rl_waited r || rl_was_rate_limited r))
      end
  end.

(** The function raised [e]: remember it, observe it. *)
Definition note_error (e : E) (s : loop_state) : loop_state :=
  let s := LoopState (ls_attempt s) (Some (Raised e)) None false
             (ls_history s ++ [HistoryEntry (ls_attempt s) false]) (ls_signal s) (ls_backoff s)
             (ls_world s) (ls_trace s) in
  let '(b, w) := observe (inl e) (ls_world s) in
  with_signal (with_world s w) b.

(** The predicate rejected [v]: observe it, remember it. *)
Definition note_rejected (v : V) (s : loop_state) : loop_state :=
  let '(b, w) := observe (inr v) (ls_world s) in
  let s := with_signal (with_world s w) b in
  LoopState (ls_attempt s) None (Some v) true
    (ls_history s ++ [HistoryEntry (ls_attempt s) true]) (ls_signal s) (ls_backoff s)
    (ls_world s) (ls_trace s).

(** The value is accepted: observe it, or tell the coordinator. *)
Definition note_success (v : V) (s : loop_state) : loop_state :=
  let '(b, w) := observe (inr v) (ls_world s) in
  let s := with_signal (with_world s w) b in
  if negb b && ls_signal s && (if coordinator_wait then true else false)
  then with_world s (coordinator_success (ls_world s)) else s.

(** The shared failure tail: out of attempts, no room for the delay, or sleep. *)
Definition failure_tail (start : Q) (budget : option Q) (budget_reason : stop_reason) (s : loop_state) :
    loop_exit + loop_state :=
  if pc_max_attempts cfg <=? ls_attempt s then inl (Break MaxAttempts None s)
  else
    let '(u, w) := draw_random (ls_world s) in
    let '(backoff, delay) := calculate (ls_backoff s) (ls_attempt s) u in
    let s := LoopState (ls_attempt s) (ls_last_error s) (ls_last_result s) (ls_result_rejected s)
               (ls_history s) (ls_signal s) backoff w (ls_trace s ++ [Planned delay]) in
    let '(e, s) := match budget with Some _ => elapsed_since start s | None => (0%Q, s) end in
    if match budget with Some b => negb (Qle_bool (e + delay) b) | None => false end
    then inl (Break budget_reason None s)
    else if Qle_bool delay 0 then inr s
    else inr (with_world (with_event s (Slept e delay)) (sleeper delay (ls_world s))).

(** What the call's result leads to. *)
Definition classify (start : Q) (budget : option Q) (budget_reason : stop_reason) (r : E + V) (s : loop_state) :
    loop_exit + loop_state :=
  match r with
  | inl e =>
      let s := note_error e s in
      if should_retry e then failure_tail start budget budget_reason s
      else match inner_deferral e with
           | Some not_before => inl (Break RateLimitDeferred not_before s)
           | None => inl (Break NonRetryable None s)
           end
  | inr v =>
      if result_rejected v then failure_tail start budget budget_reason (note_rejected v s)
      else inl (Return v (ls_attempt s) (note_success v s))
  end.

(** One attempt: the checks, the call and its classification. *)
Definition attempt_once (start : Q) (budget : option Q) (budget_reason : stop_reason) (s : loop_state) :
    loop_exit + loop_state :=
  let s := LoopState (ls_attempt s + 1) (ls_last_error s) (ls_last_result s) (ls_result_rejected s)
             (ls_history s) (ls_signal s) (ls_backoff s) (ls_world s) (ls_trace s) in
  let '(spent, s) := budget_spent start budget s in
  if spent then inl (Break budget_reason None s) else
  let '(refused, s) := budget_refuses s in
  if refused then inl (Break RetryBudgetSpent None s) else
  let s := with_event s (Started (ls_attempt s)) in
  match cooldown start budget s with
  | inl (not_before, s) => inl (Break RateLimitDeferred not_before s)
  | inr s =>
      let '(r, w) := func (ls_world s) in
      let s := with_world (with_event s (Called r)) w in
      classify start budget budget_reason r s
  end.

(** [while attempt < max_attempts]; [n] attempts are left. *)
Fixpoint execute_loop (n : nat) (start : Q) (budget : option Q) (budget_reason : stop_reason)
    (s : loop_state) : loop_exit :=
  match n with
  | O => Break MaxAttempts None s
  | S n =>
      match attempt_once start budget budget_reason s with
      | inl e => e
      | inr s => execute_loop n start budget budget_reason s
      end
  end.

(** What the exits synthesise. *)
Definition terminal_error (reason : stop_reason) (not_before : option Q) (s : loop_state) :
    option (policy_error E) :=
  match ls_last_error s with
  | Some e => Some e
  | None =>
      if bool_decide (reason = RateLimitDeferred)
      then Some (RateLimitDeferredError (pc_rate_limit_key cfg) not_before)
      else if ls_result_rejected s
      then Some (MaxRetriesExceededError (ls_attempt s) (pc_max_attempts cfg))
      else None
  end.

Definition conclude (budget_reason : stop_reason) (x : loop_exit) : policy_result E V * W * list (event E V) :=
  match x with
  | Return v attempt s =>
      (PolicyResult true (Some v) None attempt None None [], ls_world s, ls_trace s)
  | Break reason not_before s =>
      (PolicyResult false (if ls_result_rejected s then ls_last_result s else None)
         (terminal_error reason not_before s) (ls_attempt s) (Some reason)
         (if bool_decide (reason = RateLimitDeferred) then not_before else None) (ls_history s),
       ls_world s,
       ls_trace s ++
       (if bool_decide (budget_reason = Deadline) && bool_decide (reason = Deadline ∨ reason = RateLimitDeferred)
        then [DeadlineStop] else []) ++ [Exhausted (ls_attempt s)])
  end.

(** [execute] past its two single-attempt paths, for a strategy of its own. *)
Definition execute (deadline : option Q) (backoff : strategy) (w : W) :
    policy_result E V * W * list (event E V) :=
  let '(start, w) := clock w in
  let '(budget, budget_reason) := resolve_effective_budget (pc_max_elapsed cfg) deadline in
  conclude budget_reason (execute_loop (Z.to_nat (pc_max_attempts cfg)) start budget budget_reason
              (LoopState 0 None None false [] false backoff w [])).

(** [_single_attempt]: retries disabled, or observe-only. *)
Definition single_attempt (w : W) : policy_result E V * W * list (event E V) :=
  let '(r, w) := func w in
  match r with
  | inr v => (PolicyResult true (Some v) None 1 None None [], w, [Started 1; Called r])
  | inl e => (PolicyResult false None (Some (Raised e)) 1 (Some MaxAttempts) None [HistoryEntry 1 false],
              w, [Started 1; Called r])
  end.

(** The whole method: the two suppressions, then the loop. *)
Definition execute_method (globally_enabled suppressed : bool) (deadline : option Q) (backoff : strategy)
    (w : W) : policy_result E V * W * list (event E V) :=
  if negb globally_enabled || suppressed then single_attempt w else execute deadline backoff w.

(** *** What the loop did *)

Definition soft (r : E + V) : Prop :=
  match r with inl e => should_retry e = true | inr v => result_rejected v = true end.

(** What a failed loop remembers of its last call: the error, or the rejected value. *)
Definition last_error_of (cs : list (E + V)) : option (policy_error E) :=
  match last cs with Some (inl e) => Some (Raised e) | _ => None end.

Definition last_value_of (cs : list (E + V)) : option V :=
  match last cs with Some (inr v) => Some v | _ => None end.

Definition is_value (r : E + V) : bool := match r with inl _ => false | inr _ => true end.

(** One entry per call, numbered from 1. *)
Definition history_of (cs : list (E + V)) : list history_entry :=
  imap (λ i r, HistoryEntry (Z.of_nat i + 1) (is_value r)) cs.

(** The budget that binds: the policy's own unless the deadline is nearer. *)
Definition binding_budget (deadline : option Q) (reason : stop_reason) (b : Q) : Prop :=
  match reason with
  | MaxElapsed => pc_max_elapsed cfg = Some b ∧ ∀ d, deadline = Some d → (b <= d)%Q
  | Deadline => deadline = Some b ∧ ∀ k, pc_max_elapsed cfg = Some k → (b < k)%Q
  | _ => False
  end.

(** Why an execution stopped without success after the trace [tr], reporting
    [attempts] attempts: what it saw last makes the reason true. *)
Definition stop_explained (deadline : option Q) (reason : stop_reason) (not_before : option Q) (attempts : Z)
    (tr : list (event E V)) : Prop :=
  let cs := calls tr in
  match reason with
  | MaxAttempts =>
      Forall soft cs ∧ Zlength cs = pc_max_attempts cfg ∧ attempts = Zlength cs ∧ not_before = None
  | NonRetryable =>
      ∃ l e, cs = l ++ [inl e] ∧ Forall soft l ∧ should_retry e = false ∧ inner_deferral e = None ∧
        attempts = Zlength cs ∧ not_before = None
  | RateLimitDeferred =>
      (∃ l r, tr = l ++ [Cooldown (Some r)] ∧ Forall soft cs ∧ rl_deferred r = true ∧
         not_before = rl_not_before r ∧ attempts = Zlength cs + 1) ∨
      (∃ l e, cs = l ++ [inl e] ∧ Forall soft l ∧ should_retry e = false ∧
         inner_deferral e = Some not_before ∧ attempts = Zlength cs)
  | MaxElapsed | Deadline =>
      Forall soft cs ∧ cs ≠ [] ∧ not_before = None ∧
      ∃ b, binding_budget deadline reason b ∧
        ((∃ l e, tr = l ++ [Elapsed e] ∧ (b <= e)%Q ∧ attempts = Zlength cs + 1) ∨
         (∃ l d e, tr = l ++ [Planned d; Elapsed e] ∧ (b < e + d)%Q ∧ attempts = Zlength cs))
  | RetryBudgetSpent =>
      Forall soft cs ∧ cs ≠ [] ∧ not_before = None ∧ (∃ l, tr = l ++ [Asked false]) ∧ attempts = Zlength cs + 1
  end.

(** Events that are neither a call nor a sleep. *)
Definition quiet (ev : event E V) : Prop :=
  match ev with Called _ | Slept _ _ => False | _ => True end.

Lemma quiet_calls l : Forall quiet l → calls l = [].
Proof using. induction 1 as [|[] l Hq _ IH]; [done|..]; try done; exact IH. Qed.

(** Everything the result is made of but the trace. *)
Definition core (s : loop_state) :=
  (ls_attempt s, ls_last_error s, ls_last_result s, ls_result_rejected s, ls_history s).

(** [s'] follows [s] by quiet events only. *)
Definition follows (s s' : loop_state) : Prop :=
  core s' = core s ∧ ∃ l, ls_trace s' = ls_trace s ++ l ∧ Forall quiet l.

Lemma follows_intro s s' l : core s' = core s → ls_trace s' = ls_trace s ++ l → Forall quiet l → follows s s'.
Proof using. intros. split; [done|eauto]. Qed.

Lemma follows_same s s' : core s' = core s → ls_trace s' = ls_trace s → follows s s'.
Proof using. intros Hc Ht. apply (follows_intro _ _ []); [done|by rewrite app_nil_r|constructor]. Qed.

Lemma follows_trans s1 s2 s3 : follows s1 s2 → follows s2 s3 → follows s1 s3.
Proof using.
  intros [Hc1 (l1 & Ht1 & Hq1)] [Hc2 (l2 & Ht2 & Hq2)]. apply (follows_intro _ _ (l1 ++ l2)); [congruence| |].
  - by rewrite Ht2, Ht1, (assoc_L (++)).
  - by apply Forall_app.
Qed.

Lemma follows_calls s s' : follows s s' → calls (ls_trace s') = calls (ls_trace s).
Proof using. intros [_ (l & -> & Hq)]. by rewrite calls_app, (quiet_calls l), app_nil_r. Qed.

Lemma follows_event s ev : quiet ev → follows s (with_event s ev).
Proof using. intros Hq. apply (follows_intro _ _ [ev]); [done|done|by constructor]. Qed.

Lemma elapsed_since_follows start s : follows s (elapsed_since start s).2.
Proof using.
  unfold elapsed_since. destruct (clock _) as [now w]. by apply (follows_intro _ _ [Elapsed (now - start)%Q]); [..|repeat constructor].
Qed.

(** The clock reading is the last event of the state it leaves. *)
Lemma elapsed_since_reads start s :
  ls_trace (elapsed_since start s).2 = ls_trace s ++ [Elapsed (elapsed_since start s).1].
Proof using. unfold elapsed_since. by destruct (clock _) as [now w]. Qed.

Lemma budget_spent_follows start budget s : follows s (budget_spent start budget s).2.
Proof using.
  unfold budget_spent. destruct budget as [b|]; [|by apply follows_same].
  destruct (1 <? ls_attempt s); [|by apply follows_same].
  pose proof (elapsed_since_follows start s). by destruct (elapsed_since start s).
Qed.

Lemma budget_spent_reads start budget s :
  (budget_spent start budget s).1 = true →
  1 < ls_attempt s ∧ ∃ b e, budget = Some b ∧ (b <= e)%Q ∧
    ls_trace (budget_spent start budget s).2 = ls_trace s ++ [Elapsed e].
Proof using.
  unfold budget_spent. destruct budget as [b|]; [|done]. destruct (Z.ltb_spec 1 (ls_attempt s)); [|done].
  pose proof (elapsed_since_reads start s) as Hr. destruct (elapsed_since start s) as [e s']. cbn in *.
  intros Hle%Qle_bool_iff. split; [done|]. by exists b, e.
Qed.

Lemma budget_refuses_follows s : follows s (budget_refuses s).2.
Proof using.
  unfold budget_refuses. destruct budget_record as [rec|]; [|by apply follows_same]. cbn zeta.
  destruct (1 <? _); [|by apply follows_same]. destruct (budget_allows _) as [ok w].
  by apply (follows_intro _ _ [Asked ok]); [..|repeat constructor].
Qed.

Lemma budget_refuses_asked s :
  (budget_refuses s).1 = true → 1 < ls_attempt s ∧ ls_trace (budget_refuses s).2 = ls_trace s ++ [Asked false].
Proof using.
  unfold budget_refuses. destruct budget_record as [rec|]; [|done]. cbn [with_world ls_attempt].
  destruct (Z.ltb_spec 1 (ls_attempt s)); [|done]. by destruct (budget_allows _) as [[] w].
Qed.

Lemma cooldown_spec start budget s :
  match cooldown start budget s with
  | inl (nb, s') => follows s s' ∧
      ∃ l r, ls_trace s' = l ++ [Cooldown (Some r)] ∧ rl_deferred r = true ∧ nb = rl_not_before r
  | inr s' => follows s s'
  end.
Proof using.
  unfold cooldown. destruct coordinator_wait as [wait|]; [|by apply follows_same].
  set (p := match budget with None => _ | Some _ => _ end).
  assert (Hp : follows s p.2).
  { unfold p. destruct budget as [b|]; [|by apply follows_same].
    pose proof (elapsed_since_follows start s). by destruct (elapsed_since start s). }
  destruct p as [bound s1]. cbn in Hp. destruct (wait bound (ls_world s1)) as [r w].
  assert (Hs : follows s (with_event (with_world s1 w) (Cooldown r))).
  { eapply follows_trans; [exact Hp|]. by apply (follows_intro _ _ [Cooldown r]); [..|repeat constructor]. }
  cbn zeta. destruct r as [r|]; [|exact Hs]. destruct (rl_deferred r) eqn:Hd; [split; [exact Hs|]|].
  - by exists (ls_trace s1), r.
  - eapply follows_trans; [exact Hs|]. by apply follows_same.
Qed.

Lemma note_success_trace v s : ls_trace (note_success v s) = ls_trace s.
Proof using. unfold note_success. repeat case_match; simplify_eq/=; done. Qed.

(** What the loop's variables hold between attempts. *)
Record loop_ok (s : loop_state) : Prop := {
  lo_attempt : ls_attempt s = Zlength (calls (ls_trace s));
  lo_soft : Forall soft (calls (ls_trace s));
}.

(** The variables that speak of the last call agree with the calls made. *)
Record remembers (s : loop_state) : Prop := {
  re_error : ls_last_error s = last_error_of (calls (ls_trace s));
  re_value : ls_last_result s = last_value_of (calls (ls_trace s));
  re_rejected : ls_result_rejected s = (if last_value_of (calls (ls_trace s)) then true else false);
  re_history : ls_history s = history_of (calls (ls_trace s));
}.

Lemma remembers_follows s s' : follows s s' → remembers s → remembers s'.
Proof using.
  intros Hf [H1 H2 H3 H4]. pose proof (follows_calls _ _ Hf) as Hc. destruct Hf as [Hcore _].
  unfold core in Hcore. injection Hcore as E1 E2 E3 E4 E5. split; rewrite Hc; congruence.
Qed.

Lemma history_of_snoc cs r :
  history_of (cs ++ [r]) = history_of cs ++ [HistoryEntry (Zlength cs + 1) (is_value r)].
Proof using.
  unfold history_of. rewrite imap_app. cbn. by rewrite Nat.add_0_r.
Qed.

(** After the call [r], from a state that remembers the calls before it. *)
Lemma note_error_spec e s s4 :
  loop_ok s → ls_history s = history_of (calls (ls_trace s)) → ls_attempt s4 = ls_attempt s + 1 →
  ls_history s4 = ls_history s → calls (ls_trace s4) = calls (ls_trace s) ++ [inl e] →
  let s5 := note_error e s4 in
  ls_attempt s5 = ls_attempt s + 1 ∧ ls_trace s5 = ls_trace s4 ∧ remembers s5.
Proof using.
  intros [Ha _] Hh Ha4 Hh4 Hc4. unfold note_error. destruct (observe _ _) as [b w]. cbn. split_and!; [done|done|].
  split; cbn [with_signal with_world ls_last_error ls_last_result ls_result_rejected ls_history ls_trace ls_attempt];
    rewrite Hc4; unfold last_error_of, last_value_of; rewrite ?last_snoc; try done.
  rewrite history_of_snoc, Hh4, Hh, Ha4, Ha. done.
Qed.

Lemma note_rejected_spec v s s4 :
  loop_ok s → ls_history s = history_of (calls (ls_trace s)) → ls_attempt s4 = ls_attempt s + 1 →
  ls_history s4 = ls_history s → calls (ls_trace s4) = calls (ls_trace s) ++ [inr v] →
  let s5 := note_rejected v s4 in
  ls_attempt s5 = ls_attempt s + 1 ∧ ls_trace s5 = ls_trace s4 ∧ remembers s5.
Proof using.
  intros [Ha _] Hh Ha4 Hh4 Hc4. unfold note_rejected. destruct (observe _ _) as [b w]. cbn. split_and!; [done|done|].
  split; cbn [with_signal with_world ls_last_error ls_last_result ls_result_rejected ls_history ls_trace ls_attempt];
    rewrite Hc4; unfold last_error_of, last_value_of; rewrite ?last_snoc; try done.
  rewrite history_of_snoc, Hh4, Hh, Ha4, Ha. done.
Qed.

(** What the failure tail may end in: its own exits, with what they saw. *)
Lemma failure_tail_spec start budget budget_reason s :
  match failure_tail start budget budget_reason s with
  | inl (Return _ _ _) => False
  | inl (Break r nb s') => follows s s' ∧ nb = None ∧
      (r = MaxAttempts ∧ pc_max_attempts cfg <= ls_attempt s ∨
       r = budget_reason ∧ ∃ b l d e, budget = Some b ∧ ls_trace s' = l ++ [Planned d; Elapsed e] ∧ (b < e + d)%Q)
  | inr s' => core s' = core s ∧ calls (ls_trace s') = calls (ls_trace s) ∧ ls_attempt s < pc_max_attempts cfg
  end.
Proof using.
  unfold failure_tail. destruct (Z.leb_spec (pc_max_attempts cfg) (ls_attempt s)) as [Hm|Hm].
  { split_and!; [by apply follows_same|done|by left]. }
  destruct (draw_random (ls_world s)) as [u w]. destruct (calculate _ _ _) as [bk delay].
  set (s1 := LoopState _ _ _ _ _ _ _ _ _). assert (Hs1 : follows s s1).
  { by apply (follows_intro _ _ [Planned delay]); [..|repeat constructor]. }
  set (p := match budget with Some _ => _ | None => _ end). assert (Hp : follows s p.2).
  { unfold p. destruct budget; [|done]. eapply follows_trans; [exact Hs1|apply elapsed_since_follows]. }
  assert (Ht : is_Some budget → ls_trace p.2 = ls_trace s ++ [Planned delay; Elapsed p.1]).
  { intros [b Hb]. unfold p. rewrite Hb, elapsed_since_reads. unfold s1. cbn [ls_trace]. by rewrite <-(assoc_L (++)). }
  destruct p as [e s2]. cbn [fst snd] in *. destruct (match budget with Some b => _ | None => _ end) eqn:Hb.
  - split_and!; [done|done|]. right. split; [done|]. destruct budget as [b|]; [|done].
    exists b, (ls_trace s), delay, e. split_and!; [done|by apply Ht; eauto|].
    apply Qnot_le_lt. intros Hle%Qle_bool_iff. by rewrite Hle in Hb.
  - pose proof (follows_calls _ _ Hp) as Hc. destruct Hp as [Hcore _].
    destruct (Qle_bool delay 0); [done|]. cbn [with_world with_event ls_trace].
    rewrite calls_app, app_nil_r. done.
Qed.

(** What an exit may say, given the calls made. *)
Definition exit_explains (deadline : option Q) (x : loop_exit) : Prop :=
  match x with
  | Return v attempt s =>
      ∃ l, calls (ls_trace s) = l ++ [inr v] ∧ Forall soft l ∧ result_rejected v = false ∧
        attempt = Zlength (calls (ls_trace s))
  | Break reason nb s => stop_explained deadline reason nb (ls_attempt s) (ls_trace s) ∧ remembers s
  end.

Definition exit_state (x : loop_exit) : loop_state := match x with Return _ _ s | Break _ _ s => s end.

(** What one attempt may end in, from the state [s] before it. *)
Definition attempt_ends (deadline : option Q) (s : loop_state) (x : loop_exit + loop_state) : Prop :=
  match x with
  | inl x => exit_explains deadline x ∧ Zlength (calls (ls_trace (exit_state x))) <= pc_max_attempts cfg
  | inr s' => loop_ok s' ∧ remembers s' ∧ ls_attempt s' = ls_attempt s + 1 ∧ ls_attempt s' < pc_max_attempts cfg
  end.

(** The reason the loop was given is that of the budget it was given. *)
Definition budget_binds (deadline budget : option Q) (budget_reason : stop_reason) : Prop :=
  (budget_reason = MaxElapsed ∨ budget_reason = Deadline) ∧
  ∀ b, budget = Some b → binding_budget deadline budget_reason b.

Lemma resolve_budget_binds deadline :
  let '(budget, budget_reason) := resolve_effective_budget (pc_max_elapsed cfg) deadline in
  budget_binds deadline budget budget_reason.
Proof using.
  unfold resolve_effective_budget, budget_binds. destruct (pc_max_elapsed cfg) as [k|] eqn:Hk, deadline as [d|];
    [|split; [auto|]; intros b [= <-]; cbn; rewrite ?Hk; (split; [done|intros ? [=]])..|split; [auto|]; intros b [=]].
  destruct (Qle_bool k d) eqn:Hkd; (split; [auto|]); intros b [= <-]; cbn; rewrite Hk; (split; [done|]).
  - intros d' [= <-]. by apply Qle_bool_iff.
  - intros k' [= <-]. apply Qnot_le_lt. intros Hle%Qle_bool_iff. congruence.
Qed.

Section one_attempt.
  Context (deadline : option Q) (start : Q) (budget : option Q) (budget_reason : stop_reason).
  Context (Hbinds : budget_binds deadline budget budget_reason).
  Context (s : loop_state) (Hok : loop_ok s) (Hre : remembers s) (Hlt : ls_attempt s < pc_max_attempts cfg).

(** The tail of one soft failure [r]. *)
Lemma soft_tail s1 r :
  soft r → ls_attempt s1 = ls_attempt s + 1 → calls (ls_trace s1) = calls (ls_trace s) ++ [r] → remembers s1 →
  attempt_ends deadline s (failure_tail start budget budget_reason s1).
Proof using Hbinds Hok Hlt.
  destruct Hok as [Ha Hs]. intros Hr Ha1 Hc1 Hr1. pose proof (failure_tail_spec start budget budget_reason s1) as Ht.
  assert (Hsoft : Forall soft (calls (ls_trace s1))).
  { rewrite Hc1. apply Forall_app. split; [done|by constructor]. }
  assert (Hlen : Zlength (calls (ls_trace s1)) = ls_attempt s + 1) by (rewrite Hc1, Zlength_app, Ha; done).
  assert (Hne : calls (ls_trace s1) ≠ []) by (rewrite Hc1; by destruct (calls (ls_trace s))).
  destruct (failure_tail start budget budget_reason s1) as [[v a s'|reason nb s']|s']; [done|..].
  - destruct Ht as (Hf & -> & Hreason). pose proof (follows_calls _ _ Hf) as Hc. pose proof (remembers_follows _ _ Hf Hr1).
    destruct Hf as [Hcore _]. injection Hcore as E1 _ _ _ _. unfold attempt_ends, exit_explains, exit_state.
    rewrite Hc. split; [split; [|done]|lia]. unfold stop_explained. rewrite Hc.
    destruct Hreason as [[-> Hm]|(-> & b & l & d & e & Hb & Ht & Hlt')]; [split_and!; [done|lia|lia|done]|].
    destruct Hbinds as [Hbr Hbb]. specialize (Hbb b Hb).
    destruct Hbr as [-> | ->]; (split_and!; [done..|]); exists b; (split; [done|]); right; exists l, d, e; split_and!; done || lia.
  - destruct Ht as (Hcore & Hc & Hm). injection Hcore as E1 E2 E3 E4 E5. destruct Hr1 as [R1 R2 R3 R4].
    split_and!; [split; rewrite Hc; [lia|done]|split; rewrite Hc; congruence|lia|lia].
Qed.

Lemma classify_spec r s4 :
  ls_attempt s4 = ls_attempt s + 1 → ls_history s4 = ls_history s → calls (ls_trace s4) = calls (ls_trace s) ++ [r] →
  attempt_ends deadline s (classify start budget budget_reason r s4).
Proof using Hbinds Hok Hlt Hre.
  intros Ha4 Hh4 Ht4. pose proof Hok as [Ha Hs]. pose proof (re_history _ Hre) as Hh.
  assert (Hlen : Zlength (calls (ls_trace s) ++ [r]) = ls_attempt s + 1) by (rewrite Zlength_app, <-Ha; done).
  destruct r as [e|v]; cbn [classify].
  - destruct (note_error_spec e s s4) as (G1 & G2 & G3); try done. set (s5 := note_error e s4) in *.
    destruct (should_retry e) eqn:Hsr; [apply (soft_tail s5 (inl e)); try done; by rewrite G2|].
    unfold attempt_ends. destruct (inner_deferral e) as [nb|] eqn:Hd; unfold exit_state, exit_explains, stop_explained;
      rewrite G2, Ht4; (split; [split; [|done]|lia]).
    + right. exists (calls (ls_trace s)), e. split_and!; done || lia.
    + exists (calls (ls_trace s)), e. split_and!; done || lia.
  - destruct (result_rejected v) eqn:Hrej.
    + destruct (note_rejected_spec v s s4) as (G1 & G2 & G3); try done.
      apply (soft_tail (note_rejected v s4) (inr v)); try done. by rewrite G2.
    + unfold attempt_ends, exit_state, exit_explains. rewrite note_success_trace, Ht4. split; [|lia].
      exists (calls (ls_trace s)). split_and!; [done|done|done|lia].
Qed.

(** The state after the attempt counter moved and quiet events. *)
Lemma attempt_once_spec : attempt_ends deadline s (attempt_once start budget budget_reason s).
Proof using Hbinds Hok Hlt Hre.
  pose proof Hok as [Ha Hs]. unfold attempt_once. set (s0 := LoopState _ _ _ _ _ _ _ _ _).
  assert (Hr0 : remembers s0) by (destruct Hre; by split).
  assert (Hc0 : calls (ls_trace s0) = calls (ls_trace s)) by done.
  assert (Hne : 0 < ls_attempt s → calls (ls_trace s) ≠ []) by (intros Hgt Hnil; rewrite Hnil in Ha; unfold Zlength in Ha; simpl in Ha; lia).
  pose proof (budget_spent_follows start budget s0) as Hf1. pose proof (budget_spent_reads start budget s0) as Hl1.
  destruct (budget_spent start budget s0) as [[] s1]; cbn [fst snd] in *.
  { destruct (Hl1 eq_refl) as (Hgt & b & e & Hb & Hle & Ht). pose proof (follows_calls _ _ Hf1) as Hc.
    unfold attempt_ends, exit_state, exit_explains, stop_explained. rewrite Hc, Hc0. split; [|lia].
    split; [|by apply (remembers_follows s0)]. destruct Hf1 as [[= E1 _ _ _ _] _]. cbn in Hgt, E1.
    destruct Hbinds as [Hbr Hbb]. specialize (Hbb b Hb).
    destruct Hbr as [-> | ->]; (split_and!; [done|apply Hne; lia|done|]); exists b; (split; [done|]);
      left; exists (ls_trace s0), e; split_and!; done || lia. }
  pose proof (budget_refuses_follows s1) as Hf2. pose proof (budget_refuses_asked s1) as Hl2.
  destruct (budget_refuses s1) as [[] s2]; cbn [fst snd] in *; pose proof (follows_trans _ _ _ Hf1 Hf2) as Hf.
  { destruct (Hl2 eq_refl) as (Hgt & Ht). pose proof (follows_calls _ _ Hf) as Hc.
    unfold attempt_ends, exit_state, exit_explains, stop_explained. rewrite Hc, Hc0. split; [|lia].
    split; [|by apply (remembers_follows s0)]. destruct Hf1 as [[= E1 _ _ _ _] _], Hf as [[= E2 _ _ _ _] _].
    cbn in E1, E2. split_and!; [done|apply Hne; lia|done|by exists (ls_trace s1)|lia]. }
  pose proof (follows_trans _ _ _ Hf (follows_event s2 (Started (ls_attempt s2)) I)) as Hf3.
  pose proof (cooldown_spec start budget (with_event s2 (Started (ls_attempt s2)))) as Hc3.
  destruct (cooldown start budget _) as [[nb s3]|s3].
  { destruct Hc3 as [Hf4 (l & r & Ht & Hd & ->)]. pose proof (follows_trans _ _ _ Hf3 Hf4) as Hf5.
    pose proof (follows_calls _ _ Hf5) as Hc. unfold attempt_ends, exit_state, exit_explains, stop_explained.
    rewrite Hc, Hc0. split; [|lia]. split; [|by apply (remembers_follows s0)]. left. exists l, r.
    destruct Hf5 as [[= E1 _ _ _ _] _]. cbn in E1. split_and!; done || lia. }
  pose proof (follows_trans _ _ _ Hf3 Hc3) as Hf5. pose proof (follows_calls _ _ Hf5) as Hc.
  destruct Hf5 as [[= E1 _ _ _ E5] _]. cbn in E1, E5.
  destruct (func (ls_world s3)) as [r w]. apply classify_spec; [done|done|].
  cbn [with_world with_event ls_trace]. by rewrite calls_app, Hc.
Qed.
End one_attempt.

Lemma execute_loop_spec deadline n start budget budget_reason s :
  budget_binds deadline budget budget_reason → loop_ok s → remembers s →
  Z.of_nat n + ls_attempt s = pc_max_attempts cfg → (0 < n)%nat →
  let x := execute_loop n start budget budget_reason s in
  exit_explains deadline x ∧ Zlength (calls (ls_trace (exit_state x))) <= pc_max_attempts cfg.
Proof using.
  intros Hb. revert s. induction n as [|n IH]; intros s Hok Hre Hn Hpos; [lia|]. cbn [execute_loop].
  pose proof (attempt_once_spec deadline start budget budget_reason Hb s Hok Hre ltac:(lia)) as Hs.
  destruct (attempt_once start budget budget_reason s) as [x|s']; [done|]. destruct Hs as (Hok' & Hre' & Ha' & Hm').
  apply IH; [done|done|lia|lia].
Qed.

Lemma exhausted_calls (b : bool) a : calls (E := E) (V := V) ((if b then [DeadlineStop] else []) ++ [Exhausted a]) = [].
Proof using. by destruct b. Qed.


(** *** The wall-clock budget *)

Definition fits (budget : option Q) (tr : list (event E V)) : Prop :=
  ∀ e d b, Slept e d ∈ tr → budget = Some b → (e + d <= b)%Q.

Lemma fits_follows budget s s' : follows s s' → fits budget (ls_trace s) → fits budget (ls_trace s').
Proof using.
  intros [_ (l & -> & Hq)] Hf e d b [Hin|Hin]%elem_of_app Hb; [eauto|].
  rewrite Forall_forall in Hq. by apply Hq in Hin.
Qed.

Lemma failure_tail_fits start budget budget_reason s :
  fits budget (ls_trace s) →
  match failure_tail start budget budget_reason s with
  | inl x => fits budget (ls_trace (exit_state x))
  | inr s' => fits budget (ls_trace s')
  end.
Proof using.
  intros Hf. unfold failure_tail. destruct (pc_max_attempts cfg <=? ls_attempt s); [done|].
  destruct (draw_random (ls_world s)) as [u w]. destruct (calculate _ _ _) as [bk delay].
  set (s1 := LoopState _ _ _ _ _ _ _ _ _). assert (Hs1 : fits budget (ls_trace s1)).
  { apply (fits_follows _ s); [|done]. by apply (follows_intro _ _ [Planned delay]); [..|repeat constructor]. }
  set (p := match budget with Some _ => _ | None => _ end). assert (Hp : fits budget (ls_trace p.2)).
  { unfold p. destruct budget; [|done]. eapply fits_follows; [apply elapsed_since_follows|done]. }
  destruct p as [e s2]. cbn [fst snd] in *. destruct (match budget with Some b => _ | None => _ end) eqn:Hb; [done|].
  destruct (Qle_bool delay 0); [done|]. cbn [with_world with_event ls_trace].
  intros e' d b [Hin|Hin%list_elem_of_singleton]%elem_of_app Hbud; [eauto|]. injection Hin as -> ->.
  rewrite Hbud in Hb. apply negb_false_iff in Hb. by apply Qle_bool_iff.
Qed.

Lemma attempt_once_fits start budget budget_reason s :
  fits budget (ls_trace s) →
  match attempt_once start budget budget_reason s with
  | inl x => fits budget (ls_trace (exit_state x))
  | inr s' => fits budget (ls_trace s')
  end.
Proof using.
  intros Hf. unfold attempt_once. set (s0 := LoopState _ _ _ _ _ _ _ _ _).
  pose proof (fits_follows budget _ _ (budget_spent_follows start budget s0) Hf) as Hf1.
  destruct (budget_spent start budget s0) as [[] s1]; [done|]. cbn [snd] in Hf1.
  pose proof (fits_follows budget _ _ (budget_refuses_follows s1) Hf1) as Hf2.
  destruct (budget_refuses s1) as [[] s2]; [done|]. cbn [snd] in Hf2.
  pose proof (fits_follows budget _ _ (follows_event s2 (Started (ls_attempt s2)) I) Hf2) as Hf3.
  pose proof (cooldown_spec start budget (with_event s2 (Started (ls_attempt s2)))) as Hc.
  destruct (cooldown start budget _) as [[nb s3]|s3]; [destruct Hc as [Hc _]; by apply (fits_follows _ _ _ Hc)|].
  pose proof (fits_follows budget _ _ Hc Hf3) as Hf4. destruct (func (ls_world s3)) as [r w].
  set (s4 := with_world (with_event s3 (Called r)) w).
  assert (Hs4 : fits budget (ls_trace s4)).
  { intros e d b [Hin|Hin%list_elem_of_singleton]%elem_of_app Hb; [eauto|done]. }
  clearbody s4. unfold classify. destruct r as [e|v].
  - assert (Hn : ls_trace (note_error e s4) = ls_trace s4) by (unfold note_error; by destruct (observe _ _)).
    destruct (should_retry e); [apply failure_tail_fits; by rewrite Hn|].
    destruct (inner_deferral e); cbn [exit_state]; by rewrite Hn.
  - assert (Hn : ls_trace (note_rejected v s4) = ls_trace s4) by (unfold note_rejected; by destruct (observe _ _)).
    destruct (result_rejected v); [apply failure_tail_fits; by rewrite Hn|].
    cbn [exit_state]. by rewrite note_success_trace.
Qed.

(** The loop never starts a sleep that would overrun its wall-clock budget,
    the tighter of the policy's own and the request's deadline: every sleep ends
    within it, counted from the start of the call. *)
Theorem sleeps_fit_budget deadline backoff w e d b :
  (resolve_effective_budget (pc_max_elapsed cfg) deadline).1 = Some b →
  Slept e d ∈ (execute deadline backoff w).2 → (e + d <= b)%Q.
Proof using.
  unfold execute. destruct (clock w) as [start w'].
  destruct (resolve_effective_budget (pc_max_elapsed cfg) deadline) as [budget br]. cbn [fst]. intros Hb.
  assert (Hloop : ∀ n s, fits budget (ls_trace s) → fits budget (ls_trace (exit_state (execute_loop n start budget br s)))).
  { induction n as [|n IH]; intros s Hf; [done|]. cbn [execute_loop].
    pose proof (attempt_once_fits start budget br s Hf) as Ha. destruct (attempt_once start budget br s); auto. }
  specialize (Hloop (Z.to_nat (pc_max_attempts cfg)) (LoopState 0 None None false [] false backoff w' [])).
  destruct (execute_loop _ _ _ _ _) as [v a s|reason nb s]; cbn [conclude exit_state snd] in *; intros Hin.
  - eapply Hloop; [by intros ? ? ? ?%elem_of_nil|done|done].
  - apply elem_of_app in Hin as [Hin|Hin]; [eapply Hloop; [by intros ? ? ? ?%elem_of_nil|done|done]|].
    exfalso. destruct (_ && _); set_solver.
Qed.
End policy.

(** Three attempts at a function that fails twice, with a two-second budget: the
    first sleep of one second fits, the second of two does not. *)
Definition demo_config : policy_config := PolicyConfig 3 (Some 2%Q) "payments".

#[local] Notation demo k cfg :=
  (execute (flaky k) (λ w, (inject_Z (Z.of_nat w), w)) (λ w, (0%Q, w)) (λ _ w, w)
    (λ _, true) (λ _, None) (λ _, false) None (λ w, (true, w)) None (λ w, w) (λ _ w, (false, w))
    cfg None plain_backoff 0%nat).


Lemma sleeps_fit_budget_witness :
  Slept 1 1 ∈ (demo 5 demo_config).2 ∧ (1 + 1 <= 2)%Q.
Proof.
  assert (Hin : Slept 1 1 ∈ (demo 5 demo_config).2) by (vm_compute; set_solver).
  split; [exact Hin|].
  exact (sleeps_fit_budget (flaky 5) (λ w, (inject_Z (Z.of_nat w), w)) (λ w, (0%Q, w)) (λ _ w, w)
    (λ _, true) (λ _, None) (λ _, false) None (λ w, (true, w)) None (λ w, w) (λ _ w, (false, w))
    demo_config None plain_backoff 0%nat 1 1 2 ltac:(reflexivity) Hin).
Defined.
