(* ===== verification/RateLimitTracker.v ===== *)
(** The tracker of 429 answers and requests behind the cascade detector
    ([services/circuit_breaker/rate_limit_tracker.py]): the in-memory tracker (L1)
    over two sliding-window counters, and the state of the hybrid tracker that
    puts a shared store (L2, a Redis backend) in front of it.

    The shared store is not code of this program: its operations are the fields
    of [l2_backend], each of which may fail.  The programs that combine the two
    levels are in [CBProtection], where calls interleave. *)
From S2P Require Import Prelude SlidingCounter.

(** ** The in-memory tracker *)

Definition MIN_L2_RETENTION_SECONDS : Z := 120.

(** The circuit-breaker settings the tracker reads. *)
Record tracker_settings := TrackerSettings {
  ts_cascade_window_seconds : Z;
  ts_self_ddos_window_seconds : Z;
  ts_rate_limit_distributed : bool;
}.

(** The counters (429s, requests) are built on first use; the names already
    reported for a too wide window are kept with them. *)
Record memory_tracker := MemoryTracker {
  mt_retention : option Z;
  mt_counters : option (swc * swc);
  mt_backoff_levels : dict string Z;
  mt_warned : gset string;
}.

Definition new_memory_tracker (retention : option Z) : memory_tracker :=
  MemoryTracker retention None [] ∅.

Section memory.
  Context (st : tracker_settings).

(** What the settings retain, in microseconds. *)
Definition settings_retention : Z :=
  seconds (Z.max (ts_cascade_window_seconds st)
             (Z.max (ts_self_ddos_window_seconds st) MIN_L2_RETENTION_SECONDS)).

Definition resolve_retention (t : memory_tracker) : Z := default settings_retention (mt_retention t).

Definition set_counters (t : memory_tracker) (c : swc * swc) : memory_tracker :=
  MemoryTracker (mt_retention t) (Some c) (mt_backoff_levels t) (mt_warned t).

Definition set_level (t : memory_tracker) (name : string) (n : Z) : memory_tracker :=
  MemoryTracker (mt_retention t) (mt_counters t) (dset (mt_backoff_levels t) name n) (mt_warned t).

(** [_counters] and [_resolve_retention] *)
Definition counters (t : memory_tracker) (now : Z) : memory_tracker * (swc * swc) :=
  match mt_counters t with
  | Some c => (t, c)
  | None =>
      let r := resolve_retention t in
      let c := (swc_init None (Some r) now, swc_init None (Some r) now) in
      (MemoryTracker (Some r) (Some c) (mt_backoff_levels t) (mt_warned t), c)
  end.

Definition mem_record_rate_limit (now : Z) (t : memory_tracker) (name : string) : memory_tracker :=
  let '(t, (rl, rq)) := counters t now in set_counters t (record rl now name, rq).

Definition mem_record_request (now : Z) (t : memory_tracker) (name : string) : memory_tracker :=
  let '(t, (rl, rq)) := counters t now in set_counters t (rl, record rq now name).

(** [_warn_if_window_exceeds_retention]: the name is warned about once. *)
Definition warn_if_window_exceeds_retention (t : memory_tracker) (name : string) (window_seconds : Z) :
    memory_tracker :=
  match mt_retention t with
  | None => t
  | Some r =>
      if seconds window_seconds <=? r then t
      else MemoryTracker (mt_retention t) (mt_counters t) (mt_backoff_levels t) ({[name]} ∪ mt_warned t)
  end.

Definition mem_get_rate_limit_count (now : Z) (t : memory_tracker) (name : string) (window_seconds : Z) :
    memory_tracker * Z :=
  let '(t, (rl, _)) := counters t now in
  (warn_if_window_exceeds_retention t name window_seconds, count rl now name (seconds window_seconds)).

Definition mem_get_request_count (now : Z) (t : memory_tracker) (name : string) (window_seconds : Z) :
    memory_tracker * Z :=
  let '(t, (_, rq)) := counters t now in
  (warn_if_window_exceeds_retention t name window_seconds, count rq now name (seconds window_seconds)).

(** A [defaultdict(int)]: reading an absent name stores 0 under it. *)
Definition mem_get_backoff_level (t : memory_tracker) (name : string) : memory_tracker * Z :=
  match dget (mt_backoff_levels t) name with
  | Some n => (t, n)
  | None => (set_level t name 0, 0)
  end.

Definition mem_increment_backoff (t : memory_tracker) (name : string) : memory_tracker * Z :=
  let n := default 0 (dget (mt_backoff_levels t) name) + 1 in (set_level t name n, n).

Definition mem_reset_backoff (t : memory_tracker) (name : string) : memory_tracker := set_level t name 0.

Definition mem_clear_service (now : Z) (t : memory_tracker) (name : string) : memory_tracker :=
  let '(t, (rl, rq)) := counters t now in
  set_level (set_counters t ((reset rl name).1, (reset rq name).1)) name 0.

(** ** Histories *)
Inductive tracker_call :=
| RecordRateLimit (name : string)
| RecordRequest (name : string)
| CountRateLimits (name : string) (window_seconds : Z)
| CountRequests (name : string) (window_seconds : Z)
| GetLevel (name : string)
| IncrementBackoff (name : string)
| ResetBackoff (name : string)
| ClearService (name : string).

Definition tracker_call_step (t : memory_tracker) (tc : Z * tracker_call) : memory_tracker :=
  let '(now, c) := tc in
  match c with
  | RecordRateLimit name => mem_record_rate_limit now t name
  | RecordRequest name => mem_record_request now t name
  | CountRateLimits name w => (mem_get_rate_limit_count now t name w).1
  | CountRequests name w => (mem_get_request_count now t name w).1
  | GetLevel name => (mem_get_backoff_level t name).1
  | IncrementBackoff name => (mem_increment_backoff t name).1
  | ResetBackoff name => mem_reset_backoff t name
  | ClearService name => mem_clear_service now t name
  end.

(** What happened since a name was last cleared: its 429s, its requests, the
    increments since the last reset. *)
Record history := History { h_429 : ledger; h_requests : ledger; h_level : string → Z }.

Definition hupd (f : string → Z) (name : string) (n : Z) : string → Z :=
  λ k, if decide (k = name) then n else f k.

Definition history_step (h : history) (tc : Z * tracker_call) : history :=
  let '(now, c) := tc in
  match c with
  | RecordRateLimit name => History (upd (h_429 h) name (h_429 h name ++ [now])) (h_requests h) (h_level h)
  | RecordRequest name => History (h_429 h) (upd (h_requests h) name (h_requests h name ++ [now])) (h_level h)
  | IncrementBackoff name => History (h_429 h) (h_requests h) (hupd (h_level h) name (h_level h name + 1))
  | ResetBackoff name => History (h_429 h) (h_requests h) (hupd (h_level h) name 0)
  | ClearService name =>
      History (upd (h_429 h) name []) (upd (h_requests h) name []) (hupd (h_level h) name 0)
  | CountRateLimits _ _ | CountRequests _ _ | GetLevel _ => h
  end.

Definition empty_history : history := History (λ _, []) (λ _, []) (λ _, 0).

(** *** The invariant *)
Record tracker_ok (now : Z) (th : memory_tracker * history) : Prop := {
  to_retention : ∀ r, mt_retention th.1 = Some r → r = settings_retention;
  to_counters : match mt_counters th.1 with
                | Some (rl, rq) => swc_ok settings_retention now (rl, h_429 th.2) ∧
                                   swc_ok settings_retention now (rq, h_requests th.2)
                | None => ∀ k, h_429 th.2 k = [] ∧ h_requests th.2 k = []
                end;
  to_level : ∀ k, default 0 (dget (mt_backoff_levels th.1) k) = h_level th.2 k;
}.

Lemma swc_ok_new now (log : ledger) :
  (∀ k, log k = []) → swc_ok settings_retention now (swc_init None (Some settings_retention) now, log).
Proof.
  intros Hl. split; cbn; [constructor|by intros r [= <-]|]. intros k. rewrite Hl. unfold series. cbn.
  eauto using ordered_nil.
Qed.

(** The counters a call works on. *)
Lemma counters_ok now t h :
  tracker_ok now (t, h) →
  let '(t', (rl, rq)) := counters t now in
  tracker_ok now (t', h) ∧ mt_backoff_levels t' = mt_backoff_levels t ∧
  swc_ok settings_retention now (rl, h_429 h) ∧ swc_ok settings_retention now (rq, h_requests h).
Proof.
  intros [Hr Hc Hl]. cbn [fst snd] in *. unfold counters. destruct (mt_counters t) as [[rl rq]|] eqn:E.
  - split_and!; [|done|apply Hc..]. split; cbn [fst snd]; [done|by rewrite E|done].
  - assert (Hres : resolve_retention t = settings_retention).
    { unfold resolve_retention. destruct (mt_retention t) as [r|]; [by apply Hr|done]. }
    rewrite Hres. pose proof (swc_ok_new now (h_429 h) (λ k, proj1 (Hc k))).
    pose proof (swc_ok_new now (h_requests h) (λ k, proj2 (Hc k))).
    split_and!; [|done..]. split; cbn; [by intros r [= <-]|done|done].
Qed.

Lemma warn_ok now t h name w :
  tracker_ok now (t, h) → tracker_ok now (warn_if_window_exceeds_retention t name w, h).
Proof.
  intros Ht. unfold warn_if_window_exceeds_retention. destruct (mt_retention t) eqn:E; [|done].
  case_match; [done|]. destruct Ht as [Hr Hc Hl]. split; cbn in *; [by rewrite <-E|done|done].
Qed.

Lemma set_counters_ok now t h rl rq h' :
  tracker_ok now (t, h) → h_level h' = h_level h →
  swc_ok settings_retention now (rl, h_429 h') → swc_ok settings_retention now (rq, h_requests h') →
  tracker_ok now (set_counters t (rl, rq), h').
Proof. intros [Hr _ Hl] He H1 H2. split; cbn in *; [done..|]. by rewrite He. Qed.

Lemma set_level_ok now t h name n :
  tracker_ok now (t, h) →
  tracker_ok now (set_level t name n, History (h_429 h) (h_requests h) (hupd (h_level h) name n)).
Proof.
  intros [Hr Hc Hl]. split; cbn in *; [done..|]. intros k. rewrite dget_dset. unfold hupd.
  destruct (decide (name = k)) as [->|]; [by rewrite decide_True|by rewrite decide_False].
Qed.

Lemma hupd_same now t h name : tracker_ok now (t, h) → h_level h name = 0 →
  tracker_ok now (set_level t name 0, h).
Proof.
  intros Ht H0. pose proof (set_level_ok now t h name 0 Ht) as [Hr Hc Hl]. split; cbn in *; [done..|].
  intros k. rewrite Hl. unfold hupd. case_decide; by subst.
Qed.

Lemma tracker_ok_step now t h c :
  tracker_ok now (t, h) → tracker_ok now (tracker_call_step t (now, c), history_step h (now, c)).
Proof.
  intros Ht. pose proof (counters_ok now t h Ht) as Hc.
  destruct c as [name|name|name w|name w|name|name|name|name]; cbn [tracker_call_step history_step].
  1-4, 8: unfold mem_record_rate_limit, mem_record_request, mem_get_rate_limit_count,
    mem_get_request_count, mem_clear_service;
    destruct (counters t now) as [t' [rl rq]]; destruct Hc as (Hok & Hlv & H1 & H2).
  - by apply (set_counters_ok now t' h); [..|apply (swc_ok_step _ _ (rl, h_429 h) (RecordEvent name))|].
  - by apply (set_counters_ok now t' h); [..|apply (swc_ok_step _ _ (rq, h_requests h) (RecordEvent name))].
  - by apply warn_ok.
  - by apply warn_ok.
  - set (h' := History (upd (h_429 h) name []) (upd (h_requests h) name []) (h_level h)).
    apply (set_level_ok now _ h'). apply (set_counters_ok now t' h); try done.
    + by apply (swc_ok_step _ _ (rl, h_429 h) (Reset name)).
    + by apply (swc_ok_step _ _ (rq, h_requests h) (Reset name)).
  - unfold mem_get_backoff_level. destruct (dget (mt_backoff_levels t) name) eqn:E; [done|].
    apply hupd_same; [done|]. pose proof (to_level _ _ Ht name) as Hl. cbn in Hl. by rewrite E in Hl.
  - unfold mem_increment_backoff. pose proof (to_level _ _ Ht name) as Hl. cbn in Hl. rewrite Hl.
    by apply set_level_ok.
  - by apply set_level_ok.
Qed.

Lemma tracker_ok_later t t' th : tracker_ok t th → t <= t' → tracker_ok t' th.
Proof.
  intros [Hr Hc Hl] Hle. split; [done| |done].
  destruct (mt_counters th.1) as [[rl rq]|]; [|done].
  destruct Hc. split; by eapply swc_ok_later.
Qed.

(** A tracker and its history, from the first call on. *)
Definition tracker_run (calls : list (Z * tracker_call)) : memory_tracker * history :=
  foldl (λ th tc, (tracker_call_step th.1 tc, history_step th.2 tc))
    (new_memory_tracker None, empty_history) calls.

Lemma tracker_run_ok calls t now : clocked t calls now → tracker_ok now (tracker_run calls).
Proof.
  intros Hc. apply (clocked_invariant _ tracker_ok (λ _ _, True) t); [| | |done|by apply Forall_true].
  - intros. by eapply tracker_ok_later.
  - intros u [tr h] op Hok _. by apply tracker_ok_step.
  - split; cbn; [done|by split|done].
Qed.

Lemma count_exact W now c (log : ledger) name w :
  swc_ok W now (c, log) → w <= W → count c now name w = Zlength (after (now - w) (log name)).
Proof.
  intros [_ _ Hk] Hw. unfold count. destruct (Hk name) as (_ & _ & He). cbn in He.
  f_equal. eapply after_mono; [|exact He]. lia.
Qed.

(** The evidence of the cascade detector is exact: over any window within the
    retention, the counts of 429s and of requests of a name are the numbers of
    those recorded in that window since the name was last cleared, whatever was
    recorded, trimmed, read or cleared for any name before, and its backoff level
    is the number of increments since its last reset. *)
Theorem tracker_counts_exact calls t now name window :
  clocked t calls now → seconds window <= settings_retention →
  let '(tr, h) := tracker_run calls in
  (mem_get_rate_limit_count now tr name window).2 = Zlength (after (now - seconds window) (h_429 h name)) ∧
  (mem_get_request_count now tr name window).2 = Zlength (after (now - seconds window) (h_requests h name)) ∧
  (mem_get_backoff_level tr name).2 = h_level h name.
Proof.
  intros Hc Hw. pose proof (tracker_run_ok calls t now Hc) as Hok.
  destruct (tracker_run calls) as [tr h]. pose proof (counters_ok now tr h Hok) as Hcs.
  unfold mem_get_rate_limit_count, mem_get_request_count, mem_get_backoff_level.
  destruct (counters tr now) as [t' [rl rq]]. destruct Hcs as (_ & _ & H1 & H2). cbn [snd].
  split_and!; [by eapply count_exact..|]. pose proof (to_level _ _ Hok name) as Hl. cbn in Hl.
  rewrite <-Hl. by destruct (dget (mt_backoff_levels tr) name).
Qed.
End memory.

Definition shipped_settings : tracker_settings := TrackerSettings 60 10 false.

Definition storm : list (Z * tracker_call) :=
  [(0, RecordRequest "api"); (1, RecordRateLimit "api"); (seconds 30, RecordRateLimit "api");
   (seconds 61, RecordRateLimit "api"); (seconds 61, IncrementBackoff "api")].

Lemma tracker_counts_exact_witness :
  (mem_get_rate_limit_count shipped_settings (seconds 62)
     (tracker_run shipped_settings storm).1 "api" 60).2 = 2 ∧
  (mem_get_backoff_level (tracker_run shipped_settings storm).1 "api").2 = 1.
Proof.
  pose proof (tracker_counts_exact shipped_settings storm 0 (seconds 62) "api" 60) as H.
  assert (Hc : clocked 0 storm (seconds 62)) by (cbn; unfold seconds, US_PER_SECOND; lia).
  specialize (H Hc ltac:(vm_compute; congruence)).
  destruct (tracker_run shipped_settings storm) as [tr h] eqn:E. destruct H as (H1 & _ & H2).
  cbn [fst]. rewrite H1, H2.
  replace h with (tracker_run shipped_settings storm).2 by (by rewrite E). split; vm_compute; reflexivity.
Defined.

(** ** The hybrid tracker's own state and the shared store *)

Definition REDIS_PROBE_INTERVAL : Z := seconds 30.

(** The operations of the shared store; [None] or [false]: the call raised. *)
Record l2_backend (X : Type) := L2Backend {
  l2_connect : X → X * bool;
  l2_record_rate_limit : string → X → X * bool;
  l2_record_request : string → X → X * bool;
  l2_get_rate_limit_count : string → Z → X → X * option Z;
  l2_get_request_count : string → Z → X → X * option Z;
  l2_get_backoff_level : string → X → X * option Z;
  l2_increment_backoff : string → X → X * option Z;
  l2_reset_backoff : string → X → X * bool;
  l2_clear_service : string → X → X * bool;
}.
Arguments l2_connect {X}. Arguments l2_record_rate_limit {X}. Arguments l2_record_request {X}.
Arguments l2_get_rate_limit_count {X}. Arguments l2_get_request_count {X}.
Arguments l2_get_backoff_level {X}. Arguments l2_increment_backoff {X}.
Arguments l2_reset_backoff {X}. Arguments l2_clear_service {X}.

(** [RateLimitTracker.__init__] *)
Record hybrid_tracker := HybridTracker {
  ht_memory : memory_tracker;
  ht_redis_initialized : bool;
  ht_next_redis_probe : Z;
}.

Definition new_hybrid_tracker : hybrid_tracker := HybridTracker (new_memory_tracker None) false 0.

(** [_ensure_redis]: connect on first use, and not again for 30 seconds after a
    failure; without the setting nothing is tried or remembered. *)
Definition ensure_redis {X} (st : tracker_settings) (l2 : l2_backend X) (now : Z)
    (t : hybrid_tracker) (x : X) : hybrid_tracker * X * bool :=
  if ht_redis_initialized t then (t, x, true)
  else if now <? ht_next_redis_probe t then (t, x, false)
  else if negb (ts_rate_limit_distributed st) then (t, x, false)
  else
    let '(x, ok) := l2_connect l2 x in
    if ok then (HybridTracker (ht_memory t) true (ht_next_redis_probe t), x, true)
    else (HybridTracker (ht_memory t) false (now + REDIS_PROBE_INTERVAL), x, false).
