(* ===== verification/CBProtection.v ===== *)
(** * Rate-limit cascades and self-DDoS protection

    [ProtectionMixin] of the circuit-breaker service
    ([services/circuit_breaker/protection.py]) and the hybrid tracker it reads
    ([RateLimitTracker] of [rate_limit_tracker.py]).

    The methods run in the service's world extended by the tracker, the shared
    store behind it and the execution mode; a method of the service itself is
    lifted into that world.  The theorems: protection calls, in any interleaving
    with all other calls, keep what the service promises; on its own, the cascade
    decision follows its rule; the suggested delays are bounded. *)
From Stdlib Require Import QArith Qminmax Lqa SpecFloat.
From stdpp Require Import pretty.
From S2P Require Import Backoff RateLimitTracker.
From S2P Require Import Prelude Interleave CBData OutcomeWindow CBInterface CBRepo CBService CBTokens CBRules.
From S2P Require Import CBEvents CBSafety CBBlock CBLifecycle.
#[local] Open Scope Z_scope.

(** ** Numbers as text *)

(** The integer nearest to [k * x], ties to even. *)
Definition scaled (k : Z) (x : float) : Z :=
  match x with
  | S754_finite s m e =>
      let n :=
        if 0 <=? e then Z.pos m * 2 ^ e * k
        else
          let d := 2 ^ (- e) in
          let q := (Z.pos m * k) / d in
          let r := (Z.pos m * k) mod d in
          if (d <? 2 * r) || ((2 * r =? d) && Z.odd q) then q + 1 else q in
      if s then - n else n
  | _ => 0
  end.

(** [f"{x:.1f}"] and [str(round(x, 2))], for a percentage. *)
Definition fixed1 (x : float) : string :=
  let n := scaled 10 x in pretty (n / 10) +:+ "." +:+ pretty (n mod 10).
Definition rounded2 (x : float) : string :=
  let n := scaled 100 x in
  pretty (n / 100) +:+ "." +:+ pretty (n / 10 mod 10) +:+
  (if n mod 10 =? 0 then "" else pretty (n mod 10)).

(** ** The world *)
Record pworld (R X : Type) := PWorld {
  base : world R;
  tracker : hybrid_tracker;
  l2_store : X;
  observe_only : bool;
}.
Arguments PWorld {R X}. Arguments base {R X}. Arguments tracker {R X}.
Arguments l2_store {R X}. Arguments observe_only {R X}.

Definition set_base {R X} (pw : pworld R X) (w : world R) : pworld R X :=
  PWorld w (tracker pw) (l2_store pw) (observe_only pw).

Section protection.
  Context {R X : Type} `{CircuitBreakerStateRepository R}.
  (** The settings the tracker was started with and the shared store. *)
  Context (st : tracker_settings) (l2 : l2_backend X).
Notation pmethod A := (eprog (pworld R X) A).

(** A method of the service. *)
Definition lift {A} (p : eprog (world R) A) : pmethod A := zoom base set_base p.

(** A call of the in-memory tracker; it reads the clock. *)
Definition tracking {A} (f : Z → memory_tracker → memory_tracker * A) : pmethod A :=
  atomically (λ pw,
    let t := tracker pw in
    let '(m, a) := f (clock (base pw)) (ht_memory t) in
    (PWorld (base pw) (HybridTracker m (ht_redis_initialized t) (ht_next_redis_probe t))
       (l2_store pw) (observe_only pw), a)).

Definition connected : pmethod bool :=
  atomically (λ pw,
    let '(t, x, up) := ensure_redis st l2 (clock (base pw)) (tracker pw) (l2_store pw) in
    (PWorld (base pw) t x (observe_only pw), up)).

Definition remote {A} (f : X → X * A) : pmethod A :=
  atomically (λ pw, let '(x, a) := f (l2_store pw) in
                    (PWorld (base pw) (tracker pw) x (observe_only pw), a)).

(** *** [RateLimitTracker] *)

(** Writes go to memory and then, if it is connected, to the store, whose
    failure is ignored. *)
Definition write_through (m : Z → memory_tracker → memory_tracker) (f : X → X * bool) : pmethod () :=
  _ <- tracking (λ now t, (m now t, ()));;
  up <- connected;;
  if up then _ <- remote f;; ret () else ret ().

(** Reads prefer the store and fall back to memory. *)
Definition prefer_remote {A} (f : X → X * option A) (m : Z → memory_tracker → memory_tracker * A) :
    pmethod A :=
  up <- connected;;
  if up then
    r <- remote f;;
    match r with Some a => ret a | None => tracking m end
  else tracking m.

Definition record_rate_limit (name : string) : pmethod () :=
  write_through (λ now t, mem_record_rate_limit st now t name) (l2_record_rate_limit l2 name).
Definition record_request (name : string) : pmethod () :=
  write_through (λ now t, mem_record_request st now t name) (l2_record_request l2 name).
Definition get_rate_limit_count (name : string) (window_seconds : Z) : pmethod Z :=
  prefer_remote (l2_get_rate_limit_count l2 name window_seconds)
    (λ now t, mem_get_rate_limit_count st now t name window_seconds).
Definition get_request_count (name : string) (window_seconds : Z) : pmethod Z :=
  prefer_remote (l2_get_request_count l2 name window_seconds)
    (λ now t, mem_get_request_count st now t name window_seconds).
Definition get_backoff_level (name : string) : pmethod Z :=
  prefer_remote (l2_get_backoff_level l2 name) (λ _ t, mem_get_backoff_level t name).
Definition increment_backoff (name : string) : pmethod Z :=
  level <- tracking (λ _ t, mem_increment_backoff t name);;
  up <- connected;;
  if up then r <- remote (l2_increment_backoff l2 name);; ret (default level r) else ret level.
Definition tracker_reset_backoff (name : string) : pmethod () :=
  write_through (λ _ t, mem_reset_backoff t name) (l2_reset_backoff l2 name).
Definition clear_service (name : string) : pmethod () :=
  write_through (λ now t, mem_clear_service st now t name) (l2_clear_service l2 name).

(** *** The cascade *)

Definition record_rate_limit_observation (name : string) : pmethod () :=
  on <- lift is_enabled;;
  if negb on then ret () else record_rate_limit name.

(** [n / total >= rate / 100] in binary64. *)
Definition rate_reached (c : CircuitBreakerConfig) (n total : Z) : bool :=
  fl_leb (fl_div (rate_limit_cascade_rate c) (fl_of_Z 100)) (fl_div (fl_of_Z n) (fl_of_Z total)).

Definition cascade_detected (c : CircuitBreakerConfig) (n total : Z) : bool :=
  (rate_limit_cascade_threshold c <=? n) && (rate_limit_cascade_minimum_calls c <=? total)
  && (0 <? total) && rate_reached c n total.

Definition rate_percent (n total : Z) : float :=
  fl_mul (fl_div (fl_of_Z n) (fl_of_Z total)) (fl_of_Z 100).

Definition cascade_context (n total window : Z) : dict string string :=
  [("error_type", RATE_LIMIT_CASCADE_TRIGGER); ("rate_limit_count", pretty n);
   ("total_requests", pretty total); ("rate_percent", rounded2 (rate_percent n total));
   ("window_seconds", pretty window)].

Definition cascade_message (n total window : Z) : string :=
  "Rate limit cascade detected (" +:+ pretty n +:+ "/" +:+ pretty total +:+ " = "
  +:+ fixed1 (rate_percent n total) +:+ "% in " +:+ pretty window +:+ "s)".

(** [intervention_suppressed]: the process only observes. *)
Definition intervention_suppressed : pmethod bool := atomically (λ pw, (pw, observe_only pw)).

(** The decision on a detected cascade: the pin, observe-only and freeze gates,
    then the automatic trip. *)
Definition cascade_trip (name : string) (c : CircuitBreakerConfig) (n total : Z) :
    pmethod (option CircuitBreakerResult) :=
  row <- lift (get_or_create_state name);;
  evidence <- lift (get_window_evidence name);;
  now <- lift utc_now;;
  if is_manual_pin_active now row then ret None
  else
    suppressed <- intervention_suppressed;;
    if suppressed : bool then ret None
    else
      free <- lift auto_transition_allowed;;
      if negb free then ret None
      else
        let window := rate_limit_cascade_window_seconds c in
        attempt <- lift (trip_circuit_open name row (cascade_context n total window) c
                           evidence.1 evidence.2 RATE_LIMIT_CASCADE_TRIGGER);;
        if negb (did_open attempt) then ret None
        else
          _ <- increment_backoff name;;
          ret (Some (succeeded name "closed" "open" (cascade_message n total window) None)).

Definition evaluate_rate_limit_cascade (name : string) : pmethod (option CircuitBreakerResult) :=
  on <- lift is_enabled;;
  if negb on then ret None
  else
    c <- lift (get_effective_config name);;
    n <- get_rate_limit_count name (rate_limit_cascade_window_seconds c);;
    total <- get_request_count name (rate_limit_cascade_window_seconds c);;
    if cascade_detected c n total then cascade_trip name c n total else ret None.

Definition record_rate_limit_response (name : string) : pmethod (option CircuitBreakerResult) :=
  on <- lift is_enabled;;
  if negb on then ret None
  else
    _ <- record_rate_limit_observation name;;
    evaluate_rate_limit_cascade name.

(** [check_rate_limit_cascade]: its division has no guard of its own. *)
Definition check_rate_limit_cascade (name : string) : pmethod bool :=
  c <- lift (ask config);;
  n <- get_rate_limit_count name (rate_limit_cascade_window_seconds c);;
  total <- get_request_count name (rate_limit_cascade_window_seconds c);;
  if (rate_limit_cascade_threshold c <=? n) && (rate_limit_cascade_minimum_calls c <=? total) then
    if total =? 0 then raise ZeroDivisionError else ret (rate_reached c n total)
  else ret false.

(** *** Self-DDoS protection *)

Definition MIN_BACKOFF_SECONDS : Q := 1 # 10.

(** [calculate_adaptive_backoff] for the random draw [u]. *)
Definition adaptive_delay (c : CircuitBreakerConfig) (level : Z) (u : Q) : Q :=
  Qmax MIN_BACKOFF_SECONDS
    (exponential_calculate
       (Exponential (self_ddos_backoff_base_seconds c) (self_ddos_backoff_max_seconds c)
          (self_ddos_backoff_multiplier c) true (self_ddos_backoff_jitter_factor c)) (level + 1) u).

Definition calculate_adaptive_backoff (name : string) (u : Q) : pmethod Q :=
  c <- lift (ask config);;
  level <- get_backoff_level name;;
  ret (adaptive_delay c level u).

(** [count / window > limit] *)
Definition over_limit (c : CircuitBreakerConfig) (count : Z) : pmethod bool :=
  if self_ddos_window_seconds c =? 0 then raise ZeroDivisionError
  else ret (fl_ltb (fl_of_Z (self_ddos_rps_limit c))
              (fl_div (fl_of_Z count) (fl_of_Z (self_ddos_window_seconds c)))).

Definition should_allow_with_ddos_protection (name : string) (u : Q) : pmethod (bool * Q) :=
  ok <- lift (should_allow name);;
  if negb ok then
    backoff <- calculate_adaptive_backoff name u;; ret (false, backoff)
  else
    c <- lift (ask config);;
    if negb (self_ddos_protection_enabled c) then ret (true, 0%Q)
    else
      _ <- record_request name;;
      count <- get_request_count name (self_ddos_window_seconds c);;
      over <- over_limit c count;;
      if over : bool then backoff <- calculate_adaptive_backoff name u;; ret (true, backoff)
      else ret (true, 0%Q).

Definition reset_backoff (name : string) : pmethod () := tracker_reset_backoff name.

Definition is_self_ddos_detected (name : string) : pmethod bool :=
  c <- lift (ask config);;
  if negb (self_ddos_protection_enabled c) then ret false
  else
    count <- get_request_count name (self_ddos_window_seconds c);;
    over_limit c count.

(** ** The calls *)
Inductive protected_op : Type :=
| PService (o : operation)
| PObserved (name : string)
| PEvaluated (name : string)
| PRateLimited (name : string)
| PChecked (name : string)
| PAllow (name : string) (u : Q)
| PDetected (name : string)
| PResetBackoff (name : string).
End protection.

Section pool.
  Context {R X : Type} `{RepositoryLaws R} (st : tracker_settings) (l2 : l2_backend X).

Definition pbody (o : protected_op) : thread (pworld R X) :=
  match o with
  | PService o => zoom base set_base (body o)
  | PObserved name => spawn (record_rate_limit_observation st l2 name)
  | PEvaluated name => spawn (evaluate_rate_limit_cascade st l2 name)
  | PRateLimited name => spawn (record_rate_limit_response st l2 name)
  | PChecked name => spawn (check_rate_limit_cascade st l2 name)
  | PAllow name u => spawn (should_allow_with_ddos_protection st l2 name u)
  | PDetected name => spawn (is_self_ddos_detected st l2 name)
  | PResetBackoff name => spawn (reset_backoff st l2 name)
  end.

(** The outside of the extended world: of the service's world as [env] allows;
    the shared store and the execution mode may change at any time. *)
Definition poutside (env : world R → world R → Prop) (pw pw' : pworld R X) : Prop :=
  tracker pw' = tracker pw ∧ (base pw' = base pw ∨ env (base pw) (base pw')).

(** ** Proof rules in the extended world *)
Context (I : world R → Prop) (delta : world R → world R → Z) (cost : effect → Z).
Context (HA : accounting I delta cost).

Notation Ip := (λ pw : pworld R X, I (base pw)).
Notation deltap := (λ pw pw' : pworld R X, delta (base pw) (base pw')).
Notation wpp p n Φ := (wp Ip deltap p n Φ).

Lemma wp_lift {A} (p : eprog (world R) A) n (Φ : Z → exn + A → Prop) :
  wp I delta p n Φ → wpp (lift p) n Φ.
Proof. by apply wp_zoom. Qed.

(** An action that leaves the service's world alone costs nothing. *)
Lemma wp_apart {A} (f : pworld R X → pworld R X * A) n (Φ : Z → exn + A → Prop) :
  (∀ pw, base (f pw).1 = base pw) → (∀ a, Φ n (inr a)) → wpp (atomically f) n Φ.
Proof.
  intros Hf HΦ. apply wp_atomically. intros pw Hpw. cbv beta. rewrite Hf.
  by rewrite (acc_ask _ _ _ HA _ Hpw), Z.add_0_r.
Qed.

Lemma wp_tracking {A} (f : Z → memory_tracker → memory_tracker * A) n (Φ : Z → exn + A → Prop) :
  (∀ a, Φ n (inr a)) → wpp (tracking f) n Φ.
Proof. apply wp_apart. intros pw. cbn. by destruct (f (clock (base pw)) (ht_memory (tracker pw))). Qed.

Lemma wp_connected n (Φ : Z → exn + bool → Prop) :
  (∀ b, Φ n (inr b)) → wpp (connected st l2) n Φ.
Proof. apply wp_apart. intros pw. cbv beta.
  by destruct (ensure_redis st l2 (clock (base pw)) (tracker pw) (l2_store pw)) as [[t x] b].
Qed.

Lemma wp_remote {A} (f : X → X * A) n (Φ : Z → exn + A → Prop) :
  (∀ a, Φ n (inr a)) → wpp (remote f) n Φ.
Proof. apply wp_apart. intros pw. cbn. by destruct (f (l2_store pw)). Qed.

Lemma wp_suppressed n (Φ : Z → exn + bool → Prop) :
  (∀ b, Φ n (inr b)) → wpp intervention_suppressed n Φ.
Proof. by apply wp_apart. Qed.

Lemma wp_write_through m f n (Φ : Z → exn + unit → Prop) :
  Φ n (inr ()) → wpp (write_through st l2 m f) n Φ.
Proof.
  intros HΦ. apply wp_ebind, wp_tracking. intros _. apply wp_ebind, wp_connected. intros [];
    [|done]. by apply wp_ebind, wp_remote.
Qed.

Lemma wp_prefer_remote {A} (f : X → X * option A) m n (Φ : Z → exn + A → Prop) :
  (∀ a, Φ n (inr a)) → wpp (prefer_remote st l2 f m) n Φ.
Proof.
  intros HΦ. apply wp_ebind, wp_connected. intros []; [|by apply wp_tracking].
  apply wp_ebind, wp_remote. intros [a|]; [apply HΦ|by apply wp_tracking].
Qed.

Lemma wp_increment_backoff name n (Φ : Z → exn + Z → Prop) :
  (∀ a, Φ n (inr a)) → wpp (increment_backoff st l2 name) n Φ.
Proof.
  intros HΦ. apply wp_ebind, wp_tracking. intros level. apply wp_ebind, wp_connected. intros [];
    [|apply HΦ]. apply wp_ebind, wp_remote. intros r. apply HΦ.
Qed.

Lemma wp_lift_ask {A} (f : world R → A) n (Φ : Z → exn + A → Prop) :
  (∀ a, Φ n (inr a)) → wpp (lift (ask f)) n Φ.
Proof. intros HΦ. apply wp_lift. by apply (wp_ask _ _ _ HA). Qed.

Lemma wp_backoff name u n (Φ : Z → exn + Q → Prop) :
  (∀ a, Φ n (inr a)) → wpp (calculate_adaptive_backoff st l2 name u) n Φ.
Proof. intros HΦ. apply wp_ebind, wp_lift_ask. intros c. apply wp_ebind, wp_prefer_remote. intros a. apply HΦ. Qed.

Lemma wp_over c count n (Φ : Z → exn + bool → Prop) :
  (∀ r, Φ n r) → wpp (over_limit c count) n Φ.
Proof. intros HΦ. unfold over_limit. case_match; apply HΦ. Qed.

(** What remains to be shown of a promise: that the admission it lifts and the
    trip of a cascade keep it. *)
Context (Hallow : ∀ name, wp I delta (should_allow name) 0 (λ m _, m = 0)).
Context (Htrip : ∀ name c n total, wpp (cascade_trip st l2 name c n total) 0 (λ m _, m = 0)).

Lemma settle_evaluate name : wpp (evaluate_rate_limit_cascade st l2 name) 0 (λ m _, m = 0).
Proof.
  apply wp_ebind, wp_lift_ask. intros []; [|done]. cbv beta iota delta [negb].
  apply wp_ebind, wp_lift. apply (quiet_config _ _ _ HA). intros [e|c]; [done|].
  apply wp_ebind, wp_prefer_remote. intros n. apply wp_ebind, wp_prefer_remote. intros total.
  destruct (cascade_detected c n total); [apply Htrip|done].
Qed.

Lemma settle_observation name : wpp (record_rate_limit_observation st l2 name) 0 (λ m _, m = 0).
Proof. apply wp_ebind, wp_lift_ask. intros []; [|done]. by apply wp_write_through. Qed.

Lemma settle_response name : wpp (record_rate_limit_response st l2 name) 0 (λ m _, m = 0).
Proof.
  apply wp_ebind, wp_lift_ask. intros []; [|done]. cbv beta iota delta [negb].
  apply wp_ebind. eapply wp_mono; [apply settle_observation|]. intros m [e|[]] ->; [done|].
  apply settle_evaluate.
Qed.

Lemma settle_checked name : wpp (check_rate_limit_cascade st l2 name) 0 (λ m _, m = 0).
Proof.
  apply wp_ebind, wp_lift_ask. intros c. apply wp_ebind, wp_prefer_remote. intros n.
  apply wp_ebind, wp_prefer_remote. intros total. by repeat case_match.
Qed.

Lemma settle_allow name u : wpp (should_allow_with_ddos_protection st l2 name u) 0 (λ m _, m = 0).
Proof.
  apply wp_ebind, wp_lift. eapply wp_mono; [apply Hallow|]. intros m [e|[]] ->; [done| |];
    cbv beta iota delta [negb]; [|by apply wp_ebind, wp_backoff].
  apply wp_ebind, wp_lift_ask. intros c. destruct (self_ddos_protection_enabled c); [|done].
  cbv beta iota delta [negb]. apply wp_ebind, wp_write_through, wp_ebind, wp_prefer_remote.
  intros count. apply wp_ebind, wp_over. intros [e|[]]; [done| |done]. by apply wp_ebind, wp_backoff.
Qed.

Lemma settle_detected name : wpp (is_self_ddos_detected st l2 name) 0 (λ m _, m = 0).
Proof.
  apply wp_ebind, wp_lift_ask. intros c. destruct (self_ddos_protection_enabled c); [|done].
  cbv beta iota delta [negb]. apply wp_ebind, wp_prefer_remote. intros count. by apply wp_over.
Qed.

(** A pool of service calls that settle and of protection calls settles. *)
Lemma protected_settles o :
  match o with PService o => settles I delta 0 (body o) | _ => True end →
  settles Ip deltap 0 (pbody o).
Proof.
  destruct o; intros Ho; [by apply settles_zoom|apply settles_spawn..].
  - apply settle_observation.
  - apply settle_evaluate.
  - apply settle_response.
  - apply settle_checked.
  - apply settle_allow.
  - apply settle_detected.
  - by apply wp_write_through.
Qed.
End pool.

(** ** Every interleaving *)

(** A call of the service that is not an operator's, or a protection call. *)
Definition unattended (o : protected_op) : bool :=
  match o with PService o => automatic o | _ => true end.

Section promises.
  Context {R X : Type} `{RepositoryLaws R} (st : tracker_settings) (l2 : l2_backend X).

(** The part of [cascade_trip] before the trip costs nothing; the trip gets a row
    that was not pinned when it was read. *)
Lemma wp_cascade_trip I delta cost (HA : accounting I delta cost) name c n total :
  (∀ row ctx wf wt trig, wp I delta (trip_circuit_open name row ctx c wf wt trig) 0 (λ m _, m = 0)) →
  wp (λ pw : pworld R X, I (base pw)) (λ pw pw', delta (base pw) (base pw'))
    (cascade_trip st l2 name c n total) 0 (λ m _, m = 0).
Proof.
  intros Ht. unfold cascade_trip. apply wp_ebind, wp_lift. apply (wp_create _ _ _ HA). intros row.
  apply wp_ebind, (wp_lift_ask _ _ _ HA). intros evidence. apply wp_ebind, (wp_lift_ask _ _ _ HA).
  intros now. destruct (is_manual_pin_active now row); [done|].
  apply wp_ebind, (wp_suppressed _ _ _ HA). intros []; [done|].
  apply wp_ebind, (wp_lift_ask _ _ _ HA). intros []; [|done]. cbv beta iota zeta delta [negb].
  apply wp_ebind, wp_lift. eapply wp_mono; [apply Ht|]. intros m [e|att] ->; [done|].
  destruct (did_open att); [|done]. by apply wp_ebind, (wp_increment_backoff _ _ _ _ _ HA).
Qed.

(** Exactly-once announcement extends to protection: in every interleaving of
    the service's calls, operators, background passes and protection calls,
    whatever the shared store answers, each transition of a circuit to OPEN or
    CLOSED has been handed to the event bus exactly once when all calls have
    returned, and a bus that stays up took them all; a cascade's trip is
    announced exactly like a failure's. *)
Theorem protection_announced name (from to : CircuitBreakerStateEnum) up ops (pw : pworld R X) d ts pw' :
  from ≠ to →
  to ≠ HALF_OPEN ∨ Forall (λ o, match o with PService o => sweeps o = false | _ => True end) ops →
  world_ok (base pw) → (up = true → bus (base pw) = BusUp) →
  exec (poutside (outside_with up)) (λ pw pw', transitions name from to (base pw) (base pw'))
    (pbody st l2 <$> ops, pw) d (ts, pw') →
  Forall finished ts → books_closed name from to up (base pw) (base pw') d ∧ world_ok (base pw').
Proof.
  intros Hne Hops Hw Hbus Hexec Hfin.
  assert (value from ≠ value to) as Hv by (intros Heq%value_inj; done).
  destruct (pool_closes_books (poutside (outside_with up)) base (λ sure pw, books_ok sure (base pw))
    name from to up (pbody st l2 <$> ops) pw d ts pw') as [Hd [Hw' _]]; [|done..].
  intros sure Hsure. pose proof (events_accounting name (value from) (value to) Hv sure) as HA.
  split_and!; [|by split; auto|].
  { intros v v' Hok [_ [-> |[Ho Hb]]];
      [split; [done|by apply (acc_ask _ _ _ HA)]|by apply outside_free; auto]. }
  apply Forall_fmap, Forall_forall. intros o Ho.
  eapply (protected_settles st l2 _ _ _ HA).
  - intros k. by apply settle_should_allow.
  - intros k c n total. apply (wp_cascade_trip _ _ _ HA). intros. by apply settle_trip.
  - destruct o; try done. apply operation_settles; [done|].
    destruct Hops as [Hto|Hops]; [left; intros Heq; by apply Hto, value_inj|right].
    by apply (proj1 (Forall_forall _ _) Hops _ Ho).
Qed.

Lemma trip_frozen held name c n total :
  wp (λ pw : pworld R X, frozen held (base pw)) (λ _ _, 0) (cascade_trip st l2 name c n total) 0 (λ m _, m = 0).
Proof.
  pose proof (frozen_accounting held) as HA. unfold cascade_trip.
  apply wp_ebind, (wp_lift _ (λ _ _, 0)), (wp_create _ _ _ HA). intros row.
  apply wp_ebind, (wp_lift_ask _ _ _ HA). intros evidence. apply wp_ebind, (wp_lift_ask _ _ _ HA).
  intros now. destruct (is_manual_pin_active now row); [done|].
  apply wp_ebind, (wp_suppressed _ _ _ HA). intros []; [done|].
  by apply wp_ebind, (wp_lift _ (λ _ _, 0)), wpf_gate.
Qed.

(** A freeze holds every circuit against protection too: while the emergency level
    stays at LEVEL_3, no interleaving of automatic calls and protection calls,
    however many 429s they report, changes the state of any circuit. *)
Theorem freeze_holds_cascades ops (pw : pworld R X) d ts pw' n :
  Forall (λ o, unattended o = true) ops →
  world_ok (base pw) → is_lockdown (emergency (base pw)) = true →
  exec (poutside frozen_outside) (λ _ _, 0) (pbody st l2 <$> ops, pw) d (ts, pw') →
  token (repo (base pw')) n = token (repo (base pw)) n.
Proof.
  intros Hops Hw He Hexec. set (held := token (repo (base pw))).
  enough (frozen held (base pw')) as (_ & _ & Ht) by apply Ht.
  eapply (exec_invariant (poutside frozen_outside) (λ pw, frozen held (base pw))); [| | |exact Hexec].
  - intros v v' Hv [_ [-> |[Ho Hl]]]; [done|]. destruct Hv as (Hv & _ & Ht). by destruct Ho.
  - done.
  - apply Forall_fmap. eapply Forall_impl; [exact Hops|]. intros o Ho.
    eapply (protected_settles st l2 _ (λ _ _, 0) _ (frozen_accounting held)).
    + intros k. apply settles_spawn_inv. by apply (frozen_operation held (OpShouldAllow k)).
    + intros. apply trip_frozen.
    + destruct o; try done. by apply frozen_operation.
Qed.

Lemma trip_blocked blocked V name c n total :
  v_state V = value OPEN →
  wp (λ pw : pworld R X, in_force blocked V (base pw)) (λ _ _, 0) (cascade_trip st l2 name c n total) 0
    (λ m _, m = 0).
Proof.
  intros HV. pose proof (block_accounting blocked V) as HA.
  destruct (decide (name = blocked)) as [->|Hne].
  - unfold cascade_trip. apply wp_ebind, (wp_lift _ (λ _ _, 0)), (wpb_create blocked V).
    intros row Hrow. apply wp_ebind, (wp_lift_ask _ _ _ HA). intros evidence.
    apply wp_ebind, (wp_lift _ (λ _ _, 0)), (wpb_now blocked V). intros t Ht.
    by destruct (block_row V HV row t (Hrow eq_refl) Ht) as [-> _].
  - apply (wp_cascade_trip _ _ _ HA). intros row ctx wf wt trig. unfold trip_circuit_open. cbv zeta.
    apply wp_ebind. eapply wpb_frame; [apply frames_trip|done|]. intros att.
    unfold log_circuit_open_audit, apply_burn_rate_multiplier.
    wp_run; try (apply (wp_emit _ _ _ HA); intros ?; wp_run); done.
Qed.

(** Protection yields to operators: once an operator's block is in force and
    until it expires, no interleaving of automatic calls and protection calls that
    begin under it, whatever 429 counts the tracker or the shared store report,
    changes anything of the blocked circuit's row. *)
Theorem protection_yields_to_block name ops (pw : pworld R X) d ts pw' :
  Forall (λ o, unattended o = true) ops →
  world_ok (base pw) → v_state (vw (repo (base pw)) name) = value OPEN →
  v_pinned (clock (base pw)) (vw (repo (base pw)) name) = true →
  exec (poutside (before_expiry (vw (repo (base pw)) name))) (λ _ _, 0) (pbody st l2 <$> ops, pw) d (ts, pw') →
  vw (repo (base pw')) name = vw (repo (base pw)) name.
Proof.
  intros Hops Hw Hst Hp Hexec. set (V := vw (repo (base pw)) name) in *.
  enough (in_force name V (base pw')) as (_ & Hv & _) by apply Hv.
  eapply (exec_invariant (poutside (before_expiry V)) (λ pw, in_force name V (base pw))); [| | |exact Hexec].
  - intros v v' Hv [_ [-> |[Ho Hp']]]; [done|]. destruct Hv as (Hv & Hvw & _). by destruct Ho.
  - done.
  - apply Forall_fmap. eapply Forall_impl; [exact Hops|]. intros o Ho.
    eapply (protected_settles st l2 _ (λ _ _, 0) _ (block_accounting name V)).
    + intros k. apply settles_spawn_inv. by apply (block_operation name V Hst (OpShouldAllow k)).
    + intros. by apply trip_blocked.
    + destruct o; try done. by apply block_operation.
Qed.
End promises.

(** ** The cascade decision on its own *)

(** With the shipped settings no shared store is used. *)
Definition local_only {R X} (st : tracker_settings) (pw : pworld R X) : Prop :=
  ts_rate_limit_distributed st = false ∧ ht_redis_initialized (tracker pw) = false.

(** What the in-memory tracker knows about a name. *)
Definition recent_429s {R X} (st : tracker_settings) (pw : pworld R X) (name : string) (window : Z) : Z :=
  (mem_get_rate_limit_count st (clock (base pw)) (ht_memory (tracker pw)) name window).2.
Definition recent_requests {R X} (st : tracker_settings) (pw : pworld R X) (name : string) (window : Z) : Z :=
  (mem_get_request_count st (clock (base pw)) (ht_memory (tracker pw)) name window).2.
Definition level {R X} (pw : pworld R X) (name : string) : Z :=
  default 0 (dget (mt_backoff_levels (ht_memory (tracker pw))) name).

(** When a cascade opens a circuit. *)
Definition cascade_opens (now : Z) (c : CircuitBreakerConfig) (locked suppressed : bool) (n total : Z)
    (v : cb_view) : bool :=
  cascade_detected c n total && negb (v_pinned now v) && negb suppressed && negb locked && v_is v CLOSED.

Section rule.
  Context {R X : Type} `{RepositoryLaws R} (st : tracker_settings) (l2 : l2_backend X).

Lemma run_lift {A} (p : eprog (world R) A) (pw : pworld R X) :
  run (lift p) pw = (set_base pw (run p (base pw)).1, (run p (base pw)).2).
Proof. unfold lift. apply run_zoom; [done|done|by intros []]. Qed.

Lemma run_lift_ask {A} (f : world R → A) (pw : pworld R X) : run (lift (ask f)) pw = (pw, inr (f (base pw))).
Proof. rewrite run_lift, run_ask. by destruct pw. Qed.

Lemma run_tracking {A} (f : Z → memory_tracker → memory_tracker * A) (pw : pworld R X) :
  run (tracking f) pw =
  (PWorld (base pw)
     (HybridTracker (f (clock (base pw)) (ht_memory (tracker pw))).1 (ht_redis_initialized (tracker pw))
        (ht_next_redis_probe (tracker pw))) (l2_store pw) (observe_only pw),
   inr (f (clock (base pw)) (ht_memory (tracker pw))).2).
Proof.
  unfold tracking. rewrite run_atomically. cbn.
  by destruct (f (clock (base pw)) (ht_memory (tracker pw))).
Qed.

Lemma run_connected (pw : pworld R X) : local_only st pw → run (connected st l2) pw = (pw, inr false).
Proof.
  intros [Hd Hi]. unfold connected, ensure_redis. rewrite run_atomically. rewrite Hi, Hd.
  destruct (clock (base pw) <? ht_next_redis_probe (tracker pw)); by destruct pw.
Qed.

Lemma run_prefer_local {A} f (m : Z → memory_tracker → memory_tracker * A) (pw : pworld R X) :
  local_only st pw → run (prefer_remote st l2 f m) pw = run (tracking m) pw.
Proof. intros Hl. unfold prefer_remote. by rewrite run_ebind, run_connected. Qed.

Lemma run_increment_local name (pw : pworld R X) :
  local_only st pw →
  ∃ pw', run (increment_backoff st l2 name) pw = (pw', inr (level pw name + 1)) ∧
    base pw' = base pw ∧ level pw' name = level pw name + 1.
Proof.
  intros Hl. unfold increment_backoff. rewrite run_ebind, run_tracking. cbn [mem_increment_backoff fst snd].
  rewrite run_ebind, run_connected by (destruct Hl; by split). eexists. split; [done|].
  split; [done|]. unfold level. cbn. by rewrite dget_dset_eq.
Qed.

(** Building the counters and a warning do not show in later counts. *)
Lemma counters_count (t : memory_tracker) now name w name' w' :
  (mem_get_request_count st now (mem_get_rate_limit_count st now t name w).1 name' w').2 =
  (mem_get_request_count st now t name' w').2.
Proof.
  unfold mem_get_rate_limit_count, mem_get_request_count, warn_if_window_exceeds_retention, counters.
  destruct (mt_counters t) as [[rl rq]|] eqn:E; cbn.
  - destruct (mt_retention t) as [r|]; [|by rewrite E]. destruct (seconds w <=? r); cbn; by rewrite ?E.
  - by destruct (seconds w <=? _).
Qed.

Lemma count_keeps_levels (t : memory_tracker) now name w :
  mt_backoff_levels (mem_get_rate_limit_count st now t name w).1 = mt_backoff_levels t ∧
  mt_backoff_levels (mem_get_request_count st now t name w).1 = mt_backoff_levels t.
Proof.
  unfold mem_get_rate_limit_count, mem_get_request_count, warn_if_window_exceeds_retention, counters.
  destruct (mt_counters t) as [[rl rq]|]; cbn.
  - destruct (mt_retention t); [|done]. by case_match.
  - by case_match.
Qed.

Lemma leaves_trip_flag name row ctx c wf wt trig (w : world R) :
  r_ok (repo w) →
  leaves (trip_circuit_open name row ctx c wf wt trig) w name
    (spec_trip (clock w) (failure_count row) (vw (repo w) name)).1.1
    (λ att, did_open att = (spec_trip (clock w) (failure_count row) (vw (repo w) name)).1.2).
Proof.
  intros Hok. pose proof (law_trip (clock w) (repo w) name (failure_count row) Hok) as Hl.
  destruct (r_trip_to_open (clock w) (repo w) name (failure_count row)) as [r' att] eqn:Hf.
  destruct (spec_trip _ _ _) as [[v' b] t]. destruct Hl as (Hok' & Hc & Hb & _). cbn [fst snd].
  unfold trip_circuit_open. cbv zeta. eapply leaves_storing; [exact Hf|done|done|]. inert_run.
Qed.

(** What an evaluation leaves: its result, the rows and the backoff level. *)
Definition evaluated (pw pw' : pworld R X) (name : string) (opens : bool)
    (res : option CircuitBreakerResult) (n total window : Z) : Prop :=
  let v := vw (repo (base pw)) name in
  res = (if opens then Some (succeeded name "closed" "open" (cascade_message n total window) None) else None) ∧
  (∀ k, vw (repo (base pw')) k =
     if opens && bool_decide (k = name) then (spec_trip (clock (base pw)) (v_failures v) v).1.1
     else vw (repo (base pw)) k) ∧
  level pw' name = level pw name + (if opens then 1 else 0).

Lemma evaluated_none pw pw' name n total window :
  (∀ k, vw (repo (base pw')) k = vw (repo (base pw)) k) → tracker pw' = tracker pw →
  evaluated pw pw' name false None n total window.
Proof. intros Hv Ht. split_and!; [done|done|]. unfold level. rewrite Ht. cbn. lia. Qed.

Lemma run_cascade_trip name c n total (pw : pworld R X) :
  r_ok (repo (base pw)) → local_only st pw →
  let v := vw (repo (base pw)) name in
  let opens := negb (v_pinned (clock (base pw)) v) && negb (observe_only pw)
               && negb (is_lockdown (emergency (base pw))) && v_is v CLOSED in
  ∃ pw' res, run (cascade_trip st l2 name c n total) pw = (pw', inr res) ∧
    evaluated pw pw' name opens res n total (rate_limit_cascade_window_seconds c).
Proof.
  intros Hok Hl v opens. destruct (run_create name (base pw) Hok) as (r & row & Hrun & Hr & Hc & Hrow & _).
  unfold cascade_trip. rewrite run_ebind, run_lift, Hrun. cbn [fst snd].
  set (pw1 := set_base pw (set_repo (base pw) r)).
  assert (Hsame : ∀ k, vw r k = vw (repo (base pw)) k).
  { intros k. destruct (decide (k = name)) as [->|Hk]; [by apply (changes_eq _ _ _ _ Hc)|by eapply changes_ne]. }
  unfold get_window_evidence, utc_now. rewrite run_ebind, run_lift_ask, run_ebind, run_lift_ask.
  change (clock (base pw1)) with (clock (base pw)).
  assert (Hpin : is_manual_pin_active (clock (base pw)) row = v_pinned (clock (base pw)) v)
    by (unfold v; by rewrite <-Hrow).
  rewrite Hpin. unfold opens. destruct (v_pinned (clock (base pw)) v) eqn:Epin; cbn [negb andb].
  { exists pw1, None. split; [done|]. by apply evaluated_none. }
  unfold intervention_suppressed. rewrite run_ebind, run_atomically. cbn [fst snd].
  change (observe_only pw1) with (observe_only pw). destruct (observe_only pw); cbn [negb andb].
  { exists pw1, None. split; [done|]. by apply evaluated_none. }
  unfold auto_transition_allowed. rewrite run_ebind, run_lift_ask.
  unfold should_allow_state_change.
  change (emergency (base pw1)) with (emergency (base pw)).
  destruct (is_lockdown (emergency (base pw))); cbn [negb andb].
  { exists pw1, None. split; [done|]. by apply evaluated_none. }
  cbv zeta. set (wd := rate_limit_cascade_window_seconds c).
  destruct (leaves_trip_flag name row (cascade_context n total wd) c
    (OutcomeWindow.read (window (base pw1)) name).1 (OutcomeWindow.read (window (base pw1)) name).2
    RATE_LIMIT_CASCADE_TRIGGER (base pw1) Hr) as (w' & att & Hrt & Hopen & Hok' & Hct).
  assert (Hfc : failure_count row = v_failures v) by (unfold v; by rewrite <-Hrow).
  change (repo (base pw1)) with r in *. change (clock (base pw1)) with (clock (base pw)) in *.
  rewrite Hfc, (Hsame name) in *. fold v in Hopen, Hct.
  rewrite run_ebind, run_lift, Hrt. cbn [fst snd]. rewrite Hopen.
  destruct (v_is v CLOSED) eqn:Ecl.
  - assert ((spec_trip (clock (base pw)) (v_failures v) v).1.2 = true) as ->
      by (unfold spec_trip; by rewrite Epin, Ecl).
    cbn [negb]. rewrite run_ebind.
    destruct (run_increment_local name (set_base pw1 w')) as (pw2 & Hinc & Hb & Hlv); [by destruct Hl|].
    rewrite Hinc. eexists _, _. split; [done|]. split_and!; [done| |by rewrite Hlv].
    intros k. rewrite Hb. cbn [base set_base]. case_bool_decide as Ek; cbn [andb].
    + subst k. by apply (changes_eq _ _ _ _ Hct).
    + rewrite (changes_ne _ _ _ _ _ Hct) by done. apply Hsame.
  - assert ((spec_trip (clock (base pw)) (v_failures v) v) = (v, false, v_state v)) as Hsp
      by (unfold spec_trip; by rewrite Epin, Ecl).
    rewrite Hsp in *. cbn [fst snd negb] in *. eexists _, _. split; [done|].
    apply evaluated_none; [|done]. intros k. cbn [base set_base].
    destruct (decide (k = name)) as [->|Hk]; [by rewrite (changes_eq _ _ _ _ Hct)|].
    rewrite (changes_ne _ _ _ _ _ Hct) by done. apply Hsame.
Qed.
End rule.

(** Run on its own, with the shipped in-memory tracker, the evaluation of a
    cascade opens a circuit, says so and raises its backoff level by one exactly
    when the 429s and their rate in the window reach the configured thresholds,
    the circuit is CLOSED, no operator pins it, the process is not observe-only
    and no freeze is in force; otherwise it returns None and no row changes. *)
Theorem cascade_follows_rule {R X} `{RepositoryLaws R} st (l2 : l2_backend X) name (pw : pworld R X) :
  r_ok (repo (base pw)) → enabled (config (base pw)) = true → local_only st pw →
  let c := effective (base pw) name in
  let wd := rate_limit_cascade_window_seconds c in
  let n := recent_429s st pw name wd in
  let total := recent_requests st pw name wd in
  let opens := cascade_opens (clock (base pw)) c (is_lockdown (emergency (base pw))) (observe_only pw)
                 n total (vw (repo (base pw)) name) in
  ∃ pw' res, run (evaluate_rate_limit_cascade st l2 name) pw = (pw', inr res) ∧
    evaluated pw pw' name opens res n total wd.
Proof.
  intros Hok Hen Hl c wd n total opens.
  unfold evaluate_rate_limit_cascade, is_enabled, get_rate_limit_count, get_request_count.
  rewrite run_ebind, run_lift_ask, Hen. cbn [negb].
  rewrite run_ebind, run_lift, run_config. cbn [fst snd]. fold c wd.
  destruct (after_config_same (base pw) name) as (E1 & E2 & _ & E4 & _).
  set (pw1 := set_base pw (after_config (base pw) name)).
  assert (Hl1 : local_only st pw1) by (by destruct Hl).
  rewrite run_ebind, run_prefer_local, run_tracking by done. cbn [fst snd].
  rewrite run_ebind, run_prefer_local, run_tracking by done. cbn [fst snd base ht_memory tracker].
  change (clock (base pw1)) with (clock (after_config (base pw) name)).
  change (tracker pw1) with (tracker pw). rewrite E2, counters_count.
  change (mem_get_rate_limit_count st (clock (base pw)) (ht_memory (tracker pw)) name wd).2 with n.
  change (mem_get_request_count st (clock (base pw)) (ht_memory (tracker pw)) name wd).2 with total.
  match goal with |- context [run _ ?w] => set (pw2 := w) end.
  assert (Hlv : level pw2 name = level pw name).
  { unfold level, pw2. cbn [tracker ht_memory].
    destruct (count_keeps_levels st (mem_get_rate_limit_count st (clock (base pw))
      (ht_memory (tracker pw)) name wd).1 (clock (base pw)) name wd) as [_ ->].
    by destruct (count_keeps_levels st (ht_memory (tracker pw)) (clock (base pw)) name wd) as [-> _]. }
  destruct (cascade_detected c n total) eqn:Edet.
  - destruct (run_cascade_trip st l2 name c n total pw2) as (pw' & res & Hrun & Hr & Hv & Hlev).
    { unfold pw2, pw1. cbn [base set_base]. by rewrite E1. }
    { by destruct Hl. }
    exists pw', res. split; [exact Hrun|]. unfold evaluated, opens, cascade_opens. rewrite Edet. cbn [andb].
    unfold pw2, pw1 in Hr, Hv, Hlev. cbn [base set_base observe_only] in Hr, Hv, Hlev.
    rewrite E1, E2, E4 in *. rewrite <-Hlv. split_and!; [exact Hr|exact Hv|exact Hlev].
  - exists pw2, None. split; [done|]. unfold opens, cascade_opens. rewrite Edet. cbn [andb].
    split_and!; [done| |rewrite Hlv; lia]. intros k. unfold pw2, pw1. cbn [base set_base andb]. by rewrite E1.
Qed.

(** ** Witnesses *)

(** No shared store. *)
Definition no_l2 : l2_backend unit :=
  L2Backend _ (λ x, (x, false)) (λ _ x, (x, false)) (λ _ x, (x, false)) (λ _ _ x, (x, None))
    (λ _ _ x, (x, None)) (λ _ x, (x, None)) (λ _ x, (x, None)) (λ _ x, (x, false)) (λ _ x, (x, false)).

(** A process that made 20 requests to a service and got 12 times 429. *)
Definition stormy (w : world InMemoryCircuitBreakerStateRepository) :
    pworld InMemoryCircuitBreakerStateRepository unit :=
  let m := Nat.iter 20 (λ m, mem_record_request shipped_settings (clock w) m "db") (new_memory_tracker None) in
  let m := Nat.iter 12 (λ m, mem_record_rate_limit shipped_settings (clock w) m "db") m in
  PWorld w (HybridTracker m false 0) () false.

Lemma cascade_follows_rule_witness :
  ∃ pw' res,
    run (evaluate_rate_limit_cascade shipped_settings no_l2 "db") (stormy (boot default_config 1000)) =
      (pw', inr res) ∧
    res = Some (succeeded "db" "closed" "open" "Rate limit cascade detected (12/20 = 60.0% in 60s)" None) ∧
    v_state (vw (repo (base pw')) "db") = "open" ∧ level pw' "db" = 1.
Proof.
  destruct (cascade_follows_rule shipped_settings no_l2 "db" (stormy (boot default_config 1000)))
    as (pw' & res & Hrun & Hres & Hv & Hl).
  - apply (boot_ok default_config 1000).
  - reflexivity.
  - split; reflexivity.
  - exists pw', res. split; [exact Hrun|]. split; [|split].
    + rewrite Hres. vm_compute. reflexivity.
    + rewrite (Hv "db"). vm_compute. reflexivity.
    + rewrite Hl. vm_compute. reflexivity.
Defined.

Lemma protection_announced_witness :
  let ops := [PService (OpFailure "db" []); PEvaluated "db"; PRateLimited "db"] in
  ∃ d ts pw', exec (poutside (outside_with true)) (λ pw pw', transitions "db" CLOSED OPEN (base pw) (base pw'))
      (pbody shipped_settings no_l2 <$> ops, stormy (boot default_config 1000)) d (ts, pw') ∧
    d = events_taken "db" CLOSED OPEN (base pw') ∧ v_state (vw (repo (base pw')) "db") = "open".
Proof.
  cbv zeta. set (ops := [_; _; _]).
  destruct (exec_run_all (poutside (outside_with true))
    (λ pw pw', transitions "db" CLOSED OPEN (base pw) (base pw'))
    (pbody shipped_settings no_l2 <$> ops) (stormy (boot default_config 1000))) as (d & ts & He & Hf).
  assert (v_state (vw (repo (base (run_all (pbody shipped_settings no_l2 <$> ops)
    (stormy (boot default_config 1000))))) "db") = "open") as Hst by (vm_compute; reflexivity).
  revert He Hst. generalize (run_all (pbody shipped_settings no_l2 <$> ops) (stormy (boot default_config 1000))).
  intros pw' He Hst. exists d, ts, pw'. split; [exact He|split; [|exact Hst]].
  edestruct (protection_announced shipped_settings no_l2 "db" CLOSED OPEN true ops
    (stormy (boot default_config 1000))) as [[Hd Hup] _];
    [discriminate|left; discriminate|apply (boot_ok default_config 1000)|reflexivity|exact He|exact Hf|].
  rewrite Hd, (Hup eq_refl). unfold events_taken at 2. simpl. lia.
Defined.

Lemma protection_yields_to_block_witness :
  let ops := [PEvaluated "db"; PRateLimited "db"; PService OpSweep] in
  ∃ d ts pw', exec (poutside (before_expiry (vw (repo blocked_world) "db"))) (λ _ _, 0)
      (pbody shipped_settings no_l2 <$> ops, stormy blocked_world) d (ts, pw') ∧
    vw (repo (base pw')) "db" = vw (repo blocked_world) "db".
Proof.
  cbv zeta. set (ops := [_; _; _]).
  destruct (exec_run_all (poutside (before_expiry (vw (repo blocked_world) "db"))) (λ _ _, 0)
    (pbody shipped_settings no_l2 <$> ops) (stormy blocked_world)) as (d & ts & He & _).
  revert He. generalize (run_all (pbody shipped_settings no_l2 <$> ops) (stormy blocked_world)).
  intros pw' He. exists d, ts, pw'. split; [exact He|].
  eapply (protection_yields_to_block shipped_settings no_l2 "db" ops (stormy blocked_world));
    [repeat constructor|apply blocked_world_ok|reflexivity|reflexivity|exact He].
Defined.

(** ** Suggested delays *)

(** The delay suggested at any backoff level is at least a tenth of a second and,
    whatever the dials, at most that or the configured maximum. *)
Theorem adaptive_delay_bounded c n u :
  (0 <= self_ddos_backoff_max_seconds c)%Q → (0 <= self_ddos_backoff_jitter_factor c)%Q → draw u →
  (MIN_BACKOFF_SECONDS <= adaptive_delay c n u <= Qmax MIN_BACKOFF_SECONDS (self_ddos_backoff_max_seconds c))%Q.
Proof.
  intros Hm Hj Hu. unfold adaptive_delay, exponential_calculate. cbn [ex_max_delay ex_jitter ex_jitter_factor].
  match goal with |- context [apply_capped_jitter ?r ?m ?b ?j ?d] =>
    destruct (capped_jitter_bounds r m b j d Hm Hj Hu) end.
  split; [apply Q.le_max_l|]. by apply Q.max_le_compat_l.
Qed.

Lemma adaptive_delay_bounded_witness :
  (MIN_BACKOFF_SECONDS <= adaptive_delay default_config 3 1 <= 60)%Q.
Proof. apply (adaptive_delay_bounded default_config 3 1); [| |split]; by vm_compute. Defined.
