(* ===== verification/MemoryCache.v ===== *)
(** The in-memory cache ([adapters/cache/memory_adapter.py]): a dictionary of
    entries that expire.

    Each method holds the adapter's lock and is one function on its store; the
    clock reading of the critical section is [now].  A cached value is a number,
    string or object ([CAtom]), a dictionary or a list.  Times are microseconds.

    Counters, list reads, searches and the locks are in [CacheLock]. *)
From S2P Require Import Prelude Interleave.

Inductive cvalue :=
| CAtom (v : pyval)
| CDict (d : dict string pyval)
| CList (l : list pyval).

(** [CacheEntry] *)
Record cache_entry := CacheEntry {
  ce_value : cvalue;
  ce_expires_at : option Z;
}.

Definition is_expired (e : cache_entry) (now : Z) : bool :=
  match ce_expires_at e with None => false | Some t => t <? now end.

Record memory_cache := MemoryCache {
  mc_key_prefix : string;
  mc_store : dict string cache_entry;
}.

Definition make_key (c : memory_cache) (key : string) : string := mc_key_prefix c +:+ key.

Definition set_store (c : memory_cache) (s : dict string cache_entry) : memory_cache :=
  MemoryCache (mc_key_prefix c) s.

Definition lookup_entry (c : memory_cache) (key : string) : option cache_entry :=
  dget (mc_store c) (make_key c key).

(** [time.time() + ttl.total_seconds()], with no [ttl] never *)
Definition expiry (now : Z) (ttl : option Z) : option Z := (λ t, now + t) <$> ttl.

Definition put_entry (c : memory_cache) (now : Z) (key : string) (v : cvalue) (ttl : option Z) : memory_cache :=
  set_store c (dset (mc_store c) (make_key c key) (CacheEntry v (expiry now ttl))).

Definition drop_entry (c : memory_cache) (key : string) : memory_cache :=
  set_store c (ddel (mc_store c) (make_key c key)).

(** An entry that is there and has not expired. *)
Definition live_entry (c : memory_cache) (now : Z) (key : string) : option cache_entry :=
  match lookup_entry c key with
  | Some e => if is_expired e now then None else Some e
  | None => None
  end.

Definition get (now : Z) (c : memory_cache) (key : string) : memory_cache * option cvalue :=
  match lookup_entry c key with
  | None => (c, None)
  | Some e => if is_expired e now then (drop_entry c key, None) else (c, Some (ce_value e))
  end.

Definition set (now : Z) (c : memory_cache) (key : string) (v : cvalue) (ttl : option Z) : memory_cache * bool :=
  (put_entry c now key v ttl, true).

Definition delete (c : memory_cache) (key : string) : memory_cache * bool :=
  match lookup_entry c key with None => (c, false) | Some _ => (drop_entry c key, true) end.

Definition exists_ (now : Z) (c : memory_cache) (key : string) : memory_cache * bool :=
  match lookup_entry c key with
  | None => (c, false)
  | Some e => if is_expired e now then (drop_entry c key, false) else (c, true)
  end.

Definition expire (now : Z) (c : memory_cache) (key : string) (ttl : Z) : memory_cache * bool :=
  match live_entry c now key with
  | None => (c, false)
  | Some e => (set_store c (dset (mc_store c) (make_key c key) (CacheEntry (ce_value e) (Some (now + ttl)))), true)
  end.

(** [ttl]: -2 without an entry, [None] without expiry, else whole seconds left. *)
Definition ttl (now : Z) (c : memory_cache) (key : string) : memory_cache * option Z :=
  match lookup_entry c key with
  | None => (c, Some (-2))
  | Some e =>
      if is_expired e now then (drop_entry c key, Some (-2))
      else match ce_expires_at e with
           | None => (c, None)
           | Some t => (c, Some (Z.max 0 ((t - now) / US_PER_SECOND)))
           end
  end.

Definition setnx (now : Z) (c : memory_cache) (key : string) (v : cvalue) (ttl : option Z) : memory_cache * bool :=
  match live_entry c now key with
  | Some _ => (c, false)
  | None => (put_entry c now key v ttl, true)
  end.

(** [d.get(field)] *)
Definition field (d : dict string pyval) (name : string) : pyval := default VNone (dget d name).

Definition cas_dict_field (now : Z) (c : memory_cache) (key name : string) (expected : pyval)
    (new_value : dict string pyval) (ttl : option Z) : memory_cache * bool :=
  match live_entry c now key with
  | Some (CacheEntry (CDict d) _) =>
      if bool_decide (field d name = expected) then (put_entry c now key (CDict new_value) ttl, true)
      else (c, false)
  | _ => (c, false)
  end.

(** [d.get(name, 0)] where a number is needed; [None]: not a number. *)
Definition number (d : dict string pyval) (name : string) : option Z :=
  match dget d name with
  | None => Some 0
  | Some (VInt z) => Some z
  | Some (VBool b) => Some (Z.b2z b)
  | Some _ => None
  end.

(** [cas_takeover]; comparing a [started_at] that is not a number raises. *)
Definition cas_takeover (now : Z) (c : memory_cache) (key : string) (new_record : dict string pyval)
    (stale_before : Z) (ttl : option Z) : memory_cache * (exn + bool) :=
  match live_entry c now key with
  | Some (CacheEntry (CDict d) _) =>
      let status := field d "status" in
      let takeable :=
        if bool_decide (status = VStr "failed") then inr true
        else if bool_decide (status = VStr "executing") then
          match number d "started_at" with
          | Some t => inr (t <? stale_before)
          | None => inl TypeError
          end
        else inr false in
      match takeable with
      | inl e => (c, inl e)
      | inr true => (put_entry c now key (CDict new_record) ttl, inr true)
      | inr false => (c, inr false)
      end
  | _ => (c, inr false)
  end.

Definition mget (now : Z) (c : memory_cache) (keys : list string) : dict string cvalue :=
  foldl (λ r key, match live_entry c now key with Some e => dset r key (ce_value e) | None => r end) [] keys.

Definition mset (now : Z) (c : memory_cache) (mapping : dict string cvalue) (ttl : option Z) : memory_cache * bool :=
  (foldl (λ c kv, put_entry c now kv.1 kv.2 ttl) c mapping, true).

Definition mdelete (c : memory_cache) (keys : list string) : memory_cache * Z :=
  foldl (λ '(c, n) key, let '(c, b) := delete c key in (c, n + Z.b2z b)) (c, 0) keys.

Definition push_limit (now : Z) (c : memory_cache) (key : string) (v : pyval) (max_len : Z) (ttl : option Z) :
    memory_cache * Z :=
  let lst := match live_entry c now key with Some (CacheEntry (CList l) _) => l | _ => [] end in
  let lst := lst ++ [v] in
  let kept := if max_len <? Zlength lst then py_last max_len lst else lst in
  (put_entry c now key (CList kept) ttl, Zlength lst).

Definition cleanup_expired (now : Z) (c : memory_cache) : memory_cache * Z :=
  let kept := List.filter (λ kv, negb (is_expired kv.2 now)) (mc_store c) in
  (set_store c kept, Zlength (mc_store c) - Zlength kept).

Definition flush_all (c : memory_cache) : memory_cache :=
  set_store c (List.filter (λ kv, negb (String.prefix (mc_key_prefix c) kv.1)) (mc_store c)).

Definition clear_all (c : memory_cache) : memory_cache := set_store c [].

(** ** Lookups after writes *)
Lemma make_key_inj c k k' : make_key c k = make_key c k' → k = k'.
Proof. unfold make_key. apply (inj (String.append (mc_key_prefix c))). Qed.

Lemma lookup_put c now key v t key' :
  lookup_entry (put_entry c now key v t) key' =
  if decide (key' = key) then Some (CacheEntry v (expiry now t)) else lookup_entry c key'.
Proof.
  unfold lookup_entry, put_entry, set_store. cbn [mc_store mc_key_prefix]. rewrite dget_dset. unfold make_key at 1 2. cbn.
  destruct (decide (key' = key)) as [->|Hne]; [by rewrite decide_True|].
  rewrite decide_False; [done|]. intros Heq. by apply Hne, (inj (String.append (mc_key_prefix c))).
Qed.

Lemma lookup_drop c key key' :
  lookup_entry (drop_entry c key) key' = if decide (key' = key) then None else lookup_entry c key'.
Proof.
  unfold lookup_entry, drop_entry, set_store. cbn [mc_store mc_key_prefix]. rewrite dget_ddel. unfold make_key at 1 2. cbn.
  destruct (decide (key' = key)) as [->|Hne]; [by rewrite decide_True|].
  rewrite decide_False; [done|]. intros Heq. by apply Hne, (inj (String.append (mc_key_prefix c))).
Qed.

Lemma live_entry_some c now key e :
  lookup_entry c key = Some e → is_expired e now = false → live_entry c now key = Some e.
Proof. intros He Hx. unfold live_entry. by rewrite He, Hx. Qed.

(** Reading only removes what had expired: nobody can tell later. *)
Lemma lookup_get c now key key' e :
  is_expired e now = false → lookup_entry c key' = Some e → lookup_entry (get now c key).1 key' = Some e.
Proof.
  intros Hx He. unfold get. destruct (lookup_entry c key) as [e'|] eqn:E; [|done].
  destruct (is_expired e' now) eqn:Ex; [|done]. cbn [fst]. rewrite lookup_drop.
  case_decide; [|done]. subst. congruence.
Qed.
