(* ===== verification/IdempotencyGate.v ===== *)
(** The idempotency gate ([core/idempotency_gate.py]) over the in-memory cache.

    A guarded call asks the gate, runs its function on CONTINUE and marks its
    claim completed or failed.  Every cache call is one atomic action; other
    calls and the clock may move between any two of them.  The asynchronous gate
    makes the same calls in the same order.

    The world also records, for the theorems only, which claims are held: a claim
    is held from the cache call that wrote its record to the call that marks it,
    that is while its function runs.  Cache and gate read one clock; a fresh
    [uuid4] is the next number of a supply.  Metrics and logging are not modelled,
    except that decisions are recorded. *)
From stdpp Require Import pretty.
From S2P Require Import Prelude Interleave MemoryCache.

Inductive IdempotencyDecision := CONTINUE | SKIP | ABORT.

(** [IdempotencyCheckResult] *)
Record check_result := CheckResult {
  cr_decision : IdempotencyDecision;
  cr_cached_result : pyval;
  cr_retry_count : pyval;
  cr_claim_id : option string;
}.

Definition aborted : check_result := CheckResult ABORT VNone (VInt 0) None.

(** A claim whose function may be running. *)
Record hold := Hold { h_key : string; h_started : Z }.

Record gworld := GWorld {
  gw_cache : memory_cache;
  gw_clock : Z;
  gw_next_uuid : nat;
  gw_held : dict string hold;
  gw_decisions : list (string * check_result);
}.

Section gate.
  (** [execution_ttl_seconds] of the gate, the memory window in force and the
      clock-skew tolerance of the settings, in microseconds. *)
  Context (execution_ttl memory_ttl tolerance : Z).
Notation method A := (eprog gworld A).

(** ** Atomic actions *)

Definition time : method Z := atomically (λ w, (w, gw_clock w)).

Definition new_claim_id : method string :=
  atomically (λ w, (GWorld (gw_cache w) (gw_clock w) (S (gw_next_uuid w)) (gw_held w) (gw_decisions w),
                    pretty (gw_next_uuid w))).

Definition caching {A} (f : Z → memory_cache → memory_cache * A) : method A :=
  atomically (λ w, let '(c, a) := f (gw_clock w) (gw_cache w) in
                   (GWorld c (gw_clock w) (gw_next_uuid w) (gw_held w) (gw_decisions w), a)).

(** A cache call that writes a claim if it returns [True]. *)
Definition claiming (claim key : string) (started : Z) (f : Z → memory_cache → memory_cache * (exn + bool)) :
    method bool :=
  r <- atomically (λ w,
    let '(c, r) := f (gw_clock w) (gw_cache w) in
    (GWorld c (gw_clock w) (gw_next_uuid w)
       (match r with inr true => dset (gw_held w) claim (Hold key started) | _ => gw_held w end)
       (gw_decisions w), r));;
  match r with inl e => raise e | inr b => ret b end.

(** The cache call that marks a claim: its function has returned. *)
Definition marking {A} (claim : option string) (f : Z → memory_cache → memory_cache * A) : method A :=
  atomically (λ w,
    let '(c, a) := f (gw_clock w) (gw_cache w) in
    (GWorld c (gw_clock w) (gw_next_uuid w)
       (match claim with Some c => ddel (gw_held w) c | None => gw_held w end) (gw_decisions w), a)).

(** ** The gate *)

(** [ttl or default]: a zero time span is falsy. *)
Definition or_default (ttl : option Z) (d : Z) : Z :=
  match ttl with Some t => if t =? 0 then d else t | None => d end.

Definition executing_record (started retry_count : Z) (claim : string) : dict string pyval :=
  [("status", VStr "executing"); ("started_at", VInt started); ("retry_count", VInt retry_count);
   ("claim_id", VStr claim)].

Definition stale_before (now effective_ttl : Z) : Z := now - effective_ttl - tolerance.

Definition acquire (claim key : string) (started ttl : Z) : method bool :=
  claiming claim key started (λ now c,
    let '(c, b) := setnx now c key (CDict (executing_record started 0 claim)) (Some ttl) in (c, inr b)).

(** The takeover of a failed or stale record; the retry count is one more than
    the one read, and a count that is not a number raises. *)
Definition take_over (claim key : string) (started ttl stale : Z) (d : dict string pyval) : method check_result :=
  match number d "retry_count" with
  | None => raise TypeError
  | Some n =>
      won <- claiming claim key started (λ now c,
        cas_takeover now c key (executing_record started (n + 1) claim) stale (Some ttl));;
      if won : bool then ret (CheckResult CONTINUE VNone (VInt (n + 1)) (Some claim)) else ret aborted
  end.

(** [_check_and_acquire] *)
Definition check_and_acquire_ (key : string) (ttl : option Z) : method check_result :=
  let ttl := or_default ttl execution_ttl in
  claim <- new_claim_id;;
  started <- time;;
  let granted := CheckResult CONTINUE VNone (VInt 0) (Some claim) in
  acquired <- acquire claim key started ttl;;
  if acquired : bool then ret granted
  else
    existing <- caching (λ now c, get now c key);;
    match existing with
    | None =>
        retry_acquired <- acquire claim key started ttl;;
        if retry_acquired : bool then ret granted else ret aborted
    | Some (CDict d) =>
        let status := default (VStr "") (dget d "status") in
        if bool_decide (status = VStr "completed") then
          ret (CheckResult SKIP (field d "result") (default (VInt 0) (dget d "retry_count")) None)
        else if bool_decide (status = VStr "failed") then
          now <- time;;
          take_over claim key started ttl (stale_before now ttl) d
        else if bool_decide (status = VStr "executing") then
          now <- time;;
          match number d "started_at" with
          | None => raise TypeError
          | Some t =>
              if t <? stale_before now ttl
              then take_over claim key started ttl (stale_before now ttl) d
              else ret aborted
          end
        else ret aborted
    | Some _ => ret aborted
    end.

Definition record_gate_decision (key : string) (r : check_result) : method () :=
  atomically (λ w, (GWorld (gw_cache w) (gw_clock w) (gw_next_uuid w) (gw_held w) (gw_decisions w ++ [(key, r)]), ())).

Definition check_and_acquire (key : string) (ttl : option Z) : method check_result :=
  r <- check_and_acquire_ key ttl;;
  _ <- record_gate_decision key r;;
  ret r.

(** [_mark_guard] *)
Definition mark_guard (claim : option string) : string * pyval :=
  match claim with Some c => ("claim_id", VStr c) | None => ("status", VStr "executing") end.

(** [result or {}]: every falsy result is stored as the empty dict; other objects
    are truthy, but for the empty dict itself. *)
Definition EMPTY_DICT : pyval := VOther 0.
Definition falsy (v : pyval) : bool :=
  match v with
  | VNone => true
  | VBool b => negb b
  | VInt z => z =? 0
  | VStr s => bool_decide (s = "")
  | VOther _ => false
  end.
Definition or_empty (v : pyval) : pyval := if falsy v then EMPTY_DICT else v.

Definition completed_record (completed_at : Z) (result retry_count : pyval) : dict string pyval :=
  [("status", VStr "completed"); ("completed_at", VInt completed_at); ("result", or_empty result);
   ("retry_count", retry_count)].
Definition failed_record (failed_at : Z) (error : string) (retry_count : pyval) : dict string pyval :=
  [("status", VStr "failed"); ("failed_at", VInt failed_at); ("error", VStr error); ("retry_count", retry_count)].

Definition mark_completed (key : string) (result retry_count : pyval) (ttl : option Z) (claim : option string) :
    method bool :=
  now <- time;;
  marking claim (λ t c, cas_dict_field t c key (mark_guard claim).1 (mark_guard claim).2
    (completed_record now result retry_count) (Some (or_default ttl memory_ttl))).

Definition mark_failed (key error : string) (retry_count : pyval) (ttl : option Z) (claim : option string) :
    method bool :=
  now <- time;;
  marking claim (λ t c, cas_dict_field t c key (mark_guard claim).1 (mark_guard claim).2
    (failed_record now error retry_count) (Some (or_default ttl memory_ttl))).

Definition release (key : string) : method () := caching (λ _ c, ((delete c key).1, ())).

(** ** Guarded calls *)

(** What the function of a call does: return a result, raise, or never come back
    to the gate (its process dies). *)
Inductive outcome := Returns (result : pyval) | Raises (error : string) | Dies.

Definition guarded (key : string) (o : outcome) : method () :=
  r <- check_and_acquire key None;;
  match cr_decision r, o with
  | CONTINUE, Returns v => _ <- mark_completed key v (cr_retry_count r) None (cr_claim_id r);; ret ()
  | CONTINUE, Raises e => _ <- mark_failed key e (cr_retry_count r) None (cr_claim_id r);; ret ()
  | _, _ => ret ()
  end.

(** The clock runs forward. *)
Definition gate_outside (w w' : gworld) : Prop :=
  gw_clock w <= gw_clock w' ∧
  w' = GWorld (gw_cache w) (gw_clock w') (gw_next_uuid w) (gw_held w) (gw_decisions w).

Definition clock_forward (w w' : gworld) : Prop := gw_clock w <= gw_clock w'.

(** A claim within its execution window, counted from its start. *)
Definition within_window (w : gworld) (h : hold) : Prop := gw_clock w <= h_started h + execution_ttl.
End gate.

(** ** Claims are exclusive *)
Section exclusive.
  Context (execution_ttl memory_ttl tolerance : Z) (Htol : 0 <= tolerance).
Notation T := execution_ttl.

(** The record of a held claim is in the cache, and stays as long as its window. *)
Definition claim_record (w : gworld) (c : string) (h : hold) : Prop :=
  ∃ rc e, lookup_entry (gw_cache w) (h_key h) =
      Some (CacheEntry (CDict (executing_record (h_started h) rc c)) (Some e)) ∧
    h_started h + T <= e.

Definition claims_ok (w : gworld) : Prop :=
  ∀ c h, dget (gw_held w) c = Some h → within_window T w h → claim_record w c h.

Notation rgc p w Q := (rg claims_ok clock_forward p w Q).

Lemma live_claim w c h :
  claims_ok w → dget (gw_held w) c = Some h → within_window T w h →
  ∃ rc e, live_entry (gw_cache w) (gw_clock w) (h_key h) =
      Some (CacheEntry (CDict (executing_record (h_started h) rc c)) (Some e)) ∧
    lookup_entry (gw_cache w) (h_key h) =
      Some (CacheEntry (CDict (executing_record (h_started h) rc c)) (Some e)) ∧ gw_clock w <= e.
Proof.
  intros Hok Hc Hw. destruct (Hok c h Hc Hw) as (rc & e & He & Hle). unfold within_window in Hw.
  exists rc, e. split_and!; [|done|lia]. apply live_entry_some; [done|]. apply Z.ltb_ge. cbn. lia.
Qed.

(** Whatever a call does to the cache, the records of claims in their window
    that it leaves alone keep the invariant. *)
Lemma claims_keep w cache next held ds :
  claims_ok w →
  (∀ c h, dget held c = Some h → dget (gw_held w) c = Some h) →
  (∀ key e, lookup_entry (gw_cache w) key = Some e → is_expired e (gw_clock w) = false →
     (∃ c h, dget held c = Some h ∧ h_key h = key ∧ within_window T w h) →
     lookup_entry cache key = Some e) →
  claims_ok (GWorld cache (gw_clock w) next held ds).
Proof.
  intros Hok Hh Hk c h Hc Hw. cbn [gw_held] in Hc. pose proof (Hh c h Hc) as Hc'.
  destruct (live_claim w c h Hok Hc' Hw) as (rc & e & _ & He & Hle).
  destruct (Hok c h Hc' Hw) as (rc' & e' & He' & Hle'). rewrite He in He'. injection He' as <- <-.
  exists rc, e. split; [|done]. cbn [gw_cache]. apply Hk; [done| |by eauto]. apply Z.ltb_ge. cbn. lia.
Qed.

(** A claim written where no other claim is in its window. *)
Lemma claims_write w claim key started rc :
  claims_ok w → started <= gw_clock w →
  (∀ c h, dget (gw_held w) c = Some h → h_key h = key → ¬ within_window T w h) →
  claims_ok (GWorld (put_entry (gw_cache w) (gw_clock w) key (CDict (executing_record started rc claim)) (Some T))
    (gw_clock w) (gw_next_uuid w) (dset (gw_held w) claim (Hold key started)) (gw_decisions w)).
Proof.
  intros Hok Hs Hfree c h. cbn [gw_held]. rewrite dget_dset. case_decide as Hc.
  - intros [= <-] Hw. exists rc, (gw_clock w + T). cbn [gw_cache h_key h_started].
    rewrite lookup_put, decide_True by done. subst c. split; [done|]. lia.
  - intros Hh Hw. destruct (decide (h_key h = key)) as [Hk|Hk]; [by destruct (Hfree c h Hh Hk)|].
    destruct (Hok c h Hh Hw) as (rc' & e & He & Hle). exists rc', e. cbn [gw_cache].
    by rewrite lookup_put, decide_False.
Qed.

Lemma rgc_time w0 (Q : gworld → exn + Z → Prop) :
  (∀ w, clock_forward w0 w → Q w (inr (gw_clock w))) → rgc time w0 Q.
Proof. intros HQ. apply rg_atomically. intros w Hw Hr. split_and!; [done|apply Z.le_refl|]. by apply HQ. Qed.

Lemma rgc_new_claim_id w0 (Q : gworld → exn + string → Prop) :
  (∀ w a, clock_forward w0 w → Q w (inr a)) → rgc new_claim_id w0 Q.
Proof.
  intros HQ. apply rg_atomically. intros w Hw Hr. split_and!; [|apply Z.le_refl|by apply HQ].
  by apply (claims_keep w).
Qed.

Lemma rgc_decision key r w0 (Q : gworld → exn + unit → Prop) :
  (∀ w, clock_forward w0 w → Q w (inr ())) → rgc (record_gate_decision key r) w0 Q.
Proof.
  intros HQ. apply rg_atomically. intros w Hw Hr. split_and!; [|apply Z.le_refl|by apply HQ].
  by apply (claims_keep w).
Qed.

Lemma rgc_get key w0 (Q : gworld → exn + option cvalue → Prop) :
  (∀ w a, clock_forward w0 w → Q w (inr a)) → rgc (caching (λ now c, get now c key)) w0 Q.
Proof.
  intros HQ. apply rg_atomically. intros w Hw Hr.
  pose proof (claims_keep w (get (gw_clock w) (gw_cache w) key).1 (gw_next_uuid w) (gw_held w) (gw_decisions w)) as Hk.
  destruct (get (gw_clock w) (gw_cache w) key) as [c a] eqn:E. cbn [fst] in *.
  split_and!; [|apply Z.le_refl|by apply HQ]. apply Hk; [done..|].
  intros k e He Hx _. replace c with (get (gw_clock w) (gw_cache w) key).1 by (by rewrite E). by apply lookup_get.
Qed.

Lemma rgc_acquire claim key started w0 (Q : gworld → exn + bool → Prop) :
  started <= gw_clock w0 → (∀ w b, clock_forward w0 w → Q w (inr b)) →
  rgc (acquire claim key started T) w0 Q.
Proof.
  intros Hs HQ. unfold acquire, claiming. apply rg_ebind, rg_atomically. intros w Hw Hr.
  unfold clock_forward in *. unfold setnx. destruct (live_entry (gw_cache w) (gw_clock w) key) as [e|] eqn:E.
  - cbn. split_and!; [|lia|by apply HQ]. by apply (claims_keep w).
  - cbn [fst snd]. split_and!; [|cbn; lia|by apply HQ]. apply claims_write; [done|lia|].
    intros c h Hc Hk Hwin. destruct (live_claim w c h Hw Hc Hwin) as (rc & e & He & _). congruence.
Qed.

(** A granted call knows its claim. *)
Definition owns (r : exn + check_result) : Prop :=
  match r with inr r => cr_decision r = CONTINUE → is_Some (cr_claim_id r) | inl _ => True end.

Lemma rgc_take_over claim key started stale d w0 (Q : gworld → exn + check_result → Prop) :
  started <= gw_clock w0 → stale <= gw_clock w0 - T → (∀ w r, owns r → Q w r) →
  rgc (take_over claim key started T stale d) w0 Q.
Proof.
  intros Hs Hst HQ. unfold take_over. destruct (number d "retry_count") as [n|]; [|by apply HQ].
  unfold claiming. apply rg_ebind, rg_ebind, rg_atomically. intros w Hw Hr. unfold clock_forward in *.
  assert (Hnone : ∀ r : exn + bool, r ≠ inr true →
    claims_ok (GWorld (gw_cache w) (gw_clock w) (gw_next_uuid w)
      (match r with inr true => dset (gw_held w) claim (Hold key started) | _ => gw_held w end)
      (gw_decisions w))).
  { intros [e|[]] Hne; [by apply (claims_keep w)|done|by apply (claims_keep w)]. }
  unfold cas_takeover. destruct (live_entry (gw_cache w) (gw_clock w) key) as [[[v|dd|l] x]|] eqn:E;
    try (split_and!; [by apply (Hnone (inr false))|cbn; lia|apply HQ; cbn; first [done|by eauto]]).
  cbv zeta. match goal with |- context [match ?t with inl _ => _ | inr _ => _ end] => destruct t as [e|[]] eqn:Et end;
    [split_and!; [by apply (Hnone (inl e))|cbn; lia|apply HQ; cbn; first [done|by eauto]]| |
     split_and!; [by apply (Hnone (inr false))|cbn; lia|apply HQ; cbn; first [done|by eauto]]].
  cbn [fst snd]. split_and!; [|cbn; lia|apply HQ; cbn; first [done|by eauto]]. apply claims_write; [done|lia|].
  intros c h Hc Hk Hwin. destruct (live_claim w c h Hw Hc Hwin) as (rc & e & He & _).
  rewrite Hk, E in He. injection He as -> ->. cbn in Et. injection Et as Et. apply Z.ltb_lt in Et.
  unfold within_window in Hwin. lia.
Qed.

Lemma rgc_mark key claim record ttl w0 (Q : gworld → exn + bool → Prop) :
  (∀ w r, Q w r) →
  rgc (marking (Some claim) (λ t c, cas_dict_field t c key "claim_id" (VStr claim) record ttl)) w0 Q.
Proof.
  intros HQ. apply rg_atomically. intros w Hw Hr. unfold cas_dict_field.
  assert (Hheld : ∀ c h, dget (ddel (gw_held w) claim) c = Some h → c ≠ claim ∧ dget (gw_held w) c = Some h).
  { intros c h. rewrite dget_ddel. case_decide; [done|]. by intros ?. }
  assert (Hstay : claims_ok (GWorld (gw_cache w) (gw_clock w) (gw_next_uuid w) (ddel (gw_held w) claim) (gw_decisions w))).
  { apply (claims_keep w); [done| |done]. intros c h Hc. by apply Hheld. }
  destruct (live_entry (gw_cache w) (gw_clock w) key) as [[[v|d|l] x]|] eqn:E;
    try (split_and!; [done|apply Z.le_refl|apply HQ]).
  case_bool_decide as Hf; [|split_and!; [done|apply Z.le_refl|apply HQ]].
  cbn [fst snd]. split_and!; [|apply Z.le_refl|apply HQ].
  intros c h Hc Hwin. destruct (Hheld c h Hc) as [Hne Hc'].
  destruct (Hw c h Hc' Hwin) as (rc & e & He & Hle). exists rc, e. split; [|done].
  cbn [gw_cache]. rewrite lookup_put. case_decide as Hk; [|done]. exfalso. apply Hne.
  destruct (live_claim w c h Hw Hc' Hwin) as (rc' & e' & He' & _). rewrite Hk, E in He'.
  injection He' as -> ->. cbn in Hf. by injection Hf.
Qed.

Lemma rgc_check key w0 : rgc (check_and_acquire_ T tolerance key None) w0 (λ _ r, owns r).
Proof.
  unfold check_and_acquire_. cbn [or_default]. cbv zeta.
  apply rg_ebind, rgc_new_claim_id. intros w1 claim _. apply rg_ebind, rgc_time. intros w2 H2.
  apply rg_ebind, rgc_acquire; [lia|]. intros w3 [] H3; [by cbn; eauto|]. unfold clock_forward in *.
  apply rg_ebind, rgc_get. intros w4 [[v|d|l]|] H4; unfold clock_forward in *; [by cbn| |by cbn|].
  - case_bool_decide; [by cbn|]. case_bool_decide.
    + apply rg_ebind, rgc_time. intros w5 H5. unfold clock_forward in *.
      apply rgc_take_over; [lia|unfold stale_before; lia|done].
    + case_bool_decide; [|by cbn]. apply rg_ebind, rgc_time. intros w5 H5. unfold clock_forward in *.
      destruct (number d "started_at") as [t|]; [|by cbn]. destruct (t <? _); [|by cbn].
      apply rgc_take_over; [lia|unfold stale_before; lia|done].
  - apply rg_ebind, rgc_acquire; [lia|]. intros w5 [] _; by cbn; eauto.
Qed.

Lemma rgc_guarded key o w0 : rgc (guarded T memory_ttl tolerance key o) w0 (λ _ _, True).
Proof.
  unfold guarded, check_and_acquire. apply rg_ebind, rg_ebind. eapply rg_mono; [apply rgc_check|].
  intros w1 [e|r] Hr; [done|]. apply rg_ebind, rgc_decision. intros w2 _. cbn [owns] in Hr.
  change (rgc (match cr_decision r, o with
    | CONTINUE, Returns v => _ <- mark_completed memory_ttl key v (cr_retry_count r) None (cr_claim_id r);; ret ()
    | CONTINUE, Raises e => _ <- mark_failed memory_ttl key e (cr_retry_count r) None (cr_claim_id r);; ret ()
    | _, _ => ret () end) w2 (λ _ _, True)).
  destruct (cr_decision r); [|done..]. destruct (Hr eq_refl) as [c ->]. destruct o as [v|e|]; [| |done].
  - unfold mark_completed. apply rg_ebind, rg_ebind, rgc_time. intros w3 _. cbn [mark_guard fst snd].
    apply rgc_mark. by intros w [e|b].
  - unfold mark_failed. apply rg_ebind, rg_ebind, rgc_time. intros w3 _. cbn [mark_guard fst snd].
    apply rgc_mark. by intros w [e'|b].
Qed.
End exclusive.

Lemma claims_outside T v v' : claims_ok T v → gate_outside v v' → claims_ok T v' ∧ clock_forward v v'.
Proof.
  intros Hv [Hle ->]. split; [|exact Hle]. intros c h Hc Hwin. cbn [gw_held] in Hc. apply (Hv c h Hc).
  unfold within_window in *. cbn [gw_clock] in *. lia.
Qed.

Lemma clock_forward_refl w : clock_forward w w.
Proof. apply Z.le_refl. Qed.

Lemma clock_forward_trans u v w : clock_forward u v → clock_forward v w → clock_forward u w.
Proof. apply Z.le_trans. Qed.

(** A process that starts: any cache, no claim held. *)
Definition idle (w : gworld) : Prop := gw_held w = [].

(** The calls of a pool. *)
Definition gbody (execution_ttl memory_ttl tolerance : Z) (call : string * outcome) : thread gworld :=
  spawn (guarded execution_ttl memory_ttl tolerance call.1 call.2).

(** C35: No key is executed twice at once: in every interleaving of guarded calls,
    whose functions return, raise or die at any time, under a clock that runs
    forward, two claims of one key that are both within their execution window
    are the same claim, and its record is in the cache. *)
Theorem claims_exclusive execution_ttl memory_ttl tolerance calls w ts w' c1 h1 c2 h2 :
  0 <= tolerance → idle w →
  rtc (step gate_outside) (gbody execution_ttl memory_ttl tolerance <$> calls, w) (ts, w') →
  dget (gw_held w') c1 = Some h1 → dget (gw_held w') c2 = Some h2 → h_key h1 = h_key h2 →
  within_window execution_ttl w' h1 → within_window execution_ttl w' h2 →
  c1 = c2 ∧ claim_record execution_ttl w' c1 h1.
Proof.
  intros Htol Hidle Hr H1 H2 Hk Hw1 Hw2.
  assert (Hok : claims_ok execution_ttl w').
  { apply (steps_safe (claims_ok execution_ttl) clock_forward gate_outside
      clock_forward_refl clock_forward_trans (claims_outside execution_ttl)
      (gbody execution_ttl memory_ttl tolerance <$> calls) w (ts, w')); [| |exact Hr].
    - intros c h. by rewrite Hidle.
    - apply Forall_fmap, Forall_true. intros [key o]. eapply rg_spawn. by apply rgc_guarded. }
  destruct (live_claim _ _ _ _ Hok H1 Hw1) as (rc1 & e1 & _ & E1 & _).
  destruct (live_claim _ _ _ _ Hok H2 Hw2) as (rc2 & e2 & _ & E2 & _).
  rewrite Hk, E2 in E1. injection E1 as _ _ -> _. split; [done|by apply Hok].
Qed.

(** ** A completed key is not executed again *)
Section final.
  Context (execution_ttl memory_ttl tolerance : Z).
  (** The completed record of [key] and when it expires; the decisions before. *)
  Context (key : string) (at_ : Z) (v rc : pyval) (e : Z) (old : list (string * check_result)).

Definition skipped : check_result := CheckResult SKIP (or_empty v) rc None.
Definition completed_entry : cache_entry := CacheEntry (CDict (completed_record at_ v rc)) (Some e).

(** Until it expires: it is there, nobody holds the key, every answer was SKIP. *)
Definition sealed (w : gworld) : Prop :=
  gw_clock w <= e →
  lookup_entry (gw_cache w) key = Some completed_entry ∧
  (∀ c h, dget (gw_held w) c = Some h → h_key h ≠ key) ∧
  ∃ new, gw_decisions w = old ++ new ∧ Forall (λ d, d.1 = key → d.2 = skipped) new.

Notation rgs p w Q := (rg sealed clock_forward p w Q).

Lemma sealed_live w :
  sealed w → gw_clock w <= e → live_entry (gw_cache w) (gw_clock w) key = Some completed_entry.
Proof. intros Hs Hle. apply live_entry_some; [by apply Hs|]. apply Z.ltb_ge. cbn. lia. Qed.

(** A change of the cache that leaves the record, with claims of other keys only. *)
Lemma sealed_keep w cache next held ds :
  sealed w →
  (gw_clock w <= e → lookup_entry (gw_cache w) key = Some completed_entry →
     lookup_entry cache key = Some completed_entry) →
  (gw_clock w <= e → ∀ c h, dget held c = Some h → dget (gw_held w) c = Some h ∨ h_key h ≠ key) →
  (gw_clock w <= e → ds = gw_decisions w ∨ ∃ k r, ds = gw_decisions w ++ [(k, r)] ∧ (k = key → r = skipped)) →
  sealed (GWorld cache (gw_clock w) next held ds).
Proof.
  intros Hs Hc Hh Hd Hle. cbn [gw_clock gw_cache gw_held gw_decisions] in *.
  destruct (Hs Hle) as (He & Hk & new & Hn & Hf). split_and!; [by apply Hc| |].
  - intros c h Hch. destruct (Hh Hle c h Hch) as [?|?]; [by eapply Hk|done].
  - destruct (Hd Hle) as [->|(k & r & -> & Hr)]; [by eauto|]. exists (new ++ [(k, r)]).
    rewrite Hn, app_assoc. split; [done|]. apply Forall_app. by repeat constructor.
Qed.

Lemma rgs_time w0 (Q : gworld → exn + Z → Prop) :
  (∀ w, clock_forward w0 w → Q w (inr (gw_clock w))) → rgs time w0 Q.
Proof. intros HQ. apply rg_atomically. intros w Hw Hr. split_and!; [done|apply Z.le_refl|]. by apply HQ. Qed.

Lemma rgs_new_claim_id w0 (Q : gworld → exn + string → Prop) :
  (∀ w a, clock_forward w0 w → Q w (inr a)) → rgs new_claim_id w0 Q.
Proof.
  intros HQ. apply rg_atomically. intros w Hw Hr. split_and!; [|apply Z.le_refl|by apply HQ].
  apply (sealed_keep w); eauto.
Qed.

Lemma rgs_decision k r w0 (Q : gworld → exn + unit → Prop) :
  (gw_clock w0 <= e → k = key → r = skipped) → (∀ w, clock_forward w0 w → Q w (inr ())) →
  rgs (record_gate_decision k r) w0 Q.
Proof.
  intros Hk HQ. apply rg_atomically. intros w Hw Hr. split_and!; [|apply Z.le_refl|by apply HQ].
  unfold clock_forward in Hr. apply (sealed_keep w); [done|done|by eauto|]. intros Hle. right.
  exists k, r. split; [done|]. apply Hk. lia.
Qed.

Lemma rgs_get k w0 (Q : gworld → exn + option cvalue → Prop) :
  (∀ w a, clock_forward w0 w →
     (gw_clock w <= e → k = key → a = Some (CDict (completed_record at_ v rc))) → Q w (inr a)) →
  rgs (caching (λ now c, get now c k)) w0 Q.
Proof.
  intros HQ. apply rg_atomically. intros w Hw Hr.
  destruct (get (gw_clock w) (gw_cache w) k) as [c a] eqn:E. split_and!; [|apply Z.le_refl|].
  - apply (sealed_keep w); [done| |by eauto|by eauto]. intros Hle He.
    replace c with (get (gw_clock w) (gw_cache w) k).1 by (by rewrite E). apply lookup_get; [|done].
    apply Z.ltb_ge. cbn. lia.
  - apply HQ; [done|]. intros Hle ->. cbn [fst gw_clock] in Hle. unfold get in E.
    rewrite (proj1 (Hw Hle)) in E. unfold completed_entry, is_expired in E. cbn in E.
    replace (e <? gw_clock w) with false in E by (symmetry; apply Z.ltb_ge; lia). by injection E as <- <-.
Qed.

(** A write of a claim to a key that is not sealed any more, or never was. *)
Lemma sealed_write w k claim started ttl n :
  sealed w → (k = key → e < gw_clock w) →
  sealed (GWorld (put_entry (gw_cache w) (gw_clock w) k (CDict (executing_record started n claim)) ttl)
    (gw_clock w) (gw_next_uuid w) (dset (gw_held w) claim (Hold k started)) (gw_decisions w)).
Proof.
  intros Hs Hk. apply (sealed_keep w); [done| | |by eauto].
  - intros Hle He. rewrite lookup_put, decide_False; [done|]. intros <-. specialize (Hk eq_refl). lia.
  - intros Hle c h. rewrite dget_dset. case_decide; [|by eauto]. intros [= <-]. right. cbn. intros ->.
    specialize (Hk eq_refl). lia.
Qed.

Lemma rgs_acquire claim k started ttl w0 (Q : gworld → exn + bool → Prop) :
  (∀ w b, clock_forward w0 w → (gw_clock w <= e → k = key → b = false) → Q w (inr b)) →
  rgs (acquire claim k started ttl) w0 Q.
Proof.
  intros HQ. unfold acquire, claiming. apply rg_ebind, rg_atomically. intros w Hw Hr.
  unfold setnx. destruct (live_entry (gw_cache w) (gw_clock w) k) as [x|] eqn:E; cbn [fst snd].
  - split_and!; [apply (sealed_keep w); eauto|apply Z.le_refl|]. by apply HQ.
  - assert (Hk : k = key → e < gw_clock w).
    { intros ->. apply Z.lt_nge. intros Hle. by rewrite sealed_live in E. }
    split_and!; [by apply sealed_write|apply Z.le_refl|]. apply HQ; [done|]. cbn. intros Hle Heq.
    specialize (Hk Heq). lia.
Qed.

Lemma rgs_take_over claim k started ttl stale d w0 (Q : gworld → exn + check_result → Prop) :
  (∀ w r, clock_forward w0 w → owns r → Q w r) → rgs (take_over claim k started ttl stale d) w0 Q.
Proof.
  intros HQ. unfold take_over. destruct (number d "retry_count") as [n|]; [|by apply HQ; [apply clock_forward_refl|]].
  unfold claiming. apply rg_ebind, rg_ebind, rg_atomically. intros w Hw Hr.
  unfold cas_takeover. destruct (live_entry (gw_cache w) (gw_clock w) k) as [[[a|dd|l] x]|] eqn:E;
    try (split_and!; [apply (sealed_keep w); by eauto|apply Z.le_refl|apply HQ; cbn; [exact Hr|first [done|by eauto]]]).
  cbv zeta. match goal with |- context [match ?t with inl _ => _ | inr _ => _ end] => destruct t as [ex|[]] eqn:Et end;
    try (split_and!; [apply (sealed_keep w); by eauto|apply Z.le_refl|apply HQ; cbn; [exact Hr|first [done|by eauto]]]).
  cbn [fst snd]. split_and!; [|apply Z.le_refl|apply HQ; cbn; [exact Hr|first [done|by eauto]]]. apply sealed_write; [done|]. intros ->.
  apply Z.lt_nge. intros Hle. rewrite sealed_live in E by done. injection E as <- _. by cbn in Et.
Qed.

Lemma rgs_mark k claim record ttl w0 (Q : gworld → exn + bool → Prop) :
  (∀ w r, Q w r) →
  rgs (marking (Some claim) (λ t c, cas_dict_field t c k "claim_id" (VStr claim) record ttl)) w0 Q.
Proof.
  intros HQ. apply rg_atomically. intros w Hw Hr. unfold cas_dict_field.
  assert (Hheld : ∀ c h, dget (ddel (gw_held w) claim) c = Some h → dget (gw_held w) c = Some h ∨ h_key h ≠ key).
  { intros c h. rewrite dget_ddel. case_decide; [done|]. by left. }
  destruct (live_entry (gw_cache w) (gw_clock w) k) as [[[a|d|l] x]|] eqn:E;
    try (split_and!; [apply (sealed_keep w); by eauto|apply Z.le_refl|apply HQ]).
  case_bool_decide as Hf; [|split_and!; [apply (sealed_keep w); by eauto|apply Z.le_refl|apply HQ]].
  cbn [fst snd]. split_and!; [|apply Z.le_refl|apply HQ]. apply (sealed_keep w); [done| |by eauto|by eauto].
  intros Hle He. rewrite lookup_put. case_decide as Hk; [|done]. subst k. rewrite sealed_live in E by done.
  injection E as <- _. by cbn in Hf.
Qed.

Lemma rgs_check k w0 :
  rgs (check_and_acquire_ execution_ttl tolerance k None) w0 (λ w r,
    owns r ∧ (gw_clock w <= e → k = key → r = inr skipped)).
Proof.
  unfold check_and_acquire_. cbn [or_default]. cbv zeta.
  apply rg_ebind, rgs_new_claim_id. intros w1 claim _. apply rg_ebind, rgs_time. intros w2 _.
  apply rg_ebind, rgs_acquire. intros w3 [] _ H3;
    [split; [by cbn; eauto|]; intros Hle Hk; by specialize (H3 Hle Hk)|].
  apply rg_ebind, rgs_get. intros w4 a H4 Ha.
  assert (Hlater : a ≠ Some (CDict (completed_record at_ v rc)) → ∀ w (r : exn + check_result),
    clock_forward w4 w → gw_clock w <= e → k = key → r = inr skipped).
  { intros Hne w r Hf Hle Hk. destruct Hne. apply Ha; [unfold clock_forward in Hf; lia|done]. }
  destruct a as [[x|d|l]|].
  - split; [by cbn|]. by apply Hlater; [|apply clock_forward_refl].
  - case_bool_decide as Hc.
    { split; [by cbn|]. intros Hle Hk. specialize (Ha Hle Hk). by injection Ha as ->. }
    specialize (Hlater ltac:(by intros [= ->])). case_bool_decide.
    + apply rg_ebind, rgs_time. intros w5 H5. apply rgs_take_over. intros w r Hf Ho. split; [done|].
      apply Hlater. by eapply clock_forward_trans.
    + case_bool_decide; [|split; [by cbn|]; apply Hlater, clock_forward_refl].
      apply rg_ebind, rgs_time. intros w5 H5.
      destruct (number d "started_at") as [t|]; [|split; [by cbn|]; by apply Hlater].
      destruct (t <? _); [|split; [by cbn|]; by apply Hlater].
      apply rgs_take_over. intros w r Hf Ho. split; [done|]. apply Hlater. by eapply clock_forward_trans.
  - split; [by cbn|]. by apply Hlater; [|apply clock_forward_refl].
  - specialize (Hlater ltac:(done)). apply rg_ebind, rgs_acquire. intros w5 [] H5 _;
      (split; [by cbn; eauto|by apply Hlater]).
Qed.

Lemma rgs_guarded k o w0 : rgs (guarded execution_ttl memory_ttl tolerance k o) w0 (λ _ _, True).
Proof.
  unfold guarded, check_and_acquire. apply rg_ebind, rg_ebind. eapply rg_mono; [apply rgs_check|].
  intros w1 [ex|r] [Ho Hr]; [done|]. apply rg_ebind, rgs_decision.
  { intros Hle Hk. by injection (Hr Hle Hk) as ->. }
  intros w2 _. cbn [owns] in Ho.
  change (rgs (match cr_decision r, o with
    | CONTINUE, Returns v => _ <- mark_completed memory_ttl k v (cr_retry_count r) None (cr_claim_id r);; ret ()
    | CONTINUE, Raises e => _ <- mark_failed memory_ttl k e (cr_retry_count r) None (cr_claim_id r);; ret ()
    | _, _ => ret () end) w2 (λ _ _, True)).
  destruct (cr_decision r); [|done..]. destruct (Ho eq_refl) as [c ->]. destruct o as [x|x|]; [| |done].
  - unfold mark_completed. apply rg_ebind, rg_ebind, rgs_time. intros w3 _. cbn [mark_guard fst snd].
    apply rgs_mark. by intros w [e'|b].
  - unfold mark_failed. apply rg_ebind, rg_ebind, rgs_time. intros w3 _. cbn [mark_guard fst snd].
    apply rgs_mark. by intros w [e'|b].
Qed.

Lemma sealed_outside w w' : sealed w → gate_outside w w' → sealed w' ∧ clock_forward w w'.
Proof.
  intros Hs [Hle ->]. split; [|exact Hle]. intros He. cbn [gw_clock gw_cache gw_held gw_decisions] in *.
  apply Hs. lia.
Qed.

(** C36: A completed call is not repeated: once the record of a key is completed,
    until it expires no interleaving of guarded calls executes the key again:
    nobody holds a claim of it, and every call is told SKIP with the recorded
    result. *)
Theorem completed_is_final calls w ts w' :
  lookup_entry (gw_cache w) key = Some completed_entry →
  (∀ c h, dget (gw_held w) c = Some h → h_key h ≠ key) → gw_decisions w = old →
  rtc (step gate_outside) (gbody execution_ttl memory_ttl tolerance <$> calls, w) (ts, w') →
  gw_clock w' <= e →
  (∀ c h, dget (gw_held w') c = Some h → h_key h ≠ key) ∧
  ∃ new, gw_decisions w' = old ++ new ∧ Forall (λ d, d.1 = key → d.2 = skipped) new.
Proof.
  intros He Hh Hd Hr Hle.
  destruct (steps_safe sealed clock_forward gate_outside clock_forward_refl clock_forward_trans
    sealed_outside (gbody execution_ttl memory_ttl tolerance <$> calls) w (ts, w')) as [Hs _].
  - intros _. split_and!; [done..|]. exists []. by rewrite app_nil_r.
  - apply Forall_fmap, Forall_true. intros [k o]. eapply rg_spawn, rgs_guarded.
  - exact Hr.
  - by destruct (Hs Hle) as (_ & ? & ?).
Qed.
End final.

(** ** One check on its own *)

(** What a check answers to the live value of its key, and the record it writes;
    [None]: a count or time that is not a number raises. *)
Definition gate_rule (T tolerance now : Z) (claim : string) (entry : option cvalue) :
    option (check_result * option (dict string pyval)) :=
  let take d :=
    n ← number d "retry_count";
    Some (CheckResult CONTINUE VNone (VInt (n + 1)) (Some claim), Some (executing_record now (n + 1) claim)) in
  match entry with
  | None => Some (CheckResult CONTINUE VNone (VInt 0) (Some claim), Some (executing_record now 0 claim))
  | Some (CDict d) =>
      if bool_decide (field d "status" = VStr "completed") then
        Some (CheckResult SKIP (field d "result") (default (VInt 0) (dget d "retry_count")) None, None)
      else if bool_decide (field d "status" = VStr "failed") then take d
      else if bool_decide (field d "status" = VStr "executing") then
        t ← number d "started_at";
        if t <? now - T - tolerance then take d else Some (aborted, None)
      else Some (aborted, None)
  | Some _ => Some (aborted, None)
  end.

Section alone.
  Context (T tolerance : Z).

(** A status that is missing counts as the empty string. *)
Lemma status_of d s : bool_decide (s = "") = false → default (VStr "") (dget d "status") = VStr s ↔ field d "status" = VStr s.
Proof.
  intros Hs%bool_decide_eq_false. unfold field. destruct (dget d "status"); cbn; [done|].
  split; [by intros [= <-]|done].
Qed.

Lemma run_claiming claim key started f (w : gworld) :
  run (claiming claim key started f) w =
  let '(c, r) := f (gw_clock w) (gw_cache w) in
  (GWorld c (gw_clock w) (gw_next_uuid w)
     (match r with inr true => dset (gw_held w) claim (Hold key started) | _ => gw_held w end) (gw_decisions w), r).
Proof.
  unfold claiming. rewrite run_ebind, run_atomically. destruct (f (gw_clock w) (gw_cache w)) as [c [e|b]]; done.
Qed.

(** A takeover where the rule says so wins. *)
Lemma run_take_over claim key started stale d x (w : gworld) :
  live_entry (gw_cache w) (gw_clock w) key = Some (CacheEntry (CDict d) x) →
  (field d "status" = VStr "failed" ∨
   field d "status" = VStr "executing" ∧ ∃ t, number d "started_at" = Some t ∧ t < stale) →
  match number d "retry_count" with
  | None => (run (take_over claim key started T stale d) w).2 = inl TypeError
  | Some n =>
      (run (take_over claim key started T stale d) w).2 =
        inr (CheckResult CONTINUE VNone (VInt (n + 1)) (Some claim)) ∧
      lookup_entry (gw_cache (run (take_over claim key started T stale d) w).1) key =
        Some (CacheEntry (CDict (executing_record started (n + 1) claim)) (Some (gw_clock w + T)))
  end.
Proof.
  intros Hl Ht. unfold take_over. destruct (number d "retry_count") as [n|]; [|done].
  rewrite run_ebind, run_claiming. unfold cas_takeover. rewrite Hl. cbv zeta.
  assert ((if bool_decide (field d "status" = VStr "failed") then inr true
           else if bool_decide (field d "status" = VStr "executing") then
             match number d "started_at" with Some t => inr (t <? stale) | None => inl TypeError end
           else inr false) = (inr true : exn + bool)) as ->.
  { destruct Ht as [->|(-> & t & -> & Hlt)]; [done|]. cbn. f_equal. by apply Z.ltb_lt. }
  cbv beta iota. rewrite run_ret_e. cbn [fst snd gw_cache]. split; [done|]. by rewrite lookup_put, decide_True.
Qed.

Lemma check_alone key (w : gworld) :
  let p := run (check_and_acquire_ T tolerance key None) w in
  match gate_rule T tolerance (gw_clock w) (pretty (gw_next_uuid w))
          (ce_value <$> live_entry (gw_cache w) (gw_clock w) key) with
  | None => p.2 = inl TypeError
  | Some (r, Some d) => p.2 = inr r ∧
      lookup_entry (gw_cache p.1) key = Some (CacheEntry (CDict d) (Some (gw_clock w + T)))
  | Some (r, None) => p.2 = inr r ∧
      live_entry (gw_cache p.1) (gw_clock w) key = live_entry (gw_cache w) (gw_clock w) key
  end.
Proof.
  cbv zeta. unfold check_and_acquire_, new_claim_id, time, acquire. cbn [or_default]. cbv zeta.
  rewrite run_ebind, run_atomically. cbn [fst snd]. rewrite run_ebind, run_atomically. cbn [fst snd].
  rewrite run_ebind, run_claiming. cbn [gw_clock gw_cache]. unfold setnx.
  destruct (live_entry (gw_cache w) (gw_clock w) key) as [[x ex]|] eqn:El; cbn [fmap option_fmap option_map ce_value].
  2:{ cbn [gate_rule run fst snd gw_cache]. rewrite run_ret_e. cbn [fst snd gw_cache]. split; [done|].
      by rewrite lookup_put, decide_True. }
  cbn [fst snd]. unfold caching. rewrite run_ebind, run_atomically. cbn [gw_clock gw_cache].
  assert (Hget : get (gw_clock w) (gw_cache w) key = (gw_cache w, Some x)).
  { unfold live_entry in El. unfold get. destruct (lookup_entry (gw_cache w) key) as [e|]; [|done].
    destruct (is_expired e (gw_clock w)); [done|]. by injection El as ->. }
  rewrite Hget. cbn [fst snd]. destruct x as [a|d|l]; [rewrite run_ret_e; cbn [fst snd gw_cache]; by split| |rewrite run_ret_e; cbn [fst snd gw_cache]; by split].
  cbn [gate_rule]. rewrite (bool_decide_ext _ _ (status_of d "completed" eq_refl)),
    (bool_decide_ext _ _ (status_of d "failed" eq_refl)), (bool_decide_ext _ _ (status_of d "executing" eq_refl)).
  case_bool_decide as Hcomp; [rewrite run_ret_e; cbn [fst snd gw_cache]; by split|].
  case_bool_decide as Hfail; [|case_bool_decide as Hex; [|rewrite run_ret_e; cbn [fst snd gw_cache]; by split]].
  - rewrite run_ebind, run_atomically. cbn [fst snd gw_clock].
    match goal with |- context [run (take_over ?c ?k ?s ?tt ?st d) ?w'] =>
      pose proof (run_take_over c k s st d ex w' El (or_introl Hfail)) as Ht end.
    cbn [mbind option_bind]. destruct (number d "retry_count") as [n|]; cbn [mbind option_bind option_map]; exact Ht.
  - rewrite run_ebind, run_atomically. cbn [fst snd gw_clock].
    destruct (number d "started_at") as [t|] eqn:Et; cbn [mbind option_bind]; [|done]. unfold stale_before.
    destruct (Z.ltb_spec t (gw_clock w - T - tolerance)) as [Hlt|Hge]; [|rewrite run_ret_e; cbn [fst snd gw_cache]; by split].
    match goal with |- context [run (take_over ?c ?k ?s ?tt ?st d) ?w'] =>
      pose proof (run_take_over c k s st d ex w' El
        (or_intror (conj Hex (ex_intro _ t (conj Et Hlt))))) as Ht end.
    destruct (number d "retry_count") as [n|]; cbn [mbind option_bind]; exact Ht.
Qed.

(** Run on its own, a check answers exactly as the rule says: a free key is
    claimed, a completed one skipped with its result, a failed or stale one taken
    over with one more retry, and any other aborted; on CONTINUE the cache holds
    the new claim for the execution window, otherwise the key shows what it did. *)
Theorem check_follows_rule key (w : gworld) :
  let p := run (check_and_acquire_ T tolerance key None) w in
  match gate_rule T tolerance (gw_clock w) (pretty (gw_next_uuid w))
          (ce_value <$> live_entry (gw_cache w) (gw_clock w) key) with
  | None => p.2 = inl TypeError
  | Some (r, Some d) => p.2 = inr r ∧
      lookup_entry (gw_cache p.1) key = Some (CacheEntry (CDict d) (Some (gw_clock w + T)))
  | Some (r, None) => p.2 = inr r ∧
      live_entry (gw_cache p.1) (gw_clock w) key = live_entry (gw_cache w) (gw_clock w) key
  end.
Proof. apply check_alone. Qed.
End alone.

Lemma rule_executing T tolerance now claim started rc claim' :
  gate_rule T tolerance now claim (Some (CDict (executing_record started rc claim'))) =
  if started <? now - T - tolerance
  then Some (CheckResult CONTINUE VNone (VInt (rc + 1)) (Some claim), Some (executing_record now (rc + 1) claim))
  else Some (aborted, None).
Proof. reflexivity. Qed.

(** A claim that was written when it started is never taken over as stale: its
    record expires with the execution window, before the tolerance is added, so a
    later check aborts or claims the key afresh, with no retry counted. *)
Theorem stale_claim_expires_first T tolerance key started rc claim (w : gworld) :
  0 <= tolerance →
  lookup_entry (gw_cache w) key =
    Some (CacheEntry (CDict (executing_record started rc claim)) (Some (started + T))) →
  (run (check_and_acquire_ T tolerance key None) w).2 =
    inr (if gw_clock w <=? started + T then aborted
         else CheckResult CONTINUE VNone (VInt 0) (Some (pretty (gw_next_uuid w)))).
Proof.
  intros Htol Hl. pose proof (check_alone T tolerance key w) as Hr. cbv zeta in Hr.
  unfold live_entry in Hr. rewrite Hl in Hr. unfold is_expired in Hr. cbn [ce_expires_at] in Hr.
  destruct (Z.leb_spec (gw_clock w) (started + T)) as [Hle|Hgt].
  - replace (started + T <? gw_clock w) with false in Hr by (symmetry; apply Z.ltb_ge; lia).
    cbn [fmap option_fmap option_map ce_value] in Hr. rewrite rule_executing in Hr.
    replace (started <? gw_clock w - T - tolerance) with false in Hr by (symmetry; apply Z.ltb_ge; lia).
    by destruct Hr.
  - replace (started + T <? gw_clock w) with true in Hr by (symmetry; apply Z.ltb_lt; lia).
    cbn [fmap option_fmap option_map gate_rule] in Hr. by destruct Hr.
Qed.

(** ** Witnesses *)
Definition fresh_process : gworld := GWorld (MemoryCache "test:" []) 1000 0 [] [].

Lemma claims_exclusive_witness :
  let calls := [("order-1", Dies); ("order-1", Returns (VInt 7))] in
  let w' := run_all (gbody (seconds 1800) (seconds 1800) (seconds 5) <$> calls) fresh_process in
  dget (gw_held w') "0" = Some (Hold "order-1" 1000) ∧ claim_record (seconds 1800) w' "0" (Hold "order-1" 1000) ∧
  (cr_decision <$> (gw_decisions w').*2) = [CONTINUE; ABORT].
Proof.
  cbv zeta. set (calls := [_; _]).
  destruct (exec_run_all gate_outside (λ _ _, 0)
    (gbody (seconds 1800) (seconds 1800) (seconds 5) <$> calls) fresh_process) as (d & ts & He & _).
  apply exec_rtc in He. split; [vm_compute; reflexivity|]. split; [|vm_compute; reflexivity].
  apply (claims_exclusive (seconds 1800) (seconds 1800) (seconds 5) calls fresh_process ts _
    "0" (Hold "order-1" 1000) "0" (Hold "order-1" 1000));
    [vm_compute; congruence|reflexivity|exact He|vm_compute; reflexivity|vm_compute; reflexivity|reflexivity
    |vm_compute; congruence|vm_compute; congruence].
Defined.

Definition done_process : gworld :=
  GWorld (MemoryCache "test:" [("test:order-1",
    CacheEntry (CDict (completed_record 500 (VInt 7) (VInt 0))) (Some (seconds 1800)))]) 1000 5 [] [].

Lemma completed_is_final_witness :
  let calls := [("order-1", Returns (VInt 8)); ("order-1", Dies)] in
  let w' := run_all (gbody (seconds 1800) (seconds 1800) (seconds 5) <$> calls) done_process in
  (∃ new, gw_decisions w' = [] ++ new ∧ Forall (λ d, d.1 = "order-1" → d.2 = skipped (VInt 7) (VInt 0)) new) ∧
  length (gw_decisions w') = 2%nat.
Proof.
  cbv zeta. set (calls := [_; _]).
  destruct (exec_run_all gate_outside (λ _ _, 0)
    (gbody (seconds 1800) (seconds 1800) (seconds 5) <$> calls) done_process) as (d & ts & He & _).
  apply exec_rtc in He. split; [|vm_compute; reflexivity].
  apply (completed_is_final (seconds 1800) (seconds 1800) (seconds 5) "order-1" 500 (VInt 7) (VInt 0)
    (seconds 1800) [] calls done_process ts _);
    [reflexivity|intros c h Hc; discriminate Hc|reflexivity|exact He|vm_compute; congruence].
Defined.
