(* ===== verification/Policy.v ===== *)
(** * What policies exchange

    The types of [interfaces/resilience_policy.py] that every resilience policy
    takes and returns, the exceptions policies raise themselves, their
    classification ([resilience/policies/composer.py]), and programs that may
    raise: an [Exception], which a handler catches, or another [BaseException]
    (an interrupt, a cancellation, the composer's signal), which it lets pass. *)
From S2P Require Import Prelude Interleave.

(** ** Outcomes, errors and results *)

Inductive PolicyOutcome : Type := SUCCESS | SUCCESS_WITH_FALLBACK | REJECTED | FAILURE | TIMEOUT.

#[export] Instance policy_outcome_eq_dec : EqDecision PolicyOutcome.
Proof. solve_decision. Defined.

(** The value of the enumeration. *)
Definition outcome_value (o : PolicyOutcome) : string :=
  match o with
  | SUCCESS => "success" | SUCCESS_WITH_FALLBACK => "fallback" | REJECTED => "rejected"
  | FAILURE => "failure" | TIMEOUT => "timeout"
  end.

(** An [Exception]: one of the application's, one that escaped the breaker's
    service, or one that a policy constructs. *)
Inductive error (A : Type) : Type :=
| AppError (a : A)
| ServiceError (x : exn)
| CircuitBreakerOpenError (service_name : string)
| BulkheadFullError (bulkhead_name : string)
| PolicyRejectedException (message : string)
| TimeoutPolicyError
| RateLimitDeferredError (key : string)
| IdempotencyDuplicateError (key decision : string)
| IdempotencyUnavailableError (key error : string)
| BaldurError (message : string).
Arguments AppError {A}. Arguments ServiceError {A}. Arguments CircuitBreakerOpenError {A}.
Arguments BulkheadFullError {A}. Arguments PolicyRejectedException {A}.
Arguments TimeoutPolicyError {A}. Arguments RateLimitDeferredError {A}.
Arguments IdempotencyDuplicateError {A}. Arguments IdempotencyUnavailableError {A}. Arguments BaldurError {A}.

Definition is_open_error {A} (e : error A) : bool :=
  match e with CircuitBreakerOpenError _ => true | _ => false end.

(** An application's own exceptions may derive from one of the two marker classes. *)
Inductive marker : Type := NoMarker | RejectionMarker | TimeoutMarker.

(** [_classify_exception_outcome] *)
Definition classify_exception_outcome {A} (app_marker : A → marker) (e : error A) : PolicyOutcome :=
  match e with
  | CircuitBreakerOpenError _ | BulkheadFullError _ | PolicyRejectedException _ => REJECTED
  | TimeoutPolicyError => TIMEOUT
  | AppError a =>
      match app_marker a with RejectionMarker => REJECTED | TimeoutMarker => TIMEOUT | NoMarker => FAILURE end
  | ServiceError _ | RateLimitDeferredError _ | IdempotencyDuplicateError _ _
  | IdempotencyUnavailableError _ _ | BaldurError _ => FAILURE
  end.

Lemma classified_failing {A} (app_marker : A → marker) e : classify_exception_outcome app_marker e ≠ SUCCESS.
Proof. destruct e; cbn; by try case_match. Qed.

Lemma classify_failing {A} (app_marker : A → marker) e :
  let o := classify_exception_outcome app_marker e in o = REJECTED ∨ o = FAILURE ∨ o = TIMEOUT.
Proof. destruct e; cbn; try case_match; auto. Qed.

(** [PolicyResult], without the duration. *)
Record PolicyResult (A V : Type) : Type := Result {
  result_value : option V;
  outcome : PolicyOutcome;
  result_error : option (error A);
  executed_policies : list string;
  total_attempts : Z;
  result_metadata : dict string pyval;
}.
Arguments Result {A V}. Arguments result_value {A V}. Arguments outcome {A V}. Arguments result_error {A V}.
Arguments executed_policies {A V}. Arguments total_attempts {A V}. Arguments result_metadata {A V}.

(** [PolicyResult.success] *)
Definition is_success {A V} (r : PolicyResult A V) : bool :=
  match outcome r with SUCCESS | SUCCESS_WITH_FALLBACK => true | _ => false end.

(** [dict.update] and [{**a, **b}]. *)
Definition dupdate {K V} `{EqDecision K} (d : dict K V) (new : dict K V) : dict K V :=
  foldl (λ d kv, dset d kv.1 kv.2) d new.

(** ** Programs that raise *)
Inductive raised (A B : Type) : Type :=
| Exc (e : error A)
| Base (b : B).
Arguments Exc {A B}. Arguments Base {A B}.

Section pyprog.
  Context {W A B : Type}.

Definition pyprog (V : Type) : Type := prog W (raised A B + V).

Definition pret {V} (v : V) : pyprog V := Ret (inr v).
Definition praise {V} (e : error A) : pyprog V := Ret (inl (Exc e)).

Definition pbind {V V'} (p : pyprog V) (k : V → pyprog V') : pyprog V' :=
  @mbind (prog W) _ _ _ (λ r, match r with inl e => Ret (inl e) | inr v => k v end) p.

(** A call of the breaker's service or of a component behind it. *)
Definition call {V} (p : eprog W V) : pyprog V :=
  @mbind (prog W) _ _ _ (λ r, match r with inl x => Ret (inl (Exc (ServiceError x))) | inr v => Ret (inr v) end) p.

(** [try: p / except Exception as e: h(e)] *)
Definition except {V} (p : pyprog V) (h : error A → pyprog V) : pyprog V :=
  @mbind (prog W) _ _ _ (λ r, match r with inl (Exc e) => h e | _ => Ret r end) p.

Fixpoint peach {X} (l : list X) (body : X → pyprog ()) : pyprog () :=
  match l with [] => pret () | x :: l => pbind (body x) (λ _, peach l body) end.
End pyprog.
Arguments pyprog : clear implicits.

Notation "'let!' x ':=' p 'in' q" := (pbind p (λ x, q))
  (at level 65, x name, p at level 64, q at level 65, right associativity) : prog_scope.

(** ** Proof rules *)
Section rules.
  Context {W A B : Type} (I : W → Prop) (delta : W → W → Z).
Notation wpi p n Φ := (wp I delta p n Φ).

Lemma wp_pbind {V V'} (p : pyprog W A B V) (k : V → pyprog W A B V') n Φ :
  wpi p n (λ m r, match r with inl e => Φ m (inl e) | inr v => wpi (k v) m Φ end) →
  wpi (pbind p k) n Φ.
Proof. intros Hp. apply wp_bind. eapply wp_mono; [done|]. by intros m [e|v]. Qed.

Lemma wp_call {V} (p : eprog W V) n (Φ : Z → raised A B + V → Prop) :
  wpi p n (λ m r, match r with inl x => Φ m (inl (Exc (ServiceError x))) | inr v => Φ m (inr v) end) →
  wpi (call p) n Φ.
Proof. intros Hp. apply wp_bind. eapply wp_mono; [done|]. by intros m [x|v]. Qed.

Lemma wp_except {V} (p : pyprog W A B V) h n (Φ : Z → raised A B + V → Prop) :
  wpi p n (λ m r, match r with inl (Exc e) => wpi (h e) m Φ | r => Φ m r end) →
  wpi (except p h) n Φ.
Proof. intros Hp. apply wp_bind. eapply wp_mono; [done|]. by intros m [[e|b]|v]. Qed.

Lemma wp_peach {X} (l : list X) (body : X → pyprog W A B ()) n (Φ : Z → raised A B + () → Prop) :
  (∀ x, x ∈ l → wpi (body x) n (λ m r, m = n ∧ (∀ e, r = inl e → Φ n (inl e)))) →
  Φ n (inr ()) → wpi (peach l body) n Φ.
Proof.
  intros Hb HΦ. induction l as [|x l IH]; simpl; [done|]. apply wp_pbind.
  eapply wp_mono; [apply Hb; by left|]. intros m [e|[]] [-> He]; [by apply He|].
  apply IH. intros y Hy. apply Hb. by right.
Qed.
End rules.

Section runs.
  Context {W A B : Type}.

Lemma run_pret {V} (v : V) (w : W) : run (pret v : pyprog W A B V) w = (w, inr v).
Proof. done. Qed.

Lemma run_praise {V} e (w : W) : run (praise e : pyprog W A B V) w = (w, inl (Exc e)).
Proof. done. Qed.

Lemma run_pbind {V V'} (p : pyprog W A B V) (k : V → pyprog W A B V') w :
  run (pbind p k) w =
  let '(w', r) := run p w in match r with inl e => (w', inl e) | inr v => run (k v) w' end.
Proof. unfold pbind. rewrite run_bind. by destruct (run p w) as [w' [e|v]]. Qed.

Lemma run_call {V} (p : eprog W V) w :
  run (call p : pyprog W A B V) w =
  let '(w', r) := run p w in
  (w', match r with inl x => inl (Exc (ServiceError x)) | inr v => inr v end).
Proof. unfold call. rewrite run_bind. by destruct (run p w) as [w' [x|v]]. Qed.

Lemma run_except {V} (p : pyprog W A B V) h w :
  run (except p h) w =
  let '(w', r) := run p w in match r with inl (Exc e) => run (h e) w' | r => (w', r) end.
Proof. unfold except. rewrite run_bind. by destruct (run p w) as [w' [[e|b]|v]]. Qed.
End runs.
#[export] Hint Rewrite @run_pret @run_praise @run_pbind @run_call @run_except : run.
#[global] Arguments pbind : simpl never.
#[global] Arguments call : simpl never.
#[global] Arguments except : simpl never.
