(* ===== verification/CBPolicy.v ===== *)
(** * The circuit-breaker policy

    [CircuitBreakerPolicy] ([services/circuit_breaker/policy.py]) puts a breaker
    around a call: it asks the service for admission, runs the function and
    records what it did.  It also opens the call's observation scope
    ([rate_limit_observation.py]), through which inner stages count the requests
    and the 429s they see, and feeds the five-minute window.

    The world is that of the protection calls ([CBProtection.pworld]), the time
    window, the scopes that are open, the cooldowns announced to the coordinator,
    and whatever the application's functions work on.  A function is a program
    that gets the scope it runs under; it may return, raise an [Exception] or be
    interrupted.  [invoked] records whose function was started. *)
From Stdlib Require Import QArith.
From stdpp Require Import pretty.
From S2P Require Import RateLimitTracker TimeWindow.
From S2P Require Import Prelude Interleave CBData OutcomeWindow CBInterface CBRepo CBService CBTokens CBRules.
From S2P Require Import CBEvents CBSafety CBBlock CBLifecycle CBProtection Policy.
#[local] Open Scope Z_scope.

(** ** The observation scope *)
Record observation_scope (A V : Type) : Type := ObservationScope {
  breaker_key : string;
  attempts : Z;
  rate_limited : Z;
  coordination_claimed : bool;
  classified : list (error A + V);
  counts_exception : error A → bool;
}.
Arguments ObservationScope {A V}. Arguments breaker_key {A V}. Arguments attempts {A V}.
Arguments rate_limited {A V}. Arguments coordination_claimed {A V}. Arguments classified {A V}.
Arguments counts_exception {A V}.

Definition fresh_scope {A V} (key : string) (counts : error A → bool) : observation_scope A V :=
  ObservationScope key 0 0 false [] counts.

(** ** The world *)
Record cworld (R X U A V : Type) : Type := CWorld {
  guarded : pworld R X;
  call_outcomes : tow;
  scopes : list (observation_scope A V);
  cooldowns : list (string * option Q);
  user : U;
  invoked : list string;
}.
Arguments CWorld {R X U A V}. Arguments guarded {R X U A V}. Arguments call_outcomes {R X U A V}.
Arguments scopes {R X U A V}. Arguments cooldowns {R X U A V}. Arguments user {R X U A V}.
Arguments invoked {R X U A V}.

Definition set_guarded {R X U A V} (w : cworld R X U A V) (g : pworld R X) : cworld R X U A V :=
  CWorld g (call_outcomes w) (scopes w) (cooldowns w) (user w) (invoked w).
Definition set_scopes {R X U A V} (w : cworld R X U A V) (l : list (observation_scope A V)) : cworld R X U A V :=
  CWorld (guarded w) (call_outcomes w) l (cooldowns w) (user w) (invoked w).
Definition set_user {R X U A V} (w : cworld R X U A V) (u : U) : cworld R X U A V :=
  CWorld (guarded w) (call_outcomes w) (scopes w) (cooldowns w) u (invoked w).

(** What a response or an exception shows, and what the deployment counts. *)
Record classifier (A V : Type) : Type := Classifier {
  detect_rate_limit : error A + V → bool * option Q;
  response_status : V → option Z;
  failure_status_codes : list Z;
  is_invalid_request : error A → bool;
  same_object : error A + V → error A + V → bool;
  coordination_enabled : bool;
  error_text : error A → string;
  error_type : error A → string;
}.
Arguments Classifier {A V}. Arguments detect_rate_limit {A V}. Arguments response_status {A V}.
Arguments failure_status_codes {A V}. Arguments is_invalid_request {A V}. Arguments same_object {A V}.
Arguments coordination_enabled {A V}. Arguments error_text {A V}. Arguments error_type {A V}.

Section policy.
  Context {R X U A V B : Type} `{CircuitBreakerStateRepository R}.
  Context (st : tracker_settings) (l2 : l2_backend X) (cls : classifier A V).
Notation W := (cworld R X U A V).
Notation cmethod T := (eprog W T).
Notation cprog T := (pyprog W A B T).

Definition serving {T} (p : eprog (pworld R X) T) : cmethod T := zoom guarded set_guarded p.

Definition look {T} (f : W → T) : cmethod T := atomically (λ w, (w, f w)).

(** *** [OutboundObservationScope] *)

Definition scope_at (i : nat) : cmethod (option (observation_scope A V)) := look (λ w, scopes w !! i).

Definition update_scope (i : nat) (f : observation_scope A V → observation_scope A V) : cmethod () :=
  atomically (λ w, (set_scopes w (alter f i (scopes w)), ())).

(** [try: ... / except Exception: log] *)
Definition fail_open (p : cmethod ()) : cmethod () := catch p (λ _, ret ()).

Definition record_request_ (key : string) : cmethod () :=
  fail_open (serving (CBProtection.record_request st l2 key)).

Definition record_cascade_observation (key : string) (evaluate : bool) : cmethod () :=
  fail_open
    (if evaluate then _ <- serving (record_rate_limit_response st l2 key);; ret ()
     else serving (record_rate_limit_observation st l2 key)).

Definition UNIDENTIFIED_COORDINATION_KEY : string := "default".

(** [_notify_cooldown]: the coordinator itself is outside the model. *)
Definition notify_cooldown (key : string) (retry_after : option Q) : cmethod () :=
  if negb (coordination_enabled cls) then ret ()
  else if bool_decide (key = UNIDENTIFIED_COORDINATION_KEY) then ret ()
  else atomically (λ w, (CWorld (guarded w) (call_outcomes w) (scopes w)
                           (cooldowns w ++ [(key, retry_after)]) (user w) (invoked w), ())).

Definition observe_429 (key : string) (retry_after : option Q)
    (record_cascade evaluate_cascade notify_coordinator : bool) : cmethod () :=
  _ <- (if record_cascade then record_cascade_observation key evaluate_cascade else ret ());;
  if notify_coordinator then notify_cooldown key retry_after else ret ().

Definition note_attempt (i : nat) : cmethod () :=
  _ <- update_scope i (λ s, ObservationScope (breaker_key s) (attempts s + 1) (rate_limited s)
                              (coordination_claimed s) (classified s) (counts_exception s));;
  s <- scope_at i;;
  match s with None => ret () | Some s => record_request_ (breaker_key s) end.

(** [counts]: only a raised exception is filtered. *)
Definition counts (s : observation_scope A V) (subject : option (error A + V)) : bool :=
  match subject with Some (inl e) => counts_exception s e | _ => true end.

Definition note_429 (i : nat) (retry_after : option Q) (subject : option (error A + V)) : cmethod () :=
  s <- scope_at i;;
  match s with
  | None => ret ()
  | Some s =>
      if negb (counts s subject) then ret ()
      else
        _ <- update_scope i (λ s, ObservationScope (breaker_key s) (attempts s) (rate_limited s + 1)
                                    (coordination_claimed s) (classified s) (counts_exception s));;
        observe_429 (breaker_key s) retry_after true false false
  end.

Definition mark_classified (i : nat) (o : error A + V) : cmethod () :=
  update_scope i (λ s, ObservationScope (breaker_key s) (attempts s) (rate_limited s)
                         (coordination_claimed s) (classified s ++ [o]) (counts_exception s)).

Definition was_classified (s : observation_scope A V) (o : error A + V) : bool :=
  existsb (same_object cls o) (classified s).

Definition claim_coordination (i : nat) : cmethod () :=
  update_scope i (λ s, ObservationScope (breaker_key s) (attempts s) (rate_limited s)
                         true (classified s) (counts_exception s)).

(** [open_scope]: the scope becomes current for the function it is handed to,
    which is the extent between setting and resetting the context variable. *)
Definition open_scope (key : string) (counts : error A → bool) : cmethod nat :=
  atomically (λ w, (set_scopes w (scopes w ++ [fresh_scope key counts]), length (scopes w))).

(** *** [CircuitBreakerPolicy] *)

Inductive hook_call : Type :=
| OnExecute (name : string) (attempt : Z)
| OnReject (name reason : string)
| OnSuccess (name : string) (r : PolicyResult A V)
| OnFailure (name : string) (e : error A) (attempt : Z).

Record cb_policy : Type := CBPolicy {
  protected_name : string;
  failure_exceptions : error A → bool;
  ignore_exceptions : error A → bool;
  hooks : list (hook_call → cprog ());
  outcome_key : option string;
}.

  Context (pol : cb_policy).

Definition is_rate_limit_deferral (e : error A) : bool :=
  match e with RateLimitDeferredError _ => true | _ => false end.

Definition is_failure (e : error A) : bool :=
  if is_rate_limit_deferral e then false
  else if is_invalid_request cls e then false
  else if ignore_exceptions pol e then false
  else failure_exceptions pol e.

Definition invoke_hooks (c : hook_call) : cprog () :=
  peach (hooks pol) (λ h, except (h c) (λ _, pret ())).

Definition open_rejection (state : string) : PolicyResult A V :=
  Result None REJECTED (Some (CircuitBreakerOpenError (protected_name pol))) ["circuit_breaker"] 1
    [("service_name", VStr (protected_name pol)); ("state", VStr state)].

Inductive verdict : Type :=
| Direct
| Reject (r : PolicyResult A V)
| Proceed (d : CircuitBreakerDecision).

(** The observe-only branch of [_admit]: only an operator's block refuses. *)
Definition peek_block (name : string) : eprog (world R) (CircuitBreakerStateData * bool) :=
  peek <- get_or_create_state name;;
  now <- utc_now;;
  ret (peek, is_operator_block_in_force now peek).

Definition admit_observing : cprog verdict :=
  let! peek := call (serving (lift (peek_block (protected_name pol)))) in
  if peek.2 : bool then
    let! _ := invoke_hooks (OnReject (protected_name pol) "circuit_open") in
    pret (Reject (open_rejection (state peek.1)))
  else pret Direct.

Definition admit_call : cprog verdict :=
  let! on := call (serving (lift is_enabled)) in
  if negb on then pret Direct
  else
    let! _ := invoke_hooks (OnExecute (protected_name pol) 1) in
    let! observing := call (serving intervention_suppressed) in
    if observing : bool then admit_observing
    else
      let! d := call (serving (lift (should_allow_with_state (protected_name pol)))) in
      if negb (allowed d) then
        let! _ := invoke_hooks (OnReject (protected_name pol) "circuit_open") in
        pret (Reject (open_rejection (state (decision_state d))))
      else pret (Proceed d).

Definition direct_result (v : V) : PolicyResult A V :=
  Result (Some v) SUCCESS None ["circuit_breaker"] 1 [].

Definition count_call_request (i : nat) (made_a_call : bool) : cmethod () :=
  s <- scope_at i;;
  match s with
  | None => ret ()
  | Some s => if (attempts s =? 0) && made_a_call then note_attempt i else ret ()
  end.

Definition observe_rate_limit (o : error A + V) (retry_after : option Q) (i : nat) : cmethod () :=
  s <- scope_at i;;
  _ <- match s with
       | None => ret ()
       | Some s => if was_classified s o then ret () else note_429 i retry_after (Some o)
       end;;
  s <- scope_at i;;
  match s with
  | None => ret ()
  | Some s =>
      if coordination_claimed s then ret ()
      else observe_429 (protected_name pol) retry_after false true true
  end.

Definition feed_window (failure : bool) : cmethod () :=
  atomically (λ w,
    (CWorld (guarded w)
       (record_call_outcome (call_outcomes w) (clock (base (guarded w))) (outcome_key pol) failure)
       (scopes w) (cooldowns w) (user w) (invoked w), ())).

Definition evaluate_cascade_after_record (i : nat) : cmethod () :=
  s <- scope_at i;;
  match s with
  | None => ret ()
  | Some s =>
      if rate_limited s =? 0 then ret ()
      else fail_open (_ <- serving (evaluate_rate_limit_cascade st l2 (protected_name pol));; ret ())
  end.

Definition hint_of (d : CircuitBreakerDecision) : success_hint :=
  {| hint_state := decision_state d; hint_epoch := window_epoch d |}.

Definition http_text (status : option Z) : string :=
  "HTTP " +:+ match status with Some s => pretty s | None => "None" end.

Definition on_success (v : V) (d : CircuitBreakerDecision) (i : nat) : cprog (PolicyResult A V) :=
  let name := protected_name pol in
  let '(limited, retry_after) := detect_rate_limit cls (inr v) in
  let status := response_status cls v in
  let failed := match status with Some s => bool_decide (s ∈ failure_status_codes cls) | None => false end in
  let! _ := call (
    _ <- count_call_request i true;;
    _ <- (if failed || limited then
            _ <- serving (lift (CBService.record_failure name
                   [("error", http_text status); ("type", "response_status")]));;
            feed_window true
          else
            _ <- serving (lift (CBService.record_success name (Some (hint_of d))));;
            feed_window false);;
    _ <- (if limited then observe_rate_limit (inr v) retry_after i else ret ());;
    evaluate_cascade_after_record i) in
  let r := Result (Some v) SUCCESS None ["circuit_breaker"] 1 [] in
  let! _ := invoke_hooks (OnSuccess name r) in
  pret r.

Definition on_failure (e : error A) (i : nat) : cprog () :=
  let name := protected_name pol in
  let! _ := call (
    _ <- count_call_request i (negb (is_rate_limit_deferral e));;
    _ <- (if is_failure e then
            _ <- serving (lift (CBService.record_failure name
                   [("error", error_text cls e); ("type", error_type cls e)]));;
            _ <- feed_window true;;
            let '(limited, retry_after) := detect_rate_limit cls (inl e) in
            if limited then observe_rate_limit (inl e) retry_after i else ret ()
          else ret ());;
    evaluate_cascade_after_record i) in
  invoke_hooks (OnFailure name e 1).

(** The function starts. *)
Definition invoke (func : option nat → cprog V) (scope : option nat) : cprog V :=
  let! _ := call (atomically (λ w,
    (CWorld (guarded w) (call_outcomes w) (scopes w) (cooldowns w) (user w)
       (invoked w ++ [protected_name pol]), ()))) in
  func scope.

(** [execute]; [current] is the scope the call itself runs under. *)
Definition execute (func : option nat → cprog V) (current : option nat) : cprog (PolicyResult A V) :=
  let! v := admit_call in
  match v with
  | Reject r => pret r
  | Direct => let! x := invoke func current in pret (direct_result x)
  | Proceed d =>
      let! i := call (open_scope (protected_name pol) is_failure) in
      except
        (let! x := invoke func (Some i) in on_success x d i)
        (λ e, let! _ := on_failure e i in praise e)
  end.
End policy.

(** ** Pools of protected calls *)

Section pool.
  Context {R X U A V B : Type} `{RepositoryLaws R}.
  Context (st : tracker_settings) (l2 : l2_backend X) (cls : classifier A V).
Notation W := (cworld R X U A V).

(** Code of the application keeps away from the breaker's own state: it may use
    the tracker, the scopes and the cooldowns. *)
Definition apart {T} (p : prog W T) : Prop :=
  obeys (λ _, True) (λ w w', base (guarded w') = base (guarded w) ∧ invoked w' = invoked w) p.

Inductive policy_op : Type :=
| PolicyCall (pol : cb_policy (R := R) (X := X) (U := U) (A := A) (V := V) (B := B))
    (func : option nat → pyprog W A B V) (current : option nat)
| ServiceCall (o : protected_op).

Definition obody (o : policy_op) : thread W :=
  match o with
  | PolicyCall pol func current => spawn (execute st l2 cls pol func current)
  | ServiceCall o => zoom guarded set_guarded (pbody st l2 o)
  end.

(** The function of a call and the hooks of its policy are apart. *)
Definition apart_op (o : policy_op) : Prop :=
  match o with
  | PolicyCall pol func _ => (∀ i, apart (func i)) ∧ Forall (λ h, ∀ c, apart (h c)) (hooks pol)
  | ServiceCall _ => True
  end.

Definition coutside (env : world R → world R → Prop) (w w' : W) : Prop :=
  invoked w' = invoked w ∧ poutside env (guarded w) (guarded w').

(** *** Proof rules *)

Context (I : world R → Prop) (delta : world R → world R → Z) (cost : effect → Z).
Context (HA : accounting I delta cost).
(** Which functions may be started, and what is kept about those that were. *)
Context (may : string → Prop) (J : list string → Prop) (HJ : ∀ l name, may name → J l → J (l ++ [name])).

Notation Ic := (λ w : W, I (base (guarded w)) ∧ J (invoked w)).
Notation deltac := (λ w w' : W, delta (base (guarded w)) (base (guarded w'))).
Notation wpc p n Φ := (wp Ic deltac p n Φ).

(** What the service's methods must keep, each on its own. *)
Context (Hadmit : ∀ name, wp I delta (should_allow_with_state name) 0
  (λ m r, m = 0 ∧ match r with inr d => allowed d = true → may name | inl _ => True end)).
Context (Henabled : ∀ name n (Φ : Z → exn + bool → Prop),
  (∀ b : bool, (b = false → may name) → Φ n (inr b)) → wp I delta is_enabled n Φ).
Context (Hpeek : ∀ name, wp I delta (peek_block name) 0
  (λ m r, m = 0 ∧ match r with inr p => p.2 = false → may name | inl _ => True end)).
Context (Hallow : ∀ name, wp I delta (should_allow name) 0 (λ m _, m = 0)).
Context (Hfailure : ∀ name ctx, wp I delta (CBService.record_failure name ctx) 0 (λ m _, m = 0)).
Context (Hsuccess : ∀ name hint, wp I delta (CBService.record_success name hint) 0 (λ m _, m = 0)).
Context (Htrip : ∀ name c n total, wp (λ pw : pworld R X, I (base pw))
  (λ pw pw', delta (base pw) (base pw')) (cascade_trip st l2 name c n total) 0 (λ m _, m = 0)).

Lemma wp_guarded {T} (p : prog (pworld R X) T) n (Φ : Z → T → Prop) :
  wp (λ pw, I (base pw)) (λ pw pw', delta (base pw) (base pw')) p n Φ →
  wpc (zoom guarded set_guarded p) n Φ.
Proof.
  revert n. induction p as [a|C f k IH]; intros n Hp; [done|]. intros w [HI Hj].
  destruct (Hp (guarded w) HI) as [HI' Hk]. simpl. destruct (f (guarded w)) as [g b]. simpl in *.
  split; [by split|]. by apply IH.
Qed.

Lemma wp_served {T} (p : eprog (world R) T) n (Φ : Z → exn + T → Prop) :
  wp I delta p n Φ → wpc (serving (lift p)) n Φ.
Proof. intros Hp. apply wp_guarded. by apply wp_lift. Qed.

Lemma wp_aside {T} (f : W → W * T) n (Φ : Z → exn + T → Prop) :
  (∀ w, base (guarded (f w).1) = base (guarded w) ∧ invoked (f w).1 = invoked w) →
  (∀ a, Φ n (inr a)) → wpc (atomically f) n Φ.
Proof.
  intros Hf HΦ. apply wp_atomically. intros w [HI Hj]. destruct (Hf w) as [Hb Hi]. rewrite Hb, Hi.
  rewrite (acc_ask _ _ _ HA _ HI), Z.add_0_r. by split.
Qed.

Lemma wp_apart_code {T} (p : prog W T) n (Φ : Z → T → Prop) :
  apart p → (∀ a, Φ n a) → wpc p n Φ.
Proof.
  intros Hp HΦ. revert Hp. induction p as [a|C f k IH]; intros Hp; [apply HΦ|]. intros w [HI Hj].
  destruct (Hp w Logic.I) as (_ & [Hb Hi] & Hk). rewrite Hb, Hi.
  rewrite (acc_ask _ _ _ HA _ HI), Z.add_0_r. split; [done|]. by apply IH.
Qed.

Lemma wp_fail_open (p : eprog W ()) n (Φ : Z → exn + () → Prop) :
  wpc p n (λ m _, m = n) → Φ n (inr ()) → wpc (fail_open p) n Φ.
Proof.
  intros Hp HΦ. apply wp_catch. eapply wp_mono; [exact Hp|]. by intros m [e|[]] ->.
Qed.

Lemma wp_look {T} (f : W → T) n (Φ : Z → exn + T → Prop) : (∀ a, Φ n (inr a)) → wpc (look f) n Φ.
Proof. by apply wp_aside. Qed.

Lemma wp_update_scope i f n (Φ : Z → exn + () → Prop) : Φ n (inr ()) → wpc (update_scope i f) n Φ.
Proof. intros HΦ. by apply wp_aside; [|intros []]. Qed.

Lemma wp_request key n (Φ : Z → exn + () → Prop) : Φ n (inr ()) → wpc (record_request_ st l2 key) n Φ.
Proof. intros HΦ. apply wp_fail_open; [|done]. by eapply wp_guarded, wp_write_through. Qed.

Lemma wp_note_attempt i n (Φ : Z → exn + () → Prop) : Φ n (inr ()) → wpc (note_attempt st l2 i) n Φ.
Proof.
  intros HΦ. apply wp_ebind, wp_update_scope, wp_ebind, wp_look. intros [s|]; [by apply wp_request|done].
Qed.

Lemma wp_cascade_observation key ev (Φ : Z → exn + () → Prop) :
  Φ 0 (inr ()) → wpc (record_cascade_observation st l2 key ev) 0 Φ.
Proof.
  intros HΦ. apply wp_fail_open; [|done]. destruct ev.
  - apply wp_ebind, wp_guarded. eapply wp_mono; [by eapply settle_response|]. by intros m [e|r] ->.
  - apply wp_guarded. eapply wp_mono; [by eapply settle_observation|]. by intros m r ->.
Qed.

Lemma wp_notify key ra n (Φ : Z → exn + () → Prop) : Φ n (inr ()) → wpc (notify_cooldown cls key ra) n Φ.
Proof. intros HΦ. unfold notify_cooldown. repeat case_match; [done|done|]. by apply wp_aside; [|intros []]. Qed.

Lemma wp_observe_429 key ra rc ec nc (Φ : Z → exn + () → Prop) :
  Φ 0 (inr ()) → wpc (observe_429 st l2 cls key ra rc ec nc) 0 Φ.
Proof.
  intros HΦ. apply wp_ebind.
  assert (wpc (if nc then notify_cooldown cls key ra else ret ()) 0 Φ) by (destruct nc; [by apply wp_notify|done]).
  destruct rc; [by apply wp_cascade_observation|done].
Qed.

Lemma wp_note_429 i ra subject (Φ : Z → exn + () → Prop) :
  Φ 0 (inr ()) → wpc (note_429 st l2 cls i ra subject) 0 Φ.
Proof.
  intros HΦ. apply wp_ebind, wp_look. intros [s|]; [|done]. case_match; [done|].
  apply wp_ebind, wp_update_scope. by apply wp_observe_429.
Qed.

Lemma wp_observe_rate_limit pol o ra i (Φ : Z → exn + () → Prop) :
  Φ 0 (inr ()) → wpc (observe_rate_limit (B := B) st l2 cls pol o ra i) 0 Φ.
Proof.
  intros HΦ. apply wp_ebind, wp_look. intros s. apply wp_ebind.
  assert (wpc (s <- scope_at i;;
    match s with
    | None => ret ()
    | Some s => if coordination_claimed s then ret ()
                else observe_429 st l2 cls (protected_name pol) ra false true true
    end) 0 Φ) as Hrest.
  { apply wp_ebind, wp_look. intros [s'|]; [|done]. case_match; [done|]. by apply wp_observe_429. }
  destruct s as [s|]; [|done]. case_match; [done|]. by apply wp_note_429.
Qed.

Lemma wp_evaluate_after pol i (Φ : Z → exn + () → Prop) :
  Φ 0 (inr ()) → wpc (evaluate_cascade_after_record (B := B) st l2 pol i) 0 Φ.
Proof.
  intros HΦ. apply wp_ebind, wp_look. intros [s|]; [|done]. case_match; [done|].
  apply wp_fail_open; [|done]. apply wp_ebind, wp_guarded.
  eapply wp_mono; [by eapply settle_evaluate|]. by intros m [e|r] ->.
Qed.

Lemma wp_count_request i b n (Φ : Z → exn + () → Prop) :
  Φ n (inr ()) → wpc (count_call_request st l2 i b) n Φ.
Proof.
  intros HΦ. apply wp_ebind, wp_look. intros [s|]; [|done]. case_match; [by apply wp_note_attempt|done].
Qed.

Lemma wp_feed pol b n (Φ : Z → exn + () → Prop) :
  Φ n (inr ()) → wpc (feed_window (B := B) pol b) n Φ.
Proof. intros HΦ. by apply wp_aside; [|intros []]. Qed.

  Context (pol : cb_policy (R := R) (X := X) (U := U) (A := A) (V := V) (B := B)).
  Context (Hhooks : Forall (λ h, ∀ c, apart (h c)) (hooks pol)).

(** A program that costs nothing, whatever it ends in. *)
Notation free p := (wpc p 0 (λ m _, m = 0)).

Lemma free_hooks c : free (invoke_hooks pol c).
Proof.
  apply wp_peach; [|done]. intros h Hh. apply wp_except.
  apply wp_apart_code; [by apply (proj1 (Forall_forall _ _) Hhooks)|].
  by intros [[e|b]|v].
Qed.

Lemma free_then {T T'} (p : pyprog W A B T) (k : T → pyprog W A B T') :
  free p → (∀ x, free (k x)) → free (pbind p k).
Proof. intros Hp Hk. apply wp_pbind. eapply wp_mono; [exact Hp|]. by intros m [e|x] ->. Qed.

Lemma free_call {T} (p : eprog W T) : free p → free (call p : pyprog W A B T).
Proof. intros Hp. apply wp_call. eapply wp_mono; [exact Hp|]. by intros m [e|x] ->. Qed.

Lemma free_ebind {T T'} (p : eprog W T) (k : T → eprog W T') :
  free p → (∀ x, free (k x)) → free (ebind p k).
Proof. intros Hp Hk. apply wp_ebind. eapply wp_mono; [exact Hp|]. by intros m [e|x] ->. Qed.

Lemma free_recording (p : eprog (world R) ()) b :
  wp I delta p 0 (λ m _, m = 0) → free (_ <- serving (lift p);; feed_window pol b).
Proof. intros Hp. apply free_ebind; [by apply wp_served|]. intros []. by apply wp_feed. Qed.

Lemma free_on_success v d i : free (on_success st l2 cls pol v d i).
Proof.
  unfold on_success. destruct (detect_rate_limit cls (inr v)) as [limited ra]. cbv zeta.
  apply free_then; [apply free_call|intros []; apply free_then; [apply free_hooks|done]].
  apply free_ebind; [by apply wp_count_request|intros []].
  apply free_ebind; [case_match; by apply free_recording|intros []].
  apply free_ebind; [|intros []; by apply wp_evaluate_after].
  destruct limited; [by apply wp_observe_rate_limit|done].
Qed.

Lemma free_on_failure e i : free (on_failure st l2 cls pol e i).
Proof.
  unfold on_failure. cbv zeta. apply free_then; [apply free_call|intros []; apply free_hooks].
  apply free_ebind; [by apply wp_count_request|intros []].
  apply free_ebind; [|intros []; by apply wp_evaluate_after].
  case_match; [|done]. apply free_ebind; [by apply wp_served|intros []].
  apply free_ebind; [by apply wp_feed|intros []].
  destruct (detect_rate_limit cls (inl e)) as [limited ra].
  destruct limited; [by apply wp_observe_rate_limit|done].
Qed.

(** A call that is refused starts nothing. *)
Lemma wp_admit :
  wpc (admit_call pol) 0 (λ m r, m = 0 ∧
    match r with inr (Reject _) => True | inr _ => may (protected_name pol) | inl _ => True end).
Proof.
  unfold admit_call. apply wp_pbind, wp_call, wp_served, (Henabled (protected_name pol)).
  intros on Hon. destruct on; cbn [negb]; [|by split; [|apply Hon]].
  apply wp_pbind. eapply wp_mono; [apply free_hooks|]. intros m [e|[]] ->; [done|].
  apply wp_pbind, wp_call, wp_guarded, (wp_suppressed _ _ _ HA). intros [].
  - apply wp_pbind, wp_call, wp_served. eapply wp_mono; [apply Hpeek|].
    intros m [e|[peek []]] [-> Hmay]; [done| |by split; [|apply Hmay]].
    apply wp_pbind. eapply wp_mono; [apply free_hooks|]. by intros m [e|[]] ->.
  - apply wp_pbind, wp_call, wp_served. eapply wp_mono; [apply Hadmit|].
    intros m [e|d] [-> Hmay]; [done|]. destruct (allowed d); cbn [negb]; [by split; [|apply Hmay]|].
    apply wp_pbind. eapply wp_mono; [apply free_hooks|]. by intros m [e|[]] ->.
Qed.

Lemma free_invoke func scope :
  may (protected_name pol) → apart (func scope) → free (invoke pol func scope).
Proof.
  intros Hmay Hf. apply free_then; [|intros []; by apply wp_apart_code].
  apply free_call, wp_atomically. intros w [HI Hj]. cbn. split; [by split; [|apply HJ]|].
  rewrite (acc_ask _ _ _ HA _ HI). done.
Qed.

Lemma free_execute func current : (∀ i, apart (func i)) → free (execute st l2 cls pol func current).
Proof.
  intros Hf. apply wp_pbind. eapply wp_mono; [apply wp_admit|]. intros m [e|v] [-> Hmay]; [done|].
  destruct v as [|r|d]; [|done|].
  - by apply free_then; [apply free_invoke|].
  - apply free_then; [apply free_call; by apply wp_aside|]. intros i. apply wp_except.
    eapply wp_mono; [apply free_then; [by apply free_invoke|intros x; apply free_on_success]|].
    intros m [[e|b]|r] ->; [|done|done]. by apply free_then; [apply free_on_failure|].
Qed.
End pool.

(** What one method keeps alone, a pool of protected calls keeps together. *)
Record keepers {R X} `{RepositoryLaws R} (st : tracker_settings) (l2 : l2_backend X)
    (I : world R → Prop) (delta : world R → world R → Z) (may : string → Prop) : Prop := {
  keep_admit name : wp I delta (should_allow_with_state name) 0
    (λ m r, m = 0 ∧ match r with inr d => allowed d = true → may name | inl _ => True end);
  keep_enabled name n (Φ : Z → exn + bool → Prop) :
    (∀ b : bool, (b = false → may name) → Φ n (inr b)) → wp I delta is_enabled n Φ;
  keep_peek name : wp I delta (peek_block name) 0
    (λ m r, m = 0 ∧ match r with inr p => p.2 = false → may name | inl _ => True end);
  keep_allow name : wp I delta (should_allow name) 0 (λ m _, m = 0);
  keep_failure name ctx : wp I delta (CBService.record_failure name ctx) 0 (λ m _, m = 0);
  keep_success name hint : wp I delta (CBService.record_success name hint) 0 (λ m _, m = 0);
  keep_trip name c n total : wp (λ pw : pworld R X, I (base pw))
    (λ pw pw', delta (base pw) (base pw')) (cascade_trip st l2 name c n total) 0 (λ m _, m = 0);
}.

Lemma policy_op_settles {R X U A V B} `{RepositoryLaws R} st (l2 : l2_backend X) (cls : classifier A V)
    I delta cost may J (o : policy_op (R := R) (X := X) (U := U) (A := A) (V := V) (B := B)) :
  accounting I delta cost → keepers st l2 I delta may →
  (∀ l name, may name → J l → J (l ++ [name])) → apart_op o →
  match o with ServiceCall (PService o) => settles I delta 0 (body o) | _ => True end →
  settles (λ w, I (base (guarded w)) ∧ J (invoked w)) (λ w w', delta (base (guarded w)) (base (guarded w'))) 0
    (obody st l2 cls o).
Proof.
  intros HA [] HJ Hap Ho. destruct o as [pol func current|o]; cbn [obody].
  - apply settles_spawn. destruct Hap as [Hf Hh]. by eapply (free_execute st l2 cls I delta cost HA may J HJ).
  - apply wp_guarded. by eapply (protected_settles st l2 _ _ _ HA).
Qed.

(** ** Every interleaving *)

(** What the service's methods read and never replace. *)
Definition ambient {R} (w : world R) : Z * CircuitBreakerConfig * emergency_reading :=
  (clock w, config w, emergency w).

Section steady.
  Context {R : Type} `{RepositoryLaws R}.
Notation steady p := (obeys (λ _ : world R, True) (λ w w' : world R, ambient w' = ambient w) p).

Ltac steady_step :=
  cbv beta iota zeta;
  lazymatch goal with
  | |- obeys _ _ (ebind _ _) => apply obeys_ebind; [|intros ?]
  | |- obeys _ _ (catch _ _) => apply obeys_catch; [|intros ?]
  | |- obeys _ _ (for_each _ _) => apply obeys_for_each; intros ?
  | |- obeys _ _ (ret _) => exact Logic.I
  | |- obeys _ _ (raise _) => exact Logic.I
  | |- obeys _ _ (if ?b then _ else _) => destruct b
  | |- obeys _ _ (match ?b with _ => _ end) => destruct b
  | |- obeys _ _ (atomically _) =>
      apply obeys_atomically; intros ? _; split; [done|]; first [done|by case_match]
  | |- obeys _ _ (downstream_refuses _ _) => fail
  | |- obeys _ _ (select_due _) => fail
  | |- obeys _ _ (expire_overrides _ _) => fail
  | |- obeys _ _ (observe_rows _ _) => fail
  | |- obeys _ _ (add_names _ _ _ _ _) => fail
  | |- obeys _ _ ?p => let q := eval red in p in change p with q
  end.
Ltac steady_run := repeat steady_step.

Lemma steady_downstream name l : steady (downstream_refuses name l).
Proof. induction l as [|i l IH]; cbn [downstream_refuses]; steady_run; done. Qed.

Lemma steady_select rows : steady (select_due rows).
Proof. induction rows as [|row rows IH]; cbn [select_due]; steady_run; done. Qed.

Lemma steady_expire now rows : steady (expire_overrides now rows).
Proof. induction rows as [|row rows IH]; cbn [expire_overrides]; steady_run; done. Qed.

Lemma steady_observe epochs rows : steady (observe_rows epochs rows).
Proof. revert epochs. induction rows as [|row rows IH]; intros epochs; cbn [observe_rows]; steady_run; done. Qed.

Lemma steady_names per l c names acc : steady (add_names per l c names acc).
Proof. revert acc. induction names as [|n names IH]; intros acc; cbn [add_names]; steady_run; done. Qed.

Lemma steady_admission name c : steady (evaluate_admission name c).
Proof. steady_run; apply steady_downstream. Qed.

Lemma steady_failure name ctx : steady (CBService.record_failure name ctx).
Proof. steady_run. Qed.

Lemma steady_success name hint : steady (CBService.record_success name hint).
Proof. steady_run. Qed.

Lemma steady_trip name row ctx c wf wt trig : steady (trip_circuit_open name row ctx c wf wt trig).
Proof. steady_run. Qed.

Lemma run_ambient {T} (p : prog (world R) T) w : steady p → ambient (run p w).1 = ambient w.
Proof. intros Hp. apply (run_obeys (λ w w' : world R, ambient w' = ambient w)); [done| |done]. by intros a b c -> ->. Qed.

Lemma run_unoverridden {T} (p : prog (world R) T) name w :
  obeys (λ _, True) (λ w w' : world R, dget (overrides w) name = None → dget (overrides w') name = None) p →
  dget (overrides w) name = None → dget (overrides (run p w).1) name = None.
Proof.
  intros Hp. apply (run_obeys (λ w w' : world R, dget (overrides w) name = None → dget (overrides w') name = None));
    auto.
Qed.

Notation unoverridden n p :=
  (obeys (λ _ : world R, True)
     (λ w w' : world R, dget (overrides w) n = None → dget (overrides w') n = None) p).

Lemma downstream_unoverridden n name l : unoverridden n (downstream_refuses name l).
Proof. induction l as [|i l IH]; cbn [downstream_refuses]; steady_run; done. Qed.

Lemma admit_unoverridden n name : unoverridden n (should_allow_with_state name).
Proof.
  steady_run; try apply downstream_unoverridden; apply obeys_atomically; intros w _; (split; [done|]);
    destruct (dget (overrides w) name); cbn; try done;
    (destruct (decide (name = n)) as [->|]; [by rewrite dget_ddel_eq|by rewrite dget_ddel_ne]).
Qed.

Lemma steady_admit name : steady (should_allow_with_state name).
Proof. steady_run; apply steady_downstream. Qed.

Lemma steady_operation o : automatic o = true → steady (body (R := R) o).
Proof.
  intros Ho. destruct o; try discriminate Ho; unfold body, spawn; (apply obeys_bind; [|done]);
    steady_run; auto using steady_downstream, steady_select, steady_expire, steady_observe, steady_names.
Qed.
End steady.

Section promises.
  Context {R X U A V B : Type} `{RepositoryLaws R}.
  Context (st : tracker_settings) (l2 : l2_backend X) (cls : classifier A V).
Notation W := (cworld R X U A V).
Notation op := (policy_op (R := R) (X := X) (U := U) (A := A) (V := V) (B := B)).

Lemma settle_keepers tracked from to sure :
  from ≠ to → keepers st l2 (books_ok (R := R) sure) (debt (R := R) tracked from to sure) (λ _, True).
Proof.
  intros Hne. pose proof (events_accounting tracked from to Hne sure) as HA. split.
  - intros k. eapply wp_mono; [by apply settle_admit|]. intros m r ->. split; [done|]. by destruct r.
  - intros k n Φ HΦ. apply (wp_ask _ _ _ HA). intros b. by apply HΦ.
  - intros k. unfold peek_block. apply wp_ebind, (wp_create _ _ _ HA). intros row.
    by apply wp_ebind, (wp_ask _ _ _ HA).
  - intros k. by apply settle_should_allow.
  - intros k ctx. by apply settle_failure.
  - intros k hint. by apply settle_success.
  - intros k c n total. apply (wp_cascade_trip st l2 _ _ _ HA). intros. by apply settle_trip.
Qed.

(** C2: Exactly-once announcement reaches the protected call: in every interleaving
    of calls through circuit-breaker policies, of the service's other calls (those
    of the theorem for the service: no extension of an override, no cell
    reconciliation), of operators and of protection calls, whatever the protected
    functions return, raise or are interrupted by, each transition of a circuit to
    OPEN or CLOSED (to HALF_OPEN too when no recovery sweep is among the calls) has
    been handed to the event bus exactly once when all calls have returned: the
    transitions equal the events the bus took plus those it refused, and a bus that
    stays up took them all.  The protected functions and the
    policy's hooks may do anything of their own, but do not themselves reach into
    the breaker: they change neither the service's own state nor the record of
    started functions ([apart_op]), so protected calls nested in a
    protected function are not covered. *)
Theorem protected_calls_announced name (from to : CircuitBreakerStateEnum) up (ops : list op) (w : W) d ts w' :
  from ≠ to →
  to ≠ HALF_OPEN ∨ Forall (λ o, match o with ServiceCall (PService o) => sweeps o = false | _ => True end) ops →
  Forall apart_op ops → world_ok (base (guarded w)) →
  (up = true → bus (base (guarded w)) = BusUp) →
  exec (coutside (outside_with up))
    (λ w w', transitions name from to (base (guarded w)) (base (guarded w')))
    (obody st l2 cls <$> ops, w) d (ts, w') →
  Forall finished ts →
  books_closed name from to up (base (guarded w)) (base (guarded w')) d ∧ world_ok (base (guarded w')).
Proof.
  intros Hne Hops Hap Hw Hbus Hexec Hfin.
  assert (value from ≠ value to) as Hv by (intros Heq%value_inj; done).
  destruct (pool_closes_books (coutside (outside_with up)) (λ w : W, base (guarded w))
    (λ sure (w : W), books_ok sure (base (guarded w)) ∧ True) name from to up
    (obody st l2 cls <$> ops) w d ts w') as [Hd [[Hw' _] _]]; [|done..].
  intros sure Hsure. pose proof (events_accounting name (value from) (value to) Hv sure) as HA.
  split; [|split; [split; [by split; auto|done]|]].
  - intros v v' [Hok _] [_ [_ [-> |[Ho Hb]]]]; [split; [done|by apply (acc_ask _ _ _ HA)]|].
    destruct (outside_free name _ _ Hv sure (base (guarded v)) (base (guarded v')) Hok) as [? ?];
      [by split; auto|done].
  - apply Forall_fmap, Forall_forall. intros o Ho.
    apply (policy_op_settles st l2 cls (books_ok sure) (debt name (value from) (value to) sure)
      _ (λ _, True) (λ _, True) _ HA (settle_keepers name _ _ sure Hv));
      [done|by apply (proj1 (Forall_forall _ _) Hap)|].
    destruct o as [|[]]; try done. apply operation_settles; [done|].
    destruct Hops as [Hto|Hops]; [left; intros Heq; by apply Hto, value_inj|right].
    by apply (proj1 (Forall_forall _ _) Hops _ Ho).
Qed.

(** *** A blocked circuit's function is not started *)

Context (blocked : string) (v : cb_view) (Hopen : v_state v = value OPEN).

Definition shut (w : world R) : Prop := in_force blocked v w ∧ enabled (config w) = true.

Lemma shut_frame {T} (p : prog (world R) T) n (Φ : Z → T → Prop) :
  obeys (λ _, True) (λ w w' : world R, ambient w' = ambient w) p →
  wp (in_force blocked v) (λ _ _, 0) p n Φ → wp shut (λ _ _, 0) p n Φ.
Proof. apply wp_frame. intros w w' Hw [= _ -> _]. done. Qed.

Lemma shut_accounting : accounting shut (λ _ _, 0) (λ _, 0).
Proof.
  destruct (block_accounting blocked v) as [].
  split; intros; try done; [by destruct e|].
  match goal with Hs : shut _ |- _ => destruct Hs as [Hs ?] end. split; [split; [|done]|done].
  by apply acc_create.
Qed.

Lemma shut_automatic o : automatic o = true → settles shut (λ _ _, 0) 0 (body o).
Proof using Hopen. intros Ho. apply shut_frame; [by apply steady_operation|by apply block_operation]. Qed.

Lemma shut_admit name :
  wp shut (λ _ _, 0) (should_allow_with_state name) 0
    (λ m r, m = 0 ∧ match r with inr d => allowed d = true → name ≠ blocked | inl _ => True end).
Proof using Hopen.
  pose proof shut_accounting as HA. apply wp_ebind, (wp_ask_val _ _ _ HA). intros w [_ ->]. cbn [negb].
  apply wp_ebind, (quiet_config _ _ _ HA). intros [e|c]; [done|].
  apply shut_frame; [apply steady_admission|].
  eapply wp_mono; [by apply block_admission|]. intros m r [-> Hr]. split; [done|].
  destruct r as [e|d]; [done|]. intros Hd ->. rewrite (Hr eq_refl) in Hd. done.
Qed.

Lemma shut_peek name :
  wp shut (λ _ _, 0) (peek_block name) 0
    (λ m r, m = 0 ∧ match r with inr p => p.2 = false → name ≠ blocked | inl _ => True end).
Proof using Hopen.
  apply shut_frame; [repeat (apply obeys_ebind; [|intros ?]); try done; apply obeys_atomically; intros w _;
    split; [done|]; by try case_match|].
  unfold peek_block. apply wp_ebind, (wpb_create blocked v). intros row Hrow.
  apply wp_ebind, (wpb_now blocked v). intros t Ht. apply wp_ret_e. split; [done|]. intros Hp ->.
  destruct (block_row v Hopen row t (Hrow eq_refl) Ht) as [_ Hb]. cbn in Hp. congruence.
Qed.

(** The cascade's trip reads the configuration and never replaces it. *)
Lemma steady_lift {T} (p : eprog (world R) T) :
  obeys (λ _, True) (λ w w' : world R, ambient w' = ambient w) p →
  obeys (λ _, True) (λ pw pw' : pworld R X, ambient (base pw') = ambient (base pw)) (lift p).
Proof. intros Hp. by apply (obeys_zoom (V := pworld R X) base set_base) in Hp. Qed.

Lemma steady_beside {T} (f : pworld R X → pworld R X * T) :
  (∀ pw, base (f pw).1 = base pw) →
  obeys (λ _, True) (λ pw pw' : pworld R X, ambient (base pw') = ambient (base pw)) (atomically f).
Proof. intros Hf. apply obeys_atomically. intros pw _. by rewrite Hf. Qed.

Lemma steady_increment name :
  obeys (λ _, True) (λ pw pw' : pworld R X, ambient (base pw') = ambient (base pw))
    (increment_backoff st l2 name).
Proof.
  unfold increment_backoff.
  apply obeys_ebind; [by apply steady_beside|intros level].
  apply obeys_ebind; [apply steady_beside; intros pw; cbn; by repeat case_match|intros []; [|done]].
  apply obeys_ebind; [apply steady_beside; intros pw; cbn; by case_match|done].
Qed.

Lemma steady_cascade name c n total :
  obeys (λ _, True) (λ pw pw' : pworld R X, ambient (base pw') = ambient (base pw))
    (cascade_trip st l2 name c n total).
Proof.
  unfold cascade_trip.
  apply obeys_ebind; [apply steady_lift, obeys_atomically; intros w _; by case_match|intros row].
  apply obeys_ebind; [by apply steady_lift, obeys_atomically|intros ev].
  apply obeys_ebind; [by apply steady_lift, obeys_atomically|intros now].
  case_match; [done|]. apply obeys_ebind; [by apply steady_beside|intros []; [done|]].
  apply obeys_ebind; [by apply steady_lift, obeys_atomically|intros []; [|done]].
  apply obeys_ebind; [apply steady_lift, steady_trip|intros att].
  case_match; [done|]. by apply obeys_ebind; [apply steady_increment|].
Qed.

Lemma shut_trip name c n total :
  wp (λ pw : pworld R X, shut (base pw)) (λ _ _, 0) (cascade_trip st l2 name c n total) 0 (λ m _, m = 0).
Proof using Hopen.
  eapply (wp_frame (λ pw : pworld R X, in_force blocked v (base pw)) (λ pw, enabled (config (base pw)) = true));
    [|apply steady_cascade|by apply trip_blocked].
  intros pw pw' Hpw [= _ Heq _]. cbv beta in *. by rewrite Heq.
Qed.

Lemma shut_keepers : keepers st l2 shut (λ _ _, 0) (λ name, name ≠ blocked).
Proof using Hopen.
  pose proof shut_accounting as HA. split.
  - apply shut_admit.
  - intros k n Φ HΦ. apply (wp_ask_val _ _ _ HA). intros w [_ ->]. by apply HΦ.
  - apply shut_peek.
  - intros k. apply settles_spawn_inv. by apply (shut_automatic (OpShouldAllow k)).
  - intros k ctx. apply settles_spawn_inv. by apply (shut_automatic (OpFailure k ctx)).
  - intros k hint. apply settles_spawn_inv. by apply (shut_automatic (OpSuccess k hint)).
  - intros k c n total. apply shut_trip.
Qed.

(** C5: An operator's block stops the protected calls: while a block placed on an
    enabled breaker has not expired, in no interleaving of calls through policies
    (normal or observe-only), automatic calls and protection calls that begin
    under it is the function of a call to the blocked service started, and the
    blocked row does not change. *)
Theorem blocked_function_never_starts (ops : list op) (w : W) d ts w' :
  Forall (λ o, match o with ServiceCall o => unattended o = true | _ => True end) ops →
  Forall apart_op ops → world_ok (base (guarded w)) →
  vw (repo (base (guarded w))) blocked = v → v_pinned (clock (base (guarded w))) v = true →
  enabled (config (base (guarded w))) = true →
  exec (coutside (λ w w', before_expiry v w w' ∧ enabled (config w') = true)) (λ _ _, 0)
    (obody st l2 cls <$> ops, w) d (ts, w') →
  filter (λ name, name = blocked) (invoked w') = filter (λ name, name = blocked) (invoked w) ∧
  vw (repo (base (guarded w'))) blocked = v.
Proof using Hopen.
  intros Hops Hap Hw Hv Hp Hen Hexec.
  set (J := λ l : list string, filter (λ name, name = blocked) l = filter (λ name, name = blocked) (invoked w)).
  enough (shut (base (guarded w')) ∧ J (invoked w')) as [[(_ & Hv' & _) _] Hj] by done.
  eapply (exec_invariant (coutside (λ w w', before_expiry v w w' ∧ enabled (config w') = true))
    (λ w : W, shut (base (guarded w)) ∧ J (invoked w))); [| | |exact Hexec].
  - intros u u' [Hu Hj] [Hi [_ [-> |[[Ho Hp'] Hen']]]]; [by rewrite Hi|]. rewrite Hi. split; [|done].
    split; [|done]. destruct Hu as [(? & ? & _) _]. by destruct Ho.
  - by split.
  - apply Forall_fmap, Forall_forall. intros o Ho.
    pose proof (proj1 (Forall_forall _ _) Hops o Ho) as Hun.
    apply (policy_op_settles st l2 cls shut (λ _ _, 0) (λ _, 0) (λ name, name ≠ blocked) J o
      shut_accounting shut_keepers); [|by apply (proj1 (Forall_forall _ _) Hap)|].
    + intros l name Hne Hl. unfold J. rewrite filter_app, filter_cons_False, app_nil_r by done. exact Hl.
    + destruct o as [|[]]; try done. by apply shut_automatic.
Qed.
End promises.

(** ** One protected call on its own *)

(** The row of [name] after an outcome was recorded as a failure, as a success or
    not at all, from the row [v] the admission left in the world [wa]. *)
Definition row_rule {R} (name : string) (wa : world R) (v : cb_view) (failure : option bool) : cb_view :=
  let c := config wa in
  let locked := is_lockdown (emergency wa) in
  match failure with
  | Some true =>
      failure_rule (clock wa) c locked
        (OutcomeWindow.read (window_after_failure (window wa) name (v_state v) (sliding_window_size c)) name) v
  | Some false => success_rule (clock wa) c locked v
  | None => v
  end.

Section alone.
  Context {R X U A V B : Type} `{RepositoryLaws R}.
  Context (st : tracker_settings) (l2 : l2_backend X) (cls : classifier A V).
  Context (pol : cb_policy (R := R) (X := X) (U := U) (A := A) (V := V) (B := B)).
Notation W := (cworld R X U A V).
Notation name := (protected_name pol).

(** A function of the application's state, and a program that is one. *)
Definition app_call (f : U → U * (raised A B + V)) : option nat → pyprog W A B V :=
  λ _, act (λ w, let '(u, r) := f (user w) in (set_user w u, r)).

Definition acts_as (func : option nat → pyprog W A B V) (f : U → U * (raised A B + V)) : Prop :=
  ∀ i w, run (func i) w = (set_user w (f (user w)).1, (f (user w)).2).

Lemma app_call_acts f : acts_as (app_call f) f.
Proof. intros i w. unfold app_call. rewrite run_act. by destruct (f (user w)). Qed.

(** How a call's outcome is recorded: [Some true] as a failure. *)
Definition recorded (r : raised A B + V) : option bool :=
  match r with
  | inr v => Some (match response_status cls v with
                   | Some s => bool_decide (s ∈ failure_status_codes cls) | None => false end)
  | inl (Exc e) => if is_failure cls pol e then Some true else None
  | inl (Base _) => None
  end.

Definition not_rate_limited (r : raised A B + V) : Prop :=
  match r with
  | inr v => (detect_rate_limit cls (inr v)).1 = false
  | inl (Exc e) => (detect_rate_limit cls (inl e)).1 = false
  | inl (Base _) => True
  end.

Lemma run_served {T} (p : eprog (world R) T) (w : W) :
  run (serving (lift p)) w =
  (set_guarded w (set_base (guarded w) (run p (base (guarded w))).1), (run p (base (guarded w))).2).
Proof.
  unfold serving. rewrite (run_zoom guarded set_guarded); [|done|done|by intros []].
  by rewrite run_lift.
Qed.

Lemma run_served_ask {T} (f : world R → T) (w : W) :
  run (serving (lift (ask f))) w = (w, inr (f (base (guarded w)))).
Proof. rewrite run_served, run_ask. by destruct w as [[]]. Qed.

Lemma run_suppressed (w : W) :
  run (serving intervention_suppressed) w = (w, inr (observe_only (guarded w))).
Proof.
  unfold serving, intervention_suppressed. rewrite (run_zoom guarded set_guarded); [|done|done|by intros []].
  rewrite run_atomically. by destruct w as [[]].
Qed.

(** Bookkeeping about requests shows in the tracker and in the scope only. *)
Definition only_counts (i : nat) (w w' : W) : Prop :=
  base (guarded w') = base (guarded w) ∧ user w' = user w ∧ invoked w' = invoked w ∧
  call_outcomes w' = call_outcomes w ∧ observe_only (guarded w') = observe_only (guarded w) ∧
  rate_limited <$> (scopes w' !! i) = rate_limited <$> (scopes w !! i).

Lemma run_fail_open (p : eprog W ()) w : run (fail_open p) w = ((run p w).1, inr ()).
Proof. unfold fail_open. rewrite run_catch. by destruct (run p w) as [w' [e|[]]]. Qed.

Lemma request_only_counts i key (w : W) :
  ∃ w', run (record_request_ st l2 key) w = (w', inr ()) ∧ only_counts i w w'.
Proof.
  unfold record_request_. rewrite run_fail_open. eexists. split; [done|]. unfold serving.
  rewrite (run_zoom guarded set_guarded); [|done|done|by intros []]. cbn [fst].
  assert (base (run (CBProtection.record_request st l2 key) (guarded w)).1 = base (guarded w) ∧
          observe_only (run (CBProtection.record_request st l2 key) (guarded w)).1 = observe_only (guarded w)) as [Hb Ho].
  { apply (run_obeys (λ pw pw', base pw' = base pw ∧ observe_only pw' = observe_only pw)); [done| |].
    { intros a b c [-> ->] [-> ->]. done. }
    unfold CBProtection.record_request, write_through, tracking, connected, remote.
    apply obeys_ebind; [by apply obeys_atomically|intros []].
    apply obeys_ebind; [apply obeys_atomically; intros pw _; by repeat case_match|intros []; [|done]].
    apply obeys_ebind; [apply obeys_atomically; intros pw _; by case_match|done]. }
  unfold only_counts. cbn. by rewrite Hb, Ho.
Qed.

Lemma count_only_counts i b (w : W) :
  ∃ w', run (count_call_request st l2 i b) w = (w', inr ()) ∧ only_counts i w w'.
Proof.
  unfold count_call_request, scope_at, look. rewrite run_ebind, run_atomically. cbn [fst snd].
  destruct (scopes w !! i) as [s|]; [|by exists w].
  destruct ((attempts s =? 0) && b); [|by exists w].
  unfold note_attempt, update_scope, scope_at, look. rewrite run_ebind, run_atomically, run_ebind, run_atomically.
  cbn [fst snd]. match goal with |- context [set_scopes w ?l] => set (w1 := set_scopes w l) end.
  assert (Hs : only_counts i w w1).
  { unfold only_counts, w1. cbn. split_and!; [done..|]. rewrite list_lookup_alter, decide_True by done.
    by destruct (scopes w !! i). }
  destruct (scopes w1 !! i) as [s'|]; [|by exists w1].
  destruct (request_only_counts i (breaker_key s') w1) as (w2 & Hr & H2). exists w2. split; [exact Hr|].
  destruct Hs as (E1 & E2 & E3 & E4 & E5 & E6), H2 as (F1 & F2 & F3 & F4 & F5 & F6).
  unfold only_counts. by rewrite F1, F2, F3, F4, F5, F6.
Qed.

(** The state a call leaves: the breaker's world, the function's, and the rest. *)
Definition leaves_call (w w' : W) (b : world R) (failure : option bool) : Prop :=
  base (guarded w') = b ∧ user w' = user w ∧ invoked w' = invoked w ∧
  call_outcomes w' =
    match failure with
    | Some x => record_call_outcome (call_outcomes w) (clock (base (guarded w))) (outcome_key pol) x
    | None => call_outcomes w
    end.

Lemma run_evaluate_nothing i (w : W) :
  rate_limited <$> (scopes w !! i) = Some 0 →
  run (evaluate_cascade_after_record st l2 pol i) w = (w, inr ()).
Proof.
  intros Hs. unfold evaluate_cascade_after_record, scope_at, look. rewrite run_ebind, run_atomically.
  cbn [fst snd]. destruct (scopes w !! i) as [s|]; [|done]. simplify_eq/=. by rewrite Hs.
Qed.

(** Recording through [p] and feeding the five-minute window, once the request
    was counted; the success and the failure path nest it differently. *)
Lemma run_recording i c (p : eprog (world R) ()) failure (w : W) b :
  rate_limited <$> (scopes w !! i) = Some 0 → run p (base (guarded w)) = (b, inr ()) → clock b = clock (base (guarded w)) →
  ∃ w', run (_ <- count_call_request st l2 i c;;
             _ <- (_ <- serving (lift p);; feed_window pol failure);; _ <- ret ();;
             evaluate_cascade_after_record st l2 pol i) w = (w', inr ()) ∧
        run (_ <- count_call_request st l2 i c;;
             _ <- (_ <- serving (lift p);; _ <- feed_window pol failure;; ret ());;
             evaluate_cascade_after_record st l2 pol i) w = (w', inr ()) ∧
        leaves_call w w' b (Some failure).
Proof.
  intros Hs Hp Hclk. destruct (count_only_counts i c w) as (w1 & Hr & E1 & E2 & E3 & E4 & E5 & E6).
  assert (Hfed : ∀ w1', run (feed_window pol failure) w1' =
    (CWorld (guarded w1') (record_call_outcome (call_outcomes w1') (clock (base (guarded w1'))) (outcome_key pol) failure)
       (scopes w1') (cooldowns w1') (user w1') (invoked w1'), inr ())) by (intros; apply run_atomically).
  set (g := set_base (guarded w1) b).
  exists (CWorld g (record_call_outcome (call_outcomes w1) (clock b) (outcome_key pol) failure)
            (scopes w1) (cooldowns w1) (user w1) (invoked w1)).
  assert (Hsv : run (serving (lift p)) w1 = (set_guarded w1 g, inr ())) by (by rewrite run_served, E1, Hp).
  split_and!.
  - rewrite run_ebind, Hr, run_ebind, run_ebind, Hsv, Hfed, run_ebind, run_ret_e.
    by rewrite run_evaluate_nothing by (cbn; by rewrite E6).
  - rewrite run_ebind, Hr, run_ebind, run_ebind, Hsv, run_ebind, Hfed, run_ret_e.
    by rewrite run_evaluate_nothing by (cbn; by rewrite E6).
  - unfold leaves_call. cbn. by rewrite E2, E3, E4, Hclk.
Qed.

Lemma run_not_recording i c (w : W) :
  rate_limited <$> (scopes w !! i) = Some 0 →
  ∃ w', run (_ <- count_call_request st l2 i c;; _ <- ret ();;
             evaluate_cascade_after_record st l2 pol i) w = (w', inr ()) ∧
        leaves_call w w' (base (guarded w)) None.
Proof.
  intros Hs. destruct (count_only_counts i c w) as (w1 & Hr & E1 & E2 & E3 & E4 & E5 & E6).
  rewrite run_ebind, Hr, run_ebind, run_ret_e, run_evaluate_nothing by (by rewrite E6).
  eexists. split; [done|]. unfold leaves_call. by rewrite E1, E2, E3, E4.
Qed.

Lemma run_no_hooks c (w : W) : hooks pol = [] → run (invoke_hooks pol c) w = (w, inr ()).
Proof. unfold invoke_hooks. by intros ->. Qed.

(** What recording the outcome [r] does to the breaker's world. *)
Definition record_program (r : raised A B + V) (d : CircuitBreakerDecision) : eprog (world R) () :=
  match r, recorded r with
  | inr v, Some true => CBService.record_failure name
      [("error", http_text (response_status cls v)); ("type", "response_status")]
  | inl (Exc e), Some true => CBService.record_failure name
      [("error", error_text cls e); ("type", error_type cls e)]
  | _, Some false => CBService.record_success name (Some (hint_of d))
  | _, _ => ret ()
  end.

Lemma run_after r d i (w : W) b :
  hooks pol = [] → not_rate_limited r → rate_limited <$> (scopes w !! i) = Some 0 →
  run (record_program r d) (base (guarded w)) = (b, inr ()) → clock b = clock (base (guarded w)) →
  ∃ w', run (match r with
             | inr v => on_success st l2 cls pol v d i
             | inl (Exc e) => let! _ := on_failure st l2 cls pol e i in praise e
             | inl (Base x) => Ret (inl (Base x))
             end) w = (w', match r with inr v => inr (direct_result v) | inl e => inl e end) ∧
        leaves_call w w' b (recorded r).
Proof.
  intros Hh Hnl Hs Hp Hclk. destruct r as [[e|x]|v].
  - cbn in Hnl, Hp. unfold on_failure, record_program, recorded in *. cbv zeta.
    destruct (detect_rate_limit cls (inl e)) as [limited ra]. cbn in Hnl. subst limited.
    destruct (is_failure cls pol e).
    + destruct (run_recording i (negb (is_rate_limit_deferral e)) _ true w b Hs Hp Hclk) as (w' & _ & Hr & Hl).
      exists w'. split; [|exact Hl]. by rewrite !run_pbind, run_call, Hr, run_no_hooks.
    + cbn in Hp. injection Hp as <-.
      destruct (run_not_recording i (negb (is_rate_limit_deferral e)) w Hs) as (w' & Hr & Hl).
      exists w'. split; [|exact Hl]. by rewrite !run_pbind, run_call, Hr, run_no_hooks.
  - cbn in Hp. injection Hp as <-. by exists w.
  - cbn in Hnl. unfold on_success, record_program, recorded in *. cbv zeta.
    destruct (detect_rate_limit cls (inr v)) as [limited ra]. cbn in Hnl. subst limited. rewrite orb_false_r.
    destruct (match response_status cls v with Some _ => _ | None => _ end) as [|];
      [destruct (run_recording i true _ true w b Hs Hp Hclk) as (w' & Hr & _ & Hl)
      |destruct (run_recording i true _ false w b Hs Hp Hclk) as (w' & Hr & _ & Hl)];
      exists w'; (split; [|exact Hl]); by rewrite !run_pbind, run_call, Hr, run_pbind, run_no_hooks.
Qed.

(** The breaker's row after a call that ended in [r]. *)
Definition call_rule (wa : world R) (v : cb_view) (r : raised A B + V) : cb_view :=
  row_rule name wa v (recorded r).

Lemma leaves_record r d (wa : world R) :
  r_ok (repo wa) → enabled (config wa) = true → dget (overrides wa) name = None → present (repo wa) name →
  (state_is (decision_state d) CLOSED = true → view (decision_state d) = vw (repo wa) name) →
  ∃ wb, run (record_program r d) wa = (wb, inr ()) ∧ clock wb = clock wa ∧ r_ok (repo wb) ∧
    changes (repo wa) (repo wb) name (call_rule wa (vw (repo wa) name) r).
Proof.
  intros Hok Hen Hov Hpr Hview.
  assert (Heff : effective wa name = config wa) by (unfold effective; by rewrite Hov).
  assert (Hf : ∀ ctx, ∃ wb, run (CBService.record_failure name ctx) wa = (wb, inr ()) ∧ clock wb = clock wa ∧
    r_ok (repo wb) ∧ changes (repo wa) (repo wb) name
      (failure_rule (clock wa) (config wa) (is_lockdown (emergency wa))
        (OutcomeWindow.read (window_after_failure (window wa) name (v_state (vw (repo wa) name))
           (sliding_window_size (config wa))) name) (vw (repo wa) name))).
  { intros ctx. destruct (leaves_record_failure name ctx wa Hok Hen) as (wb & [] & Hr & _ & Hb & Hc).
    rewrite Heff in Hc. exists wb. split_and!; [done| |done|done].
    pose proof (run_ambient _ wa (steady_failure name ctx)) as Ha. rewrite Hr in Ha. by injection Ha. }
  assert (Hsu : ∃ wb, run (CBService.record_success name (Some (hint_of d))) wa = (wb, inr ()) ∧ clock wb = clock wa ∧
    r_ok (repo wb) ∧ changes (repo wa) (repo wb) name
      (success_rule (clock wa) (config wa) (is_lockdown (emergency wa)) (vw (repo wa) name))).
  { destruct (leaves_record_success name (Some (hint_of d)) wa Hok Hen) as (wb & [] & Hr & _ & Hb & Hc).
    - by left.
    - intros h [= <-]. exact Hview.
    - rewrite Heff in Hc. exists wb. split_and!; [done| |done|done].
      pose proof (run_ambient _ wa (steady_success name (Some (hint_of d)))) as Ha. rewrite Hr in Ha. by injection Ha. }
  assert (Hn : ∃ wb, run (ret () : eprog (world R) ()) wa = (wb, inr ()) ∧ clock wb = clock wa ∧ r_ok (repo wb) ∧
    changes (repo wa) (repo wb) name (vw (repo wa) name)).
  { exists wa. split_and!; [done|done|done|]. intros n. case_decide; subst; [by apply seen_present|done]. }
  unfold record_program, call_rule, row_rule. destruct r as [[e|x]|v]; cbn; repeat case_match; eauto.
Qed.

Lemma protected_call_leaves func f current (w : W) :
  let b := base (guarded w) in
  let now := clock b in
  let r := (f (user w)).2 in
  acts_as func f → hooks pol = [] → r_ok (repo b) → enabled (config b) = true → observe_only (guarded w) = false →
  Forall (λ chk, chk name ≠ Some false) (downstream_checkers b) → dget (overrides b) name = None →
  not_rate_limited r →
  ∃ wa d w',
    let '(ok, v1) := admission_rule now (config b) (is_lockdown (emergency b)) (vw (repo b) name) in
    run (should_allow_with_state name) b = (wa, inr d) ∧ allowed d = ok ∧ ambient wa = ambient b ∧
    run (execute st l2 cls pol func current) w =
      (w', if ok then match r with inr x => inr (direct_result x) | inl e => inl e end
           else inr (open_rejection pol (state (decision_state d)))) ∧
    (∀ k, vw (repo (base (guarded w'))) k =
       if decide (k = name) then if ok then call_rule wa v1 r else v1 else vw (repo b) k) ∧
    user w' = (if ok then (f (user w)).1 else user w) ∧
    invoked w' = (if ok then invoked w ++ [name] else invoked w) ∧
    call_outcomes w' =
      match (if ok then recorded r else None) with
      | Some x => record_call_outcome (call_outcomes w) now (outcome_key pol) x
      | None => call_outcomes w
      end.
Proof.
  intros b now r Hfunc Hh Hok Hen Hobs Hchk Hov Hnl.
  destruct (f (user w)) as [u res] eqn:Ef. cbn [fst snd] in *. subst r.
  assert (Heff : effective b name = config b) by (unfold effective; by rewrite Hov).
  pose proof (leaves_admit name b Hok Hen Hchk) as Ha. rewrite Heff in Ha. fold now in Ha.
  destruct (admission_rule now (config b) (is_lockdown (emergency b)) (vw (repo b) name)) as [ok v1].
  destruct Ha as (wa & d & Hrun & [Hd Hview] & Hoka & Hca).
  pose proof (run_ambient _ b (steady_admit name)) as Hamb. rewrite Hrun in Hamb. cbn [fst] in Hamb.
  pose proof (run_unoverridden _ name b (admit_unoverridden name name) Hov) as Hova. rewrite Hrun in Hova.
  pose proof Hamb as [= Hclk Hcfg Hem]. exists wa, d.
  set (w1 := set_guarded w (set_base (guarded w) wa)).
  assert (Hadmit : run (admit_call pol) w =
    (w1, inr (if ok then Proceed d else Reject (open_rejection pol (state (decision_state d)))))).
  { unfold admit_call, is_enabled. rewrite run_pbind, run_call, run_served_ask. fold b. rewrite Hen. cbn [negb].
    rewrite run_pbind, run_no_hooks by done. rewrite run_pbind, run_call.
    rewrite run_suppressed, Hobs, run_pbind, run_call, run_served. fold b. rewrite Hrun. cbn [fst snd]. fold w1. rewrite Hd. destruct ok; cbn [negb]; [done|].
    by rewrite run_pbind, run_no_hooks. }
  assert (Hrow : vw (repo wa) name = v1) by (by apply (changes_eq _ _ _ _ Hca)).
  unfold execute. rewrite run_pbind, Hadmit. destruct ok.
  2:{ exists w1. split_and!; [done|done|done|done| |done|done|done]. intros k. cbn.
      case_decide as Hk; [by subst|by apply (changes_ne _ _ _ _ _ Hca)]. }
  set (i := length (scopes w1)).
  set (w2 := CWorld (guarded w1) (call_outcomes w1) (scopes w1 ++ [fresh_scope name (is_failure cls pol)])
    (cooldowns w1) u (invoked w1 ++ [name])).
  destruct (leaves_record res d wa Hoka) as (wb & Hrec & Hclkb & Hokb & Hcb);
    [by rewrite Hcfg|done|by eapply changes_present|by rewrite Hrow|].
  destruct (run_after res d i w2 wb) as (w' & Hafter & Hb & Hu & Hi & Hco);
    [done|done| |exact Hrec|done|].
  { unfold w2, i. cbn. rewrite lookup_app_r, Nat.sub_diag by done. done. }
  exists w'. split_and!; [done|done|done| | |exact Hu|exact Hi|].
  - rewrite run_pbind, run_call. unfold open_scope. rewrite run_atomically. cbn [fst snd]. fold i.
    rewrite run_except, run_pbind. unfold invoke. rewrite run_pbind, run_call, run_atomically. cbn [fst snd].
    rewrite Hfunc. cbn -[w1]. change (user w1) with (user w). rewrite Ef. cbn -[w1].
    change (set_user _ u) with w2. destruct res as [[e|x]|v]; [exact Hafter|exact Hafter|].
    by rewrite Hafter.
  - intros k. rewrite Hb. rewrite Hrow in Hcb. case_decide as Hk.
    + subst k. by apply (changes_eq _ _ _ _ Hcb).
    + rewrite (changes_ne _ _ _ _ _ Hcb) by done. by apply (changes_ne _ _ _ _ _ Hca).
  - rewrite Hco. cbn. by rewrite Hclk.
Qed.
(** C6: A protected call follows its rule. Run on its own, on an enabled breaker that
    is not in observe-only mode, through a policy without hooks, with no threshold
    override for its name, no downstream checker that refuses it and a result that
    carries no rate limit, for any repository that follows the laws and any
    function of the application, the policy asks for admission; a refused call is
    answered with CircuitBreakerOpenError and the function is not started; an
    admitted one starts the function exactly once, hands on what it returned or
    raised, and records it: the row becomes what the failure or the success rule
    gives from the admission's row, unchanged for an error that does not count or
    an interrupt, every other row is left alone, and the five-minute window counts
    the call exactly when the breaker does. *)
Theorem protected_call_follows_rule func f current (w : W) :
  let b := base (guarded w) in
  let now := clock b in
  let r := (f (user w)).2 in
  acts_as func f → hooks pol = [] → r_ok (repo b) → enabled (config b) = true → observe_only (guarded w) = false →
  Forall (λ chk, chk name ≠ Some false) (downstream_checkers b) → dget (overrides b) name = None →
  not_rate_limited r →
  ∃ wa d w',
    let '(ok, v1) := admission_rule now (config b) (is_lockdown (emergency b)) (vw (repo b) name) in
    run (should_allow_with_state name) b = (wa, inr d) ∧ allowed d = ok ∧ ambient wa = ambient b ∧
    run (execute st l2 cls pol func current) w =
      (w', if ok then match r with inr x => inr (direct_result x) | inl e => inl e end
           else inr (open_rejection pol (state (decision_state d)))) ∧
    (∀ k, vw (repo (base (guarded w'))) k =
       if decide (k = name) then if ok then call_rule wa v1 r else v1 else vw (repo b) k) ∧
    user w' = (if ok then (f (user w)).1 else user w) ∧
    invoked w' = (if ok then invoked w ++ [name] else invoked w) ∧
    call_outcomes w' =
      match (if ok then recorded r else None) with
      | Some x => record_call_outcome (call_outcomes w) now (outcome_key pol) x
      | None => call_outcomes w
      end.
Proof. apply protected_call_leaves. Qed.
End alone.

(** ** Witnesses *)

(** Responses are numbers: 200 is fine, 503 a failure status; application errors
    are strings. *)
Definition plain_classifier : classifier string Z :=
  Classifier (λ _, (false, None)) Some [500; 502; 503; 504] (λ _, false) (λ _ _, false) true
    (λ _, "error") (λ _, "Exception").

Notation memory := InMemoryCircuitBreakerStateRepository.

Definition plain_policy (name : string) :
    cb_policy (R := memory) (X := unit) (U := Z) (A := string) (V := Z) (B := unit) :=
  CBPolicy name (λ _, true) (λ _, false) [] (Some name).

Definition quiet_process (b : world memory) : cworld memory unit Z string Z :=
  CWorld (PWorld b (HybridTracker (new_memory_tracker None) false 0) () false) tow_init [] [] 0 [].

(** The application: the first call fails with a timeout, later ones answer 200. *)
Definition flaky_app (n : Z) : Z * (raised string unit + Z) :=
  (n + 1, if n =? 0 then inl (Exc (AppError "timeout")) else inr 200).

Lemma protected_call_follows_rule_witness :
  ∃ w', run (execute shipped_settings no_l2 plain_classifier (plain_policy "db") (app_call flaky_app) None)
      (quiet_process (boot default_config 1000)) = (w', inl (Exc (AppError "timeout"))) ∧
    user w' = 1 ∧ invoked w' = ["db"].
Proof.
  destruct (protected_call_follows_rule shipped_settings no_l2 plain_classifier (plain_policy "db")
    (app_call flaky_app) flaky_app None (quiet_process (boot default_config 1000))) as (wa & d & w' & Hr);
    [apply app_call_acts|reflexivity|apply (boot_ok default_config 1000)|reflexivity|reflexivity|constructor|reflexivity|reflexivity|].
  change (admission_rule _ _ _ _) with (true, fresh_view) in Hr. cbv beta iota in Hr.
  destruct Hr as (_ & _ & _ & Hr & _ & Hu & Hi & _). exists w'. split; [exact Hr|split; [exact Hu|exact Hi]].
Defined.

(** A pool over the in-memory repository: two protected calls, a failure report
    and an evaluation of the cascade. *)
Definition some_calls : list (policy_op (R := memory) (X := unit) (U := Z) (A := string) (V := Z) (B := unit)) :=
  [PolicyCall (plain_policy "db") (app_call flaky_app) None; ServiceCall (PService (OpFailure "db" []));
   PolicyCall (plain_policy "db") (app_call flaky_app) None; ServiceCall (PEvaluated "db")].

Lemma some_calls_apart : Forall apart_op some_calls.
Proof.
  assert (∀ i, apart (app_call (R := memory) (X := unit) (A := string) (B := unit) flaky_app i)).
  { intros i. apply obeys_act. intros w _. by destruct (flaky_app (user w)). }
  repeat constructor; done.
Qed.

Lemma protected_calls_announced_witness :
  ∃ d ts w', exec (coutside (outside_with true))
      (λ w w', transitions "db" CLOSED OPEN (base (guarded w)) (base (guarded w')))
      (obody shipped_settings no_l2 plain_classifier <$> some_calls, quiet_process (boot default_config 1000))
      d (ts, w') ∧ d = events_taken "db" CLOSED OPEN (base (guarded w')) ∧ world_ok (base (guarded w')).
Proof.
  destruct (exec_run_all (coutside (outside_with true))
    (λ w w', transitions "db" CLOSED OPEN (base (guarded w)) (base (guarded w')))
    (obody shipped_settings no_l2 plain_classifier <$> some_calls) (quiet_process (boot default_config 1000)))
    as (d & ts & He & Hf).
  revert He. generalize (run_all (obody shipped_settings no_l2 plain_classifier <$> some_calls)
    (quiet_process (boot default_config 1000))). intros w' He.
  exists d, ts, w'. split; [exact He|].
  edestruct (protected_calls_announced shipped_settings no_l2 plain_classifier "db" CLOSED OPEN true some_calls
    (quiet_process (boot default_config 1000))) as [[Hd Hup] Hw'];
    [discriminate|left; discriminate|apply some_calls_apart|apply (boot_ok default_config 1000)
    |reflexivity|exact He|exact Hf|].
  split; [|exact Hw']. rewrite Hd, (Hup eq_refl). unfold events_taken at 2. simpl. lia.
Defined.

Lemma blocked_function_never_starts_witness :
  let v := vw (repo blocked_world) "db" in
  ∃ d ts w', exec (coutside (λ w w', before_expiry v w w' ∧ enabled (config w') = true)) (λ _ _, 0)
      (obody shipped_settings no_l2 plain_classifier <$> some_calls, quiet_process blocked_world) d (ts, w') ∧
    filter (λ name, name = "db") (invoked w') = [].
Proof.
  cbv zeta. set (v := vw (repo blocked_world) "db").
  destruct (exec_run_all (coutside (λ w w', before_expiry v w w' ∧ enabled (config w') = true)) (λ _ _, 0)
    (obody shipped_settings no_l2 plain_classifier <$> some_calls) (quiet_process blocked_world)) as (d & ts & He & _).
  revert He. generalize (run_all (obody shipped_settings no_l2 plain_classifier <$> some_calls)
    (quiet_process blocked_world)). intros w' He.
  exists d, ts, w'. split; [exact He|].
  eapply (blocked_function_never_starts shipped_settings no_l2 plain_classifier "db" v eq_refl some_calls (quiet_process blocked_world));
    [|apply some_calls_apart|apply blocked_world_ok|reflexivity|reflexivity|reflexivity|exact He].
  repeat constructor.
Defined.

(** ** A success that is recorded as a failure *)

(** A process with a threshold override that lapses at time 10. *)
Definition lapsing_world : world memory := {|
  repo := new_repository; window := new_window;
  overrides := [("db", {| adjusted_failure_threshold := 2; adjusted_recovery_timeout := 5;
                          override_expires_at := 10 |})];
  downstream_checkers := []; clock := 5; config := default_config;
  emergency := NoManager; system_enabled := true; bus := BusUp; trace := [] |}.

(** A call that answers 200, at time 11. *)
Definition slow_success : option nat → pyprog (cworld memory unit Z string Z) string unit Z :=
  λ _, call (atomically (λ w, (set_guarded w (set_base (guarded w)
         {| repo := repo (base (guarded w)); window := window (base (guarded w));
            overrides := overrides (base (guarded w));
            downstream_checkers := downstream_checkers (base (guarded w)); clock := 11;
            config := config (base (guarded w)); emergency := emergency (base (guarded w));
            system_enabled := system_enabled (base (guarded w));
            bus := bus (base (guarded w)); trace := trace (base (guarded w)) |}), 200))).

Definition race (k : nat) :=
  overtaken k (execute shipped_settings no_l2 plain_classifier (plain_policy "db") slow_success None)
    (serving (lift (should_allow "db"))) (quiet_process lapsing_world).

(** A success recorded as a failure: the function has returned 200, but recording
    it raises, because another call removes the lapsed override between the test
    and the read; the handler around the call and its recording then counts a
    failure, and the caller gets the KeyError instead of the answer. *)
Theorem success_recorded_as_failure :
  let '(w, r, _) := race 21 in
  r = inl (Exc (ServiceError (KeyError "db"))) ∧ invoked w = ["db"] ∧
  v_failures (vw (repo (base (guarded w))) "db") = 1.
Proof. vm_compute. done. Qed.
