(* ===== verification/Composer.v ===== *)
(** * Composing policies

    [PolicyComposer] ([resilience/policies/composer.py]) and the
    [FallbackPolicy] ([resilience/policies/fallback.py]) it treats specially.

    The composer checks guards, runs the function inside its policies, tells the
    hooks what came out and hands failures to the sinks.  Guards, hooks, sinks,
    fallbacks and the function are programs on an abstract world that may return,
    raise or be interrupted.  A policy is a transformer of programs; the
    accumulators that the nested wrappers share (metadata and attempts) are a
    local variable of the call ([Interleave.with_local]), so a policy works on
    any world that has the shared one as a part.  Durations, the execution
    context and log lines are not modelled. *)
From stdpp Require Import pretty.
From S2P Require Import Prelude Interleave Policy.

(** ** The composer's signal *)

(** What passes an [except Exception]: the signal that a fallback answered, with
    the error it answered as its cause, or any other [BaseException]. *)
Inductive signal (A V B : Type) : Type :=
| FallbackApplied (r : PolicyResult A V) (cause : error A)
| Interrupt (b : B).
Arguments FallbackApplied {A V B}. Arguments Interrupt {A V B}.

(** What the wrappers accumulate. *)
Record chain_acc : Type := ChainAcc {
  chain_metadata : dict string pyval;
  chain_attempts : Z;
}.

Section composer.
  Context {W A V B : Type}.
  (** Python's [None]; what an application error derives from; its text; and
      whether it is a provider's rejection of the request. *)
  Context (none : V) (app_marker : A → marker) (error_text : error A → string)
          (is_invalid_request : error A → bool).

Notation action T := (pyprog W A B T).
Notation inside X T := (pyprog (W * X) A (signal A V B) T).
Notation result := (PolicyResult A V).

Definition classify (e : error A) : PolicyOutcome := classify_exception_outcome app_marker e.

(** ** Policies, guards, hooks and sinks *)

(** A [ResiliencePolicy]: its [execute], on any world with the shared part. *)
Record policy : Type := Policy {
  policy_name : string;
  policy_execute : ∀ X : Type, inside X V → inside X result;
}.

Record guard_result : Type := GuardResult {
  guard_allowed : bool;
  guard_reason : option string;
  guard_metadata : dict string pyval;
}.

Record guard : Type := Guard { guard_name : string; guard_check : action guard_result }.

Inductive hook_event : Type :=
| HookSuccess (r : result)
| HookFailure (e : option (error A)) (attempts : Z)
| HookReject (guard reason : string).

(** ** [FallbackPolicy] *)

(** A fallback callable: what its signature shows, and what it does, given the
    error if it takes it. *)
Record fallback_callable : Type := FallbackCallable {
  inspectable : bool;
  required_positional : Z;
  var_positional : bool;
  var_keyword : bool;
  fallback_body : option (error A) → action V;
}.

(** [_fallback_accepts_error]; [None]: it raises. *)
Definition fallback_accepts_error (c : fallback_callable) : option bool :=
  if negb (inspectable c) then Some false
  else if 2 <=? required_positional c then None
  else if required_positional c =? 1 then Some true
  else Some (var_positional c || var_keyword c).

(** What a wrapped [FallbackStrategy] answers. *)
Record fallback_result : Type := FallbackResult {
  fr_value : option V;
  fr_used_fallback : bool;
  fr_mode : option string;
  fr_original_error : option string;
}.

Record fallback_policy : Type := FallbackPolicy {
  fallback_fn : option (fallback_callable * bool);
  default_value : option V;
  fallback_chain : list (fallback_callable * bool);
  predicate : result → bool;
  strategy : option (error A → action fallback_result);
}.

(** [_default_predicate] *)
Definition default_predicate (r : result) : bool :=
  negb (bool_decide (outcome r = SUCCESS)) &&
  negb (match result_error r with Some e => is_invalid_request e | None => false end).

Definition with_arity (c : fallback_callable) : option (fallback_callable * bool) :=
  accepts ← fallback_accepts_error c; Some (c, accepts).

(** [__init__]; [None]: a callable takes too many arguments. *)
Definition fallback_init (fn : option fallback_callable) (dv : option V) (chain : list fallback_callable)
    (pred : option (result → bool)) (strat : option (error A → action fallback_result)) :
    option fallback_policy :=
  fn' ← match fn with None => Some None | Some c => Some <$> with_arity c end;
  chain' ← mapM with_arity chain;
  Some (FallbackPolicy fn' dv chain' (default default_predicate pred) strat).

Definition call_fallback (c : fallback_callable * bool) (e : error A) : action V :=
  fallback_body c.1 (if c.2 then Some e else None).

Definition served (v : V) (source : string * pyval) (e : error A) : result :=
  Result (Some v) SUCCESS_WITH_FALLBACK None ["fallback"] 1
    [("fallback_used", VBool true); source; ("original_error", VStr (error_text e))].

(** Step 2: the chain, from position [i] on; [None]: every entry raised. *)
Fixpoint try_chain (l : list (fallback_callable * bool)) (i : Z) (e : error A) : action (option result) :=
  match l with
  | [] => pret None
  | c :: l =>
      except
        (let! v := call_fallback c e in pret (Some (served v ("fallback_index", VInt i) e)))
        (λ _, try_chain l (i + 1) e)
  end.

(** [_FALLBACK_MODE_TO_OUTCOME.get(mode or "", default)] *)
Definition mode_outcome (mode : option string) (otherwise : PolicyOutcome) : PolicyOutcome :=
  match mode with
  | Some m =>
      if bool_decide (m = "fail_fast") then FAILURE
      else if bool_decide (m ∈ ["use_cache"; "use_default"; "degrade"; "retry_alt"; "hedge"])
           then SUCCESS_WITH_FALLBACK
      else otherwise
  | None => otherwise
  end.

(** [_convert_fallback_result] *)
Definition convert_fallback_result (fr : fallback_result) (e : error A) : result :=
  let o := mode_outcome (fr_mode fr) (if fr_used_fallback fr then SUCCESS_WITH_FALLBACK else SUCCESS) in
  Result (fr_value fr) o (if bool_decide (o = FAILURE) then Some e else None) ["fallback"] 1
    ([("fallback_used", VBool (fr_used_fallback fr)); ("strategy_shim", VBool true)]
     ++ match fr_mode fr with Some m => [("fallback_mode", VStr m)] | None => [] end
     ++ match fr_original_error fr with Some t => [("original_error", VStr t)] | None => [] end).

Definition execute_strategy_shim (s : error A → action fallback_result) (e : error A) : action (option result) :=
  except (let! fr := s e in pret (Some (convert_fallback_result fr e))) (λ _, pret None).

(** Steps 3 to 5. *)
Definition last_resort (fb : fallback_policy) (e : error A) : result :=
  match default_value fb with
  | Some v => served v ("fallback_source", VStr "default_value") e
  | None => Result None FAILURE (Some e) ["fallback"] 1
              [("fallback_used", VBool true); ("all_fallbacks_exhausted", VBool true)]
  end.

Definition apply_native (fb : fallback_policy) (e : error A) : action result :=
  let! r := try_chain (fallback_chain fb) 0 e in
  match r with
  | Some r => pret r
  | None =>
      match fallback_fn fb with
      | Some c =>
          except
            (let! v := call_fallback c e in pret (served v ("fallback_source", VStr "fallback_fn") e))
            (λ _, pret (last_resort fb e))
      | None => pret (last_resort fb e)
      end
  end.

(** [_apply_fallback] *)
Definition apply_fallback (fb : fallback_policy) (e : error A) : action result :=
  match strategy fb with
  | None => apply_native fb e
  | Some s =>
      let! shim := execute_strategy_shim s e in
      match shim with
      | Some r => if is_success r then pret r else apply_native fb e
      | None => apply_native fb e
      end
  end.

(** [FallbackPolicy.execute], used on its own. *)
Definition fallback_execute (fb : fallback_policy) (func : action V) : action result :=
  except
    (let! v := func in
     pret (Result (Some v) SUCCESS None ["fallback"] 1 [("fallback_used", VBool false)]))
    (λ e,
      if predicate fb (Result None (classify e) (Some e) [] 1 []) then apply_fallback fb e
      else pret (Result None FAILURE (Some e) ["fallback"] 1 [("fallback_used", VBool false)])).

(** ** The policy chain *)

Inductive stage : Type :=
| Regular (p : policy)
| Fallback (fb : fallback_policy).

Definition stage_name (s : stage) : string :=
  match s with Regular p => policy_name p | Fallback _ => "fallback" end.

(** An action of the application, inside the chain. *)
Definition within {T} (p : action T) : inside chain_acc T :=
  @mbind (prog _) _ _ _
    (λ r, match r with
          | inl (Exc e) => Ret (inl (Exc e))
          | inl (Base b) => Ret (inl (Base (Interrupt b)))
          | inr v => Ret (inr v)
          end) (beside p).

Definition update_acc (f : chain_acc → chain_acc) : inside chain_acc () :=
  call (atomically (λ wx : W * chain_acc, ((wx.1, f wx.2), ()))).

(** [_merge_chain_metadata]: the last writer of a key wins. *)
Definition merge_chain_metadata (d incoming : dict string pyval) : dict string pyval := dupdate d incoming.

Definition policy_wrapper (inner : inside chain_acc V) (p : policy) : inside chain_acc V :=
  let! r := policy_execute p chain_acc inner in
  let! _ := update_acc (λ a, ChainAcc (merge_chain_metadata (chain_metadata a) (result_metadata r))
                               (Z.max (chain_attempts a) (total_attempts r))) in
  if is_success r then pret (default none (result_value r))
  else
    match result_error r with
    | Some e => praise e
    | None => praise (PolicyRejectedException
                        ("Policy '" +:+ policy_name p +:+ "' rejected: PolicyOutcome."
                         +:+ match outcome r with
                             | SUCCESS => "SUCCESS" | SUCCESS_WITH_FALLBACK => "SUCCESS_WITH_FALLBACK"
                             | REJECTED => "REJECTED" | FAILURE => "FAILURE" | TIMEOUT => "TIMEOUT"
                             end))
    end.

Definition fallback_wrapper (inner : inside chain_acc V) (fb : fallback_policy) : inside chain_acc V :=
  except inner (λ e,
    if predicate fb (Result None (classify e) (Some e) [] 1 []) then
      let! r := within (apply_fallback fb e) in
      if is_success r then Ret (inl (Base (FallbackApplied r e))) else praise e
    else praise e).

Definition wrap (inner : inside chain_acc V) (s : stage) : inside chain_acc V :=
  match s with Regular p => policy_wrapper inner p | Fallback fb => fallback_wrapper inner fb end.

(** [_build_failure_result] *)
Definition build_failure_result (e : error A) (names : list string) (a : chain_acc) : result :=
  Result None (classify e) (Some e) names (chain_attempts a) (chain_metadata a).

(** [_build_fallback_result] *)
Definition build_fallback_result (r : result) (cause : error A) (names : list string) (a : chain_acc) : result :=
  Result (result_value r) (outcome r) (result_error r) names (chain_attempts a)
    (dset (dupdate (chain_metadata a) (result_metadata r))
       "fallback_trigger" (VStr (outcome_value (classify cause)))).

Definition execute_policy_chain (policies : list stage) (func : action V) : action result :=
  match policies with
  | [] =>
      except (let! v := func in pret (Result (Some v) SUCCESS None [] 1 []))
        (λ e, pret (Result None (classify e) (Some e) [] 1 []))
  | _ =>
      let names := stage_name <$> policies in
      let wrapped := foldl wrap (within func) (reverse policies) in
      @mbind (prog _) _ _ _
        (λ ar : chain_acc * (raised A (signal A V B) + V),
          let '(a, r) := ar in
          match r with
          | inr v => pret (Result (Some v) SUCCESS None names (chain_attempts a) (chain_metadata a))
          | inl (Base (FallbackApplied r e)) => pret (build_fallback_result r e names a)
          | inl (Base (Interrupt b)) => Ret (inl (Base b))
          | inl (Exc e) => pret (build_failure_result e names a)
          end)
        (with_local (ChainAcc [] 1) wrapped)
  end.

(** ** Terminals *)

Definition is_open_circuit_rejection (r : result) : bool :=
  bool_decide (outcome r = REJECTED) &&
  match result_error r with Some e => is_open_error e | None => false end.

Definition is_failed_call (r : result) : bool :=
  match outcome r with
  | FAILURE | TIMEOUT => true
  | REJECTED => match result_error r with Some _ => negb (is_open_circuit_rejection r) | None => false end
  | _ => false
  end.

Definition terminal_reaches_sinks (r : result) (captures_open captures_failures : bool) : bool :=
  if bool_decide (outcome r = FAILURE) then true
  else if is_open_circuit_rejection r then captures_open
  else captures_failures && is_failed_call r.

Definition PLACEHOLDER_DOMAIN : string := "default".

(** An empty Python list. *)
Definition EMPTY_LIST : pyval := VOther 1.

Definition with_metadata (r : result) (d : dict string pyval) : result :=
  Result (result_value r) (outcome r) (result_error r) (executed_policies r) (total_attempts r) d.

(** [_arm_failure_verdict] *)
Definition arm_failure_verdict (r : result) (name : string) : result :=
  let d := result_metadata r in
  if negb (is_failed_call r) then r
  else if bool_decide (is_Some (dget d "should_dlq")) then
    if bool_decide (default VNone (dget d "domain") ∈ [VNone; VStr PLACEHOLDER_DOMAIN])
    then with_metadata r (dset d "domain" (VStr name))
    else r
  else
    with_metadata r (dupdate d
      [("should_dlq", VBool true); ("domain", VStr name);
       ("max_attempts", VInt (Z.max (total_attempts r) 1)); ("retry_history", EMPTY_LIST);
       ("reason", VStr "max_attempts")]).

(** ** [PolicyComposer] *)

Record composer : Type := PolicyComposer {
  policies : list stage;
  guards : list guard;
  hooks : list (hook_event → action ());
  sinks : list (error A → result → action (option string));
  captures_open_circuit_rejections : bool;
  failure_capture_name : option string;
}.

Definition notify_hooks (c : composer) (ev : hook_event) : action () :=
  peach (hooks c) (λ h, except (h ev) (λ _, pret ())).

(** [_process_sinks] *)
Fixpoint process_sinks (l : list (error A → result → action (option string))) (e : error A) (r : result) :
    action result :=
  match l with
  | [] => pret r
  | s :: l =>
      let! id := except (s e r) (λ _, pret None) in
      process_sinks l e
        match id with Some x => with_metadata r (dset (result_metadata r) "sink_id" (VStr x)) | None => r end
  end.

(** The guards, in order; [Some]: the call is refused. *)
Fixpoint check_guards (c : composer) (l : list guard) : action (option result) :=
  match l with
  | [] => pret None
  | g :: l =>
      let! verdict :=
        except
          (let! gr := guard_check g in
           if guard_allowed gr then pret None
           else
             let! _ := notify_hooks c (HookReject (guard_name g) (default "" (guard_reason gr))) in
             pret (Some (Result None REJECTED None [] 1
               (dset (dset (guard_metadata gr) "rejected_by" (VStr (guard_name g)))
                  "reason" (match guard_reason gr with Some x => VStr x | None => VNone end)))))
          (λ _, pret None) in
      match verdict with Some r => pret (Some r) | None => check_guards c l end
  end.

Definition execute (c : composer) (func : action V) : action result :=
  let! refused := check_guards c (guards c) in
  match refused with
  | Some r => pret r
  | None =>
      let! r := execute_policy_chain (policies c) func in
      if is_success r then
        let! _ := notify_hooks c (HookSuccess r) in pret r
      else
        let r := match failure_capture_name c with Some name => arm_failure_verdict r name | None => r end in
        let! _ := notify_hooks c (HookFailure (result_error r) (total_attempts r)) in
        if terminal_reaches_sinks r (captures_open_circuit_rejections c)
             (bool_decide (is_Some (failure_capture_name c)))
        then match result_error r with None => pret r | Some e => process_sinks (sinks c) e r end
        else pret r
  end.

(** ** It never raises *)

(** Whatever happens to the world between its actions, [p] ends in a result [Q]
    accepts. *)
Definition ends {W' T} (p : prog W' T) (Q : T → Prop) : Prop :=
  ∀ n, wp (λ _, True) (λ _ _, 0) p n (λ _ r, Q r).

Definition no_exception {A' B' T} (r : raised A' B' + T) : Prop := ∀ e, r ≠ inl (Exc e).

Section never_raises.
  Context {W' A' B' : Type}.

Lemma ends_any {T} (p : prog W' T) (Q : T → Prop) : (∀ r, Q r) → ends p Q.
Proof.
  intros HQ. induction p as [a|C f k IH]; intros n; [apply HQ|]. intros w _. split; [done|]. apply IH.
Qed.

Lemma ends_except {T} (p : pyprog W' A' B' T) h :
  (∀ e, ends (h e) no_exception) → ends (except p h) no_exception.
Proof.
  intros Hh n. apply wp_except. eapply wp_mono; [apply (ends_any p (λ _, True)); done|].
  intros m [[e|b]|v] _; [apply Hh|done|done].
Qed.

Lemma ends_then {T T'} (p : pyprog W' A' B' T) (k : T → pyprog W' A' B' T') :
  ends p no_exception → (∀ v, ends (k v) no_exception) → ends (pbind p k) no_exception.
Proof.
  intros Hp Hk n. apply wp_pbind. eapply wp_mono; [apply Hp|].
  intros m [[e|b]|v] Hr; [by destruct (Hr e)|done|apply Hk].
Qed.

Lemma ends_ret {T} (v : T) : ends (pret v : pyprog W' A' B' T) no_exception.
Proof. by intros n e. Qed.

Lemma ends_peach {X} (l : list X) (body : X → pyprog W' A' B' ()) :
  (∀ x, ends (body x) no_exception) → ends (peach l body) no_exception.
Proof. intros Hb. induction l as [|x l IH]; [apply ends_ret|]. by apply ends_then. Qed.
End never_raises.

Lemma ends_chain ps func : ends (execute_policy_chain ps func) no_exception.
Proof.
  unfold execute_policy_chain. destruct ps as [|p ps].
  { apply ends_except. intros e. apply ends_ret. }
  intros n. apply wp_bind. eapply wp_mono; [apply (ends_any _ (λ _, True)); done|].
  intros m [a [[e|[r e|b]]|v]] _; done.
Qed.

Lemma ends_notify c ev : ends (notify_hooks c ev) no_exception.
Proof. apply ends_peach. intros h. apply ends_except. intros e. apply ends_ret. Qed.

Lemma ends_guards c l : ends (check_guards c l) no_exception.
Proof.
  induction l as [|g l IH]; cbn [check_guards]; [apply ends_ret|].
  apply ends_then; [apply ends_except; intros e; apply ends_ret|].
  intros [r|]; [apply ends_ret|exact IH].
Qed.

Lemma ends_sinks l e r : ends (process_sinks l e r) no_exception.
Proof.
  revert r. induction l as [|s l IH]; intros r; cbn [process_sinks]; [apply ends_ret|].
  apply ends_then; [apply ends_except; intros e'; apply ends_ret|]. intros [x|]; apply IH.
Qed.

(** C12: The composer absorbs every exception: whatever the function, the policies,
    the guards, the hooks, the fallbacks and the sinks raise, and whatever other
    threads do between their actions, executing a composed pipeline ends in a
    result or in an interrupt, never in an Exception. *)
Theorem composer_never_raises c func : ends (execute c func) no_exception.
Proof.
  apply ends_then; [apply ends_guards|]. intros [r|]; [apply ends_ret|].
  apply ends_then; [apply ends_chain|]. intros r. destruct (is_success r).
  - apply ends_then; [apply ends_notify|]. intros []. apply ends_ret.
  - cbv zeta. apply ends_then; [apply ends_notify|]. intros [].
    destruct (terminal_reaches_sinks _ _ _); [|apply ends_ret].
    destruct (result_error _); [apply ends_sinks|apply ends_ret].
Qed.

(** ** Counting calls

    [cnt] counts what the function does each time it is called.  A program
    [spends k] if, whatever the others do, its own actions add at most [k]. *)
Section counting.
  Context (cnt : W → Z).

Definition spends_by {W'} (get : W' → W) (k : Z) {T} (p : prog W' T) : Prop :=
  ∀ n, wp (λ _, True) (λ w w', cnt (get w') - cnt (get w)) p n (λ m _, n <= m <= n + k).
Notation spends k p := (spends_by (λ w : W, w) k p).
Notation spends_in k p := (spends_by (fst : W * _ → W) k p).

(** A policy that starts its function at most once and does not count by itself. *)
Definition at_most_once (p : policy) : Prop :=
  ∀ X (inner : inside X V), spends_in 1 inner → spends_in 1 (policy_execute p X inner).

Lemma spends_weaken {W'} (get : W' → W) k k' {T} (p : prog W' T) :
  k <= k' → spends_by get k p → spends_by get k' p.
Proof. intros Hk Hp n. eapply wp_mono; [apply Hp|]. cbn. intros m _ ?. lia. Qed.

Lemma spends_bind {W'} (get : W' → W) a b {T T'} (p : prog W' T) (f : T → prog W' T') :
  spends_by get a p → (∀ r, spends_by get b (f r)) → spends_by get (a + b) (p ≫= f).
Proof.
  intros Hp Hf n. apply wp_bind. eapply wp_mono; [apply Hp|]. intros m r Hm. cbn in Hm.
  eapply wp_mono; [apply Hf|]. cbn. intros m' _ ?. lia.
Qed.

Lemma spends_ret {W'} (get : W' → W) {T} (r : T) : spends_by get 0 (Ret r).
Proof. intros n. cbn. lia. Qed.

Lemma spends_pbind {W'} (get : W' → W) {A' B' T T'} a b (p : pyprog W' A' B' T) (f : T → pyprog W' A' B' T') :
  0 <= b → spends_by get a p → (∀ r, spends_by get b (f r)) → spends_by get (a + b) (pbind p f).
Proof.
  intros Hb Hp Hf. apply spends_bind; [done|]. intros [e|v]; [|apply Hf].
  apply (spends_weaken _ 0); [done|apply spends_ret].
Qed.

(** What is left of a call that raised does not call again. *)
Lemma spends_except {W'} (get : W' → W) {A' B' T} a (p : pyprog W' A' B' T) h :
  spends_by get a p → (∀ e, spends_by get 0 (h e)) → spends_by get a (except p h).
Proof.
  intros Hp Hh. rewrite <-(Z.add_0_r a). apply spends_bind; [done|].
  intros [[e|b]|v]; [apply Hh|apply spends_ret|apply spends_ret].
Qed.

Lemma spends_within k {T} (p : action T) : spends k p → spends_in k (within p).
Proof.
  intros Hp. rewrite <-(Z.add_0_r k). apply spends_bind; [|intros [[e|b]|v]; apply spends_ret].
  intros n. apply (wp_zoom fst (λ wx w, (w, wx.2)) (λ _ _, eq_refl) (λ _, True) (λ w w', cnt w' - cnt w)).
  apply Hp.
Qed.

Lemma spends_chain_entry l i e :
  Forall (λ c, ∀ o, spends 0 (fallback_body c.1 o)) l → spends 0 (try_chain l i e).
Proof.
  intros Hl. revert i. induction Hl as [|c l Hc Hl IH]; intros i; cbn [try_chain]; [apply spends_ret|].
  apply spends_except; [|intros _; apply IH]. apply (spends_pbind _ 0 0); [done|apply Hc|].
  intros v. apply spends_ret.
Qed.

(** The application code of a fallback keeps away from the counter. *)
Definition silent_fallback (fb : fallback_policy) : Prop :=
  Forall (λ c, ∀ o, spends 0 (fallback_body c.1 o)) (fallback_chain fb) ∧
  (∀ c o, fallback_fn fb = Some c → spends 0 (fallback_body c.1 o)) ∧
  (∀ s e, strategy fb = Some s → spends 0 (s e)).

Lemma spends_native fb e : silent_fallback fb → spends 0 (apply_native fb e).
Proof.
  intros (Hc & Hf & _). apply (spends_pbind _ 0 0); [done|by apply spends_chain_entry|].
  intros [r|]; [apply spends_ret|]. destruct (fallback_fn fb) as [c|]; [|apply spends_ret].
  apply spends_except; [|intros _; apply spends_ret].
  apply (spends_pbind _ 0 0); [done|by apply Hf|]. intros v. apply spends_ret.
Qed.

Lemma spends_fallback fb e : silent_fallback fb → spends 0 (apply_fallback fb e).
Proof.
  intros Hfb. pose proof Hfb as (_ & _ & Hs). unfold apply_fallback.
  destruct (strategy fb) as [s|]; [|by apply spends_native].
  apply (spends_pbind _ 0 0); [done| |].
  - apply spends_except; [|intros _; apply spends_ret].
    apply (spends_pbind _ 0 0); [done|by apply Hs|]. intros v. apply spends_ret.
  - intros [r|]; [|by apply spends_native]. destruct (is_success r); [apply spends_ret|by apply spends_native].
Qed.

Definition silent_stage (s : stage) : Prop :=
  match s with Regular p => at_most_once p | Fallback fb => silent_fallback fb end.

Lemma spends_update f : spends_in 0 (update_acc f).
Proof.
  apply (spends_bind _ 0 0); [|intros [x|v]; apply spends_ret]. intros n w _. cbn. split; [done|lia].
Qed.

Lemma spends_wrap inner s : silent_stage s → spends_in 1 inner → spends_in 1 (wrap inner s).
Proof.
  intros Hs Hi. destruct s as [p|fb].
  - apply (spends_pbind _ 1 0); [done|by apply Hs|]. intros r.
    apply (spends_pbind _ 0 0); [done|apply spends_update|]. intros [].
    destruct (is_success r); [apply spends_ret|]. destruct (result_error r); apply spends_ret.
  - apply spends_except; [done|]. intros e. destruct (predicate _ _); [|apply spends_ret].
    apply (spends_pbind _ 0 0); [done|by apply spends_within, spends_fallback|].
    intros r. destruct (is_success r); apply spends_ret.
Qed.

Lemma spends_wrapped l inner : Forall silent_stage l → spends_in 1 inner → spends_in 1 (foldl wrap inner l).
Proof. intros Hl. revert inner. induction Hl as [|s l Hs Hl IH]; intros inner Hi; [done|]. by apply IH, spends_wrap. Qed.

Lemma spends_chain ps func : Forall silent_stage ps → spends 1 func → spends 1 (execute_policy_chain ps func).
Proof.
  intros Hps Hf. unfold execute_policy_chain. destruct ps as [|p ps].
  { apply spends_except; [|intros e; apply spends_ret].
    apply (spends_pbind _ 1 0); [done|done|]. intros v. apply spends_ret. }
  apply (spends_bind _ 1 0); [|intros [a [[e|[r e|b]]|v]]; apply spends_ret].
  intros n. apply wp_with_local. eapply wp_mono; [|intros m r Hm x; exact Hm].
  apply (spends_wrapped (reverse (p :: ps)) (within func)); [by apply Forall_reverse|by apply spends_within].
Qed.

Lemma spends_peach {X} (l : list X) (body : X → action ()) :
  Forall (λ x, spends 0 (body x)) l → spends 0 (peach l body).
Proof. induction 1 as [|x l Hx Hl IH]; [apply spends_ret|]. by apply (spends_pbind _ 0 0). Qed.

(** The code around the chain keeps away from the counter. *)
Definition silent_surroundings (c : composer) : Prop :=
  Forall (λ g, spends 0 (guard_check g)) (guards c) ∧
  Forall (λ h, ∀ ev, spends 0 (h ev)) (hooks c) ∧
  Forall (λ s, ∀ e r, spends 0 (s e r)) (sinks c).

Lemma spends_notify c ev : silent_surroundings c → spends 0 (notify_hooks c ev).
Proof.
  intros (_ & Hh & _). apply spends_peach. eapply Forall_impl; [exact Hh|]. intros h Hh'.
  apply spends_except; [apply Hh'|]. intros e. apply spends_ret.
Qed.

Lemma spends_guards c l :
  silent_surroundings c → Forall (λ g, spends 0 (guard_check g)) l → spends 0 (check_guards c l).
Proof.
  intros Hc. induction 1 as [|g l Hg Hl IH]; cbn [check_guards]; [apply spends_ret|].
  apply (spends_pbind _ 0 0); [done| |intros [r|]; [apply spends_ret|exact IH]].
  apply spends_except; [|intros e; apply spends_ret]. apply (spends_pbind _ 0 0); [done|done|].
  intros gr. destruct (guard_allowed gr); [apply spends_ret|].
  apply (spends_pbind _ 0 0); [done|by apply spends_notify|]. intros []. apply spends_ret.
Qed.

Lemma spends_sinks l e r : Forall (λ s, ∀ e r, spends 0 (s e r)) l → spends 0 (process_sinks l e r).
Proof.
  intros Hl. revert r. induction Hl as [|s l Hs Hl IH]; intros r; cbn [process_sinks]; [apply spends_ret|].
  apply (spends_pbind _ 0 0); [done| |intros [x|]; apply IH].
  apply spends_except; [apply Hs|]. intros e'. apply spends_ret.
Qed.

(** C13: A composed pipeline calls its function at most once, if each of its
    policies on its own does: no fallback, wherever it stands in the chain, no
    guard, hook or sink makes the composer call it again, whatever they raise
    and whatever other threads do meanwhile. *)
Theorem function_called_at_most_once c func :
  Forall silent_stage (policies c) → silent_surroundings c → spends 1 func → spends 1 (execute c func).
Proof.
  intros Hps Hc Hf. pose proof Hc as (Hg & _ & Hs).
  apply (spends_pbind _ 0 1); [done|by apply spends_guards|].
  intros [r|]; [apply (spends_weaken _ 0); [done|apply spends_ret]|].
  apply (spends_pbind _ 1 0); [done|by apply spends_chain|]. intros r. destruct (is_success r).
  - apply (spends_pbind _ 0 0); [done|by apply spends_notify|]. intros []. apply spends_ret.
  - cbv zeta. apply (spends_pbind _ 0 0); [done|by apply spends_notify|]. intros [].
    destruct (terminal_reaches_sinks _ _ _); [|apply spends_ret].
    destruct (result_error _); [by apply spends_sinks|apply spends_ret].
Qed.
End counting.
End composer.
