(* ===== verification/Protect.v ===== *)
(** * The protect facade

    [protect] and [_build_sync_composer] ([protect_facade.py]): the order in
    which a call's policies are composed, and what becomes of the result; and the
    circuit-breaker policy as a stage of a composed pipeline, where its theorems
    and the composer's meet.

    The timeout, retry and idempotency stages and the sink of the dead-letter
    queue are parameters: any policy, guard, hook and sink. *)
From Stdlib Require Import QArith.
From S2P Require Import RateLimitTracker TimeWindow.
From S2P Require Import Prelude Interleave CBData OutcomeWindow CBInterface CBRepo CBService CBTokens CBRules.
From S2P Require Import CBEvents CBSafety CBBlock CBLifecycle CBProtection Policy CBPolicy Composer.
#[local] Open Scope Z_scope.

Section facade.
  Context {W A V B : Type}.
  Context (none : V) (app_marker : A → marker) (error_text : error A → string)
          (is_invalid_request : error A → bool) (text_of : pyval → string).
Notation action T := (pyprog W A B T).
Notation composer := (Composer.composer (W := W) (A := A) (V := V) (B := B)).
Notation policy := (Composer.policy (W := W) (A := A) (V := V) (B := B)).

(** The shared sink of the dead-letter queue. *)
  Context (dlq_sink : error A → PolicyResult A V → action (option string)).

(** [_attach_dlq_capture] *)
Definition attach_dlq_capture (c : composer) (name : string) : composer :=
  PolicyComposer (policies c) (guards c) (Composer.hooks c) (sinks c ++ [dlq_sink]) true (Some name).

(** [_build_sync_composer]: outermost first.  [None]: the fallback's signature is
    refused. *)
Definition build_sync_composer (name : string) (fallback : option fallback_callable) (dlq : bool)
    (breaker timeout retry : option policy)
    (idempotency_stage : option (guard (W := W) (A := A) (B := B) * (hook_event (A := A) (V := V) → action ()))) :
    option composer :=
  stages ← match fallback with
           | None => Some []
           | Some c => fb ← fallback_init is_invalid_request (Some c) None [] None None; Some [Fallback fb]
           end;
  let opt := λ p : option policy, match p with Some p => [Regular p] | None => [] end in
  let c := PolicyComposer (stages ++ opt breaker ++ opt timeout ++ opt retry)
             (match idempotency_stage with Some (g, _) => [g] | None => [] end)
             (match idempotency_stage with Some (_, h) => [h] | None => [] end) [] false None in
  Some (if dlq then attach_dlq_capture c name else c).

(** [bool(d.get(k))] *)
Definition is_truthy (v : option pyval) : bool :=
  match v with
  | None | Some VNone => false
  | Some (VBool b) => b
  | Some (VInt z) => negb (z =? 0)
  | Some (VStr t) => negb (bool_decide (t = ""))
  | Some (VOther _) => true
  end.

Definition GUARD_NAME : string := "idempotency".

(** [_finalize_value] *)
Definition finalize_value (r : PolicyResult A V) : action V :=
  if is_success r then pret (default none (result_value r))
  else
    match result_error r with
    | Some e => praise e
    | None =>
        let d := result_metadata r in
        let text := λ k, match dget d k with Some v => text_of v | None => "" end in
        if bool_decide (outcome r = REJECTED) && bool_decide (dget d "rejected_by" = Some (VStr GUARD_NAME)) then
          if is_truthy (dget d "idempotency_unavailable") then praise (IdempotencyUnavailableError (text "idempotency_key") (text "error"))
          else praise (IdempotencyDuplicateError (text "idempotency_key") (text "idempotency_decision"))
        else praise (BaldurError ("protect() failed with outcome=" +:+ outcome_value (outcome r)
                                  +:+ " and no error captured"))
    end.

(** [protect]: [on] is what [_protect_prelude] answers (the enable flag; with
    protection off the function is called bare), [c] the composer
    [build_sync_composer] gives for the call's flags, and [settle] what an
    interrupted keyed call still does ([_settle_keyed_call_on_raise]). *)
Definition protect (on : bool) (c : composer) (settle : raised A B → action ()) (fn : action V) : action V :=
  if negb on then fn else
  @mbind (prog W) _ _ _
    (λ r, match r with
          | inl x => let! _ := settle x in Ret (inl x)
          | inr r => finalize_value r
          end)
    (Composer.execute none app_marker error_text c fn).
End facade.

(** ** The breaker as a stage *)

Section breaker.
  Context {R X U A V B : Type} `{CircuitBreakerStateRepository R}.
  Context (st : tracker_settings) (l2 : l2_backend X) (cls : classifier A V).
Notation W := (cworld R X U A V).

(** The breaker's world with a local variable [Y] is its world with [Y] beside
    the application's state. *)
Definition to_user {Y} (wy : W * Y) : cworld R X (U * Y) A V :=
  let w := wy.1 in CWorld (guarded w) (call_outcomes w) (scopes w) (cooldowns w) (user w, wy.2) (invoked w).
Definition of_user {Y} (w : cworld R X (U * Y) A V) : W * Y :=
  (CWorld (guarded w) (call_outcomes w) (scopes w) (cooldowns w) (user w).1 (invoked w), (user w).2).

Lemma to_of {Y} (w : cworld R X (U * Y) A V) : to_user (of_user w) = w.
Proof. by destruct w as [? ? ? ? []]. Qed.
Lemma of_to {Y} (wy : W * Y) : of_user (to_user wy) = wy.
Proof. by destruct wy as [[]]. Qed.

(** [_get_or_build_cb_policy]: the default policy of a name, without hooks. *)
Definition default_policy {Y B'} (name : string) (key : option string) :
    cb_policy (R := R) (X := X) (U := U * Y) (A := A) (V := V) (B := B') :=
  CBPolicy name (λ _, true) (λ _, false) [] key.

Definition breaker_stage (name : string) (key : option string) : policy (W := W) (A := A) (V := V) (B := B) :=
  Policy "circuit_breaker" (λ Y inner,
    zoom to_user (λ _, of_user)
      (CBPolicy.execute st l2 cls (default_policy name key)
         (λ _, zoom of_user (λ _, to_user) inner) None)).

(** *** Counting

    None of the breaker's own actions touches the application's state. *)
Section counting.
  Context {B' : Type} (cnt : U → Z).

Definition user_still {Y T} (p : prog (cworld R X (U * Y) A V) T) : Prop :=
  obeys (λ _, True) (λ w w', user w' = user w) p.

Notation spends_user k p := (spends_by cnt (λ w : cworld R X (U * _) A V, (user w).1) k p).

Lemma still_spends {Y T} (p : prog (cworld R X (U * Y) A V) T) : user_still p → spends_user 0 p.
Proof.
  intros Hp n. revert n. induction p as [a|C f k IH]; intros n; [cbn; lia|]. intros w _.
  destruct (Hp w Logic.I) as (_ & Hu & Hk). split; [done|]. rewrite Hu, Z.sub_diag, Z.add_0_r.
  eapply wp_mono; [exact (IH _ Hk n)|]. cbn. intros. lia.
Qed.

Lemma still_serving {Y T} (p : eprog (pworld R X) T) :
  user_still (serving p : eprog (cworld R X (U * Y) A V) T).
Proof.
  unfold serving. induction p as [a|C f k IH]; [done|]. intros w _. cbn.
  destruct (f (guarded w)) as [g b]. split_and!; [done|done|]. apply IH.
Qed.

Lemma still_call {Y T} (p : eprog (cworld R X (U * Y) A V) T) :
  user_still p → user_still (call p : pyprog _ A B' T).
Proof. intros Hp. apply obeys_bind; [done|]. by intros [x|v]. Qed.

Lemma still_pbind {Y T T'} (p : pyprog (cworld R X (U * Y) A V) A B' T) (k : T → pyprog _ A B' T') :
  user_still p → (∀ v, user_still (k v)) → user_still (pbind p k).
Proof. intros Hp Hk. apply obeys_bind; [done|]. intros [e|v]; [done|apply Hk]. Qed.

Lemma still_fail_open {Y} (p : eprog (cworld R X (U * Y) A V) ()) : user_still p → user_still (fail_open p).
Proof. intros Hp. by apply obeys_catch. Qed.

(** Walk a method: served calls, updates of scopes and of the window. *)
Ltac still_step :=
  cbv beta iota zeta;
  lazymatch goal with
  | |- user_still (pbind _ _) => apply still_pbind; [|intros ?]
  | |- user_still (call _) => apply still_call
  | |- user_still (fail_open _) => apply still_fail_open
  | |- user_still (serving _) => apply still_serving
  | |- user_still (pret _) => exact Logic.I
  | |- user_still (praise _) => exact Logic.I
  | |- user_still (ret _) => exact Logic.I
  | |- user_still (ebind _ _) => apply obeys_ebind; [|intros ?]
  | |- user_still (if ?b then _ else _) => destruct b
  | |- user_still (match ?b with _ => _ end) => destruct b
  | |- user_still (atomically _) => by apply obeys_atomically
  | |- user_still ?p => let q := eval red in p in change (user_still q)
  | |- obeys _ _ ?p => change (user_still p)
  end.
Ltac still_run := repeat still_step.

Lemma still_admit {Y} name key : user_still (admit_call (default_policy (Y := Y) (B' := B') name key)).
Proof. still_run. Qed.

Lemma still_on_success {Y} name key v d i :
  user_still (on_success st l2 cls (default_policy (Y := Y) (B' := B') name key) v d i).
Proof. still_run. Qed.

Lemma still_on_failure {Y} name key e i :
  user_still (on_failure st l2 cls (default_policy (Y := Y) (B' := B') name key) e i).
Proof. still_run. Qed.

Lemma execute_spends {Y} name key (func : option nat → pyprog (cworld R X (U * Y) A V) A B' V) :
  (∀ i, spends_user 1 (func i)) →
  spends_user 1 (CBPolicy.execute st l2 cls (default_policy name key) func None).
Proof.
  intros Hf. assert (Hinv : ∀ i, spends_user 1 (invoke (default_policy name key) func i)).
  { intros i. apply (spends_pbind _ _ 0 1); [done| |intros []; apply Hf]. apply still_spends. still_run. }
  apply (spends_pbind _ _ 0 1); [done|apply still_spends, still_admit|]. intros [|r|d].
  - apply (spends_pbind _ _ 1 0); [done|apply Hinv|]. intros v. apply spends_ret.
  - apply (spends_weaken _ _ 0); [done|apply spends_ret].
  - apply (spends_pbind _ _ 0 1); [done|apply still_spends; still_run|]. intros i.
    apply spends_except.
    + apply (spends_pbind _ _ 1 0); [done|apply Hinv|]. intros v. apply still_spends, still_on_success.
    + intros e. apply (spends_pbind _ _ 0 0); [done|apply still_spends, still_on_failure|].
      intros []. apply spends_ret.
Qed.
End counting.

(** The breaker discharges the composer's contract for the calls it lets through. *)
Lemma breaker_at_most_once (cnt : U → Z) name key : at_most_once (λ w : W, cnt (user w)) (breaker_stage name key).
Proof.
  intros Y inner Hi n. cbn [policy_execute breaker_stage].
  apply (wp_zoom to_user (λ _, of_user) (λ _ w, to_of w) (λ _, True) (λ w w', cnt (user w').1 - cnt (user w).1)).
  apply execute_spends. intros _ m.
  apply (wp_zoom of_user (λ _, to_user) (λ _ w, of_to w) (λ _, True)
    (λ w w' : W * Y, cnt (user w'.1) - cnt (user w.1))). apply Hi.
Qed.
End breaker.

(** ** A protected call with a fallback *)

Section protected.
  Context {R X U A V B : Type} `{RepositoryLaws R}.
  Context (st : tracker_settings) (l2 : l2_backend X) (cls : classifier A V).
  Context (none : V) (app_marker : A → marker) (error_text : error A → string).
Notation W := (cworld R X U A V).

(** What [protect(name, fn, fallback=lambda: v)] composes. *)
Definition with_fallback (name : string) (key : option string) (v : V) : composer (W := W) (A := A) (V := V) (B := B) :=
  PolicyComposer
    [Fallback (FallbackPolicy (Some (FallbackCallable true 0 false false (λ _, pret v), false)) None []
                 (default_predicate (is_invalid_request cls)) None);
     Regular (breaker_stage st l2 cls name key)] [] [] [] false None.

Lemma with_fallback_built name key v sink :
  build_sync_composer (is_invalid_request cls) sink name (Some (FallbackCallable true 0 false false (λ _, pret v)))
    false (Some (breaker_stage st l2 cls name key)) None None None = Some (with_fallback name key v).
Proof. done. Qed.

(** A result of the function as the chain sees it. *)
Definition in_chain (r : raised A B + V) : raised A (signal A V B) + V :=
  match r with
  | inl (Exc e) => inl (Exc e)
  | inl (Base b) => inl (Base (Interrupt b))
  | inr v => inr v
  end.

Lemma run_within {T} (p : pyprog W A B T) w a :
  run (within (V := V) p) (w, a) =
  ((run p w).1, a,
   match (run p w).2 with
   | inl (Exc e) => inl (Exc e) | inl (Base b) => inl (Base (Interrupt b)) | inr v => inr v
   end).
Proof.
  unfold within. rewrite run_bind, run_beside. by destruct (run p w) as [w' [[e|b]|v]].
Qed.

Definition chain_fn (f : U → U * (raised A B + V)) (ua : U * chain_acc) :
    (U * chain_acc) * (raised A (signal A V B) + V) :=
  (((f ua.1).1, ua.2), in_chain (f ua.1).2).

Lemma chained_acts (fn : pyprog W A B V) f :
  acts_as (λ _, fn) f →
  acts_as (λ _, zoom of_user (λ _, to_user) (within fn)) (chain_fn f).
Proof.
  intros Hfn i w. rewrite (run_zoom of_user (λ _, to_user)); [|by intros; apply of_to|done|by intros; apply to_of].
  destruct w as [g co sc cd [u a] iv]. unfold of_user. cbn [fst snd user guarded call_outcomes scopes cooldowns invoked].
  rewrite run_within, (Hfn None). by destruct (f u) as [u' [[e|b]|v]].
Qed.

(** How the breaker counts what a call ended in. *)
Definition counts_as (r : raised A B + V) : option bool :=
  match r with
  | inr v => Some (match response_status cls v with
                   | Some s => bool_decide (s ∈ failure_status_codes cls) | None => false end)
  | inl (Exc e) => if is_rate_limit_deferral e || is_invalid_request cls e then None else Some true
  | inl (Base _) => None
  end.

Definition unlimited (r : raised A B + V) : Prop :=
  match r with
  | inr v => (detect_rate_limit cls (inr v)).1 = false
  | inl (Exc e) => (detect_rate_limit cls (inl e)).1 = false
  | inl (Base _) => True
  end.

(** A call alone: nothing else holds the breaker back or speeds it up. *)
Definition ready (name : string) (w : W) : Prop :=
  let b := base (guarded w) in
  r_ok (repo b) ∧ enabled (config b) = true ∧ observe_only (guarded w) = false ∧
  Forall (λ chk, chk name ≠ Some false) (downstream_checkers b) ∧ dget (overrides b) name = None.

(** What the breaker of [name] makes of a call that ends in [r] if it is let
    through. *)
Definition breaker_leaves (name : string) (w w' : W) (f : U → U * (raised A B + V)) (ok : bool) : Prop :=
  let b := base (guarded w) in
  let v1 := (admission_rule (clock b) (config b) (is_lockdown (emergency b)) (vw (repo b) name)).2 in
  ∃ wa d, run (should_allow_with_state name) b = (wa, inr d) ∧ ambient wa = ambient b ∧
    (∀ k, vw (repo (base (guarded w'))) k =
       if decide (k = name) then if ok then row_rule name wa v1 (counts_as (f (user w)).2) else v1
       else vw (repo b) k) ∧
    user w' = (if ok then (f (user w)).1 else user w) ∧
    invoked w' = (if ok then invoked w ++ [name] else invoked w).

Lemma breaker_inside name key (fn : pyprog W A B V) f w a :
  acts_as (λ _, fn) f → ready name w → unlimited (f (user w)).2 →
  let b := base (guarded w) in
  let ok := (admission_rule (clock b) (config b) (is_lockdown (emergency b)) (vw (repo b) name)).1 in
  ∃ w' a', run (policy_wrapper none (within fn) (breaker_stage st l2 cls name key)) (w, a) =
      (w', a', if ok then in_chain (f (user w)).2 else inl (Exc (CircuitBreakerOpenError name))) ∧
    breaker_leaves name w w' f ok.
Proof.
  intros Hfn (Hok & Hen & Hobs & Hchk & Hov) Hnl b ok. unfold breaker_leaves.
  destruct (protected_call_leaves st l2 cls (default_policy name key) _ _ None (to_user (w, a))
    (chained_acts fn f Hfn)) as (wa & d & w' & Hr); [done..| |].
  { cbn. by destruct (f (user w)) as [u [[e|x]|v]]. }
  change (base (guarded (to_user (w, a)))) with b in Hr. unfold ok.
  change (base (guarded w)) with b. change (protected_name (default_policy name key)) with name in Hr.
  destruct (admission_rule (clock b) _ _ _) as [ok0 v1] eqn:Hrule. cbn [fst snd].
  destruct Hr as (Hadm & Hd & Hamb & Hrun & Hv & Hu & Hi & _).
  assert (Hrec : ∀ v, call_rule cls (default_policy (R := R) (X := X) (U := U) (Y := chain_acc) name key) wa v
                   (chain_fn f (user (to_user (w, a)))).2 = row_rule name wa v (counts_as (f (user w)).2)).
  { intros v. unfold call_rule. f_equal. cbn. destruct (f (user w)) as [u [[e|x]|v']]; [|done|done]. cbn.
    unfold is_failure. destruct (is_rate_limit_deferral e), (is_invalid_request cls e); done. }
  unfold policy_wrapper. rewrite run_pbind. cbn [policy_execute breaker_stage].
  rewrite (run_zoom to_user (λ _, of_user)); [|by intros; apply to_of|done|by intros; apply of_to].
  rewrite Hrun. cbn [fst snd].
  assert (Hleft : ∃ wa d, run (should_allow_with_state name) b = (wa, inr d) ∧ ambient wa = ambient b ∧
    (∀ k, vw (repo (base (guarded (of_user w').1))) k =
       if decide (k = name) then if ok0 then row_rule name wa v1 (counts_as (f (user w)).2) else v1
       else vw (repo b) k) ∧
    user (of_user w').1 = (if ok0 then (f (user w)).1 else user w) ∧
    invoked (of_user w').1 = (if ok0 then invoked w ++ [name] else invoked w)).
  { exists wa, d. split_and!; [done|done| | |exact Hi].
    - intros k. cbn. rewrite Hv. case_decide; [|done]. destruct ok0; [apply Hrec|done].
    - cbn. rewrite Hu. by destruct ok0. }
  destruct ok0; [destruct (f (user w)) as [u r] eqn:Ef; cbn in *; rewrite Ef; destruct r as [[e|x]|v]|];
    (eexists _, _; split; [reflexivity|exact Hleft]).
Qed.

(** Without guards, hooks and sinks a protected call is its chain. *)
Lemma run_protect_bare stages settle (fn : pyprog W A B V) w :
  (∀ x, settle x = pret ()) →
  run (protect none app_marker error_text (λ _, "") true (PolicyComposer stages [] [] [] false None) settle fn) w =
  let '(w', r) := run (execute_policy_chain none app_marker error_text stages fn) w in
  match r with inl x => (w', inl x) | inr r => run (finalize_value none (λ _, "") r) w' end.
Proof.
  intros Hsettle. unfold protect. cbn [negb]. rewrite run_bind. unfold Composer.execute.
  cbn [guards check_guards policies failure_capture_name]. rewrite run_pbind, run_pret, run_pbind.
  destruct (run (execute_policy_chain _ _ _ _ _) w) as [w' [x|r]].
  { by rewrite Hsettle, run_pbind. }
  cbn beta iota. destruct (is_success r); rewrite run_pbind; cbn; [done|].
  by destruct (terminal_reaches_sinks _ _ _), (result_error r).
Qed.

(** C14: A protected call with the breaker and a constant fallback
    ([fallback=lambda: v]; no timeout, retry, idempotency key or DLQ), run on its own,
    with the breaker enabled, not in observe-only mode, without a threshold override
    or a refusing downstream checker, not rate-limited by what the function gives,
    and with a classification that does not take the breaker's own refusal for an
    invalid request: a call the breaker refuses is answered by the fallback without starting
    the function; a call whose function raises is answered by the fallback, unless
    the error says that the request itself is invalid, and the breaker has counted
    the failure before; a call whose function returns gets its value; an interrupt
    passes.  The function is started exactly when the admission rule says so, once,
    and the breaker's rows are the ones its rules give.  With protection switched
    off the call is the bare function's. *)
Theorem protected_call_with_fallback name key v settle (fn : pyprog W A B V) f (w : W) :
  acts_as (λ _, fn) f → ready name w → unlimited (f (user w)).2 →
  is_invalid_request cls (CircuitBreakerOpenError name) = false → (∀ x, settle x = pret ()) →
  let b := base (guarded w) in
  let ok := (admission_rule (clock b) (config b) (is_lockdown (emergency b)) (vw (repo b) name)).1 in
  run (protect none app_marker error_text (λ _, "") false (with_fallback name key v) settle fn) w = run fn w ∧
  ∃ w', run (protect none app_marker error_text (λ _, "") true (with_fallback name key v) settle fn) w =
      (w', if ok
           then match (f (user w)).2 with
                | inr x => inr x
                | inl (Exc e) => if is_invalid_request cls e then inl (Exc e) else inr v
                | inl (Base x) => inl (Base x)
                end
           else inr v) ∧
    breaker_leaves name w w' f ok.
Proof.
  intros Hfn Hready Hnl Hopen Hsettle b ok. split; [done|].
  destruct (breaker_inside name key fn f w (ChainAcc [] 1) Hfn Hready Hnl) as (w' & a' & Hrun & Hleft).
  fold b in Hrun, Hleft. fold ok in Hrun, Hleft. exists w'. split; [|exact Hleft].
  unfold with_fallback. rewrite run_protect_bare by done. unfold execute_policy_chain.
  rewrite run_bind, run_with_local. cbn [reverse rev_append foldl wrap].
  set (fb := FallbackPolicy _ _ _ _ _).
  assert (Hpred : ∀ e, predicate fb (Result None (classify app_marker e) (Some e) [] 1 []) =
                       negb (is_invalid_request cls e)).
  { intros e. cbn. unfold default_predicate. cbn [outcome result_error].
    rewrite bool_decide_eq_false_2 by apply classified_failing. done. }
  assert (Hfail : ∀ e a, run (finalize_value (B := B) none (λ _, "") (build_failure_result app_marker e
    (stage_name <$> [Fallback fb; Regular (breaker_stage st l2 cls name key)]) a)) w' = (w', inl (Exc e))).
  { intros e a. unfold finalize_value, is_success. cbn [outcome build_failure_result]. unfold classify.
    by destruct (classify_failing app_marker e) as [->|[->| ->]]. }
  unfold fallback_wrapper. rewrite run_except, Hrun.
  destruct ok; [destruct (f (user w)) as [u [[e|x]|x]]; cbn [snd in_chain]|]; [| done | done |].
  - rewrite Hpred. destruct (is_invalid_request cls e); cbn [negb]; [apply Hfail|].
    rewrite run_pbind, run_within. done.
  - rewrite Hpred, Hopen. cbn [negb]. rewrite run_pbind, run_within. done.
Qed.
End protected.

(** ** Witnesses *)

Definition sample_composer : composer (W := cworld memory unit Z string Z) (A := string) (V := Z) (B := unit) :=
  with_fallback shipped_settings no_l2 plain_classifier "db" None 42.

Lemma protected_call_with_fallback_witness :
  ∃ w', run (protect 0 (λ _, NoMarker) (λ _, "") (λ _, "") true sample_composer (λ _, pret ()) (app_call flaky_app None))
      (quiet_process (boot default_config 1000)) = (w', inr 42) ∧
    user w' = 1 ∧ invoked w' = ["db"].
Proof.
  destruct (protected_call_with_fallback shipped_settings no_l2 plain_classifier 0 (λ _, NoMarker) (λ _, "")
    "db" None 42 (λ _, pret ()) (app_call flaky_app None) flaky_app (quiet_process (boot default_config 1000)))
    as (_ & w' & Hr & Hl);
    [intros i; exact (app_call_acts flaky_app None)
    |split_and!; [apply (boot_ok default_config 1000)|reflexivity|reflexivity|constructor|reflexivity]
    |reflexivity|reflexivity|reflexivity|].
  destruct Hl as (_ & _ & _ & _ & _ & Hu & Hi). exists w'. split; [exact Hr|split; [exact Hu|exact Hi]].
Defined.

(** The breaker and the fallback of [protect], with the application's calls as
    what is counted. *)
Lemma function_called_at_most_once_witness :
  spends_by (λ w : cworld memory unit Z string Z, user w) (λ w, w) 1
    (Composer.execute 0 (λ _, NoMarker) (λ _, "") sample_composer (app_call flaky_app None)).
Proof.
  apply (function_called_at_most_once 0 (λ _, NoMarker) (λ _, "") (λ w : cworld memory unit Z string Z, user w)
    sample_composer (app_call flaky_app None)).
  - apply Forall_cons; split; [|apply Forall_singleton].
    + split_and!; [constructor|intros c o [= <-]; apply spends_ret|discriminate].
    + exact (breaker_at_most_once shipped_settings no_l2 plain_classifier (λ n : Z, n) "db" None).
  - repeat constructor.
  - intros n w _. cbn. destruct (flaky_app (user w)) as [u r] eqn:E. injection E as <- <-. cbn. split; [done|lia].
Defined.
