(* ===== verification/AuditLedger.v ===== *)
(** * The audit ledger and its tail

    Rows of the audit trail and their fingerprint ([audit/integrity/models.py]),
    the ledger files a host appends them to, and the reader that finds the
    highest-numbered entry on disk from the end of the newest files
    ([audit/integrity/ledger_tail.py]).

    A ledger file is its lines; a line is its length in bytes, with the newline,
    and what its text parses to.  JSON text itself is not modelled: a row that is
    written parses back to [on_disk] of it.  Daily files are named by an ISO date,
    so a file is identified by its day and the names sort as the days do. *)
From S2P Require Import Prelude.

(** ** JSON values *)

(** An object maps names to values: the fingerprint sorts the keys, so their
    order never matters.  An entry in memory may hold a Python object JSON has no
    form for: its [str()], and what orjson writes for it on its own, if
    anything. *)
Inductive json : Type :=
| JNull
| JBool (b : bool)
| JInt (z : Z)
| JFloat (text : string)
| JStr (s : string)
| JArr (l : list json)
| JObj (m : gmap string json)
| JNative (text : string) (orjson : option json).

Notation entry := (gmap string json).

(** [fast_canonical_dumps(default=str)], as the value its text parses to. *)
Fixpoint canonical (j : json) : json :=
  match j with
  | JArr l => JArr (canonical <$> l)
  | JObj m => JObj (canonical <$> m)
  | JNative text _ => JStr text
  | j => j
  end.

(** [fast_dumps_str(default=str)], likewise: orjson, where it is installed, writes
    what it knows natively its own way, and [null] for a float JSON lacks. *)
Fixpoint on_disk (orjson : bool) (j : json) : json :=
  match j with
  | JArr l => JArr (on_disk orjson <$> l)
  | JObj m => JObj (on_disk orjson <$> m)
  | JNative text form => if orjson then default (JStr text) form else JStr text
  | JFloat t => if orjson && bool_decide (t ∈ ["NaN"; "Infinity"; "-Infinity"]) then JNull else JFloat t
  | j => j
  end.

(** [bool(x)] *)
Definition truthy (j : json) : bool :=
  match j with
  | JNull => false
  | JBool b => b
  | JInt z => negb (z =? 0)
  | JFloat t => negb (bool_decide (t ∈ ["0.0"; "-0.0"]))
  | JStr s => negb (bool_decide (s = ""))
  | JArr l => negb (bool_decide (l = []))
  | JObj m => negb (bool_decide (map_to_list m = []))
  | JNative _ _ => true
  end.

(** ** Fingerprints *)

Section fingerprint.
  (** SHA-256, and HMAC-SHA256 under a key, of the canonical text of a value. *)
  Context (sha256 : json → string) (hmac_sha256 : string → json → string).

(** [_audit_signing_key] *)
Definition audit_signing_key (secret : string) : option string :=
  if bool_decide (secret = "") then None else Some secret.

Definition compute_hash (key : option string) (data : entry) : string :=
  let payload := canonical (JObj data) in
  match key with Some k => hmac_sha256 k payload | None => sha256 payload end.
End fingerprint.

Definition INTEGRITY_RESERVED_KEYS : list string :=
  ["sequence"; "previous_hash"; "timestamp"; "pod_id"; "current_hash"].

Definition sanitize_integrity_annotations (annotations : entry) : entry :=
  filter (λ kv, kv.1 ∉ INTEGRITY_RESERVED_KEYS) annotations.

(** [record_source_reset]: the stamp. *)
Definition record_source_reset (manager reason : string) (observed : option Z) (adopted : Z) : entry :=
  {[ "source_reset" := JObj (list_to_map [("manager", JStr manager); ("reason", JStr reason);
       ("observed", match observed with Some z => JInt z | None => JNull end); ("adopted", JInt adopted)]) ]}.

(** ** Rows *)

Definition integrity_block (row : json) : option entry :=
  match row with
  | JObj m => match m !! "integrity" with Some (JObj d) => Some d | _ => None end
  | _ => None
  end.

(** [x if isinstance(x, str) else ""]; also [x or ""] of a hash. *)
Definition text_or_empty (j : option json) : string := match j with Some (JStr s) => s | _ => "" end.

(** An [int]; a [bool] is one too. *)
Definition as_int (j : json) : option Z :=
  match j with JInt z => Some z | JBool b => Some (if b then 1 else 0) | _ => None end.

(** ** Files *)

Inductive text : Type :=
| Blank
| Garbled
| Parsed (row : json).

Record line : Type := Line { line_size : Z; line_text : text }.

(** Complete lines, and what an interrupted write left after the last newline. *)
Record ledger_file : Type := LedgerFile { lines : list line; unterminated : option line }.

Definition file_size (f : ledger_file) : Z :=
  Zsum (line_size <$> lines f) + match unterminated f with Some l => line_size l | None => 0 end.

Definition is_blank (l : line) : bool := match line_text l with Blank => true | _ => false end.

(** [list_ledger_files]: newest first. *)
Definition list_ledger_files (files : dict Z ledger_file) : list (Z * ledger_file) :=
  reverse (sort_by fst files).

(** ** The tail reader *)

Definition LEDGER_TAIL_INITIAL_WINDOW_BYTES : Z := 32768.
Definition LEDGER_TAIL_MIN_LINES : Z := 32.
Definition LEDGER_TAIL_MAX_WINDOW_BYTES : Z := 8 * 1024 * 1024.
Definition LEDGER_TAIL_HEAD_PROBE_BYTES : Z := 32768.
Definition LEDGER_TAIL_MAX_TOTAL_BYTES : Z := 64 * 1024 * 1024.

Record ledger_tail : Type := LedgerTail { tail_sequence : Z; tail_hash : string }.

(** The positive number and the hash a line offers. *)
Definition offers (l : line) : option (Z * string) :=
  match line_text l with
  | Parsed row =>
      d ← integrity_block row;
      z ← as_int (default (JInt 0) (d !! "sequence"));
      Some (z, text_or_empty (d !! "current_hash"))
  | _ => None
  end.

Definition better (best : Z * string) (l : line) : Z * string :=
  match offers l with
  | Some (z, h) => if best.1 <? z then (z, h) else best
  | None => best
  end.

(** [_scan_window], of the complete lines of the window. *)
Definition scan_window (segments : list line) : option (Z * string) * Z :=
  let best := foldl better (0, "") segments in
  (if 0 <? best.1 then Some best else None, countb (λ l, negb (is_blank l)) segments).

(** The lines a window of the last [room] bytes holds: those that begin after its
    first byte, [used] bytes being taken already; the lines come last first. *)
Fixpoint fitting (room used : Z) (last_first : list line) : list line :=
  match last_first with
  | [] => []
  | l :: ls => if used + line_size l <? room then fitting room (used + line_size l) ls ++ [l] else []
  end.

Definition tail_lines (f : ledger_file) (read_size : Z) : list line :=
  if file_size f <=? read_size then lines f
  else fitting read_size (match unterminated f with Some l => line_size l | None => 0 end) (reverse (lines f)).

(** The complete lines of the first [room] bytes. *)
Fixpoint head_lines (room : Z) (l : list line) : list line :=
  match l with
  | [] => []
  | x :: l => if line_size x <=? room then x :: head_lines (room - line_size x) l else []
  end.

(** [_terminal]; [None]: it raises. *)
Definition terminal (best : option (Z * string)) (complete_lines : Z) (reached_file_start : bool) :
    option (option ledger_tail) :=
  if negb reached_file_start && bool_decide (best = None) && (complete_lines =? 0) then None
  else Some ((λ b, LedgerTail b.1 b.2) <$> best).

(** The chain-less file of [_read_file_tail]: neither end holds a chain. *)
Definition chain_less (f : ledger_file) (best : option (Z * string)) (complete_lines : Z) : bool :=
  let '(head_best, head_count) := scan_window (head_lines LEDGER_TAIL_HEAD_PROBE_BYTES (lines f)) in
  bool_decide (best = None) && (1 <=? complete_lines) && bool_decide (head_best = None) && (1 <=? head_count).

(** One turn of the loop of [_read_file_tail]: it ends ([inl None]: it raises), or
    goes on with a larger window, having read so many bytes. *)
Definition look_once (f : ledger_file) (window_size bytes_read : Z) (head_probed : bool) :
    option (option ledger_tail * Z) + Z :=
  let read_size := Z.min (file_size f) window_size in
  let bytes_read := bytes_read + read_size in
  let reached_file_start := file_size f <=? read_size in
  let '(best, complete_lines) := scan_window (tail_lines f read_size) in
  if bool_decide (is_Some best) && (LEDGER_TAIL_MIN_LINES <=? complete_lines) then
    inl (Some ((λ b : Z * string, LedgerTail b.1 b.2) <$> best, bytes_read))
  else if reached_file_start || (LEDGER_TAIL_MAX_WINDOW_BYTES <=? window_size) then
    inl (t ← terminal best complete_lines reached_file_start; Some (t, bytes_read))
  else if head_probed then inr bytes_read
  else
    let bytes_read := bytes_read + Z.min (file_size f) LEDGER_TAIL_HEAD_PROBE_BYTES in
    if chain_less f best complete_lines then inl (Some (None, bytes_read)) else inr bytes_read.

(** The loop, of at most [fuel] windows. *)
Fixpoint grow (fuel : nat) (f : ledger_file) (window_size bytes_read : Z) (head_probed : bool) :
    option (option ledger_tail * Z) :=
  match fuel with
  | O => None
  | S fuel =>
      match look_once f window_size bytes_read head_probed with
      | inl r => r
      | inr bytes_read => grow fuel f (2 * window_size) bytes_read true
      end
  end.

(** The window doubles from 32 KiB to 8 MiB: nine windows. *)
Definition WINDOWS : nat := 9.

Definition read_file_tail (f : ledger_file) : option (option ledger_tail * Z) :=
  if file_size f =? 0 then Some (None, 0)
  else grow WINDOWS f LEDGER_TAIL_INITIAL_WINDOW_BYTES 0 false.

(** The walk of [LedgerTailReader.read]. *)
Fixpoint read_walk (l : list (Z * ledger_file)) (total_read : Z) : option (option ledger_tail) :=
  match l with
  | [] => Some None
  | (_, f) :: l =>
      '(tail, file_bytes) ← read_file_tail f;
      let total_read := total_read + file_bytes in
      match tail with
      | Some t => Some (Some t)
      | None => if LEDGER_TAIL_MAX_TOTAL_BYTES <=? total_read then None else read_walk l total_read
      end
  end.

(** [LedgerTailReader.read]; [None]: it raises [OSError]. *)
Definition read_tail (files : dict Z ledger_file) : option (option ledger_tail) :=
  read_walk (list_ledger_files files) 0.

(** ** What the reader finds *)

Lemma Zsum_cons z l : Zsum (z :: l) = z + Zsum l.
Proof. done. Qed.

Lemma sizes_nonneg (l : list line) : Forall (λ x, 0 <= line_size x) l → 0 <= Zsum (line_size <$> l).
Proof. induction 1; [done|]. rewrite fmap_cons, Zsum_cons. lia. Qed.

(** [fitting] takes whole lines from the end, and as many as fit. *)
Lemma fitting_take room used r : ∃ k, fitting room used r = reverse (take k r).
Proof.
  revert used. induction r as [|l r IH]; intros used; cbn [fitting]; [by exists O|].
  case_match; [|by exists O]. destruct (IH (used + line_size l)) as [k ->]. exists (S k).
  cbn [take]. by rewrite reverse_cons.
Qed.

Lemma fitting_app room used r1 r2 :
  Forall (λ l, 0 <= line_size l) r1 → used + Zsum (line_size <$> r1) < room →
  ∃ k, fitting room used (r1 ++ r2) = reverse (r1 ++ take k r2).
Proof.
  intros Hr. revert used. induction Hr as [|l r Hl Hr IH]; intros used Hroom.
  { destruct (fitting_take room used r2) as [k Hk]. by exists k. }
  rewrite fmap_cons, Zsum_cons in Hroom. pose proof (sizes_nonneg r Hr).
  cbn [app fitting]. rewrite (proj2 (Z.ltb_lt _ _)) by lia.
  destruct (IH (used + line_size l)) as [k ->]; [lia|]. exists k. by rewrite reverse_cons.
Qed.

(** The entry numbered [s] with hash [h] is the highest of these lines. *)
Definition tops (s : Z) (h : string) (l : list line) : Prop :=
  (∃ x, x ∈ l ∧ offers x = Some (s, h)) ∧
  (∀ x z h', x ∈ l → offers x = Some (z, h') → z < s ∨ (z = s ∧ h' = h)).

Lemma foldl_better s h l best :
  (∀ x z h', x ∈ l → offers x = Some (z, h') → z < s ∨ (z = s ∧ h' = h)) →
  best.1 < s ∨ best = (s, h) →
  best = (s, h) ∨ (∃ x, x ∈ l ∧ offers x = Some (s, h)) →
  foldl better best l = (s, h).
Proof.
  revert best. induction l as [|x l IH]; intros best Hle Hb Hex; cbn.
  { destruct Hex as [?|(y & Hy & _)]; [done|]. by apply not_elem_of_nil in Hy. }
  assert (Hx := Hle x). apply IH.
  - intros y z h' Hy. apply Hle. by right.
  - unfold better. destruct (offers x) as [[z h']|]; [|done].
    destruct (Hx z h') as [?|[-> ->]]; [by left|done|..]; case_match; auto.
  - unfold better. destruct Hex as [->|(y & [<-|Hy]%elem_of_cons & Ho)].
    + left. destruct (offers x) as [[z h']|]; [|done].
      destruct (Hx z h') as [?|[-> ->]]; [by left|done|..]; cbn; case_match; auto.
      apply Z.ltb_lt in H0. lia.
    + left. rewrite Ho. destruct Hb as [Hb| ->]; [by rewrite (proj2 (Z.ltb_lt _ _))|].
      cbn. by rewrite Z.ltb_irrefl.
    + right. eauto.
Qed.

Lemma scan_tops s h l : 0 < s → tops s h l → (scan_window l).1 = Some (s, h).
Proof.
  intros Hs [Hex Hle]. unfold scan_window. rewrite (foldl_better s h); [|done|by left|by right].
  cbn. by rewrite (proj2 (Z.ltb_lt _ _)).
Qed.

Lemma better_le b l : b.1 <= (foldl better b l).1.
Proof.
  revert b. induction l as [|x l IH]; intros b; cbn; [done|]. etrans; [|apply IH].
  unfold better. destruct (offers x) as [[z h]|]; [|done]. case_match; [|done]. apply Z.ltb_lt in H. cbn. lia.
Qed.

Lemma scan_some x z h l : offers x = Some (z, h) → 0 < z → (scan_window (x :: l)).1 ≠ None.
Proof.
  intros Ho Hz. cbn. pose proof (better_le (better (0, "") x) l) as Hle. unfold better at 1 in Hle.
  rewrite Ho in Hle. cbn in Hle. rewrite (proj2 (Z.ltb_lt _ _) Hz) in Hle. cbn in Hle.
  by rewrite (proj2 (Z.ltb_lt _ _)) by lia.
Qed.

(** A file whose every line is a chained entry, whose highest entry is among its
    last 32 lines, and whose last lines are not too long. *)
Definition readable_tail (f : ledger_file) (s : Z) (h : string) : Prop :=
  unterminated f = None ∧
  Forall (λ l, 0 < line_size l ∧ ∃ z h', offers l = Some (z, h') ∧ 0 < z) (lines f) ∧
  tops s h (lines f) ∧
  ∃ old recent, lines f = old ++ recent ∧ tops s h recent ∧ Zlength recent <= LEDGER_TAIL_MIN_LINES ∧
    Zsum (line_size <$> recent) < LEDGER_TAIL_MAX_WINDOW_BYTES.

Lemma offers_not_blank x : is_Some (offers x) → is_blank x = false.
Proof. unfold offers, is_blank. by destruct (line_text x); [intros []| |]. Qed.

Lemma scan_count l : Forall (λ x, is_Some (offers x)) l → (scan_window l).2 = Zlength l.
Proof.
  intros Hl. unfold scan_window, countb. cbn [snd]. f_equal.
  induction Hl as [|x l Hx Hl IH]; cbn; [done|]. rewrite offers_not_blank by done. cbn. by rewrite IH.
Qed.

Lemma Zsum_permutation l l' : l ≡ₚ l' → Zsum l = Zsum l'.
Proof. induction 1; rewrite ?Zsum_cons; lia. Qed.

(** A window holds the last lines of its file, and at least those that fit. *)
Lemma tail_lines_suffix f n : ∃ older, lines f = older ++ tail_lines f n.
Proof.
  unfold tail_lines. case_match; [by exists []|]. destruct (fitting_take n
    (match unterminated f with Some l => line_size l | None => 0 end) (reverse (lines f))) as [k ->].
  exists (reverse (drop k (reverse (lines f)))). by rewrite <-reverse_app, take_drop, reverse_involutive.
Qed.

Lemma tail_lines_holds f n old recent :
  unterminated f = None → Forall (λ l, 0 <= line_size l) (lines f) → lines f = old ++ recent →
  Zsum (line_size <$> recent) < n → ∃ some, tail_lines f n = some ++ recent.
Proof.
  intros Hu Hpos Hl Hn. unfold tail_lines. rewrite Hu, Hl in *. apply Forall_app in Hpos as [_ Hpos].
  destruct (file_size f <=? n); [by exists old|]. rewrite reverse_app.
  destruct (fitting_app n 0 (reverse recent) (reverse old)) as [k ->]; [by apply Forall_reverse| |].
  { rewrite (Zsum_permutation _ (line_size <$> recent)); [lia|]. by apply fmap_Permutation, reverse_Permutation. }
  exists (reverse (take k (reverse old))). by rewrite reverse_app, reverse_involutive.
Qed.

Lemma suffix_of_longer {A} (a b c d : list A) : a ++ b = c ++ d → (length b <= length d)%nat → ∃ e, d = e ++ b.
Proof.
  intros Heq Hlen. apply (f_equal length) in Heq as Hl. rewrite !length_app in Hl.
  apply app_eq_inv in Heq as [(e & -> & ->)|(e & -> & ->)]; [by exists e|].
  rewrite length_app in Hlen. destruct e; cbn in *; [|lia]. by exists [].
Qed.

Lemma tops_suffix s h a b : tops s h (a ++ b) → (∃ x, x ∈ b ∧ offers x = Some (s, h)) → tops s h b.
Proof. intros [_ Hle] Hex. split; [done|]. intros x z h' Hx. apply Hle. apply elem_of_app. by right. Qed.

Lemma tail_positive f s h : readable_tail f s h → 0 < s.
Proof.
  intros (_ & Hall & [(x & Hx & Ho) _] & _). rewrite Forall_forall in Hall.
  destruct (Hall x Hx) as (_ & z & h' & Ho' & Hz). congruence.
Qed.

(** A window shows the highest entry, or it is too short to be trusted. *)
Lemma window_verdict f w s h :
  readable_tail f s h →
  let rs := Z.min (file_size f) w in
  let seen := scan_window (tail_lines f rs) in
  seen.1 = Some (s, h) ∨
  (seen.2 < LEDGER_TAIL_MIN_LINES ∧ w < LEDGER_TAIL_MAX_WINDOW_BYTES ∧ rs < file_size f ∧
   (1 <= seen.2 → seen.1 ≠ None)).
Proof.
  intros Hf rs seen. pose proof (tail_positive f s h Hf) as Hs.
  destruct Hf as (Hu & Hall & Htop & old & recent & Hl & Hrec & Hlen & Hsz).
  assert (Forall (λ l, 0 <= line_size l) (lines f)) as Hpos by (eapply Forall_impl; [done|]; intros ? []; lia).
  destruct (tail_lines_suffix f rs) as [older Holder].
  assert (Forall (λ l, ∃ z h', offers l = Some (z, h') ∧ 0 < z) (tail_lines f rs)) as Hwin.
  { rewrite Holder in Hall. apply Forall_app in Hall as [_ Hw]. eapply Forall_impl; [done|]. by intros ? []. }
  assert (seen.2 = Zlength (tail_lines f rs)) as Hcount.
  { apply scan_count. eapply Forall_impl; [done|]. intros x (z & h' & -> & _). eauto. }
  assert ((∃ some, tail_lines f rs = some ++ recent) → seen.1 = Some (s, h)) as Hsees.
  { intros [some Hsome]. apply scan_tops; [done|]. apply (tops_suffix s h older); [by rewrite <-Holder|].
    destruct Hrec as [(x & Hx & Ho) _]. exists x. rewrite Hsome. split; [|done]. apply elem_of_app. by right. }
  destruct (decide (length recent <= length (tail_lines f rs))%nat) as [Hle|Hgt].
  { left. apply Hsees. apply (suffix_of_longer old _ older); [congruence|done]. }
  right. assert (rs <= Zsum (line_size <$> recent)) as Hrs.
  { apply Z.nlt_ge. intros Hlt. destruct (tail_lines_holds f rs old recent) as [some Hsome]; [done..|].
    rewrite Hsome, length_app in Hgt. lia. }
  split_and!.
  - rewrite Hcount. unfold Zlength in *. lia.
  - apply Z.nle_gt. intros Hw. subst rs. unfold tail_lines in Hgt.
    destruct (file_size f <=? Z.min (file_size f) w) eqn:E; [|lia].
    rewrite Hl, length_app in Hgt. lia.
  - apply Z.nle_gt. intros Hle. unfold tail_lines in Hgt. rewrite (proj2 (Z.leb_le _ _) Hle) in Hgt.
    rewrite Hl, length_app in Hgt. lia.
  - rewrite Hcount. destruct (tail_lines f rs) as [|x l] eqn:El; [done|]. intros _.
    apply Forall_cons in Hwin as [(z & h' & Ho & Hz) _]. subst seen. by apply (scan_some x z h').
Qed.

Lemma not_chain_less f best count : best ≠ None ∨ count < 1 → chain_less f best count = false.
Proof.
  unfold chain_less. destruct (scan_window _) as [hb hc]. intros [Hb|Hc].
  - by rewrite bool_decide_eq_false_2.
  - by rewrite (proj2 (Z.leb_gt 1 count)), andb_false_r.
Qed.

Lemma look_once_finds f w n probed s h :
  readable_tail f s h →
  (∃ b, look_once f w n probed = inl (Some (Some (LedgerTail s h), b))) ∨
  (w < LEDGER_TAIL_MAX_WINDOW_BYTES ∧ ∃ b, look_once f w n probed = inr b).
Proof.
  intros Hf. unfold look_once. destruct (window_verdict f w s h Hf) as [Hsees|(Hfew & Hw & Hrs & Hnone)];
    destruct (scan_window (tail_lines f (Z.min (file_size f) w))) as [best count]; cbn [fst snd] in *.
  - subst best. rewrite bool_decide_eq_true_2, not_chain_less by eauto. cbn [andb].
    destruct (_ <=? count); [eauto|]. destruct (_ || _) eqn:Eo.
    { unfold terminal. rewrite bool_decide_eq_false_2, andb_false_r by done. cbn. eauto. }
    apply orb_false_iff in Eo as [_ Eo%Z.leb_gt]. right. destruct probed; eauto.
  - rewrite (proj2 (Z.leb_gt _ count)), andb_false_r by lia. rewrite (proj2 (Z.leb_gt _ w)), orb_false_r by lia.
    rewrite (proj2 (Z.leb_gt (file_size f) _)) by lia. rewrite not_chain_less.
    + right. destruct probed; eauto.
    + destruct (decide (1 <= count)); [left; auto|right; lia].
Qed.

Lemma grow_finds fuel f w n probed s h :
  readable_tail f s h → LEDGER_TAIL_MAX_WINDOW_BYTES <= w * 2 ^ Z.of_nat fuel →
  ∃ b, grow (S fuel) f w n probed = Some (Some (LedgerTail s h), b).
Proof.
  intros Hf. revert w n probed. induction fuel as [|fuel IH]; intros w n probed Hmax;
    [rewrite Z.pow_0_r in Hmax|rewrite Nat2Z.inj_succ, Z.pow_succ_r in Hmax by lia];
    cbn [grow]; destruct (look_once_finds f w n probed s h Hf) as [[b ->]|[Hw [b ->]]]; eauto; [lia|].
  apply IH. lia.
Qed.

Lemma read_file_tail_finds f s h :
  readable_tail f s h → ∃ b, read_file_tail f = Some (Some (LedgerTail s h), b).
Proof.
  intros Hf. unfold read_file_tail. case_match eqn:E; [|by apply (grow_finds 8)].
  apply Z.eqb_eq in E. destruct Hf as (Hu & Hall & [(x & Hx & _) _] & _). unfold file_size in E. rewrite Hu in E.
  destruct (lines f) as [|y l]; [by apply not_elem_of_nil in Hx|]. apply Forall_cons in Hall as [[Hy _] Hall].
  rewrite fmap_cons, Zsum_cons in E.
  pose proof (sizes_nonneg l ltac:(eapply Forall_impl; [exact Hall|]; intros ? []; lia)). lia.
Qed.

Lemma read_tail_finds files d f rest s h :
  list_ledger_files files = (d, f) :: rest → readable_tail f s h →
  read_tail files = Some (Some (LedgerTail s h)).
Proof.
  intros Hl Hf. unfold read_tail. rewrite Hl. cbn [read_walk].
  destruct (read_file_tail_finds f s h Hf) as [b ->]. done.
Qed.

(** Nine windows are enough: more fuel changes nothing, so [None] means that the
    code raises. *)
Lemma windows_suffice fuel k f w n probed :
  LEDGER_TAIL_MAX_WINDOW_BYTES <= w * 2 ^ Z.of_nat fuel →
  grow (S fuel + k) f w n probed = grow (S fuel) f w n probed.
Proof.
  revert w n probed. induction fuel as [|fuel IH]; intros w n probed Hmax; cbn [Nat.add grow];
    [rewrite Z.pow_0_r in Hmax|rewrite Nat2Z.inj_succ, Z.pow_succ_r in Hmax by lia];
    destruct (look_once f w n probed) as [r|b] eqn:E; [done| |done|apply IH; lia].
  unfold look_once in E. destruct (scan_window _) as [best count].
  rewrite (proj2 (Z.leb_le _ w)), orb_true_r in E by lia. by case_match.
Qed.
