(* ===== verification/AuditChain.v ===== *)
(** * The audit hash chain

    [HashChainManager] ([audit/integrity/local_manager.py]) numbers the entries of
    the audit trail and links each to the one before; the file adapter
    ([adapters/audit/hashchain_adapter.py], [_write_dict]) appends what the manager
    returns to the day's ledger file.  Several processes share the directory: a
    manager numbers an entry under the lock of the state file, and the append
    happens after that lock is released, so rows reach the disk out of order.

    A [site] is a directory with the processes that write to it, each with the row
    it has numbered and not yet appended; [apply_event] is one step of one of
    them, or of what can happen to the directory. *)
From S2P Require Import Prelude AuditLedger.

Definition GENESIS_HASH : string := "GENESIS".

(** What is under the name of the state file. *)
Inductive state_file : Type :=
| NoState
| Unreadable
| Saved (sequence : option Z) (previous_hash : option string).

(** The directory, and what a call finds out about the world. *)
Record volume : Type := Volume {
  chain_state : state_file;
  state_writable : bool;
  files : dict Z ledger_file;
  ledger_readable : bool;
  ledger_writable : bool;
  today : Z;
}.

Record manager : Type := Manager {
  has_state_file : bool;
  use_file_lock : bool;
  ledger_wired : bool;
  sequence : Z;
  previous_hash : string;
  state_loaded : bool;
}.

Definition set_state (v : volume) (st : state_file) : volume :=
  Volume st (state_writable v) (files v) (ledger_readable v) (ledger_writable v) (today v).
Definition set_files (v : volume) (fs : dict Z ledger_file) : volume :=
  Volume (chain_state v) (state_writable v) fs (ledger_readable v) (ledger_writable v) (today v).
Definition set_chain (m : manager) (s : Z) (h : string) (loaded : bool) : manager :=
  Manager (has_state_file m) (use_file_lock m) (ledger_wired m) s h loaded.

(** ** [HashChainManager] *)

Definition load_state (m : manager) (v : volume) : manager * bool :=
  let unloaded := (set_chain m (sequence m) (previous_hash m) false, false) in
  if negb (has_state_file m) then unloaded
  else match chain_state v with
       | Saved s h => (set_chain m (default 0 s) (default GENESIS_HASH h) true, true)
       | NoState | Unreadable => unloaded
       end.

Definition manager_init (state_file use_file_lock ledger_wired : bool) (v : volume) : manager :=
  let m := Manager state_file use_file_lock ledger_wired 0 GENESIS_HASH false in
  if state_file then (load_state m v).1 else m.

Definition save_state (m : manager) (v : volume) : volume :=
  if has_state_file m && state_writable v then set_state v (Saved (Some (sequence m)) (Some (previous_hash m)))
  else v.

Definition persist_state (m : manager) (v : volume) : volume :=
  if use_file_lock m && has_state_file m then v else save_state m v.

(** [_reconcile_with_ledger]; [None]: [HashChainSequenceRefusedError]. *)
Definition reconcile_with_ledger (m : manager) (v : volume) (loaded : bool) : option (manager * entry) :=
  if negb (ledger_wired m) then Some (m, ∅)
  else
    t ← (if ledger_readable v then read_tail (files v) else None);
    match t with
    | None => Some (m, ∅)
    | Some t =>
        let stamp := λ reason, record_source_reset "local" reason (Some (sequence m + 1)) (tail_sequence t) in
        if sequence m <? tail_sequence t then
          Some (set_chain m (tail_sequence t) (tail_hash t) (state_loaded m),
                stamp (if loaded then "source_behind_ledger" else "state_unreadable"))
        else if (sequence m =? tail_sequence t) && negb (bool_decide (previous_hash m = tail_hash t)) then
          Some (set_chain m (sequence m) (tail_hash t) (state_loaded m), stamp "state_hash_stale")
        else Some (m, ∅)
    end.

Section manager.
  Context (sha256 : json → string) (hmac_sha256 : string → json → string).
  (** The signing key in force, the time, and whether orjson is installed. *)
  Context (key : option string).
Notation compute_hash := (compute_hash sha256 hmac_sha256 key).

(** The block [_compute_and_persist] adds, without its own hash. *)
Definition new_block (m : manager) (annotations : entry) (timestamp : string) : entry :=
  <["sequence" := JInt (sequence m + 1)]> (<["previous_hash" := JStr (previous_hash m)]>
    (<["timestamp" := JStr timestamp]> (sanitize_integrity_annotations annotations))).

Definition compute_and_persist (m : manager) (v : volume) (e annotations : entry) (timestamp : string) :
    manager * volume * entry :=
  let block := new_block m annotations timestamp in
  let current_hash := compute_hash (<["integrity" := JObj block]> e) in
  let m := set_chain m (sequence m + 1) current_hash (state_loaded m) in
  let v := if (has_state_file m && use_file_lock m) || (Z.modulo (sequence m) 10 =? 0) then save_state m v else v in
  (m, v, <["integrity" := JObj (<["current_hash" := JStr current_hash]> block)]> e).

(** [add_integrity]; [None]: the number is refused. *)
Definition add_integrity (m : manager) (v : volume) (e annotations : entry) (timestamp : string) :
    manager * volume * option entry :=
  let '(m, loaded) := if has_state_file m && use_file_lock m then load_state m v else (m, state_loaded m) in
  match reconcile_with_ledger m v loaded with
  | None => (m, v, None)
  | Some (m, repair) =>
      let '(m, v, e) := compute_and_persist m v e (annotations ∪ repair) timestamp in (m, v, Some e)
  end.

Definition get_state (m : manager) : Z * string :=
  (sequence m, if (16 <? String.length (previous_hash m))%nat
               then String.substring 0 16 (previous_hash m) +:+ "..." else previous_hash m).

(** [reset], of the source only. *)
Definition reset (m : manager) (v : volume) : manager * volume :=
  (set_chain m 0 GENESIS_HASH false, if has_state_file m then set_state v NoState else v).
End manager.

(** ** The adapter *)

(** A complete line appended to a file; after an interrupted write it continues
    the torn line. *)
Definition append_to (f : ledger_file) (l : line) : ledger_file :=
  match unterminated f with
  | None => LedgerFile (lines f ++ [l]) None
  | Some torn =>
      LedgerFile (lines f ++ [Line (line_size torn + line_size l)
                                (match line_text torn with Blank => line_text l | _ => Garbled end)]) None
  end.

Definition append_line (v : volume) (l : line) : volume :=
  set_files v (dset (files v) (today v) (append_to (default (LedgerFile [] None) (dget (files v) (today v))) l)).

(** ** A directory and its writers *)

Record writer : Type := Writer { mgr : manager; holding : option entry }.

Record site : Type := Site { vol : volume; writers : list writer }.

Inductive event : Type :=
| Mint (i : nat) (e annotations : entry) (timestamp : string)   (** a process numbers an entry *)
| Append (i : nat) (size : Z)                                   (** and appends it, in so many bytes *)
| Crash (i : nat)                                               (** or dies first *)
| Restart (i : nat)                                             (** a process is replaced *)
| NextDay (d : Z)
| LoseSource (st : state_file)                                  (** the state file is removed, truncated, restored *)
| LedgerFault (readable : bool)
| Tear (torn : line).                                           (** an append is interrupted *)

Section site.
  Context (sha256 : json → string) (hmac_sha256 : string → json → string).
  Context (key : option string) (orjson : bool).

Definition update_writer (s : site) (v : volume) (i : nat) (w : writer) : site :=
  Site v (<[i := w]> (writers s)).

(** [_write_dict] in two steps, and the rest; [None]: not possible here. *)
Definition apply_event (s : site) (ev : event) : option site :=
  let v := vol s in
  match ev with
  | Mint i e ann ts =>
      w ← writers s !! i;
      if bool_decide (is_Some (holding w)) then None
      else let '(m, v, r) := add_integrity sha256 hmac_sha256 key (mgr w) v e ann ts in
           Some (update_writer s v i (Writer m r))
  | Append i size =>
      w ← writers s !! i;
      e ← holding w;
      if negb (ledger_writable v) then Some (update_writer s v i (Writer (mgr w) None))
      else Some (update_writer s (append_line v (Line size (Parsed (on_disk orjson (JObj e))))) i (Writer (mgr w) None))
  | Crash i => w ← writers s !! i; Some (update_writer s v i (Writer (mgr w) None))
  | Restart i =>
      w ← writers s !! i;
      if bool_decide (is_Some (holding w)) then None
      else Some (update_writer s v i
             (Writer (manager_init (has_state_file (mgr w)) (use_file_lock (mgr w)) (ledger_wired (mgr w)) v) None))
  | NextDay d =>
      if today v <? d
      then Some (Site (Volume (chain_state v) (state_writable v) (files v) (ledger_readable v) (ledger_writable v) d)
                   (writers s))
      else None
  | LoseSource st => Some (Site (set_state v st) (writers s))
  | LedgerFault readable =>
      Some (Site (Volume (chain_state v) (state_writable v) (files v) readable (ledger_writable v) (today v)) (writers s))
  | Tear torn =>
      let f := default (LedgerFile [] None) (dget (files v) (today v)) in
      match unterminated f with
      | Some _ => None
      | None => Some (Site (set_files v (dset (files v) (today v) (LedgerFile (lines f) (Some torn)))) (writers s))
      end
  end.

Fixpoint replay (s : site) (evs : list event) : option site :=
  match evs with [] => Some s | ev :: evs => s ← apply_event s ev; replay s evs end.
End site.
