(* ===== verification/AuditVerify.v ===== *)
(** * Verifying an audit trail

    The walk of [audit/integrity/verifier.py]: a first pass over the rows in any
    order checks each entry's fingerprint and keeps a compact record, a second
    sorts the records by number and links them.  Findings carry their type, the
    numbers they concern and the place of the row; their prose is not modelled. *)
From S2P Require Import Prelude AuditLedger AuditChain.

Inductive fingerprint : Type := FINGERPRINT_OK | FINGERPRINT_UNKEYED | FINGERPRINT_BAD.

#[export] Instance fingerprint_eq_dec : EqDecision fingerprint.
Proof. solve_decision. Defined.

(** Where a row was read: the day of its file, and its line. *)
Record location : Type := At { in_file : option Z; at_line : option Z }.

Inductive issue_type : Type :=
| ISSUE_ENTRY_MODIFIED | ISSUE_CHAIN_BROKEN | ISSUE_MISSING_ENTRY | ISSUE_DUPLICATE_ENTRY | ISSUE_UNREADABLE_ROW
| ISSUE_UNCHAINED_ROW | ISSUE_UNKEYED_ENTRY | ISSUE_SIGNING_KEY_MISSING | ISSUE_SIGNING_KEY_MISMATCH.

Record issue : Type := Issue { issue_of : issue_type; first_of : option Z; last_of : option Z; issue_at : location }.

Inductive note : Type :=
| NOTE_CHAIN_FORK (sequence : Z) (explained : bool) (at_ : location)
| NOTE_NOT_HELD_HERE (first last : Z) (at_ : location)
| NOTE_HEAD_ABSENT (first last : Z) (at_ : location)
| NOTE_ROWS_WITHOUT_CHAIN (count : Z)
| NOTE_UNCHAINED (count : Z)
| NOTE_INCOMPLETE_LAST_LINE (at_ : location).

Definition nowhere : location := At None None.

(** [ChainStart] *)
Record chain_start : Type := ChainStart { start_sequence : Z; start_hash : option string }.

Definition CHAIN_BEGINNING : chain_start := ChainStart 0 (Some GENESIS_HASH).

(** [chain_start_at]; [None]: [ValueError]. *)
Definition chain_start_at (sequence : Z) : option chain_start :=
  if sequence <? 1 then None
  else if sequence =? 1 then Some CHAIN_BEGINNING
  else Some (ChainStart (sequence - 1) None).

(** [_Record] *)
Record record : Type := Rec {
  r_sequence : Z;
  r_previous_hash : string;
  r_stored_hash : string;
  r_at : location;
  redis_minted : bool;
  stamped : bool;
  r_verdict : fingerprint;
}.

Record trail_report : Type := TrailReport {
  intact : bool;
  entries : Z;
  rows : Z;
  first_sequence : option Z;
  last_sequence : option Z;
  issues : list issue;
  notes : list note;
}.

(** [TrailWalk] *)
Record walk : Type := TrailWalk {
  w_records : list record;
  w_unchained : list record;
  w_foreign : list (record * string);
  w_unreadable : list issue;
  w_incomplete : list note;
  w_rows : Z;
  w_rows_without_chain : list location;
}.

Definition new_walk : walk := TrailWalk [] [] [] [] [] 0 [].

(** ** The first pass *)

Definition add_unreadable (w : walk) (at_ : location) (counted : bool) : walk :=
  TrailWalk (w_records w) (w_unchained w) (w_foreign w)
    (w_unreadable w ++ [Issue ISSUE_UNREADABLE_ROW None None at_]) (w_incomplete w)
    (if counted then w_rows w else w_rows w + 1) (w_rows_without_chain w).

Definition add_incomplete_last_line (w : walk) (at_ : location) : walk :=
  TrailWalk (w_records w) (w_unchained w) (w_foreign w) (w_unreadable w)
    (w_incomplete w ++ [NOTE_INCOMPLETE_LAST_LINE at_]) (w_rows w) (w_rows_without_chain w).

Definition count_row (w : walk) : walk :=
  TrailWalk (w_records w) (w_unchained w) (w_foreign w) (w_unreadable w) (w_incomplete w) (w_rows w + 1)
    (w_rows_without_chain w).

Definition add_record (w : walk) (r : record) (foreign_partition : option string) : walk :=
  match foreign_partition with
  | Some p => TrailWalk (w_records w) (w_unchained w) (w_foreign w ++ [(r, p)]) (w_unreadable w) (w_incomplete w)
                (w_rows w) (w_rows_without_chain w)
  | None =>
      if 0 <? r_sequence r
      then TrailWalk (w_records w ++ [r]) (w_unchained w) (w_foreign w) (w_unreadable w) (w_incomplete w) (w_rows w)
             (w_rows_without_chain w)
      else TrailWalk (w_records w) (w_unchained w ++ [r]) (w_foreign w) (w_unreadable w) (w_incomplete w) (w_rows w)
             (w_rows_without_chain w)
  end.

Section verify.
  Context (sha256 : json → string) (hmac_sha256 : string → json → string).
  (** The signing key the check runs with. *)
  Context (key : option string).
Notation compute_hash := (compute_hash sha256 hmac_sha256).

(** What an entry's hash covers: the row without that hash. *)
Definition hashed_body (row integrity : entry) : entry :=
  <["integrity" := JObj (delete "current_hash" integrity)]> row.

(** [_fingerprint] *)
Definition fingerprint_of (row integrity : entry) (stored_hash : string) : fingerprint :=
  let body := hashed_body row integrity in
  if bool_decide (stored_hash = compute_hash key body) then FINGERPRINT_OK
  else if bool_decide (is_Some key) && bool_decide (stored_hash = compute_hash None body) then FINGERPRINT_UNKEYED
  else FINGERPRINT_BAD.

Definition record_of (m integrity : entry) (s : Z) (at_ : location) : record :=
  let stored_hash := text_or_empty (integrity !! "current_hash") in
  Rec s (text_or_empty (integrity !! "previous_hash")) stored_hash at_
    (bool_decide (is_Some (integrity !! "pod_id")))
    (bool_decide (is_Some (integrity !! "source_reset")) || truthy (default JNull (integrity !! "degraded")))
    (fingerprint_of m integrity stored_hash).

Definition add_row (w : walk) (row : json) (at_ : location) (foreign_partition : option string) : walk :=
  let w := count_row w in
  match row, integrity_block row with
  | JObj m, Some integrity =>
      match integrity !! "sequence" with
      | Some (JInt s) =>
          add_record w (record_of m integrity s at_) foreign_partition
      | _ => add_unreadable w at_ true
      end
  | _, _ =>
      TrailWalk (w_records w) (w_unchained w) (w_foreign w) (w_unreadable w) (w_incomplete w) (w_rows w)
        (w_rows_without_chain w ++ [at_])
  end.
End verify.

(** ** The second pass *)

Section linker.
  Context (w : walk) (keyed : bool) (start0 : option chain_start) (host_local head_absent_failing : bool).

Definition sorted_records : list record := sort_by r_sequence (w_records w).

Definition start : chain_start :=
  match start0, sorted_records with
  | Some s, _ => s
  | None, r :: _ => ChainStart (r_sequence r - 1) None
  | None, [] => CHAIN_BEGINNING
  end.

(** [_classify_key] *)
Definition classify_key : option issue :=
  let fingerprinted := w_records w ++ w_unchained w in
  let any v := existsb (λ r, bool_decide (r_verdict r = v)) fingerprinted in
  match fingerprinted with
  | [] => None
  | _ =>
      if any FINGERPRINT_OK then None
      else if negb keyed then Some (Issue ISSUE_SIGNING_KEY_MISSING None None nowhere)
      else if any FINGERPRINT_UNKEYED then None
      else Some (Issue ISSUE_SIGNING_KEY_MISMATCH None None nowhere)
  end.

Definition fingerprint_valid (r : record) : bool :=
  bool_decide (is_Some classify_key) || negb (bool_decide (r_verdict r = FINGERPRINT_BAD)).

(** [_lowest_sequence_holding] *)
Definition lowest_sequence_holding (stored_hash : string) : option Z :=
  r_sequence <$> List.find (λ r, negb (bool_decide (r_stored_hash r = "")) && bool_decide (r_stored_hash r = stored_hash))
                   sorted_records.

(** Findings, in the order they are made; an issue with the number it sorts by. *)
Record findings : Type := Findings { f_issues : list (Z * issue); f_notes : list note }.

Definition no_findings : findings := Findings [] [].
Definition and_issue (f : findings) (s : Z) (i : issue) : findings := Findings (f_issues f ++ [(s, i)]) (f_notes f).
Definition and_note (f : findings) (n : note) : findings := Findings (f_issues f) (f_notes f ++ [n]).

(** [_report_unkeyed], of a run of consecutive numbers. *)
Definition report_unkeyed (f : findings) (run : list record) : findings :=
  match run with
  | [] => f
  | r :: _ =>
      let hi := match last run with Some x => r_sequence x | None => r_sequence r end in
      and_issue f (r_sequence r) (Issue ISSUE_UNKEYED_ENTRY (Some (r_sequence r)) (Some hi) (r_at r))
  end.

(** [_report_fingerprints] *)
Definition fingerprint_step (acc : findings * list record) (r : record) : findings * list record :=
  let '(f, unkeyed_run) := acc in
  let f := if bool_decide (r_verdict r = FINGERPRINT_BAD)
           then and_issue f (r_sequence r) (Issue ISSUE_ENTRY_MODIFIED (Some (r_sequence r)) None (r_at r)) else f in
  if bool_decide (r_verdict r = FINGERPRINT_UNKEYED) then
    match last unkeyed_run with
    | Some x => if r_sequence x + 1 <? r_sequence r then (report_unkeyed f unkeyed_run, [r]) else (f, unkeyed_run ++ [r])
    | None => (f, [r])
    end
  else (f, unkeyed_run).

Definition report_fingerprints (f : findings) : findings :=
  match classify_key with
  | Some _ => f
  | None =>
      let '(f, unkeyed_run) :=
        foldl fingerprint_step (f, []) (sort_by r_sequence (w_unchained w ++ sorted_records)) in
      report_unkeyed f unkeyed_run
  end.

(** [_report_foreign] *)
Definition report_foreign (f : findings) : findings :=
  foldl (λ f rp, and_issue f (r_sequence rp.1) (Issue ISSUE_CHAIN_BROKEN (Some (r_sequence rp.1)) None (r_at rp.1)))
    f (w_foreign w).

(** [_report_gap] *)
Definition report_gap (f : findings) (first last : Z) (successors : list record) (head : bool) : findings :=
  let at_ := match successors with r :: _ => r_at r | [] => nowhere end in
  if host_local && existsb redis_minted successors then and_note f (NOTE_NOT_HELD_HERE first last at_)
  else if head && negb head_absent_failing then and_note f (NOTE_HEAD_ABSENT first last at_)
  else and_issue f first (Issue ISSUE_MISSING_ENTRY (Some first) (Some last) at_).

(** [_link_group]: one record, against its candidates; [false]: not linked. *)
Definition link_record (candidates : list string) (trusted : bool) (f : findings) (r : record) : findings * bool :=
  if trusted || bool_decide (r_previous_hash r ∈ candidates) then (f, true)
  else
    let linked_to :=
      if fingerprint_valid r then
        match lowest_sequence_holding (r_previous_hash r) with
        | Some found => bool_decide (found < r_sequence r)
        | None => false
        end
      else false in
    if linked_to then (and_note f (NOTE_CHAIN_FORK (r_sequence r) (stamped r) (r_at r)), true)
    else (and_issue f (r_sequence r) (Issue ISSUE_CHAIN_BROKEN (Some (r_sequence r)) None (r_at r)), false).

Definition link_group (f : findings) (group predecessors : list record) : findings * list (record * bool) :=
  let first_after_start := match group with r :: _ => r_sequence r =? start_sequence start + 1 | [] => false end in
  let trusted := first_after_start && negb (bool_decide (is_Some (start_hash start))) in
  let candidates := (r_stored_hash <$> predecessors) ++
    (if first_after_start then match start_hash start with Some h => [h] | None => [] end else []) in
  foldl (λ (acc : findings * list (record * bool)) r,
           let '(f, linked) := link_record candidates trusted acc.1 r in (f, acc.2 ++ [(r, linked)])) (f, []) group.

(** [_check_duplicates] *)
Definition duplicate_step (acc : findings * list string) (r : record) : findings * list string :=
  (if bool_decide (r_stored_hash r ∈ acc.2)
   then and_issue acc.1 (r_sequence r) (Issue ISSUE_DUPLICATE_ENTRY (Some (r_sequence r)) None (r_at r)) else acc.1,
   acc.2 ++ [r_stored_hash r]).

Definition check_duplicates (f : findings) (group : list record) : findings :=
  if (length group <? 2)%nat then f else (foldl duplicate_step (f, []) group).1.

(** [_check_fork] *)
Definition check_fork (f : findings) (s : Z) (group : list (record * bool)) : findings :=
  let members := foldl (λ (d : dict string record) (rl : record * bool),
    if rl.2 && fingerprint_valid rl.1 && negb (bool_decide (is_Some (dget d (r_stored_hash rl.1))))
    then dset d (r_stored_hash rl.1) rl.1 else d) [] group in
  if (length group <? 2)%nat then f
  else match dvals members with
       | r :: _ :: _ => and_note f (NOTE_CHAIN_FORK s (existsb stamped (dvals members)) (r_at r))
       | _ => f
       end.

(** [by_sequence], in ascending order. *)
Definition by_sequence : dict Z (list record) :=
  foldl (λ d r, dset d (r_sequence r) (default [] (dget d (r_sequence r)) ++ [r])) [] sorted_records.

(** One number of the walk. *)
Definition walk_step (acc : findings * Z * bool) (sg : Z * list record) : findings * Z * bool :=
  let '(f, previous_present, seen_above_start) := acc in
  let '(s, group) := sg in
  if s <=? start_sequence start then (check_duplicates f group, previous_present, seen_above_start)
  else
    let '(f, linked) :=
      if previous_present + 1 <? s
      then (report_gap f (previous_present + 1) (s - 1) group (negb seen_above_start), (λ r, (r, true)) <$> group)
      else link_group f group (default [] (dget by_sequence (s - 1))) in
    (check_fork (check_duplicates f group) s linked, s, true).

(** [_build_report] *)
Definition build_report (f : findings) : trail_report :=
  let chained := match w_records w, w_unchained w, w_foreign w with [], [], [] => false | _, _, _ => true end in
  let chainless := if chained then (λ at_, Issue ISSUE_UNCHAINED_ROW None None at_) <$> w_rows_without_chain w else [] in
  let notes := f_notes f
    ++ (if negb chained && (0 <? Zlength (w_rows_without_chain w))
        then [NOTE_ROWS_WITHOUT_CHAIN (Zlength (w_rows_without_chain w))] else [])
    ++ (if 0 <? Zlength (w_unchained w) then [NOTE_UNCHAINED (Zlength (w_unchained w))] else [])
    ++ w_incomplete w in
  let issues := w_unreadable w ++ chainless ++ (snd <$> sort_by fst (f_issues f))
    ++ match classify_key with Some i => [i] | None => [] end in
  TrailReport (match issues with [] => true | _ => false end)
    (Zlength sorted_records + Zlength (w_unchained w) + Zlength (w_foreign w)) (w_rows w)
    (r_sequence <$> head sorted_records) (r_sequence <$> last sorted_records) issues notes.

(** [_Linker.run] *)
Definition linker_run : trail_report :=
  let f := report_foreign (report_fingerprints no_findings) in
  let seen_above_start :=
    match start_hash start with
    | Some h => existsb (λ r, bool_decide (r_stored_hash r = h)) (default [] (dget by_sequence (start_sequence start)))
    | None => false
    end in
  build_report (foldl walk_step (f, start_sequence start, seen_above_start) by_sequence).1.1.
End linker.

(** ** Trails *)

(** [_row_partition] and [_foreign_partition] *)
Definition row_partition (row : json) : string :=
  match row with JObj m => text_or_empty (m !! "partition") | _ => "" end.

Definition foreign_partition (row : json) (partition : string) : option string :=
  if bool_decide (row_partition row = partition) then None else Some (row_partition row).

Section trails.
  Context (sha256 : json → string) (hmac_sha256 : string → json → string) (key : option string).
Notation add_row := (add_row sha256 hmac_sha256 key).

(** [TrailSet]: the walk of each partition. *)
Definition trail_set : Type := dict string walk.

Definition walk_of (t : trail_set) (partition : string) : walk := default new_walk (dget t partition).

Definition add_to (t : trail_set) (partition : string) (f : walk → walk) : trail_set :=
  dset t partition (f (walk_of t partition)).

(** One line of [read_file]; [fixed]: the partition of the whole file, if it has
    one; [current]: where a row of no partition goes. *)
Definition read_line (file : Z) (fixed : option string) (terminated : bool) (acc : trail_set * string * Z) (l : line) :
    trail_set * string * Z :=
  let '(t, current, n) := acc in
  let n := n + 1 in
  let at_ := At (Some file) (Some n) in
  match line_text l with
  | Blank => (t, current, n)
  | Garbled =>
      (add_to t current (λ w, if terminated then add_unreadable w at_ false else add_incomplete_last_line w at_),
       current, n)
  | Parsed row =>
      let t := if terminated then t else add_to t current (λ w, add_incomplete_last_line w at_) in
      let current := match fixed with None => row_partition row | Some _ => current end in
      let foreign := match fixed with None => None | Some p => foreign_partition row p end in
      (add_to t current (λ w, add_row w row at_ foreign), current, n)
  end.

Definition read_file (t : trail_set) (file : Z) (f : ledger_file) (fixed : option string) : trail_set :=
  let '(t, current, n) := foldl (read_line file fixed true) (t, default "" fixed, 0) (lines f) in
  match unterminated f with
  | None => t
  | Some l => (read_line file fixed false (t, current, n) l).1.1
  end.

Definition report (w : walk) (start : option chain_start) (host_local head_absent_failing : bool) : trail_report :=
  linker_run w (bool_decide (is_Some key)) start host_local head_absent_failing.

(** [HashChainFileAuditLogAdapter.verify_trail], of the whole ledger; [None]:
    [ValueError]. *)
Definition verify_trail (files : dict Z ledger_file) (partition : string) (expected_start : Z) : option trail_report :=
  start ← chain_start_at expected_start;
  let t := foldl (λ t df, read_file t df.1 df.2 (Some partition)) [] (reverse (list_ledger_files files)) in
  Some (report (walk_of t partition) (Some start) true true).

(** [HashChainVerifier]: the walk over a list, in any order. *)
Definition verifier_walk (l : list json) (start : option chain_start) : trail_report :=
  let w := (foldl (λ (acc : walk * Z) row, (add_row acc.1 row (At None (Some acc.2)) None, acc.2 + 1)) (new_walk, 0) l).1 in
  report w start false true.

Definition find_tampering (l : list json) (start : option chain_start) : list issue := issues (verifier_walk l start).

Definition verify_chain (l : list json) (start : option chain_start) : bool * option issue :=
  let r := verifier_walk l start in
  if intact r then (true, None) else (false, head (issues r)).
End trails.
