(* ===== verification/AuditTrail.v ===== *)
(** * What the audit trail shows

    The chain of a directory as its writers made it, and the theorems: writers
    that share a directory produce a trail that verifies, also when the state
    file is lost; and a trail that verifies under the signing key is what the
    writers made, up to where it ends. *)
From stdpp Require Import sorting.
From S2P Require Import Prelude AuditLedger AuditChain AuditVerify.

(** ** Chains of rows *)

Definition row_sequence (row : json) : Z :=
  match integrity_block row with Some d => match d !! "sequence" with Some (JInt z) => z | _ => 0 end | None => 0 end.
Definition row_hash (row : json) : string :=
  match integrity_block row with Some d => text_or_empty (d !! "current_hash") | None => "" end.
Definition row_previous (row : json) : string :=
  match integrity_block row with Some d => text_or_empty (d !! "previous_hash") | None => "" end.

Lemma integrity_block_obj m d : m !! "integrity" = Some (JObj d) → integrity_block (JObj m) = Some d.
Proof. intros Hm. unfold integrity_block. by rewrite Hm. Qed.

Section chain.
  Context (sha256 : json → string) (hmac_sha256 : string → json → string) (key : option string).
Notation compute_hash := (compute_hash sha256 hmac_sha256 key).

(** A row the chain made: numbered [n], linked to the hash [prev]. *)
Definition chained_row (n : Z) (prev : string) (row : json) : Prop :=
  ∃ m d h, row = JObj m ∧ m !! "integrity" = Some (JObj d) ∧ d !! "sequence" = Some (JInt n) ∧
    d !! "previous_hash" = Some (JStr prev) ∧ d !! "current_hash" = Some (JStr h) ∧ d !! "pod_id" = None ∧
    h = compute_hash (hashed_body m d).

(** The rows numbered from [n + 1] on, the first linked to [prev]. *)
Fixpoint chained (n : Z) (prev : string) (l : list json) : Prop :=
  match l with
  | [] => True
  | row :: l => chained_row (n + 1) prev row ∧ chained (n + 1) (row_hash row) l
  end.

Lemma chained_row_facts n prev row :
  chained_row n prev row → row_sequence row = n ∧ row_previous row = prev.
Proof.
  intros (m & d & h & -> & Hi & Hs & Hp & _). unfold row_sequence, row_previous.
  by rewrite (integrity_block_obj m d Hi), Hs, Hp.
Qed.

(** The hash the chain has reached after [i] rows. *)
Definition hash_at (l : list json) (i : nat) : string :=
  match i with O => GENESIS_HASH | S k => match l !! k with Some row => row_hash row | None => "" end end.
End chain.

(** ** The second pass over a linked trail *)

Section linked.
  Context (w : walk) (keyed host_local : bool).

(** Records numbered from [n + 1] on without a gap, each linked to the one before
    and with a valid fingerprint. *)
Fixpoint linked (n : Z) (prev : string) (l : list record) : Prop :=
  match l with
  | [] => True
  | r :: l => r_sequence r = n + 1 ∧ r_previous_hash r = prev ∧ r_verdict r = FINGERPRINT_OK ∧
              linked (n + 1) (r_stored_hash r) l
  end.

Lemma linked_ascending n prev l : linked n prev l → StronglySorted (λ a b, r_sequence a < r_sequence b) l ∧
  Forall (λ r, n < r_sequence r) l.
Proof.
  revert n prev. induction l as [|r l IH]; intros n prev; [by repeat constructor|].
  intros (Hs & _ & _ & Hl). destruct (IH _ _ Hl) as [Hsort Hlow]. split; constructor; [done| |lia|].
  - eapply Forall_impl; [done|]. cbn. lia.
  - eapply Forall_impl; [done|]. cbn. lia.
Qed.

(** Sorting by a key that is already strictly ascending. *)
Lemma sort_by_ascending {A} (f : A → Z) l : StronglySorted (λ a b, f a < f b) l → sort_by f l = l.
Proof.
  induction 1 as [|x l Hs IH Hx]; [done|]. unfold sort_by in *. cbn. rewrite IH.
  destruct l as [|y l]; [done|]. cbn. apply Forall_cons in Hx as [Hy _].
  by rewrite (proj2 (Z.leb_le _ _)) by lia.
Qed.

(** Two lists sorted by the same key with no key twice are equal if they have the
    same elements. *)
Lemma ascending_unique {A} (f : A → Z) (l l' : list A) :
  StronglySorted (λ a b, f a < f b) l → Sorted (λ a b, f a <= f b) l' → l ≡ₚ l' → l = l'.
Proof.
  intros Hl Hs Hp. apply Sorted_StronglySorted in Hs; [|intros ? ? ?; lia]. revert l' Hs Hp.
  induction Hl as [|x l Hl IH Hx]; intros l' Hs Hp.
  { by apply Permutation_nil_l in Hp. }
  destruct l' as [|y l']; [by symmetry in Hp; apply Permutation_nil_cons in Hp|].
  apply StronglySorted_inv in Hs as [Hs Hy]. rewrite Forall_forall in Hx, Hy.
  assert (x = y) as <-.
  { assert (x ∈ y :: l') as [->|Hx']%elem_of_cons by (rewrite <-Hp; by left); [done|].
    assert (y ∈ x :: l) as [->|Hy']%elem_of_cons by (rewrite Hp; by left); [done|].
    specialize (Hx _ Hy'). specialize (Hy _ Hx'). lia. }
  f_equal. apply IH; [done|]. by apply Permutation_cons_inv in Hp.
Qed.

Lemma dset_fresh {V} (d : dict Z V) k v : (∀ k', k' ∈ dkeys d → k' ≠ k) → dset d k v = d ++ [(k, v)].
Proof.
  induction d as [|[k' v'] d IH]; intros Hk; [done|]. cbn.
  rewrite decide_False by (intros Heq; apply (Hk k'); [by left|congruence]). f_equal. apply IH. intros k'' Hk''. apply Hk. by right.
Qed.

Lemma dget_absent {V} (d : dict Z V) k : (∀ k', k' ∈ dkeys d → k' ≠ k) → dget d k = None.
Proof. intros Hk. apply eq_None_not_Some. rewrite <-elem_of_dkeys. intros H. by apply (Hk k). Qed.

(** One record per number. *)
Lemma by_sequence_ascending l :
  StronglySorted (λ a b, r_sequence a < r_sequence b) l → sorted_records w = l →
  by_sequence w = (λ r, (r_sequence r, [r])) <$> l.
Proof.
  intros Hs Hw. unfold by_sequence. rewrite Hw. clear Hw.
  enough (∀ d, (∀ k r, k ∈ dkeys d → r ∈ l → k < r_sequence r) →
    foldl (λ d r, dset d (r_sequence r) (default [] (dget d (r_sequence r)) ++ [r])) d l
    = d ++ ((λ r, (r_sequence r, [r])) <$> l)) as Hg.
  { apply (Hg []). intros k r Hk. by apply not_elem_of_nil in Hk. }
  induction Hs as [|x l Hs IH Hx]; intros d Hd; cbn; [by rewrite app_nil_r|].
  assert (∀ k', k' ∈ dkeys d → k' ≠ r_sequence x) as Hfresh.
  { intros k' Hk'. specialize (Hd k' x Hk' ltac:(by left)). lia. }
  rewrite (dget_absent d), dset_fresh by done. cbn [default app]. rewrite IH; [by rewrite <-app_assoc|].
  intros k r. unfold dkeys. rewrite fmap_app, elem_of_app. intros [Hk|Hk] Hr.
  - apply Hd; [done|by right].
  - apply list_elem_of_singleton in Hk. rewrite Forall_forall in Hx. specialize (Hx r Hr). cbn in *. lia.
Qed.

Lemma dget_by_sequence l n r :
  StronglySorted (λ a b, r_sequence a < r_sequence b) l → sorted_records w = l → r ∈ l → r_sequence r = n →
  dget (by_sequence w) n = Some [r].
Proof.
  intros Hs Hw Hr <-. rewrite (by_sequence_ascending l) by done. clear Hw.
  induction Hs as [|x l Hs IH Hx]; [by apply not_elem_of_nil in Hr|]. cbn.
  apply elem_of_cons in Hr as [->|Hr]; [by rewrite decide_True|]. rewrite Forall_forall in Hx.
  rewrite decide_False; [by apply IH|]. specialize (Hx r Hr). lia.
Qed.

Lemma walk_step_linked f n b r :
  0 <= n → r_sequence r = n + 1 →
  r_previous_hash r ∈ (r_stored_hash <$> default [] (dget (by_sequence w) n)) ++ (if n =? 0 then [GENESIS_HASH] else []) →
  walk_step w keyed (Some CHAIN_BEGINNING) host_local true (f, n, b) (r_sequence r, [r]) = (f, n + 1, true).
Proof.
  intros Hn Hr Hp. unfold walk_step. cbn [start start_sequence CHAIN_BEGINNING].
  rewrite (proj2 (Z.leb_gt _ _)), (proj2 (Z.ltb_ge _ _)) by lia.
  unfold link_group. cbn [start start_hash start_sequence CHAIN_BEGINNING foldl fst snd].
  replace (r_sequence r - 1) with n by lia. replace (r_sequence r =? 0 + 1) with (n =? 0) by (destruct (n =? 0) eqn:?; lia).
  unfold link_record. rewrite (bool_decide_eq_true_2 _ Hp), orb_true_r. cbn. by rewrite Hr.
Qed.

(** Walking on along a linked trail finds nothing. *)
Lemma walk_linked f n prev b past todo :
  sorted_records w = past ++ todo → StronglySorted (λ a b, r_sequence a < r_sequence b) (past ++ todo) →
  linked n prev todo → 0 <= n →
  (n = 0 ∧ prev = GENESIS_HASH ∨ ∃ r, r ∈ past ∧ r_sequence r = n ∧ r_stored_hash r = prev) →
  (foldl (walk_step w keyed (Some CHAIN_BEGINNING) host_local true) (f, n, b)
     ((λ r, (r_sequence r, [r])) <$> todo)).1.1 = f.
Proof.
  revert n prev b past. induction todo as [|r todo IH]; intros n prev b past Hw Hs Hl Hn Hprev; [done|].
  destruct Hl as (Hr & Hp & Hv & Hl). cbn [fmap list_fmap foldl]. rewrite walk_step_linked; [|done..|].
  - eapply (IH _ (r_stored_hash r) _ (past ++ [r])); [by rewrite <-app_assoc..|done|lia|].
    right. exists r. rewrite elem_of_app, list_elem_of_singleton. auto.
  - apply elem_of_app. rewrite Hp. destruct Hprev as [[-> ->]|(x & Hx & Hxn & Hxh)]; [right; by left|left].
    rewrite (dget_by_sequence (past ++ r :: todo) _ x); [|done..| |done].
    + cbn. rewrite Hxh. by left.
    + apply elem_of_app. by left.
Qed.

Lemma fingerprints_ok f l :
  Forall (λ r, r_verdict r = FINGERPRINT_OK) l → foldl fingerprint_step (f, []) l = (f, []).
Proof. induction 1 as [|r l Hr Hl IH]; [done|]. cbn. by rewrite Hr. Qed.

Lemma linked_ok n prev l : linked n prev l → Forall (λ r, r_verdict r = FINGERPRINT_OK) l.
Proof.
  revert n prev. induction l as [|r l IH]; intros n prev; [constructor|].
  intros (_ & _ & Hv & Hl). constructor; [done|by eapply IH].
Qed.

Lemma linked_intact l :
  w_records w ≡ₚ l → linked 0 GENESIS_HASH l →
  w_unchained w = [] → w_foreign w = [] → w_unreadable w = [] → w_incomplete w = [] → w_rows_without_chain w = [] →
  linker_run w keyed (Some CHAIN_BEGINNING) host_local true =
  TrailReport true (Zlength l) (w_rows w) (r_sequence <$> head l) (r_sequence <$> last l) [] [].
Proof.
  intros Hp Hl Hu Hf Hun Hin Hrow. destruct (linked_ascending _ _ _ Hl) as [Hs _].
  assert (sorted_records w = l) as Hw.
  { symmetry. apply (ascending_unique r_sequence); [done|apply sort_by_sorted|].
    unfold sorted_records. by rewrite sort_by_perm, Hp. }
  pose proof (linked_ok _ _ _ Hl) as Hok.
  assert (classify_key w keyed = None) as Hkey.
  { unfold classify_key. rewrite Hu, app_nil_r. destruct (w_records w) as [|r rs]; [done|].
    cbn. rewrite <-Hp in Hok. apply Forall_cons in Hok as [Hok _]. by rewrite Hok. }
  assert (report_foreign w (report_fingerprints w keyed no_findings) = no_findings) as Hno.
  { unfold report_foreign, report_fingerprints. rewrite Hkey, Hu, Hf, Hw. cbn [app foldl].
    rewrite sort_by_ascending, fingerprints_ok by done. done. }
  unfold linker_run. rewrite Hno, (by_sequence_ascending l) by done.
  cbn [start start_hash start_sequence CHAIN_BEGINNING].
  rewrite (walk_linked no_findings 0 GENESIS_HASH _ [] l); [|done..|by left].
  unfold build_report. rewrite Hkey, Hu, Hf, Hun, Hin, Hrow, Hw. cbn.
  destruct (w_records w); cbn; by rewrite !Z.add_0_r.
Qed.
End linked.

(** ** The first pass over rows of a chain *)

Section reading.
  Context (sha256 : json → string) (hmac_sha256 : string → json → string) (key : option string).
Notation chained_row := (chained_row sha256 hmac_sha256 key).
Notation chained := (chained sha256 hmac_sha256 key).

(** The record of a row. *)
Definition shows (r : record) (row : json) : Prop :=
  r_sequence r = row_sequence row ∧ r_previous_hash r = row_previous row ∧ r_stored_hash r = row_hash row ∧
  r_verdict r = FINGERPRINT_OK.

Definition valid_row (partition : string) (row : json) : Prop :=
  row_partition row = partition ∧ ∃ n prev, 0 < n ∧ chained_row n prev row.

(** A walk that has read these rows and nothing else. *)
Definition has_read (w : walk) (l : list json) : Prop :=
  Forall2 shows (w_records w) l ∧ w_rows w = Zlength l ∧ w_unchained w = [] ∧ w_foreign w = [] ∧
  w_unreadable w = [] ∧ w_incomplete w = [] ∧ w_rows_without_chain w = [].

Lemma add_row_chained w l row at_ n prev :
  0 < n → chained_row n prev row → has_read w l →
  has_read (add_row sha256 hmac_sha256 key w row at_ None) (l ++ [row]).
Proof.
  intros Hn Hrow Hw. pose proof Hrow as (m & d & h & -> & Hi & Hs & Hp & Hc & Hpod & Hh).
  unfold add_row. rewrite (integrity_block_obj m d Hi), Hs. unfold add_record.
  cbn [r_sequence record_of]. rewrite (proj2 (Z.ltb_lt _ _) Hn).
  destruct Hw as (H2 & Hrows & Hu & Hf & Hun & Hin & Hwo). split_and!; cbn; try done.
  - apply Forall2_app; [done|]. constructor; [|done]. destruct (chained_row_facts _ _ _ _ _ _ Hrow) as [Hseq Hprev].
    unfold shows. cbn. rewrite Hseq, Hprev. unfold row_hash. rewrite (integrity_block_obj m d Hi), Hc, Hp. cbn.
    split_and!; try done. unfold fingerprint_of. by rewrite bool_decide_eq_true_2.
  - rewrite Hrows, Zlength_app. done.
Qed.

Definition row_line (l : line) (row : json) : Prop := line_text l = Parsed row.

Lemma read_lines partition file n t ls l rows' :
  Forall2 row_line ls rows' → Forall (valid_row partition) rows' → has_read (walk_of t partition) l →
  let '(t', current, _) := foldl (read_line sha256 hmac_sha256 key file (Some partition) true) (t, partition, n) ls in
  current = partition ∧ has_read (walk_of t' partition) (l ++ rows').
Proof.
  intros H2. revert n t l. induction H2 as [|x row ls rows' Hx H2 IH]; intros n t l Hv Hl; cbn.
  { by rewrite app_nil_r. }
  apply Forall_cons in Hv as [[Hpart (k & prev & Hk & Hrow)] Hv]. unfold row_line in Hx. rewrite Hx.
  unfold foreign_partition. rewrite bool_decide_eq_true_2 by done.
  replace (l ++ row :: rows') with ((l ++ [row]) ++ rows') by (by rewrite <-app_assoc). apply IH; [done|].
  unfold walk_of at 1, add_to. rewrite dget_dset_eq. cbn. by eapply add_row_chained.
Qed.

(** A ledger whose lines are rows of a chain. *)
Definition file_rows (f : ledger_file) : list json :=
  omap (λ l, match line_text l with Parsed row => Some row | _ => None end) (lines f).

Definition ledger_rows (fs : dict Z ledger_file) : list json := mjoin ((λ df, file_rows df.2) <$> fs).

Definition clean_file (f : ledger_file) : Prop :=
  unterminated f = None ∧ Forall (λ l, ∃ row, line_text l = Parsed row) (lines f).

Lemma clean_file_rows f : clean_file f → Forall2 row_line (lines f) (file_rows f).
Proof.
  intros [_ Hl]. unfold file_rows. induction Hl as [|x l [row Hx] Hl IH]; cbn; [constructor|].
  rewrite Hx. by constructor.
Qed.

Lemma read_files partition t l (fs : dict Z ledger_file) :
  Forall (λ df, clean_file df.2) fs → Forall (valid_row partition) (ledger_rows fs) →
  has_read (walk_of t partition) l →
  has_read (walk_of (foldl (λ t df, read_file sha256 hmac_sha256 key t df.1 df.2 (Some partition)) t fs) partition)
    (l ++ ledger_rows fs).
Proof.
  intros Hc. revert t l. induction Hc as [|[d f] fs Hf Hc IH]; intros t l Hv Hl; cbn; [by rewrite app_nil_r|].
  unfold ledger_rows in Hv. cbn in Hv. apply Forall_app in Hv as [Hv1 Hv2]. rewrite app_assoc. apply IH; [done|].
  unfold read_file. pose proof (read_lines partition d 0 t (lines f) l (file_rows f) (clean_file_rows f Hf) Hv1 Hl) as Hr.
  cbn [default]. destruct (foldl _ _ (lines f)) as [[t' current] n']. destruct Hr as [_ Hr].
  destruct Hf as [Hu _]. cbn in Hu. by rewrite Hu.
Qed.

Lemma Forall2_reorder {A B} (P : A → B → Prop) l k k' :
  Forall2 P l k → k ≡ₚ k' → ∃ l', l ≡ₚ l' ∧ Forall2 P l' k'.
Proof.
  intros H2 Hp. revert l H2. induction Hp as [|x k k' Hp IH|x y k|k1 k2 k3 H12 IH1 H23 IH2]; intros l H2.
  - exists l. by apply Forall2_nil_inv_r in H2 as ->.
  - apply Forall2_cons_inv_r in H2 as (a & l1 & Ha & H2 & ->). destruct (IH l1 H2) as (l' & Hl & H2').
    exists (a :: l'). split; [by constructor|by constructor].
  - apply Forall2_cons_inv_r in H2 as (a & l1 & Ha & H2 & ->).
    apply Forall2_cons_inv_r in H2 as (b & l2 & Hb & H2 & ->).
    exists (b :: a :: l2). split; [apply Permutation_swap|by repeat constructor].
  - destruct (IH1 l H2) as (l' & Hl & H2'). destruct (IH2 l' H2') as (l'' & Hl' & H2'').
    exists l''. split; [by etrans|done].
Qed.

Lemma chained_linked n prev l rs : chained n prev l → Forall2 shows rs l → linked n prev rs.
Proof.
  intros Hc H2. revert n prev Hc. induction H2 as [|r row rs l (Hs & Hp & Hh & Hv) H2 IH]; intros n prev; [done|].
  intros [Hrow Hc]. destruct (chained_row_facts _ _ _ _ _ _ Hrow) as [Hseq Hprev].
  cbn. rewrite Hs, Hp, Hh. split_and!; [done..|]. by apply IH.
Qed.

Lemma ledger_rows_perm fs fs' : fs ≡ₚ fs' → ledger_rows fs ≡ₚ ledger_rows fs'.
Proof. intros Hp. unfold ledger_rows. by rewrite Hp. Qed.

Lemma chained_valid n prev l : 0 <= n → chained n prev l → Forall (λ row, ∃ k p, 0 < k ∧ chained_row k p row) l.
Proof.
  revert n prev. induction l as [|row l IH]; intros n prev Hn; [constructor|].
  intros [Hr Hc]. constructor; [exists (n + 1), prev; split; [lia|done]|]. eapply IH; [|done]. lia.
Qed.

(** A chain on disk, in whatever order and files, verifies. *)
Lemma chain_verifies fs partition l :
  chained 0 GENESIS_HASH l → ledger_rows fs ≡ₚ l → Forall (λ df, clean_file df.2) fs →
  Forall (λ row, row_partition row = partition) l →
  ∃ r, verify_trail sha256 hmac_sha256 key fs partition 1 = Some r ∧ intact r = true ∧ issues r = [] ∧ notes r = [] ∧
    entries r = Zlength l ∧ rows r = Zlength l.
Proof.
  intros Hc Hp Hf Hpart. unfold verify_trail. cbn [chain_start_at mbind option_bind]. unfold chain_start_at. cbn.
  unfold list_ledger_files. rewrite reverse_involutive.
  set (t := foldl (λ t df, read_file sha256 hmac_sha256 key t df.1 df.2 (Some partition)) [] (sort_by fst fs)).
  assert (has_read (walk_of t partition) (ledger_rows (sort_by fst fs))) as Hread.
  { apply (read_files partition [] []).
    - by rewrite sort_by_perm.
    - rewrite ledger_rows_perm, Hp by apply sort_by_perm. apply Forall_and. split; [done|].
      eapply chained_valid; [|done]. done.
    - repeat split; done. }
  destruct Hread as (H2 & Hrows & Hu & Hfo & Hun & Hin & Hwo).
  destruct (Forall2_reorder shows _ _ l H2) as (rs & Hrs & H2').
  { by rewrite ledger_rows_perm, Hp by apply sort_by_perm. }
  eexists. split; [done|]. unfold report.
  rewrite (linked_intact _ _ _ rs) by (done || by eapply chained_linked). cbn.
  split_and!; [done..| |].
  - unfold Zlength. by rewrite (Forall2_length _ _ _ H2').
  - rewrite Hrows. unfold Zlength. by rewrite ledger_rows_perm, Hp by apply sort_by_perm.
Qed.
End reading.

(** ** The writers of a directory *)

Section writers.
  Context (sha256 : json → string) (hmac_sha256 : string → json → string) (key : option string) (orjson : bool).
  Context (partition : string).
Notation chained_row := (chained_row sha256 hmac_sha256 key).
Notation chained := (chained sha256 hmac_sha256 key).
Notation compute_hash := (compute_hash sha256 hmac_sha256 key).
Notation apply_event := (apply_event sha256 hmac_sha256 key orjson).

(** A value that is hashed as it is read back. *)
Definition plain (j : json) : Prop := canonical (on_disk orjson j) = canonical j.

Lemma plain_obj m : map_Forall (λ _, plain) m → plain (JObj m).
Proof.
  intros Hm. unfold plain. cbn. f_equal. rewrite <-map_fmap_compose. apply map_fmap_ext.
  intros k j Hj. by apply (Hm k j).
Qed.

Lemma plain_stamp reason observed adopted :
  map_Forall (λ _, plain) (record_source_reset "local" reason (Some observed) adopted).
Proof.
  intros k j. unfold record_source_reset. rewrite lookup_singleton_Some. intros [_ <-]. apply plain_obj.
  intros k' j'. cbn. rewrite !lookup_insert_Some, lookup_empty. naive_solver.
Qed.

Lemma plain_block m annotations ts :
  map_Forall (λ _, plain) annotations → map_Forall (λ _, plain) (new_block m annotations ts).
Proof.
  intros Ha. unfold new_block. repeat (apply map_Forall_insert_2; [done|]).
  unfold sanitize_integrity_annotations. intros k j. rewrite map_lookup_filter_Some. intros [Hj _]. by apply (Ha k).
Qed.

Lemma new_block_lookup m annotations ts :
  new_block m annotations ts !! "sequence" = Some (JInt (sequence m + 1)) ∧
  new_block m annotations ts !! "previous_hash" = Some (JStr (previous_hash m)) ∧
  new_block m annotations ts !! "current_hash" = None ∧ new_block m annotations ts !! "pod_id" = None.
Proof.
  assert (∀ k, k ∈ INTEGRITY_RESERVED_KEYS → sanitize_integrity_annotations annotations !! k = None) as Hs.
  { intros k Hk. unfold sanitize_integrity_annotations. apply map_lookup_filter_None. right. by intros j _ []. }
  unfold new_block. split_and!.
  - apply lookup_insert_eq.
  - rewrite lookup_insert_ne by done. apply lookup_insert_eq.
  - rewrite !lookup_insert_ne by done. apply Hs. set_solver.
  - rewrite !lookup_insert_ne by done. apply Hs. set_solver.
Qed.

(** The entry a manager makes, on disk, is the next row of its chain. *)
Lemma minted_row m v e annotations ts m' v' e' :
  map_Forall (λ _, plain) e → map_Forall (λ _, plain) annotations →
  compute_and_persist sha256 hmac_sha256 key m v e annotations ts = (m', v', e') →
  let row := on_disk orjson (JObj e') in
  chained_row (sequence m + 1) (previous_hash m) row ∧
  sequence m' = sequence m + 1 ∧ previous_hash m' = row_hash row ∧
  row_partition row = row_partition (on_disk orjson (JObj e)).
Proof.
  intros He Ha [= <- <- <-] row. destruct (new_block_lookup m annotations ts) as (Hs & Hp & Hc & Hpod).
  pose proof (plain_block m annotations ts Ha) as Hb. set (block := new_block m annotations ts) in *.
  set (h := compute_hash (<["integrity" := JObj block]> e)).
  set (d := <["current_hash" := JStr h]> (on_disk orjson <$> block)).
  assert (row = JObj (<["integrity" := JObj d]> (on_disk orjson <$> e))) as Hrow.
  { subst row d. cbn [on_disk]. rewrite !fmap_insert. cbn [on_disk]. by rewrite !fmap_insert. }
  assert (d !! "current_hash" = Some (JStr h)) as Hch by apply lookup_insert_eq.
  assert (chained_row (sequence m + 1) (previous_hash m) row) as Hchain.
  { assert (∀ k, k ≠ "current_hash" → d !! k = on_disk orjson <$> block !! k) as Hd.
    { intros k Hk. subst d. by rewrite lookup_insert_ne, lookup_fmap. }
    exists (<["integrity" := JObj d]> (on_disk orjson <$> e)), d, h. split; [exact Hrow|]. rewrite (Hd "sequence"), (Hd "previous_hash"), (Hd "pod_id"), Hs, Hp, Hpod by done.
    split_and!; [apply lookup_insert_eq|done|done|done|done|]. unfold hashed_body. subst d.
    rewrite delete_insert_id, insert_insert_eq by (by rewrite lookup_fmap, Hc).
    assert (plain (JObj (<["integrity" := JObj block]> e))) as Hplain.
    { apply plain_obj, map_Forall_insert_2; [by apply plain_obj|done]. }
    subst h. unfold plain in Hplain. cbn [on_disk] in Hplain. rewrite fmap_insert in Hplain.
    unfold AuditLedger.compute_hash. cbn [on_disk] in Hplain. by rewrite Hplain. }
  split_and!; [done|done| |].
  - change (h = row_hash row). rewrite Hrow. unfold row_hash. rewrite (integrity_block_obj _ d) by apply lookup_insert_eq.
    by rewrite Hch.
  - rewrite Hrow. unfold row_partition. cbn [on_disk]. by rewrite lookup_insert_ne by done.
Qed.

(** *** Histories *)

(** The rows that are numbered and not yet on disk. *)
Definition held_row (w : writer) : option json := (λ e, on_disk orjson (JObj e)) <$> holding w.
Definition held (s : site) : list json := omap held_row (writers s).
Definition idle (s : site) : Prop := held s = [].
#[local] Arguments held : simpl never.

(** The configuration the adapter builds without Redis. *)
Definition shared (m : manager) : Prop :=
  has_state_file m = true ∧ use_file_lock m = true ∧ ledger_wired m = true.

(** What a lost state file can look like: gone, unreadable, or an earlier one of
    this chain. *)
Definition earlier (l : list json) (st : state_file) : Prop :=
  st = NoState ∨ st = Unreadable ∨
  ∃ i, (i <= length l)%nat ∧ st = Saved (Some (Z.of_nat i)) (Some (hash_at l i)).

(** 32 rows fit in the largest window. *)
Definition ROW_BYTES : Z := 262144.

(** What may happen: entries are hashed as they are read back and carry the name
    of their partition; rows are shorter than 256 KiB and none is lost; the day
    ends, and the state file is lost, while no row is on its way to the disk. *)
Definition orderly (s : site) (l : list json) (ev : event) : Prop :=
  match ev with
  | Mint _ e annotations _ =>
      map_Forall (λ _, plain) e ∧ map_Forall (λ _, plain) annotations ∧
      row_partition (on_disk orjson (JObj e)) = partition
  | Append _ size => 0 < size < ROW_BYTES
  | Restart _ | LedgerFault _ => True
  | NextDay _ => idle s
  | LoseSource st => idle s ∧ earlier l st
  | Crash _ | Tear _ => False
  end.

(** The row an event has numbered. *)
Definition minted (s' : site) (ev : event) : list json :=
  match ev with
  | Mint i _ _ _ => match writers s' !! i with Some w => option_list (held_row w) | None => [] end
  | _ => []
  end.

Definition new_volume (day : Z) : volume := Volume NoState true [] true true day.

Definition new_site (day : Z) (n : nat) : site :=
  Site (new_volume day) (replicate n (Writer (manager_init true true true (new_volume day)) None)).

(** [history n s l]: the directory [s] and its [n] writers, all rows numbered so
    far being [l], in their order. *)
Inductive history (n : nat) : site → list json → Prop :=
| history_new day : history n (new_site day n) []
| history_step s l ev s' :
    history n s l → orderly s l ev → apply_event s ev = Some s' → history n s' (l ++ minted s' ev).

(** *** The invariant *)

(** The newest file ends in rows numbered close to its highest. *)
Definition recent (s : site) : Prop :=
  files (vol s) = [] ∨
  ∃ before d f old top after,
    files (vol s) = before ++ [(d, f)] ∧ file_rows f = old ++ top :: after ∧
    (∀ x, x ∈ file_rows f → row_sequence x <= row_sequence top) ∧
    (∀ x y, x ∈ ledger_rows before → y ∈ file_rows f ++ held s → row_sequence x < row_sequence y) ∧
    (d < today (vol s) → ∀ y, y ∈ held s → row_sequence top < row_sequence y) ∧
    Zlength after + countb (λ y, row_sequence y <? row_sequence top) (held s) + 1 <= Zlength (writers s).

Record inv (s : site) (l : list json) : Prop := {
  inv_chain : chained 0 GENESIS_HASH l;
  inv_partition : Forall (λ row, row_partition row = partition) l;
  inv_rows : ledger_rows (files (vol s)) ++ held s ≡ₚ l;
  inv_managers : Forall (λ w, shared (mgr w) ∧ ∃ i, (i <= length l)%nat ∧
    sequence (mgr w) = Z.of_nat i ∧ previous_hash (mgr w) = hash_at l i) (writers s);
  inv_source :
    chain_state (vol s) = Saved (Some (Zlength l)) (Some (hash_at l (length l))) ∨
    idle s ∧ earlier l (chain_state (vol s));
  inv_writable : state_writable (vol s) = true ∧ ledger_writable (vol s) = true;
  inv_files : Forall (λ df, clean_file df.2 ∧ Forall (λ x, 0 < line_size x < ROW_BYTES) (lines df.2)) (files (vol s));
  inv_days : StronglySorted (λ a b, a.1 < b.1) (files (vol s)) ∧ Forall (λ df, df.1 <= today (vol s)) (files (vol s));
  inv_few : Zlength (writers s) <= LEDGER_TAIL_MIN_LINES;
  inv_recent : recent s;
}.

(** *** Rows of a chain *)

Lemma chained_lookup n prev l i row :
  chained n prev l → l !! i = Some row →
  row_sequence row = n + Z.of_nat i + 1 ∧ ∃ p, chained_row (n + Z.of_nat i + 1) p row.
Proof.
  revert n prev i. induction l as [|x l IH]; intros n prev i; [done|]. intros [Hx Hl].
  destruct i as [|i]; cbn; intros Hi.
  - injection Hi as ->. rewrite Z.add_0_r. split; [by apply (chained_row_facts _ _ _ _ _ _ Hx)|eauto].
  - destruct (IH _ _ _ Hl Hi) as [Hs [p Hp]]. replace (n + Z.of_nat (S i) + 1) with (n + 1 + Z.of_nat i + 1) by lia.
    eauto.
Qed.

Lemma chained_row_at l row :
  chained 0 GENESIS_HASH l → row ∈ l →
  ∃ i, l !! i = Some row ∧ row_sequence row = Z.of_nat i + 1 ∧ row_hash row = hash_at l (S i) ∧
    1 <= row_sequence row <= Zlength l.
Proof.
  intros Hc [i Hi]%list_elem_of_lookup. exists i. destruct (chained_lookup _ _ _ _ _ Hc Hi) as [Hs _].
  apply lookup_lt_Some in Hi as Hlt. unfold Zlength. cbn. rewrite Hi. split_and!; [done|lia|done|lia|lia].
Qed.

Lemma chained_snoc n prev l row :
  chained n prev l → chained_row (n + Zlength l + 1) (match last l with Some x => row_hash x | None => prev end) row →
  chained n prev (l ++ [row]).
Proof.
  revert n prev. induction l as [|x l IH]; intros n prev.
  { cbn. rewrite Z.add_0_r. by intros _ ?. }
  intros [Hx Hl] Hrow. split; [done|]. apply IH; [done|].
  replace (n + 1 + Zlength l + 1) with (n + Zlength (x :: l) + 1) by (unfold Zlength; cbn; lia).
  destruct l as [|y l]; [done|]. change (last (x :: y :: l)) with (last (y :: l)) in Hrow.
  destruct (last (y :: l)) eqn:E; [done|by apply last_None in E].
Qed.

Lemma hash_at_last l : hash_at l (length l) = match last l with Some x => row_hash x | None => GENESIS_HASH end.
Proof.
  destruct l as [|x l] using rev_ind; [done|]. rewrite last_snoc, length_app, Nat.add_1_r. cbn.
  by rewrite lookup_app_r, Nat.sub_diag by lia.
Qed.

Lemma hash_at_app l l' i : (i <= length l)%nat → hash_at (l ++ l') i = hash_at l i.
Proof. destruct i; [done|]. cbn. intros Hi. by rewrite lookup_app_l by lia. Qed.

Lemma row_eq l x y :
  chained 0 GENESIS_HASH l → x ∈ l → y ∈ l → row_sequence x = row_sequence y → x = y.
Proof.
  intros Hc Hx Hy Heq. destruct (chained_row_at l x Hc Hx) as (i & Hi & Hsi & _).
  destruct (chained_row_at l y Hc Hy) as (j & Hj & Hsj & _). assert (i = j) as -> by lia. congruence.
Qed.

Lemma offers_row l x row :
  chained 0 GENESIS_HASH l → row ∈ l → line_text x = Parsed row →
  offers x = Some (row_sequence row, row_hash row) ∧ 0 < row_sequence row.
Proof.
  intros Hc Hrow Hx. destruct (chained_row_at l row Hc Hrow) as (i & Hi & Hs & _).
  destruct (chained_lookup _ _ _ _ _ Hc Hi) as [_ [p (m & d & h & -> & Hm & Hd & _ & Hh & _)]].
  split; [|lia]. unfold offers. rewrite Hx. unfold row_sequence, row_hash.
  rewrite (integrity_block_obj m d Hm), Hh. cbn [mbind option_bind]. rewrite Hd. cbn. by rewrite Hh.
Qed.

(** *** The tail *)

Lemma ledger_rows_app fs fs' : ledger_rows (fs ++ fs') = ledger_rows fs ++ ledger_rows fs'.
Proof. unfold ledger_rows. by rewrite fmap_app, join_app. Qed.

Lemma ledger_rows_one d f : ledger_rows [(d, f)] = file_rows f.
Proof. unfold ledger_rows. cbn. by rewrite app_nil_r. Qed.

Lemma inv_ledger_sub s l x : inv s l → x ∈ ledger_rows (files (vol s)) → x ∈ l.
Proof. intros Hinv Hx. rewrite <-(inv_rows _ _ Hinv). apply elem_of_app. by left. Qed.

Lemma inv_held_sub s l x : inv s l → x ∈ held s → x ∈ l.
Proof. intros Hinv Hx. rewrite <-(inv_rows _ _ Hinv). apply elem_of_app. by right. Qed.

Lemma sum_below (l : list line) :
  Forall (λ x, 0 < line_size x < ROW_BYTES) l → Zlength l <= LEDGER_TAIL_MIN_LINES →
  Zsum (line_size <$> l) < LEDGER_TAIL_MAX_WINDOW_BYTES.
Proof.
  intros Hl Hn. enough (Zsum (line_size <$> l) <= Zlength l * (ROW_BYTES - 1)) as Hle.
  { unfold LEDGER_TAIL_MIN_LINES, LEDGER_TAIL_MAX_WINDOW_BYTES, ROW_BYTES in *. lia. }
  clear Hn. induction Hl as [|x l Hx Hl IH]; [done|]. rewrite fmap_cons, Zsum_cons.
  unfold Zlength in *. cbn [length]. lia.
Qed.

(** The newest file shows the reader its highest row. *)
Lemma newest_readable s l before d f old top after :
  inv s l → files (vol s) = before ++ [(d, f)] → file_rows f = old ++ top :: after →
  (∀ x, x ∈ file_rows f → row_sequence x <= row_sequence top) → Zlength after + 1 <= LEDGER_TAIL_MIN_LINES →
  readable_tail f (row_sequence top) (row_hash top).
Proof.
  intros Hinv Hfs Hf Htop Hafter. pose proof (inv_files _ _ Hinv) as Hclean. rewrite Hfs in Hclean.
  apply Forall_app in Hclean as [_ Hclean]. apply Forall_singleton in Hclean as [Hclean Hsizes]. cbn in *.
  pose proof (clean_file_rows f Hclean) as H2. destruct Hclean as [Hu _].
  pose proof (inv_chain _ _ Hinv) as Hc.
  assert (∀ row, row ∈ file_rows f → row ∈ l) as Hsub.
  { intros row Hrow. apply (inv_ledger_sub s); [done|]. rewrite Hfs, ledger_rows_app, ledger_rows_one.
    apply elem_of_app. by right. }
  assert (∀ x, x ∈ lines f → ∃ row, row ∈ file_rows f ∧ line_text x = Parsed row) as Hline.
  { intros x [i Hi]%list_elem_of_lookup. destruct (Forall2_lookup_l _ _ _ _ _ H2 Hi) as (row & Hr & Hx).
    exists row. split; [by eapply list_elem_of_lookup_2|done]. }
  assert (∀ ls, ls ⊆ lines f → (∃ x, x ∈ ls ∧ line_text x = Parsed top) → tops (row_sequence top) (row_hash top) ls) as Htops.
  { intros ls Hls (x & Hx & Ht). assert (top ∈ file_rows f) as Hin by (rewrite Hf; set_solver). split.
    - exists x. split; [done|]. by destruct (offers_row l x top Hc (Hsub _ Hin) Ht).
    - intros y z h' Hy Ho. destruct (Hline y (Hls y Hy)) as (row & Hrow & Hyr).
      destruct (offers_row l y row Hc (Hsub _ Hrow) Hyr) as [Ho' _]. rewrite Ho in Ho'. injection Ho' as -> ->.
      destruct (decide (row_sequence row = row_sequence top)) as [Heq|Hne].
      + right. by rewrite (row_eq l row top Hc) by auto.
      + left. specialize (Htop row Hrow). lia. }
  rewrite Hf in H2. apply Forall2_app_inv_r in H2 as (ol & rl & Hold & Hrec & Hlines).
  apply Forall2_cons_inv_r in Hrec as (x & al & Hx & Hal & ->). unfold readable_tail. rewrite Hlines in *.
  split_and!.
  - done.
  - apply Forall_forall. intros y Hy. rewrite Forall_forall in Hsizes. split; [apply Hsizes, Hy|].
    destruct (Hline y Hy) as (row & Hrow & Hyr). destruct (offers_row l y row Hc (Hsub _ Hrow) Hyr). eauto.
  - apply Htops; [done|]. exists x. split; [set_solver|done].
  - exists ol, (x :: al). split_and!; [done| | |].
    + apply Htops; [set_solver|]. exists x. split; [set_solver|done].
    + unfold Zlength in *. cbn [length]. rewrite (Forall2_length _ _ _ Hal). lia.
    + apply sum_below; [by apply Forall_app in Hsizes as [_ ?]|].
      unfold Zlength in *. cbn [length]. rewrite (Forall2_length _ _ _ Hal). lia.
Qed.

(** The reader answers with the highest row on disk. *)
Lemma tail_on_disk s l :
  inv s l →
  files (vol s) = [] ∧ read_tail (files (vol s)) = Some None ∨
  ∃ top, top ∈ ledger_rows (files (vol s)) ∧
    (∀ x, x ∈ ledger_rows (files (vol s)) → row_sequence x <= row_sequence top) ∧
    read_tail (files (vol s)) = Some (Some (LedgerTail (row_sequence top) (row_hash top))).
Proof.
  intros Hinv. destruct (inv_recent _ _ Hinv) as [->|(before & d & f & old & top & after & Hfs & Hf & Htop & Hold & _ & Hn)];
    [by left|right].
  pose proof (inv_few _ _ Hinv) as Hfew.
  pose proof (countb_nonneg (λ y, row_sequence y <? row_sequence top) (held s)).
  assert (top ∈ file_rows f) as Hin by (rewrite Hf; set_solver). exists top. split_and!.
  - rewrite Hfs, ledger_rows_app, ledger_rows_one. apply elem_of_app. by right.
  - rewrite Hfs, ledger_rows_app, ledger_rows_one. intros x [Hx|Hx]%elem_of_app; [|by apply Htop].
    assert (top ∈ file_rows f ++ held s) as Hy by (apply elem_of_app; by left).
    specialize (Hold x top Hx Hy). lia.
  - destruct (inv_days _ _ Hinv) as [Hdays _]. eapply (read_tail_finds _ d f (reverse before)).
    + unfold list_ledger_files. rewrite sort_by_ascending by done. rewrite Hfs, reverse_app. done.
    + eapply newest_readable; try done. lia.
Qed.

(** The hash of the highest row is the one the chain has reached with it. *)
Lemma hash_of_row s l top :
  inv s l → top ∈ ledger_rows (files (vol s)) →
  row_hash top = hash_at l (Z.to_nat (row_sequence top)) ∧ 1 <= row_sequence top <= Zlength l.
Proof.
  intros Hinv Htop. destruct (chained_row_at l top (inv_chain _ _ Hinv) (inv_ledger_sub _ _ _ Hinv Htop))
    as (i & _ & Hs & Hh & Hb). split; [|done]. rewrite Hh, Hs. f_equal. lia.
Qed.

(** Where no row is on its way, the disk holds the whole chain. *)
Lemma idle_tail s l top :
  inv s l → idle s → top ∈ ledger_rows (files (vol s)) →
  (∀ x, x ∈ ledger_rows (files (vol s)) → row_sequence x <= row_sequence top) → row_sequence top = Zlength l.
Proof.
  intros Hinv Hidle Hin Htop. pose proof (inv_rows _ _ Hinv) as Hrows. unfold idle in Hidle.
  rewrite Hidle, app_nil_r in Hrows. pose proof (inv_chain _ _ Hinv) as Hc.
  destruct (hash_of_row s l top Hinv Hin) as [_ Hb].
  destruct (l !! (length l - 1)%nat) as [x|] eqn:Hx; [|apply lookup_ge_None in Hx; unfold Zlength in *; lia].
  destruct (chained_lookup _ _ _ _ _ Hc Hx) as [Hs _].
  assert (x ∈ ledger_rows (files (vol s))) as Hxl by (rewrite Hrows; by eapply list_elem_of_lookup_2).
  specialize (Htop x Hxl). unfold Zlength in *. lia.
Qed.

Lemma idle_empty s l : inv s l → idle s → files (vol s) = [] → l = [].
Proof.
  intros Hinv Hidle Hfs. pose proof (inv_rows _ _ Hinv) as Hrows. unfold idle in Hidle.
  rewrite Hidle, Hfs in Hrows. by apply Permutation_nil_l in Hrows.
Qed.

(** Before it numbers an entry a manager has reached the end of the chain, or it
    refuses. *)
Lemma anchored s l w :
  inv s l → w ∈ writers s →
  let '(m, loaded) := load_state (mgr w) (vol s) in
  match reconcile_with_ledger m (vol s) loaded with
  | None => True
  | Some (m', repair) =>
      sequence m' = Zlength l ∧ previous_hash m' = hash_at l (length l) ∧ shared m' ∧ map_Forall (λ _, plain) repair
  end ∧ shared m ∧ ∃ i, (i <= length l)%nat ∧ sequence m = Z.of_nat i ∧ previous_hash m = hash_at l i.
Proof.
  intros Hinv Hw. pose proof (inv_managers _ _ Hinv) as Hm. rewrite Forall_forall in Hm.
  destruct (Hm w Hw) as [Hsh (i & Hi & Hseq & Hprev)].
  assert (∃ m loaded, load_state (mgr w) (vol s) = (m, loaded) ∧ shared m ∧
    ∃ j, (j <= length l)%nat ∧ sequence m = Z.of_nat j ∧ previous_hash m = hash_at l j ∧
      (j = length l ∨ idle s)) as (m & loaded & -> & Hshm & j & Hj & Hms & Hmp & Hend).
  { unfold load_state. rewrite (proj1 Hsh). cbn [negb].
    destruct (inv_source _ _ Hinv) as [->|[Hidle [->|[->|(k & Hk & ->)]]]]; eexists _, _; (split; [done|split; [done|]]).
    - exists (length l). unfold Zlength. cbn. auto.
    - exists i. cbn. auto.
    - exists i. cbn. auto.
    - exists k. cbn. auto. }
  split; [|eauto]. unfold reconcile_with_ledger. rewrite (proj2 (proj2 Hshm)). cbn [negb].
  destruct (ledger_readable (vol s)); [|done].
  destruct (tail_on_disk s l Hinv) as [[Hfs ->]|(top & Hin & Htop & ->)]; cbn [mbind option_bind].
  { assert (j = length l) as ->.
    { destruct Hend as [?|Hidle]; [done|]. rewrite (idle_empty s l) in Hj |- * by done. cbn in *. lia. }
    unfold Zlength. rewrite Hms, Hmp. split_and!; [done..|apply map_Forall_empty]. }
  destruct (hash_of_row s l top Hinv Hin) as [Hhash Hb]. cbn [tail_sequence tail_hash].
  destruct Hend as [->|Hidle].
  - rewrite Hms, Hmp, (proj2 (Z.ltb_ge _ _)) by (unfold Zlength in *; lia).
    destruct (Z.of_nat (length l) =? row_sequence top) eqn:E; cbn [andb].
    + apply Z.eqb_eq in E. rewrite Hhash, <-E, Nat2Z.id, bool_decide_eq_true_2 by done. cbn [negb].
      rewrite Hms, Hmp. split_and!; [done..|apply map_Forall_empty].
    + rewrite Hms, Hmp. split_and!; [done..|apply map_Forall_empty].
  - pose proof (idle_tail s l top Hinv Hidle Hin Htop) as Hn.
    assert (row_hash top = hash_at l (length l)) as Hlast by (rewrite Hhash, Hn; unfold Zlength; by rewrite Nat2Z.id).
    destruct (sequence m <? row_sequence top) eqn:E.
    { cbn. rewrite Hn, Hlast. split_and!; [done..|]. destruct loaded; apply plain_stamp. }
    apply Z.ltb_ge in E. assert (j = length l) as -> by (unfold Zlength in *; lia).
    rewrite Hmp, Hlast, bool_decide_eq_true_2, andb_false_r by done. rewrite Hms, Hmp.
    split_and!; [done..|apply map_Forall_empty].
Qed.

(** *** Every event keeps it *)

Lemma held_update (ws : list writer) i w w' :
  ws !! i = Some w →
  option_list (held_row w') ++ omap held_row ws ≡ₚ option_list (held_row w) ++ omap held_row (<[i := w']> ws).
Proof.
  revert i. induction ws as [|x ws IH]; intros i Hi; [done|]. destruct i as [|i]; cbn in Hi.
  - injection Hi as ->. cbn. destruct (held_row w), (held_row w'); cbn; [apply Permutation_swap|done..].
  - cbn. specialize (IH i Hi). destruct (held_row x) as [row|]; [|done].
    rewrite <-!Permutation_middle. by constructor.
Qed.

Lemma countb_permutation {A} (p : A → bool) l l' : l ≡ₚ l' → countb p l = countb p l'.
Proof. induction 1; rewrite ?countb_cons; lia. Qed.

Lemma countb_bound {A} (p : A → bool) l : countb p l <= Zlength l.
Proof. unfold countb, Zlength. pose proof (sublist_length _ _ (filter_sublist p l)). lia. Qed.

Lemma held_few s : Zlength (held s) <= Zlength (writers s).
Proof.
  unfold held, Zlength. induction (writers s) as [|w ws IH]; cbn; [done|].
  destruct (held_row w); cbn [length]; lia.
Qed.

Lemma inv_new day n : (n <= 32)%nat → inv (new_site day n) [].
Proof.
  intros Hn. assert (held (new_site day n) = []) as Hheld.
  { unfold held, new_site. cbn. clear Hn. induction n as [|n IH]; [done|]. cbn. exact IH. }
  split; cbn; try done.
  - by rewrite Hheld.
  - apply Forall_replicate. split; [done|]. exists O. cbn. split_and!; [lia|done|done].
  - right. split; [done|by left].
  - split; constructor.
  - unfold Zlength. rewrite length_replicate. unfold LEDGER_TAIL_MIN_LINES. lia.
  - by left.
Qed.

(** Writers change, what they hold does not. *)
Lemma inv_writers s l i w m' :
  inv s l → writers s !! i = Some w → shared m' →
  (∃ j, (j <= length l)%nat ∧ sequence m' = Z.of_nat j ∧ previous_hash m' = hash_at l j) →
  inv (update_writer s (vol s) i (Writer m' (holding w))) l.
Proof.
  intros Hinv Hi Hsh Hm.
  assert (held (update_writer s (vol s) i (Writer m' (holding w))) ≡ₚ held s) as Hheld.
  { unfold held. cbn. pose proof (held_update (writers s) i w (Writer m' (holding w)) Hi) as Hp.
    symmetry. eapply Permutation_app_inv_l. exact Hp. }
  destruct Hinv as [? ? Hrows Hmgrs Hsrc ? ? ? Hfew Hrec]. split; try done.
  - cbn. by rewrite Hheld.
  - cbn. apply Forall_insert; [done|]. by split.
  - cbn. destruct Hsrc as [?|[Hidle ?]]; [by left|right]. split; [|done]. unfold idle in *.
    rewrite Hidle in Hheld. by apply Permutation_nil_r in Hheld.
  - cbn. unfold Zlength. by rewrite length_insert.
  - destruct Hrec as [?|(b & d & f & o & t & a & Hfs & Hf & Ht & Hb & Hd & Hn)]; [by left|right].
    exists b, d, f, o, t, a. split_and!; try done.
    + intros x y Hx. rewrite Hheld. by apply Hb.
    + intros Hlt y. rewrite Hheld. by apply Hd.
    + rewrite (countb_permutation _ _ _ Hheld). cbn. unfold Zlength in *. by rewrite length_insert.
Qed.

Lemma save_in_force m v e annotations ts m' v' e' :
  shared m → state_writable v = true →
  compute_and_persist sha256 hmac_sha256 key m v e annotations ts = (m', v', e') →
  shared m' ∧ v' = set_state v (Saved (Some (sequence m')) (Some (previous_hash m'))).
Proof.
  intros (Hf & Hl & Hw) Hv [= <- <- <-]. split; [done|]. cbn. rewrite Hf, Hl. cbn.
  unfold save_state. cbn. by rewrite Hf, Hv.
Qed.

(** A new row of the chain, held by the writer that numbered it. *)
Lemma inv_new_row s l i w m' e' :
  let row := on_disk orjson (JObj e') in
  inv s l → writers s !! i = Some w → holding w = None → shared m' →
  chained_row (Zlength l + 1) (hash_at l (length l)) row → row_partition row = partition →
  sequence m' = Zlength l + 1 → previous_hash m' = row_hash row →
  inv (update_writer s (set_state (vol s) (Saved (Some (sequence m')) (Some (previous_hash m')))) i
         (Writer m' (Some e'))) (l ++ [row]).
Proof.
  intros row Hinv Hi Hw Hsh Hrow Hpart Hseq Hprev.
  set (s' := update_writer _ _ _ _).
  assert (held s' ≡ₚ row :: held s) as Hheld.
  { pose proof (held_update (writers s) i w (Writer m' (Some e')) Hi) as Hp. unfold held_row in Hp at 1 3.
    rewrite Hw in Hp. symmetry. exact Hp. }
  clearbody row. destruct (chained_row_facts _ _ _ _ _ _ Hrow) as [Hrs _].
  assert (∀ x, x ∈ l → row_sequence x < row_sequence row) as Hnew.
  { intros x Hx. destruct (chained_row_at l x (inv_chain _ _ Hinv) Hx) as (_ & _ & _ & _ & Hb). lia. }
  assert (hash_at (l ++ [row]) (length (l ++ [row])) = row_hash row) as Hlast by (by rewrite hash_at_last, last_snoc).
  assert (Zlength (l ++ [row]) = Zlength l + 1) as Hlen by (rewrite Zlength_app; done).
  split.
  - apply chained_snoc; [apply (inv_chain _ _ Hinv)|]. by rewrite Z.add_0_l, <-hash_at_last.
  - apply Forall_app. split; [apply (inv_partition _ _ Hinv)|by constructor].
  - rewrite Hheld. cbn. rewrite <-Permutation_middle, (inv_rows _ _ Hinv). apply Permutation_cons_append.
  - cbn. apply Forall_insert.
    + eapply Forall_impl; [apply (inv_managers _ _ Hinv)|]. intros x [Hx (j & Hj & Hxs & Hxp)]. split; [done|].
      exists j. rewrite length_app, hash_at_app by done. split_and!; [lia|done|done].
    + split; [done|]. exists (length (l ++ [row])). rewrite Hlast. cbn [mgr]. unfold Zlength in *. split_and!; [done|lia|done].
  - left. cbn. by rewrite Hseq, Hprev, Hlast, Hlen.
  - apply (inv_writable _ _ Hinv).
  - apply (inv_files _ _ Hinv).
  - apply (inv_days _ _ Hinv).
  - cbn. unfold Zlength. rewrite length_insert. apply (inv_few _ _ Hinv).
  - destruct (inv_recent _ _ Hinv) as [?|(b & d & f & o & t & a & Hfs & Hf & Ht & Hb & Hd & Hn)]; [by left|right].
    assert (∀ x, x ∈ ledger_rows (files (vol s)) → row_sequence x < row_sequence row) as Hdisk.
    { intros x Hx. apply Hnew. by eapply inv_ledger_sub. }
    assert (t ∈ ledger_rows (files (vol s))) as Htl.
    { rewrite Hfs, ledger_rows_app, ledger_rows_one, Hf. set_solver. }
    exists b, d, f, o, t, a. split_and!; try done.
    + intros x y Hx. rewrite Hheld, elem_of_app, elem_of_cons. intros [Hy|[->|Hy]].
      * apply Hb; [done|]. apply elem_of_app. by left.
      * apply Hdisk. rewrite Hfs, ledger_rows_app. apply elem_of_app. by left.
      * apply Hb; [done|]. apply elem_of_app. by right.
    + intros Hlt y. rewrite Hheld, elem_of_cons. intros [->|Hy]; [by apply Hdisk|by apply Hd].
    + rewrite (countb_permutation _ _ _ Hheld), countb_cons, (proj2 (Z.ltb_ge _ _)).
      * cbn. unfold Zlength in *. rewrite length_insert. lia.
      * apply Z.lt_le_incl, Hdisk, Htl.
Qed.

Lemma minted_update s v i w w' e annotations ts :
  writers s !! i = Some w → minted (update_writer s v i w') (Mint i e annotations ts) = option_list (held_row w').
Proof. intros Hi. cbn. by rewrite list_lookup_insert_eq by (by eapply lookup_lt_Some). Qed.

Lemma inv_mint s l i e annotations ts s' :
  inv s l → orderly s l (Mint i e annotations ts) → apply_event s (Mint i e annotations ts) = Some s' →
  inv s' (l ++ minted s' (Mint i e annotations ts)).
Proof.
  intros Hinv (He & Ha & Hpart) Hev. cbn in Hev. destruct (writers s !! i) as [w|] eqn:Hi; [|done]. cbn in Hev.
  destruct (holding w) eqn:Hw; [done|]. cbn in Hev. unfold add_integrity in Hev.
  pose proof (inv_managers _ _ Hinv) as Hm. rewrite Forall_forall in Hm.
  assert (w ∈ writers s) as Hin by (by eapply list_elem_of_lookup_2).
  destruct (Hm w Hin) as [(Hsf & Hul & _) _]. rewrite Hsf, Hul in Hev. cbn [andb] in Hev.
  pose proof (anchored s l w Hinv Hin) as Hanch. destruct (load_state (mgr w) (vol s)) as [m loaded].
  destruct Hanch as (Hanch & Hshm & Hat). destruct (reconcile_with_ledger m (vol s) loaded) as [[m1 repair]|].
  - destruct Hanch as (Hs & Hp & Hsh & Hrep).
    destruct (compute_and_persist sha256 hmac_sha256 key m1 (vol s) e (annotations ∪ repair) ts) as [[m2 v2] e2] eqn:Hc.
    injection Hev as <-. destruct (save_in_force _ _ _ _ _ _ _ _ Hsh (proj1 (inv_writable _ _ Hinv)) Hc) as [Hsh2 ->].
    destruct (minted_row m1 (vol s) e (annotations ∪ repair) ts _ _ _ He
      (map_Forall_union_2 _ _ _ Ha Hrep) Hc) as (Hrow & Hs2 & Hp2 & Hpart2).
    rewrite (minted_update _ _ _ _ _ _ _ _ Hi). rewrite Hs, Hp in Hrow. apply (inv_new_row s l i w); try done; [by rewrite Hpart2|lia].
  - injection Hev as <-. rewrite (minted_update _ _ _ _ _ _ _ _ Hi). cbn. rewrite app_nil_r.
    rewrite <-Hw. by apply inv_writers.
Qed.

(** Today's file is the last one, or there is none yet. *)
Lemma todays_file {V} (fs : dict Z V) day v :
  StronglySorted (λ a b, a.1 < b.1) fs → Forall (λ df, df.1 <= day) fs →
  dget fs day = None ∧ dset fs day v = fs ++ [(day, v)] ∧ Forall (λ df, df.1 < day) fs ∨
  ∃ before f, fs = before ++ [(day, f)] ∧ dget fs day = Some f ∧ dset fs day v = before ++ [(day, v)].
Proof.
  induction 1 as [|[d f] fs Hs IH Hd]; intros Hle; [by left|]. apply Forall_cons in Hle as [Hdle Hle]. cbn in *.
  destruct (decide (d = day)) as [->|Hne].
  - right. destruct fs as [|[d' f'] fs]; [by exists [], f|].
    apply Forall_cons in Hd as [Hd _]. apply Forall_cons in Hle as [Hle _]. cbn in *. lia.
  - destruct (IH Hle) as [(Hg & Hset & Hlt)|(before & f0 & -> & Hg & Hset)].
    + left. rewrite Hset. split_and!; [done|done|]. constructor; [cbn; lia|done].
    + right. exists ((d, f) :: before), f0. by rewrite Hset.
Qed.

Lemma file_rows_append f size row :
  unterminated f = None → file_rows (append_to f (Line size (Parsed row))) = file_rows f ++ [row].
Proof. intros Hu. unfold append_to, file_rows. rewrite Hu. cbn. by rewrite omap_app. Qed.

Lemma clean_append f size row :
  clean_file f → Forall (λ x, 0 < line_size x < ROW_BYTES) (lines f) → 0 < size < ROW_BYTES →
  let f' := append_to f (Line size (Parsed row)) in
  clean_file f' ∧ Forall (λ x, 0 < line_size x < ROW_BYTES) (lines f').
Proof.
  intros [Hu Hl] Hs Hsize f'. subst f'. unfold append_to. rewrite Hu. split; [split; [done|]|]; cbn;
    apply Forall_app; (split; [done|]); apply Forall_singleton; [eauto|done].
Qed.

(** How the newest file stays recent. *)
Lemma recent_append (ws : Z) (rest : list json) (file old after : list json) top row :
  file = old ++ top :: after → (∀ x, x ∈ file → row_sequence x <= row_sequence top) →
  Zlength after + countb (λ y, row_sequence y <? row_sequence top) (row :: rest) + 1 <= ws →
  row_sequence row ≠ row_sequence top → Zlength (row :: rest) <= ws →
  ∃ old' top' after', file ++ [row] = old' ++ top' :: after' ∧
    (∀ x, x ∈ file ++ [row] → row_sequence x <= row_sequence top') ∧
    Zlength after' + countb (λ y, row_sequence y <? row_sequence top') rest + 1 <= ws.
Proof.
  intros -> Htop Hn Hne Hw. rewrite countb_cons in Hn. destruct (row_sequence row <? row_sequence top) eqn:E.
  - apply Z.ltb_lt in E. exists old, top, (after ++ [row]). split_and!.
    + by rewrite <-app_assoc.
    + intros x. rewrite elem_of_app, list_elem_of_singleton. intros [Hx| ->]; [by apply Htop|lia].
    + rewrite Zlength_app. change (Zlength [row]) with 1. lia.
  - apply Z.ltb_ge in E. exists (old ++ top :: after), row, []. split_and!; [done| |].
    + intros x. rewrite elem_of_app, list_elem_of_singleton. intros [Hx| ->]; [|done]. specialize (Htop x Hx). lia.
    + pose proof (countb_bound (λ y, row_sequence y <? row_sequence row) rest) as Hb.
      unfold Zlength in *. cbn [length] in *. lia.
Qed.

Lemma held_after_append s i w e v' :
  writers s !! i = Some w → holding w = Some e →
  held s ≡ₚ on_disk orjson (JObj e) :: held (update_writer s v' i (Writer (mgr w) None)).
Proof.
  intros Hi Hw. pose proof (held_update (writers s) i w (Writer (mgr w) None) Hi) as Hp.
  unfold held_row in Hp at 1 3. rewrite Hw in Hp. exact Hp.
Qed.

(** A row reaches the disk: the files after it. *)
Lemma inv_appended s l i w row fs rest :
  inv s l → writers s !! i = Some w → held s ≡ₚ row :: rest →
  let s' := update_writer s (set_files (vol s) fs) i (Writer (mgr w) None) in
  held s' = rest → ledger_rows fs ≡ₚ ledger_rows (files (vol s)) ++ [row] →
  Forall (λ df, clean_file df.2 ∧ Forall (λ x, 0 < line_size x < ROW_BYTES) (lines df.2)) fs →
  StronglySorted (λ a b, a.1 < b.1) fs → Forall (λ df, df.1 <= today (vol s)) fs → recent s' →
  inv s' l.
Proof.
  intros Hinv Hi Hheld s' Hs' Hfs Hclean Hsort Hdays Hrec.
  pose proof (inv_managers _ _ Hinv) as Hm. split; cbn.
  - apply (inv_chain _ _ Hinv).
  - apply (inv_partition _ _ Hinv).
  - rewrite Hs', Hfs, <-app_assoc. cbn. rewrite <-Hheld. apply (inv_rows _ _ Hinv).
  - apply Forall_insert; [done|]. rewrite Forall_forall in Hm.
    exact (Hm w (list_elem_of_lookup_2 _ _ _ Hi)).
  - destruct (inv_source _ _ Hinv) as [?|[Hidle _]]; [by left|]. unfold idle in Hidle. rewrite Hidle in Hheld.
    by apply Permutation_nil_cons in Hheld.
  - apply (inv_writable _ _ Hinv).
  - done.
  - done.
  - unfold Zlength. rewrite length_insert. apply (inv_few _ _ Hinv).
  - done.
Qed.

Lemma chained_nodup l : chained 0 GENESIS_HASH l → NoDup l.
Proof.
  intros Hc. apply NoDup_alt. intros i j x Hi Hj.
  destruct (chained_lookup _ _ _ _ _ Hc Hi) as [Hsi _]. destruct (chained_lookup _ _ _ _ _ Hc Hj) as [Hsj _]. lia.
Qed.

(** A row on its way has a number of its own. *)
Lemma held_apart s l x y :
  inv s l → x ∈ ledger_rows (files (vol s)) → y ∈ held s → row_sequence x ≠ row_sequence y.
Proof.
  intros Hinv Hx Hy Heq. pose proof (inv_chain _ _ Hinv) as Hc. pose proof (chained_nodup l Hc) as Hnd.
  rewrite <-(inv_rows _ _ Hinv) in Hnd. apply NoDup_app in Hnd as (_ & Hnd & _).
  rewrite (row_eq l x y Hc) in Hx; [by apply (Hnd y)|by eapply inv_ledger_sub|by eapply inv_held_sub|done].
Qed.

(** The newest file, when a row is appended to it. *)
Lemma recent_same_file s l i w row rest before f f' :
  let s' := update_writer s (set_files (vol s) (before ++ [(today (vol s), f')])) i (Writer (mgr w) None) in
  inv s l → files (vol s) = before ++ [(today (vol s), f)] → held s ≡ₚ row :: rest → held s' = rest →
  file_rows f' = file_rows f ++ [row] → recent s'.
Proof.
  intros s' Hinv Hfs Hheld Hs' Hf'. right. pose proof (held_few s) as Hfew.
  destruct (inv_recent _ _ Hinv) as [Hnil|(b & d & f0 & o & t & a & Hfs0 & Hf & Ht & Hb & _ & Hn)].
  { rewrite Hnil in Hfs. by apply app_cons_not_nil in Hfs. }
  rewrite Hfs in Hfs0. apply app_inj_tail in Hfs0 as [<- [= <- <-]].
  assert (row_sequence row ≠ row_sequence t) as Hne.
  { apply not_eq_sym, (held_apart s l); [done| |rewrite Hheld; by left].
    rewrite Hfs, ledger_rows_app, ledger_rows_one, Hf. set_solver. }
  rewrite (countb_permutation _ _ _ Hheld) in Hn. unfold Zlength in Hfew at 1. rewrite (Permutation_length Hheld) in Hfew.
  destruct (recent_append (Zlength (writers s)) rest (file_rows f) o a t row Hf Ht Hn Hne Hfew)
    as (o' & t' & a' & Hsplit & Ht' & Hn').
  exists before, (today (vol s)), f', o', t', a'. split_and!.
  - done.
  - by rewrite Hf'.
  - by rewrite Hf'.
  - intros x y Hx. rewrite Hf', Hs', !elem_of_app, list_elem_of_singleton. intros Hy. apply Hb; [done|].
    rewrite elem_of_app, Hheld, elem_of_cons. naive_solver.
  - cbn. lia.
  - rewrite Hs'. cbn. unfold Zlength in *. by rewrite length_insert.
Qed.

(** The first row of a day. *)
Lemma recent_new_file s l i w row rest f' :
  let s' := update_writer s (set_files (vol s) (files (vol s) ++ [(today (vol s), f')])) i (Writer (mgr w) None) in
  inv s l → Forall (λ df, df.1 < today (vol s)) (files (vol s)) → held s ≡ₚ row :: rest → held s' = rest →
  file_rows f' = [row] → recent s'.
Proof.
  intros s' Hinv Hlt Hheld Hs' Hf'. right. pose proof (held_few s) as Hfew.
  unfold Zlength in Hfew at 1. rewrite (Permutation_length Hheld) in Hfew.
  assert (∀ x y, x ∈ ledger_rows (files (vol s)) → y ∈ held s → row_sequence x < row_sequence y) as Hbelow.
  { destruct (inv_recent _ _ Hinv) as [->|(b & d & f0 & o & t & a & Hfs & Hf & Ht & Hb & Hd & _)];
      [intros x y Hx; by apply not_elem_of_nil in Hx|].
    rewrite Hfs in Hlt. apply Forall_app in Hlt as [_ Hlt]. rewrite Forall_singleton in Hlt. cbn in Hlt.
    intros x y. rewrite Hfs, ledger_rows_app, ledger_rows_one. intros [Hx|Hx]%elem_of_app Hy.
    - apply Hb; [done|]. apply elem_of_app. by right.
    - specialize (Ht x Hx). specialize (Hd Hlt y Hy). lia. }
  exists (files (vol s)), (today (vol s)), f', [], row, []. split_and!.
  - done.
  - by rewrite Hf'.
  - rewrite Hf'. intros x ->%list_elem_of_singleton. done.
  - intros x y Hx. rewrite Hf', Hs', elem_of_app, list_elem_of_singleton. intros Hy. apply Hbelow; [done|].
    rewrite Hheld, elem_of_cons. naive_solver.
  - cbn. lia.
  - rewrite Hs'. pose proof (countb_bound (λ y, row_sequence y <? row_sequence row) rest). cbn.
    unfold Zlength in *. rewrite length_insert. cbn [length] in *. lia.
Qed.

Lemma inv_append s l i size s' :
  inv s l → 0 < size < ROW_BYTES → apply_event s (Append i size) = Some s' → inv s' l.
Proof.
  intros Hinv Hsize Hev. unfold AuditChain.apply_event in Hev. destruct (writers s !! i) as [w|] eqn:Hi; [|done].
  cbn [mbind option_bind] in Hev. destruct (holding w) as [e|] eqn:Hw; [|done]. cbn [mbind option_bind] in Hev.
  rewrite (proj2 (inv_writable _ _ Hinv)) in Hev. cbn [negb] in Hev. injection Hev as <-. unfold append_line.
  pose proof (held_after_append s i w e (set_files (vol s) []) Hi Hw) as Hheld.
  set (row := on_disk orjson (JObj e)) in *. set (rest := held (update_writer _ _ _ _)) in Hheld. set (f := append_to _ _).
  destruct (inv_days _ _ Hinv) as [Hsort Hdays]. pose proof (inv_files _ _ Hinv) as Hclean.
  destruct (todays_file (files (vol s)) (today (vol s)) f Hsort Hdays)
    as [(Hg & Hset & Hlt)|(before & f0 & Hfs & Hg & Hset)]; rewrite Hset; subst f; rewrite Hg; cbn [default].
  - apply (inv_appended s l i w row _ rest); try done.
    + by rewrite ledger_rows_app, ledger_rows_one.
    + apply Forall_app. split; [done|]. apply Forall_singleton. cbn [snd]. apply clean_append; [by split|done|done].
    + apply StronglySorted_app. rewrite Forall_forall in Hlt. split_and!; [|done|by repeat constructor].
      intros x y Hx ->%list_elem_of_singleton. by apply Hlt.
    + apply Forall_app. split; [done|]. by apply Forall_singleton.
    + eapply (recent_new_file s l i w row rest); done.
  - assert (clean_file f0 ∧ Forall (λ x, 0 < line_size x < ROW_BYTES) (lines f0)) as [Hc0 Hs0].
    { rewrite Hfs in Hclean. apply Forall_app in Hclean as [_ Hclean]. by rewrite Forall_singleton in Hclean. }
    apply (inv_appended s l i w row _ rest); try done.
    + rewrite Hfs, !ledger_rows_app, !ledger_rows_one, file_rows_append by apply Hc0. by rewrite app_assoc.
    + rewrite Hfs in Hclean. apply Forall_app in Hclean as [Hclean _]. apply Forall_app. split; [done|].
      apply Forall_singleton. by apply clean_append.
    + rewrite Hfs in Hsort. apply StronglySorted_app in Hsort as (Hsort & Hb & _).
      apply StronglySorted_app. split_and!; [|done|by repeat constructor].
      intros x y Hx ->%list_elem_of_singleton. apply (Hsort x (today (vol s), f0)); [done|by left].
    + rewrite Hfs in Hdays. apply Forall_app in Hdays as [Hdays _]. apply Forall_app. split; [done|]. by apply Forall_singleton.
    + eapply (recent_same_file s l i w row rest); try done. apply file_rows_append, Hc0.
Qed.

(** What a state file of this chain makes of a new manager. *)
Lemma restarted s l :
  inv s l → let m := manager_init true true true (vol s) in
  shared m ∧ ∃ j, (j <= length l)%nat ∧ sequence m = Z.of_nat j ∧ previous_hash m = hash_at l j.
Proof.
  intros Hinv m. subst m. unfold manager_init, load_state. cbn [has_state_file negb].
  destruct (inv_source _ _ Hinv) as [->|[_ [->|[->|(k & Hk & ->)]]]]; (split; [done|]).
  - exists (length l). done.
  - exists O. cbn. split_and!; [lia|done|done].
  - exists O. cbn. split_and!; [lia|done|done].
  - exists k. done.
Qed.

(** Changes of the directory that keep its files. *)
Lemma inv_volume s l v :
  inv s l → idle s ∨ chain_state v = chain_state (vol s) ∧ today v = today (vol s) →
  files v = files (vol s) → today (vol s) <= today v → state_writable v = true → ledger_writable v = true →
  chain_state v = chain_state (vol s) ∨ idle s ∧ earlier l (chain_state v) →
  inv (Site v (writers s)) l.
Proof.
  intros Hinv Hidle Hf Ht Hsw Hlw Hst. assert (held (Site v (writers s)) = held s) as Hheld by done.
  destruct Hinv as [? ? Hrows Hmgrs Hsrc ? Hclean [Hsort Hdays] Hfew Hrec]. split; cbn; rewrite ?Hf, ?Hheld; try done.
  - destruct Hst as [->|?]; [|by right]. destruct Hsrc as [?|[? ?]]; [by left|by right].
  - split; [done|]. eapply Forall_impl; [done|]. cbn. lia.
  - unfold recent. cbn. rewrite Hf.
    destruct Hrec as [?|(b & d & f & o & t & a & Hfs & Hf' & Htop & Hb & Hd & Hn)]; [by left|right].
    exists b, d, f, o, t, a. split_and!; try done. rewrite Hheld. intros Hlt y Hy.
    destruct Hidle as [Hidle|[_ Heq]]; [|apply Hd; [lia|done]].
    unfold idle in Hidle. rewrite Hidle in Hy. by apply not_elem_of_nil in Hy.
Qed.

Lemma inv_step s l ev s' :
  inv s l → orderly s l ev → apply_event s ev = Some s' → inv s' (l ++ minted s' ev).
Proof.
  intros Hinv Hord Hev. pose proof (inv_writable _ _ Hinv) as [Hsw Hlw].
  destruct ev as [i e a ts|i size|i|i|d|st|readable|torn]; try done; cbn [minted];
    [by eapply inv_mint|rewrite app_nil_r..].
  - by eapply inv_append.
  - unfold AuditChain.apply_event in Hev. destruct (writers s !! i) as [w|] eqn:Hi; [|done]. cbn [mbind option_bind] in Hev.
    destruct (holding w) eqn:Hw; [done|]. rewrite bool_decide_eq_false_2 in Hev by (by intros []). injection Hev as <-.
    pose proof (inv_managers _ _ Hinv) as Hm. rewrite Forall_forall in Hm.
    destruct (Hm w (list_elem_of_lookup_2 _ _ _ Hi)) as [(-> & -> & ->) _].
    destruct (restarted s l Hinv) as [Hsh Hat]. rewrite <-Hw. by apply inv_writers.
  - cbn in Hev. destruct (today (vol s) <? d) eqn:E; [|done]. apply Z.ltb_lt in E. injection Hev as <-.
    apply inv_volume; try done; [by left|cbn; lia|by left].
  - injection Hev as <-. destruct Hord as [Hidle He]. apply inv_volume; try done; [by left|by right].
  - injection Hev as <-. apply inv_volume; try done; [by right|by left].
Qed.

Lemma history_inv n s l : (n <= 32)%nat → history n s l → inv s l.
Proof. intros Hn. induction 1; [by apply inv_new|by eapply inv_step]. Qed.

(** C8: However up to 32 processes that share a directory number and append
    their entries, in whatever order the rows reach the disk, with processes
    replaced, days ending, the ledger unreadable at times and the state file
    removed, truncated or restored from a backup while no row is on its way:
    if every entry is plain (it holds only values that JSON gives back as they
    were, so no datetime: [datetime_reads_as_tampered]) and of the one partition,
    every row is shorter than the 256 KiB window of the tail reader, no process
    dies between numbering and appending a row and no row is torn, and days end
    while no row is on its way ([orderly]), then every row is on disk exactly once
    as it was numbered, and the check of the trail finds it intact, without an
    issue and without a note. *)
Theorem written_trail_verifies n s l :
  (n <= 32)%nat → history n s l → idle s →
  ledger_rows (files (vol s)) ≡ₚ l ∧
  ∃ r, verify_trail sha256 hmac_sha256 key (files (vol s)) partition 1 = Some r ∧
    intact r = true ∧ issues r = [] ∧ notes r = [] ∧ entries r = Zlength l.
Proof.
  intros Hn Hhist Hidle. pose proof (history_inv n s l Hn Hhist) as Hinv.
  pose proof (inv_rows _ _ Hinv) as Hrows. unfold idle in Hidle. rewrite Hidle, app_nil_r in Hrows. split; [done|].
  destruct (chain_verifies sha256 hmac_sha256 key (files (vol s)) partition l (inv_chain _ _ Hinv) Hrows)
    as (r & Hr & Hi & His & Hno & Hent & _).
  - eapply Forall_impl; [apply (inv_files _ _ Hinv)|]. by intros ? [].
  - apply (inv_partition _ _ Hinv).
  - exists r. done.
Qed.

(** C9: The reader of the tail answers, at every moment of such a history, with the
    highest-numbered row on disk, although it reads only the end of the newest
    file and rows reach the disk out of order. *)
Theorem tail_is_highest n s l :
  (n <= 32)%nat → history n s l →
  read_tail (files (vol s)) = Some None ∧ ledger_rows (files (vol s)) = [] ∨
  ∃ top, top ∈ ledger_rows (files (vol s)) ∧
    (∀ x, x ∈ ledger_rows (files (vol s)) → row_sequence x <= row_sequence top) ∧
    read_tail (files (vol s)) = Some (Some (LedgerTail (row_sequence top) (row_hash top))).
Proof.
  intros Hn Hhist. destruct (tail_on_disk s l (history_inv n s l Hn Hhist)) as [[-> ->]|H]; [by left|by right].
Qed.
End writers.
