(* ===== verification/AuditTamper.v ===== *)
(** * Tampering with an audit trail shows

    What a check that finds a trail intact has established, and the theorem: under
    the signing key such a trail is what the writers made, up to where it ends. *)
From stdpp Require Import sorting pretty.
From S2P Require Import Prelude AuditLedger AuditChain AuditVerify AuditTrail.

(** ** Findings are never taken back *)

Section intact.
  Context (w : walk) (keyed host_local : bool).
Notation start0 := (Some CHAIN_BEGINNING).
Notation walk_step := (walk_step w keyed start0 host_local true).

Definition keeps (f f' : findings) : Prop := f_issues f' = [] → f_issues f = [].

#[export] Instance keeps_preorder : PreOrder keeps.
Proof. split; [intros f Hf; exact Hf|]. intros f g h Hfg Hgh H. by apply Hfg, Hgh. Qed.

Lemma keeps_foldl {A B} (get : A → findings) (step : A → B → A) a l :
  (∀ a b, keeps (get a) (get (step a b))) → keeps (get a) (get (foldl step a l)).
Proof. intros Hs. revert a. induction l as [|b l IH]; intros a; cbn; [reflexivity|]. etrans; [apply Hs|apply IH]. Qed.

Lemma keeps_issue f s i : keeps f (and_issue f s i).
Proof. unfold keeps. cbn. intros H. by apply app_eq_nil in H as [? _]. Qed.

Lemma keeps_note f n : keeps f (and_note f n).
Proof. intros H. exact H. Qed.
#[local] Hint Resolve keeps_issue keeps_note : core.
#[local] Hint Extern 0 (keeps ?f ?f) => reflexivity : core.

Lemma keeps_unkeyed f run : keeps f (report_unkeyed f run).
Proof. destruct run; cbn; auto. Qed.

Lemma keeps_fingerprint acc r : keeps acc.1 (fingerprint_step acc r).1.
Proof.
  destruct acc as [f run]. unfold fingerprint_step. cbn [fst].
  set (f' := if bool_decide (r_verdict r = FINGERPRINT_BAD) then _ else _).
  assert (keeps f f') as Hf by (subst f'; case_match; auto).
  destruct (bool_decide (r_verdict r = FINGERPRINT_UNKEYED)); [|exact Hf].
  destruct (last run); [|exact Hf]. case_match; [|exact Hf]. etrans; [exact Hf|apply keeps_unkeyed].
Qed.

Lemma keeps_duplicate_step acc r : keeps acc.1 (duplicate_step acc r).1.
Proof. destruct acc as [f seen]. cbn. case_match; auto. Qed.

Lemma keeps_duplicates f g : keeps f (check_duplicates f g).
Proof.
  unfold check_duplicates. case_match; [auto|]. apply (keeps_foldl fst duplicate_step (f, [])), keeps_duplicate_step.
Qed.

Lemma keeps_fork f s g : keeps f (check_fork w keyed f s g).
Proof. unfold check_fork. repeat case_match; auto. Qed.

Lemma keeps_link f g p : keeps f (link_group w keyed start0 f g p).1.
Proof.
  unfold link_group. set (cand := _ ++ _). set (tr := _ && _).
  apply (keeps_foldl fst (λ (acc : findings * list (record * bool)) r,
    let '(f, linked) := link_record w keyed cand tr acc.1 r in (f, acc.2 ++ [(r, linked)])) (f, [])).
  intros [f' done_] r. cbn. unfold link_record. repeat case_match; simplify_eq/=; auto.
Qed.

Lemma keeps_step acc sg : keeps acc.1.1 (walk_step acc sg).1.1.
Proof.
  destruct acc as [[f p] b], sg as [s g]. unfold AuditVerify.walk_step. cbn [fst].
  case_match; [apply keeps_duplicates|].
  destruct (p + 1 <? s).
  - cbn. etrans; [|apply keeps_fork]. etrans; [|apply keeps_duplicates].
    unfold report_gap. repeat case_match; auto.
  - pose proof (keeps_link f g (default [] (dget (by_sequence w) (s - 1)))) as Hl.
    destruct (link_group _ _ _ _ _ _) as [f' linked]. cbn in *.
    etrans; [|apply keeps_fork]. etrans; [exact Hl|apply keeps_duplicates].
Qed.

Lemma snoc_not_nil {A} (l : list A) x : l ++ [x] ≠ [].
Proof. by destruct l. Qed.

Lemma unkeyed_silent f run : f_issues (report_unkeyed f run) = [] → run = [].
Proof. destruct run; [done|]. cbn. intros H. by apply snoc_not_nil in H. Qed.

Lemma fingerprints_silent f run l :
  let '(f', run') := foldl fingerprint_step (f, run) l in
  f_issues (report_unkeyed f' run') = [] → run = [] ∧ Forall (λ r, r_verdict r = FINGERPRINT_OK) l.
Proof.
  revert f run. induction l as [|r l IH]; intros f run; cbn [foldl]; [intros H; by apply unkeyed_silent in H|].
  destruct (fingerprint_step (f, run) r) as [f1 run1] eqn:Hstep. specialize (IH f1 run1).
  pose proof (keeps_foldl fst fingerprint_step (f1, run1) l keeps_fingerprint) as Hk.
  destruct (foldl fingerprint_step (f1, run1) l) as [f' run']. cbn in Hk. intros H. destruct (IH H) as [-> Hl].
  assert (f_issues f1 = []) as Hf1 by (apply Hk, (keeps_unkeyed f' run'), H).
  unfold fingerprint_step in Hstep. destruct (r_verdict r) eqn:Hv; cbn in Hstep.
  - injection Hstep as -> ->. split; [done|by constructor].
  - destruct (last run); [destruct (_ <? _)|]; simplify_eq/=. by apply snoc_not_nil in H1.
  - injection Hstep as <- ->. cbn in Hf1. by apply snoc_not_nil in Hf1.
Qed.

Lemma foreign_silent f : f_issues (report_foreign w f) = [] → w_foreign w = [].
Proof.
  unfold report_foreign. destruct (w_foreign w) as [|x l]; [done|]. cbn [foldl]. intros H.
  pose proof (keeps_foldl (λ f : findings, f) (λ f rp,
    and_issue f (r_sequence rp.1) (Issue ISSUE_CHAIN_BROKEN (Some (r_sequence rp.1)) None (r_at rp.1)))
    (and_issue f (r_sequence x.1) (Issue ISSUE_CHAIN_BROKEN (Some (r_sequence x.1)) None (r_at x.1))) l) as Hk.
  apply Hk in H; [|intros; apply keeps_issue]. cbn in H. by apply snoc_not_nil in H.
Qed.

(** ** Groups *)

Lemma by_sequence_group n :
  dget (by_sequence w) n =
  match filter (λ r, r_sequence r = n) (sorted_records w) with [] => None | g => Some g end.
Proof.
  unfold by_sequence.
  enough (∀ l d, dget (foldl (λ d r, dset d (r_sequence r) (default [] (dget d (r_sequence r)) ++ [r])) d l) n =
    match filter (λ r, r_sequence r = n) l with [] => dget d n | g => Some (default [] (dget d n) ++ g) end) as Hg.
  { rewrite Hg. done. }
  induction l as [|r l IH]; intros d; [done|]. cbn [foldl]. rewrite IH, filter_cons, dget_dset.
  destruct (decide (r_sequence r = n)) as [->|Hne].
  - cbn. destruct (filter _ l) as [|x g]; [done|]. by rewrite <-app_assoc.
  - done.
Qed.

Lemma by_sequence_keys : StronglySorted Z.lt (dkeys (by_sequence w)).
Proof.
  unfold by_sequence. pose proof (sort_by_sorted r_sequence (w_records w)) as Hs.
  fold (sorted_records w) in Hs. apply Sorted_StronglySorted in Hs; [|intros ? ? ?; lia].
  enough (∀ l (d : dict Z (list record)), StronglySorted (λ a b, r_sequence a <= r_sequence b) l →
    StronglySorted Z.lt (dkeys d) → (∀ k r, k ∈ dkeys d → r ∈ l → k <= r_sequence r) →
    StronglySorted Z.lt (dkeys (foldl (λ d r, dset d (r_sequence r) (default [] (dget d (r_sequence r)) ++ [r])) d l)))
    as Hg by (apply Hg; [done|constructor|]; intros k r Hk; by apply not_elem_of_nil in Hk).
  clear Hs. induction l as [|r l IH]; intros d Hl Hd Hle; [done|]. cbn [foldl].
  apply StronglySorted_inv in Hl as [Hl Hr]. rewrite Forall_forall in Hr.
  destruct (dget d (r_sequence r)) as [g|] eqn:Hg.
  - apply IH; [done|by rewrite dkeys_dset_Some|]. rewrite dkeys_dset_Some by done.
    intros k x Hk Hx. apply Hle; [done|by right].
  - apply IH; [done| |].
    + rewrite dkeys_dset_None by done. apply StronglySorted_app. split_and!; [|done|by repeat constructor].
      intros k x Hk ->%list_elem_of_singleton. specialize (Hle k r Hk ltac:(by left)).
      assert (k ≠ r_sequence r); [|lia]. intros ->. apply elem_of_dkeys in Hk. rewrite Hg in Hk. by destruct Hk.
    + rewrite dkeys_dset_None by done. intros k x. rewrite elem_of_app, list_elem_of_singleton.
      intros [Hk| ->] Hx; [apply Hle; [done|by right]|by apply Hr].
Qed.

Lemma duplicates_silent f g : f_issues (check_duplicates f g) = [] → NoDup (r_stored_hash <$> g).
Proof.
  unfold check_duplicates. destruct g as [|x [|y g]]; [constructor|by intros _; repeat constructor; set_solver|].
  cbn [length Nat.ltb Nat.leb]. generalize (x :: y :: g). clear. intros g.
  enough (∀ seen, f_issues (foldl duplicate_step (f, seen) g).1 = [] →
    NoDup (r_stored_hash <$> g) ∧ ∀ h, h ∈ r_stored_hash <$> g → h ∉ seen) as Hg by (intros H; by apply (Hg [])).
  revert f. induction g as [|r g IH]; intros f seen H.
  { split; [constructor|]. intros h Hh. by apply not_elem_of_nil in Hh. }
  cbn [foldl] in H. destruct (duplicate_step (f, seen) r) as [f1 seen1] eqn:Hstep.
  unfold duplicate_step in Hstep. cbn in Hstep. injection Hstep as Hf1 <-.
  assert (f_issues f1 = []) as Hnone.
  { exact (keeps_foldl fst duplicate_step (f1, seen ++ [r_stored_hash r]) g keeps_duplicate_step H). }
  destruct (IH f1 _ H) as [Hnd Hseen]. case_bool_decide as Hin; [subst f1; by apply snoc_not_nil in Hnone|].
  cbn. split.
  - constructor; [|done]. intros Hr. apply (Hseen _ Hr). set_solver.
  - intros h [->|Hh]%elem_of_cons; [done|]. specialize (Hseen h Hh). set_solver.
Qed.

(** A walk that finds nothing has met every number, and no entry twice. *)
Lemma walk_silent (groups : list (Z * list record)) f p b :
  StronglySorted Z.lt groups.*1 → Forall (λ k, p < k) groups.*1 → 0 <= p →
  Forall (λ sg, Forall (λ r, host_local && redis_minted r = false) sg.2) groups →
  f_issues (foldl walk_step (f, p, b) groups).1.1 = [] →
  groups.*1 = seqZ (p + 1) (Zlength groups) ∧ Forall (λ sg, NoDup (r_stored_hash <$> sg.2)) groups.
Proof.
  revert f p b. induction groups as [|[s g] groups IH]; intros f p b Hs Hp Hpos Hr Hno; [by split|].
  apply StronglySorted_inv in Hs as [Hs Hlt]. apply Forall_cons in Hp as [Hsp Hp]. cbn in Hsp, Hlt.
  apply Forall_cons in Hr as [Hr Hrs]. cbn [foldl] in Hno.
  destruct (walk_step (f, p, b) (s, g)) as [[f1 p1] b1] eqn:Hstep.
  assert (f_issues f1 = []) as Hf1.
  { exact (keeps_foldl (λ acc : findings * Z * bool, acc.1.1) walk_step (f1, p1, b1) groups keeps_step Hno). }
  unfold AuditVerify.walk_step in Hstep. cbn [start start_sequence CHAIN_BEGINNING] in Hstep.
  rewrite (proj2 (Z.leb_gt _ _)) in Hstep by lia. destruct (p + 1 <? s) eqn:Egap.
  { injection Hstep as <- <- <-. apply keeps_fork, keeps_duplicates in Hf1. unfold report_gap in Hf1.
    assert (host_local && existsb redis_minted g = false) as Hred.
    { destruct host_local; [|done]. apply not_true_iff_false. intros (x & Hx & Hx')%existsb_exists.
      rewrite Forall_forall in Hr. apply list_elem_of_In in Hx. specialize (Hr x Hx). cbn in Hr. congruence. }
    rewrite Hred, andb_false_r in Hf1. cbn in Hf1. by apply snoc_not_nil in Hf1. }
  apply Z.ltb_ge in Egap. assert (s = p + 1) as -> by lia.
  destruct (link_group _ _ _ _ _ _) as [f2 linked]. injection Hstep as <- <- <-.
  destruct (IH _ _ _ Hs Hlt ltac:(lia) Hrs Hno) as [Hkeys Hdup]. split.
  - cbn. rewrite Hkeys. unfold Zlength. cbn [length]. rewrite (seqZ_cons (p + 1)) by lia. f_equal. f_equal; lia.
  - constructor; [|done]. apply keeps_fork in Hf1. by eapply duplicates_silent.
Qed.

Lemma by_sequence_wf : dict_wf (by_sequence w).
Proof.
  pose proof by_sequence_keys as Hs. unfold dict_wf. induction Hs as [|x l Hs IH Hx]; constructor; [|done].
  intros Hin. rewrite Forall_forall in Hx. specialize (Hx x Hin). lia.
Qed.

Lemma by_sequence_member k g :
  (k, g) ∈ by_sequence w → g = filter (λ r, r_sequence r = k) (sorted_records w) ∧ g ≠ [].
Proof.
  intros Hg. apply elem_of_dict in Hg; [|apply by_sequence_wf].
  rewrite by_sequence_group in Hg. destruct (filter _ _) as [|x l] eqn:E; [done|]. by injection Hg as <-.
Qed.

(** What an intact report has established. *)
Lemma intact_facts r :
  linker_run w keyed start0 host_local true = r → intact r = true →
  Forall (λ x, 0 < r_sequence x ∧ host_local && redis_minted x = false) (w_records w) →
  w_unreadable w = [] ∧ w_foreign w = [] ∧
  (w_records w ≠ [] ∨ w_unchained w ≠ [] → w_rows_without_chain w = []) ∧
  Forall (λ x, r_verdict x = FINGERPRINT_OK) (w_records w ++ w_unchained w) ∧
  dkeys (by_sequence w) = seqZ 1 (Zlength (by_sequence w)) ∧
  Forall (λ sg, NoDup (r_stored_hash <$> sg.2)) (by_sequence w).
Proof.
  intros <- Hint Hrec. unfold linker_run in Hint. set (sa := match start_hash _ with Some _ => _ | None => _ end) in Hint.
  set (f := foldl walk_step _ _) in Hint. cbn in Hint. unfold build_report in Hint. cbn in Hint.
  destruct (w_unreadable w ++ _) eqn:Hall; [|done]. apply app_eq_nil in Hall as [Hun Hall].
  apply app_eq_nil in Hall as [Hwithout Hall]. apply app_eq_nil in Hall as [Hissues Hkey].
  assert (classify_key w keyed = None) as Hk by (by destruct (classify_key w keyed)).
  assert (f_issues f.1.1 = []) as Hf.
  { apply fmap_nil_inv in Hissues. pose proof (sort_by_perm fst (f_issues f.1.1)) as Hp. rewrite Hissues in Hp.
    by apply Permutation_nil_l in Hp. }
  pose proof (keeps_foldl (λ acc : findings * Z * bool, acc.1.1) walk_step _ _ keeps_step Hf) as Hf0. cbn in Hf0.
  assert (w_foreign w = []) as Hforeign by (by eapply foreign_silent).
  assert (∀ k g, (k, g) ∈ by_sequence w → Forall (λ r, r ∈ w_records w ∧ r_sequence r = k) g ∧ g ≠ []) as Hgroup.
  { intros k g Hg. destruct (by_sequence_member k g Hg) as [-> Hne]. split; [|done]. apply Forall_forall.
    intros r [Hr Hin]%list_elem_of_filter. unfold sorted_records in Hin. by rewrite sort_by_perm in Hin. }
  rewrite Forall_forall in Hrec.
  refine (conj Hun (conj Hforeign (conj _ (conj _ _)))).
  - intros Hch. destruct (w_records w), (w_unchained w); try (by apply fmap_nil_inv in Hwithout). by destruct Hch.
  - assert (f_issues (report_fingerprints w keyed no_findings) = []) as Hfp.
    { unfold report_foreign in Hf0. by rewrite Hforeign in Hf0. }
    unfold report_fingerprints in Hfp. rewrite Hk in Hfp.
    pose proof (fingerprints_silent no_findings [] (sort_by r_sequence (w_unchained w ++ sorted_records w))) as Hs.
    destruct (foldl fingerprint_step _ _) as [f' run']. destruct (Hs Hfp) as [_ Hv].
    rewrite sort_by_perm in Hv. unfold sorted_records in Hv. rewrite sort_by_perm in Hv. by rewrite Permutation_app_comm.
  - apply (walk_silent (by_sequence w) (report_foreign w (report_fingerprints w keyed no_findings)) 0 sa).
    + apply by_sequence_keys.
    + apply Forall_forall. intros k Hk'. apply list_elem_of_fmap in Hk' as ([k' g] & -> & Hg). cbn.
      destruct (Hgroup _ _ Hg) as [Hmem Hne]. destruct g as [|x g]; [done|]. apply Forall_cons in Hmem as [[Hx <-] _].
      apply Hrec, Hx.
    + done.
    + apply Forall_forall. intros [k g] Hg. destruct (Hgroup _ _ Hg) as [Hmem _]. eapply Forall_impl; [exact Hmem|].
      intros x [Hx _]. apply Hrec, Hx.
    + exact Hf.
Qed.
End intact.

(** ** Reading rows of any kind *)

Section tamper.
  Context (sha256 : json → string) (hmac_sha256 : string → json → string) (key : option string).
Notation record_of := (record_of sha256 hmac_sha256 key).
Notation add_row := (add_row sha256 hmac_sha256 key).

(** The record an entry leaves. *)
Definition rec_for (r : record) (row : json) : Prop :=
  ∃ m d z at_, row = JObj m ∧ m !! "integrity" = Some (JObj d) ∧ d !! "sequence" = Some (JInt z) ∧
    r = record_of m d z at_.

(** The rows read: entries, entries without a number, and the others. *)
Definition reads (w : walk) (l : list json) : Prop :=
  ∃ a b c, l ≡ₚ a ++ b ++ c ∧ Forall2 rec_for (w_records w) a ∧ Forall2 rec_for (w_unchained w) b ∧
    Forall (λ r, 0 < r_sequence r) (w_records w) ∧ Forall (λ r, r_sequence r <= 0) (w_unchained w) ∧
    w_foreign w = [] ∧ length c = (length (w_unreadable w) + length (w_rows_without_chain w))%nat.

Lemma reads_add w l row at_ : reads w l → reads (add_row w row at_ None) (l ++ [row]).
Proof.
  intros (a & b & c & Hl & Ha & Hb & Hpos & Hneg & Hf & Hc). unfold AuditVerify.add_row.
  assert (∀ w', w_records w' = w_records w → w_unchained w' = w_unchained w → w_foreign w' = [] →
    (length (w_unreadable w') + length (w_rows_without_chain w'))%nat
      = S (length (w_unreadable w) + length (w_rows_without_chain w)) →
    reads w' (l ++ [row])) as Hother.
  { intros w' H1 H2 H3 H4. exists a, b, (c ++ [row]). rewrite H1, H2. split_and!; try done.
    - by rewrite Hl, <-!app_assoc.
    - rewrite length_app, H4, Hc. cbn. lia. }
  assert (∀ w', w_records w' = w_records w → w_unchained w' = w_unchained w → w_foreign w' = w_foreign w →
    w_unreadable w' = w_unreadable w → w_rows_without_chain w' = w_rows_without_chain w ++ [at_] →
    reads w' (l ++ [row])) as Hwithout.
  { intros w' H1 H2 H3 H4 H5. apply Hother; [done|done|by rewrite H3|]. rewrite H4, H5, length_app. cbn. lia. }
  destruct row as [| | | | | |m|]; try (by apply Hwithout). unfold integrity_block.
  destruct (m !! "integrity") as [[| | | | | |d|]|] eqn:Hm; try (by apply Hwithout).
  destruct (d !! "sequence") as [[| |z| | | | |]|] eqn:Hz; try (apply Hother; try done; cbn; rewrite length_app; cbn; lia).
  assert (rec_for (record_of m d z at_) (JObj m)) as Hrec by (by exists m, d, z, at_).
  unfold add_record. cbn [r_sequence AuditVerify.record_of]. destruct (0 <? z) eqn:E.
  - exists (a ++ [JObj m]), b, c. cbn. split_and!; try done.
    + rewrite Hl. solve_Permutation.
    + apply Forall2_app; [done|by repeat constructor].
    + apply Forall_app. split; [done|]. constructor; [cbn; lia|done].
  - exists a, (b ++ [JObj m]), c. cbn. split_and!; try done.
    + rewrite Hl. solve_Permutation.
    + apply Forall2_app; [done|by repeat constructor].
    + apply Forall_app. split; [done|]. constructor; [cbn; lia|done].
Qed.

Lemma verifier_reads l :
  reads (foldl (λ (acc : walk * Z) row, (add_row acc.1 row (At None (Some acc.2)) None, acc.2 + 1)) (new_walk, 0) l).1 l.
Proof.
  enough (∀ w n past, reads w past → reads (foldl (λ (acc : walk * Z) row,
    (add_row acc.1 row (At None (Some acc.2)) None, acc.2 + 1)) (w, n) l).1 (past ++ l)) as Hg.
  { apply (Hg new_walk 0 []). exists [], [], []. by repeat constructor. }
  induction l as [|row l IH]; intros w n past Hw; cbn; [by rewrite app_nil_r|].
  replace (past ++ row :: l) with ((past ++ [row]) ++ l) by (by rewrite <-app_assoc). apply IH. by apply reads_add.
Qed.

(** A row that carries a fingerprint made with the key. *)
Definition signed (row : json) : Prop :=
  ∃ m d, row = JObj m ∧ m !! "integrity" = Some (JObj d) ∧
    text_or_empty (d !! "current_hash") = compute_hash sha256 hmac_sha256 key (hashed_body m d).

Lemma rec_for_facts r row :
  rec_for r row → r_verdict r = FINGERPRINT_OK →
  signed row ∧ r_sequence r = row_sequence row ∧ r_stored_hash r = row_hash row.
Proof.
  intros (m & d & z & at_ & -> & Hm & Hz & ->) Hv. split.
  - exists m, d. split_and!; [done|done|]. cbn in Hv. unfold fingerprint_of in Hv. by case_bool_decide; [|case_match].
  - cbn. unfold row_sequence, row_hash. by rewrite (integrity_block_obj m d Hm), Hz.
Qed.

(** Numbers that run from 1 to [k] without a gap, each on one entry of the chain,
    are the chain's first [k] entries. *)
Lemma genuine_prefix (l rs : list json) k :
  chained sha256 hmac_sha256 key 0 GENESIS_HASH l → (∀ x, x ∈ rs → x ∈ l ∧ 1 <= row_sequence x <= k) →
  (∀ i, 1 <= i <= k → ∃ x, x ∈ rs ∧ row_sequence x = i) → NoDup rs → rs ≡ₚ take (Z.to_nat k) l.
Proof.
  intros Hc Hin Hall Hnd. pose proof (chained_nodup _ _ _ l Hc) as Hndl.
  apply NoDup_Permutation; [done|by apply (sublist_NoDup _ l), sublist_take|].
  intros x. split.
  - intros Hx. destruct (Hin x Hx) as [Hl Hb]. destruct (chained_row_at _ _ _ l x Hc Hl) as (i & Hi & Hs & _).
    apply (list_elem_of_lookup_2 _ i). rewrite lookup_take_lt; [done|lia].
  - intros [i Hi]%list_elem_of_lookup. apply lookup_take_Some in Hi as [Hi Hlt].
    destruct (chained_lookup _ _ _ _ _ _ _ _ Hc Hi) as [Hs _].
    destruct (Hall (Z.of_nat i + 1)) as (y & Hy & Hys); [lia|]. destruct (Hin y Hy) as [Hyl _].
    rewrite (row_eq _ _ _ l x y Hc); [done|by eapply list_elem_of_lookup_2|done|lia].
Qed.

Lemma groups_nodup (l : list record) :
  (∀ k, NoDup (r_stored_hash <$> filter (λ r, r_sequence r = k) l)) →
  NoDup ((λ r, (r_sequence r, r_stored_hash r)) <$> l).
Proof.
  induction l as [|x l IH]; intros Hk; [constructor|]. cbn. constructor.
  - intros (y & [= Hs Hh] & Hy)%list_elem_of_fmap. specialize (Hk (r_sequence x)).
    rewrite filter_cons, decide_True in Hk by done. cbn in Hk. apply NoDup_cons in Hk as [Hk _]. apply Hk.
    apply list_elem_of_fmap. exists y. split; [done|]. apply list_elem_of_filter. done.
  - apply IH. intros k. specialize (Hk k). rewrite filter_cons in Hk. case_decide; [|done].
    cbn in Hk. by apply NoDup_cons in Hk as [_ ?].
Qed.

(** The records of an intact trail: their numbers and their hashes. *)
Lemma intact_records w :
  dkeys (by_sequence w) = seqZ 1 (Zlength (by_sequence w)) →
  Forall (λ sg, NoDup (r_stored_hash <$> sg.2)) (by_sequence w) →
  let k := Zlength (by_sequence w) in
  (∀ r, r ∈ w_records w → 1 <= r_sequence r <= k) ∧
  (∀ i, 1 <= i <= k → ∃ r, r ∈ w_records w ∧ r_sequence r = i) ∧
  NoDup ((λ r, (r_sequence r, r_stored_hash r)) <$> w_records w).
Proof.
  intros Hkeys Hdup k. pose proof (sort_by_perm r_sequence (w_records w)) as Hp. fold (sorted_records w) in Hp.
  assert (∀ i, i ∈ dkeys (by_sequence w) ↔ 1 <= i <= k) as Hk.
  { intros i. rewrite Hkeys, elem_of_seqZ. subst k. lia. }
  split_and!.
  - intros r Hr. apply Hk, elem_of_dkeys. rewrite by_sequence_group.
    assert (r ∈ filter (λ x, r_sequence x = r_sequence r) (sorted_records w)) as Hf.
    { apply list_elem_of_filter. split; [done|]. by rewrite Hp. }
    destruct (filter _ _); [by apply not_elem_of_nil in Hf|done].
  - intros i Hi. apply Hk, elem_of_dkeys in Hi. rewrite by_sequence_group in Hi.
    destruct (filter _ _) as [|r g] eqn:E; [by destruct Hi|]. exists r.
    assert (r ∈ filter (λ r, r_sequence r = i) (sorted_records w)) as Hr by (rewrite E; by left).
    apply list_elem_of_filter in Hr as [Hs Hr]. by rewrite Hp in Hr.
  - rewrite <-Hp. apply groups_nodup. intros i.
    destruct (dget (by_sequence w) i) as [g|] eqn:Hg.
    + apply elem_of_dict in Hg; [|apply by_sequence_wf]. rewrite Forall_forall in Hdup. specialize (Hdup _ Hg).
      by destruct (by_sequence_member w i g Hg) as [<- _].
    + rewrite by_sequence_group in Hg. destruct (filter _ _); [constructor|done].
Qed.

Lemma Forall2_elem_l {A B} (P : A → B → Prop) l k y : Forall2 P l k → y ∈ k → ∃ x, x ∈ l ∧ P x y.
Proof.
  intros H2 [i Hi]%list_elem_of_lookup. destruct (Forall2_lookup_r _ _ _ _ _ H2 Hi) as (x & Hx & HP).
  exists x. split; [by eapply list_elem_of_lookup_2|done].
Qed.

Lemma Forall2_elem_r {A B} (P : A → B → Prop) l k x : Forall2 P l k → x ∈ l → ∃ y, y ∈ k ∧ P x y.
Proof.
  intros H2 [i Hi]%list_elem_of_lookup. destruct (Forall2_lookup_l _ _ _ _ _ H2 Hi) as (y & Hy & HP).
  exists y. split; [by eapply list_elem_of_lookup_2|done].
Qed.

(** The entries of an intact trail, if each of them is the chain's. *)
Lemma entries_genuine w l a :
  chained sha256 hmac_sha256 key 0 GENESIS_HASH l → Forall2 rec_for (w_records w) a → (∀ row, row ∈ a → signed row → row ∈ l) →
  Forall (λ x, r_verdict x = FINGERPRINT_OK) (w_records w) →
  dkeys (by_sequence w) = seqZ 1 (Zlength (by_sequence w)) →
  Forall (λ sg, NoDup (r_stored_hash <$> sg.2)) (by_sequence w) →
  a ≡ₚ take (length a) l.
Proof.
  intros Hc Ha Hsigned Hok Hkeys Hdup. destruct (intact_records w Hkeys Hdup) as (Hrange & Hall & Hnd).
  rewrite Forall_forall in Hok.
  assert (a ≡ₚ take (Z.to_nat (Zlength (by_sequence w))) l) as Hp.
  { apply genuine_prefix; [done| | |].
    - intros x Hx. destruct (Forall2_elem_l _ _ _ _ Ha Hx) as (r & Hr & Hrx).
      destruct (rec_for_facts r x Hrx (Hok r Hr)) as (Hsig & <- & _). split; [by apply Hsigned|by apply Hrange].
    - intros i Hi. destruct (Hall i Hi) as (r & Hr & <-). destruct (Forall2_elem_r _ _ _ _ Ha Hr) as (x & Hx & Hrx).
      exists x. split; [done|]. by destruct (rec_for_facts r x Hrx (Hok r Hr)) as (_ & -> & _).
    - apply NoDup_alt. intros i j x Hi Hj.
      destruct (Forall2_lookup_r _ _ _ _ _ Ha Hi) as (r & Hr & Hrx).
      destruct (Forall2_lookup_r _ _ _ _ _ Ha Hj) as (r' & Hr' & Hrx').
      destruct (rec_for_facts r x Hrx (Hok r (list_elem_of_lookup_2 _ _ _ Hr))) as (_ & Hs & Hh).
      destruct (rec_for_facts r' x Hrx' (Hok r' (list_elem_of_lookup_2 _ _ _ Hr'))) as (_ & Hs' & Hh').
      apply (NoDup_lookup _ i j (r_sequence r, r_stored_hash r) Hnd).
      + by rewrite list_lookup_fmap, Hr.
      + rewrite list_lookup_fmap, Hr'. cbn. by rewrite Hs, Hs', Hh, Hh'. }
  rewrite Hp at 1. rewrite (Permutation_length Hp), length_take.
  destruct (decide (Z.to_nat (Zlength (by_sequence w)) <= length l)%nat); [by rewrite Nat.min_l by done|].
  by rewrite Nat.min_r, firstn_all, take_ge by lia.
Qed.

(** C7: A trail is checked that up to 32 writers made in an orderly history (the
    [history] of C8: plain entries, rows under 256 KiB, the state file damaged only
    while no row is on its way) and that others may have altered.  If its every
    validly signed row is one the writers made (nobody else has the key), the check
    finds it intact and it has at least one chained entry, it is exactly the first
    entries the writers numbered, each once: nothing was altered, removed, inserted
    or copied; only its end may have been cut off.  (Without a chained entry the
    check says nothing: a trail stripped of every integrity block is reported
    intact, with a note.) *)
Theorem intact_trail_is_genuine orjson partition n s l trail r :
  (n <= 32)%nat → history sha256 hmac_sha256 key orjson partition n s l →
  (∀ row, row ∈ trail → signed row → row ∈ l) →
  verifier_walk sha256 hmac_sha256 key trail (Some CHAIN_BEGINNING) = r → intact r = true → 0 < entries r →
  trail ≡ₚ take (Z.to_nat (entries r)) l.
Proof.
  intros Hn Hhist Hsigned <- Hint Hent. pose proof (history_inv _ _ _ _ _ n s l Hn Hhist) as Hinv.
  pose proof (inv_chain _ _ _ _ _ _ _ Hinv) as Hc.
  pose proof (verifier_reads trail) as (a & b & c & Hp & Ha & Hb & Hpos & Hneg & Hf & Hlen).
  unfold verifier_walk, report in *. set (w := fst _) in *.
  destruct (intact_facts w _ false _ eq_refl Hint) as (Hun & _ & Hwithout & Hok & Hkeys & Hdup).
  { eapply Forall_impl; [exact Hpos|]. done. }
  apply Forall_app in Hok as [Hok1 Hok2].
  assert (∀ row, row ∈ a ++ b ++ c → row ∈ trail) as Hsub by (intros row Hrow; by rewrite Hp).
  assert (w_unchained w = []) as Hnone.
  { destruct (w_unchained w) as [|x xs]; [done|]. apply Forall2_cons_inv_l in Hb as (row & b' & Hx & _ & ->).
    apply Forall_cons in Hneg as [Hneg _]. apply Forall_cons in Hok2 as [Hok2 _].
    destruct (rec_for_facts x row Hx Hok2) as (Hsig & Hseq & _).
    destruct (chained_row_at _ _ _ l row Hc) as (_ & _ & _ & _ & Hb'); [apply Hsigned; [apply Hsub; set_solver|done]|]. lia. }
  rewrite Hnone in Hb. apply Forall2_nil_inv_l in Hb as ->.
  assert (w_records w ≠ []) as Hsome.
  { intros Hnil. unfold linker_run, build_report in Hent. cbn in Hent. unfold sorted_records in Hent.
    by rewrite Hnil, Hnone, Hf in Hent. }
  rewrite Hun, (Hwithout (or_introl Hsome)) in Hlen. destruct c; [|done]. cbn in Hp. rewrite ?app_nil_r in Hp.
  assert (Z.to_nat (entries (linker_run w (bool_decide (is_Some key)) (Some CHAIN_BEGINNING) false true)) = length a) as ->.
  { unfold linker_run, build_report. cbn. rewrite Hnone, Hf. unfold Zlength, sorted_records.
    rewrite (Permutation_length (sort_by_perm r_sequence (w_records w))), (Forall2_length _ _ _ Ha). cbn. lia. }
  rewrite Hp. eapply entries_genuine; try done.
  intros row Hrow. apply Hsigned, Hsub. set_solver.
Qed.
End tamper.

(** ** Witnesses *)

(** A digest to evaluate with: the number, the link and the text of an entry. *)
Definition toy_digest (j : json) : string :=
  match j with
  | JObj m =>
      let d := default ∅ (integrity_block j) in
      "#" +:+ pretty (row_sequence j) +:+ ":" +:+ text_or_empty (m !! "what") +:+ ":" +:+ text_or_empty (d !! "previous_hash")
  | _ => ""
  end.

Definition toy_hmac (k : string) (j : json) : string := k +:+ toy_digest j.

Definition said (what : string) : entry := {["what" := JStr what]}.

Notation toy_history := (history toy_digest toy_hmac (Some "key") true "" 2).

Lemma history_go s l ev s' l' :
  toy_history s l → orderly true "" s l ev → apply_event toy_digest toy_hmac (Some "key") true s ev = Some s' →
  l' = l ++ minted true s' ev → toy_history s' l'.
Proof. intros Hh Ho He ->. by econstructor. Qed.

Lemma said_plain what : map_Forall (λ _, plain true) (said what).
Proof. by apply map_Forall_singleton. Qed.

Lemma none_plain : map_Forall (λ _, plain true) (∅ : entry).
Proof. apply map_Forall_empty. Qed.

(** Two processes: the second row reaches the disk first; then the state file is
    lost, a process is replaced, and the next entry continues the chain. *)
Definition sample_events : list event :=
  [Mint 0 (said "a") ∅ "t1"; Mint 1 (said "b") ∅ "t2"; Append 1 400; Append 0 400;
   LoseSource NoState; Restart 1; Mint 1 (said "c") ∅ "t3"; Append 1 400].

Definition sample_site : site :=
  default (new_site 7 2) (replay toy_digest toy_hmac (Some "key") true (new_site 7 2) sample_events).

Definition sample_chain : list json := ledger_rows (files (vol sample_site)).

(** The site after [k] of the events, and the chain of [n] entries. *)
Definition sample_at (k : nat) : site :=
  default (new_site 7 2) (replay toy_digest toy_hmac (Some "key") true (new_site 7 2) (take k sample_events)).

Definition chain_of (n : nat) : list json := take n (sort_by row_sequence sample_chain).

Ltac orderly_event :=
  first [exact Logic.I
        |split; [apply said_plain|split; [apply none_plain|vm_compute; reflexivity]]
        |unfold orderly, ROW_BYTES; lia
        |split; [vm_compute; reflexivity|left; vm_compute; reflexivity]].

(** One more event of the history: the chain of [n] entries becomes that of [n']. *)
Ltac go H k ev n n' :=
  apply (λ H o e c, history_go (sample_at k) (chain_of n) ev (sample_at (S k)) (chain_of n') H o e c) in H;
  [|orderly_event|vm_compute; reflexivity|vm_compute; reflexivity].

Lemma sample_history :
  toy_history sample_site (sort_by row_sequence sample_chain) ∧ idle true sample_site.
Proof.
  assert (toy_history (sample_at 0) (chain_of 0)) as H.
  { exact (history_new toy_digest toy_hmac (Some "key") true "" 2 7). }
  go H 0%nat (Mint 0 (said "a") ∅ "t1") 0%nat 1%nat. go H 1%nat (Mint 1 (said "b") ∅ "t2") 1%nat 2%nat.
  go H 2%nat (Append 1 400) 2%nat 2%nat. go H 3%nat (Append 0 400) 2%nat 2%nat.
  go H 4%nat (LoseSource NoState) 2%nat 2%nat. go H 5%nat (Restart 1) 2%nat 2%nat.
  go H 6%nat (Mint 1 (said "c") ∅ "t3") 2%nat 3%nat. go H 7%nat (Append 1 400) 3%nat 3%nat.
  split; [exact H|vm_compute; reflexivity].
Qed.

Lemma written_trail_verifies_witness :
  ∃ r, verify_trail toy_digest toy_hmac (Some "key") (files (vol sample_site)) "" 1 = Some r ∧
    intact r = true ∧ notes r = [] ∧ entries r = 3.
Proof.
  destruct (written_trail_verifies toy_digest toy_hmac (Some "key") true "" 2 sample_site
    (sort_by row_sequence sample_chain)) as [_ (r & Hr & Hi & _ & Hn & He)];
    [repeat constructor|apply sample_history|apply sample_history|].
  exists r. split; [exact Hr|split; [exact Hi|split; [exact Hn|exact He]]].
Defined.

Lemma sample_tail : read_tail (files (vol sample_site)) ≠ Some None.
Proof. vm_compute. discriminate. Qed.

Lemma tail_is_highest_witness :
  ∃ top, top ∈ sample_chain ∧ read_tail (files (vol sample_site)) = Some (Some (LedgerTail (row_sequence top) (row_hash top))).
Proof.
  destruct (tail_is_highest toy_digest toy_hmac (Some "key") true "" 2 sample_site
    (sort_by row_sequence sample_chain)) as [[Hr _]|(top & Hin & _ & Hr)];
    [repeat constructor|apply sample_history|destruct (sample_tail Hr)|].
  exists top. split; [exact Hin|exact Hr].
Defined.

(** The trail with its last entry cut off, and its rows in another order. *)
Definition cut_trail : list json := reverse (take 2 (sort_by row_sequence sample_chain)).

Lemma intact_trail_is_genuine_witness :
  cut_trail ≡ₚ take 2 (sort_by row_sequence sample_chain).
Proof.
  refine (intact_trail_is_genuine toy_digest toy_hmac (Some "key") true "" 2 sample_site
    (sort_by row_sequence sample_chain) cut_trail
    (verifier_walk toy_digest toy_hmac (Some "key") cut_trail (Some CHAIN_BEGINNING)) _ _ _ _ _ _).
  - repeat constructor.
  - apply sample_history.
  - intros row Hrow _. unfold cut_trail in Hrow. rewrite reverse_Permutation in Hrow.
    apply elem_of_take in Hrow as (i & Hi & _). by eapply list_elem_of_lookup_2.
  - reflexivity.
  - reflexivity.
  - reflexivity.
Defined.

(** ** Two observations *)

(** Two entries at midnight: the row numbered 2 is appended just before, the row
    numbered 1 just after it. *)
Definition midnight : list event :=
  [Mint 0 (said "a") ∅ "t1"; Mint 1 (said "b") ∅ "t2"; Append 1 400; NextDay 8; Append 0 400].

Definition midnight_site : site :=
  default (new_site 7 2) (replay toy_digest toy_hmac (Some "key") true (new_site 7 2) midnight).

Definition recovery : list event := [LoseSource NoState; Restart 0; Mint 0 (said "c") ∅ "t3"].

Definition recovered_site : site :=
  default midnight_site (replay toy_digest toy_hmac (Some "key") true midnight_site recovery).

(** The reader of the tail does not answer with the highest entry on disk when
    rows are on their way at midnight: it stops at the newest file; if the state
    file is lost then, the next entry gets a number the ledger holds already. *)
Theorem tail_misses_midnight :
  option_map (option_map tail_sequence) (read_tail (files (vol midnight_site))) = Some (Some 1) ∧
  2 ∈ row_sequence <$> ledger_rows (files (vol midnight_site)) ∧
  replay toy_digest toy_hmac (Some "key") true midnight_site recovery = Some recovered_site ∧
  row_sequence <$> held true recovered_site = [2].
Proof.
  split_and!.
  - vm_compute. reflexivity.
  - apply (bool_decide_eq_true_1 (2 ∈ row_sequence <$> ledger_rows (files (vol midnight_site)))). vm_compute. reflexivity.
  - vm_compute. reflexivity.
  - vm_compute. reflexivity.
Qed.

(** A datetime, as [str()] and as orjson write it. *)
Definition noon : json :=
  JNative "2026-01-01 12:00:00+00:00" (Some (JStr "2026-01-01T12:00:00+00:00")).

Definition at_noon : list event :=
  [Mint 0 (said "a") ∅ "t1"; Append 0 400; Mint 0 {["what" := noon]} ∅ "t2"; Append 0 400].

Definition noon_site : site :=
  default (new_site 7 1) (replay toy_digest toy_hmac (Some "key") true (new_site 7 1) at_noon).

(** An entry that holds a datetime is hashed with one text and written with
    another: the untouched trail fails its own check. *)
Theorem datetime_reads_as_tampered :
  replay toy_digest toy_hmac (Some "key") true (new_site 7 1) at_noon = Some noon_site ∧
  option_map issues (verify_trail toy_digest toy_hmac (Some "key") (files (vol noon_site)) "" 1) =
    Some [Issue ISSUE_ENTRY_MODIFIED (Some 2) None (At (Some 7) (Some 2))].
Proof. split; vm_compute; reflexivity. Qed.
