(* ===== verification/DepGraph.v ===== *)
(** The graph of service dependencies ([ServiceDependencyGraph] of
    [core/dependency_graph.py]): registration, the cascade of services affected
    by one that fails, the depth-tagged traversal for dampening and the order of
    recovery.  Every method holds one lock, so each is a function on the graph.
    Traversals are compared with paths, the order with the dependencies. *)
From stdpp Require Import gmap sorting relations.
From S2P Require Import Prelude.

Record node : Type := Node {
  service_id : string; depends_on : list string; dependents : list string; criticality : string }.

Definition graph : Type := dict string node.

(** ** Registration *)

Definition add_dependent (sid : string) (g : graph) (dep : string) : graph :=
  let n := default (Node dep [] [] "medium") (dget g dep) in
  dset g dep (Node (service_id n) (depends_on n) (dependents n ++ [sid]) (criticality n)).

Definition register_service (g : graph) (sid : string) (deps : list string) (crit : string) : graph :=
  let g := match dget g sid with
           | Some n => dset g sid (Node (service_id n) deps (dependents n) crit)
           | None => dset g sid (Node sid deps [] crit)
           end in
  foldl (add_dependent sid) g deps.

Definition set_criticality (g : graph) (sid : string) (crit : string) : graph * bool :=
  match dget g sid with
  | None => (g, false)
  | Some n => (dset g sid (Node (service_id n) (depends_on n) (dependents n) crit), true)
  end.

Definition clear (g : graph) : graph := [].

Definition deps_of (g : graph) (sid : string) : list string :=
  match dget g sid with Some n => depends_on n | None => [] end.

Definition get_dependencies (g : graph) (sid : string) : list string := deps_of g sid.

Section traversal.
  (** The order in which a set is iterated. *)
  Context (set_order : gset string → list string).

(** [_get_dependents_unlocked] *)
Definition get_dependents (g : graph) (sid : string) : list string :=
  match dget g sid with
  | None => []
  | Some n => set_order (list_to_set (dependents n))
  end.

(** ** Everything affected

    [_get_cascading_affected_unlocked] on the shared set of visited services,
    nested at most [fuel] deep. *)

(** One turn of its loop. *)
Definition affected_step (rec : string → gset string → option (list string * gset string))
    (acc : option (list string * gset string)) (dependent : string) : option (list string * gset string) :=
  '(affected, visited) ← acc;
  if decide (dependent ∈ visited) then Some (affected, visited)
  else '(more, visited) ← rec dependent visited; Some (affected ++ dependent :: more, visited).

Fixpoint cascading_affected (fuel : nat) (g : graph) (sid : string) (visited : gset string) :
    option (list string * gset string) :=
  match fuel with
  | O => None
  | S fuel =>
      if decide (sid ∈ visited) then Some ([], visited)
      else
        '(affected, visited) ←
          foldl (affected_step (cascading_affected fuel g)) (Some ([], {[sid]} ∪ visited)) (get_dependents g sid);
        Some (set_order (list_to_set affected), visited)
  end.

Definition get_cascading_affected (g : graph) (sid : string) : option (list string) :=
  fst <$> cascading_affected (S (length g)) g sid ∅.

Definition get_critical_dependents (g : graph) (sid : string) : option (list string) :=
  filter (λ s, criticality <$> dget g s = Some "critical") <$> get_cascading_affected g sid.

(** ** The traversal with depths

    [_get_dependents_recursive_unlocked]; [levels] is [max_depth] less
    [current_depth].  The state: what was found, the visited services and the
    cycles noticed. *)
Record upstream : Type := Upstream {
  found : list (string * Z); seen : gset string; circular : list (string * string) }.

Definition upstream_step (rec : string → gset string → Z → list (string * string) → upstream) (sid : string) (depth : Z)
    (u : upstream) (dependent : string) : upstream :=
  if decide (dependent ∈ seen u) then Upstream (found u) (seen u) (circular u ++ [(sid, dependent)])
  else
    let u' := rec dependent (seen u) (depth + 1) (circular u) in
    Upstream (found u ++ (dependent, depth + 1) :: found u') (seen u') (circular u').

Fixpoint dependents_recursive (levels : nat) (g : graph) (sid : string) (visited : gset string) (depth : Z)
    (cycles : list (string * string)) : upstream :=
  match levels with
  | O => Upstream [] visited cycles
  | S levels =>
      if decide (sid ∈ visited) then Upstream [] visited cycles
      else
        foldl (upstream_step (dependents_recursive levels g) sid depth)
          (Upstream [] ({[sid]} ∪ visited) cycles) (get_dependents g sid)
  end.

(** The services found, and the cycles reported once the lock is released. *)
Definition get_dependents_recursive (g : graph) (sid : string) (max_depth : Z) :
    list (string * Z) * list (string * string) :=
  let u := dependents_recursive (Z.to_nat max_depth) g sid ∅ 0 [] in (found u, circular u).

(** ** The order of recovery *)

(** The edges within the subset: successors and how many predecessors wait. *)
Record subgraph : Type := Subgraph { in_degree : dict string Z; adjacency : dict string (list string) }.

Definition add_edge (subset : gset string) (s : string) (sg : option subgraph) (dep : string) : option subgraph :=
  sg ← sg;
  if decide (dep ∈ subset) then
    succ ← dget (adjacency sg) dep;
    n ← dget (in_degree sg) s;
    Some (Subgraph (dset (in_degree sg) s (n + 1)) (dset (adjacency sg) dep (succ ++ [s])))
  else Some sg.

Definition build_subgraph (g : graph) (subset : gset string) : option subgraph :=
  foldl (λ sg s, foldl (add_edge subset s) sg (deps_of g s))
    (Some (Subgraph ((λ s, (s, 0)) <$> set_order subset) ((λ s, (s, [])) <$> set_order subset)))
    (set_order subset).

Definition string_le (a b : string) : Prop := String.leb a b = true.
#[export] Instance string_le_dec : RelDecision string_le.
Proof. intros a b. unfold string_le. apply _. Defined.

Definition relax (acc : option (dict string Z * list string)) (neighbor : string) :
    option (dict string Z * list string) :=
  '(degrees, queue) ← acc;
  n ← dget degrees neighbor;
  Some (dset degrees neighbor (n - 1), if n - 1 =? 0 then queue ++ [neighbor] else queue).

(** The loop [while queue]; [None] also stands for a missing key. *)
Fixpoint kahn (fuel : nat) (adj : dict string (list string)) (degrees : dict string Z) (queue result : list string) :
    option (list string) :=
  match fuel with
  | O => None
  | S fuel =>
      match merge_sort string_le queue with
      | [] => Some result
      | s :: queue =>
          '(degrees, queue) ← foldl relax (Some (degrees, queue)) (default [] (dget adj s));
          kahn fuel adj degrees queue (result ++ [s])
      end
  end.

Inductive direction : Type := leaves_first | roots_first.

Definition topological_sort_subset (g : graph) (services : list string) (d : direction) : option (list string) :=
  let subset : gset string := list_to_set services in
  if decide (subset = ∅) then Some []
  else
    sg ← build_subgraph g subset;
    let queue := filter (λ s, dget (in_degree sg) s = Some 0) (set_order subset) in
    result ← kahn (S (size subset)) (adjacency sg) (in_degree sg) queue [];
    let result := result ++ merge_sort string_le (filter (λ s, s ∉ result) (set_order subset)) in
    Some match d with leaves_first => result | roots_first => reverse result end.
End traversal.

(** ** Histories *)

Inductive op : Type :=
| Register (sid : string) (deps : list string) (crit : string)
| SetCriticality (sid : string) (crit : string)
| Clear.

Definition apply_op (g : graph) (o : op) : graph :=
  match o with
  | Register sid deps crit => register_service g sid deps crit
  | SetCriticality sid crit => (set_criticality g sid crit).1
  | Clear => clear g
  end.

Definition after (ops : list op) : graph := foldl apply_op [] ops.

(** [b] is listed as a dependent of [a]. *)
Definition edge (g : graph) (a b : string) : Prop := ∃ n, dget g a = Some n ∧ b ∈ dependents n.

(** [b] says that it depends on [a]. *)
Definition needs (g : graph) (a b : string) : Prop := a ∈ deps_of g b.

(** Every listed dependent is registered. *)
Definition closed (g : graph) : Prop := ∀ a b, edge g a b → is_Some (dget g b).

Lemma edge_add_dependent sid g dep a b :
  edge (add_dependent sid g dep) a b ↔ edge g a b ∨ a = dep ∧ b = sid.
Proof.
  unfold edge, add_dependent. rewrite dget_dset. case_decide as Hd; [subst a|naive_solver].
  destruct (dget g dep) as [n|] eqn:E; cbn; split.
  - intros (? & [= <-] & H). cbn in H. apply elem_of_app in H as [H|H%list_elem_of_singleton]; eauto.
  - intros [(n' & [= <-] & H)|[_ ->]]; eexists; (split; [done|]); cbn; rewrite elem_of_app; [by left|right; by left].
  - intros (? & [= <-] & H). cbn in H. apply list_elem_of_singleton in H. eauto.
  - intros [(n' & [=] & _)|[_ ->]]. eexists. split; [done|]. cbn. by left.
Qed.

Lemma keys_add_dependent sid g dep k : is_Some (dget (add_dependent sid g dep) k) ↔ is_Some (dget g k) ∨ k = dep.
Proof. unfold add_dependent. rewrite dget_dset. case_decide; naive_solver. Qed.

Lemma deps_add_dependent sid g dep k : deps_of (add_dependent sid g dep) k = deps_of g k.
Proof. unfold deps_of, add_dependent. rewrite dget_dset. case_decide as Hd; [subst k|done]. by destruct (dget g dep). Qed.

Lemma edge_add_dependents sid deps g a b :
  edge (foldl (add_dependent sid) g deps) a b ↔ edge g a b ∨ a ∈ deps ∧ b = sid.
Proof.
  revert g. induction deps as [|d deps IH]; intros g; cbn; [set_solver|].
  rewrite IH, edge_add_dependent, elem_of_cons. naive_solver.
Qed.

Lemma keys_add_dependents sid deps g k :
  is_Some (dget (foldl (add_dependent sid) g deps) k) ↔ is_Some (dget g k) ∨ k ∈ deps.
Proof.
  revert g. induction deps as [|d deps IH]; intros g; cbn; [set_solver|].
  rewrite IH, keys_add_dependent, elem_of_cons. naive_solver.
Qed.

Lemma deps_add_dependents sid deps g k : deps_of (foldl (add_dependent sid) g deps) k = deps_of g k.
Proof. revert g. induction deps as [|d deps IH]; intros g; cbn; [done|]. by rewrite IH, deps_add_dependent. Qed.

(** What a registration does to the listed dependents, the services known and
    the dependencies. *)
Lemma register_effect g sid deps crit :
  (∀ a b, edge (register_service g sid deps crit) a b ↔ edge g a b ∨ a ∈ deps ∧ b = sid) ∧
  (∀ k, is_Some (dget (register_service g sid deps crit) k) ↔ is_Some (dget g k) ∨ k = sid ∨ k ∈ deps) ∧
  (∀ k, deps_of (register_service g sid deps crit) k = if decide (k = sid) then deps else deps_of g k).
Proof.
  unfold register_service. set (n0 := match dget g sid with Some n => _ | None => _ end).
  assert (∀ a b, edge n0 a b ↔ edge g a b) as He.
  { subst n0. intros a b. unfold edge. destruct (dget g sid) as [n|] eqn:E; rewrite dget_dset; case_decide; subst;
      [naive_solver|done| |done]. rewrite E. split; [|naive_solver]. by intros (? & [= <-] & ?%elem_of_nil). }
  assert (∀ k, is_Some (dget n0 k) ↔ is_Some (dget g k) ∨ k = sid) as Hk.
  { subst n0. intros k. destruct (dget g sid) eqn:E; rewrite dget_dset; case_decide; subst; naive_solver. }
  assert (∀ k, deps_of n0 k = if decide (k = sid) then deps else deps_of g k) as Hd.
  { subst n0. intros k. unfold deps_of. destruct (dget g sid) eqn:E; rewrite dget_dset; repeat case_decide; by subst. }
  split_and!; intros; rewrite ?edge_add_dependents, ?keys_add_dependents, ?deps_add_dependents, ?He, ?Hk, ?Hd; naive_solver.
Qed.

Lemma criticality_effect g sid crit :
  (∀ a b, edge (set_criticality g sid crit).1 a b ↔ edge g a b) ∧
  (∀ k, is_Some (dget (set_criticality g sid crit).1 k) ↔ is_Some (dget g k)) ∧
  (∀ k, deps_of (set_criticality g sid crit).1 k = deps_of g k).
Proof.
  unfold set_criticality, edge, deps_of. destruct (dget g sid) as [n|] eqn:E; cbn; [|done].
  split_and!; intros; rewrite dget_dset; case_decide; subst; rewrite ?E; try done.
  split; intros (? & [= <-] & ?); eauto.
Qed.

(** Whatever was registered: listed dependents are known services, and a
    service is listed with everything it depends on. *)
Lemma after_closed ops :
  closed (after ops) ∧ ∀ a b, needs (after ops) a b → edge (after ops) a b.
Proof.
  unfold after. rewrite <-(reverse_involutive ops). generalize (reverse ops). clear ops. intros ops.
  induction ops as [|o ops [IH1 IH2]]; [split; [by intros ?? (? & [=] & ?)|intros a b H; by apply elem_of_nil in H]|].
  rewrite reverse_cons, foldl_snoc. revert IH1 IH2. generalize (foldl apply_op [] (reverse ops)). intros g IH1 IH2.
  destruct o as [sid deps crit|sid crit|]; cbn [apply_op].
  - destruct (register_effect g sid deps crit) as (He & Hk & Hd). split.
    + intros a b. rewrite He, Hk. intros [H|[_ ->]]; [left; by eapply IH1|by right; left].
    + intros a b. unfold needs. rewrite Hd, He. case_decide; [subst; by right|left; by apply IH2].
  - destruct (criticality_effect g sid crit) as (He & Hk & Hd). split; intros a b; unfold needs; rewrite ?He, ?Hk, ?Hd; auto.
    apply IH1.
  - split; [by intros ?? (? & [=] & ?)|intros a b H; by apply elem_of_nil in H].
Qed.

(** ** The cascade is reachability *)

Section affected.
  Context (set_order : gset string → list string).
  Context (set_order_perm : ∀ s, set_order s ≡ₚ elements s).
  Context (g : graph) (Hg : closed g).

Lemma elem_set_order x s : x ∈ set_order s ↔ x ∈ s.
Proof. by rewrite set_order_perm, elem_of_elements. Qed.

Lemma set_order_NoDup s : NoDup (set_order s).
Proof. rewrite set_order_perm. apply NoDup_elements. Qed.

Lemma elem_get_dependents s x : x ∈ get_dependents set_order g s ↔ edge g s x.
Proof.
  unfold get_dependents, edge. destruct (dget g s) as [n|].
  - rewrite elem_set_order, elem_of_list_to_set. naive_solver.
  - rewrite elem_of_nil. naive_solver.
Qed.

(** From [vis] to [vis'] exactly [fresh] was visited: reached from [roots], and
    nothing reachable left behind. *)
Record explored (roots : list string) (vis vis' : gset string) (fresh : list string) : Prop := {
  ex_mono : vis ⊆ vis';
  ex_fresh : ∀ x, x ∈ fresh ↔ x ∈ vis' ∧ x ∉ vis;
  ex_roots : ∀ x, x ∈ roots → x ∈ vis';
  ex_reach : ∀ x, x ∈ vis' → x ∉ vis → ∃ r, r ∈ roots ∧ rtc (edge g) r x;
  ex_closed : ∀ x y, x ∈ vis' → x ∉ vis → edge g x y → y ∈ vis' }.

Definition known : gset string := list_to_set (dkeys g).

Lemma elem_known x : x ∈ known ↔ is_Some (dget g x).
Proof. unfold known. by rewrite elem_of_list_to_set, elem_of_dkeys. Qed.

Lemma fewer_unvisited (vis vis' : gset string) : vis ⊆ vis' → (size (known ∖ vis') <= size (known ∖ vis))%nat.
Proof. intros H. apply subseteq_size. set_solver. Qed.

(** The loop over [ds], if the nested calls do their work. *)
Lemma affected_loop rec fuel (ds : list string) aff vis :
  (∀ d vis, d ∉ vis → is_Some (dget g d) → (size (known ∖ vis) < fuel)%nat →
     ∃ l vis', rec d vis = Some (l, vis') ∧ explored [d] vis vis' (d :: l)) →
  (∀ d, d ∈ ds → is_Some (dget g d)) → (size (known ∖ vis) < fuel)%nat →
  ∃ fresh vis', foldl (affected_step rec) (Some (aff, vis)) ds = Some (aff ++ fresh, vis') ∧
    explored ds vis vis' fresh.
Proof.
  intros Hrec. revert aff vis. induction ds as [|d ds IH]; intros aff vis Hds Hsize; cbn.
  { exists [], vis. rewrite app_nil_r. split; [done|]. split; set_solver. }
  case_decide as Hd.
  - destruct (IH aff vis) as (fresh & vis' & -> & [H1 H2 H3 H4 H5]); [set_solver|done|].
    exists fresh, vis'. split; [done|]. split; [done..| | |done].
    + intros x [->|Hx]%elem_of_cons; [by apply H1|by apply H3].
    + intros x Hx Hnx. destruct (H4 x Hx Hnx) as (r & ? & ?). exists r. split; [by right|done].
  - destruct (Hrec d vis Hd (Hds d ltac:(by left)) Hsize) as (l & vis1 & Hr & [A1 A2 A3 A4 A5]). rewrite Hr. cbn.
    destruct (IH (aff ++ d :: l) vis1) as (fresh & vis' & -> & [H1 H2 H3 H4 H5]);
      [set_solver|pose proof (fewer_unvisited _ _ A1); lia|].
    exists ((d :: l) ++ fresh), vis'. rewrite <-(assoc_L (++)). split; [done|]. split.
    + set_solver.
    + intros x. rewrite elem_of_app, A2, H2. destruct (decide (x ∈ vis1)); set_solver.
    + intros x [->|Hx]%elem_of_cons; [apply H1, A3; by left|by apply H3].
    + intros x Hx Hnx. destruct (decide (x ∈ vis1)) as [Hin|Hout].
      * destruct (A4 x Hin Hnx) as (r & ->%list_elem_of_singleton & ?). exists d. split; [by left|done].
      * destruct (H4 x Hx Hout) as (r & ? & ?). exists r. split; [by right|done].
    + intros x y Hx Hnx Hy. destruct (decide (x ∈ vis1)) as [Hin|Hout]; [apply H1; by eapply A5|by eapply H5].
Qed.

Lemma affected_call fuel s vis :
  s ∉ vis → is_Some (dget g s) → (size (known ∖ vis) < fuel)%nat →
  ∃ l vis', cascading_affected set_order fuel g s vis = Some (l, vis') ∧ explored [s] vis vis' (s :: l) ∧ NoDup (s :: l).
Proof.
  revert s vis. induction fuel as [|fuel IH]; intros s vis Hs Hk Hsize; [lia|]. cbn [cascading_affected].
  rewrite decide_False by done.
  assert (size (known ∖ ({[s]} ∪ vis)) < size (known ∖ vis))%nat as Hless.
  { apply subset_size. apply elem_known in Hk. set_solver. }
  destruct (affected_loop (cascading_affected set_order fuel g) fuel (get_dependents set_order g s) [] ({[s]} ∪ vis))
    as (fresh & vis' & -> & [H1 H2 H3 H4 H5]).
  - intros d v Hd Hkd Hv. destruct (IH d v Hd Hkd Hv) as (l & v' & ? & ? & _). eauto.
  - intros d Hd%elem_get_dependents. by eapply Hg.
  - lia.
  - cbn. eexists _, vis'. split; [done|]. split; [split|].
    + set_solver.
    + intros x. rewrite elem_of_cons, elem_set_order, elem_of_list_to_set, H2. destruct (decide (x = s)); set_solver.
    + intros x ->%list_elem_of_singleton. set_solver.
    + intros x Hx Hnx. exists s. split; [by left|]. destruct (decide (x = s)) as [->|Hne]; [done|].
      destruct (H4 x Hx) as (r & Hr%elem_get_dependents & Hp); [set_solver|]. by eapply rtc_l.
    + intros x y Hx Hnx Hy. destruct (decide (x = s)) as [->|Hne].
      * by apply H3, elem_get_dependents.
      * eapply H5; [done|set_solver|done].
    + constructor; [|apply set_order_NoDup]. rewrite elem_set_order, elem_of_list_to_set, H2. set_solver.
Qed.

Lemma known_size : (size (known ∖ ∅) <= length g)%nat.
Proof.
  unfold known. rewrite difference_empty_L. generalize g. intros d. unfold dkeys.
  induction d as [|[k n] d IH]; cbn; [done|]. rewrite size_union_alt, size_singleton.
  assert (size (list_to_set (dkeys d) ∖ {[k]} : gset string) <= size (list_to_set (dkeys d) : gset string))%nat
    by (apply subseteq_size; set_solver).
  unfold dkeys in *. lia.
Qed.

Lemma affected_exact s :
  ∃ l, get_cascading_affected set_order g s = Some l ∧ NoDup l ∧
    ∀ x, x ∈ l ↔ x ≠ s ∧ rtc (edge g) s x.
Proof.
  unfold get_cascading_affected. destruct (dget g s) as [n|] eqn:E.
  - destruct (affected_call (S (length g)) s ∅) as (l & vis' & -> & [H1 H2 H3 H4 H5] & [Hnin Hnd]%NoDup_cons);
      [set_solver|eauto|pose proof known_size; lia|].
    exists l. split; [done|]. split; [done|]. intros x. split.
    + intros Hx. split; [by intros ->|]. destruct (proj1 (H2 x)) as [Hv _]; [by right|].
      destruct (H4 x Hv) as (r & ->%list_elem_of_singleton & ?); [set_solver|done].
    + intros [Hne Hp]. cut (x ∈ vis').
      { intros Hv. pose proof (proj2 (H2 x) ltac:(set_solver)) as [->|Hl]%elem_of_cons; done. }
      clear Hne. revert x Hp. apply rtc_ind_r; [apply H3; by left|].
      intros y z _ Hyz Hy. eapply H5; [done|set_solver|done].
  - cbn [cascading_affected]. rewrite decide_False by set_solver. unfold get_dependents. rewrite E. cbn.
    eexists. split; [done|]. split; [apply set_order_NoDup|]. intros x. rewrite elem_set_order. split; [set_solver|].
    intros [Hne Hp]. destruct (rtc_inv _ _ Hp) as [->|(y & (n & Hn & _) & _)]; congruence.
Qed.
End affected.

(** The services registered, with repetition. *)
Definition registered (ops : list op) : list string :=
  omap (λ o, match o with Register sid _ _ => Some sid | _ => None end) ops.

Lemma registered_snoc ops o :
  registered (ops ++ [o]) = registered ops ++ match o with Register sid _ _ => [sid] | _ => [] end.
Proof. unfold registered. rewrite omap_app. by destruct o. Qed.

(** Registered once, a service is listed only with what it depends on. *)
Lemma edges_current ops :
  NoDup (registered ops) →
  (∀ a b, edge (after ops) a b → needs (after ops) a b) ∧
  ∀ a b, edge (after ops) a b → b ∈ registered ops.
Proof.
  unfold after. rewrite <-(reverse_involutive ops). generalize (reverse ops). clear ops. intros ops.
  induction ops as [|o ops IH]; [intros _; split; by intros ?? (? & [=] & ?)|].
  rewrite reverse_cons, foldl_snoc, registered_snoc. intros [Hnd [Hdis _]]%NoDup_app.
  destruct (IH Hnd) as [IH1 IH2]. clear IH. revert IH1 IH2. generalize (foldl apply_op [] (reverse ops)). intros g IH1 IH2.
  destruct o as [sid deps crit|sid crit|]; cbn [apply_op].
  - destruct (register_effect g sid deps crit) as (He & _ & Hd). split; intros a b; rewrite He.
    + unfold needs. rewrite Hd. case_decide as Hb; [subst b|intros [H|[_ ?]]; [by apply IH1|congruence]].
      intros [H|[H _]]; [|done]. destruct (Hdis sid (IH2 _ _ H)). by left.
    + rewrite elem_of_app. intros [H|[_ ->]]; [left; by eapply IH2|right; by left].
  - destruct (criticality_effect g sid crit) as (He & _ & Hd).
    split; intros a b; unfold needs; rewrite ?Hd, He, ?app_nil_r; [apply IH1|apply IH2].
  - split; by intros ?? (? & [=] & ?).
Qed.

(** ** The order of recovery *)

Definition times (x : string) (l : list string) : Z := countb (λ y, bool_decide (y = x)) l.

Lemma times_cons x y l : times x (y :: l) = (if decide (y = x) then 1 else 0) + times x l.
Proof. unfold times. rewrite countb_cons. repeat case_bool_decide; case_decide; congruence. Qed.

Lemma times_nil x : times x [] = 0.
Proof. done. Qed.

Lemma times_app x l1 l2 : times x (l1 ++ l2) = times x l1 + times x l2.
Proof. apply countb_app. Qed.

Lemma times_pos x l : 0 < times x l ↔ x ∈ l.
Proof.
  unfold times. rewrite countb_pos. split; [|intros H; exists x; by rewrite bool_decide_eq_true].
  intros (y & Hy & ->%bool_decide_eq_true). done.
Qed.

Lemma times_nonneg x l : 0 <= times x l.
Proof. apply countb_nonneg. Qed.

Section sorting.
  Context (set_order : gset string → list string).
  Context (set_order_perm : ∀ s, set_order s ≡ₚ elements s).
  Context (g : graph) (subset : gset string).

Definition inside (l : list string) : Z := countb (λ d, bool_decide (d ∈ subset)) l.

(** The dependencies [f] of the services have been entered. *)
Definition entered (sg : subgraph) (f : string → list string) : Prop :=
  (∀ s, s ∈ subset → dget (in_degree sg) s = Some (inside (f s))) ∧
  ∀ d, d ∈ subset → ∃ succ, dget (adjacency sg) d = Some succ ∧ ∀ s, times s succ = times d (f s).

Definition with_deps (f : string → list string) (s : string) (l : list string) : string → list string :=
  λ x, if decide (x = s) then f s ++ l else f x.

Lemma add_edge_entered sg f s d :
  s ∈ subset → entered sg f → ∃ sg', add_edge subset s (Some sg) d = Some sg' ∧ entered sg' (with_deps f s [d]).
Proof.
  intros Hs [Hdeg Hadj]. cbn. unfold with_deps. case_decide as Hd.
  - destruct (Hadj d Hd) as (succ & -> & Hsucc). cbn. rewrite (Hdeg s Hs). cbn. eexists. split; [done|]. split; cbn.
    + intros x Hx. rewrite dget_dset. case_decide; subst.
      * rewrite decide_True by done. unfold inside. rewrite countb_app, countb_cons, bool_decide_true by done. done.
      * rewrite decide_False by congruence. by apply Hdeg.
    + intros y Hy. rewrite dget_dset. case_decide; subst.
      * eexists. split; [done|]. intros x. rewrite times_app, times_cons, Hsucc.
        destruct (decide (x = s)) as [->|Hne]; [rewrite times_app, times_cons, !decide_True by done; rewrite !times_nil; lia|].
        rewrite decide_False, times_nil by congruence. lia.
      * destruct (Hadj y Hy) as (succ' & -> & Hsucc'). eexists. split; [done|]. intros x. rewrite Hsucc'.
        case_decide; subst; [|done]. rewrite times_app, times_cons, decide_False, times_nil by congruence. lia.
  - exists sg. split; [done|]. split.
    + intros x Hx. rewrite (Hdeg x Hx). case_decide; subst; [|done].
      unfold inside. rewrite countb_app, countb_cons, bool_decide_false by done. change (countb _ []) with 0. f_equal. lia.
    + intros y Hy. destruct (Hadj y Hy) as (succ' & -> & Hsucc'). eexists. split; [done|]. intros x. rewrite Hsucc'.
      case_decide; subst; [|done]. rewrite times_app, times_cons, decide_False, times_nil by congruence. lia.
Qed.

Lemma entered_ext sg f f' : (∀ x, f x = f' x) → entered sg f → entered sg f'.
Proof.
  intros H [H1 H2]. split; [intros s Hs; rewrite <-H; by apply H1|].
  intros d Hd. destruct (H2 d Hd) as (succ & ? & Hs). exists succ. split; [done|]. intros s. by rewrite <-H.
Qed.

Lemma add_edges_entered l sg f s :
  s ∈ subset → entered sg f →
  ∃ sg', foldl (add_edge subset s) (Some sg) l = Some sg' ∧ entered sg' (with_deps f s l).
Proof.
  intros Hs. revert sg f. induction l as [|d l IH]; intros sg f H.
  - exists sg. split; [done|]. eapply entered_ext; [|done]. intros x. unfold with_deps. case_decide; subst; [by rewrite app_nil_r|done].
  - destruct (add_edge_entered sg f s d Hs H) as (sg1 & E & H1). cbn [foldl]. rewrite E.
    destruct (IH sg1 _ H1) as (sg2 & -> & H2). exists sg2. split; [done|]. eapply entered_ext; [|done].
    intros x. unfold with_deps. repeat case_decide; try congruence. by rewrite <-(assoc_L (++)).
Qed.

Lemma all_edges_entered todo sg f :
  NoDup todo → (∀ s, s ∈ todo → s ∈ subset ∧ f s = []) → entered sg f →
  ∃ sg', foldl (λ sg s, foldl (add_edge subset s) sg (deps_of g s)) (Some sg) todo = Some sg' ∧
    entered sg' (λ s, if decide (s ∈ todo) then deps_of g s else f s).
Proof.
  revert sg f. induction todo as [|s todo IH]; intros sg f Hnd Hf H.
  - exists sg. split; [done|]. eapply entered_ext; [|done]. intros x. by rewrite decide_False by set_solver.
  - apply NoDup_cons in Hnd as [Hni Hnd]. destruct (Hf s ltac:(by left)) as [Hs Hfs].
    destruct (add_edges_entered (deps_of g s) sg f s Hs H) as (sg1 & E & H1). cbn [foldl]. rewrite E.
    destruct (IH sg1 (with_deps f s (deps_of g s)) Hnd) as (sg2 & -> & H2); [|done|].
    { intros x Hx. unfold with_deps. rewrite decide_False by (intros ->; done). apply Hf. by right. }
    exists sg2. split; [done|]. eapply entered_ext; [|done]. intros x. unfold with_deps.
    destruct (decide (x ∈ todo)); [by rewrite decide_True by (by right)|].
    destruct (decide (x = s)) as [->|Hne]; [by rewrite Hfs, decide_True by (by left)|].
    rewrite decide_False; [done|]. by intros [?|?]%elem_of_cons.
Qed.

Lemma dget_fmap_pair {V} (v : V) (l : list string) (s : string) : s ∈ l → dget ((λ s, (s, v)) <$> l) s = Some v.
Proof. induction l as [|x l IH]; cbn; [set_solver|]. intros Hs. case_decide; set_solver. Qed.

Lemma subgraph_entered :
  ∃ sg, build_subgraph set_order g subset = Some sg ∧
    (∀ s, s ∈ subset → dget (in_degree sg) s = Some (inside (deps_of g s))) ∧
    ∀ d, d ∈ subset → ∃ succ, dget (adjacency sg) d = Some succ ∧
      ∀ s, times s succ = if decide (s ∈ subset) then times d (deps_of g s) else 0.
Proof.
  assert (∀ s, s ∈ set_order subset ↔ s ∈ subset) as Hel by (intros; by apply elem_set_order).
  destruct (all_edges_entered (set_order subset)
    (Subgraph ((λ s, (s, 0)) <$> set_order subset) ((λ s, (s, [])) <$> set_order subset)) (λ _, []))
    as (sg & E & Hdeg & Hadj).
  - by apply set_order_NoDup.
  - intros s Hs%Hel. done.
  - split; cbn; intros s Hs%Hel; rewrite dget_fmap_pair by done; [done|]. exists []. done.
  - exists sg. split; [done|]. split.
    + intros s Hs. rewrite Hdeg by done. by rewrite decide_True by (by apply Hel).
    + intros d Hd. destruct (Hadj d Hd) as (succ & ? & Hs). exists succ. split; [done|]. intros s. rewrite Hs.
      repeat case_decide; set_solver.
Qed.
End sorting.

(** ** Kahn's loop *)

Section kahn.
  Context (g : graph) (subset : gset string).

(** The dependencies of [s] that are not in [done]. *)
Definition waiting (done : list string) (s : string) : Z :=
  countb (λ d, bool_decide (d ∈ subset ∧ d ∉ done)) (deps_of g s).

Lemma waiting_nil s : waiting [] s = inside subset (deps_of g s).
Proof. apply countb_ext. intros d _. apply bool_decide_ext. set_solver. Qed.

Lemma waiting_zero done s : waiting done s = 0 ↔ ∀ d, d ∈ deps_of g s → d ∈ subset → d ∈ done.
Proof.
  unfold waiting. rewrite countb_zero. setoid_rewrite bool_decide_eq_false. split; intros H d Hd.
  - intros Hs. destruct (decide (d ∈ done)); [done|]. destruct (H d Hd). done.
  - intros [Hs Hn]. by apply Hn, H.
Qed.

Lemma waiting_snoc done x s : x ∈ subset → x ∉ done → waiting (done ++ [x]) s = waiting done s - times x (deps_of g s).
Proof.
  intros Hx Hn. unfold waiting, times. induction (deps_of g s) as [|d l IH]; [done|]. rewrite !countb_cons, IH.
  repeat case_bool_decide; try lia; set_solver.
Qed.

Lemma relax_all ns degrees queue (D : string → Z) :
  (∀ x, x ∈ subset → dget degrees x = Some (D x) ∧ times x ns <= D x) → (∀ x, x ∈ ns → x ∈ subset) →
  ∃ degrees' fresh, foldl relax (Some (degrees, queue)) ns = Some (degrees', queue ++ fresh) ∧
    (∀ x, x ∈ subset → dget degrees' x = Some (D x - times x ns)) ∧ NoDup fresh ∧
    ∀ x, x ∈ fresh ↔ x ∈ ns ∧ D x = times x ns.
Proof.
  revert degrees queue D. induction ns as [|n ns IH]; intros degrees queue D HD Hns.
  { exists degrees, []. rewrite app_nil_r. split; [done|]. split_and!; [|constructor|set_solver].
    intros x Hx. rewrite times_nil, Z.sub_0_r. by apply HD. }
  assert (n ∈ subset) as Hn by (apply Hns; by left). destruct (HD n Hn) as [Hget Hle].
  rewrite times_cons, decide_True in Hle by done. pose proof (times_nonneg n ns) as Hpos.
  cbn [foldl relax mbind option_bind]. rewrite Hget. cbn [mbind option_bind].
  set (queue1 := if D n - 1 =? 0 then _ else _).
  destruct (IH (dset degrees n (D n - 1)) queue1 (λ x, if decide (x = n) then D n - 1 else D x))
    as (degrees' & fresh & -> & Hdeg & Hnd & Hfr).
  - intros x Hx. rewrite dget_dset. destruct (decide (x = n)) as [->|Hne]; [rewrite decide_True by done; split; [done|lia]|].
    rewrite decide_False by congruence. destruct (HD x Hx) as [? Ht].
    rewrite times_cons, decide_False in Ht by congruence. split; [done|lia].
  - intros x Hx. apply Hns. by right.
  - exists degrees', ((if D n - 1 =? 0 then [n] else []) ++ fresh). split.
    { rewrite (assoc_L (++)). subst queue1. case_match; by rewrite ?app_nil_r. }
    assert (D n = 1 → n ∉ fresh) as Hni.
    { intros H1 [Hin%times_pos _]%Hfr. lia. }
    split_and!.
    + intros x Hx. rewrite (Hdeg x Hx), times_cons. f_equal.
      destruct (decide (x = n)) as [->|Hne]; [rewrite decide_True by done|rewrite decide_False by congruence]; lia.
    + destruct (Z.eqb_spec (D n - 1) 0); cbn; [|done]. constructor; [apply Hni; lia|done].
    + intros x. rewrite elem_of_app, Hfr, elem_of_cons, times_cons.
      destruct (decide (x = n)) as [->|Hne].
      * rewrite decide_True by done. destruct (Z.eqb_spec (D n - 1) 0) as [H0|H0].
        -- split; [intros _; split; [by left|lia]|]. intros _. left. by left.
        -- rewrite elem_of_nil. split; [intros [[]|[? ?]]; split; [by left|lia]|]. intros [_ ?]. right. split; [|lia].
           apply times_pos. lia.
      * rewrite decide_False by congruence. rewrite Z.add_0_l. destruct (D n - 1 =? 0); set_solver.
Qed.

(** The state of the loop. *)
Record kahn_inv (degrees : dict string Z) (queue result : list string) : Prop := {
  ki_nodup : NoDup (result ++ queue);
  ki_subset : ∀ x, x ∈ result ++ queue → x ∈ subset;
  ki_degrees : ∀ s, s ∈ subset → dget degrees s = Some (waiting result s);
  ki_ready : ∀ s, s ∈ subset → s ∈ result ++ queue ↔ waiting result s = 0;
  ki_order : ∀ l1 s l2 d, result = l1 ++ s :: l2 → d ∈ deps_of g s → d ∈ subset → d ∈ l1 }.

Lemma kahn_step degrees s queue result succ :
  kahn_inv degrees (s :: queue) result →
  (∀ x, times x succ = if decide (x ∈ subset) then times s (deps_of g x) else 0) →
  ∃ degrees' queue', foldl relax (Some (degrees, queue)) succ = Some (degrees', queue') ∧
    kahn_inv degrees' queue' (result ++ [s]).
Proof.
  intros [H1 H2 H3 H4 H5] Hsucc.
  assert (s ∈ subset) as Hs by (apply H2; set_solver).
  assert (s ∉ result) as Hnr.
  { apply NoDup_app in H1 as (_ & H & _). intros Hin. apply (H s Hin). by left. }
  assert (∀ x, 0 <= waiting (result ++ [s]) x) as Hw by (intros; apply countb_nonneg).
  assert (∀ x, waiting (result ++ [s]) x = waiting result x - times s (deps_of g x)) as Hsn.
  { intros. by apply waiting_snoc. }
  destruct (relax_all succ degrees queue (waiting result)) as (degrees' & fresh & E & Hdeg & Hnd & Hfr).
  - intros x Hx. split; [by apply H3|]. rewrite Hsucc, decide_True by done. specialize (Hw x). rewrite Hsn in Hw. lia.
  - intros x Hx%times_pos. rewrite Hsucc in Hx. case_decide; [done|lia].
  - assert (∀ x, x ∈ fresh ↔ x ∈ subset ∧ 0 < times s (deps_of g x) ∧ waiting result x = times s (deps_of g x)) as Hfr'.
    { intros x. rewrite Hfr, <-times_pos, Hsucc. case_decide; naive_solver lia. }
    exists degrees', (queue ++ fresh). split; [done|].
    assert ((result ++ [s]) ++ queue ++ fresh = (result ++ s :: queue) ++ fresh) as Hall by (by rewrite <-!(assoc_L (++))).
    split; rewrite ?Hall.
    + apply NoDup_app. split; [done|]. split; [|done]. intros x Hx (Hxs & Hp & He)%Hfr'.
      apply H4 in Hx; [lia|done].
    + intros x [Hx|Hx]%elem_of_app; [by apply H2|by apply Hfr'].
    + intros x Hx. rewrite (Hdeg x Hx), Hsn, Hsucc, decide_True by done. done.
    + intros x Hx. rewrite elem_of_app, (H4 x Hx), Hfr', Hsn. specialize (Hw x). rewrite Hsn in Hw.
      pose proof (times_nonneg s (deps_of g x)).
      destruct (decide (0 < times s (deps_of g x))); naive_solver lia.
    + intros l1 x l2 d Hl Hd Hds. destruct l2 as [|y l2 _] using rev_ind.
      * apply app_inj_tail in Hl as [<- ->]. apply (waiting_zero result x); [|done|done]. apply H4; [done|set_solver].
      * rewrite app_comm_cons, (assoc_L (++)) in Hl. apply app_inj_tail in Hl as [-> ->]. by eapply H5.
Qed.

Lemma kahn_inv_perm degrees queue queue' result :
  queue ≡ₚ queue' → kahn_inv degrees queue result → kahn_inv degrees queue' result.
Proof. intros Hp [H1 H2 H3 H4 H5]. split; [by rewrite <-Hp| | |setoid_rewrite <-Hp|]; try done. setoid_rewrite <-Hp. done. Qed.

Lemma kahn_result fuel sg degrees queue result :
  (∀ d, d ∈ subset → ∃ succ, dget (adjacency sg) d = Some succ ∧
      ∀ s, times s succ = if decide (s ∈ subset) then times d (deps_of g s) else 0) →
  kahn_inv degrees queue result → (size subset < fuel + length result)%nat →
  ∃ degrees' r, kahn fuel (adjacency sg) degrees queue result = Some r ∧ kahn_inv degrees' [] r.
Proof.
  intros Hadj. revert degrees queue result. induction fuel as [|fuel IH]; intros degrees queue result Hi Hf.
  { assert (length result <= size subset)%nat; [|lia]. destruct Hi as [[Hnd _]%NoDup_app H2 _ _ _].
    rewrite <-(size_list_to_set (C := gset string) result) by done. apply subseteq_size.
    intros x Hx%elem_of_list_to_set. apply H2. set_solver. }
  cbn [kahn]. apply (kahn_inv_perm _ _ (merge_sort string_le queue)) in Hi; [|by rewrite merge_sort_Permutation].
  destruct (merge_sort string_le queue) as [|s rest]; [eauto|].
  destruct (Hadj s) as (succ & -> & Hsucc); [apply (ki_subset _ _ _ Hi); set_solver|]. unfold default, id.
  destruct (kahn_step degrees s rest result succ Hi Hsucc) as (degrees' & queue' & -> & Hi').
  apply (IH _ _ _ Hi'). rewrite length_app. cbn. lia.
Qed.
End kahn.

Section graph_theorems.
  Context (set_order : gset string → list string).
  Context (set_order_perm : ∀ s, set_order s ≡ₚ elements s).

(** C25: Whatever was registered, in whatever order and with whatever cycles, the
    cascade of a service terminates and lists each affected service once: it
    misses nobody who depends on it, directly or through others, and, when no
    service was registered twice, lists nobody else; the critical ones are those
    of that list registered as critical. *)
Theorem cascade_is_reachability ops s :
  let g := after ops in
  ∃ l, get_cascading_affected set_order g s = Some l ∧ NoDup l ∧
    (∀ x, x ≠ s → rtc (needs g) s x → x ∈ l) ∧
    (NoDup (registered ops) → ∀ x, x ∈ l → x ≠ s ∧ rtc (needs g) s x) ∧
    ∃ c, get_critical_dependents set_order g s = Some c ∧
      ∀ x, x ∈ c ↔ x ∈ l ∧ criticality <$> dget g x = Some "critical".
Proof.
  intros g. destruct (after_closed ops) as [Hc Hn].
  destruct (affected_exact set_order set_order_perm g Hc s) as (l & Hl & Hnd & Hx).
  exists l. split; [done|]. split; [done|]. split_and!.
  - intros x Hne Hp. apply Hx. split; [done|]. revert Hp. by apply rtc_subrel.
  - intros Hr x [Hne Hp]%Hx. split; [done|]. revert Hp. apply rtc_subrel. apply edges_current, Hr.
  - unfold get_critical_dependents. rewrite Hl. eexists. split; [done|]. intros x.
    rewrite list_elem_of_filter. naive_solver.
Qed.

(** C26: Sorting any set of services for recovery terminates and returns each of
    them once; every service whose dependencies within the set lead into no
    cycle comes after all of them, leaves first, and before them the other way
    around. *)
Theorem recovery_order_respects_dependencies (g : graph) services :
  let subset : gset string := list_to_set services in
  ∃ r, topological_sort_subset set_order g services leaves_first = Some r ∧
    topological_sort_subset set_order g services roots_first = Some (reverse r) ∧
    r ≡ₚ elements subset ∧
    ∀ s d, s ∈ subset → Acc (λ d s, d ∈ subset ∧ d ∈ deps_of g s) s → d ∈ subset → d ∈ deps_of g s →
      ∃ l1 l2, r = l1 ++ s :: l2 ∧ d ∈ l1.
Proof.
  intros subset. unfold topological_sort_subset. fold subset. case_decide as He.
  { exists []. rewrite He. split_and!; [done|done|by rewrite elements_empty|set_solver]. }
  assert (∀ s, s ∈ set_order subset ↔ s ∈ subset) as Hel by (intros; by apply elem_set_order).
  destruct (subgraph_entered set_order set_order_perm g subset) as (sg & -> & Hdeg & Hadj). cbn [mbind option_bind].
  destruct (kahn_result g subset (S (size subset)) sg (in_degree sg)
    (filter (λ s, dget (in_degree sg) s = Some 0) (set_order subset)) []) as (degrees & r & -> & [H1 H2 H3 H4 H5]);
    [done| |cbn; lia|].
  { split; cbn.
    - apply NoDup_filter, set_order_NoDup, set_order_perm.
    - intros x [_ Hx%Hel]%list_elem_of_filter. done.
    - intros x Hx. rewrite waiting_nil. by apply Hdeg.
    - intros x Hx. rewrite waiting_nil, list_elem_of_filter, Hel, (Hdeg x Hx).
      split; [by intros [[= ?] _]|by intros ->].
    - by intros [|]. }
  rewrite app_nil_r in *. cbn [mbind option_bind]. eexists. split; [done|]. split; [done|]. split.
  - apply NoDup_Permutation; [|apply NoDup_elements|].
    + apply NoDup_app. split_and!; [done| |].
      * intros x Hx. rewrite merge_sort_Permutation, list_elem_of_filter. naive_solver.
      * rewrite merge_sort_Permutation. apply NoDup_filter, set_order_NoDup, set_order_perm.
    + intros x. rewrite elem_of_app, merge_sort_Permutation, list_elem_of_filter, Hel, elem_of_elements.
      destruct (decide (x ∈ r)); naive_solver.
  - intros s d Hs Hacc Hd Hdep.
    assert (s ∈ r) as Hr.
    { clear d Hd Hdep. induction Hacc as [s _ IH]. apply H4; [done|]. apply waiting_zero. intros d Hdep Hd. by apply IH. }
    apply list_elem_of_split in Hr as (l1 & l2 & ->). eexists l1, _. split; [by rewrite <-(assoc_L (++)), <-app_comm_cons|].
    by eapply H5.
Qed.

(** ** The traversal with depths *)

Lemma upstream_paths levels (g : graph) s visited depth cycles x k :
  (x, k) ∈ found (dependents_recursive set_order levels g s visited depth cycles) →
  ∃ n, nsteps (edge g) (S n) s x ∧ k = depth + 1 + Z.of_nat n ∧ (n < levels)%nat.
Proof.
  revert s visited depth cycles x k. induction levels as [|levels IH]; intros s visited depth cycles x k; cbn; [set_solver|].
  case_decide; [cbn; set_solver|].
  set (P := λ x k, ∃ n, nsteps (edge g) (S n) s x ∧ k = depth + 1 + Z.of_nat n ∧ (n < S levels)%nat).
  intros Hin. change (P x k). revert Hin.
  set (turn := upstream_step _ _ _).
  assert (∀ ds u, (∀ d, d ∈ ds → edge g s d) → (∀ x k, (x, k) ∈ found u → P x k) →
    ∀ x k, (x, k) ∈ found (foldl turn u ds) → P x k) as Hloop.
  { clear x k. intros ds. induction ds as [|d ds IHds]; intros u Hds Hu; cbn [foldl]; [apply Hu|].
    apply IHds; [intros d' Hd'; apply Hds; by right|]. intros x k. unfold turn, upstream_step. case_decide; cbn; [apply Hu|].
    rewrite elem_of_app, elem_of_cons. intros [Hx|[[= -> ->]|Hx]]; [by apply Hu| |].
    - exists 0%nat. split; [|split; lia]. apply nsteps_once, Hds. by left.
    - destruct (IH _ _ _ _ _ _ Hx) as (n & Hp & -> & Hn). exists (S n). split; [|split; lia].
      eapply nsteps_l; [apply Hds; by left|done]. }
  apply Hloop; [intros d; by apply elem_get_dependents|cbn; set_solver].
Qed.

(** Every service the traversal lists with a depth is reached from the origin in
    that many steps, and in at most [max_depth]. *)
Theorem upstream_depths_are_paths (g : graph) s max_depth x k :
  (x, k) ∈ (get_dependents_recursive set_order g s max_depth).1 →
  0 < k <= max_depth ∧ nsteps (edge g) (Z.to_nat k) s x.
Proof.
  intros (n & Hp & -> & Hn)%upstream_paths. split; [lia|].
  replace (Z.to_nat (0 + 1 + Z.of_nat n)) with (S n) by lia. done.
Qed.
End graph_theorems.

(** ** Witnesses and observations *)

Definition py_order : gset string → list string := elements.

(** A shop: orders need payments and stock, both need the database. *)
Definition shop : list op :=
  [Register "orders" ["payments"; "stock"] "critical"; Register "payments" ["db"] "high";
   Register "stock" ["db"] "medium"; Register "web" ["orders"] "critical"].

Lemma cascade_is_reachability_witness :
  ∃ l, get_cascading_affected py_order (after shop) "db" = Some l ∧ "web" ∈ l ∧
    ∀ x, x ∈ l → rtc (needs (after shop)) "db" x.
Proof.
  destruct (cascade_is_reachability py_order (λ s, reflexivity _) shop "db") as (l & Hl & _ & Hall & Honly & _).
  exists l. split; [exact Hl|]. split.
  - apply Hall; [discriminate|].
    apply (rtc_l _ _ "stock"); [apply (bool_decide_eq_true_1 ("db" ∈ deps_of (after shop) "stock")); reflexivity|].
    apply (rtc_l _ _ "orders"); [apply (bool_decide_eq_true_1 ("stock" ∈ deps_of (after shop) "orders")); reflexivity|].
    apply rtc_once. apply (bool_decide_eq_true_1 ("orders" ∈ deps_of (after shop) "web")); reflexivity.
  - intros x Hx. apply Honly; [apply (bool_decide_eq_true_1 _); reflexivity|exact Hx].
Defined.

Lemma recovery_order_respects_dependencies_witness :
  ∃ r, topological_sort_subset py_order (after shop) ["orders"; "db"; "stock"] leaves_first = Some r ∧
    r ≡ₚ elements (list_to_set ["orders"; "db"; "stock"] : gset string).
Proof.
  destruct (recovery_order_respects_dependencies py_order (λ s, reflexivity _) (after shop) ["orders"; "db"; "stock"])
    as (r & Hr & _ & Hp & _).
  exists r. split; [exact Hr|exact Hp].
Defined.

Lemma upstream_depths_are_paths_witness :
  nsteps (edge (after shop)) 2 "db" "orders".
Proof.
  apply (upstream_depths_are_paths py_order (λ s, reflexivity _) (after shop) "db" 2 "orders" 2).
  apply (bool_decide_eq_true_1 _). vm_compute. reflexivity.
Defined.

(** A service that registers again with other dependencies. *)
Definition moved : list op := [Register "api" ["old-db"] "high"; Register "api" ["new-db"] "high"].

(** A service stays listed with what it no longer depends on: the failure of its
    former database is said to affect it. *)
Theorem former_dependency_still_listed :
  deps_of (after moved) "api" = ["new-db"] ∧ get_cascading_affected py_order (after moved) "old-db" = Some ["api"].
Proof. split; vm_compute; reflexivity. Qed.

(** A chain of services and one shortcut; [layer] shows that there is no cycle. *)
Definition mesh : list op :=
  [Register "cache" ["db"] "high"; Register "api" ["db"; "cache"] "high";
   Register "web" ["api"] "high"; Register "cdn" ["web"] "high"].

Definition layer (s : string) : Z :=
  default 5 (dget [("db", 0); ("cache", 1); ("api", 2); ("web", 3); ("cdn", 4)] s).

(** The traversal goes depth first, so what it lists depends on the order in
    which it meets the services: here a direct dependent gets depth 2, a service
    within three steps is missed, and a cycle is reported where there is none. *)
Theorem upstream_depth_is_not_distance :
  Forall (λ an, Forall (λ b, layer an.1 < layer b) (dependents an.2)) (after mesh) ∧
  nsteps (edge (after mesh)) 1 "db" "api" ∧ nsteps (edge (after mesh)) 3 "db" "cdn" ∧
  get_dependents_recursive py_order (after mesh) "db" 3 =
    ([("cache", 1); ("api", 2); ("web", 3)], [("db", "api")]).
Proof.
  assert (∀ a b, bool_decide (b ∈ default [] (dependents <$> dget (after mesh) a)) = true → edge (after mesh) a b) as He.
  { intros a b H%bool_decide_eq_true. unfold edge. destruct (dget _ a) as [n|]; [by exists n|by apply elem_of_nil in H]. }
  split_and!.
  - apply (bool_decide_eq_true_1 _). vm_compute. reflexivity.
  - apply nsteps_once, He. vm_compute. reflexivity.
  - apply (nsteps_l _ 2 _ "api"), (nsteps_l _ 1 _ "web"), nsteps_once; apply He; vm_compute; reflexivity.
  - vm_compute. reflexivity.
Qed.
