(* ===== verification/CellRing.v ===== *)
(** Cells ([services/cell_topology/registry.py], [models.py]): the consistent
    hash ring that assigns keys to cells, the states of the cells and the merge
    of a cell's state with its copy in the shared store.  SHA-256 is a parameter;
    the shared store is what its reads return.  Health scores, percentages and
    ratios are binary64; clock readings are microseconds. *)
From stdpp Require Import pretty.
From Equations Require Import Equations.
From S2P Require Import Prelude.

(** ** Cells *)

Inductive CellState : Type := ACTIVE | WARMUP | DRAINING | ISOLATED.

#[export] Instance CellState_eq_dec : EqDecision CellState.
Proof. solve_decision. Defined.

Definition CELL_STATE_PRIORITY (s : CellState) : Z :=
  match s with ACTIVE => 0 | WARMUP => 1 | DRAINING => 2 | ISOLATED => 3 end.

Record state_change : Type := StateChange { change_from : CellState; change_to : CellState; change_reason : string }.

(** The keys the code uses of the [metadata] dict; [None]: absent, and
    [Some None] is an empty dict. *)
Record cell_metadata : Type := Metadata {
  last_state_change : option (option state_change);
  last_state_change_time : option Z;
  evacuation_below_count : Z;
  recovery_above_count : Z;
  evacuation_affected_services : list string;
  evacuation_trigger_score : option float }.

Definition no_metadata : cell_metadata := Metadata None None 0 0 [] None.

Record CellInfo : Type := Cell {
  cell_id : string;
  state : CellState;
  assigned_services : gset string;
  health_score : float;
  warmup_percentage : float;
  metadata : cell_metadata;
  updated_at : Z }.

Definition fl_zero : float := fl_of_Z 0.
Definition fl_one : float := fl_of_Z 1.

(** [CellInfo(cell_id=...)] *)
Definition new_cell (id : string) (now : Z) : CellInfo := Cell id ACTIVE ∅ fl_one fl_zero no_metadata now.

Definition with_state (c : CellInfo) (s : CellState) (t : Z) : CellInfo :=
  Cell (cell_id c) s (assigned_services c) (health_score c) (warmup_percentage c) (metadata c) t.
Definition with_metadata (c : CellInfo) (m : cell_metadata) : CellInfo :=
  Cell (cell_id c) (state c) (assigned_services c) (health_score c) (warmup_percentage c) m (updated_at c).
Definition with_scores (c : CellInfo) (health warmup : float) : CellInfo :=
  Cell (cell_id c) (state c) (assigned_services c) health warmup (metadata c) (updated_at c).

(** Python's [max(0.0, min(top, x))]. *)
Definition clamp (top x : float) : float :=
  let y := if fl_ltb x top then x else top in if fl_ltb fl_zero y then y else fl_zero.

(** ** The registry *)

Record cell_settings : Type := CellSettings {
  enabled : bool; cell_prefix : string; cell_count : nat; warmup_initial_percentage : float }.

Record registry : Type := Registry {
  settings : cell_settings;
  cells : dict string CellInfo;
  hash_ring : list (Z * string) }.

Definition set_cell (r : registry) (c : CellInfo) : registry :=
  Registry (settings r) (dset (cells r) (cell_id c) c) (hash_ring r).

Definition VNODES_PER_CELL : nat := 150.

Definition cell_name (r : cell_settings) (i : nat) : string := cell_prefix r +:+ "-" +:+ pretty i.

Section ring.
  (** SHA-256 as an integer. *)
  Context (hash : string → Z).

Definition vnodes (id : string) : list (Z * string) :=
  (λ i : nat, (hash (id +:+ ":vnode-" +:+ pretty i), id)) <$> seq 0 VNODES_PER_CELL.

(** [_build_hash_ring] *)
Definition ring_of (cs : dict string CellInfo) : list (Z * string) := sort_by fst (dkeys cs ≫= vnodes).
Definition build_hash_ring (r : registry) : registry := Registry (settings r) (cells r) (ring_of (cells r)).

Definition initialize_cells (s : cell_settings) (now : Z) : registry :=
  build_hash_ring (Registry s
    (foldl (λ cs i, dset cs (cell_name s i) (new_cell (cell_name s i) now)) [] (seq 0 (cell_count s))) []).

(** The binary search of [get_cell_for_key]. *)
Equations? find_position (ring : list (Z * string)) (h : Z) (lo hi : nat) : nat by wf (hi - lo)%nat lt :=
  find_position ring h lo hi with decide (lo < hi)%nat => {
    | left _ with (nth ((lo + hi) / 2) ring (0, EmptyString)).1 <? h => {
        | true => find_position ring h ((lo + hi) / 2 + 1) hi
        | false => find_position ring h lo ((lo + hi) / 2) }
    | right _ => lo }.
Proof.
  - pose proof (Nat.div_le_lower_bound (lo + hi) 2 lo). lia.
  - apply Nat.add_lt_mono_l with lo. pose proof (Nat.div_lt_upper_bound (lo + hi) 2 hi). lia.
Qed.

(** May a cell take a key with this hash? *)
Definition admits (cs : dict string CellInfo) (h : Z) (id : string) : bool :=
  match dget cs id with
  | None => false
  | Some c =>
      match state c with
      | ACTIVE => true
      | WARMUP => fl_ltb (fl_of_Z (h `mod` 100)) (warmup_percentage c)
      | _ => false
      end
  end.

(** The walk around the ring, position by position. *)
Fixpoint walk_ring (cs : dict string CellInfo) (ring : list (Z * string)) (h : Z) (lo : nat) (offsets : list nat) :
    option string :=
  match offsets with
  | [] => None
  | o :: offsets =>
      let id := (nth ((lo + o) `mod` length ring)%nat ring (0, EmptyString)).2 in
      if admits cs h id then Some id else walk_ring cs ring h lo offsets
  end.

Definition get_cell_for_key (r : registry) (key : string) : string :=
  if negb (enabled (settings r)) then cell_name (settings r) 0
  else
    let h := hash key in
    let ring := hash_ring r in
    match ring with
    | [] => cell_name (settings r) 0
    | _ =>
        let lo := find_position ring h 0 (length ring - 1) in
        match walk_ring (cells r) ring h lo (seq 0 (length ring)) with
        | Some id => id
        | None => (nth (lo `mod` length ring)%nat ring (0, EmptyString)).2
        end
    end.

Definition get_cell_info (r : registry) (id : string) : option CellInfo := dget (cells r) id.
Definition get_active_cells (r : registry) : list string :=
  fst <$> filter (λ kc, state kc.2 = ACTIVE) (cells r).

(** What the registry tells others, in order. *)
Inductive notice : Type :=
| Synced (c : CellInfo)                                              (** [_sync_state_to_redis] *)
| CELL_STATE_CHANGED (id : string) (old new : CellState) (reason : string).

Definition set_cell_state (r : registry) (now : Z) (id : string) (s : CellState) (reason : string) :
    registry * bool * list notice :=
  match dget (cells r) id with
  | None => (r, false, [])
  | Some c =>
      let old := state c in
      let m := metadata c in
      let c := with_metadata (with_state c s now)
        (Metadata (Some (Some (StateChange old s reason))) (Some now) (evacuation_below_count m) (recovery_above_count m)
           (evacuation_affected_services m) (evacuation_trigger_score m)) in
      (Registry (settings r) (dset (cells r) id c) (hash_ring r), true,
       [Synced c; CELL_STATE_CHANGED id old s reason])
  end.

Definition update_health_score (r : registry) (id : string) (score : float) : registry :=
  match dget (cells r) id with
  | None => r
  | Some c => Registry (settings r) (dset (cells r) id (with_scores c (clamp fl_one score) (warmup_percentage c))) (hash_ring r)
  end.

Definition assign_service (r : registry) (service : string) : registry * string :=
  let id := get_cell_for_key r service in
  match dget (cells r) id with
  | None => (r, id)
  | Some c =>
      (Registry (settings r)
         (dset (cells r) id (Cell (cell_id c) (state c) (assigned_services c ∪ {[service]}) (health_score c)
            (warmup_percentage c) (metadata c) (updated_at c))) (hash_ring r), id)
  end.

(** [_evict_expired_services], given the services the store names as expired. *)
Definition evict_expired_services (r : registry) (id : string) (expired : list string) : registry * list string :=
  match dget (cells r) id with
  | None => (r, [])
  | Some c =>
      (Registry (settings r)
         (dset (cells r) id (Cell (cell_id c) (state c) (assigned_services c ∖ list_to_set expired) (health_score c)
            (warmup_percentage c) (metadata c) (updated_at c))) (hash_ring r), expired)
  end.

(** [add_cells] *)
Definition warming_cell (s : cell_settings) (now : Z) (id : string) : CellInfo :=
  Cell id WARMUP ∅ fl_one (warmup_initial_percentage s) no_metadata now.

Definition add_cells (r : registry) (now : Z) (count : nat) : registry * list string * list notice :=
  let n := length (cells r) in
  let added := (λ i, cell_name (settings r) (n + i)) <$> seq 0 count in
  let cs := foldl (λ cs id, dset cs id (warming_cell (settings r) now id)) (cells r) added in
  (build_hash_ring (Registry (settings r) cs (hash_ring r)), added,
   (λ id, Synced (warming_cell (settings r) now id)) <$> added).

(** [remove_cells]; each change reads the clock. *)
Fixpoint remove_cells (r : registry) (ids : list (Z * string)) : registry * list string * list notice :=
  match ids with
  | [] => (r, [], [])
  | (now, id) :: ids =>
      let '(r, ok, l) := set_cell_state r now id DRAINING "scale_in" in
      let again := match dget (cells r) id with Some c => if ok : bool then [Synced c] else [] | None => [] end in
      let '(r, drained, l') := remove_cells r ids in
      (r, if ok : bool then id :: drained else drained, l ++ again ++ l')
  end.
End ring.

(** ** The copy in the shared store *)

(** A field of the stored hash: missing, not readable, or a value. *)
Inductive l2_field (A : Type) : Type := Missing | Unreadable | Stored (a : A).
Arguments Missing {A}. Arguments Unreadable {A}. Arguments Stored {A} a.

Record l2_dict : Type := L2 {
  l2_state : l2_field CellState; l2_health : l2_field float; l2_warmup : l2_field float;
  l2_updated_at : l2_field Z; l2_change : l2_field (option state_change); l2_change_time : l2_field Z }.

Definition stored {A} (o : option A) : l2_field A := match o with Some a => Stored a | None => Missing end.

Definition to_l2_dict (c : CellInfo) : l2_dict :=
  L2 (Stored (state c)) (Stored (health_score c)) (Stored (warmup_percentage c)) (Stored (updated_at c))
    (stored (last_state_change (metadata c))) (stored (last_state_change_time (metadata c))).

Inductive py_error : Type := ValueError.

(** [_apply_l2_metadata] *)
Definition apply_l2_metadata (c : CellInfo) (d : l2_dict) : CellInfo :=
  let m := metadata c in
  let '(change, time) := match l2_change d with
                         | Missing => (last_state_change m, last_state_change_time m)
                         | Unreadable => (Some None, None)
                         | Stored x => (Some x, last_state_change_time m)
                         end in
  let time := match l2_change_time d with Missing => time | Unreadable => None | Stored t => Some t end in
  with_metadata c (Metadata change time (evacuation_below_count m) (recovery_above_count m)
    (evacuation_affected_services m) (evacuation_trigger_score m)).

(** The scalar fields and the metadata, once the state is accepted. *)
Definition accept_l2 (c : CellInfo) (d : l2_dict) : CellInfo * (py_error + bool) :=
  match l2_health d with
  | Unreadable => (c, inl ValueError)
  | h =>
      let c := match h with Stored x => with_scores c (clamp fl_one x) (warmup_percentage c) | _ => c end in
      match l2_warmup d with
      | Unreadable => (c, inl ValueError)
      | w =>
          let c := match w with Stored x => with_scores c (health_score c) (clamp (fl_of_Z 100) x) | _ => c end in
          (apply_l2_metadata c d, inr true)
      end
  end.

(** [_apply_mrw_only] *)
Definition apply_mrw_only (c : CellInfo) (d : l2_dict) : CellInfo * (py_error + bool) :=
  match l2_state d with
  | Missing => (c, inr false)
  | Unreadable => (c, inl ValueError)
  | Stored s =>
      if CELL_STATE_PRIORITY s <? CELL_STATE_PRIORITY (state c) then (c, inr false)
      else accept_l2 (with_state c s (updated_at c)) d
  end.

Definition apply_l2_dict (c : CellInfo) (d : l2_dict) : CellInfo * (py_error + bool) :=
  match l2_updated_at d with
  | Missing => apply_mrw_only c d
  | Unreadable => (c, inr false)
  | Stored t =>
      if t <? updated_at c then (c, inr false)
      else
        match l2_state d with
        | Missing => (c, inr false)
        | Unreadable => (c, inl ValueError)
        | Stored s =>
            if (t =? updated_at c) && (CELL_STATE_PRIORITY s <? CELL_STATE_PRIORITY (state c)) then (c, inr false)
            else accept_l2 (with_state c s t) d
        end
  end.

(** [_load_all_states_from_redis], reading with [hgetall] ([None]: nothing
    stored); an error ends the pass. *)
Fixpoint load_all_states (hgetall : string → option l2_dict) (r : registry) (ids : list string) : registry * Z :=
  match ids with
  | [] => (r, 0)
  | id :: ids =>
      match hgetall id, dget (cells r) id with
      | Some d, Some c =>
          let '(c, res) := apply_l2_dict c d in
          let r := Registry (settings r) (dset (cells r) id c) (hash_ring r) in
          match res with
          | inl _ => (r, 0)
          | inr updated =>
              let '(r, n) := load_all_states hgetall r ids in (r, (if updated : bool then 1 else 0) + n)
          end
      | _, _ => load_all_states hgetall r ids
      end
  end.

(** [_load_single_state_from_redis], called when another process announces a
    change. *)
Definition load_single_state (hgetall : string → option l2_dict) (r : registry) (id : string) : registry * bool :=
  match hgetall id, dget (cells r) id with
  | Some d, Some c =>
      let '(c, res) := apply_l2_dict c d in
      (Registry (settings r) (dset (cells r) id c) (hash_ring r), match res with inl _ => false | inr b => b end)
  | _, _ => (r, false)
  end.

(** ** Where a key goes *)

Notation no_vnode := (0, EmptyString).
Notation by_hash := (λ a b : Z * string, a.1 <= b.1).

Lemma nth_some {A} (l : list A) d i : (i < length l)%nat → l !! i = Some (nth i l d).
Proof. revert i. induction l as [|y l IH]; intros [|i] Hi; cbn in *; try lia; [done|]. apply IH. lia. Qed.

Lemma ring_monotone ring i j :
  StronglySorted by_hash ring → (i <= j < length ring)%nat → (nth i ring no_vnode).1 <= (nth j ring no_vnode).1.
Proof.
  intros Hs Hij. destruct (decide (i = j)) as [->|Hne]; [done|].
  apply (sorted_split by_hash ring j); [done| |].
  - apply elem_of_take. exists i. split; [apply nth_some; lia|lia].
  - apply list_elem_of_lookup. exists 0%nat. rewrite lookup_drop, Nat.add_0_r. apply nth_some. lia.
Qed.

(** The search stops at the first position that is not below [h], or at the last. *)
Lemma find_position_spec ring h lo hi :
  StronglySorted by_hash ring → (lo <= hi < length ring)%nat →
  (∀ i, (i < lo)%nat → (nth i ring no_vnode).1 < h) →
  let p := find_position ring h lo hi in
  (lo <= p <= hi)%nat ∧ (∀ i, (i < p)%nat → (nth i ring no_vnode).1 < h) ∧
  ((p < hi)%nat → h <= (nth p ring no_vnode).1).
Proof.
  intros Hs. funelim (find_position ring h lo hi); clear Heqcall; intros Hb Hlow.
  { split_and!; [lia|lia|done|lia]. }
  all: set (m := ((lo + hi) / 2)%nat) in *;
    assert (Hm : (lo <= m < hi)%nat) by
      (subst m; pose proof (Nat.div_lt_upper_bound (lo + hi) 2 hi);
       pose proof (Nat.div_le_lower_bound (lo + hi) 2 lo); lia).
  - apply Z.ltb_lt in Heq. destruct H as (Hb' & Hl & Hp); [done|lia| |].
    + intros i Hi. pose proof (ring_monotone ring i m Hs). lia.
    + split_and!; [lia|lia|done|]. intros Hlt. apply Hp. lia.
  - apply Z.ltb_ge in Heq. destruct H as (Hb' & Hl & Hp); [done|lia|done|].
    split_and!; [lia|lia|done|]. intros Hlt. destruct (decide (find_position ring h lo m = m)) as [->|]; [done|].
    apply Hp. lia.
Qed.

(** The walk around the ring visits the vnodes from [lo] on, then those before it. *)
Definition first_admitting (cs : dict string CellInfo) (h : Z) (l : list (Z * string)) : option string :=
  snd <$> head (List.filter (λ v, admits cs h v.2) l).

Lemma walk_offsets cs ring h lo offsets :
  walk_ring cs ring h lo offsets =
    first_admitting cs h ((λ o, nth ((lo + o) `mod` length ring)%nat ring no_vnode) <$> offsets).
Proof.
  unfold first_admitting. induction offsets as [|o offsets IH]; [done|]. cbn [walk_ring fmap list_fmap List.filter].
  destruct (admits cs h _); [done|exact IH].
Qed.

Lemma walk_is_rotation cs ring h lo :
  (lo < length ring)%nat →
  walk_ring cs ring h lo (seq 0 (length ring)) = first_admitting cs h (drop lo ring ++ take lo ring).
Proof.
  intros Hlo. rewrite walk_offsets. f_equal. apply list_eq. intros i. rewrite list_lookup_fmap.
  destruct (decide (i < length ring)%nat) as [Hi|Hi].
  - rewrite lookup_seq_lt by done. cbn. destruct (decide (i < length ring - lo)%nat).
    + rewrite lookup_app_l, lookup_drop by (rewrite length_drop; lia).
      rewrite Nat.mod_small by lia. symmetry. apply nth_some. lia.
    + rewrite lookup_app_r, length_drop, lookup_take_lt by (rewrite ?length_drop; lia).
      rewrite (nth_some ring no_vnode) by lia. do 2 f_equal.
      replace (lo + i)%nat with (i - (length ring - lo) + 1 * length ring)%nat by lia.
      rewrite Nat.Div0.mod_add, Nat.mod_small by lia. done.
  - rewrite lookup_seq_ge by lia. symmetry. apply lookup_ge_None.
    rewrite length_app, length_drop, length_take. lia.
Qed.

(** The rotated ring a key with hash [h] walks. *)
Definition route (ring : list (Z * string)) (h : Z) : list (Z * string) :=
  let lo := find_position ring h 0 (length ring - 1) in drop lo ring ++ take lo ring.

Section routing.
  Context (hash : string → Z).

Lemma position_bound ring h : ring ≠ [] → StronglySorted by_hash ring →
  (find_position ring h 0 (length ring - 1) < length ring)%nat.
Proof.
  intros Hne Hs. assert (0 < length ring)%nat by (destruct ring; [done|cbn; lia]).
  destruct (find_position_spec ring h 0 (length ring - 1)) as [Hb _]; [done|lia|lia|lia].
Qed.

Lemma get_cell_route r key :
  enabled (settings r) = true → hash_ring r ≠ [] → StronglySorted by_hash (hash_ring r) →
  ∃ v l, route (hash_ring r) (hash key) = v :: l ∧
    get_cell_for_key hash r key = default v.2 (first_admitting (cells r) (hash key) (v :: l)).
Proof.
  intros Hen Hne Hs. pose proof (position_bound _ (hash key) Hne Hs) as Hp. unfold get_cell_for_key. rewrite Hen. cbn [negb].
  set (ring := hash_ring r) in *. set (lo := find_position _ _ _ _) in *.
  assert (route ring (hash key) = nth lo ring no_vnode :: (drop (S lo) ring ++ take lo ring)) as Hr.
  { unfold route. fold lo. rewrite (drop_S _ _ _ (nth_some ring no_vnode lo Hp)). done. }
  eexists _, _. split; [done|]. rewrite <-Hr. unfold route. fold lo. rewrite <-walk_is_rotation by done.
  rewrite Nat.mod_small by done. destruct ring eqn:E; [done|]. rewrite <-E. by destruct (walk_ring _ _ _ _ _).
Qed.
End routing.

Lemma filter_swap {A} (p q : A → bool) l : List.filter p (List.filter q l) = List.filter q (List.filter p l).
Proof. induction l as [|x l IH]; cbn; [done|]. destruct (p x) eqn:Ep, (q x) eqn:Eq; cbn; rewrite ?Ep, ?Eq, IH; done. Qed.

Lemma first_admitting_some cs h l id :
  first_admitting cs h l = Some id → admits cs h id = true ∧ id ∈ l.*2.
Proof.
  unfold first_admitting. induction l as [|v l IH]; cbn; [done|]. destruct (admits cs h v.2) eqn:E; cbn.
  - intros [= <-]. split; [done|by left].
  - intros H. destruct (IH H). split; [done|by right].
Qed.

Lemma first_admitting_none cs h l :
  first_admitting cs h l = None → ∀ v, v ∈ l → admits cs h v.2 = false.
Proof.
  unfold first_admitting. induction l as [|v l IH]; cbn; [set_solver|]. destruct (admits cs h v.2) eqn:E; cbn; [done|].
  intros H v' [->|Hv]%elem_of_cons; [done|by apply IH].
Qed.

(** If only [id] changes, only keys of [id] move. *)
Lemma first_admitting_change cs cs' h l id d :
  (∀ x, x ≠ id → admits cs' h x = admits cs h x) →
  default d (first_admitting cs' h l) ≠ default d (first_admitting cs h l) →
  first_admitting cs h l = Some id ∨ first_admitting cs' h l = Some id.
Proof.
  intros Hx. unfold first_admitting. induction l as [|v l IH]; cbn; [done|].
  destruct (decide (v.2 = id)) as [Hv|Hv].
  - destruct (admits cs h v.2) eqn:E1, (admits cs' h v.2) eqn:E2; cbn; rewrite ?Hv; auto.
  - rewrite (Hx _ Hv). destruct (admits cs h v.2); [done|exact IH].
Qed.

(** If [added] joins the ring, a key goes to one of them or where it went. *)
Lemma first_admitting_added (added : list string) cs cs' h l v rest v' rest' :
  (∀ x, x ∉ added → admits cs' h x = admits cs h x) →
  l = v' :: rest' → List.filter (λ v, bool_decide (v.2 ∉ added)) l = v :: rest →
  default v'.2 (first_admitting cs' h l) ∈ added ∨
  default v'.2 (first_admitting cs' h l) = default v.2 (first_admitting cs h (v :: rest)).
Proof.
  intros Hx Hl Hf.
  assert (∀ l, (∃ id, first_admitting cs' h l = Some id ∧ id ∈ added) ∨
    first_admitting cs' h l = first_admitting cs h (List.filter (λ v, bool_decide (v.2 ∉ added)) l)) as Hgen.
  { clear -Hx. unfold first_admitting. intros l. induction l as [|v l IH]; cbn; [by right|].
    case_bool_decide as Hv; cbn.
    - rewrite (Hx _ Hv). destruct (admits cs h v.2); [by right|exact IH].
    - destruct (admits cs' h v.2); [|exact IH]. left. cbn. eauto. }
  destruct (Hgen l) as [(id & -> & Hin)|Heq]; [by left|]. rewrite Heq, Hf.
  destruct (first_admitting cs h (v :: rest)) eqn:E; [by right|]. cbn.
  rewrite Hl in Hf. cbn in Hf. case_bool_decide as Hv; [right; congruence|by left].
Qed.

(** ** Sorting and cutting the ring *)

Lemma sorted_cut (ring : list (Z * string)) h :
  StronglySorted by_hash ring →
  ring = List.filter (λ v, v.1 <? h) ring ++ List.filter (λ v, negb (v.1 <? h)) ring.
Proof.
  induction 1 as [|v ring Hs IH Hv]; [done|]. cbn. destruct (Z.ltb_spec v.1 h); cbn; [by f_equal|].
  assert (∀ w, w ∈ ring → (w.1 <? h) = false) as Hall.
  { intros w Hw. rewrite Forall_forall in Hv. specialize (Hv w Hw). apply Z.ltb_ge. cbn in Hv. lia. }
  rewrite (filter_none _ ring), (filter_all _ ring); [done| |done]. intros w Hw. by rewrite Hall.
Qed.

(** A key's route: what is not below it, then the rest. *)
Lemma route_split (ring : list (Z * string)) h :
  StronglySorted by_hash ring → (∃ v, v ∈ ring ∧ h <= v.1) →
  route ring h = List.filter (λ v, negb (v.1 <? h)) ring ++ List.filter (λ v, v.1 <? h) ring.
Proof.
  intros Hs (v & Hv & Hh). set (A := List.filter (λ v, v.1 <? h) ring). set (B := List.filter (λ v, negb (v.1 <? h)) ring).
  pose proof (sorted_cut ring h Hs) as Hcut. fold A B in Hcut.
  assert (v ∈ B) as HvB.
  { apply list_elem_of_In, filter_In. split; [by apply list_elem_of_In|]. by apply negb_true_iff, Z.ltb_ge. }
  assert (0 < length B)%nat as HB by (destruct B; [by apply elem_of_nil in HvB|cbn; lia]).
  assert (length ring = length A + length B)%nat as Hlen by (rewrite Hcut at 1; apply length_app).
  destruct (find_position_spec ring h 0 (length ring - 1)) as (Hb & Hl & Hp); [done|lia|lia|].
  assert (∀ i, (i < length A)%nat → (nth i ring no_vnode).1 < h) as HA.
  { intros i Hi. rewrite Hcut, app_nth1 by done.
    assert (In (nth i A no_vnode) A) as [_ H]%filter_In by (by apply nth_In). by apply Z.ltb_lt. }
  assert (h <= (nth (length A) ring no_vnode).1) as HBh.
  { rewrite Hcut, app_nth2, Nat.sub_diag by lia.
    assert (In (nth 0 B no_vnode) B) as [_ H]%filter_In by (by apply nth_In). by apply negb_true_iff, Z.ltb_ge in H. }
  unfold route. set (p := find_position _ _ _ _) in *.
  assert (p = length A) as ->.
  { destruct (lt_eq_lt_dec p (length A)) as [[H|H]|H]; [|done|].
    - specialize (HA p H). specialize (Hp ltac:(lia)). lia.
    - specialize (Hl _ H). lia. }
  rewrite Hcut. rewrite drop_app_length, take_app_length. done.
Qed.

(** ** Histories of a registry *)

Inductive registry_op : Type :=
| SetState (now : Z) (id : string) (s : CellState) (reason : string)
| UpdateHealth (id : string) (score : float)
| AssignService (service : string)
| EvictServices (id : string) (expired : list string)
| AddCells (now : Z) (count : nat)
| RemoveCells (ids : list (Z * string))
| LoadAll (hgetall : string → option l2_dict)
| LoadSingle (hgetall : string → option l2_dict) (id : string).

Section histories.
  Context (hash : string → Z).

Definition apply_registry_op (r : registry) (o : registry_op) : registry :=
  match o with
  | SetState now id s reason => (set_cell_state r now id s reason).1.1
  | UpdateHealth id score => update_health_score r id score
  | AssignService service => (assign_service hash r service).1
  | EvictServices id expired => (evict_expired_services r id expired).1
  | AddCells now count => (add_cells hash r now count).1.1
  | RemoveCells ids => (remove_cells r ids).1.1
  | LoadAll hgetall => (load_all_states hgetall r (dkeys (cells r))).1
  | LoadSingle hgetall id => (load_single_state hgetall r id).1
  end.

Definition registry_after (s : cell_settings) (now : Z) (ops : list registry_op) : registry :=
  foldl apply_registry_op (initialize_cells hash s now) ops.

(** The ring is that of the cells, and the cells are numbered from 0 on. *)
Record registry_ok (s : cell_settings) (r : registry) : Prop := {
  rk_settings : settings r = s;
  rk_ring : hash_ring r = ring_of hash (cells r);
  rk_names : dkeys (cells r) = cell_name s <$> seq 0 (length (cells r)) }.

Lemma cell_name_inj s i j : cell_name s i = cell_name s j → i = j.
Proof. unfold cell_name. intros H%(inj _)%(inj _)%(inj pretty). done. Qed.

(** What keeps the names of the cells keeps the invariant. *)
Lemma same_names_ok s r r' :
  registry_ok s r → settings r' = settings r → hash_ring r' = hash_ring r → dkeys (cells r') = dkeys (cells r) →
  registry_ok s r'.
Proof.
  intros [H1 H2 H3] Hs Hr Hk. split; [congruence| |].
  - unfold ring_of in *. congruence.
  - rewrite Hk, H3. do 2 f_equal. rewrite <-(length_fmap fst (cells r)), <-(length_fmap fst (cells r')).
    change (length (dkeys (cells r)) = length (dkeys (cells r'))). congruence.
Qed.

Lemma put_cell_ok s r id c0 c :
  registry_ok s r → dget (cells r) id = Some c0 →
  registry_ok s (Registry (settings r) (dset (cells r) id c) (hash_ring r)).
Proof. intros H Hg. apply (same_names_ok s r); cbn; [done..|]. apply dkeys_dset_Some. eauto. Qed.

Lemma set_cell_state_ok s r now id st reason : registry_ok s r → registry_ok s (set_cell_state r now id st reason).1.1.
Proof. intros H. unfold set_cell_state. destruct (dget (cells r) id) eqn:E; [|done]. by eapply put_cell_ok. Qed.

Lemma remove_cells_ok s r ids : registry_ok s r → registry_ok s (remove_cells r ids).1.1.
Proof.
  revert r. induction ids as [|[now id] ids IH]; intros r H; cbn; [done|].
  pose proof (set_cell_state_ok s r now id DRAINING "scale_in" H) as H1. destruct (set_cell_state _ _ _ _ _) as [[r1 ok] l].
  specialize (IH r1 H1). by destruct (remove_cells r1 ids) as [[r2 drained] l'].
Qed.

Lemma load_all_ok s hgetall r ids : registry_ok s r → registry_ok s (load_all_states hgetall r ids).1.
Proof.
  revert r. induction ids as [|id ids IH]; intros r H; cbn; [done|].
  destruct (hgetall id) as [d|]; [|by apply IH]. destruct (dget (cells r) id) as [c|] eqn:E; [|by apply IH].
  destruct (apply_l2_dict c d) as [c' res].
  pose proof (put_cell_ok s r id c c' H E) as H1. destruct res; [done|]. specialize (IH _ H1).
  by destruct (load_all_states _ _ _).
Qed.

Lemma keys_put_fresh (f : string → CellInfo) l cs :
  NoDup (dkeys cs ++ l) → dkeys (foldl (λ cs id, dset cs id (f id)) cs l) = dkeys cs ++ l.
Proof.
  revert cs. induction l as [|id l IH]; intros cs Hnd; cbn; [by rewrite app_nil_r|].
  assert (dget cs id = None) as Hn.
  { apply eq_None_not_Some. rewrite <-elem_of_dkeys. apply NoDup_app in Hnd as (_ & H & _). intros Hin. apply (H _ Hin). by left. }
  etrans; [apply IH; by rewrite dkeys_dset_None, <-(assoc_L (++))|].
  by rewrite dkeys_dset_None, <-(assoc_L (++)).
Qed.

Lemma names_NoDup s a n : NoDup (cell_name s <$> seq a n).
Proof. apply NoDup_fmap_2_strong; [|apply NoDup_seq]. intros x y _ _. apply cell_name_inj. Qed.

Lemma added_names s n count :
  (cell_name s <$> seq 0 n) ++ ((λ i, cell_name s (n + i)) <$> seq 0 count) = cell_name s <$> seq 0 (n + count).
Proof.
  rewrite seq_app, fmap_app. f_equal.
  replace (seq (0 + n) count) with (Nat.add n <$> seq 0 count) by (rewrite fmap_add_seq; f_equal; lia).
  by rewrite <-list_fmap_compose.
Qed.

Lemma keys_length (cs : dict string CellInfo) : length (dkeys cs) = length cs.
Proof. apply length_fmap. Qed.

(** The cells after an addition: the old ones, then the new ones. *)
Lemma add_cells_keys s r now count :
  registry_ok s r → dkeys (cells (add_cells hash r now count).1.1) = dkeys (cells r) ++ (add_cells hash r now count).1.2.
Proof.
  intros [<- H2 H3]. cbn. apply keys_put_fresh. rewrite H3, added_names. apply names_NoDup.
Qed.

Lemma add_cells_ok s r now count : registry_ok s r → registry_ok s (add_cells hash r now count).1.1.
Proof.
  intros H. pose proof (add_cells_keys s r now count H) as Hk. destruct H as [Hs H2 H3]. split; [done|done|].
  rewrite <-keys_length, Hk, H3. cbn. rewrite Hs, added_names. by rewrite !length_fmap, !length_seq.
Qed.

Lemma initialize_ok s now : registry_ok s (initialize_cells hash s now).
Proof.
  assert (dkeys (foldl (λ cs i, dset cs (cell_name s i) (new_cell (cell_name s i) now)) [] (seq 0 (cell_count s))) =
    cell_name s <$> seq 0 (cell_count s)) as Hk.
  { rewrite <-(app_nil_l (cell_name s <$> _)), <-(keys_put_fresh (λ id, new_cell id now) (cell_name s <$> seq 0 (cell_count s)) []).
    - f_equal. generalize (@nil (string * CellInfo)), (seq 0 (cell_count s)). intros d l. revert d.
      induction l as [|i l IH]; intros d; cbn; [done|]. apply IH.
    - apply names_NoDup. }
  split; [done|done|]. cbn. rewrite <-keys_length, Hk. by rewrite length_fmap, length_seq.
Qed.

Lemma apply_registry_op_ok s r o : registry_ok s r → registry_ok s (apply_registry_op r o).
Proof.
  intros H. destruct o as [t id st reason|id score|service|id expired|t count|ids|hgetall|hgetall id]; cbn [apply_registry_op].
  - by apply set_cell_state_ok.
  - unfold update_health_score. destruct (dget _ id) eqn:E; [by eapply put_cell_ok|done].
  - unfold assign_service. destruct (dget _ _) eqn:E; [by eapply put_cell_ok|done].
  - unfold evict_expired_services. destruct (dget _ id) eqn:E; [by eapply put_cell_ok|done].
  - by apply add_cells_ok.
  - by apply remove_cells_ok.
  - by apply load_all_ok.
  - unfold load_single_state. destruct (hgetall id); [|done]. destruct (dget _ id) eqn:E; [|done].
    destruct (apply_l2_dict _ _). by eapply put_cell_ok.
Qed.

Lemma registry_always_ok s now ops : registry_ok s (registry_after s now ops).
Proof.
  unfold registry_after. generalize (initialize_ok s now). generalize (initialize_cells hash s now).
  induction ops as [|o ops IH]; intros r H; cbn; [done|]. by apply IH, apply_registry_op_ok.
Qed.

Lemma ring_sorted s r : registry_ok s r → StronglySorted by_hash (hash_ring r).
Proof. intros [_ -> _]. apply sort_by_strongly. Qed.

Lemma ring_ids cs id : id ∈ dkeys cs → ∃ v, v ∈ ring_of hash cs ∧ v.2 = id.
Proof.
  intros Hid. exists (hash (id +:+ ":vnode-" +:+ pretty 0%nat), id). split; [|done].
  unfold ring_of. rewrite sort_by_perm, list_elem_of_bind. exists id. split; [|done].
  unfold vnodes. apply list_elem_of_fmap. exists 0%nat. split; [done|]. apply elem_of_seq. unfold VNODES_PER_CELL. lia.
Qed.

Lemma elem_route ring h v : v ∈ route ring h ↔ v ∈ ring.
Proof. unfold route. by rewrite (comm (++)), take_drop. Qed.

(** A cell that takes a key with this hash: active, or warming up with the key in
    its share. *)
Definition takes (h : Z) (c : CellInfo) : Prop :=
  state c = ACTIVE ∨ state c = WARMUP ∧ fl_ltb (fl_of_Z (h `mod` 100)) (warmup_percentage c) = true.

Lemma admits_takes cs h id : admits cs h id = true ↔ ∃ c, dget cs id = Some c ∧ takes h c.
Proof.
  unfold admits, takes. destruct (dget cs id) as [c|]; [|naive_solver].
  destruct (state c) eqn:E; split; naive_solver congruence.
Qed.

(** C20: Traffic goes to cells that take it: after any history, if some cell takes the
    key (it is active, or warming up with the key in its share), the cell the key is
    assigned to exists and takes it; a draining or isolated cell gets nothing. *)
Theorem traffic_avoids_unavailable_cells s now ops key id c :
  let r := registry_after s now ops in
  enabled s = true → dget (cells r) id = Some c → takes (hash key) c →
  ∃ c', dget (cells r) (get_cell_for_key hash r key) = Some c' ∧ takes (hash key) c'.
Proof.
  intros r Hen Hc Ht. pose proof (registry_always_ok s now ops) as Hok. fold r in Hok.
  assert (admits (cells r) (hash key) id = true) as Had by (apply admits_takes; eauto).
  apply admits_takes. assert (id ∈ dkeys (cells r)) as Hid by (apply elem_of_dkeys; eauto).
  destruct (ring_ids (cells r) id Hid) as (w & Hw & <-). rewrite <-(rk_ring _ _ Hok) in Hw.
  destruct (get_cell_route hash r key) as (v & l & Hr & ->).
  - by rewrite (rk_settings _ _ Hok).
  - by intros Hnil; rewrite Hnil in Hw; apply elem_of_nil in Hw.
  - by eapply ring_sorted.
  - destruct (first_admitting _ _ (v :: l)) eqn:E; cbn; [by apply first_admitting_some in E as []|].
    rewrite <-Hr in E. pose proof (first_admitting_none _ _ _ E w) as H. rewrite elem_route in H. rewrite H in Had; done.
Qed.

Lemma admits_ext cs cs' h id : dget cs' id = dget cs id → admits cs' h id = admits cs h id.
Proof. unfold admits. by intros ->. Qed.

(** Draining, isolating, warming or restoring a cell moves only its own keys: a
    key that is assigned elsewhere afterwards was assigned to that cell before or
    is assigned to it now. *)
Theorem state_change_moves_only_its_keys s now ops t id st reason key :
  let r := registry_after s now ops in
  let r' := (set_cell_state r t id st reason).1.1 in
  get_cell_for_key hash r' key ≠ get_cell_for_key hash r key →
  get_cell_for_key hash r key = id ∨ get_cell_for_key hash r' key = id.
Proof.
  intros r r'. pose proof (registry_always_ok s now ops) as Hok. fold r in Hok.
  pose proof (set_cell_state_ok s r t id st reason Hok) as Hok'. fold r' in Hok'.
  assert (hash_ring r' = hash_ring r ∧ ∀ x, x ≠ id → dget (cells r') x = dget (cells r) x) as [Hring Hcells].
  { subst r'. unfold set_cell_state. destruct (dget (cells r) id) eqn:E; [|done]. cbn. split; [done|].
    intros x Hx. by apply dget_dset_ne. }
  destruct (enabled s) eqn:Hen; [|unfold get_cell_for_key; by rewrite (rk_settings _ _ Hok), (rk_settings _ _ Hok'), Hen].
  destruct (decide (hash_ring r = [])) as [Hnil|Hne].
  { unfold get_cell_for_key. by rewrite Hring, Hnil, (rk_settings _ _ Hok), (rk_settings _ _ Hok'). }
  destruct (get_cell_route hash r key) as (v & l & Hr & ->);
    [by rewrite (rk_settings _ _ Hok)|done|by eapply ring_sorted|].
  destruct (get_cell_route hash r' key) as (v' & l' & Hr' & ->);
    [by rewrite (rk_settings _ _ Hok')|by rewrite Hring|by eapply ring_sorted|].
  rewrite Hring, Hr in Hr'. injection Hr' as <- <-. intros Hmoved.
  destruct (first_admitting_change (cells r) (cells r') (hash key) (v :: l) id v.2) as [H|H]; try done.
  - intros x Hx. apply admits_ext. by apply Hcells.
  - left. by rewrite H.
  - right. by rewrite H.
Qed.

Lemma filter_vnodes (added : list string) ids :
  List.filter (λ v, bool_decide (v.2 ∉ added)) (ids ≫= vnodes hash) =
    List.filter (λ id, bool_decide (id ∉ added)) ids ≫= vnodes hash.
Proof.
  induction ids as [|id ids IH]; [reflexivity|]. rewrite bind_cons, List.filter_app, IH. cbn [List.filter].
  assert (∀ v, v ∈ vnodes hash id → v.2 = id) as Hv by (intros v (i & -> & _)%list_elem_of_fmap; done).
  case_bool_decide as Hid; [rewrite filter_all, bind_cons; [reflexivity|]|rewrite filter_none; [reflexivity|]].
  - intros v Hin. rewrite (Hv v Hin). by apply bool_decide_eq_true.
  - intros v Hin. rewrite (Hv v Hin). apply bool_decide_eq_false. intros Hn. by apply Hn.
Qed.

Lemma dget_put_other (f : string → CellInfo) l cs x :
  x ∉ l → dget (foldl (λ cs id, dset cs id (f id)) cs l) x = dget cs x.
Proof.
  revert cs. induction l as [|id l IH]; intros cs Hx; cbn; [done|]. rewrite IH by set_solver.
  apply dget_dset_ne. set_solver.
Qed.

(** Without the added cells the new ring is the old one. *)
Lemma old_ring s r now count :
  registry_ok s r →
  List.filter (λ v, bool_decide (v.2 ∉ (add_cells hash r now count).1.2)) (hash_ring (add_cells hash r now count).1.1) =
    hash_ring r.
Proof.
  intros Hok. pose proof (add_cells_keys s r now count Hok) as Hk. pose proof (add_cells_ok s r now count Hok) as Hok'.
  rewrite (rk_ring _ _ Hok), (rk_ring _ _ Hok'). unfold ring_of. rewrite filter_sort_by, filter_vnodes, Hk.
  set (added := (add_cells hash r now count).1.2) in *.
  assert (NoDup (dkeys (cells r) ++ added)) as Hnd.
  { rewrite <-Hk, (rk_names _ _ Hok'). apply names_NoDup. }
  apply NoDup_app in Hnd as (_ & Hdis & _).
  rewrite List.filter_app, filter_all, filter_none, app_nil_r; [done| |].
  - intros id Hid. by apply bool_decide_eq_false; intros ?.
  - intros id Hid. apply bool_decide_eq_true. intros Hin. by eapply Hdis.
Qed.

(** C21: Adding cells at runtime moves keys only to the added cells: after any
    history, a key that is not past the end of the ring is assigned to one of the
    added cells or to the cell it had before. *)
Theorem scaling_moves_keys_to_new_cells s now ops t count key v :
  let r := registry_after s now ops in
  let '(r', added, _) := add_cells hash r t count in
  v ∈ hash_ring r → hash key <= v.1 →
  get_cell_for_key hash r' key ∈ added ∨ get_cell_for_key hash r' key = get_cell_for_key hash r key.
Proof.
  intros r. pose proof (registry_always_ok s now ops) as Hok. fold r in Hok.
  pose proof (add_cells_ok s r t count Hok) as Hok'. pose proof (old_ring s r t count Hok) as Hold.
  assert (∀ x, x ∉ (add_cells hash r t count).1.2 → dget (cells (add_cells hash r t count).1.1) x = dget (cells r) x) as Hcells.
  { intros x Hx. by apply dget_put_other. }
  destruct (add_cells hash r t count) as [[r' added] notices]. cbn [fst snd] in *. intros Hv Hkey.
  destruct (enabled s) eqn:Hen; [|right; unfold get_cell_for_key; by rewrite (rk_settings _ _ Hok), (rk_settings _ _ Hok'), Hen].
  assert (v ∈ hash_ring r') as Hv' by (rewrite <-Hold in Hv; apply list_elem_of_In, filter_In in Hv as [? _]; by apply list_elem_of_In).
  assert (hash_ring r ≠ [] ∧ hash_ring r' ≠ []) as [Hne Hne'] by (split; intros H; rewrite H in *; by apply elem_of_nil in Hv || apply elem_of_nil in Hv').
  destruct (get_cell_route hash r key) as (w & l & Hr & ->);
    [by rewrite (rk_settings _ _ Hok)|done|by eapply ring_sorted|].
  destruct (get_cell_route hash r' key) as (w' & l' & Hr' & ->);
    [by rewrite (rk_settings _ _ Hok')|done|by eapply ring_sorted|].
  apply (first_admitting_added added (cells r) (cells r') (hash key) (w' :: l') w l w' l'); [|done|].
  - intros x Hx. apply admits_ext. by apply Hcells.
  - rewrite <-Hr', <-Hr, !route_split; [|by eapply ring_sorted|eauto|by eapply ring_sorted|eauto].
    rewrite <-Hold, List.filter_app. f_equal; by rewrite filter_swap.
Qed.
End histories.

(** ** Replicas of a cell *)

(** A version of a cell's state, by time and then by restriction. *)
Definition stamp (c : CellInfo) : Z := 4 * updated_at c + CELL_STATE_PRIORITY (state c).

Lemma stamp_inj c d : stamp c = stamp d → state c = state d ∧ updated_at c = updated_at d.
Proof. unfold stamp. destruct (state c), (state d); cbn; intros; split; try done; lia. Qed.

(** A process reads the copy another one stored. *)
Definition merge (c d : CellInfo) : CellInfo := (apply_l2_dict c (to_l2_dict d)).1.

Lemma accept_keeps c d : let c' := (accept_l2 c d).1 in state c' = state c ∧ updated_at c' = updated_at c.
Proof. unfold accept_l2, apply_l2_metadata. by destruct (l2_health d), (l2_warmup d), (l2_change d), (l2_change_time d). Qed.

Lemma merge_is_join c d :
  stamp (merge c d) = Z.max (stamp c) (stamp d) ∧
  (apply_l2_dict c (to_l2_dict d)).2 = inr (stamp c <=? stamp d).
Proof.
  unfold merge, apply_l2_dict. cbn [to_l2_dict l2_updated_at l2_state].
  assert (∀ c, 0 <= CELL_STATE_PRIORITY (state c) <= 3) as Hp by (intros c1; destruct (state c1); cbn; lia).
  pose proof (Hp c). pose proof (Hp d).
  destruct (Z.ltb_spec (updated_at d) (updated_at c)) as [Ht|Ht].
  { cbn. split; [unfold stamp; lia|]. f_equal. symmetry. apply Z.leb_gt. unfold stamp. lia. }
  destruct (Z.eqb_spec (updated_at d) (updated_at c)) as [He|He]; cbn [andb];
    [destruct (Z.ltb_spec (CELL_STATE_PRIORITY (state d)) (CELL_STATE_PRIORITY (state c)))|].
  { cbn. split; [unfold stamp; lia|]. f_equal. symmetry. apply Z.leb_gt. unfold stamp. lia. }
  all: pose proof (accept_keeps (with_state c (state d) (updated_at d)) (to_l2_dict d)) as [Hs Hu];
    split; [unfold stamp in *; rewrite Hs, Hu; cbn [with_state state updated_at]; lia|];
    cbn; f_equal; symmetry; apply Z.leb_le; unfold stamp; lia.
Qed.

(** After reading [ds] a replica holds the highest version it has seen. *)
Lemma merge_all_max c ds :
  let m := foldl merge c ds in
  (∀ x, x ∈ c :: ds → stamp x <= stamp m) ∧ ∃ x, x ∈ c :: ds ∧ stamp x = stamp m.
Proof.
  cbn. revert c. induction ds as [|d ds IH]; intros c; cbn [foldl].
  { split; [intros x ->%list_elem_of_singleton; lia|]. exists c. split; [by left|done]. }
  destruct (IH (merge c d)) as [H1 (x & Hx & Hm)]. destruct (merge_is_join c d) as [Hj _].
  assert (stamp (merge c d) <= stamp (foldl merge (merge c d) ds)) as Hle by (apply H1; by left). split.
  - intros y [->|[->|Hy]%elem_of_cons]%elem_of_cons; [lia|lia|]. apply H1. by right.
  - apply elem_of_cons in Hx as [->|Hx]; [|exists x; split; [by right; right|done]].
    rewrite Hj in Hm. destruct (Z.max_spec (stamp c) (stamp d)) as [[_ E]|[_ E]]; rewrite E in Hm.
    + exists d. split; [right; by left|done].
    + exists c. split; [by left|done].
Qed.

(** C22: Replicas of a cell converge: two processes that have seen the same versions
    of its state, in whatever order and however often the reconciliations and the
    announcements delivered them, hold the same state with the same time, the
    latest, and of two changes made at the same time the more restrictive one.
    The version a process starts from is one of those it has seen: a process that
    booted after the last change holds a later one of its own
    ([booted_replica_diverges]). *)
Theorem replicas_converge c1 c2 ds1 ds2 :
  (∀ x, x ∈ c1 :: ds1 ↔ x ∈ c2 :: ds2) →
  let m1 := foldl merge c1 ds1 in
  let m2 := foldl merge c2 ds2 in
  state m1 = state m2 ∧ updated_at m1 = updated_at m2 ∧
  ∀ x, x ∈ c1 :: ds1 → updated_at x < updated_at m1 ∨
    updated_at x = updated_at m1 ∧ CELL_STATE_PRIORITY (state x) <= CELL_STATE_PRIORITY (state m1).
Proof.
  intros Hp m1 m2. destruct (merge_all_max c1 ds1) as [H1 (x1 & Hx1 & E1)], (merge_all_max c2 ds2) as [H2 (x2 & Hx2 & E2)].
  fold m1 in H1, E1. fold m2 in H2, E2.
  assert (stamp m1 = stamp m2) as Hst.
  { apply Z.le_antisymm; [rewrite <-E1; by apply H2, Hp|rewrite <-E2; by apply H1, Hp]. }
  destruct (stamp_inj _ _ Hst) as [Hs Hu]. split_and!; [done|done|]. intros x Hx. specialize (H1 x Hx).
  unfold stamp in H1. destruct (state x), (state m1); cbn in *; lia.
Qed.

(** ** Witnesses and observations *)

(** A hash that puts each cell at one place. *)
Definition toy_hash (s : string) : Z :=
  if String.prefix "cell-0:" s then 10 else if String.prefix "cell-1:" s then 20
  else if String.prefix "cell-2:" s then 30 else if bool_decide (s = "late") then 25 else 15.

Definition two_cells : cell_settings := CellSettings true "cell" 2 (fl_of_Z 10).

Lemma traffic_avoids_unavailable_cells_witness :
  let r := registry_after toy_hash two_cells 0 [SetState 1 "cell-1" DRAINING "test"] in
  ∃ c, dget (cells r) (get_cell_for_key toy_hash r "user") = Some c ∧ takes (toy_hash "user") c.
Proof.
  refine (traffic_avoids_unavailable_cells toy_hash two_cells 0 [SetState 1 "cell-1" DRAINING "test"] "user" "cell-0"
    (new_cell "cell-0" 0) _ _ _).
  - reflexivity.
  - vm_compute. reflexivity.
  - left. reflexivity.
Defined.

Lemma state_change_moves_only_its_keys_witness :
  let r := registry_after toy_hash two_cells 0 [] in
  get_cell_for_key toy_hash r "user" = "cell-1" ∨
  get_cell_for_key toy_hash (set_cell_state r 1 "cell-1" DRAINING "test").1.1 "user" = "cell-1".
Proof.
  apply (state_change_moves_only_its_keys toy_hash two_cells 0 [] 1 "cell-1" DRAINING "test" "user").
  vm_compute. discriminate.
Defined.

Lemma scaling_moves_keys_to_new_cells_witness :
  let r := registry_after toy_hash two_cells 0 [] in
  get_cell_for_key toy_hash (add_cells toy_hash r 1 1).1.1 "user" ∈ ["cell-2"] ∨
  get_cell_for_key toy_hash (add_cells toy_hash r 1 1).1.1 "user" = get_cell_for_key toy_hash r "user".
Proof.
  apply (scaling_moves_keys_to_new_cells toy_hash two_cells 0 [] 1 1 "user" (20, "cell-1")).
  - apply (bool_decide_eq_true_1 _). vm_compute. reflexivity.
  - vm_compute. discriminate.
Defined.

Lemma replicas_converge_witness :
  let a := with_state (new_cell "cell-0" 0) DRAINING 5 in
  let b := with_state (new_cell "cell-0" 0) ISOLATED 5 in
  state (foldl merge a [b; a; b]) = ISOLATED ∧ state (foldl merge a [b; a; b]) = state (foldl merge b [a]).
Proof.
  intros a b. split; [reflexivity|].
  apply (replicas_converge a b [b; a; b] [a]). intros x. rewrite !elem_of_cons, !elem_of_nil. tauto.
Defined.

(** A process creates its cells active and stamped with the time it booted, so a
    cell that another process isolated before that is active in the new one for
    good: the stored copy is older and every reconciliation refuses it, while the
    processes that ran before hold it isolated. *)
Theorem booted_replica_diverges :
  let isolated := with_state (new_cell "cell-0" 0) ISOLATED 5 in
  let hgetall (id : string) := if bool_decide (id = "cell-0") then Some (to_l2_dict isolated) else None in
  let old := registry_after toy_hash two_cells 0 [LoadAll hgetall; LoadAll hgetall] in
  let new := registry_after toy_hash two_cells 10 [LoadAll hgetall; LoadAll hgetall] in
  state <$> dget (cells old) "cell-0" = Some ISOLATED ∧ state <$> dget (cells new) "cell-0" = Some ACTIVE.
Proof. vm_compute. done. Qed.

(** The search for a position ends at the last vnode instead of going on to the
    first: a key past the end of the ring stays with the last cell, and when a
    warming cell that does not take it joins behind it, the key moves from one
    old cell to another. *)
Theorem key_past_the_ring_moves :
  let r := registry_after toy_hash two_cells 0 [] in
  let '(r', added, _) := add_cells toy_hash r 1 1 in
  added = ["cell-2"] ∧ get_cell_for_key toy_hash r "late" = "cell-1" ∧ get_cell_for_key toy_hash r' "late" = "cell-0".
Proof. vm_compute. done. Qed.

(** One stored state that is not a state's name ends the whole reconciliation:
    the cells after it keep their old state. *)
Definition bad_copy : l2_dict := L2 Unreadable Missing Missing (Stored 9) Missing Missing.
Definition good_copy : l2_dict := to_l2_dict (with_state (new_cell "cell-1" 0) ISOLATED 9).
Definition copies (id : string) : option l2_dict :=
  if bool_decide (id = "cell-0") then Some bad_copy else Some good_copy.

Theorem bad_copy_ends_reconciliation :
  let r := registry_after toy_hash two_cells 0 [LoadAll copies] in
  state <$> dget (cells r) "cell-1" = Some ACTIVE ∧
  state <$> dget (cells (registry_after toy_hash two_cells 0 [LoadSingle copies "cell-1"])) "cell-1" = Some ISOLATED.
Proof. vm_compute. done. Qed.
