(* ===== verification/CellEvacuation.v ===== *)
(** The evacuation of cells ([services/cell_topology/policy.py]): a state
    machine ticked by the leader with each cell's health score.  It counts
    consecutive scores, drains, isolates and restores cells in the registry of
    [CellRing], within a limit on the share of cells that are out of service.
    Scores and ratios are binary64; the texts of reasons are a parameter. *)
From Stdlib Require Import SpecFloat.
From S2P Require Import Prelude CellRing.

(** ** State *)

Record evacuation_settings : Type := EvacuationSettings {
  topology_enabled : bool;
  evacuation_enabled : bool;
  evacuation_health_threshold : float;
  recovery_health_threshold : float;
  evacuation_consecutive_count : Z;
  recovery_consecutive_count : Z;
  evacuation_traffic_drain : Z;                (** microseconds *)
  evacuation_drain_grace : Z;
  max_evacuated_ratio : float;
  isolation_notification_duration : Z;
  evacuation_history_max_size : nat }.

Record EvacuationRecord : Type := Evacuation {
  evacuated : string; trigger_health_score : float; started_at : Z; completed_at : option Z;
  evacuation_reason : string; affected_services : list string }.

Inductive policy_event : Type :=
| OfRegistry (n : notice)
| CELL_EVACUATION_STARTED (id reason : string)
| CELL_EVACUATION_CANCELLED (id why : string)
| CELL_EVACUATION_COMPLETED (id : string)
| CELL_RESTORED (id trigger : string)
| NotifyIsolation (id reason : string) (duration : Z)
| NotifyBlastRadius (id : string) (services : list string)
| NotifyRestore (id : string).

Record policy_world : Type := PolicyWorld {
  reg : registry; evacuation_history : list EvacuationRecord; events : list policy_event }.

(** Why a state changes; the texts quote the numbers. *)
Inductive why : Type :=
| TooLow (score threshold : float) (ticks : Z)
| Drained (elapsed required : Z)
| Healthy (score threshold : float) (ticks : Z).

Section policy.
  Context (cfg : evacuation_settings).
  Context (say : why → string) (set_order : gset string → list string).

Definition put_cell (w : policy_world) (id : string) (c : CellInfo) : policy_world :=
  PolicyWorld (Registry (settings (reg w)) (dset (cells (reg w)) id c) (hash_ring (reg w)))
    (evacuation_history w) (events w).

Definition tell (w : policy_world) (l : list policy_event) : policy_world :=
  PolicyWorld (reg w) (evacuation_history w) (events w ++ l).

(** The registry changes a state and announces it. *)
Definition change_state (w : policy_world) (now : Z) (id : string) (s : CellState) (reason : string) : policy_world :=
  let '(r, _, l) := set_cell_state (reg w) now id s reason in
  PolicyWorld r (evacuation_history w) (events w ++ (OfRegistry <$> l)).

Definition with_counts (m : cell_metadata) (below above : Z) : cell_metadata :=
  Metadata (last_state_change m) (last_state_change_time m) below above
    (evacuation_affected_services m) (evacuation_trigger_score m).

Definition with_change_time (m : cell_metadata) (t : Z) : cell_metadata :=
  Metadata (last_state_change m) (Some t) (evacuation_below_count m) (recovery_above_count m)
    (evacuation_affected_services m) (evacuation_trigger_score m).

(** [deque(maxlen=n).append] *)
Definition bounded_append {A} (n : nat) (l : list A) (x : A) : list A :=
  let l := l ++ [x] in drop (length l - n) l.

(** ** The limit on evacuated cells *)

(** [1.0 - active / total] *)
Definition evacuated_ratio (active total : Z) : float :=
  SFsub fl_prec fl_emax fl_one (fl_div (fl_of_Z active) (fl_of_Z total)).

Definition within_limit (ratio : float) (active total : Z) : bool := negb (fl_leb ratio (evacuated_ratio active total)).

(** [_check_global_evacuation_limit] *)
Definition check_global_evacuation_limit (r : registry) : bool :=
  let total := Zlength (cells r) in
  if total =? 0 then false
  else within_limit (max_evacuated_ratio cfg) (Zlength (get_active_cells r)) total.

(** ** Ticks *)

(** [_tick_active]; the clock is read twice. *)
Definition tick_active (w : policy_world) (now later : Z) (id : string) (score : float) (c : CellInfo) :
    policy_world * bool :=
  let m := metadata c in
  let threshold := evacuation_health_threshold cfg in
  if fl_leb score threshold then
    let below := evacuation_below_count m + 1 in
    let w1 := put_cell w id (with_metadata c (with_counts m below (recovery_above_count m))) in
    if below <? evacuation_consecutive_count cfg then (w1, false)
    else if negb (check_global_evacuation_limit (reg w1)) then (w1, false)
    else
      let reason := say (TooLow score threshold below) in
      let services := set_order (assigned_services c) in
      let m2 := Metadata (last_state_change m) (last_state_change_time m) 0 0 services (Some score) in
      let w2 := change_state (put_cell w1 id (with_metadata c m2)) now id DRAINING reason in
      let w3 := match dget (cells (reg w2)) id with
                | Some c => put_cell w2 id (with_metadata c (with_change_time (metadata c) later))
                | None => w2
                end in
      (PolicyWorld (reg w3)
         (bounded_append (evacuation_history_max_size cfg) (evacuation_history w3)
            (Evacuation id score now None reason services))
         (events w3 ++ [CELL_EVACUATION_STARTED id reason]), true)
  else if 0 <? evacuation_below_count m then (put_cell w id (with_metadata c (with_counts m 0 (recovery_above_count m))), false)
  else (w, false).

(** [_tick_draining] *)
Definition tick_draining (w : policy_world) (now later : Z) (id : string) (c : CellInfo) : policy_world * bool :=
  let m := metadata c in
  match last_state_change m with
  | Some (Some (StateChange _ DRAINING _)) =>
      match last_state_change_time m with
      | None => (put_cell w id (with_metadata c (with_change_time m now)), false)
      | Some started =>
          let elapsed := now - started in
          let required := evacuation_traffic_drain cfg + evacuation_drain_grace cfg in
          if elapsed <? required then (w, false)
          else
            let reason := say (Drained elapsed required) in
            let w := change_state (put_cell w id (with_metadata c (with_counts m 0 0))) later id ISOLATED reason in
            (tell w [CELL_EVACUATION_COMPLETED id;
                     NotifyIsolation id reason (isolation_notification_duration cfg);
                     NotifyBlastRadius id (evacuation_affected_services m)], true)
      end
  | _ => (tell w [CELL_EVACUATION_CANCELLED id "metadata_mismatch"], false)
  end.

(** [_complete_evacuation_record], newest first *)
Fixpoint complete_first (id : string) (now : Z) (newest_first : list EvacuationRecord) : list EvacuationRecord :=
  match newest_first with
  | [] => []
  | r :: l =>
      if bool_decide (evacuated r = id ∧ completed_at r = None)
      then Evacuation (evacuated r) (trigger_health_score r) (started_at r) (Some now) (evacuation_reason r) (affected_services r) :: l
      else r :: complete_first id now l
  end.

Definition complete_evacuation_record (w : policy_world) (id : string) (now : Z) : policy_world :=
  PolicyWorld (reg w) (reverse (complete_first id now (reverse (evacuation_history w)))) (events w).

(** [_tick_isolated] *)
Definition tick_isolated (w : policy_world) (now later : Z) (id : string) (score : float) (c : CellInfo) :
    policy_world * bool :=
  let m := metadata c in
  let threshold := recovery_health_threshold cfg in
  if fl_leb threshold score then
    let above := recovery_above_count m + 1 in
    if above <? recovery_consecutive_count cfg
    then (put_cell w id (with_metadata c (with_counts m (evacuation_below_count m) above)), false)
    else
      let w := change_state (put_cell w id (with_metadata c (with_counts m 0 0))) now id ACTIVE
                 (say (Healthy score threshold above)) in
      let w := complete_evacuation_record (tell w [NotifyRestore id]) id later in
      (tell w [CELL_RESTORED id "auto"], true)
  else if 0 <? recovery_above_count m then (put_cell w id (with_metadata c (with_counts m (evacuation_below_count m) 0)), false)
  else (w, false).

Definition evaluate (w : policy_world) (now later : Z) (id : string) (score : float) : policy_world * bool :=
  if negb (topology_enabled cfg) || negb (evacuation_enabled cfg) then (w, false)
  else
    match get_cell_info (reg w) id with
    | None => (w, false)
    | Some c =>
        match state c with
        | WARMUP => (w, false)
        | ACTIVE => tick_active w now later id score c
        | DRAINING => tick_draining w now later id c
        | ISOLATED => tick_isolated w now later id score c
        end
    end.

(** [restore_cell] *)
Definition restore_cell (w : policy_world) (now : Z) (id : string) : policy_world * bool :=
  if negb (topology_enabled cfg) then (w, false)
  else
    match get_cell_info (reg w) id with
    | None => (w, false)
    | Some c =>
        let w := change_state (put_cell w id (with_metadata c (with_counts (metadata c) 0 0))) now id ACTIVE
                   "Manual restoration" in
        (tell w ((if bool_decide (state c = DRAINING) then [CELL_EVACUATION_CANCELLED id "manual_restore"] else []) ++
                 [NotifyRestore id; CELL_RESTORED id "manual"]), true)
    end.

(** [_evaluate_evacuation_policy] of [health.py]: every cell with its score; each
    turn has its clock readings. *)
Fixpoint evaluate_all (w : policy_world) (turns : list (string * (Z * Z))) : policy_world :=
  match turns with
  | [] => w
  | (id, (now, later)) :: turns =>
      evaluate_all match dget (cells (reg w)) id with
                   | Some c => (evaluate w now later id (health_score c)).1
                   | None => w
                   end turns
  end.

Definition evaluate_evacuation_policy (w : policy_world) (clock : list (Z * Z)) : policy_world :=
  if evacuation_enabled cfg then evaluate_all w (zip (dkeys (cells (reg w))) clock) else w.
End policy.

(** ** The state machine *)

Definition cell_of (w : policy_world) (id : string) : option CellInfo := dget (cells (reg w)) id.

(** [c] in state [s], changed at [t]. *)
Definition moved (c : CellInfo) (s : CellState) (t t' : Z) (reason : string) (services : list string) (trigger : option float) :
    CellInfo :=
  with_metadata (with_state c s t)
    (Metadata (Some (Some (StateChange (state c) s reason))) (Some t') 0 0 services trigger).

Definition counted (c : CellInfo) (below above : Z) : CellInfo := with_metadata c (with_counts (metadata c) below above).

Notation below c := (evacuation_below_count (metadata c)).
Notation above c := (recovery_above_count (metadata c)).

Section machine.
  Context (cfg : evacuation_settings).
  Context (say : why → string) (set_order : gset string → list string).

Definition low (score : float) : Prop := fl_leb score (evacuation_health_threshold cfg) = true.
Definition well (score : float) : Prop := fl_leb (recovery_health_threshold cfg) score = true.

(** The last recorded change of the cell is to DRAINING. *)
Definition drain_marked (c : CellInfo) : Prop :=
  ∃ from reason, last_state_change (metadata c) = Some (Some (StateChange from DRAINING reason)).

Definition drain_time : Z := evacuation_traffic_drain cfg + evacuation_drain_grace cfg.

(** When a drain is over. *)
Definition drained (c : CellInfo) (now : Z) : Prop :=
  drain_marked c ∧ ∃ started, last_state_change_time (metadata c) = Some started ∧ drain_time <= now - started.

(** One tick of a cell: what it becomes and whether its state changed. *)
Inductive tick (limit : bool) (now later : Z) (score : float) (c : CellInfo) : CellInfo → bool → Prop :=
| tick_idle : state c = WARMUP → tick limit now later score c c false
| tick_low : state c = ACTIVE → low score → below c + 1 < evacuation_consecutive_count cfg ∨ limit = false →
    tick limit now later score c (counted c (below c + 1) (above c)) false
| tick_drain : state c = ACTIVE → low score → evacuation_consecutive_count cfg <= below c + 1 → limit = true →
    tick limit now later score c
      (moved c DRAINING now later (say (TooLow score (evacuation_health_threshold cfg) (below c + 1)))
         (set_order (assigned_services c)) (Some score)) true
| tick_fine : state c = ACTIVE → ¬ low score → tick limit now later score c (counted c (Z.min 0 (below c)) (above c)) false
| tick_waiting : state c = DRAINING → ¬ drained c now → ¬ (drain_marked c ∧ last_state_change_time (metadata c) = None) →
    tick limit now later score c c false
| tick_undated : state c = DRAINING → drain_marked c → last_state_change_time (metadata c) = None →
    tick limit now later score c (with_metadata c (with_change_time (metadata c) now)) false
| tick_isolate reason : state c = DRAINING → drained c now →
    tick limit now later score c
      (moved c ISOLATED later later reason (evacuation_affected_services (metadata c)) (evacuation_trigger_score (metadata c))) true
| tick_well : state c = ISOLATED → well score → above c + 1 < recovery_consecutive_count cfg →
    tick limit now later score c (counted c (below c) (above c + 1)) false
| tick_restore : state c = ISOLATED → well score → recovery_consecutive_count cfg <= above c + 1 →
    tick limit now later score c
      (moved c ACTIVE now now (say (Healthy score (recovery_health_threshold cfg) (above c + 1)))
         (evacuation_affected_services (metadata c)) (evacuation_trigger_score (metadata c))) true
| tick_sick : state c = ISOLATED → ¬ well score → tick limit now later score c (counted c (below c) (Z.min 0 (above c))) false.

Lemma counted_same c : counted c (below c) (above c) = c.
Proof. by destruct c as [? ? ? ? ? []]. Qed.

Lemma put_cell_of w id c x : cell_of (put_cell w id c) x = if decide (id = x) then Some c else cell_of w x.
Proof. unfold cell_of, put_cell. cbn. apply dget_dset. Qed.

(** What [set_cell_state] makes of a cell. *)
Definition changed (c : CellInfo) (s : CellState) (t : Z) (reason : string) : CellInfo :=
  with_metadata (with_state c s t)
    (Metadata (Some (Some (StateChange (state c) s reason))) (Some t) (below c) (above c)
       (evacuation_affected_services (metadata c)) (evacuation_trigger_score (metadata c))).

Lemma change_state_of w now id s reason x :
  cell_of (change_state w now id s reason) x =
    if decide (id = x) then (λ c, changed c s now reason) <$> cell_of w id else cell_of w x.
Proof.
  unfold cell_of, change_state, set_cell_state. destruct (dget (cells (reg w)) id) as [c|] eqn:E; cbn.
  - rewrite dget_dset. done.
  - case_decide; by subst.
Qed.

Lemma cell_of_reg w w' x : reg w = reg w' → cell_of w x = cell_of w' x.
Proof. unfold cell_of. by intros ->. Qed.

Lemma tell_of w l x : cell_of (tell w l) x = cell_of w x.
Proof. done. Qed.

(** ** How many cells are active *)

Definition active (r : registry) : Z := Zlength (get_active_cells r).

Definition is_active (kc : string * CellInfo) : bool := bool_decide (state kc.2 = ACTIVE).

Lemma active_count r : active r = countb is_active (cells r).
Proof.
  unfold active, get_active_cells, countb, Zlength. rewrite length_fmap. f_equal. generalize (cells r). intros l.
  induction l as [|kc l IH]; [done|]. rewrite (filter_cons (λ kc : string * CellInfo, state kc.2 = ACTIVE)).
  cbn [List.filter]. unfold is_active at 1.
  destruct (decide (state kc.2 = ACTIVE)); [rewrite bool_decide_true by done|rewrite bool_decide_false by done]; [|exact IH].
  cbn [length]. by f_equal.
Qed.

Definition b2z (b : bool) : Z := if b then 1 else 0.

Lemma countb_dset (p : string * CellInfo → bool) d k v v' :
  dget d k = Some v → countb p (dset d k v') + b2z (p (k, v)) = countb p d + b2z (p (k, v')).
Proof.
  induction d as [|[k1 v1] d IH]; cbn; [done|]. case_decide as Hk; [intros [= ->]; subst k1|intros Hg].
  - rewrite !countb_cons. unfold b2z. lia.
  - rewrite !countb_cons. specialize (IH Hg). lia.
Qed.

Lemma length_dset (d : dict string CellInfo) k v v' : dget d k = Some v → length (dset d k v') = length d.
Proof.
  intros H. rewrite <-(length_fmap fst (dset d k v')), <-(length_fmap fst d).
  change (length (dkeys (dset d k v')) = length (dkeys d)). by rewrite dkeys_dset_Some by eauto.
Qed.

(** The size of the fleet and its active cells after a cell changed. *)
Definition fleet (w : policy_world) : Z * Z := (active (reg w), Zlength (cells (reg w))).

Lemma fleet_put w id c c' :
  cell_of w id = Some c →
  fleet (put_cell w id c') =
    ((fleet w).1 + b2z (bool_decide (state c' = ACTIVE)) - b2z (bool_decide (state c = ACTIVE)), (fleet w).2).
Proof.
  unfold cell_of, fleet. intros Hg. rewrite !active_count. cbn. f_equal.
  - pose proof (countb_dset is_active _ _ _ c' Hg). unfold is_active in *. cbn in *. lia.
  - unfold Zlength. by rewrite (length_dset _ _ _ c' Hg).
Qed.

Lemma fleet_change w now id s reason c :
  cell_of w id = Some c →
  fleet (change_state w now id s reason) =
    ((fleet w).1 + b2z (bool_decide (s = ACTIVE)) - b2z (bool_decide (state c = ACTIVE)), (fleet w).2).
Proof.
  intros Hg. transitivity (fleet (put_cell w id (changed c s now reason))); [|by apply fleet_put]. unfold change_state, set_cell_state.
  unfold cell_of in Hg. rewrite Hg. done.
Qed.

Lemma limit_of_fleet w :
  check_global_evacuation_limit cfg (reg w) =
    negb ((fleet w).2 =? 0) && within_limit (max_evacuated_ratio cfg) (fleet w).1 (fleet w).2.
Proof. unfold check_global_evacuation_limit, fleet. cbn [fst snd]. by destruct (Zlength (cells (reg w)) =? 0). Qed.

Lemma limit_put w id c c' :
  cell_of w id = Some c → state c' = state c →
  check_global_evacuation_limit cfg (reg (put_cell w id c')) = check_global_evacuation_limit cfg (reg w).
Proof.
  intros Hg Hs. rewrite !limit_of_fleet, (fleet_put w id c c' Hg), Hs. cbn [fst snd]. by rewrite Z.add_simpl_r.
Qed.

(** From [w] to [w'] only the cell [id] changed, from [c] to [c']. *)
Definition act (c : CellInfo) : Z := b2z (bool_decide (state c = ACTIVE)).

Record effect (w w' : policy_world) (id : string) (c c' : CellInfo) : Prop := {
  ef_cell : cell_of w' id = Some c';
  ef_other : ∀ x, x ≠ id → cell_of w' x = cell_of w x;
  ef_ring : hash_ring (reg w') = hash_ring (reg w);
  ef_settings : settings (reg w') = settings (reg w);
  ef_keys : dkeys (cells (reg w')) = dkeys (cells (reg w));
  ef_fleet : fleet w' = ((fleet w).1 + act c' - act c, (fleet w).2) }.

Lemma effect_refl w id c : cell_of w id = Some c → effect w w id c c.
Proof. intros H. split; [done..|]. rewrite Z.add_simpl_r. by destruct (fleet w). Qed.

Lemma effect_put w id c c' : cell_of w id = Some c → effect w (put_cell w id c') id c c'.
Proof.
  intros Hg. split; [by rewrite put_cell_of, decide_True| |done|done| |by apply fleet_put].
  2:{ apply dkeys_dset_Some. unfold cell_of in Hg. eauto. }
  intros x Hx. rewrite put_cell_of, decide_False; congruence.
Qed.

Lemma effect_change w now id s reason c :
  cell_of w id = Some c → effect w (change_state w now id s reason) id c (changed c s now reason).
Proof.
  intros Hg. split; [by rewrite change_state_of, decide_True, Hg| | | | |by apply fleet_change].
  - intros x Hx. rewrite change_state_of, decide_False; congruence.
  - unfold change_state, set_cell_state. unfold cell_of in Hg. by rewrite Hg.
  - unfold change_state, set_cell_state. unfold cell_of in Hg. by rewrite Hg.
  - unfold change_state, set_cell_state. unfold cell_of in Hg. rewrite Hg. apply dkeys_dset_Some. eauto.
Qed.

Lemma effect_trans w1 w2 w3 id c1 c2 c3 :
  effect w1 w2 id c1 c2 → effect w2 w3 id c2 c3 → effect w1 w3 id c1 c3.
Proof.
  intros [H1 H2 H3 Hs1 Hk1 H4] [H5 H6 H7 Hs2 Hk2 H8]. split; [done| |congruence..|].
  - intros x Hx. rewrite H6; auto.
  - rewrite H8, H4. cbn [fst snd]. f_equal. lia.
Qed.

Lemma effect_same w1 w2 w3 id c c' : effect w1 w2 id c c' → reg w3 = reg w2 → effect w1 w3 id c c'.
Proof.
  intros [H1 H2 H3 Hs Hk H4] H. split; [by rewrite (cell_of_reg w3 w2)| |congruence..|unfold fleet in *; congruence].
  intros x Hx. rewrite (cell_of_reg w3 w2); auto.
Qed.

(** Counters set, then the state changed. *)
Lemma effect_move w id c m now s reason :
  cell_of w id = Some c →
  effect w (change_state (put_cell w id (with_metadata c m)) now id s reason) id c (changed (with_metadata c m) s now reason).
Proof.
  intros Hg. eapply effect_trans; [by apply effect_put|]. apply effect_change. by rewrite put_cell_of, decide_True.
Qed.

Lemma tick_active_ok w now later id score c :
  cell_of w id = Some c → state c = ACTIVE →
  let '(w', b) := tick_active cfg say set_order w now later id score c in
  ∃ c', effect w w' id c c' ∧ tick (check_global_evacuation_limit cfg (reg w)) now later score c c' b.
Proof.
  intros Hg Hs. unfold tick_active. destruct (fl_leb score _) eqn:Hlow.
  - set (c1 := with_metadata c (with_counts _ _ _)). pose proof (effect_put w id c c1 Hg) as He1.
    rewrite (limit_put w id c c1 Hg) by done.
    destruct (Z.ltb_spec (below c + 1) (evacuation_consecutive_count cfg)) as [Hn|Hn].
    { exists c1. split; [done|]. apply tick_low; auto. }
    destruct (check_global_evacuation_limit cfg (reg w)) eqn:Hl; cbn [negb].
    2:{ exists c1. split; [done|]. apply tick_low; auto. }
    set (m2 := Metadata _ _ 0 0 _ _). set (w1 := put_cell w id c1) in *.
    pose proof (effect_move w1 id c1 m2 now DRAINING
      (say (TooLow score (evacuation_health_threshold cfg) (below c + 1))) (ef_cell _ _ _ _ _ He1)) as He2.
    change (with_metadata c1 m2) with (with_metadata c m2) in *. set (w2 := change_state _ _ _ _ _) in *.
    change (dget (cells (reg w2)) id) with (cell_of w2 id). rewrite (ef_cell _ _ _ _ _ He2). cbv beta iota.
    set (c3 := with_metadata (changed _ _ _ _) (with_change_time _ later)). exists c3. split.
    + eapply effect_same; [eapply effect_trans; [exact He1|eapply effect_trans; [exact He2|]]|];
        [eapply effect_put, He2|reflexivity].
    + apply (tick_drain true now later score c Hs Hlow Hn eq_refl).
  - assert (¬ low score) as Hnl by (unfold low; congruence).
    pose proof (tick_fine (check_global_evacuation_limit cfg (reg w)) now later score c Hs Hnl) as Ht.
    destruct (Z.ltb_spec 0 (below c)).
    + rewrite Z.min_l in Ht by lia. eexists. split; [by apply effect_put|exact Ht].
    + rewrite Z.min_r, counted_same in Ht by lia. exists c. split; [by apply effect_refl|exact Ht].
Qed.

Lemma tick_draining_ok limit w now later id score c :
  cell_of w id = Some c → state c = DRAINING →
  let '(w', b) := tick_draining cfg say w now later id c in
  ∃ c', effect w w' id c c' ∧ tick limit now later score c c' b.
Proof.
  intros Hg Hs. unfold tick_draining. pose proof (effect_refl w id c Hg) as Hid.
  destruct (last_state_change (metadata c)) as [[[from [] reason]|]|] eqn:Hch;
    try (exists c; split; [by eapply effect_same|apply tick_waiting; [done|..]];
      [intros [(? & ? & Hd) _]; congruence|intros [(? & ? & Hd) _]; congruence]).
  assert (drain_marked c) as Hm by (by exists from, reason).
  destruct (last_state_change_time (metadata c)) as [started|] eqn:Ht.
  2:{ eexists. split; [by apply effect_put|]. by apply tick_undated. }
  destruct (Z.ltb_spec (now - started) (evacuation_traffic_drain cfg + evacuation_drain_grace cfg)) as [Hlt|Hge].
  { exists c. split; [done|]. apply tick_waiting; [done| |intros [_ ?]; congruence].
    intros [_ (s' & Hd & ?)]. unfold drain_time in *. simplify_eq. lia. }
  set (r := say _). eexists. split.
  - eapply effect_same; [exact (effect_move w id c (with_counts (metadata c) 0 0) later ISOLATED r Hg)|done].
  - apply (tick_isolate limit now later score c r Hs). split; [done|]. by exists started.
Qed.

Lemma tick_isolated_ok limit w now later id score c :
  cell_of w id = Some c → state c = ISOLATED →
  let '(w', b) := tick_isolated cfg say w now later id score c in
  ∃ c', effect w w' id c c' ∧ tick limit now later score c c' b.
Proof.
  intros Hg Hs. unfold tick_isolated. destruct (fl_leb _ score) eqn:Hw.
  - destruct (Z.ltb_spec (above c + 1) (recovery_consecutive_count cfg)) as [Hn|Hn].
    { eexists. split; [by apply effect_put|]. by apply tick_well. }
    set (r := say _). eexists. split; [|by apply tick_restore].
    eapply effect_same; [exact (effect_move w id c (with_counts (metadata c) 0 0) now ACTIVE r Hg)|done].
  - assert (¬ well score) as Hnw by (unfold well; congruence).
    pose proof (tick_sick limit now later score c Hs Hnw) as Ht. destruct (Z.ltb_spec 0 (above c)).
    + rewrite Z.min_l in Ht by lia. eexists. split; [by apply effect_put|exact Ht].
    + rewrite Z.min_r, counted_same in Ht by lia. exists c. split; [by apply effect_refl|exact Ht].
Qed.

Definition running : bool := topology_enabled cfg && evacuation_enabled cfg.

(** What an evaluation does to its cell, in terms of the machine. *)
Lemma evaluate_ok w now later id score :
  let '(w', b) := evaluate cfg say set_order w now later id score in
  match cell_of w id with
  | Some c =>
      if running then ∃ c', effect w w' id c c' ∧ tick (check_global_evacuation_limit cfg (reg w)) now later score c c' b
      else w' = w ∧ b = false
  | None => w' = w ∧ b = false
  end.
Proof.
  unfold evaluate, running. destruct (topology_enabled cfg), (evacuation_enabled cfg); cbn [negb orb andb];
    try (by destruct (cell_of w id)).
  change (get_cell_info (reg w) id) with (cell_of w id). destruct (cell_of w id) as [c|] eqn:E; [|done].
  destruct (state c) eqn:Hs.
  - by apply tick_active_ok.
  - exists c. split; [by apply effect_refl|]. by apply tick_idle.
  - by apply tick_draining_ok.
  - by apply tick_isolated_ok.
Qed.
Lemma tick_edge limit now later score c c' b :
  tick limit now later score c c' b →
  b = bool_decide (state c' ≠ state c) ∧
  (b = true → (state c, state c') ∈ [(ACTIVE, DRAINING); (DRAINING, ISOLATED); (ISOLATED, ACTIVE)]).
Proof. intros Ht. destruct Ht; cbn in *; split; try (by rewrite H); try done; rewrite ?H; set_solver. Qed.

(** An evaluation does to its cell exactly what the state machine says, ACTIVE to
    DRAINING to ISOLATED to ACTIVE and no other way, reports whether the state
    changed, and leaves every other cell and the ring alone; a cell that is not
    known, and every cell while the policy is off, stays as it is. *)
Theorem evaluation_follows_machine w now later id score :
  let '(w', b) := evaluate cfg say set_order w now later id score in
  match cell_of w id with
  | Some c =>
      if running then ∃ c', effect w w' id c c' ∧ tick (check_global_evacuation_limit cfg (reg w)) now later score c c' b ∧
        b = bool_decide (state c' ≠ state c) ∧
        (b = true → (state c, state c') ∈ [(ACTIVE, DRAINING); (DRAINING, ISOLATED); (ISOLATED, ACTIVE)])
      else w' = w ∧ b = false
  | None => w' = w ∧ b = false
  end.
Proof.
  pose proof (evaluate_ok w now later id score) as H. destruct (evaluate _ _ _ _ _ _ _ _) as [w' b].
  destruct (cell_of w id) as [c|]; [|done]. destruct running; [|done]. destruct H as (c' & He & Ht).
  exists c'. split; [done|]. split; [done|]. by eapply tick_edge.
Qed.
End machine.

(** ** Histories *)

Inductive policy_op : Type :=
| Evaluate (now later : Z) (id : string) (score : float)
| RestoreCell (now : Z) (id : string)
| OnRegistry (o : registry_op).

Section runs.
  Context (hash : string → Z) (cfg : evacuation_settings).
  Context (say : why → string) (set_order : gset string → list string).

Definition with_registry (w : policy_world) (r : registry) : policy_world :=
  PolicyWorld r (evacuation_history w) (events w).

Definition apply_policy_op (w : policy_world) (o : policy_op) : policy_world :=
  match o with
  | Evaluate now later id score => (evaluate cfg say set_order w now later id score).1
  | RestoreCell now id => (restore_cell cfg w now id).1
  | OnRegistry o => with_registry w (apply_registry_op hash (reg w) o)
  end.

Definition policy_after (w : policy_world) (ops : list policy_op) : policy_world := foldl apply_policy_op w ops.

Lemma policy_after_snoc w ops o : policy_after w (ops ++ [o]) = apply_policy_op (policy_after w ops) o.
Proof. apply foldl_snoc. Qed.

(** *** What operations leave of a cell's counters *)

(** An operation that judges no cell keeps a cell's counters or has them at zero. *)
Definition quiet (cs cs' : dict string CellInfo) : Prop :=
  ∀ id c', dget cs' id = Some c' →
    (∃ c, dget cs id = Some c ∧ below c' = below c ∧ above c' = above c) ∨ below c' = 0 ∧ above c' = 0.

Lemma quiet_refl cs : quiet cs cs.
Proof. intros id c' H. left. eauto. Qed.

Lemma quiet_trans cs1 cs2 cs3 : quiet cs1 cs2 → quiet cs2 cs3 → quiet cs1 cs3.
Proof.
  intros H12 H23 id c3 H3. destruct (H23 id c3 H3) as [(c2 & H2 & E1 & E2)|?]; [|by right].
  destruct (H12 id c2 H2) as [(c1 & H1 & E3 & E4)|[? ?]]; [|right; lia]. left. exists c1. split_and!; [done|lia|lia].
Qed.

Lemma quiet_put cs id c c' :
  dget cs id = Some c → below c' = below c ∧ above c' = above c ∨ below c' = 0 ∧ above c' = 0 →
  quiet cs (dset cs id c').
Proof.
  intros Hg Hc x cx. rewrite dget_dset. case_decide as Hx; [|left; eauto]. subst x. intros [= <-].
  destruct Hc as [[? ?]|?]; [left; eauto|by right].
Qed.

Lemma grow_cells (f : string → CellInfo) l cs id c :
  dget (foldl (λ cs id, dset cs id (f id)) cs l) id = Some c → dget cs id = Some c ∨ c = f id.
Proof.
  revert cs. induction l as [|x l IH]; intros cs; cbn; [by left|]. intros [H| ->]%IH; [|by right].
  rewrite dget_dset in H. case_decide; subst; [right; congruence|by left].
Qed.

Lemma accept_counts c d : let c' := (accept_l2 c d).1 in below c' = below c ∧ above c' = above c.
Proof. unfold accept_l2, apply_l2_metadata. by destruct (l2_health d), (l2_warmup d), (l2_change d), (l2_change_time d). Qed.

Lemma l2_counts c d : let c' := (apply_l2_dict c d).1 in below c' = below c ∧ above c' = above c.
Proof.
  unfold apply_l2_dict, apply_mrw_only.
  repeat (case_match; try done); match goal with |- context [accept_l2 ?c ?d] => apply (accept_counts c d) end.
Qed.

Lemma set_state_quiet r now id st reason : quiet (cells r) (cells (set_cell_state r now id st reason).1.1).
Proof.
  unfold set_cell_state. destruct (dget (cells r) id) as [c|] eqn:E; [|apply quiet_refl].
  apply (quiet_put _ _ c); [done|by left].
Qed.

Lemma load_quiet hgetall r ids : quiet (cells r) (cells (load_all_states hgetall r ids).1).
Proof.
  revert r. induction ids as [|id ids IH]; intros r; cbn; [apply quiet_refl|].
  destruct (hgetall id) as [d|]; [|apply IH]. destruct (dget (cells r) id) as [c|] eqn:E; [|apply IH].
  pose proof (l2_counts c d) as Hc. destruct (apply_l2_dict c d) as [c' res]. cbn [fst] in Hc.
  assert (quiet (cells r) (dset (cells r) id c')) as Hq by (apply (quiet_put _ _ c); [done|by left]).
  destruct res; [done|]. specialize (IH (Registry (settings r) (dset (cells r) id c') (hash_ring r))).
  destruct (load_all_states _ _ _). by eapply quiet_trans.
Qed.

Lemma registry_op_quiet r o : quiet (cells r) (cells (apply_registry_op hash r o)).
Proof.
  destruct o as [now id st reason|id score|service|id expired|now count|ids|hgetall|hgetall id]; cbn [apply_registry_op].
  - apply set_state_quiet.
  - unfold update_health_score. destruct (dget _ id) as [c|] eqn:E; [|apply quiet_refl].
    apply (quiet_put _ _ c); [done|by left].
  - unfold assign_service. destruct (dget _ _) as [c|] eqn:E; [|apply quiet_refl]. apply (quiet_put _ _ c); [done|by left].
  - unfold evict_expired_services. destruct (dget _ id) as [c|] eqn:E; [|apply quiet_refl].
    apply (quiet_put _ _ c); [done|by left].
  - intros x cx [Hx|Hx]%grow_cells; [left; eauto|]. right. by subst.
  - revert r. induction ids as [|[now id] ids IH]; intros r; cbn; [apply quiet_refl|].
    pose proof (set_state_quiet r now id DRAINING "scale_in") as Hq.
    destruct (set_cell_state _ _ _ _ _) as [[r1 ok] l]. specialize (IH r1). cbn [fst] in *.
    destruct (remove_cells r1 ids) as [[r2 dr] l']. by eapply quiet_trans.
  - apply load_quiet.
  - unfold load_single_state. destruct (hgetall id) as [d|]; [|apply quiet_refl].
    destruct (dget _ id) as [c|] eqn:E; [|apply quiet_refl]. pose proof (l2_counts c d) as Hc.
    destruct (apply_l2_dict c d) as [c' res]. apply (quiet_put _ _ c); [done|by left].
Qed.

Lemma other_ops_quiet w o :
  (∀ now later id score, o ≠ Evaluate now later id score) →
  quiet (cells (reg w)) (cells (reg (apply_policy_op w o))).
Proof.
  intros Ho. destruct o as [|now id|o]; [naive_solver|..]; cbn [apply_policy_op].
  - unfold restore_cell. destruct (negb _); [apply quiet_refl|]. change (get_cell_info (reg w) id) with (cell_of w id).
    destruct (cell_of w id) as [c|] eqn:E; [|apply quiet_refl]. intros x cx. cbn [fst].
    change (dget (cells (reg (tell ?v _))) x) with (cell_of v x). rewrite change_state_of, !put_cell_of.
    case_decide as Hx; [rewrite decide_True by done; intros [= <-]; by right|left; eauto].
  - apply registry_op_quiet.
Qed.

(** ** Hysteresis *)

(** The scores a cell was evaluated with while its state was [st]. *)
Definition judged_by (st : CellState) (id : string) (w : policy_world) (o : policy_op) : list float :=
  match o with
  | Evaluate _ _ x score => if decide (x = id ∧ state <$> cell_of w id = Some st) then [score] else []
  | _ => []
  end.

Fixpoint judged (st : CellState) (id : string) (w : policy_world) (ops : list policy_op) : list float :=
  match ops with
  | [] => []
  | o :: ops => judged_by st id w o ++ judged st id (apply_policy_op w o) ops
  end.

Lemma judged_snoc st id w ops o :
  judged st id w (ops ++ [o]) = judged st id w ops ++ judged_by st id (policy_after w ops) o.
Proof.
  revert w. induction ops as [|o' ops IH]; intros w; cbn [judged app]; [by rewrite app_nil_r|].
  rewrite IH, (assoc_L (++)). done.
Qed.

(** The last [n] scores satisfy [P]. *)
Definition streak (P : float → Prop) (l : list float) (n : Z) : Prop :=
  ∃ earlier recent, l = earlier ++ recent ∧ Zlength recent = n ∧ Forall P recent.

Lemma streak_zero P l : streak P l 0.
Proof. exists l, []. by rewrite app_nil_r. Qed.

Lemma streak_snoc P l n x : streak P l n → P x → streak P (l ++ [x]) (n + 1).
Proof.
  intros (earlier & recent & -> & <- & Hr) Hx. exists earlier, (recent ++ [x]). rewrite <-(assoc_L (++)), Zlength_app.
  split_and!; [done|done|]. by apply Forall_app_2; [|constructor].
Qed.

(** The counters are lengths of streaks, in the state they belong to. *)
Record counters_ok (w : policy_world) (ops : list policy_op) (id : string) (c : CellInfo) : Prop := {
  co_below : 0 <= below c ∧ streak (low cfg) (judged ACTIVE id w ops) (below c);
  co_above : 0 <= above c ∧ streak (well cfg) (judged ISOLATED id w ops) (above c) }.

Definition counting (w : policy_world) (ops : list policy_op) : Prop :=
  ∀ id c, cell_of (policy_after w ops) id = Some c → counters_ok w ops id c.

Lemma counters_zero w ops id c : below c = 0 → above c = 0 → counters_ok w ops id c.
Proof. intros Hb Ha. split; rewrite ?Hb, ?Ha; (split; [lia|apply streak_zero]). Qed.

Lemma judged_evaluate st id w ops now later score c :
  cell_of (policy_after w ops) id = Some c →
  judged st id w (ops ++ [Evaluate now later id score]) =
    judged st id w ops ++ (if decide (state c = st) then [score] else []).
Proof.
  intros Hc. rewrite judged_snoc. f_equal. unfold judged_by. rewrite Hc. cbn.
  destruct (decide (state c = st)) as [->|Hne]; [by rewrite decide_True|]. rewrite decide_False; naive_solver.
Qed.

Lemma tick_counts limit now later score c c' b w ops id :
  cell_of (policy_after w ops) id = Some c →
  tick cfg say set_order limit now later score c c' b → counters_ok w ops id c →
  counters_ok w (ops ++ [Evaluate now later id score]) id c'.
Proof.
  intros Hc Ht [[B1 B2] [A1 A2]]. pose proof (λ st, judged_evaluate st id w ops now later score c Hc) as Hj.
  assert (∀ st, state c ≠ st → judged st id w (ops ++ [Evaluate now later id score]) = judged st id w ops) as Hskip.
  { intros st Hst. by rewrite Hj, decide_False, app_nil_r. }
  assert (∀ st, state c = st → judged st id w (ops ++ [Evaluate now later id score]) = judged st id w ops ++ [score]) as Htake.
  { intros st Hst. by rewrite Hj, decide_True. }
  destruct Ht as [Hst|Hst Hl _|Hst Hl _ _|Hst Hl|Hst _ _|Hst _ _|r Hst _|Hst Hw _|Hst Hw _|Hst Hw];
    try (by apply counters_zero).
  - by split; rewrite Hskip by congruence.
  - split; cbn; [rewrite Htake by done; split; [lia|by apply streak_snoc]|by rewrite Hskip by congruence].
  - split; cbn; [rewrite Z.min_l by lia; split; [lia|apply streak_zero]|by rewrite Hskip by congruence].
  - by split; rewrite Hskip by congruence.
  - by split; cbn; rewrite Hskip by congruence.
  - split; cbn; [by rewrite Hskip by congruence|rewrite Htake by done; split; [lia|by apply streak_snoc]].
  - split; cbn; [by rewrite Hskip by congruence|rewrite Z.min_l by lia; split; [lia|apply streak_zero]].
Qed.

Lemma counting_quiet w ops o :
  (∀ now later id score, o ≠ Evaluate now later id score) → counting w ops → counting w (ops ++ [o]).
Proof.
  intros Ho Hc id c' Hc'. rewrite policy_after_snoc in Hc'.
  assert (∀ st, judged st id w (ops ++ [o]) = judged st id w ops) as Hs.
  { intros st. rewrite judged_snoc. destruct o; [naive_solver|by rewrite app_nil_r..]. }
  destruct (other_ops_quiet _ o Ho id c' Hc') as [(c & Hg & Hb & Ha)|[Hb Ha]]; [|by apply counters_zero].
  destruct (Hc id c Hg) as [B A]. by split; rewrite ?Hb, ?Ha, Hs.
Qed.

Lemma counting_step w ops o : running cfg = true → counting w ops → counting w (ops ++ [o]).
Proof.
  intros Hrun Hc. destruct o as [now later id score| |]; [|by apply counting_quiet..].
  intros x cx. rewrite policy_after_snoc. cbn [apply_policy_op]. set (v := policy_after w ops).
  pose proof (evaluate_ok cfg say set_order v now later id score) as He.
  destruct (evaluate _ _ _ _ _ _ _ _) as [w' b]. cbn [fst]. rewrite Hrun in He. intros Hx.
  destruct (decide (x = id)) as [->|Hne].
  - destruct (cell_of v id) as [c|] eqn:E; [|destruct He as [-> _]; congruence].
    destruct He as (c' & Hef & Ht). rewrite (ef_cell _ _ _ _ _ Hef) in Hx. injection Hx as <-.
    eapply tick_counts; [done|done|]. by apply Hc.
  - assert (cell_of v x = Some cx) as Hg.
    { destruct (cell_of v id) as [c|]; [|destruct He as [-> _]; done].
      destruct He as (c' & Hef & _). by rewrite <-(ef_other _ _ _ _ _ Hef x Hne). }
    assert (∀ st, judged st x w (ops ++ [Evaluate now later id score]) = judged st x w ops) as Hs.
    { intros st. rewrite judged_snoc. unfold judged_by. rewrite decide_False, app_nil_r; naive_solver. }
    destruct (Hc x cx Hg) as [B A]. by split; rewrite Hs.
Qed.

Lemma counting_after w ops : running cfg = true → counting w [] → counting w ops.
Proof. intros Hrun H0. induction ops as [|o ops IH] using rev_ind; [done|]. by apply counting_step. Qed.

Definition fresh_cells (w : policy_world) : Prop := ∀ id c, cell_of w id = Some c → below c = 0 ∧ above c = 0.

(** C24: No cell is evacuated or restored on a whim: in any history from a fleet
    whose counters are at zero, of evaluations, manual restorations and every
    operation of the registry (states set or loaded from the shared store, scores,
    heartbeats, cells added and removed), an evaluation that starts draining a cell
    is the last of at least as many consecutive evaluations at or below the
    threshold as configured, and one that restores it the last of enough at or
    above the recovery threshold; consecutive among the evaluations made while the
    cell was active, respectively isolated. *)
Theorem evacuation_needs_streak w ops now later id score c :
  fresh_cells w → cell_of (policy_after w ops) id = Some c →
  let '(w', b) := evaluate cfg say set_order (policy_after w ops) now later id score in
  b = true →
  (state c = ACTIVE → ∃ n, evacuation_consecutive_count cfg <= n ∧ streak (low cfg) (judged ACTIVE id w ops ++ [score]) n) ∧
  (state c = ISOLATED → ∃ n, recovery_consecutive_count cfg <= n ∧ streak (well cfg) (judged ISOLATED id w ops ++ [score]) n).
Proof.
  intros Hfresh Hc. pose proof (evaluate_ok cfg say set_order (policy_after w ops) now later id score) as He.
  rewrite Hc in He. destruct (evaluate _ _ _ _ _ _ _ _) as [w' b]. intros ->.
  destruct (running cfg) eqn:Hrun; [|by destruct He]. destruct He as (c' & _ & Ht).
  assert (counting w []) as H0.
  { intros x cx Hx. destruct (Hfresh x cx Hx) as [Hb Ha]. by apply counters_zero. }
  destruct (counting_after w ops Hrun H0 id c Hc) as [[_ B] [_ A]].
  inversion Ht as [| |Hst Hl Hn| | | |r Hst|Hst Hw Hn|Hst Hw Hn|]; subst; split; intros Hs; try congruence.
  - exists (below c + 1). split; [done|]. by apply streak_snoc.
  - exists (above c + 1). split; [done|]. by apply streak_snoc.
Qed.

(** ** A drain takes its time *)

(** Operations that leave the state of the cell [id] to the policy. *)
Definition spares (id : string) (o : policy_op) : Prop :=
  match o with
  | Evaluate _ _ _ _ => True
  | RestoreCell _ x => x ≠ id
  | OnRegistry o =>
      match o with
      | SetState _ x _ _ => x ≠ id
      | RemoveCells ids => id ∉ ids.*2
      | LoadAll hgetall => hgetall id = None
      | LoadSingle hgetall x => x ≠ id ∨ hgetall id = None
      | _ => True
      end
  end.

(** The cell drains since [t]. *)
Definition draining_since (t : Z) (oc : option CellInfo) : Prop :=
  ∃ c, oc = Some c ∧ state c = DRAINING ∧ drain_marked c ∧ last_state_change_time (metadata c) = Some t.

Lemma set_state_other r now x st reason id :
  x ≠ id → dget (cells (set_cell_state r now x st reason).1.1) id = dget (cells r) id.
Proof. intros Hne. unfold set_cell_state. destruct (dget (cells r) x); [|done]. by apply dget_dset_ne. Qed.

Lemma remove_other r ids id : id ∉ ids.*2 → dget (cells (remove_cells r ids).1.1) id = dget (cells r) id.
Proof.
  revert r. induction ids as [|[now x] ids IH]; intros r Hid; cbn; [done|]. cbn in Hid.
  pose proof (set_state_other r now x DRAINING "scale_in" id ltac:(set_solver)) as H1.
  destruct (set_cell_state _ _ _ _ _) as [[r1 ok] l]. specialize (IH r1 ltac:(set_solver)). cbn [fst] in *.
  destruct (remove_cells r1 ids) as [[r2 dr] l']. cbn in *. congruence.
Qed.

Lemma load_other hgetall r ids id : hgetall id = None → dget (cells (load_all_states hgetall r ids).1) id = dget (cells r) id.
Proof.
  intros Hn. revert r. induction ids as [|x ids IH]; intros r; cbn; [done|].
  destruct (hgetall x) as [d|] eqn:Hx; [|apply IH]. destruct (dget (cells r) x) as [c|]; [|apply IH].
  assert (x ≠ id) as Hne by congruence. destruct (apply_l2_dict c d) as [c' res].
  destruct res; cbn; [by rewrite dget_dset_ne|].
  specialize (IH (Registry (settings r) (dset (cells r) x c') (hash_ring r))). destruct (load_all_states _ _ _).
  cbn in *. by rewrite IH, dget_dset_ne.
Qed.

(** Scores and services of the cell may change. *)
Lemma draining_put t (cs : dict string CellInfo) x c0 c id :
  dget cs x = Some c0 → state c = state c0 → metadata c = metadata c0 →
  draining_since t (dget cs id) → draining_since t (dget (dset cs x c) id).
Proof.
  intros Hx Hs Hm (ci & Hi & H1 & H2 & H3). rewrite dget_dset. case_decide as Hd; [|by exists ci]. subst x.
  rewrite Hx in Hi. injection Hi as ->. exists c. unfold drain_marked in *. rewrite Hs, Hm. done.
Qed.

Lemma registry_op_spares s t r o id :
  registry_ok hash s r → spares id (OnRegistry o) →
  draining_since t (dget (cells r) id) → draining_since t (dget (cells (apply_registry_op hash r o)) id).
Proof.
  intros Hok Hsp Hd. destruct o as [now x st reason|x score|service|x expired|now count|ids|hgetall|hgetall x];
    cbn [apply_registry_op spares] in *.
  - by rewrite set_state_other.
  - unfold update_health_score. destruct (dget _ x) as [c|] eqn:E; [|done]. by eapply draining_put.
  - unfold assign_service. destruct (dget _ (get_cell_for_key hash r service)) as [c|] eqn:E; [|done].
    by eapply draining_put.
  - unfold evict_expired_services. destruct (dget _ x) as [c|] eqn:E; [|done]. by eapply draining_put.
  - cbn. rewrite (dget_put_other hash); [done|]. intros Hin. destruct Hd as (c & Hc & _).
    pose proof (add_cells_keys hash s r now count Hok) as Hk. pose proof (add_cells_ok hash s r now count Hok) as Hok'.
    assert (NoDup (dkeys (cells r) ++ (add_cells hash r now count).1.2)) as Hnd.
    { rewrite <-Hk, (rk_names _ _ _ Hok'). apply names_NoDup. }
    apply NoDup_app in Hnd as (_ & Hdis & _). apply (Hdis id); [apply elem_of_dkeys; eauto|done].
  - by rewrite remove_other.
  - by rewrite load_other.
  - unfold load_single_state. destruct (hgetall x) as [d|] eqn:Hx; [|done].
    destruct (dget (cells r) x) as [c|] eqn:E; [|done]. destruct (apply_l2_dict c d) as [c' res]. cbn.
    rewrite dget_dset_ne; [done|]. destruct Hsp; congruence.
Qed.

(** The registry stays well formed. *)
Lemma effect_ok s w w' id c c' : effect w w' id c c' → registry_ok hash s (reg w) → registry_ok hash s (reg w').
Proof. intros [_ _ H1 H2 H3 _] Hok. by apply (same_names_ok hash s (reg w)). Qed.

Lemma policy_op_ok s w o : registry_ok hash s (reg w) → registry_ok hash s (reg (apply_policy_op w o)).
Proof.
  intros Hok. destruct o as [now later id score|now id|o]; cbn [apply_policy_op].
  - pose proof (evaluate_ok cfg say set_order w now later id score) as He. destruct (evaluate _ _ _ _ _ _ _ _) as [w' b].
    cbn [fst]. destruct (cell_of w id) as [c|]; [|by destruct He as [-> _]].
    destruct (running cfg); [|by destruct He as [-> _]]. destruct He as (c' & Hef & _). by eapply effect_ok.
  - unfold restore_cell. destruct (negb _); [done|]. change (get_cell_info (reg w) id) with (cell_of w id).
    destruct (cell_of w id) as [c|] eqn:E; [|done]. cbn [fst].
    eapply (effect_ok s w); [|done]. eapply effect_same; [by apply effect_move|done].
  - by apply apply_registry_op_ok.
Qed.

Lemma policy_after_ok s w ops : registry_ok hash s (reg w) → registry_ok hash s (reg (policy_after w ops)).
Proof. intros Hok. induction ops as [|o ops IH] using rev_ind; [done|]. rewrite policy_after_snoc. by apply policy_op_ok. Qed.

(** One evaluation of a draining cell. *)
Lemma evaluate_draining w now later id score t :
  running cfg = true → draining_since t (cell_of w id) →
  let '(w', b) := evaluate cfg say set_order w now later id score in
  b = bool_decide (t + drain_time cfg <= now) ∧ (∀ x, x ≠ id → cell_of w' x = cell_of w x) ∧
  if b then state <$> cell_of w' id = Some ISOLATED else draining_since t (cell_of w' id).
Proof.
  intros Hrun (c & Hc & Hs & Hm & Ht). pose proof (evaluate_ok cfg say set_order w now later id score) as He.
  destruct (evaluate _ _ _ _ _ _ _ _) as [w' b]. rewrite Hc, Hrun in He. destruct He as (c' & Hef & Htick).
  rewrite (ef_cell _ _ _ _ _ Hef).
  assert (drained cfg c now ↔ t + drain_time cfg <= now) as Hd.
  { unfold drained. split; [intros [_ (t' & Ht' & ?)]; simplify_eq; lia|]. intros. split; [done|]. exists t. split; [done|lia]. }
  inversion Htick; subst; try congruence.
  - rewrite bool_decide_false by (by rewrite <-Hd). split_and!; [done|apply Hef|by exists c'].
  - rewrite bool_decide_true by (by rewrite <-Hd). split_and!; [done|apply Hef|done].
Qed.

Lemma draining_tick_step s w o id t :
  running cfg = true → registry_ok hash s (reg w) → spares id o →
  (∀ now later score, o = Evaluate now later id score → now < t + drain_time cfg) →
  draining_since t (cell_of w id) → draining_since t (cell_of (apply_policy_op w o) id).
Proof.
  intros Hrun Hok Hsp Hearly Hd. destruct o as [now later x score|now x|o]; cbn [apply_policy_op].
  - destruct (decide (x = id)) as [->|Hne].
    + pose proof (evaluate_draining w now later id score t Hrun Hd) as H. destruct (evaluate _ _ _ _ _ _ _ _) as [w' b].
      destruct H as (Hb & _ & H). specialize (Hearly now later score eq_refl). rewrite bool_decide_false in Hb by lia.
      by subst b.
    + pose proof (evaluate_ok cfg say set_order w now later x score) as He. destruct (evaluate _ _ _ _ _ _ _ _) as [w' b].
      cbn [fst]. destruct (cell_of w x) as [c|]; [|by destruct He as [-> _]]. rewrite Hrun in He.
      destruct He as (c' & Hef & _). by rewrite (ef_other _ _ _ _ _ Hef).
  - unfold restore_cell. destruct (negb _); [done|]. change (get_cell_info (reg w) x) with (cell_of w x).
    destruct (cell_of w x) as [c|] eqn:E; [|done]. cbn [fst]. cbn in Hsp.
    rewrite tell_of, change_state_of, decide_False, put_cell_of, decide_False by done. done.
  - by apply (registry_op_spares s).
Qed.

(** An operation that evaluates the cell [id], if it does, before [due]. *)
Definition early (id : string) (due : Z) (o : policy_op) : Prop :=
  match o with Evaluate now _ x _ => x = id → now < due | _ => True end.

(** The fleet at boot. *)
Definition booted (s : cell_settings) (t : Z) : policy_world := PolicyWorld (initialize_cells hash s t) [] [].

(** C23: A drain takes its time, no less and no more: after any history, when an
    evaluation starts draining a cell with the drain timer set at [later], the cell
    stays DRAINING through every evaluation before [later + drain + grace], however
    many there are, and the first evaluation at or after that time isolates it,
    whatever the scores and whatever happens to other cells in between (for this
    cell, too: scores, heartbeats, expired services and cells added; only a manual
    restoration, a state set from outside, its removal and a stored copy of it are
    excluded). *)
Theorem drain_takes_its_time s boot before now later id score c after :
  let w := policy_after (booted s boot) before in
  let due := later + evacuation_traffic_drain cfg + evacuation_drain_grace cfg in
  cell_of w id = Some c → state c = ACTIVE →
  let '(w0, started) := evaluate cfg say set_order w now later id score in
  started = true → Forall (spares id) after → Forall (early id due) after →
  let w1 := policy_after w0 after in
  state <$> cell_of w1 id = Some DRAINING ∧
  ∀ now' later' score',
    let '(w2, b) := evaluate cfg say set_order w1 now' later' id score' in
    b = bool_decide (due <= now') ∧
    state <$> cell_of w2 id = Some (if bool_decide (due <= now') then ISOLATED else DRAINING) ∧
    ∀ x, x ≠ id → cell_of w2 x = cell_of w1 x.
Proof.
  intros w due Hc Hact. pose proof (evaluate_ok cfg say set_order w now later id score) as He.
  assert (registry_ok hash s (reg w)) as Hok by (apply policy_after_ok, initialize_ok).
  destruct (evaluate cfg say set_order w now later id score) as [w0 started]. rewrite Hc in He. intros ->.
  destruct (running cfg) eqn:Hrun; [|by destruct He]. destruct He as (c' & Hef & Ht). intros Hsp Hearly w1.
  assert (due = later + drain_time cfg) as Hdue by (unfold due, drain_time; lia).
  assert (draining_since later (cell_of w0 id)) as Hd.
  { exists c'. rewrite (ef_cell _ _ _ _ _ Hef). split; [done|]. inversion Ht; subst; try congruence.
    split_and!; [done| |done]. unfold drain_marked. cbn. eauto. }
  assert (draining_since later (cell_of w1 id)) as Hd1.
  { unfold w1. clear Ht. apply (effect_ok s) in Hef; [|done]. clear w1 Hc Hok. revert w0 Hef Hd Hsp Hearly.
    induction after as [|o after IH]; intros w0 Hok Hd Hsp Hearly; [done|]. apply Forall_cons in Hsp as [Ho Hsp].
    apply Forall_cons in Hearly as [He Hearly]. apply (IH (apply_policy_op w0 o)); [by apply policy_op_ok| |done|done].
    apply (draining_tick_step s); [done..| |done]. intros n l sc ->. rewrite <-Hdue. by apply He. }
  split; [destruct Hd1 as (? & -> & Hs1 & _); cbn; by rewrite Hs1|]. intros now' later' score'.
  pose proof (evaluate_draining w1 now' later' id score' later Hrun Hd1) as H.
  destruct (evaluate _ _ _ _ _ _ _ _) as [w2 b]. rewrite <-Hdue in H. destruct H as (-> & Hx & H).
  split_and!; [done| |done]. case_bool_decide; [done|]. destruct H as (? & -> & Hs2 & _). cbn. by rewrite Hs2.
Qed.

(** ** The limit *)

(** Operations that change no state but through the policy, and add no cell. *)
Definition steady (o : policy_op) : bool :=
  match o with
  | Evaluate _ _ _ _ | RestoreCell _ _ => true
  | OnRegistry (UpdateHealth _ _ | AssignService _ | EvictServices _ _) => true
  | _ => false
  end.

Lemma fleet_op w o m :
  steady o = true →
  (∀ a, 0 <= a <= m → within_limit (max_evacuated_ratio cfg) a (fleet w).2 = false) →
  m <= (fleet w).1 → m <= (fleet (apply_policy_op w o)).1 ∧ (fleet (apply_policy_op w o)).2 = (fleet w).2.
Proof.
  intros Hg Hlim Hm.
  assert (∀ id c c', cell_of w id = Some c → state c' = state c → fleet (put_cell w id c') = fleet w) as Hput.
  { intros id c c' Hc Hs. rewrite (fleet_put w id c c' Hc), Hs, Z.add_simpl_r. by destruct (fleet w). }
  destruct o as [now later id score|now id|[| id score|service|id expired| | | |]]; try done;
    cbn [apply_policy_op apply_registry_op].
  - pose proof (evaluate_ok cfg say set_order w now later id score) as He. destruct (evaluate _ _ _ _ _ _ _ _) as [w' b].
    cbn [fst]. destruct (cell_of w id) as [c|]; [|by destruct He as [-> _]].
    destruct (running cfg); [|by destruct He as [-> _]]. destruct He as (c' & Hef & Ht).
    rewrite (ef_fleet _ _ _ _ _ Hef). cbn [fst snd]. split; [|done]. unfold act, b2z.
    rewrite limit_of_fleet in Ht. assert (0 <= (fleet w).1) by (unfold fleet, active; cbn; apply Zlength_nonneg).
    clear Hef Hput. revert Ht Hlim Hm H. generalize (fleet w). intros [a n] Ht Hlim Hm Hpos. cbn [fst snd] in *.
    destruct Ht as [| |Hst _ _ Hl| | | | | | |]; cbn; repeat case_bool_decide; try lia; try congruence.
    apply andb_true_iff in Hl as [_ Hl]. destruct (decide (a <= m)); [|lia].
    rewrite Hlim in Hl by lia. done.
  - unfold restore_cell. destruct (negb _); [done|]. change (get_cell_info (reg w) id) with (cell_of w id).
    destruct (cell_of w id) as [c|] eqn:E; [|done]. cbn [fst]. change (fleet (tell ?x _)) with (fleet x).
    rewrite (ef_fleet _ _ _ _ _ (effect_move w id c (with_counts (metadata c) 0 0) now ACTIVE "Manual restoration" E)).
    revert Hm. generalize (fleet w). intros [a n] Hm. cbn [fst snd] in *. split; [|done].
    unfold act, b2z. cbn. repeat case_bool_decide; try lia; congruence.
  - unfold update_health_score, with_registry. destruct (dget _ id) as [c|] eqn:E; [|by destruct w].
    change (PolicyWorld _ _ _) with (put_cell w id (with_scores c (clamp fl_one score) (warmup_percentage c))).
    by rewrite (Hput id c).
  - unfold assign_service, with_registry. destruct (dget _ _) as [c|] eqn:E; [|by destruct w].
    match goal with |- context [dset _ ?k ?v] => change (PolicyWorld _ _ _) with (put_cell w k v); by rewrite (Hput k c) end.
  - unfold evict_expired_services, with_registry. destruct (dget _ id) as [c|] eqn:E; [|by destruct w].
    match goal with |- context [dset _ ?k ?v] => change (PolicyWorld _ _ _) with (put_cell w k v); by rewrite (Hput k c) end.
Qed.

Lemma active_floor w ops m :
  Forall (λ o, steady o = true) ops →
  (∀ a, 0 <= a <= m → within_limit (max_evacuated_ratio cfg) a (fleet w).2 = false) →
  m <= (fleet w).1 → m <= (fleet (policy_after w ops)).1 ∧ (fleet (policy_after w ops)).2 = (fleet w).2.
Proof.
  revert w. induction ops as [|o ops IH]; intros w Hops Hlim Hm; [done|]. inversion_clear Hops.
  destruct (fleet_op w o m) as [H1 H2]; [done..|].
  change (policy_after w (o :: ops)) with (policy_after (apply_policy_op w o) ops). rewrite <-H2. apply IH; [done|by rewrite H2|done].
Qed.
End runs.

(** ** Shipped settings *)

(** [max_evacuated_ratio] as shipped: 0.25. *)
Definition quarter : float := fl_div (fl_of_Z 1) (fl_of_Z 4).

(** The active cells the shipped ratio leaves of [n]. *)
Definition floor_of (n : Z) : Z := n - (n + 3) / 4.

Lemma quarter_floor n a : 0 < n <= 64 → 0 <= a <= floor_of n → within_limit quarter a n = false.
Proof.
  assert (forallb (λ n : nat, forallb (λ a : nat,
      negb (Z.of_nat a <=? floor_of (Z.of_nat n)) || negb (within_limit quarter (Z.of_nat a) (Z.of_nat n))) (seq 0 (S n)))
      (seq 1 64) = true) as H by (vm_compute; reflexivity).
  rewrite forallb_forall in H. intros Hn Ha. assert (floor_of n <= n) by (unfold floor_of; Z.to_euclidean_division_equations; lia).
  specialize (H (Z.to_nat n)). rewrite forallb_forall in H.
  specialize (H ltac:(apply in_seq; lia) (Z.to_nat a) ltac:(apply in_seq; lia)).
  rewrite !Z2Nat.id in H by lia. apply orb_true_iff in H as [H|H]; [|by apply negb_true_iff].
  apply negb_true_iff, Z.leb_gt in H. lia.
Qed.

(** The limit on evacuations as shipped (0.25), binary64 included: in a fleet of
    up to 64 cells that starts with every cell active, no history of evaluations,
    restorations, scores and heartbeats ever takes more than a quarter of the
    cells, rounded up, out of service; of eight cells at most two. *)
Theorem quarter_limit_holds hash cfg say set_order w ops :
  max_evacuated_ratio cfg = quarter → 0 < (fleet w).2 <= 64 → (fleet w).1 = (fleet w).2 →
  Forall (λ o, steady o = true) ops →
  let '(up, all) := fleet (policy_after hash cfg say set_order w ops) in
  all = (fleet w).2 ∧ all - up <= (all + 3) / 4.
Proof.
  intros Hr Hn Hall Hops.
  destruct (active_floor hash cfg say set_order w ops (floor_of (fleet w).2)) as [H1 H2]; [done| | |].
  - intros a Ha. rewrite Hr. by apply quarter_floor.
  - rewrite Hall. unfold floor_of. Z.to_euclidean_division_equations. lia.
  - destruct (fleet (policy_after _ _ _ _ _ _)) as [up all]. cbn [fst snd] in *. subst all. split; [done|].
    unfold floor_of in H1. lia.
Qed.

(** ** Witnesses and observations *)

Definition tenths (n : Z) : float := fl_div (fl_of_Z n) (fl_of_Z 10).

(** The settings as shipped, switched on, with [ratio] for the limit. *)
Definition shipped (ratio : float) : evacuation_settings :=
  EvacuationSettings true true (tenths 3) (tenths 7) 3 5 (seconds 30) (seconds 2) ratio 3600 1000.

Definition no_text (r : why) : string := "".
Definition no_hash (s : string) : Z := 0.

Definition fleet_of (n : nat) : policy_world :=
  PolicyWorld (initialize_cells no_hash (CellSettings true "cell" n (fl_of_Z 10)) 0) [] [].

(** [k] bad scores for a cell. *)
Definition bad (id : string) (k : nat) : list policy_op := repeat (Evaluate 1 1 id (tenths 1)) k.

Lemma cells_of_start w (p : CellInfo → bool) :
  forallb (λ kc, p kc.2) (cells (reg w)) = true → ∀ id c, cell_of w id = Some c → p c = true.
Proof.
  unfold cell_of. induction (cells (reg w)) as [|[k c'] d IH]; cbn; [done|]. intros [H1 H2]%andb_true_iff id c.
  case_decide; [congruence|by apply IH].
Qed.

Lemma fleet_of_8_fresh : fresh_cells (fleet_of 8).
Proof.
  intros id c Hc.
  pose proof (cells_of_start (fleet_of 8) (λ c, (below c =? 0) && (above c =? 0)) ltac:(vm_compute; reflexivity) id c Hc) as H.
  apply andb_true_iff in H as [?%Z.eqb_eq ?%Z.eqb_eq]. done.
Qed.

Lemma evacuation_needs_streak_witness :
  ∃ n, 3 <= n ∧ streak (low (shipped quarter))
    (judged no_hash (shipped quarter) no_text elements ACTIVE "cell-0" (fleet_of 8) (bad "cell-0" 2) ++ [tenths 1]) n.
Proof.
  destruct (cell_of (policy_after no_hash (shipped quarter) no_text elements (fleet_of 8) (bad "cell-0" 2)) "cell-0")
    as [c|] eqn:Hc; [|vm_compute in Hc; discriminate].
  pose proof (evacuation_needs_streak no_hash (shipped quarter) no_text elements (fleet_of 8) (bad "cell-0" 2) 1 1 "cell-0"
    (tenths 1) c fleet_of_8_fresh Hc) as H.
  destruct (evaluate _ _ _ _ _ _ _ _) as [w' b] eqn:E.
  assert (b = true) as Hb by (apply (f_equal snd) in E; vm_compute in E; congruence).
  apply (proj1 (H Hb)). vm_compute in Hc. injection Hc as <-. reflexivity.
Defined.

(** Drained at second 3 for 32 seconds; two early evaluations, a better score. *)
Definition drain_watch : list policy_op :=
  [Evaluate (seconds 20) (seconds 20) "cell-0" (tenths 1); OnRegistry (UpdateHealth "cell-0" (tenths 9));
   OnRegistry (AddCells (seconds 30) 1); Evaluate (seconds 34) (seconds 34) "cell-0" (tenths 9)].

Lemma drain_takes_its_time_witness :
  let w0 := (evaluate (shipped quarter) no_text elements
    (policy_after no_hash (shipped quarter) no_text elements (fleet_of 8) (bad "cell-0" 2)) (seconds 3) (seconds 3) "cell-0" (tenths 1)).1 in
  let w1 := policy_after no_hash (shipped quarter) no_text elements w0 drain_watch in
  state <$> cell_of w1 "cell-0" = Some DRAINING ∧
  (evaluate (shipped quarter) no_text elements w1 (seconds 35) (seconds 35) "cell-0" (tenths 9)).2 = true.
Proof.
  destruct (cell_of (policy_after no_hash (shipped quarter) no_text elements (fleet_of 8) (bad "cell-0" 2)) "cell-0")
    as [c|] eqn:Hc; [|vm_compute in Hc; discriminate].
  pose proof (drain_takes_its_time no_hash (shipped quarter) no_text elements (CellSettings true "cell" 8 (fl_of_Z 10)) 0
    (bad "cell-0" 2) (seconds 3) (seconds 3) "cell-0" (tenths 1) c drain_watch Hc) as H.
  assert (state c = ACTIVE) as Hact by (vm_compute in Hc; injection Hc as <-; reflexivity). specialize (H Hact). cbv zeta.
  change (booted no_hash (CellSettings true "cell" 8 (fl_of_Z 10)) 0) with (fleet_of 8) in H.
  destruct (evaluate _ _ _ (policy_after _ _ _ _ _ (bad _ _)) _ _ _ _) as [w0 b] eqn:E. cbn [fst].
  assert (b = true) as Hb by (apply (f_equal snd) in E; vm_compute in E; congruence).
  destruct (H Hb) as [H1 H2].
  - repeat constructor.
  - repeat constructor; intros _; vm_compute; reflexivity.
  - split; [exact H1|]. specialize (H2 (seconds 35) (seconds 35) (tenths 9)).
    clear Hc E H H1. revert H2. generalize (policy_after no_hash (shipped quarter) no_text elements w0 drain_watch). intros w1.
    case (evaluate (shipped quarter) no_text elements w1 (seconds 35) (seconds 35) "cell-0" (tenths 9)).
    intros w2 b2 [-> _]. vm_compute. reflexivity.
Defined.

(** The count of low scores survives a stay in isolation that the shared store
    brought and ended: two low scores, isolated and made active again by another
    process, well scores all along, and then a single low score drains the cell. *)
Definition copy_of (s : CellState) (t : Z) (id : string) : option l2_dict :=
  if bool_decide (id = "cell-0") then Some (to_l2_dict (with_state (new_cell "cell-0" 0) s t)) else None.

Theorem stale_count_drains :
  let good := Evaluate (seconds 9) (seconds 9) "cell-0" (tenths 9) in
  let ops := bad "cell-0" 2 ++ [OnRegistry (LoadSingle (copy_of ISOLATED 5) "cell-0"); good; good;
               OnRegistry (LoadSingle (copy_of ACTIVE 6) "cell-0")] in
  let w := policy_after no_hash (shipped quarter) no_text elements (fleet_of 8) ops in
  state <$> cell_of w "cell-0" = Some ACTIVE ∧
  state <$> cell_of (policy_after no_hash (shipped quarter) no_text elements w (bad "cell-0" 1)) "cell-0" = Some DRAINING.
Proof. vm_compute. done. Qed.

Lemma quarter_limit_holds_witness :
  let '(up, all) := fleet (policy_after no_hash (shipped quarter) no_text elements (fleet_of 8)
    (bad "cell-0" 3 ++ bad "cell-1" 3 ++ bad "cell-2" 3)) in
  all = (fleet (fleet_of 8)).2 ∧ all - up <= (all + 3) / 4.
Proof.
  refine (quarter_limit_holds no_hash (shipped quarter) no_text elements (fleet_of 8)
    (bad "cell-0" 3 ++ bad "cell-1" 3 ++ bad "cell-2" 3) _ _ _ _).
  - reflexivity.
  - vm_compute. split; [reflexivity|discriminate].
  - vm_compute. reflexivity.
  - repeat constructor.
Defined.

(** The ratio is compared before the evacuation, not after it: the only cell of
    a fleet is drained, and two of five are, 40 percent, under a limit of 25; and
    at a limit of 10 percent [1.0 - 9/10] is below 0.1 in binary64, so a second
    cell of ten goes although the limit is reached. *)
Theorem evacuation_limit_overshoots :
  fleet (policy_after no_hash (shipped quarter) no_text elements (fleet_of 1) (bad "cell-0" 3)) = (0, 1) ∧
  fleet (policy_after no_hash (shipped quarter) no_text elements (fleet_of 5) (bad "cell-0" 3 ++ bad "cell-1" 3)) = (3, 5) ∧
  fleet (policy_after no_hash (shipped (tenths 1)) no_text elements (fleet_of 10) (bad "cell-0" 3 ++ bad "cell-1" 3)) = (8, 10).
Proof. vm_compute. done. Qed.

(** A cell taken out of the fleet ([remove_cells]) is drained and isolated like an
    evacuated one and is not deleted: good scores restore it, and it takes traffic
    again. *)
Theorem removed_cell_returns :
  let w := with_registry (fleet_of 2) (remove_cells (reg (fleet_of 2)) [(1, "cell-1")]).1.1 in
  let good t := Evaluate (seconds t) (seconds t) "cell-1" (tenths 9) in
  let w1 := policy_after no_hash (shipped quarter) no_text elements w [good 1; good 60] in
  let w2 := policy_after no_hash (shipped quarter) no_text elements w1 [good 70; good 80; good 90; good 100; good 110] in
  state <$> cell_of w "cell-1" = Some DRAINING ∧ state <$> cell_of w1 "cell-1" = Some ISOLATED ∧
  state <$> cell_of w2 "cell-1" = Some ACTIVE.
Proof. vm_compute. done. Qed.
