(* ===== verification/EventBus.v ===== *)
(** The in-memory event bus ([services/event_bus/bus/event_bus.py]):
    subscriptions ordered by priority, publication to a copy of them, dispatch in
    the caller, in a thread or in a pool, the bounded history, and the mixin
    ([emitter.py]) through which components emit.  A handler is a function that
    may change the event's data and the bus, and ends in one of the ways the
    dispatch tells apart.  What a handler does that is still running when its
    timeout passes is accounted to the moment of the timeout; one that the pool has
    not started by then is cancelled and never runs; handlers that are not awaited
    are listed as running in the background. *)
From S2P Require Import Prelude.

(** ** Events *)

(** The members of [EventType], by value. *)
Definition EVENT_TYPES : list string :=
  ["emergency_level_changed"; "emergency_activated"; "emergency_recovery_started"; "emergency_recovery_completed";
   "error_budget_critical"; "error_budget_warning"; "error_budget_recovered"; "circuit_breaker_opened";
   "circuit_breaker_closed"; "circuit_breaker_half_opened"; "mesh_override_invalidation"; "config_updated";
   "kill_switch_activated"; "kill_switch_deactivated"; "dlq_replay_blocked"; "dlq_replay_completed";
   "dlq_replay_batch_completed"; "dlq_replay_failed"; "dlq_consumer_started"; "dlq_consumer_stopped";
   "dlq_consumer_leadership_acquired"; "dlq_consumer_leadership_lost"; "dlq_outbox_drop_threshold_breached";
   "daemon_worker_died"; "daemon_worker_respawned"; "chaos_experiment_blocked"; "chaos_experiment_started";
   "chaos_experiment_stopped"; "security_violation_detected"; "security_violation_critical";
   "corruption_violation_critical"; "throttle_limit_changed"; "throttle_sla_warning"; "throttle_sla_critical";
   "throttle_limit_recovered"; "retry_exhausted"; "rate_limit_429"; "rate_limit_cooldown_start";
   "rate_limit_cooldown_end"; "throttle_rejection_stored"; "throttle_rejection_replay_started";
   "throttle_rejection_replay_completed"; "throttle_rejection_replay_failed"; "region_instance_stopping";
   "region_heartbeat_expired"; "region_primary_changed"; "load_shedding_level_changed"; "saga_started";
   "saga_step_completed"; "saga_step_failed"; "saga_completed"; "saga_compensating"; "saga_compensated";
   "saga_compensation_failed"; "saga_suspended"; "saga_resumed"; "saga_timed_out"; "runbook_triggered";
   "runbook_step_completed"; "runbook_step_failed"; "runbook_completed"; "runbook_failed";
   "runbook_approval_required"; "runbook_approval_granted"; "runbook_approval_rejected"; "runbook_skipped_cooldown";
   "runbook_registry_updated"; "runbook_execution_completed"; "runbook_execution_failed"; "canary_rollout_started";
   "canary_rollout_promoted"; "canary_rollout_completed"; "canary_rollout_rolled_back"; "canary_rollout_paused";
   "canary_rollout_resumed"; "canary_rollout_cancelled"; "scheduled_event_started"; "scheduled_event_ended";
   "recommendation_rollback"; "finops_budget_exceeded"; "rollback_requested"; "rollback_started";
   "rollback_completed"; "rollback_failed"; "rollback_cancelled"; "learning_parameter_blacklisted";
   "learning_pattern_detected"; "learning_manual_only_activated"; "learning_manual_only_deactivated";
   "cell_state_changed"; "cell_evacuation_started"; "cell_evacuation_cancelled"; "cell_evacuation_completed";
   "cell_restored"; "circuit_mesh_override_applied"; "circuit_mesh_override_expired";
   "circuit_mesh_override_released"; "circuit_mesh_max_overrides_reached"; "circuit_mesh_escalation_triggered";
   "config_rolled_back"; "blast_radius_policy_changed"; "blast_radius_service_isolated";
   "cache_l1_l2_drift_detected"; "precomputed_cache_invalidated"; "daily_report_send_failed";
   "ml_strategy_promoted"; "notification_delivery_failed"].

Inductive EventPriority : Type := LOW | NORMAL | HIGH | CRITICAL.

Definition priority_value (p : EventPriority) : Z := match p with LOW => 1 | NORMAL => 2 | HIGH => 3 | CRITICAL => 4 end.

Inductive dispatch_mode : Type := sync | thread_per_emit | async_pool.

(** How a handler ends, and whether that is after the timeout. *)
Inductive ending : Type := Finished | RaisesTimeoutError | RaisesError | RaisesBase.

(** What the dispatch tells [publish]: [True], [False] (the handler is still running,
    or [Cancelled] in the pool's queue), an [Exception], or an exception that is not
    one. *)
Inductive dispatched : Type := Completed | TimedOut | Cancelled | Failed | Interrupted.

Section bus.
  Context {H D : Type} `{EqDecision H}.

Record BaldurEvent : Type := Event {
  ev_type : string; ev_data : D; ev_source : string; ev_timestamp : Z; ev_priority : EventPriority;
  correlation_id : option string; event_id : string }.

(** The switch of a subscription is shared with every copy of it. *)
Record EventSubscription : Type := Subscription {
  sub_id : nat; sub_type : string; sub_handler : H; sub_priority : EventPriority; await_result : bool }.

Record event_bus : Type := EventBus {
  subscriptions : dict string (list EventSubscription);
  max_history : nat;
  event_history : list BaldurEvent;
  handler_timeout : Z;
  mode : dispatch_mode;
  timeout_count : Z;
  bus_enabled : bool;
  switched_off : gset nat;                          (** [subscription.enabled = False] *)
  next_id : nat;
  pool_accepts : bool;                              (** [executor.submit] does not raise *)
  background : list (H * BaldurEvent) }.            (** dispatched and not awaited *)

Definition new_bus (history : nat) (timeout : Z) (m : dispatch_mode) : event_bus :=
  EventBus [] history [] timeout m 0 true ∅ 0 true [].

Definition set_subscriptions (b : event_bus) (s : dict string (list EventSubscription)) (n : nat) : event_bus :=
  EventBus s (max_history b) (event_history b) (handler_timeout b) (mode b) (timeout_count b) (bus_enabled b)
    (switched_off b) n (pool_accepts b) (background b).
Definition set_history (b : event_bus) (h : list BaldurEvent) : event_bus :=
  EventBus (subscriptions b) (max_history b) h (handler_timeout b) (mode b) (timeout_count b) (bus_enabled b)
    (switched_off b) (next_id b) (pool_accepts b) (background b).
Definition set_enabled (b : event_bus) (e : bool) : event_bus :=
  EventBus (subscriptions b) (max_history b) (event_history b) (handler_timeout b) (mode b) (timeout_count b) e
    (switched_off b) (next_id b) (pool_accepts b) (background b).
Definition count_timeout (b : event_bus) : event_bus :=
  EventBus (subscriptions b) (max_history b) (event_history b) (handler_timeout b) (mode b) (timeout_count b + 1)
    (bus_enabled b) (switched_off b) (next_id b) (pool_accepts b) (background b).
Definition leave_running (b : event_bus) (h : H) (ev : BaldurEvent) : event_bus :=
  EventBus (subscriptions b) (max_history b) (event_history b) (handler_timeout b) (mode b) (timeout_count b)
    (bus_enabled b) (switched_off b) (next_id b) (pool_accepts b) (background b ++ [(h, ev)]).

(** ** Subscriptions *)

Definition subscribers (b : event_bus) (t : string) : list EventSubscription := default [] (dget (subscriptions b) t).

Definition by_priority (l : list EventSubscription) : list EventSubscription :=
  sort_by (λ s, - priority_value (sub_priority s)) l.

Definition subscribe (b : event_bus) (t : string) (h : H) (p : EventPriority) (await : bool) :
    event_bus * EventSubscription :=
  let s := Subscription (next_id b) t h p await in
  let l := subscribers b t in
  match List.filter (λ s, bool_decide (sub_handler s = h)) l with
  | [] => (set_subscriptions b (dset (subscriptions b) t (by_priority (l ++ [s]))) (S (next_id b)), s)
  | old :: _ => (set_subscriptions b (dset (subscriptions b) t l) (S (next_id b)), old)
  end.

Definition unsubscribe (b : event_bus) (t : string) (h : H) : event_bus * bool :=
  match dget (subscriptions b) t with
  | None => (b, false)
  | Some l =>
      let kept := List.filter (λ s, negb (bool_decide (sub_handler s = h))) l in
      (set_subscriptions b (dset (subscriptions b) t kept) (next_id b), (length kept <? length l)%nat)
  end.

Fixpoint subscribe_each (b : event_bus) (ts : list string) (h : H) (p : EventPriority) :
    event_bus * list EventSubscription :=
  match ts with
  | [] => (b, [])
  | t :: ts =>
      let '(b, s) := subscribe b t h p true in
      let '(b, l) := subscribe_each b ts h p in (b, s :: l)
  end.

Definition subscribe_all (b : event_bus) (h : H) (p : EventPriority) : event_bus * list EventSubscription :=
  subscribe_each b EVENT_TYPES h p.

Definition unsubscribe_all (b : event_bus) (t : option string) : event_bus :=
  match t with
  | None => set_subscriptions b [] (next_id b)
  | Some t => set_subscriptions b (ddel (subscriptions b) t) (next_id b)
  end.

(** [subscription.enabled = on] *)
Definition switch (b : event_bus) (id : nat) (on : bool) : event_bus :=
  EventBus (subscriptions b) (max_history b) (event_history b) (handler_timeout b) (mode b) (timeout_count b)
    (bus_enabled b) (if on then switched_off b ∖ {[id]} else switched_off b ∪ {[id]}) (next_id b) (pool_accepts b)
    (background b).

(** ** Dispatch *)

Section dispatch.
  (** What a handler does: to the data, to the bus, how it ends and whether in time. *)
  Context (body : H → BaldurEvent → event_bus → D * event_bus * ending * bool).
  (** Whether every worker of the pool is busy until the handler's timeout. *)
  Context (saturated : H → BaldurEvent → event_bus → bool).

Definition with_data (ev : BaldurEvent) (d : D) : BaldurEvent :=
  Event (ev_type ev) d (ev_source ev) (ev_timestamp ev) (ev_priority ev) (correlation_id ev) (event_id ev).

Definition outcome_of (e : ending) : dispatched :=
  match e with Finished => Completed | RaisesBase => Interrupted | _ => Failed end.

(** [handler(event)] *)
Definition run_inline (h : H) (ev : BaldurEvent) (b : event_bus) : event_bus * BaldurEvent * dispatched :=
  let '(d, b, e, _) := body h ev b in (b, with_data ev d, outcome_of e).

(** [_execute_handler_thread_per_emit] *)
Definition run_thread (h : H) (ev : BaldurEvent) (b : event_bus) : event_bus * BaldurEvent * dispatched :=
  let '(d, b, e, late) := body h ev b in
  if late : bool then (count_timeout b, with_data ev d, TimedOut) else (b, with_data ev d, outcome_of e).

(** [_execute_handler_async_pool]; the timeout of a future and the [TimeoutError] a
    handler raises are one class.  [future.cancel()] after the timeout stops a
    handler that is still in the queue, and not one that runs. *)
Definition run_pool (h : H) (ev : BaldurEvent) (b : event_bus) : event_bus * BaldurEvent * dispatched :=
  if pool_accepts b then
    if saturated h ev b then (count_timeout b, ev, Cancelled) else
    let '(d, b, e, late) := body h ev b in
    if late : bool then (count_timeout b, with_data ev d, TimedOut)
    else match e with
         | RaisesTimeoutError => (count_timeout b, with_data ev d, TimedOut)
         | _ => (b, with_data ev d, outcome_of e)
         end
  else run_inline h ev b.

(** [_run_handler_logging_exceptions] *)
Definition run_logging (h : H) (ev : BaldurEvent) (b : event_bus) : event_bus * BaldurEvent * dispatched :=
  let '(b, ev, r) := run_inline h ev b in (b, ev, match r with Failed => Completed | _ => r end).

(** [_dispatch_fire_and_forget] *)
Definition fire_and_forget (h : H) (ev : BaldurEvent) (b : event_bus) : event_bus * BaldurEvent * dispatched :=
  match mode b with
  | sync => run_logging h ev b
  | thread_per_emit => (leave_running b h ev, ev, Completed)
  | async_pool => if pool_accepts b then (leave_running b h ev, ev, Completed) else run_logging h ev b
  end.

(** [_execute_handler_with_timeout] *)
Definition execute_handler (s : EventSubscription) (ev : BaldurEvent) (b : event_bus) :
    event_bus * BaldurEvent * dispatched :=
  if negb (await_result s) then fire_and_forget (sub_handler s) ev b
  else if handler_timeout b <=? 0 then run_inline (sub_handler s) ev b
  else match mode b with
       | sync => run_inline (sub_handler s) ev b
       | thread_per_emit => run_thread (sub_handler s) ev b
       | async_pool => run_pool (sub_handler s) ev b
       end.

(** ** Publication *)

(** The loop of [publish] over its copy: the bus, the handlers dispatched and how
    that went, and the number that completed ([None]: interrupted). *)
Fixpoint deliver (l : list EventSubscription) (ev : BaldurEvent) (b : event_bus) :
    event_bus * list (H * dispatched) * option Z :=
  match l with
  | [] => (b, [], Some 0)
  | s :: l =>
      if decide (sub_id s ∈ switched_off b) then deliver l ev b
      else
        let '(b, ev, r) := execute_handler s ev b in
        match r with
        | Interrupted => (b, [(sub_handler s, r)], None)
        | _ =>
            let '(b, started, n) := deliver l ev b in
            (b, (sub_handler s, r) :: started, (Z.add (match r with Completed => 1 | _ => 0 end)) <$> n)
        end
  end.

(** [deque(maxlen=n).append] *)
Definition record_event (b : event_bus) (ev : BaldurEvent) : event_bus :=
  let l := event_history b ++ [ev] in set_history b (drop (length l - max_history b) l).

Definition publish (b : event_bus) (ev : BaldurEvent) : event_bus * list (H * dispatched) * option Z :=
  if negb (bus_enabled b) then (b, [], Some 0)
  else let b := record_event b ev in deliver (subscribers b (ev_type ev)) ev b.

(** The in-memory bus never leaves the process. *)
Definition publish_local (b : event_bus) (ev : BaldurEvent) : event_bus * list (H * dispatched) * option Z := publish b ev.

(** [create_event]: a given correlation id, or that of the trace when reading it
    does not raise *)
Definition create_event (t : string) (d : D) (source : string) (p : EventPriority) (corr : option string)
    (trace : option (option string)) (now : Z) (uuid : string) : BaldurEvent :=
  Event t d source now p (match corr with None => default None trace | _ => corr end) uuid.

Definition emit (b : event_bus) (t : string) (d : D) (source : string) (p : EventPriority) (corr : option string)
    (trace : option (option string)) (now : Z) (uuid : string) : event_bus * list (H * dispatched) * option Z :=
  publish b (create_event t d source p corr trace now uuid).

(** *** The emitting side *)

(** [_event_bus] and [_event_bus_fail_time] of an emitter *)
Inductive bus_slot : Type := Unset | Unavailable (fail_time : Z) | Attached.

(** [_get_event_bus]: [ready] is whether [get_event_bus()] answers; the clock is
    read at the entry and after a failure. Also, whether it was asked. *)
Definition get_event_bus (interval now later : Z) (ready : bool) (slot : bus_slot) : bus_slot * bool * bool :=
  let ask := if ready : bool then (Attached, true, true) else (Unavailable later, false, true) in
  match slot with
  | Attached => (Attached, true, false)
  | Unset => ask
  | Unavailable t => if now - t <? interval then (slot, false, false) else ask
  end.

Definition DEFAULT_RETRY_INTERVAL : Z := seconds 60.

(** [EventEmitterMixin._emit_event]: [None] is an interrupt; an [Exception] does not
    get through. *)
Definition emit_event (interval now later : Z) (ready : bool) (slot : bus_slot) (b : event_bus) (t : string) (d : D)
    (source : string) (p : option EventPriority) (trace : option (option string)) (uuid : string) :
    bus_slot * event_bus * option () :=
  let '(slot, found, _) := get_event_bus interval now later ready slot in
  if found : bool then
    let '(b, _, n) := emit b t d source (default NORMAL p) None trace later uuid in (slot, b, (λ _, ()) <$> n)
  else (slot, b, Some ()).
End dispatch.

(** ** History and control *)

Definition get_history (b : event_bus) (t : option string) (limit : Z) : list BaldurEvent :=
  py_last limit
    match t with
    | None => event_history b
    | Some t => List.filter (λ ev, bool_decide (ev_type ev = t)) (event_history b)
    end.

Definition clear_history (b : event_bus) : event_bus := set_history b [].
Definition enable (b : event_bus) : event_bus := set_enabled b true.
Definition disable (b : event_bus) : event_bus := set_enabled b false.

Definition get_subscriptions (b : event_bus) (t : option string) : list EventSubscription :=
  match t with Some t => subscribers b t | None => concat (dvals (subscriptions b)) end.

Record bus_stats : Type := Stats {
  stat_enabled : bool; subscriptions_count : Z; event_types_with_subscribers : Z; history_count : Z;
  stat_max_history : nat; handler_timeouts : Z }.

Definition get_stats (b : event_bus) : bus_stats :=
  Stats (bus_enabled b) (Zsum (map Zlength (dvals (subscriptions b)))) (Zlength (subscriptions b))
    (Zlength (event_history b)) (max_history b) (timeout_count b).

Definition reset_bus (b : event_bus) : event_bus :=
  EventBus [] (max_history b) [] (handler_timeout b) (mode b) 0 true (switched_off b) (next_id b) (pool_accepts b)
    (background b).
End bus.
Arguments BaldurEvent D : clear implicits. Arguments EventSubscription H : clear implicits.
Arguments event_bus H D : clear implicits.

(** ** Theorems *)

(** Sorting a sorted list with one element appended inserts it after its equals. *)
Lemma sort_by_snoc {A} (key : A → Z) l x :
  StronglySorted (λ a b, key a <= key b) l →
  sort_by key (l ++ [x]) =
  List.filter (λ y, key y <=? key x) l ++ x :: List.filter (λ y, key x <? key y) l.
Proof.
  induction 1 as [|y l Hl IH Hy]; [done|]. cbn [app sort_by foldr]. change (foldr _ _ _) with (sort_by key (l ++ [x])).
  rewrite IH. rewrite Forall_forall in Hy. cbn. destruct (Z.leb_spec (key y) (key x)).
  - rewrite (proj2 (Z.ltb_ge _ _)) by done. cbn. apply insert_by_above. intros z.
    rewrite elem_of_app, elem_of_cons, !list_elem_of_In, !List.filter_In, <- !list_elem_of_In.
    intros [[Hz _]|[->|[Hz _]]]; auto.
  - rewrite (proj2 (Z.ltb_lt _ _)) by done. rewrite filter_none; cbn.
    + rewrite (proj2 (Z.leb_gt _ _)) by done. f_equal. apply insert_by_above.
      intros z [Hz _]%list_elem_of_In%List.filter_In. apply Hy. by apply list_elem_of_In.
    + intros z Hz. specialize (Hy z Hz). lia.
Qed.

Section theorems.
  Context {H D : Type} `{EqDecision H}.
  Context (body : H → BaldurEvent D → event_bus H D → D * event_bus H D * ending * bool).
  Context (saturated : H → BaldurEvent D → event_bus H D → bool).
  Implicit Types (b : event_bus H D) (ev : BaldurEvent D) (s : EventSubscription H).

(** The calls a bus can receive. *)
Inductive bus_op : Type :=
  | Subscribe (t : string) (h : H) (p : EventPriority) (await : bool)
  | Unsubscribe (t : string) (h : H)
  | SubscribeAll (h : H) (p : EventPriority)
  | UnsubscribeAll (t : option string)
  | Switch (id : nat) (on : bool)
  | Publish (ev : BaldurEvent D)
  | ClearHistory | Enable | Disable | ResetBus.

Definition bus_step b (o : bus_op) : event_bus H D :=
  match o with
  | Subscribe t h p await => (subscribe b t h p await).1
  | Unsubscribe t h => (unsubscribe b t h).1
  | SubscribeAll h p => (subscribe_all b h p).1
  | UnsubscribeAll t => unsubscribe_all b t
  | Switch id on => switch b id on
  | Publish ev => (publish body saturated b ev).1.1
  | ClearHistory => clear_history b
  | Enable => enable b
  | Disable => disable b
  | ResetBus => reset_bus b
  end.

(** What [subscribe] establishes for the list of one type: higher priorities
    first, no handler twice, every subscription under its own type and with an id
    already given out. *)
Definition list_wf (t : string) (n : nat) (l : list (EventSubscription H)) : Prop :=
  StronglySorted (λ s1 s2, priority_value (sub_priority s2) <= priority_value (sub_priority s1)) l ∧
  NoDup (map sub_handler l) ∧ NoDup (map sub_id l) ∧ Forall (λ s, sub_type s = t ∧ (sub_id s < n)%nat) l.

Definition bus_wf b : Prop :=
  dict_wf (subscriptions b) ∧ (∀ t, list_wf t (next_id b) (subscribers b t)) ∧
  (length (event_history b) <= max_history b)%nat.

Lemma priority_order_flip (l : list (EventSubscription H)) :
  StronglySorted (λ s1 s2, - priority_value (sub_priority s1) <= - priority_value (sub_priority s2)) l ↔
  StronglySorted (λ s1 s2, priority_value (sub_priority s2) <= priority_value (sub_priority s1)) l.
Proof.
  split; induction 1 as [|s l ? IH Hs]; constructor; try done; eapply Forall_impl; try done; intros; cbn in *; lia.
Qed.

Lemma list_wf_nil t n : list_wf t n [].
Proof. repeat split; constructor. Qed.

Lemma list_wf_later t n m l : (n <= m)%nat → list_wf t n l → list_wf t m l.
Proof.
  intros Hm (?&?&?&Hl). repeat split; [done..|]. eapply Forall_impl; [done|]. intros s [-> ?]. split; [done|lia].
Qed.

Lemma list_wf_filter t n f l : list_wf t n l → list_wf t n (List.filter f l).
Proof.
  intros (Hs&Hh&Hi&Ht). repeat split.
  - clear -Hs. induction Hs as [|s l Hs IH Hl]; cbn; [constructor|]. destruct (f s); [|done]. constructor; [done|].
    apply Forall_forall. intros x [Hx _]%list_elem_of_In%List.filter_In. rewrite Forall_forall in Hl.
    apply Hl. by apply list_elem_of_In.
  - eapply sublist_NoDup; [apply Hh|]. apply (fmap_sublist sub_handler), filter_sublist.
  - eapply sublist_NoDup; [apply Hi|]. apply (fmap_sublist sub_id), filter_sublist.
  - apply Forall_forall. intros s [Hs' _]%list_elem_of_In%List.filter_In. rewrite Forall_forall in Ht. apply Ht.
    by apply list_elem_of_In.
Qed.

Lemma list_wf_insert t n h p await l :
  list_wf t n l → h ∉ map sub_handler l → list_wf t (S n) (by_priority (l ++ [Subscription n t h p await])).
Proof.
  intros (Hs&Hh&Hi&Ht) Hnew. unfold by_priority. set (l' := l ++ _).
  pose proof (sort_by_perm (λ s, - priority_value (sub_priority s)) l') as Hp. repeat split.
  - apply priority_order_flip, sort_by_strongly.
  - rewrite Hp. unfold l'. rewrite map_app. apply NoDup_app. split; [done|]. split; [|apply NoDup_singleton].
    intros x Hx ->%list_elem_of_singleton. done.
  - rewrite Hp. unfold l'. rewrite map_app. apply NoDup_app. split; [done|]. split; [|apply NoDup_singleton].
    intros x Hx ->%list_elem_of_singleton. apply list_elem_of_fmap in Hx as (s&Heq&Hx). rewrite Forall_forall in Ht.
    destruct (Ht s Hx). cbn in Heq. lia.
  - rewrite Hp. unfold l'. apply Forall_app. split; [|by constructor; [split; [done|cbn; lia]|]].
    eapply Forall_impl; [done|]. intros s [-> ?]. split; [done|lia].
Qed.

Lemma subscribers_dset b t l n t' :
  subscribers (set_subscriptions b (dset (subscriptions b) t l) n) t' = if decide (t = t') then l else subscribers b t'.
Proof. unfold subscribers. cbn. rewrite dget_dset. by case_decide. Qed.

Lemma subscribers_ddel b t n t' :
  subscribers (set_subscriptions b (ddel (subscriptions b) t) n) t' = if decide (t = t') then [] else subscribers b t'.
Proof. unfold subscribers. cbn. rewrite dget_ddel. by case_decide. Qed.

Lemma already_subscribed l (h : H) :
  List.filter (λ s, bool_decide (sub_handler s = h)) l = [] ↔ h ∉ map sub_handler l.
Proof.
  induction l as [|s l IH]; cbn; [split; [intros _; apply not_elem_of_nil|done]|]. rewrite not_elem_of_cons, <- IH.
  case_bool_decide as Hs; split; [done|intros [Hn _]; by destruct Hn|intros ->; by split; [congruence|]|by intros [_ ?]].
Qed.

(** One list replaced by a well-formed one. *)
Lemma bus_wf_replace b t l n :
  bus_wf b → (next_id b <= n)%nat → list_wf t n l →
  bus_wf (set_subscriptions b (dset (subscriptions b) t l) n).
Proof.
  intros (Hd&Hl&Hh) Hn Hnew. split; [by apply dict_wf_dset|]. split; [|done]. intros t'. rewrite subscribers_dset.
  case_decide; subst; [done|]. by eapply list_wf_later.
Qed.

Lemma bus_wf_subscribe b t h p await : bus_wf b → bus_wf (subscribe b t h p await).1.
Proof.
  intros Hb. pose proof Hb as (_&Hl&_). unfold subscribe. destruct (List.filter _ _) as [|old ?] eqn:Hf; cbn.
  - apply bus_wf_replace; [done|lia|]. by apply list_wf_insert, already_subscribed.
  - apply bus_wf_replace; [done|lia|]. eapply list_wf_later; [|apply Hl]. lia.
Qed.

Lemma bus_wf_unsubscribe b t h : bus_wf b → bus_wf (unsubscribe b t h).1.
Proof.
  intros Hb. pose proof Hb as (_&Hl&_). unfold unsubscribe. destruct (dget _ _) as [l|] eqn:Ht; [|done]. cbn.
  apply bus_wf_replace; [done|lia|]. apply list_wf_filter. specialize (Hl t). unfold subscribers in Hl.
  by rewrite Ht in Hl.
Qed.

Lemma bus_wf_subscribe_each ts b h p : bus_wf b → bus_wf (subscribe_each b ts h p).1.
Proof.
  revert b. induction ts as [|t ts IH]; intros b Hb; cbn; [done|].
  pose proof (bus_wf_subscribe b t h p true Hb) as Hs. destruct (subscribe b t h p true) as [b' s].
  specialize (IH b' Hs). by destruct (subscribe_each b' ts h p).
Qed.

Lemma bus_wf_unsubscribe_all b t : bus_wf b → bus_wf (unsubscribe_all b t).
Proof.
  intros (Hd&Hl&Hh). destruct t as [t|]; cbn.
  - split; [by apply dict_wf_ddel|]. split; [|done]. intros t'. rewrite subscribers_ddel.
    case_decide; [apply list_wf_nil|apply Hl].
  - split; [apply dict_wf_nil|]. split; [|done]. intros t'. apply list_wf_nil.
Qed.

Lemma bus_wf_record b ev : bus_wf b → bus_wf (record_event b ev).
Proof.
  intros (Hd&Hl&Hh). split; [done|]. split; [done|]. cbn. rewrite length_drop, length_app. cbn. lia.
Qed.

Lemma bus_wf_new history timeout m : bus_wf (new_bus history timeout m).
Proof. split; [apply dict_wf_nil|]. split; [intros t; apply list_wf_nil|cbn; lia]. Qed.

(** What handlers keep, dispatch keeps. *)
Section kept.
  Context (P : event_bus H D → Prop).
  Hypothesis P_body : ∀ h ev b, P b → P (body h ev b).1.1.2.
  Hypothesis P_timeout : ∀ b, P b → P (count_timeout b).
  Hypothesis P_background : ∀ h ev b, P b → P (leave_running b h ev).

Lemma execute_keeps s ev b : P b → P (execute_handler body saturated s ev b).1.1.
Proof.
  intros Hb. unfold execute_handler, fire_and_forget, run_logging, run_pool, run_thread, run_inline.
  pose proof (P_body (sub_handler s) ev b Hb). destruct (body (sub_handler s) ev b) as [[[d b'] e] late].
  cbn in *. repeat case_match; simplify_eq/=; auto.
Qed.

Lemma deliver_keeps l ev b : P b → P (deliver body saturated l ev b).1.1.
Proof.
  revert ev b. induction l as [|s l IH]; intros ev b Hb; cbn; [done|]. case_decide; [auto|].
  pose proof (execute_keeps s ev b Hb) as He. destruct (execute_handler body saturated s ev b) as [[b1 ev1] r]. cbn in He.
  specialize (IH ev1 b1 He). destruct (deliver body saturated l ev1 b1) as [[b2 st] n]. by destruct r.
Qed.
End kept.

Definition publishes (o : bus_op) : bool := match o with Publish _ => true | _ => false end.

Lemma bus_wf_call b o : publishes o = false → bus_wf b → bus_wf (bus_step b o).
Proof.
  intros Ho Hb. destruct o; try done; cbn [bus_step];
    eauto using bus_wf_subscribe, bus_wf_unsubscribe, bus_wf_unsubscribe_all.
  - by apply bus_wf_subscribe_each.
  - destruct Hb as (?&?&?). split; [done|]. split; [done|]. cbn. lia.
  - split; [apply dict_wf_nil|]. split; [intros t; apply list_wf_nil|cbn; lia].
Qed.

(** What a handler can do to the bus it is given: call its methods.  A publication
    of its own records the event and dispatches other handlers, which count
    timeouts, stay in the background or act on the bus the same way. *)
Inductive api_step : event_bus H D → event_bus H D → Prop :=
| api_call b o : publishes o = false → api_step b (bus_step b o)
| api_record b ev : api_step b (record_event b ev)
| api_timeout b : api_step b (count_timeout b)
| api_background b h ev : api_step b (leave_running b h ev).

Definition through_the_api : Prop := ∀ h ev b, rtc api_step b (body h ev b).1.1.2.

(** Publishing from a handler is among the things it can do. *)
Lemma publish_through_api b ev : through_the_api → rtc api_step b (publish body saturated b ev).1.1.
Proof.
  intros Hbody. unfold publish. destruct (bus_enabled b); cbn; [|done]. eapply rtc_l; [apply api_record|].
  apply (deliver_keeps (rtc api_step (record_event b ev))); [|..|done].
  - intros h ev' b' Hb'. etrans; [exact Hb'|apply Hbody].
  - intros b' Hb'. eapply rtc_r; [exact Hb'|apply api_timeout].
  - intros h ev' b' Hb'. eapply rtc_r; [exact Hb'|apply api_background].
Qed.

Lemma bus_wf_api b b' : rtc api_step b b' → bus_wf b → bus_wf b'.
Proof.
  induction 1 as [|x y z Hxy _ IH]; [done|]. intros Hx. apply IH. destruct Hxy as [b o Ho|b ev|b|b h ev].
  - by apply bus_wf_call.
  - by apply bus_wf_record.
  - exact Hx.
  - exact Hx.
Qed.

Lemma bus_wf_step b o : through_the_api → bus_wf b → bus_wf (bus_step b o).
Proof.
  intros Hbody Hb. destruct (publishes o) eqn:Ho; [|by apply bus_wf_call].
  destruct o; try done. cbn [bus_step]. by apply (bus_wf_api b); [apply publish_through_api|].
Qed.

(** C16: The state of the bus stays well-formed: after any history of calls, whatever
    the handlers do to the bus through its methods (subscribing, unsubscribing,
    switching subscriptions, publishing in turn, resetting it; [through_the_api]), the
    subscriptions of every event type stand in order of descending priority, no handler
    and no identity occurs twice, each is filed under its own type, and the history
    holds at most [max_history] events. *)
Theorem bus_stays_well_formed history timeout m ops :
  through_the_api → bus_wf (foldl bus_step (new_bus history timeout m) ops).
Proof.
  intros Hbody. pose proof (bus_wf_new history timeout m) as Hnew. revert Hnew.
  generalize (new_bus (H:=H) (D:=D) history timeout m).
  induction ops as [|o ops IH]; intros b Hb; cbn; auto using bus_wf_step.
Qed.

(** *** Publication *)

Definition on (off : gset nat) (s : EventSubscription H) : bool := negb (bool_decide (sub_id s ∈ off)).

(** The handlers due for an event of type [t]. *)
Definition due b (t : string) : list H := map sub_handler (List.filter (on (switched_off b)) (subscribers b t)).

(** The dispatches made are those due, in order, or an interrupt ended them. *)
Definition dispatched_in_order (due : list H) (done : list (H * dispatched)) (n : option Z) : Prop :=
  match n with
  | Some n => done.*1 = due ∧ Interrupted ∉ done.*2 ∧
      n = countb (λ d, match d.2 with Completed => true | _ => false end) done
  | None => ∃ before h rest, done = before ++ [(h, Interrupted)] ∧ Interrupted ∉ before.*2 ∧ due = done.*1 ++ rest
  end.

Lemma deliver_in_order l ev b off :
  (∀ h ev b, switched_off (body h ev b).1.1.2 = switched_off b) → switched_off b = off →
  let r := deliver body saturated l ev b in
  dispatched_in_order (map sub_handler (List.filter (on off) l)) r.1.2 r.2.
Proof.
  intros Hbody. revert ev b. induction l as [|s l IH]; intros ev b Hoff; cbn.
  { split_and!; [done|apply not_elem_of_nil|done]. }
  unfold on at 1. rewrite Hoff.
  case_decide as Hs; [rewrite bool_decide_true by done; by apply IH|rewrite bool_decide_false by done].
  assert (switched_off (execute_handler body saturated s ev b).1.1 = off) as Hk.
  { apply (execute_keeps (λ b, switched_off b = off)); [|done..]. intros h ev' b' <-. apply Hbody. }
  destruct (execute_handler body saturated s ev b) as [[b1 ev1] r].
  cbn in Hk. specialize (IH ev1 b1 Hk). destruct (deliver body saturated l ev1 b1) as [[b2 st] n]. cbn in IH.
  destruct r; cycle -1.
  { exists [], (sub_handler s), (map sub_handler (List.filter (on off) l)). split_and!; [done|apply not_elem_of_nil|done]. }
  all: destruct n as [n|]; cbn in *.
  all: try (destruct IH as (<- & Hni & ->); rewrite countb_cons; cbn; split_and!; [done|set_solver|done]).
  all: destruct IH as (before & h & rest & -> & Hni & ->); eexists (_ :: before), h, rest; split_and!; [done|set_solver|done].
Qed.

(** Nothing else is dispatched, and nothing out of order, whatever handlers do. *)
Lemma deliver_sublist l ev b : (deliver body saturated l ev b).1.2.*1 `sublist_of` map sub_handler l.
Proof.
  revert ev b. induction l as [|s l IH]; intros ev b; cbn; [constructor|]. case_decide; [by apply sublist_cons|].
  destruct (execute_handler body saturated s ev b) as [[b1 ev1] r]. specialize (IH ev1 b1).
  destruct (deliver body saturated l ev1 b1) as [[b2 st] n]. cbn in IH.
  destruct r; cbn; apply sublist_skip; done || apply sublist_nil_l.
Qed.

(** A handler is cancelled only in the pool's queue, and answers only when it ran. *)
Lemma execute_cancelled s ev b :
  (execute_handler body saturated s ev b).2 = Cancelled →
  await_result s = true ∧ mode b = async_pool ∧ saturated (sub_handler s) ev b = true.
Proof.
  unfold execute_handler, fire_and_forget, run_logging, run_pool, run_thread, run_inline, outcome_of.
  destruct (body (sub_handler s) ev b) as [[[d b'] e] late].
  destruct (await_result s), (handler_timeout b <=? 0), (mode b), (pool_accepts b),
    (saturated (sub_handler s) ev b), late, e; cbn; done.
Qed.

Lemma deliver_cancels l ev b :
  (∀ h ev b, saturated h ev b = false) → Cancelled ∉ (deliver body saturated l ev b).1.2.*2.
Proof.
  intros Hs. revert ev b. induction l as [|s l IH]; intros ev b; cbn; [apply not_elem_of_nil|]. case_decide; [apply IH|].
  pose proof (execute_cancelled s ev b) as He. destruct (execute_handler body saturated s ev b) as [[b1 ev1] r].
  specialize (IH ev1 b1). destruct (deliver body saturated l ev1 b1) as [[b2 st] n]. cbn in *.
  assert (r ≠ Cancelled) by (intros ->; destruct (He eq_refl) as (_ & _ & H'); by rewrite Hs in H').
  destruct r; cbn; set_solver.
Qed.

Lemma execute_completes s ev b :
  (∀ h ev b, (body h ev b).1.2 = Finished ∧ (body h ev b).2 = false) → (∀ h ev b, saturated h ev b = false) →
  (execute_handler body saturated s ev b).2 = Completed.
Proof.
  intros Hb Hq. unfold execute_handler, fire_and_forget, run_logging, run_pool, run_thread, run_inline.
  specialize (Hb (sub_handler s) ev b). destruct (body (sub_handler s) ev b) as [[[d b'] e] late]. cbn in Hb.
  destruct Hb as [-> ->]. rewrite Hq. repeat case_match; simplify_eq/=; done.
Qed.

Lemma deliver_completes l ev b :
  (∀ h ev b, (body h ev b).1.2 = Finished ∧ (body h ev b).2 = false) → (∀ h ev b, saturated h ev b = false) →
  let r := deliver body saturated l ev b in r.2 = Some (Zlength r.1.2).
Proof.
  intros Hbody Hq. revert ev b. induction l as [|s l IH]; intros ev b; cbn; [done|]. case_decide; [apply IH|].
  pose proof (execute_completes s ev b Hbody Hq) as He. destruct (execute_handler body saturated s ev b) as [[b1 ev1] r].
  cbn in He. subst r. specialize (IH ev1 b1). destruct (deliver body saturated l ev1 b1) as [[b2 st] n]. cbn in *. subst n. cbn.
  f_equal. unfold Zlength. cbn. lia.
Qed.


(** A new handler is placed by its priority: on a well-formed bus, subscribing puts
    it after every subscription of its type with the same or a higher priority and
    before every one with a lower priority, the others keep their order, and other types
    are untouched; subscribing a handler again answers with the subscription it has and
    changes no list. *)
Theorem subscribe_places_by_priority b t h p await :
  bus_wf b →
  let '(b', s) := subscribe b t h p await in
  let l := subscribers b t in
  (∀ t', t' ≠ t → subscribers b' t' = subscribers b t') ∧
  if bool_decide (h ∈ map sub_handler l)
  then s ∈ l ∧ sub_handler s = h ∧ subscribers b' t = l
  else s = Subscription (next_id b) t h p await ∧
       subscribers b' t =
         List.filter (λ s, priority_value p <=? priority_value (sub_priority s)) l ++ s ::
         List.filter (λ s, priority_value (sub_priority s) <? priority_value p) l.
Proof.
  intros Hb. destruct Hb as (_&Hl&_). specialize (Hl t) as (Hs&_). unfold subscribe.
  set (l := subscribers b t) in *. pose proof (already_subscribed l h) as Hin.
  destruct (List.filter (λ s, bool_decide (sub_handler s = h)) l) as [|old olds] eqn:Hf.
  - split; [intros t' Ht'; rewrite subscribers_dset; by rewrite decide_False by congruence|].
    rewrite bool_decide_false by (by apply Hin). split; [done|]. rewrite subscribers_dset, decide_True by done.
    unfold by_priority. rewrite sort_by_snoc by (by apply priority_order_flip).
    f_equal; [|f_equal]; apply List.filter_ext; intros s; cbn; lia.
  - split; [intros t' Ht'; rewrite subscribers_dset; by rewrite decide_False by congruence|].
    assert (old ∈ l ∧ sub_handler old = h) as [Hold Hh].
    { assert (old ∈ old :: olds) as Ho by left. rewrite <- Hf in Ho.
      apply list_elem_of_In, List.filter_In in Ho as [?%list_elem_of_In Ho]. by case_bool_decide. }
    rewrite bool_decide_true; [|by rewrite <- Hh; apply list_elem_of_fmap_2].
    split; [done|]. split; [done|]. by rewrite subscribers_dset, decide_True.
Qed.

(** The docstring of [get_history] calls [limit] the maximum number of entries; a
    limit of 0 answers with all of them. *)
Lemma limit_zero_returns_everything b : get_history b None 0 = event_history b.
Proof. done. Qed.

(** A [TimeoutError] of the handler's own, raised in time, is counted as a timeout of
    the bus in the pool and not reported as a failure; in a thread it is a failure. *)
Lemma own_timeout_counted_as_the_bus's h ev b d b' :
  pool_accepts b = true → saturated h ev b = false → body h ev b = (d, b', RaisesTimeoutError, false) →
  (run_pool body saturated h ev b = (count_timeout b', with_data ev d, TimedOut)) ∧
  (run_thread body h ev b = (b', with_data ev d, Failed)).
Proof. intros Hp Hs Hb. unfold run_pool, run_thread. by rewrite Hp, Hs, Hb. Qed.
End theorems.

(** ** Instances *)

(** Handlers by name, on numbers: "fails" raises, "hangs" is late, "adds" changes the
    data, "mutes" unsubscribes "adds" from the type of its event. *)
Definition demo_body (h : string) (ev : BaldurEvent Z) (b : event_bus string Z) :
    Z * event_bus string Z * ending * bool :=
  if decide (h = "fails") then (ev_data ev, b, RaisesError, false)
  else if decide (h = "hangs") then (ev_data ev, b, Finished, true)
  else if decide (h = "adds") then (ev_data ev + 1, b, Finished, false)
  else if decide (h = "mutes") then (ev_data ev, (unsubscribe b (ev_type ev) "adds").1, Finished, false)
  else (ev_data ev, b, Finished, false).

Definition demo_event : BaldurEvent Z := Event "saga_started" 7 "tests" 0 NORMAL None "e1".

Definition demo_ops : list (bus_op (H:=string) (D:=Z)) :=
  [Subscribe "saga_started" "adds" LOW true; Subscribe "saga_started" "fails" NORMAL true;
   Subscribe "saga_started" "mutes" CRITICAL true; Subscribe "saga_started" "hangs" NORMAL true;
   Subscribe "saga_started" "logs" HIGH false; Switch 4 false; Publish demo_event; Publish demo_event].

(** The workers are busy when "hangs" was the last to be left behind. *)
Definition busy_pool (h : string) (ev : BaldurEvent Z) (b : event_bus string Z) : bool := 1 <=? timeout_count b.

Definition demo_bus : event_bus string Z :=
  foldl (bus_step demo_body busy_pool) (new_bus 1 (seconds 5) async_pool) (take 6 demo_ops).

Lemma demo_body_api : through_the_api demo_body busy_pool.
Proof.
  intros h ev b. unfold demo_body. repeat case_decide; cbn; try apply rtc_refl.
  eapply rtc_l; [|apply rtc_refl]. by apply (api_call _ _ b (Unsubscribe (ev_type ev) "adds")).
Qed.

Lemma demo_body_switches h ev b : switched_off (demo_body h ev b).1.1.2 = switched_off b.
Proof. unfold demo_body, unsubscribe. repeat case_decide; cbn; try done. by destruct (dget _ _). Qed.

Lemma demo_bus_wf : bus_wf demo_bus.
Proof.
  unfold demo_bus. cbn [foldl take demo_ops]. repeat (apply bus_wf_step; [exact demo_body_api|]). apply bus_wf_new.
Qed.

Lemma bus_stays_well_formed_witness :
  bus_wf (foldl (bus_step demo_body busy_pool) (new_bus 1 (seconds 5) async_pool) demo_ops).
Proof. exact (bus_stays_well_formed demo_body busy_pool 1 (seconds 5) async_pool demo_ops demo_body_api). Defined.


Lemma subscribe_places_by_priority_witness :
  map sub_handler (subscribers (subscribe demo_bus "saga_started" "new" NORMAL true).1 "saga_started") =
    ["mutes"; "logs"; "fails"; "hangs"; "new"; "adds"] ∧
  (let '(b', s) := subscribe demo_bus "saga_started" "new" NORMAL true in
   ∀ t', t' ≠ "saga_started" → subscribers b' t' = subscribers demo_bus t').
Proof.
  split; [vm_compute; reflexivity|].
  pose proof (subscribe_places_by_priority demo_bus "saga_started" "new" NORMAL true
    demo_bus_wf) as Hw.
  destruct (subscribe demo_bus "saga_started" "new" NORMAL true) as [b' s]. exact (proj1 Hw).
Defined.
