(* ===== verification/Shutdown.v ===== *)
(** Graceful shutdown ([core/shutdown_coordinator.py]): the tracker of requests in
    flight, the coordinator's phases, the handlers it tells, the drain with its
    deadline, and process exit on signals.  Threads that start and end requests, the
    thread that initiates, the drain thread and the signal handler interleave: a
    configuration holds what they share and where each stands, and a move is one
    atomic step of one of them.  Times are microseconds. *)
From S2P Require Import Prelude.

(** ** Requests in flight *)

Inductive RequestState : Type := IN_PROGRESS | COMPLETED | ABORTED | TIMED_OUT.

#[export] Instance RequestState_eq_dec : EqDecision RequestState.
Proof. solve_decision. Defined.

Record TrackedRequest : Type := Tracked {
  request_id : string; started_at : Z; endpoint : string; method : string; req_state : RequestState;
  req_metadata : dict string pyval }.

(** Requests are objects: the lists handed out share them with the tracker.  An
    object is its position in [objects], which only grows. *)
Record RequestTracker : Type := Tracker {
  objects : list TrackedRequest; requests : dict string nat; max_age : Z; completed_count : Z }.

Definition new_tracker (age : Z) : RequestTracker := Tracker [] [] age 0.

Definition set_req_state (r : TrackedRequest) (s : RequestState) : TrackedRequest :=
  Tracked (request_id r) (started_at r) (endpoint r) (method r) s (req_metadata r).

Definition has_state (t : RequestTracker) (s : RequestState) (o : nat) : bool :=
  match objects t !! o with Some r => bool_decide (req_state r = s) | None => false end.

Definition older (t : RequestTracker) (cutoff : Z) (o : nat) : bool :=
  match objects t !! o with Some r => started_at r <? cutoff | None => false end.

(** [_cleanup_old_requests] *)
Definition cleanup_old_requests (t : RequestTracker) (now : Z) : RequestTracker :=
  let cutoff := now - max_age t in
  let old_ids := map fst (List.filter (λ ro, older t cutoff ro.2 && negb (has_state t IN_PROGRESS ro.2)) (requests t)) in
  Tracker (objects t) (foldl ddel (requests t) old_ids) (max_age t) (completed_count t).

(** [start_request]; the clock is read for the request and again for the cleanup. *)
Definition start_request (t : RequestTracker) (now later : Z) (rid ep me : string) (md : dict string pyval) :
    RequestTracker * nat :=
  let o := length (objects t) in
  (cleanup_old_requests
     (Tracker (objects t ++ [Tracked rid now ep me IN_PROGRESS md]) (dset (requests t) rid o) (max_age t) (completed_count t))
     later, o).

Definition mark (l : list TrackedRequest) (s : RequestState) (o : nat) : list TrackedRequest :=
  match l !! o with Some r => <[o := set_req_state r s]> l | None => l end.

Definition end_request (t : RequestTracker) (rid : string) (success : bool) : RequestTracker * option nat :=
  match dget (requests t) rid with
  | None => (t, None)
  | Some o =>
      (Tracker (mark (objects t) (if success then COMPLETED else ABORTED) o) (ddel (requests t) rid) (max_age t)
         (completed_count t + 1), Some o)
  end.

Definition get_pending_requests (t : RequestTracker) : list nat :=
  List.filter (has_state t IN_PROGRESS) (dvals (requests t)).
Definition get_pending_count (t : RequestTracker) : Z := Zlength (get_pending_requests t).

Definition abort_all (t : RequestTracker) : RequestTracker * list nat * Z :=
  let aborted := get_pending_requests t in
  (Tracker (foldl (λ l o, mark l ABORTED o) (objects t) aborted) (requests t) (max_age t) (completed_count t),
   aborted, completed_count t).

(** ** Signal dispositions *)

(** What [signal.getsignal] answers: a handler of Baldur's own (with its coordinator, if
    it has one) names the disposition it is chained over. *)
Inductive disposition : Type :=
  | SIG_IGN | SIG_DFL | C_handler | Host_handler
  | Baldur_handler (coordinator : option nat) (original : disposition).

Inductive SignalDispositionMode : Type := SKIP_IGNORED | SKIP_UNKNOWN | CHAIN | DEFER_EXIT.

Fixpoint classify_signal_disposition (original : disposition) : SignalDispositionMode :=
  match original with
  | Baldur_handler _ d => classify_signal_disposition d
  | C_handler => SKIP_UNKNOWN
  | SIG_IGN => SKIP_IGNORED
  | SIG_DFL => DEFER_EXIT
  | Host_handler => CHAIN
  end.

Fixpoint chain_contains_own_handler (self : nat) (original : disposition) : bool :=
  match original with
  | Baldur_handler c d => bool_decide (c = Some self) || chain_contains_own_handler self d
  | _ => false
  end.

Definition callable (d : disposition) : bool :=
  match d with Host_handler | Baldur_handler _ _ => true | _ => false end.

(** [_register_signal]: the disposition afterwards *)
Definition register_signal (self : nat) (original : disposition) : disposition :=
  if chain_contains_own_handler self original then original
  else match classify_signal_disposition original with
       | SKIP_IGNORED | SKIP_UNKNOWN => original
       | _ => Baldur_handler (Some self) original
       end.

Definition SIGTERM : Z := 15.
Definition SIGINT : Z := 2.

(** [register_signals] on the dispositions of the process *)
Definition register_signals (self : nat) (under_gunicorn : bool) (d : Z → disposition) : Z → disposition :=
  if under_gunicorn then d
  else λ s, if bool_decide (s = SIGTERM ∨ s = SIGINT) then register_signal self (d s) else d s.

(** ** The coordinator *)

Inductive ShutdownPhase : Type := RUNNING | DRAINING | TERMINATING | TERMINATED.

#[export] Instance ShutdownPhase_eq_dec : EqDecision ShutdownPhase.
Proof. solve_decision. Defined.

Section coordinator.
  Context {H : Type}.

Record coordinator : Type := Coordinator {
  tracker : option RequestTracker; drain_timeout : Z; check_interval : Z; handlers : list H; phase : ShutdownPhase;
  shutdown_started_at : option Z; signal_once : bool; exit_signum : option Z; drained_count : Z; aborted_count : Z;
  completed_at_drain_start : Z }.

Definition new_coordinator (t : option RequestTracker) (timeout interval : Z) (h : option H) : coordinator :=
  Coordinator t timeout interval (option_list h) RUNNING None false None 0 0 0.

Definition set_tracker (c : coordinator) (t : RequestTracker) : coordinator :=
  Coordinator (Some t) (drain_timeout c) (check_interval c) (handlers c) (phase c) (shutdown_started_at c) (signal_once c)
    (exit_signum c) (drained_count c) (aborted_count c) (completed_at_drain_start c).
Definition set_phase (c : coordinator) (p : ShutdownPhase) : coordinator :=
  Coordinator (tracker c) (drain_timeout c) (check_interval c) (handlers c) p (shutdown_started_at c) (signal_once c)
    (exit_signum c) (drained_count c) (aborted_count c) (completed_at_drain_start c).
Definition set_signal (c : coordinator) (once : bool) (s : option Z) : coordinator :=
  Coordinator (tracker c) (drain_timeout c) (check_interval c) (handlers c) (phase c) (shutdown_started_at c) once s
    (drained_count c) (aborted_count c) (completed_at_drain_start c).
Definition set_counts (c : coordinator) (drained aborted : Z) : coordinator :=
  Coordinator (tracker c) (drain_timeout c) (check_interval c) (handlers c) (phase c) (shutdown_started_at c) (signal_once c)
    (exit_signum c) drained aborted (completed_at_drain_start c).

Definition completed (c : coordinator) : Z := match tracker c with Some t => completed_count t | None => 0 end.
Definition pending (c : coordinator) : list nat := match tracker c with Some t => get_pending_requests t | None => [] end.
Definition pending_count (c : coordinator) : Z := Zlength (pending c).

Definition is_accepting_requests (c : coordinator) : bool := bool_decide (phase c = RUNNING).
Definition is_shutting_down (c : coordinator) : bool := bool_decide (phase c = DRAINING ∨ phase c = TERMINATING).

Inductive shutdown_error : Type := ShutdownError (p : ShutdownPhase).

Definition register_handler (c : coordinator) (h : H) : coordinator * (shutdown_error + ()) :=
  if bool_decide (phase c = RUNNING)
  then (Coordinator (tracker c) (drain_timeout c) (check_interval c) (handlers c ++ [h]) (phase c) (shutdown_started_at c)
          (signal_once c) (exit_signum c) (drained_count c) (aborted_count c) (completed_at_drain_start c), inr ())
  else (c, inl (ShutdownError (phase c))).

(** The locked part of [initiate_shutdown]: [None] if the shutdown has begun. *)
Definition begin_shutdown (c : coordinator) (now : Z) : option coordinator :=
  if bool_decide (phase c = RUNNING)
  then Some (Coordinator (tracker c) (drain_timeout c) (check_interval c) (handlers c) DRAINING (Some now) (signal_once c)
               (exit_signum c) (drained_count c) (aborted_count c) (completed c))
  else None.

Record ShutdownStats : Type := Stats {
  st_phase : ShutdownPhase; st_started_at : option Z; in_flight_count : Z; completed_during_drain : Z; st_aborted_count : Z;
  drain_timeout_seconds : Z; remaining_drain_time : option Z }.

(** [get_stats], when nothing else runs meanwhile *)
Definition get_stats (c : coordinator) (now : Z) : ShutdownStats :=
  let remaining := match shutdown_started_at c with
                   | Some t => if bool_decide (phase c = DRAINING) then Some (Z.max 0 (drain_timeout c - (now - t))) else None
                   | None => None
                   end in
  let during := if bool_decide (is_Some (tracker c) ∧ is_Some (shutdown_started_at c)) && is_shutting_down c
                then completed c - completed_at_drain_start c else drained_count c in
  Stats (phase c) (shutdown_started_at c) (pending_count c) during (aborted_count c) (drain_timeout c) remaining.
End coordinator.
Arguments coordinator H : clear implicits.

(** ** Threads *)

Section threads.
  Context {H : Type}.

(** How a call of a handler ends; the value matters for [is_drain_complete] only. *)
Inductive reply : Type := Returns (b : bool) | Raises | RaisesBase.

Inductive call : Type :=
  | OnShutdownStart (h : H) | OnDrainComplete (h : H) | OnForceShutdown (h : H) (pending : list nat).

(** [initiate_shutdown] after its lock: the handlers still to be told. *)
Inductive starter : Type := NotStarting | Telling (hs : list H) | Spawning | Started | StarterDied.

(** The drain thread ([_drain_and_shutdown], [_arm_deferred_exit]). *)
Inductive drain : Type :=
  | NoDrain
  | Setting                                                  (** about to compute the deadline *)
  | Top (deadline : Z)                                       (** about to test it *)
  | Counting (deadline : Z)                                  (** about to count the pending requests *)
  | Polling (deadline : Z) (http_drained : bool) (hs : list H)
  | Sleeping (deadline until : Z)
  | Drained                                                  (** about to set TERMINATED *)
  | CountingDrained                                          (** about to store the drained count *)
  | TellingDrained (hs : list H)
  | TimedOut                                                 (** about to set TERMINATING *)
  | Collecting                                               (** about to list the pending requests *)
  | Aborting (listed : list nat)
  | StoringAborted (listed : list nat) (aborted done : Z)
  | StoringDrained (listed : list nat) (done : Z)
  | TellingForced (listed : list nat) (hs : list H)
  | Forced                                                   (** about to set TERMINATED *)
  | ArmingExit
  | Deadman (signum until : Z)
  | Ended
  | DrainDied.

(** The first delivery of a signal ([_coordinator_signal_handler]): whether the
    coordinator owns the exit, whether the captured handler is callable, and whether
    this handler is the one that initiates. *)
Inductive signal_frame : Type :=
  | NoFrame
  | Taken (signum : Z) (defer_exit chained : bool)
  | Armed (signum : Z) (chained : bool)
  | Initiating (signum : Z) (chained first : bool)
  | Returned.

Inductive exit : Type := KilledBy (signum : Z) | ExitCode (code : Z).

Record config : Type := Config {
  coord : coordinator H; start : starter; drainer : drain; frame : signal_frame; clock : Z; calls : list call;
  forwarded : list Z; sent : list Z; exited : option exit }.

Definition initial (c : coordinator H) (now : Z) : config := Config c NotStarting NoDrain NoFrame now [] [] [] None.

Definition with_coord (cf : config) (c : coordinator H) : config :=
  Config c (start cf) (drainer cf) (frame cf) (clock cf) (calls cf) (forwarded cf) (sent cf) (exited cf).
Definition with_start (cf : config) (s : starter) : config :=
  Config (coord cf) s (drainer cf) (frame cf) (clock cf) (calls cf) (forwarded cf) (sent cf) (exited cf).
Definition with_drain (cf : config) (d : drain) : config :=
  Config (coord cf) (start cf) d (frame cf) (clock cf) (calls cf) (forwarded cf) (sent cf) (exited cf).
Definition with_frame (cf : config) (f : signal_frame) : config :=
  Config (coord cf) (start cf) (drainer cf) f (clock cf) (calls cf) (forwarded cf) (sent cf) (exited cf).
Definition with_call (cf : config) (k : call) : config :=
  Config (coord cf) (start cf) (drainer cf) (frame cf) (clock cf) (calls cf ++ [k]) (forwarded cf) (sent cf) (exited cf).
Definition forward (cf : config) (s : Z) : config :=
  Config (coord cf) (start cf) (drainer cf) (frame cf) (clock cf) (calls cf) (forwarded cf ++ [s]) (sent cf) (exited cf).
Definition send (cf : config) (s : Z) : config :=
  Config (coord cf) (start cf) (drainer cf) (frame cf) (clock cf) (calls cf) (forwarded cf) (sent cf ++ [s]) (exited cf).
Definition leave (cf : config) (e : exit) : config :=
  Config (coord cf) (start cf) (drainer cf) (frame cf) (clock cf) (calls cf) (forwarded cf) (sent cf) (Some e).
Definition pass_time (cf : config) (dt : Z) : config :=
  Config (coord cf) (start cf) (drainer cf) (frame cf) (clock cf + dt) (calls cf) (forwarded cf) (sent cf) (exited cf).

(** [initiate_shutdown] up to the first handler, and whether this call begins it. *)
Definition initiate (cf : config) : config * bool :=
  match begin_shutdown (coord cf) (clock cf) with
  | Some c => (with_start (with_coord cf c) (Telling (handlers c)), true)
  | None => (cf, false)
  end.

(** One handler told, or the drain thread started. *)
Definition starter_step (cf : config) (r : reply) : option config :=
  match start cf with
  | Telling (h :: hs) =>
      let cf := with_call cf (OnShutdownStart h) in
      Some (with_start cf (match r with RaisesBase => StarterDied | _ => Telling hs end))
  | Telling [] => Some (with_start cf Spawning)
  | Spawning => Some (with_start (with_drain cf Setting) Started)
  | _ => None
  end.

Definition SIGNAL_EXIT_DEADMAN : Z := seconds 5.

(** [_safe_is_drain_complete] *)
Definition safe_is_drain_complete (r : reply) : option bool :=
  match r with Returns b => Some b | Raises => Some true | RaisesBase => None end.

Definition drain_step (cf : config) (r : reply) : option config :=
  let c := coord cf in
  match drainer cf with
  | Setting => Some (with_drain cf (Top (clock cf + drain_timeout c)))
  | Top d => Some (with_drain cf (if clock cf <? d then Counting d else TimedOut))
  | Counting d => Some (with_drain cf (Polling d (pending_count c =? 0) (handlers c)))
  | Polling d http (h :: hs) =>
      Some (with_drain cf match safe_is_drain_complete r with
                          | Some true => Polling d http hs
                          | Some false => Sleeping d (clock cf + check_interval c)
                          | None => DrainDied
                          end)
  | Polling d http [] => Some (with_drain cf (if http then Drained else Sleeping d (clock cf + check_interval c)))
  | Sleeping d until => if until <=? clock cf then Some (with_drain cf (Top d)) else None
  | Drained => Some (with_drain (with_coord cf (set_phase c TERMINATED)) CountingDrained)
  | CountingDrained =>
      let n := match tracker c with Some t => completed_count t - completed_at_drain_start c | None => 0 end in
      Some (with_drain (with_coord cf (set_counts c n (aborted_count c))) (TellingDrained (handlers c)))
  | TellingDrained (h :: hs) =>
      Some (with_drain (with_call cf (OnDrainComplete h)) (match r with RaisesBase => DrainDied | _ => TellingDrained hs end))
  | TellingDrained [] => Some (with_drain cf ArmingExit)
  | TimedOut => Some (with_drain (with_coord cf (set_phase c TERMINATING)) Collecting)
  | Collecting => Some (with_drain cf (Aborting (pending c)))
  | Aborting l =>
      match tracker c with
      | Some t =>
          let '(t, aborted, done) := abort_all t in
          Some (with_drain (with_coord cf (set_tracker c t)) (StoringAborted l (Zlength aborted) done))
      | None => Some (with_drain cf (StoringAborted l 0 0))
      end
  | StoringAborted l n done =>
      Some (with_drain (with_coord cf (set_counts c (drained_count c) n)) (StoringDrained l done))
  | StoringDrained l done =>
      Some (with_drain (with_coord cf (set_counts c (done - completed_at_drain_start c) (aborted_count c)))
              (TellingForced l (handlers c)))
  | TellingForced l (h :: hs) =>
      Some (with_drain (with_call cf (OnForceShutdown h l)) (match r with RaisesBase => DrainDied | _ => TellingForced l hs end))
  | TellingForced l [] => Some (with_drain cf Forced)
  | Forced => Some (with_drain (with_coord cf (set_phase c TERMINATED)) ArmingExit)
  | ArmingExit =>
      match exit_signum c with
      | None => Some (with_drain cf Ended)
      | Some s => Some (with_drain (send cf s) (Deadman s (clock cf + SIGNAL_EXIT_DEADMAN)))
      end
  | Deadman s until => if until <=? clock cf then Some (with_drain (leave cf (ExitCode (128 + s))) Ended) else None
  | NoDrain | Ended | DrainDied => None
  end.

(** A signal arrives at the coordinator's handler. *)
Definition deliver_signal (cf : config) (s : Z) (defer_exit chained : bool) : config :=
  let c := coord cf in
  if negb (signal_once c) then with_frame (with_coord cf (set_signal c true (exit_signum c))) (Taken s defer_exit chained)
  else if defer_exit then leave cf (KilledBy s)
  else if chained then forward cf s
  else cf.

(** The rest of the first delivery. *)
Definition signal_step (cf : config) : option config :=
  match frame cf with
  | Taken s defer chained =>
      let c := coord cf in
      Some (with_frame (with_coord cf (set_signal c (signal_once c) (if defer then Some s else exit_signum c))) (Armed s chained))
  | Armed s chained => let '(cf, first) := initiate cf in Some (with_frame cf (Initiating s chained first))
  | Initiating s chained first =>
      if first && negb match start cf with Started => true | _ => false end then None
      else Some (with_frame (if chained then forward cf s else cf) Returned)
  | NoFrame | Returned => None
  end.

(** [wait_for_shutdown] once the join has returned *)
Definition wait_for_shutdown (cf : config) : bool :=
  match start cf with Started => bool_decide (phase (coord cf) = TERMINATED) | _ => false end.

(** ** Moves *)

Inductive move : Type :=
  | RegisterHandler (h : H)
  | StartRequest (rid ep me : string) (md : dict string pyval)
  | EndRequest (rid : string) (success : bool)
  | Initiate
  | StarterStep (r : reply)
  | DrainStep (r : reply)
  | Signal (s : Z) (defer_exit chained : bool)
  | SignalStep
  | Tick (dt : Z).

(** [None]: not possible here. *)
Definition do_move (cf : config) (m : move) : option config :=
  match exited cf with
  | Some _ => None
  | None =>
      match m with
      | RegisterHandler h => Some (with_coord cf (register_handler (coord cf) h).1)
      | StartRequest rid ep me md =>
          match tracker (coord cf) with
          | Some t => Some (with_coord cf (set_tracker (coord cf) (start_request t (clock cf) (clock cf) rid ep me md).1))
          | None => None
          end
      | EndRequest rid success =>
          match tracker (coord cf) with
          | Some t => Some (with_coord cf (set_tracker (coord cf) (end_request t rid success).1))
          | None => None
          end
      | Initiate => Some (initiate cf).1
      | StarterStep r => starter_step cf r
      | DrainStep r => drain_step cf r
      | Signal s defer chained => Some (deliver_signal cf s defer chained)
      | SignalStep => signal_step cf
      | Tick dt => if 0 <=? dt then Some (pass_time cf dt) else None
      end
  end.

Fixpoint run (cf : config) (ms : list move) : option config :=
  match ms with [] => Some cf | m :: ms => cf ← do_move cf m; run cf ms end.
End threads.
Arguments config H : clear implicits. Arguments move H : clear implicits. Arguments drain H : clear implicits.
Arguments call H : clear implicits. Arguments starter H : clear implicits.

(** ** What moves keep *)

Ltac open_move cf m Hm :=
  destruct cf as [c st d f t k fw se ex]; unfold do_move in Hm; cbn in Hm; destruct ex; [discriminate Hm|];
  destruct m; cbn in Hm;
  unfold starter_step, drain_step, signal_step, deliver_signal, initiate, begin_shutdown, register_handler in Hm; cbn in Hm;
  repeat (case_match; cbn in *; simplify_option_eq); simplify_eq/=.

Section theorems.
  Context {H : Type}.
  Implicit Types (cf : config H) (ms : list (move H)).

Lemma run_app cf ms1 ms2 : run cf (ms1 ++ ms2) = run cf ms1 ≫= λ cf', run cf' ms2.
Proof. revert cf. induction ms1 as [|m ms1 IH]; intros cf; cbn; [done|]. destruct (do_move cf m); cbn; auto. Qed.

(** A property that every move keeps holds along a run. *)
Lemma run_keeps (P : config H → Prop) cf ms cf' :
  (∀ cf m cf', P cf → do_move cf m = Some cf' → P cf') → P cf → run cf ms = Some cf' → P cf'.
Proof.
  intros HP. revert cf. induction ms as [|m ms IH]; intros cf Hcf; cbn; [congruence|].
  destruct (do_move cf m) as [cf1|] eqn:Hm; cbn; [|done]. eauto.
Qed.

(** Once begun, a shutdown stays begun, with its handlers and its baseline. *)
Definition begun (hs : list H) (base : Z) cf : Prop :=
  phase (coord cf) ≠ RUNNING ∧ handlers (coord cf) = hs ∧ completed_at_drain_start (coord cf) = base.

Lemma begun_step hs base cf m cf' : begun hs base cf → do_move cf m = Some cf' → begun hs base cf'.
Proof. intros (Hp & Hh & Hb) Hm. open_move cf m Hm; repeat split; cbn in *; congruence. Qed.

Definition start_ids ms : list string := omap (λ m, match m with StartRequest rid _ _ _ => Some rid | _ => None end) ms.

Definition object_count cf : Z := match tracker (coord cf) with Some t => Zlength (objects t) | None => 0 end.

Lemma length_mark l s o : length (mark l s o) = length l.
Proof. unfold mark. destruct (l !! o); [apply length_insert|done]. Qed.

Lemma length_mark_all s os : ∀ l, length (foldl (λ l o, mark l s o) l os) = length l.
Proof. induction os as [|o os IH]; intros l; cbn; [done|]. by rewrite IH, length_mark. Qed.

Lemma object_count_step cf m cf' :
  do_move cf m = Some cf' → object_count cf' = object_count cf + Zlength (start_ids [m]).
Proof.
  intros Hm. unfold object_count, Zlength. open_move cf m Hm; cbn; try lia;
    repeat match goal with E : tracker _ = _ |- _ => rewrite ?E; clear E end; cbn;
    rewrite ?length_app, ?length_mark, ?length_mark_all; cbn; try lia.
  all: unfold end_request, abort_all in *; repeat case_match; simplify_eq/=; rewrite ?length_mark, ?length_mark_all; lia.
Qed.

(** *** The books *)

(** Until requests are aborted: every object is ended and counted, or tracked and in
    progress, and it is tracked once, under an id of [ids]. *)
Record books (ids : list string) (t : RequestTracker) : Prop := {
  bk_wf : dict_wf (requests t);
  bk_ids : ∀ k, k ∈ dkeys (requests t) → k ∈ ids;
  bk_open : ∀ k o, dget (requests t) k = Some o → has_state t IN_PROGRESS o = true;
  bk_once : ∀ k k' o, dget (requests t) k = Some o → dget (requests t) k' = Some o → k = k';
  bk_sum : completed_count t + Zlength (requests t) = Zlength (objects t) }.

Lemma books_pending ids t : books ids t → get_pending_requests t = dvals (requests t).
Proof.
  intros Hb. apply filter_all. intros o Ho. apply elem_of_dvals in Ho as [k Hk]; [|apply Hb].
  by eapply bk_open.
Qed.

Lemma books_pending_count ids t : books ids t → get_pending_count t = Zlength (requests t).
Proof. intros Hb. unfold get_pending_count. rewrite (books_pending ids) by done. unfold Zlength, dvals. by rewrite length_fmap. Qed.

(** Nothing is cleaned up while everything tracked is in progress. *)
Lemma books_cleanup ids t now : books ids t → cleanup_old_requests t now = t.
Proof.
  intros Hb. unfold cleanup_old_requests. rewrite filter_none; [by destruct t|]. intros [k o] Hko. cbn.
  apply elem_of_dict in Hko; [|apply Hb]. by rewrite (bk_open _ _ Hb _ _ Hko), andb_false_r.
Qed.

Lemma has_state_app l r s t o :
  has_state t s o = true → objects t = l → has_state (Tracker (l ++ [r]) (requests t) (max_age t) (completed_count t)) s o = true.
Proof.
  unfold has_state. cbn. intros Ho <-. destruct (objects t !! o) eqn:E; [|done]. by rewrite (lookup_app_l_Some _ _ _ _ E).
Qed.

Lemma books_start ids t now later rid ep me md :
  books ids t → rid ∉ ids → books (rid :: ids) (start_request t now later rid ep me md).1.
Proof.
  intros Hb Hrid. unfold start_request. cbn [fst].
  assert (dget (requests t) rid = None) as Hnew.
  { destruct (dget (requests t) rid) eqn:E; [|done]. destruct Hrid. apply (bk_ids _ _ Hb), elem_of_dkeys. by rewrite E. }
  assert (∀ k o, dget (requests t) k = Some o → (o < length (objects t))%nat) as Hlt.
  { intros k o Hk. pose proof (bk_open _ _ Hb _ _ Hk) as Ho. unfold has_state in Ho.
    destruct (objects t !! o) eqn:E; [|done]. by eapply lookup_lt_Some. }
  set (t' := Tracker _ _ _ _). assert (books (rid :: ids) t') as Hb'.
  { constructor; unfold t'; cbn [requests objects completed_count].
    - apply dict_wf_dset, Hb.
    - intros k. rewrite dkeys_dset_None by done. rewrite elem_of_app, list_elem_of_singleton, elem_of_cons.
      intros [Hk| ->]; [|by left]. right. by apply Hb.
    - intros k o. rewrite dget_dset. case_decide; [intros [= <-]|intros Hk].
      + unfold has_state. cbn. by rewrite lookup_app_r, Nat.sub_diag by lia.
      + apply (has_state_app _ _ _ t); [by eapply bk_open|done].
    - intros k k' o. rewrite !dget_dset. repeat case_decide; subst; try done.
      + intros [= <-] Hk. specialize (Hlt _ _ Hk). lia.
      + intros Hk [= <-]. specialize (Hlt _ _ Hk). lia.
      + by apply Hb.
    - pose proof (bk_sum _ _ Hb). unfold Zlength in *. rewrite length_app. cbn.
      pose proof (f_equal length (dkeys_dset_None _ _ (length (objects t)) Hnew)) as E. unfold dkeys in E.
      rewrite length_app, !length_fmap in E. cbn in E. lia. }
  by rewrite (books_cleanup _ _ _ Hb').
Qed.

Lemma has_state_mark t o o' s s' :
  o ≠ o' → has_state t s o' = true →
  has_state (Tracker (mark (objects t) s' o) (requests t) (max_age t) (completed_count t)) s o' = true.
Proof.
  intros Hne. unfold has_state, mark. cbn. destruct (objects t !! o); [|done]. by rewrite list_lookup_insert_ne.
Qed.

Lemma books_end ids t rid success : books ids t → books ids (end_request t rid success).1.
Proof.
  intros Hb. unfold end_request. destruct (dget (requests t) rid) as [o|] eqn:Ho; [|done]. cbn [fst].
  constructor; cbn [requests objects completed_count].
  - apply dict_wf_ddel, Hb.
  - intros k. rewrite dkeys_ddel, list_elem_of_filter. intros [_ Hk]. by apply Hb.
  - intros k o'. rewrite dget_ddel. case_decide as Hk; [done|]. intros Ho'.
    apply (has_state_mark t); [|by eapply bk_open]. intros <-. apply Hk. by eapply bk_once.
  - intros k k' o'. rewrite !dget_ddel. repeat case_decide; try done. apply Hb.
  - pose proof (bk_sum _ _ Hb). pose proof (length_ddel (requests t) rid (bk_wf _ _ Hb) (mk_is_Some _ _ Ho)).
    unfold Zlength in *. rewrite length_mark. lia.
Qed.

(** The requests have been aborted, or the drain is over. *)
Definition past (d : drain H) : bool :=
  match d with
  | StoringAborted _ _ _ | StoringDrained _ _ | TellingForced _ _ | Forced | ArmingExit | Deadman _ _ | Ended | DrainDied => true
  | _ => false
  end.

(** There is one initiation, and the drain thread exists only after it. *)
Definition one_start cf : Prop :=
  (drainer cf = NoDrain ∨ start cf = Started) ∧ (start cf = NotStarting ↔ phase (coord cf) = RUNNING).

Lemma one_start_step cf m cf' : one_start cf → do_move cf m = Some cf' → one_start cf'.
Proof. intros [Hd Hs] Hm. unfold one_start. open_move cf m Hm; cbn in *; naive_solver congruence. Qed.

Definition open_books (ids : list string) cf : Prop :=
  one_start cf ∧ (past (drainer cf) = true ∨ ∀ t, tracker (coord cf) = Some t → books ids t).

Lemma past_step cf m cf' :
  one_start cf → past (drainer cf) = true → do_move cf m = Some cf' → past (drainer cf') = true.
Proof. intros [Hd Hs] Hp Hm. open_move cf m Hm; cbn in *; try done; naive_solver congruence. Qed.

Lemma open_books_step ids cf m cf' :
  open_books ids cf → (∀ rid, rid ∈ start_ids [m] → rid ∉ ids) → do_move cf m = Some cf' →
  open_books (start_ids [m] ++ ids) cf'.
Proof.
  intros [Hone [Hp|Hb]] Hnew Hm; (split; [by eapply one_start_step|]); [left; by eapply past_step|]. clear Hone.
  open_move cf m Hm; cbn in *; try (by left); right; intros t' [= <-] || intros t' Ht'; eauto.
  - apply (books_start _ _ t t); [by apply Hb|]. apply Hnew. by left.
  - by apply books_end, Hb.
Qed.

Lemma open_books_run ids cf ms cf' :
  open_books ids cf → NoDup (start_ids ms) → (∀ rid, rid ∈ start_ids ms → rid ∉ ids) → run cf ms = Some cf' →
  ∃ ids', open_books ids' cf' ∧ ∀ rid, rid ∈ ids' → rid ∈ ids ∨ rid ∈ start_ids ms.
Proof.
  revert ids cf. induction ms as [|m ms IH]; intros ids cf Hb Hnd Hnew; cbn [run]; [intros [= <-]; eauto|].
  destruct (do_move cf m) as [cf1|] eqn:Hm; cbn [mbind option_bind]; [|done]. intros Hrun.
  change (start_ids (m :: ms)) with (start_ids ([m] ++ ms)) in *. unfold start_ids in Hnd, Hnew. rewrite omap_app in Hnd, Hnew.
  fold (start_ids [m]) (start_ids ms) in Hnd, Hnew. apply NoDup_app in Hnd as (_ & Hdis & Hnd).
  destruct (IH (start_ids [m] ++ ids) cf1) as (ids' & Hb' & Hin); [|done| |done|].
  - eapply open_books_step; [done| |done]. intros rid Hrid. apply Hnew. set_solver.
  - intros rid Hrid. specialize (Hnew rid). specialize (Hdis rid). set_solver.
  - exists ids'. split; [done|]. intros rid Hrid. specialize (Hin rid Hrid). unfold start_ids. rewrite omap_app.
    fold (start_ids [m]) (start_ids ms). set_solver.
Qed.

Lemma object_count_run cf ms cf' :
  run cf ms = Some cf' → object_count cf' = object_count cf + Zlength (start_ids ms).
Proof.
  revert cf. induction ms as [|m ms IH]; intros cf; cbn [run]; [intros [= <-]; unfold Zlength; cbn; lia|].
  destruct (do_move cf m) as [cf1|] eqn:Hm; cbn [mbind option_bind]; [|done]. intros Hrun.
  rewrite (IH _ Hrun), (object_count_step _ _ _ Hm). change (start_ids (m :: ms)) with (start_ids ([m] ++ ms)).
  unfold start_ids. rewrite omap_app, Zlength_app. lia.
Qed.

(** About to take the final counts: on the clean and on the forced way. *)
Definition counts_next (d : drain H) : Prop := d = CountingDrained ∨ ∃ l, d = Aborting l.

(** The final counts are stored. *)
Definition settled (d : drain H) : bool :=
  match d with TellingDrained _ | TellingForced _ _ | Forced | ArmingExit | Deadman _ _ | Ended | DrainDied => true | _ => false end.

(** From the abort on, the counts are on their way to the coordinator. *)
Definition in_books (base n done : Z) cf : Prop :=
  one_start cf ∧ begun (handlers (coord cf)) base cf ∧
  match drainer cf with
  | StoringAborted _ n' done' => n' = n ∧ done' = done
  | StoringDrained _ done' => aborted_count (coord cf) = n ∧ done' = done
  | d => settled d = true ∧ aborted_count (coord cf) = n ∧ drained_count (coord cf) = done - base
  end.

Lemma in_books_step base n done cf m cf' : in_books base n done cf → do_move cf m = Some cf' → in_books base n done cf'.
Proof.
  intros (Hone & Hbeg & Hd) Hm. split; [by eapply one_start_step|].
  pose proof (begun_step _ _ _ _ _ Hbeg Hm) as (? & Hh & ?). split; [by repeat split|]. clear Hh.
  destruct Hone as [Hone _], Hbeg as (_ & _ & Hb).
  open_move cf m Hm; cbn in *; try done; first [by destruct Hd; congruence | destruct Hone; naive_solver congruence].
Qed.

Lemma begins_step cf m cf' :
  phase (coord cf) = RUNNING → drainer cf = NoDrain → do_move cf m = Some cf' → phase (coord cf') ≠ RUNNING →
  tracker (coord cf') = tracker (coord cf) ∧ completed_at_drain_start (coord cf') = completed (coord cf) ∧ start_ids [m] = [].
Proof. intros Hp Hd Hm Hp'. open_move cf m Hm; cbn in *; naive_solver congruence. Qed.

Lemma tracker_step cf m cf' : is_Some (tracker (coord cf)) → do_move cf m = Some cf' → is_Some (tracker (coord cf')).
Proof. intros Ht Hm. open_move cf m Hm; cbn in *; try done; by eexists. Qed.

Lemma tracker_run cf ms cf' : is_Some (tracker (coord cf)) → run cf ms = Some cf' → is_Some (tracker (coord cf')).
Proof. apply (run_keeps (λ cf, is_Some (tracker (coord cf)))). intros ???. apply tracker_step. Qed.

(** The books of a configuration whose requests are not aborted. *)
Lemma open_balance ids cf :
  open_books ids cf → past (drainer cf) = false → is_Some (tracker (coord cf)) →
  completed (coord cf) + pending_count (coord cf) = object_count cf.
Proof.
  intros [_ [Hp|Hb]] Hnp [t Ht]; [congruence|]. specialize (Hb t Ht). unfold completed, pending_count, pending, object_count.
  rewrite Ht. change (Zlength (get_pending_requests t)) with (get_pending_count t).
  rewrite (books_pending_count _ _ Hb). apply Hb.
Qed.

Lemma final_count_step cf r cf' n :
  one_start cf → begun (handlers (coord cf)) n cf → counts_next (drainer cf) → is_Some (tracker (coord cf)) →
  do_move cf (DrainStep r) = Some cf' →
  (∃ l, drainer cf = Aborting l) ∧ in_books n (pending_count (coord cf)) (completed (coord cf)) cf' ∨
  drainer cf = CountingDrained ∧ in_books n (aborted_count (coord cf)) (completed (coord cf)) cf'.
Proof.
  intros Hone Hbeg Hc [t Ht] Hm. pose proof (one_start_step _ _ _ Hone Hm) as Hone'.
  pose proof (begun_step _ _ _ _ _ Hbeg Hm) as (Hb1 & Hb2 & Hb3). destruct Hbeg as (_ & _ & Hb). unfold in_books, begun.
  unfold do_move, drain_step in Hm. destruct (exited cf); [done|]. destruct Hc as [Hc|[l Hc]]; rewrite Hc, Ht in Hm; cbn in Hm;
    injection Hm as <-; [right|left]; (split; [eauto|]); (split; [done|]); (split; [done|]); cbn;
    unfold completed, pending_count, pending; rewrite Ht; cbn; rewrite <- ?Hb; done.
Qed.

(** C17: The books of a shutdown balance: whatever starts and ends while it runs (request
    ids being distinct), the requests reported as drained and those left when the final
    count is taken (aborted, when the deadline forces it) are together exactly the
    requests that were in flight when the shutdown began and those started since; a
    request that ends while the count is taken is in one of the two. *)
Theorem shutdown_books_balance age timeout interval (h : option H) now ms1 cf1 m cf1' ms2 cf2 r ms3 cf3 :
  NoDup (start_ids (ms1 ++ ms2)) →
  run (initial (new_coordinator (Some (new_tracker age)) timeout interval h) now) ms1 = Some cf1 →
  is_accepting_requests (coord cf1) = true →
  do_move cf1 m = Some cf1' → is_accepting_requests (coord cf1') = false →
  run cf1' ms2 = Some cf2 → counts_next (drainer cf2) →
  run cf2 (DrainStep r :: ms3) = Some cf3 → settled (drainer cf3) = true →
  drained_count (coord cf3) + pending_count (coord cf2) = pending_count (coord cf1) + Zlength (start_ids ms2) ∧
  (drainer cf2 ≠ CountingDrained → aborted_count (coord cf3) = pending_count (coord cf2)).
Proof.
  unfold is_accepting_requests. intros Hnd H1 Hacc%bool_decide_eq_true Hm Hacc'%bool_decide_eq_false H2 Hc H3 Hset.
  unfold start_ids in Hnd. rewrite omap_app in Hnd. fold (start_ids ms1) (start_ids ms2) in Hnd.
  apply NoDup_app in Hnd as (Hnd1 & Hdis & Hnd2). set (cf0 := initial _ _) in H1.
  assert (open_books [] cf0) as Hb0.
  { split; [split; [by left|done]|]. right. intros t [= <-]. constructor; try done. apply dict_wf_nil. }
  assert (is_Some (tracker (coord cf1))) as Ht1 by (eapply tracker_run; [|exact H1]; by eexists).
  destruct (open_books_run _ _ _ _ Hb0 Hnd1 ltac:(set_solver) H1) as (ids1 & Hb1 & Hin1).
  assert (drainer cf1 = NoDrain) as Hd1.
  { destruct Hb1 as [[Hs Hn] _]. destruct Hs as [Hs|Hs]; [done|]. apply Hn in Hacc. congruence. }
  pose proof (open_balance _ _ Hb1 ltac:(by rewrite Hd1) Ht1) as E1.
  destruct (begins_step _ _ _ Hacc Hd1 Hm Hacc') as (Ht & Hbase & Hno).
  pose proof (open_books_step _ _ _ _ Hb1 ltac:(rewrite Hno; set_solver) Hm) as Hb1'. rewrite Hno in Hb1'. cbn in Hb1'.
  destruct (open_books_run _ _ _ _ Hb1' Hnd2 ltac:(intros rid Hr Hi%Hin1; set_solver) H2) as (ids2 & Hb2 & _).
  assert (is_Some (tracker (coord cf2))) as Ht2 by (eapply tracker_run; [|exact H2]; by rewrite Ht).
  pose proof (open_balance _ _ Hb2 ltac:(by destruct Hc as [-> |[? ->]]) Ht2) as E2.
  rewrite (object_count_run _ _ _ H2) in E2. unfold object_count in E2 at 1. rewrite Ht in E2. fold (object_count cf1) in E2.
  assert (begun (handlers (coord cf2)) (completed (coord cf1)) cf2) as Hbeg.
  { assert (begun (handlers (coord cf1')) (completed (coord cf1)) cf2) as (? & ? & ?); [|by repeat split].
    eapply run_keeps; [apply begun_step| |exact H2]. by repeat split. }
  cbn [run] in H3. destruct (do_move cf2 (DrainStep r)) as [cf2'|] eqn:Hm2; cbn [mbind option_bind] in H3; [|done].
  destruct (final_count_step _ _ _ _ (proj1 Hb2) Hbeg Hc Ht2 Hm2) as [[[l Hl] Hi]|[Hl Hi]];
    apply (run_keeps _ _ _ _ (in_books_step _ _ _) Hi) in H3 as (_ & _ & Hi');
    assert (aborted_count (coord cf3) = _ ∧ drained_count (coord cf3) = _) as [-> ->]
      by (destruct (drainer cf3); try discriminate Hset; exact (proj2 Hi')); (split; [lia|congruence]).
Qed.

(** *** What handlers are told *)

(** The second round of calls, so far. *)
Definition told (hs : list H) (d : drain H) (k : list (call H)) : Prop :=
  match d with
  | TellingDrained rest => ∃ done, hs = done ++ rest ∧ k = map OnDrainComplete done
  | TellingForced l rest => ∃ done, hs = done ++ rest ∧ k = map (λ h, OnForceShutdown h l) done
  | Forced => ∃ l, k = map (λ h, OnForceShutdown h l) hs
  | ArmingExit | Deadman _ _ | Ended => k = map OnDrainComplete hs ∨ ∃ l, k = map (λ h, OnForceShutdown h l) hs
  | DrainDied => ∃ done rest, hs = done ++ rest ∧ (k = map OnDrainComplete done ∨ ∃ l, k = map (λ h, OnForceShutdown h l) done)
  | _ => k = []
  end.

Definition call_log cf : Prop :=
  let hs := handlers (coord cf) in
  match start cf with
  | NotStarting => calls cf = []
  | Telling rest => ∃ done, hs = done ++ rest ∧ calls cf = map OnShutdownStart done
  | StarterDied => ∃ done rest, hs = done ++ rest ∧ calls cf = map OnShutdownStart done
  | Spawning => calls cf = map OnShutdownStart hs
  | Started => ∃ k, calls cf = map OnShutdownStart hs ++ k ∧ told hs (drainer cf) k
  end.

(** The phases that go with where the drain thread stands. *)
Definition phase_at (d : drain H) (p : ShutdownPhase) : bool :=
  match d, p with
  | NoDrain, (RUNNING | DRAINING) => true
  | (Setting | Top _ | Counting _ | Polling _ _ _ | Sleeping _ _ | Drained | TimedOut), DRAINING => true
  | (Collecting | Aborting _ | StoringAborted _ _ _ | StoringDrained _ _ | TellingForced _ _ | Forced), TERMINATING => true
  | (CountingDrained | TellingDrained _ | ArmingExit | Deadman _ _ | Ended), TERMINATED => true
  | DrainDied, (DRAINING | TERMINATING | TERMINATED) => true
  | _, _ => false
  end.

Definition phase_of_drain cf : Prop := one_start cf ∧ phase_at (drainer cf) (phase (coord cf)) = true.

Lemma phase_of_drain_step cf m cf' : phase_of_drain cf → do_move cf m = Some cf' → phase_of_drain cf'.
Proof.
  intros [Hone Hp] Hm. split; [by eapply one_start_step|]. destruct Hone as [Hd Hs].
  open_move cf m Hm; cbn in *; try done; try (by destruct (phase c)).
  all: try (match goal with E : phase _ = _ |- _ => rewrite ?E in * end; cbn in *).
  all: first [done | by destruct d | destruct Hd as [-> | ?]; [|done]; destruct (phase c); naive_solver].
Qed.

Lemma one_more {A} (f : H → A) (hs done rest : list H) h :
  hs = done ++ h :: rest → hs = (done ++ [h]) ++ rest ∧ map f done ++ [f h] = map f (done ++ [h]).
Proof. intros ->. by rewrite <- app_assoc, map_app. Qed.

Lemma told_forced hs before k h rest listed :
  told hs (TellingForced listed (h :: rest)) k →
  ∃ k', (before ++ k) ++ [OnForceShutdown h listed] = before ++ k' ∧ told hs (TellingForced listed rest) k'.
Proof.
  intros (done & Hdone & ->). destruct (one_more (λ h, OnForceShutdown h listed) _ _ _ _ Hdone) as [E1 E2].
  eexists. rewrite <- app_assoc, E2. split; [reflexivity|]. by exists (done ++ [h]).
Qed.

Lemma told_step cf r cf' before k :
  drain_step cf r = Some cf' → calls cf = before ++ k → told (handlers (coord cf)) (drainer cf) k →
  start cf' = start cf ∧ handlers (coord cf') = handlers (coord cf) ∧
  ∃ k', calls cf' = before ++ k' ∧ told (handlers (coord cf')) (drainer cf') k'.
Proof.
  intros Hm Hk Ht. destruct cf as [c st d f t ks fw se ex]. unfold drain_step in Hm. cbn in *. subst ks.
  repeat (case_match; simplify_eq/=); (split; [done|]); (split; [done|]); try (by exists []);
    try (by exists k; naive_solver); try (by exists []; split; [by rewrite ?app_nil_r|]; exists []).
  all: try (by exists k; split; [done|]; exists []).
  all: try (destruct Ht as (done & Hdone & ->); destruct (one_more OnDrainComplete _ _ _ _ Hdone) as [E1 E2];
    eexists; rewrite <- app_assoc, E2; (split; [reflexivity|]); naive_solver).
  - exists []. split; [done|]. exists [], (handlers c). naive_solver.
  - exists k. split; [done|]. left. destruct Ht as (done & -> & ->). by rewrite app_nil_r.
  - exists k. split; [done|]. exists listed. destruct Ht as (done & -> & ->). by rewrite app_nil_r.
  - by eapply told_forced.
  - by eapply told_forced.
  - destruct Ht as (done & Hdone & ->). destruct (one_more (λ h, OnForceShutdown h listed) _ _ _ _ Hdone) as [E1 E2].
    eexists. rewrite <- app_assoc, E2. split; [reflexivity|]. naive_solver.
Qed.

(** Every other thread leaves the calls and the drain alone; it may register handlers
    before the shutdown, and begin it. *)
Lemma quiet_step cf m cf' :
  one_start cf → do_move cf m = Some cf' → match m with StarterStep _ | DrainStep _ => False | _ => True end →
  calls cf' = calls cf ∧ drainer cf' = drainer cf ∧
  (start cf' = start cf ∧ (start cf ≠ NotStarting → handlers (coord cf') = handlers (coord cf)) ∨
   start cf = NotStarting ∧ start cf' = Telling (handlers (coord cf'))).
Proof.
  intros [Hd Hs] Hm Hq. open_move cf m Hm; try done; (split; [done|]); (split; [done|]); try (by left);
    try (right; split; [by apply Hs|done]).
  left. split; [done|]. intros Hst. exfalso. by apply Hst, Hs.
Qed.

Lemma call_log_step cf m cf' : one_start cf ∧ call_log cf → do_move cf m = Some cf' → one_start cf' ∧ call_log cf'.
Proof.
  intros [Hone Hl] Hm. split; [by eapply one_start_step|]. unfold call_log in *.
  destruct m; try (destruct (quiet_step _ _ _ Hone Hm I) as (Hk & Hd & [[Hst Hh]|[Hst Hst']]);
    [rewrite Hst, Hk, Hd; destruct (start cf) eqn:E; try done; by rewrite Hh|
     rewrite Hst', Hk; rewrite Hst in Hl; by exists []]).
  - unfold do_move, starter_step in Hm. destruct (exited cf); [done|]. destruct (start cf) as [|[|h hs]| | |]; simplify_eq/=.
    + destruct Hl as (done & -> & ->). by rewrite app_nil_r.
    + destruct Hl as (done & Hdone & ->). destruct (one_more OnShutdownStart _ _ _ _ Hdone) as [E1 E2].
      destruct r; rewrite E2; eauto.
    + rewrite Hl. exists []. by rewrite app_nil_r.
  - unfold do_move in Hm. destruct (exited cf); [done|]. destruct Hone as [[Hd|Hst] _].
    + unfold drain_step in Hm. by rewrite Hd in Hm.
    + rewrite Hst in Hl. destruct Hl as (k & Hk & Ht). destruct (told_step _ _ _ _ _ Hm Hk Ht) as (-> & -> & k' & -> & Ht').
      rewrite Hst. eauto.
Qed.

Lemma prefix_map {A} (f : H → A) (done rest : list H) : map f done `prefix_of` map f (done ++ rest).
Proof. exists (map f rest). apply map_app. Qed.

Lemma told_prefix hs d k :
  told hs d k → k `prefix_of` map OnDrainComplete hs ∨ ∃ l, k `prefix_of` map (λ h, OnForceShutdown h l) hs.
Proof.
  destruct d; cbn; try (intros ->; left; apply prefix_nil); intros Ht.
  - destruct Ht as (done & -> & ->). left. apply prefix_map.
  - destruct Ht as (done & -> & ->). right. eexists. apply prefix_map.
  - destruct Ht as [l ->]. by right; exists l.
  - destruct Ht as [-> |[l ->]]; [by left|by right; exists l].
  - destruct Ht as [-> |[l ->]]; [by left|by right; exists l].
  - destruct Ht as [-> |[l ->]]; [by left|by right; exists l].
  - destruct Ht as (done & rest & -> & [-> |[l ->]]); [left|right; exists l]; apply prefix_map.
Qed.

(** The rounds of calls a shutdown makes. *)
Definition clean_calls (hs : list H) : list (call H) := map OnShutdownStart hs ++ map OnDrainComplete hs.
Definition forced_calls (hs : list H) (l : list nat) : list (call H) :=
  map OnShutdownStart hs ++ map (λ h, OnForceShutdown h l) hs.

(** C18: Handlers are told once and in order, whoever initiates the shutdown and however
    often: at any time the calls made are the beginning of [on_shutdown_start] for every
    handler and then either [on_drain_complete] for every handler or
    [on_force_shutdown] for every handler, never a mixture, with all of them started
    before the drain begins; when the drain thread has ended all were made, whatever
    handlers raised, and the phase is TERMINATED. *)
Theorem handlers_told_once (c : coordinator H) now ms cf :
  phase c = RUNNING → run (initial c now) ms = Some cf →
  let hs := handlers (coord cf) in
  (calls cf `prefix_of` clean_calls hs ∨ ∃ l, calls cf `prefix_of` forced_calls hs l) ∧
  (drainer cf = Ended →
   phase (coord cf) = TERMINATED ∧ (calls cf = clean_calls hs ∨ ∃ l, calls cf = forced_calls hs l)).
Proof.
  intros Hp Hrun hs. assert (one_start (initial c now)) as H0 by (split; [by left|cbn; naive_solver]).
  assert (one_start cf ∧ call_log cf) as [Hone Hl].
  { revert Hrun. apply (run_keeps (λ cf, one_start cf ∧ call_log cf)); [exact call_log_step|done]. }
  assert (phase_of_drain cf) as [_ Hph].
  { revert Hrun. apply (run_keeps phase_of_drain); [exact phase_of_drain_step|]. split; [done|]. cbn. by rewrite Hp. }
  unfold call_log in Hl. fold hs in Hl. split.
  - destruct (start cf).
    + left. rewrite Hl. apply prefix_nil.
    + destruct Hl as (done & Hh & ->). left. unfold clean_calls. rewrite Hh. apply prefix_app_r, prefix_map.
    + left. rewrite Hl. by exists (map OnDrainComplete hs).
    + destruct Hl as (k & -> & Ht). destruct (told_prefix _ _ _ Ht) as [|[l ?]]; [left|right; exists l]; by apply prefix_app.
    + destruct Hl as (done & rest & Hh & ->). left. unfold clean_calls. rewrite Hh. apply prefix_app_r, prefix_map.
  - intros Hend. rewrite Hend in *. cbn in Hph. split; [by destruct (phase (coord cf))|].
    destruct Hone as [[?|Hst] _]; [congruence|]. rewrite Hst in Hl. destruct Hl as (k & -> & [-> |[l ->]]); eauto.
Qed.

(** *** The drain ends *)

(** Polls that fit in the time left. *)
Definition rounds (interval left : Z) : Z := (Z.max 0 left + interval - 1) / interval.

(** Steps from the head of the loop to the end, at most. *)
Definition loop_cost (n interval left : Z) : Z := (n + 4) * rounds interval left + n + 10.

Definition cost cf : Z :=
  let n := Zlength (handlers (coord cf)) in
  let loop left := loop_cost n (check_interval (coord cf)) left in
  let soon := clock cf + check_interval (coord cf) in
  match drainer cf with
  | NoDrain | Ended | DrainDied => 0
  | Setting => 1 + loop (drain_timeout (coord cf))
  | Top d => loop (d - clock cf)
  | Counting d => n + 3 + loop (d - soon)
  | Polling d _ hs => Zlength hs + 2 + loop (d - soon)
  | Sleeping d until => 1 + loop (d - Z.max (clock cf) until)
  | Drained | StoringDrained _ _ => n + 5
  | CountingDrained => n + 4
  | TellingDrained hs => Zlength hs + 3
  | TimedOut => n + 9
  | Collecting => n + 8
  | Aborting _ => n + 7
  | StoringAborted _ _ _ => n + 6
  | TellingForced _ hs => Zlength hs + 4
  | Forced => 3
  | ArmingExit => 2
  | Deadman _ _ => 1
  end.

Lemma rounds_mono i a b : 0 < i → a <= b → rounds i a <= rounds i b.
Proof. intros Hi Hab. unfold rounds. apply Z.div_le_mono; lia. Qed.

Lemma rounds_nonneg i a : 0 < i → 0 <= rounds i a.
Proof. intros Hi. unfold rounds. apply Z.div_pos; lia. Qed.

Lemma rounds_step i a : 0 < i → 0 < a → 1 + rounds i (a - i) <= rounds i a.
Proof.
  intros Hi Ha. unfold rounds. destruct (Z.le_gt_cases i a).
  - replace (Z.max 0 a + i - 1) with (Z.max 0 (a - i) + i - 1 + 1 * i) by lia. rewrite Z.div_add by lia. lia.
  - replace (Z.max 0 (a - i)) with 0 by lia. rewrite Z.div_small by lia. apply Z.div_le_lower_bound; lia.
Qed.

Lemma loop_cost_mono n i a b : 0 <= n → 0 < i → a <= b → loop_cost n i a <= loop_cost n i b.
Proof. intros Hn Hi Hab. pose proof (rounds_mono i a b Hi Hab). unfold loop_cost. nia. Qed.

Lemma loop_cost_step n i a : 0 <= n → 0 < i → 0 < a → n + 4 + loop_cost n i (a - i) <= loop_cost n i a.
Proof. intros Hn Hi Ha. pose proof (rounds_step i a Hi Ha). unfold loop_cost. nia. Qed.

Lemma loop_cost_low n i a : 0 <= n → 0 < i → n + 10 <= loop_cost n i a.
Proof. intros Hn Hi. pose proof (rounds_nonneg i a Hi). unfold loop_cost. nia. Qed.

Lemma cost_nonneg cf : 0 < check_interval (coord cf) → 0 <= cost cf.
Proof.
  intros Hi. unfold cost. pose proof (Zlength_nonneg (handlers (coord cf))) as Hn.
  pose proof (λ a, loop_cost_low _ _ a Hn Hi) as Hlow. destruct (drainer cf) as [| |d|d|d b hs|d u| | |hs| | | | | |l hs| | | | |];
    try (pose proof (Zlength_nonneg hs)); try lia.
  - specialize (Hlow (drain_timeout (coord cf))). lia.
  - specialize (Hlow (d - clock cf)). lia.
  - specialize (Hlow (d - (clock cf + check_interval (coord cf)))). lia.
  - specialize (Hlow (d - (clock cf + check_interval (coord cf)))). lia.
  - specialize (Hlow (d - Z.max (clock cf) u)). lia.
Qed.

Definition is_drain_step (m : move H) : bool := match m with DrainStep _ => true | _ => false end.

(** A step of the drain thread costs; its sleep passes in time. *)
Lemma cost_drain cf r cf' :
  0 < check_interval (coord cf) → drain_step cf r = Some cf' → cost cf' + 1 <= cost cf ∧ drainer cf' ≠ NoDrain.
Proof.
  intros Hi Hm. destruct cf as [c st d f t k fw se ex]. unfold drain_step in Hm. cbn in *.
  pose proof (Zlength_nonneg (handlers c)) as Hn. pose proof (λ a, loop_cost_low _ _ a Hn Hi) as Hlow.
  unfold cost. destruct d; cbn [drainer coord clock] in *;
    repeat match type of Hm with
    | context [match ?x with _ => _ end] => let E := fresh "E" in destruct x eqn:E
    end; simplify_eq/=; (split; [|try done]); try (unfold Zlength in *; cbn; lia).
  all: try (match goal with |- context [loop_cost ?n ?i ?a] => pose proof (Hlow a) end; unfold Zlength in *; cbn in *; lia).
  - replace (t + drain_timeout c - t) with (drain_timeout c) by lia. lia.
  - pose proof (loop_cost_step (Zlength (handlers c)) (check_interval c) (deadline - t) Hn Hi ltac:(lia)).
    replace (deadline - (t + check_interval c)) with (deadline - t - check_interval c) by lia. lia.
  - rewrite Z.max_r by lia. unfold Zlength. cbn. lia.
  - rewrite Z.max_r by lia. unfold Zlength. cbn. lia.
  - rewrite Z.max_l by lia. lia.
Qed.

Lemma cost_step cf m cf' :
  one_start cf → drainer cf ≠ NoDrain → 0 < check_interval (coord cf) → do_move cf m = Some cf' →
  cost cf' + (if is_drain_step m then 1 else 0) <= cost cf ∧ drainer cf' ≠ NoDrain ∧
  check_interval (coord cf') = check_interval (coord cf).
Proof.
  intros Hone Hd Hi Hm. assert (start cf = Started) as Hst by (by destruct Hone as [[?|?] _]).
  assert (check_interval (coord cf') = check_interval (coord cf)) as Hci by (clear -Hm; open_move cf m Hm; done).
  pose proof (Zlength_nonneg (handlers (coord cf))) as Hn. destruct (is_drain_step m) eqn:E.
  { destruct m; try done. unfold do_move in Hm. destruct (exited cf); [done|].
    destruct (cost_drain _ _ _ Hi Hm). done. }
  assert (drainer cf' = drainer cf) as Hd'.
  { clear Hci Hn. open_move cf m Hm; done. }
  assert (handlers (coord cf') = handlers (coord cf) ∧ drain_timeout (coord cf') = drain_timeout (coord cf) ∧
          clock cf <= clock cf') as (Hh & Ht & Hc).
  { clear Hci Hn Hd'. destruct Hone as [_ Hp]. open_move cf m Hm; repeat split; try done; try lia; naive_solver. }
  split; [|by rewrite Hd']. rewrite Z.add_0_r. unfold cost. rewrite Hd', Hh, Ht, Hci.
  destruct (drainer cf); try lia; try (apply Zplus_le_compat_l); apply loop_cost_mono; lia.
Qed.

Lemma cost_run cf ms cf' :
  one_start cf → drainer cf ≠ NoDrain → 0 < check_interval (coord cf) → run cf ms = Some cf' →
  cost cf' + countb is_drain_step ms <= cost cf ∧ drainer cf' ≠ NoDrain ∧ check_interval (coord cf') = check_interval (coord cf).
Proof.
  revert cf. induction ms as [|m ms IH]; intros cf Hone Hd Hi; cbn [run]; [intros [= <-]; unfold countb, Zlength; cbn; split; [lia|done]|].
  destruct (do_move cf m) as [cf1|] eqn:Hm; cbn [mbind option_bind]; [|done]. intros Hrun.
  destruct (cost_step _ _ _ Hone Hd Hi Hm) as (H1 & H2 & H3).
  destruct (IH cf1) as (H4 & H5 & H6); [by eapply one_start_step|done|lia|done|]. rewrite countb_cons. split; [lia|]. split; [done|lia].
Qed.

(** The time until the drain thread can go on. *)
Definition wake cf : Z :=
  match drainer cf with Sleeping _ until | Deadman _ until => Z.max 0 (until - clock cf) | _ => 0 end.

Lemma drain_goes_on cf r :
  exited cf = None → drainer cf ≠ NoDrain → drainer cf ≠ Ended → drainer cf ≠ DrainDied →
  is_Some (run cf [Tick (wake cf); DrainStep r]).
Proof.
  intros He H1 H2 H3. assert (0 <= wake cf) as Hw by (unfold wake; destruct (drainer cf); lia).
  unfold run, do_move. rewrite He, (proj2 (Z.leb_le _ _) Hw). cbn [mbind option_bind pass_time exited]. rewrite He.
  assert (is_Some (drain_step (pass_time cf (wake cf)) r)) as [cf' ->]; [|by eexists].
  unfold drain_step, wake in *. cbn. destruct (drainer cf); try done; repeat case_match; try done.
  all: match goal with E : (_ <=? _) = false |- _ => apply Z.leb_gt in E; lia end.
Qed.

(** C19: A drain ends: once started, the drain thread takes at most
    [(handlers + 4) * ceil(timeout / interval) + handlers + 11] steps, however requests,
    handlers and signals behave, and until it has ended (or a handler interrupted it) it
    can take another one, at once or when the time it sleeps has passed. *)
Theorem drain_ends (c : coordinator H) now ms cf ms' cf' :
  phase c = RUNNING → 0 < check_interval (coord cf) →
  run (initial c now) ms = Some cf → drainer cf = Setting → run cf ms' = Some cf' →
  let n := Zlength (handlers (coord cf)) in
  countb is_drain_step ms' <= (n + 4) * rounds (check_interval (coord cf)) (drain_timeout (coord cf)) + n + 11 ∧
  (exited cf' = None → drainer cf' = Ended ∨ drainer cf' = DrainDied ∨
     ∀ r, is_Some (run cf' [Tick (wake cf'); DrainStep r])).
Proof.
  intros Hp Hi Hrun Hd Hrun' n. assert (one_start cf) as Hone.
  { revert Hrun. apply (run_keeps one_start); [exact one_start_step|]. split; [by left|cbn; naive_solver]. }
  destruct (cost_run _ _ _ Hone ltac:(congruence) Hi Hrun') as (Hc & Hnd & Hci). split.
  - pose proof (cost_nonneg cf' ltac:(congruence)). unfold cost in Hc at 2. rewrite Hd in Hc. unfold loop_cost in Hc. lia.
  - intros He. destruct (drainer cf') eqn:E; try (by left); try (by right; left); try done; right; right; intros r;
      apply drain_goes_on; rewrite ?E; done.
Qed.

(** *** Process exit *)

Definition defers (m : move H) : bool := match m with Signal _ true _ => true | _ => false end.

(** Nothing is armed. *)
Definition unarmed cf : Prop :=
  exited cf = None ∧ exit_signum (coord cf) = None ∧ (∀ s u, drainer cf ≠ Deadman s u) ∧
  match frame cf with Taken _ d _ => d = false | _ => True end.

Lemma unarmed_step cf m cf' : unarmed cf → defers m = false → do_move cf m = Some cf' → unarmed cf'.
Proof.
  intros (He & Hs & Hd & Hf) Hm' Hm. unfold unarmed.
  open_move cf m Hm; cbn in *; repeat split; try done; try congruence; by destruct (Hd signum until).
Qed.

(** The coordinator ends the process only for a signal whose exit it owns: initiating
    by hand, or under a host's handler, never does. *)
Theorem exit_needs_signal (c : coordinator H) now ms cf :
  exit_signum c = None → Forall (λ m, defers m = false) ms → run (initial c now) ms = Some cf → exited cf = None.
Proof.
  intros Hs. assert (unarmed (initial c now)) as H0 by (by repeat split). revert H0. generalize (initial c now).
  induction ms as [|m ms IH]; intros cf0 H0 Hms; cbn [run]; [intros [= <-]; apply H0|].
  apply Forall_cons in Hms as [Hm Hms]. destruct (do_move cf0 m) as [cf1|] eqn:E; cbn [mbind option_bind]; [|done].
  apply IH; [by eapply unarmed_step|done].
Qed.
End theorems.

(** ** Signals *)

(** Handlers of Baldur's own between the coordinator and the tail do not change the
    verdict, and registering again changes nothing. *)
Lemma registration_idempotent self d : register_signal self (register_signal self d) = register_signal self d.
Proof.
  unfold register_signal. destruct (chain_contains_own_handler self d) eqn:E; [by rewrite E|].
  destruct (classify_signal_disposition d) eqn:C; rewrite ?E, ?C; try done; cbn; by rewrite bool_decide_true.
Qed.

(** An explicit ignore and a handler of an unknown owner stay in place. *)
Lemma registration_respects self d :
  classify_signal_disposition d = SKIP_IGNORED ∨ classify_signal_disposition d = SKIP_UNKNOWN → register_signal self d = d.
Proof. intros Hd. unfold register_signal. destruct (chain_contains_own_handler self d); [done|]. by destruct Hd as [-> | ->]. Qed.

(** ** Instances and observations *)

Definition demo : coordinator string := new_coordinator (Some (new_tracker (seconds 300))) (seconds 30) (seconds 1) (Some "leader").

Definition reach (ms : list (move string)) : config string := default (initial demo 0) (run (initial demo 0) ms).

Definition req (rid : string) : move string := StartRequest rid "/pay" "POST" [].
Definition ok : reply := Returns true.
Definition drains (n : nat) : list (move string) := repeat (DrainStep ok) n.

(** Two requests and a second handler; the shutdown begins; one request ends and one
    starts while it runs; the deadline passes. *)
Definition before : list (move string) := [req "a"; req "b"; RegisterHandler "bus"].
Definition meanwhile : list (move string) :=
  repeat (StarterStep ok) 4 ++ drains 3 ++ [EndRequest "a" true; req "c"] ++ drains 3 ++ [Tick (seconds 31)] ++ drains 4.
Definition final : list (move string) := EndRequest "b" true :: drains 6.

Lemma shutdown_books_balance_witness :
  let cf1 := reach before in
  let cf2 := reach (before ++ [Initiate] ++ meanwhile) in
  let cf3 := reach (before ++ [Initiate] ++ meanwhile ++ [DrainStep ok] ++ final) in
  drained_count (coord cf3) + pending_count (coord cf2) = pending_count (coord cf1) + Zlength (start_ids meanwhile) ∧
  (drainer cf2 ≠ CountingDrained → aborted_count (coord cf3) = pending_count (coord cf2)).
Proof.
  refine (shutdown_books_balance (seconds 300) (seconds 30) (seconds 1) (Some "leader") 0 before (reach before) Initiate
    (reach (before ++ [Initiate])) meanwhile (reach (before ++ [Initiate] ++ meanwhile)) ok final
    (reach (before ++ [Initiate] ++ meanwhile ++ [DrainStep ok] ++ final)) _ _ _ _ _ _ _ _ _).
  - apply (bool_decide_unpack _). vm_compute. exact I.
  - vm_compute. reflexivity.
  - vm_compute. reflexivity.
  - vm_compute. reflexivity.
  - vm_compute. reflexivity.
  - vm_compute. reflexivity.
  - right. exists [1; 2]%nat. vm_compute. reflexivity.
  - vm_compute. reflexivity.
  - vm_compute. reflexivity.
Defined.

(** The numbers of that run: one drained, two aborted, of two in flight and one started. *)
Example books_of_the_run :
  let cf3 := reach (before ++ [Initiate] ++ meanwhile ++ [DrainStep ok] ++ final) in
  drained_count (coord cf3) = 1 ∧ aborted_count (coord cf3) = 2 ∧ phase (coord cf3) = TERMINATED.
Proof. vm_compute. done. Qed.

Lemma handlers_told_once_witness :
  let cf := reach (before ++ [Initiate] ++ meanwhile ++ [DrainStep ok] ++ final ++ drains 1) in
  drainer cf = Ended ∧
  phase (coord cf) = TERMINATED ∧
  (calls cf = clean_calls (handlers (coord cf)) ∨ ∃ l, calls cf = forced_calls (handlers (coord cf)) l).
Proof.
  split; [vm_compute; reflexivity|].
  refine (proj2 (handlers_told_once demo 0 (before ++ [Initiate] ++ meanwhile ++ [DrainStep ok] ++ final ++ drains 1)
    (reach (before ++ [Initiate] ++ meanwhile ++ [DrainStep ok] ++ final ++ drains 1)) _ _) _).
  - reflexivity.
  - vm_compute. reflexivity.
  - vm_compute. reflexivity.
Defined.

Lemma drain_ends_witness :
  let cf := reach (before ++ [Initiate] ++ repeat (StarterStep ok) 4) in
  let ms := drop 4 meanwhile ++ [DrainStep ok] ++ final in
  countb is_drain_step ms <=
    (Zlength (handlers (coord cf)) + 4) * rounds (check_interval (coord cf)) (drain_timeout (coord cf)) +
    Zlength (handlers (coord cf)) + 11.
Proof.
  refine (proj1 (drain_ends demo 0 (before ++ [Initiate] ++ repeat (StarterStep ok) 4)
    (reach (before ++ [Initiate] ++ repeat (StarterStep ok) 4)) (drop 4 meanwhile ++ [DrainStep ok] ++ final)
    (reach (before ++ [Initiate] ++ meanwhile ++ [DrainStep ok] ++ final)) _ _ _ _ _)).
  - reflexivity.
  - vm_compute. reflexivity.
  - vm_compute. reflexivity.
  - vm_compute. reflexivity.
  - vm_compute. reflexivity.
Defined.

(** A request that was let in before the shutdown and is tracked after the count is
    missed: handlers are told that everything is drained while it is in flight. *)
Theorem clean_drain_misses_late_request :
  let cf := reach ([Initiate] ++ repeat (StarterStep ok) 3 ++ drains 3 ++ [req "late"] ++ drains 5) in
  calls cf = [OnShutdownStart "leader"; OnDrainComplete "leader"] ∧ phase (coord cf) = TERMINATED ∧
  pending_count (coord cf) = 1.
Proof. vm_compute. done. Qed.

(** The first signal after a shutdown that was initiated by hand has drained is
    swallowed: the exit is armed when nothing is left to perform it. *)
Theorem signal_after_drain_swallowed :
  let cf := reach ([Initiate] ++ repeat (StarterStep ok) 3 ++ drains 10 ++ [Signal SIGTERM true false] ++ repeat SignalStep 3) in
  drainer cf = Ended ∧ frame cf = Returned ∧ exit_signum (coord cf) = Some SIGTERM ∧ sent cf = [] ∧ exited cf = None.
Proof. vm_compute. done. Qed.

(** The requests handed to [on_force_shutdown] are listed before they are aborted: one
    that ends in between is on the list, although it completed. *)
Theorem forced_list_holds_completed :
  let cf := reach ([req "a"; Initiate] ++ repeat (StarterStep ok) 3 ++ drains 1 ++ [Tick (seconds 31)] ++ drains 3 ++
                   [EndRequest "a" true] ++ drains 5) in
  calls cf = [OnShutdownStart "leader"; OnForceShutdown "leader" [0%nat]] ∧ aborted_count (coord cf) = 0 ∧
  (req_state <$> (tracker (coord cf) ≫= λ t, objects t !! 0%nat)) = Some COMPLETED.
Proof. vm_compute. done. Qed.

(** A handler that is interrupted in [on_shutdown_start] leaves the shutdown without a
    drain thread: requests are refused and nothing ends the phase. *)
Theorem interrupted_start_never_drains {H : Type} (cf : config H) ms cf' :
  one_start cf → start cf = StarterDied → run cf ms = Some cf' → start cf' = StarterDied ∧ drainer cf' = NoDrain.
Proof.
  intros Hone Hst Hrun. assert (one_start cf' ∧ start cf' = StarterDied) as [[[Hd|Hs] _] Hs']; [|by split|congruence].
  revert Hrun. apply (run_keeps (λ cf, one_start cf ∧ start cf = StarterDied)); [|done]. clear. intros cf m cf' [Hone Hst] Hm.
  split; [by eapply one_start_step|]. destruct Hone as [_ Hp]. open_move cf m Hm; cbn in *; naive_solver.
Qed.
