(* ===== verification/CacheLock.v ===== *)
(** The locks of the in-memory cache ([InMemoryLock] of
    [adapters/cache/memory_adapter.py]) and the adapter's counters, list reads and key
    searches.  A lock is an object, its position among [lock_objects]; the registry of
    held locks is shared by every adapter of the process.  Each method holds the
    registry's lock and is one function; its clock reading is [now].  [acquire] makes
    such steps until it gets the lock or gives up, and other threads run between them.
    The glob matching of key patterns and [int()] on values that are no numbers are
    parameters. *)
From S2P Require Import Prelude MemoryCache.

(** ** Locks *)

Record InMemoryLock : Type := Lock {
  lock_name : string; lock_timeout : Z; blocking_timeout : option Z; owner_id : string; lock_acquired : bool;
  lock_expires_at : option Z }.

Record locks : Type := Locks { lock_objects : list InMemoryLock; lock_registry : dict string nat }.

(** [get_lock] of an adapter, with the owner id generated for it *)
Definition get_lock (l : locks) (c : memory_cache) (name : string) (timeout : Z) (blocking : option Z) (owner : string) :
    locks * nat :=
  (Locks (lock_objects l ++ [Lock (make_key c name) timeout blocking owner false None]) (lock_registry l),
   length (lock_objects l)).

(** [_is_expired] *)
Definition lock_expired (k : InMemoryLock) (now : Z) : bool :=
  match lock_expires_at k with None => true | Some t => t <? now end.

Definition set_lock (k : InMemoryLock) (acquired : bool) (expires : option Z) : InMemoryLock :=
  Lock (lock_name k) (lock_timeout k) (blocking_timeout k) (owner_id k) acquired expires.

(** The registered lock of a name. *)
Definition registered (l : locks) (name : string) : option InMemoryLock :=
  match dget (lock_registry l) name with Some i => lock_objects l !! i | None => None end.

(** One turn of [acquire]: the part under the registry's lock. *)
Definition try_lock (l : locks) (i : nat) (now : Z) : locks * bool :=
  match lock_objects l !! i with
  | None => (l, false)
  | Some k =>
      let free := match registered l (lock_name k) with Some k' => lock_expired k' now | None => true end in
      if free then
        (Locks (<[i := set_lock k true (Some (now + lock_timeout k))]> (lock_objects l))
           (dset (ddel (lock_registry l) (lock_name k)) (lock_name k) i), true)
      else (l, false)
  end.

Definition release_lock (l : locks) (i : nat) : locks :=
  match lock_objects l !! i with
  | None => l
  | Some k =>
      match registered l (lock_name k) with
      | Some k' =>
          if bool_decide (owner_id k' = owner_id k)
          then Locks (<[i := set_lock k false (lock_expires_at k)]> (lock_objects l)) (ddel (lock_registry l) (lock_name k))
          else l
      | None => Locks (<[i := set_lock k false (lock_expires_at k)]> (lock_objects l)) (lock_registry l)
      end
  end.

(** [locked] and [owned]: an expired lock is dropped when it is seen. *)
Definition locked (l : locks) (i : nat) (now : Z) : locks * bool :=
  match lock_objects l !! i with
  | None => (l, false)
  | Some k =>
      match registered l (lock_name k) with
      | None => (l, false)
      | Some k' =>
          if lock_expired k' now then (Locks (lock_objects l) (ddel (lock_registry l) (lock_name k)), false) else (l, true)
      end
  end.

Definition owned (l : locks) (i : nat) (now : Z) : locks * bool :=
  match lock_objects l !! i with
  | None => (l, false)
  | Some k =>
      match registered l (lock_name k) with
      | None => (l, false)
      | Some k' =>
          if lock_expired k' now then (Locks (lock_objects l) (ddel (lock_registry l) (lock_name k)), false)
          else (l, bool_decide (owner_id k' = owner_id k))
      end
  end.

Definition extend_lock (l : locks) (i : nat) (now additional : Z) : locks * bool :=
  match lock_objects l !! i with
  | None => (l, false)
  | Some k =>
      match registered l (lock_name k) with
      | Some k' =>
          if lock_expired k' now then (l, false)
          else if bool_decide (owner_id k' = owner_id k)
          then (Locks (<[i := set_lock k (lock_acquired k) (Some (now + additional))]> (lock_objects l)) (lock_registry l), true)
          else (l, false)
      | None => (l, false)
      end
  end.

Definition clear_all_locks (l : locks) : locks := Locks (lock_objects l) [].

Definition RETRY_SLEEP : Z := 10000.

(** The loop of [acquire]: turn [n] reads the clock at [turn n] and, to give up, at
    [check n]; [others n] is what other threads do while it sleeps. *)
Fixpoint acquire_loop (fuel : nat) (others : nat → locks → locks) (turn check : nat → Z) (blocking : bool)
    (stop : option Z) (i n : nat) (l : locks) : option (locks * bool) :=
  match fuel with
  | O => None
  | S fuel =>
      let '(l, got) := try_lock l i (turn n) in
      if got then Some (l, true)
      else if negb blocking then Some (l, false)
      else if match stop with Some s => s <=? check n | None => false end then Some (l, false)
      else acquire_loop fuel others turn check blocking stop i (S n) (others n l)
  end.

Definition stop_time (blocking : bool) (timeout : option Z) (k : InMemoryLock) (now : Z) : option Z :=
  if blocking then (λ t, now + t) <$> (match timeout with Some t => Some t | None => blocking_timeout k end) else None.

Definition acquire_lock (fuel : nat) (others : nat → locks → locks) (now : Z) (turn check : nat → Z) (blocking : bool)
    (timeout : option Z) (l : locks) (i : nat) : option (locks * bool) :=
  match lock_objects l !! i with
  | None => Some (l, false)
  | Some k => acquire_loop fuel others turn check blocking (stop_time blocking timeout k now) i 0 l
  end.

(** [flush_all] and [clear_all] of an adapter, the locks included *)
Definition flush_with_locks (c : memory_cache) (l : locks) : memory_cache * locks := (flush_all c, clear_all_locks l).
Definition clear_with_locks (c : memory_cache) (l : locks) : memory_cache * locks := (clear_all c, clear_all_locks l).

(** ** Counters, lists and searches *)

Section adapter.
  Context (py_int : cvalue → option Z).                (** [int(v)] where [v] is no number *)
  Context (fnmatch : string → string → bool).          (** [fnmatch(key, pattern)] *)

Definition int_value (v : cvalue) : option Z :=
  match v with CAtom (VInt z) => Some z | CAtom (VBool b) => Some (Z.b2z b) | _ => py_int v end.

(** [incr]; [None]: the value is no number and [int] raises. *)
Definition incr (now : Z) (c : memory_cache) (key : string) (amount : Z) : memory_cache * option Z :=
  match live_entry c now key with
  | None => (put_entry c now key (CAtom (VInt amount)) None, Some amount)
  | Some e =>
      match int_value (ce_value e) with
      | Some z =>
          (set_store c (dset (mc_store c) (make_key c key) (CacheEntry (CAtom (VInt (z + amount))) (ce_expires_at e))),
           Some (z + amount))
      | None => (c, None)
      end
  end.

Definition decr (now : Z) (c : memory_cache) (key : string) (amount : Z) : memory_cache * option Z := incr now c key (- amount).

(** [l[start:]], [l[start:end+1]]: negative positions count from the end. *)
Definition py_start {A} (start : Z) (l : list A) : nat :=
  if 0 <=? start then Z.to_nat start else (length l - Z.to_nat (- start))%nat.

Definition list_range (now : Z) (c : memory_cache) (key : string) (start end_ : Z) : list pyval :=
  match live_entry c now key with
  | Some (CacheEntry (CList l) _) => drop (py_start start l) (if end_ =? -1 then l else py_take (end_ + 1) l)
  | _ => []
  end.

Definition keys (now : Z) (c : memory_cache) (pattern : string) : memory_cache * list string :=
  let '(c, _) := cleanup_expired now c in
  let n := String.length (mc_key_prefix c) in
  (c, map (λ k, String.substring n (String.length k - n) k)
        (List.filter (λ k, fnmatch k (make_key c pattern)) (dkeys (mc_store c)))).

Definition scan (now : Z) (c : memory_cache) (pattern : string) (count : Z) : memory_cache * (Z * list string) :=
  let '(c, ks) := keys now c pattern in (c, (0, py_take count ks)).

Definition get_store_size (now : Z) (c : memory_cache) : memory_cache * Z :=
  let '(c, _) := cleanup_expired now c in (c, Zlength (mc_store c)).
End adapter.

(** ** Theorems *)

(** What threads do with locks. *)
Inductive lock_op : Type :=
  | GetLock (c : memory_cache) (name : string) (timeout : Z) (blocking : option Z) (owner : string)
  | TryLock (i : nat) (now : Z)
  | ReleaseLock (i : nat)
  | Locked (i : nat) (now : Z)
  | Owned (i : nat) (now : Z)
  | ExtendLock (i : nat) (now additional : Z).

Definition lock_step (l : locks) (o : lock_op) : locks :=
  match o with
  | GetLock c name timeout blocking owner => (get_lock l c name timeout blocking owner).1
  | TryLock i now => (try_lock l i now).1
  | ReleaseLock i => release_lock l i
  | Locked i now => (locked l i now).1
  | Owned i now => (owned l i now).1
  | ExtendLock i now additional => (extend_lock l i now additional).1
  end.

(** Lock [i] holds its name until [e], and no other lock has its owner id. *)
Record holds (l : locks) (i : nat) (k : InMemoryLock) (e : Z) : Prop := {
  ho_object : lock_objects l !! i = Some k;
  ho_registry : dget (lock_registry l) (lock_name k) = Some i;
  ho_expires : lock_expires_at k = Some e;
  ho_owner : ∀ j k', lock_objects l !! j = Some k' → owner_id k' = owner_id k → j = i }.

(** An operation of another thread: not by the holder's object, not with its owner id,
    and not after the expiry. *)
Definition by_others (i : nat) (k : InMemoryLock) (e : Z) (o : lock_op) : Prop :=
  match o with
  | GetLock _ _ _ _ owner => owner ≠ owner_id k
  | TryLock _ now | Locked _ now | Owned _ now => now <= e
  | ReleaseLock j => j ≠ i
  | ExtendLock j now _ => j ≠ i ∧ now <= e
  end.

Lemma holds_registered l i k e : holds l i k e → registered l (lock_name k) = Some k.
Proof. intros Hh. unfold registered. rewrite (ho_registry _ _ _ _ Hh). apply Hh. Qed.

Lemma holds_alive l i k e now : holds l i k e → now <= e → lock_expired k now = false.
Proof. intros Hh Hn. unfold lock_expired. rewrite (ho_expires _ _ _ _ Hh). by apply Z.ltb_ge. Qed.

(** Changing another object and other names keeps a hold. *)
Lemma holds_update l i k e j kj acquired expires r :
  holds l i k e → j ≠ i → lock_objects l !! j = Some kj →
  dget r (lock_name k) = Some i →
  holds (Locks (<[j := set_lock kj acquired expires]> (lock_objects l)) r) i k e.
Proof.
  intros [Ho Hr He Hw] Hne Hj Hr'. constructor; cbn; [by rewrite list_lookup_insert_ne|done|done|].
  intros j' k' Hj'. destruct (decide (j' = j)) as [->|Hjj].
  - rewrite list_lookup_insert_eq in Hj' by (by eapply lookup_lt_Some). injection Hj' as <-. cbn. by apply Hw.
  - rewrite list_lookup_insert_ne in Hj' by done. by apply Hw.
Qed.

(** A lock with another name does not touch the registry entry. *)
Lemma registry_other (r : dict string nat) name name' i j :
  name ≠ name' → dget r name = Some i → dget (ddel r name') name = Some i ∧ dget (dset (ddel r name') name' j) name = Some i.
Proof.
  intros Hne Hr. rewrite dget_dset_ne, dget_ddel_ne by done. done.
Qed.

Lemma holds_drop l i k e name :
  holds l i k e → name ≠ lock_name k → holds (Locks (lock_objects l) (ddel (lock_registry l) name)) i k e.
Proof. intros Hh Hne. constructor; try apply Hh. apply (registry_other _ _ _ i 0); [done|apply Hh]. Qed.

Lemma try_lock_refused l i k e j kj now :
  holds l i k e → now <= e → lock_objects l !! j = Some kj → lock_name kj = lock_name k → try_lock l j now = (l, false).
Proof.
  intros Hh Hn Hj Hname. unfold try_lock. rewrite Hj, Hname, (holds_registered _ _ _ _ Hh).
  by rewrite (holds_alive _ _ _ _ _ Hh Hn).
Qed.

Lemma holds_step l i k e o : holds l i k e → by_others i k e o → holds (lock_step l o) i k e.
Proof.
  intros Hh Ho. pose proof (holds_registered _ _ _ _ Hh) as Hreg. destruct o as [c name t b w|j now|j|j now|j now|j now a]; cbn in *.
  - constructor; cbn; [by apply lookup_app_l_Some, Hh|apply Hh|apply Hh|]. intros j k' [Hj|[? Hj]]%lookup_app_Some Hw.
    + by eapply ho_owner.
    + apply list_lookup_singleton_Some in Hj as [_ <-]. by destruct Ho.
  - destruct (lock_objects l !! j) as [kj|] eqn:Hj; [|unfold try_lock; by rewrite Hj].
    destruct (decide (lock_name kj = lock_name k)) as [En|En]; [by rewrite (try_lock_refused _ _ _ _ _ _ _ Hh Ho Hj En)|].
    unfold try_lock. rewrite Hj. cbv zeta.
    destruct (match registered l (lock_name kj) with Some k' => lock_expired k' now | None => true end); [|done]. cbn.
    assert (j ≠ i) as Hne by (intros ->; rewrite (ho_object _ _ _ _ Hh) in Hj; by injection Hj as ->).
    apply (holds_update _ _ _ _ _ _ _ _ _ Hh Hne Hj). apply registry_other; [done|apply Hh].
  - unfold release_lock. destruct (lock_objects l !! j) as [kj|] eqn:Hj; [|done].
    destruct (decide (lock_name kj = lock_name k)) as [En|En].
    + rewrite En, Hreg. rewrite bool_decide_false; [done|]. intros Hw. apply Ho. by eapply ho_owner.
    + destruct (registered l (lock_name kj)) as [k'|]; [case_bool_decide; [|done]|].
      * apply (holds_update _ _ _ _ _ _ _ _ _ Hh Ho Hj), (registry_other _ _ _ i 0); [done|apply Hh].
      * apply (holds_update _ _ _ _ _ _ _ _ _ Hh Ho Hj), Hh.
  - unfold locked. destruct (lock_objects l !! j) as [kj|] eqn:Hj; [|done].
    destruct (decide (lock_name kj = lock_name k)) as [En|En]; [rewrite En, Hreg, (holds_alive _ _ _ _ _ Hh Ho); done|].
    destruct (registered l (lock_name kj)) as [k'|]; [|done]. destruct (lock_expired k' now); [|done]. cbn.
    by apply holds_drop.
  - unfold owned. destruct (lock_objects l !! j) as [kj|] eqn:Hj; [|done].
    destruct (decide (lock_name kj = lock_name k)) as [En|En]; [rewrite En, Hreg, (holds_alive _ _ _ _ _ Hh Ho); done|].
    destruct (registered l (lock_name kj)) as [k'|]; [|done]. destruct (lock_expired k' now); [|done]. cbn.
    by apply holds_drop.
  - destruct Ho as [Hne Hn]. unfold extend_lock. destruct (lock_objects l !! j) as [kj|] eqn:Hj; [|done].
    destruct (registered l (lock_name kj)) as [k'|]; [|done]. destruct (lock_expired k' now); [done|].
    case_bool_decide; [|done]. cbn. apply (holds_update _ _ _ _ _ _ _ _ _ Hh Hne Hj), Hh.
Qed.

Definition distinct_owners (l : locks) : Prop :=
  ∀ i j k k', lock_objects l !! i = Some k → lock_objects l !! j = Some k' → owner_id k = owner_id k' → i = j.

Lemma try_lock_holds l i k now l1 :
  distinct_owners l → lock_objects l !! i = Some k → try_lock l i now = (l1, true) →
  holds l1 i (set_lock k true (Some (now + lock_timeout k))) (now + lock_timeout k).
Proof.
  intros Hd Hi. unfold try_lock. rewrite Hi. cbv zeta.
  destruct (match registered l (lock_name k) with Some k' => lock_expired k' now | None => true end); [|done]. intros [= <-].
  constructor; cbn; [by apply list_lookup_insert_eq; eapply lookup_lt_Some|by rewrite dget_dset_eq|done|].
  intros j k' Hj Hw. destruct (decide (j = i)) as [|Hne]; [done|]. rewrite list_lookup_insert_ne in Hj by done. by eapply Hd.
Qed.

(** A lock is exclusive: from the moment it is acquired until its timeout, whatever other
    threads do with locks of whatever name, owner ids being distinct, every attempt to
    acquire a lock of its name fails and its holder, and nobody else, owns it. *)
Theorem lock_exclusive l i k now l1 ops :
  distinct_owners l → lock_objects l !! i = Some k → try_lock l i now = (l1, true) →
  Forall (by_others i k (now + lock_timeout k)) ops →
  let l2 := foldl lock_step l1 ops in
  ∀ j kj t, lock_objects l2 !! j = Some kj → lock_name kj = lock_name k → t <= now + lock_timeout k →
    try_lock l2 j t = (l2, false) ∧ owned l2 j t = (l2, bool_decide (j = i)).
Proof.
  intros Hd Hi Ht Hops l2 j kj t Hj Hname Hle. pose proof (try_lock_holds _ _ _ _ _ Hd Hi Ht) as Hh.
  set (e := now + lock_timeout k) in *. set (k1 := set_lock k true (Some e)) in *.
  assert (holds l2 i k1 e) as Hh2.
  { unfold l2. clear Ht Hj l2. revert l1 Hh. induction ops as [|o ops IH]; intros l1 Hh; [done|].
    apply Forall_cons in Hops as [Ho Hops]. apply IH; [done|]. by apply holds_step. }
  split; [by eapply try_lock_refused|]. unfold owned. rewrite Hj, Hname.
  rewrite (holds_registered _ _ _ _ Hh2 : registered l2 (lock_name k) = Some k1), (holds_alive _ _ _ _ _ Hh2 Hle).
  f_equal. apply bool_decide_ext. split.
  - intros Hw. by eapply ho_owner.
  - intros ->. by rewrite (ho_object _ _ _ _ Hh2) in Hj; injection Hj as <-.
Qed.

(** A blocking acquisition with a timeout returns: if every sleep takes its 10 ms, it has
    the lock or gives up within one turn more than the timeout has sleeps and a last
    look, whatever other threads do meanwhile. *)
Theorem acquire_returns others now turn check t l i :
  0 <= t → now <= check 0%nat → (∀ n, check n + RETRY_SLEEP <= check (S n)) →
  is_Some (acquire_lock (S (S (Z.to_nat (t / RETRY_SLEEP)))) others now turn check true (Some t) l i).
Proof.
  intros Ht Hnow Hcheck. unfold acquire_lock. destruct (lock_objects l !! i) as [k|]; [|by eexists]. cbn [stop_time fmap option_fmap option_map].
  assert (∀ fuel n l, (1 <= fuel)%nat → now + t - check n <= RETRY_SLEEP * (Z.of_nat fuel - 1) →
    is_Some (acquire_loop fuel others turn check true (Some (now + t)) i n l)) as Hloop.
  { clear l Ht Hnow. induction fuel as [|fuel IH]; intros n l Hf Hs; [lia|]. cbn.
    destruct (try_lock l i (turn n)) as [l1 [|]]; [by eexists|]. cbn.
    destruct (Z.leb_spec (now + t) (check n)); [by eexists|]. specialize (Hcheck n). unfold RETRY_SLEEP in *.
    apply IH; lia. }
  apply Hloop; [lia|]. unfold RETRY_SLEEP in *. pose proof (Z.mul_succ_div_gt t 10000). pose proof (Z.div_pos t 10000). lia.
Qed.

(** A free lock, or one whose holder let it lapse, is taken at once. *)
Lemma free_lock_taken l i k now :
  lock_objects l !! i = Some k →
  (∀ k', registered l (lock_name k) = Some k' → lock_expired k' now = true) → (try_lock l i now).2 = true.
Proof.
  intros Hi Hfree. unfold try_lock. rewrite Hi. cbv zeta. destruct (registered l (lock_name k)) as [k'|]; [|done].
  by rewrite (Hfree k' eq_refl).
Qed.

(** A counter counts: while its entry lives, increments and decrements add up and keep
    its expiry. *)
Theorem counter_adds_up py_int now c key z e amounts :
  live_entry c now key = Some (CacheEntry (CAtom (VInt z)) e) →
  live_entry (foldl (λ c a, (incr py_int now c key a).1) c amounts) now key =
    Some (CacheEntry (CAtom (VInt (z + Zsum amounts))) e).
Proof.
  revert c z. induction amounts as [|a amounts IH]; intros c z Hl; cbn [foldl Zsum foldr]; [by rewrite Z.add_0_r|].
  fold (Zsum amounts). rewrite (IH _ (z + a)); [by rewrite <- Z.add_assoc|]. unfold incr. rewrite Hl. cbn.
  unfold live_entry, lookup_entry, set_store, make_key in *. cbn. rewrite dget_dset_eq.
  destruct (dget (mc_store c) _) as [e0|]; [|done]. destruct (is_expired e0 now) eqn:E; [done|].
  injection Hl as ->. unfold is_expired in *. cbn in *. by rewrite E.
Qed.

(** ** Instances and observations *)

Definition cache_a : memory_cache := MemoryCache "a:" [].
Definition cache_b : memory_cache := MemoryCache "b:" [].

(** Two locks of one name and one of another adapter. *)
Definition three_locks : locks :=
  foldl lock_step (Locks [] [])
    [GetLock cache_a "job" (seconds 10) None "o1"; GetLock cache_a "job" (seconds 10) None "o2";
     GetLock cache_b "job" (seconds 10) None "o3"].

Lemma three_locks_distinct : distinct_owners three_locks.
Proof.
  intros i j k k'. unfold three_locks. cbn.
  destruct i as [|[|[|i]]], j as [|[|[|j]]]; cbn; intros [= <-] [= <-] Hw; done.
Qed.

Lemma lock_exclusive_witness :
  let l2 := foldl lock_step (try_lock three_locks 0 0).1 [TryLock 1 (seconds 2); TryLock 2 (seconds 3); ReleaseLock 1] in
  try_lock l2 1 (seconds 5) = (l2, false) ∧ owned l2 1 (seconds 5) = (l2, bool_decide (1%nat = 0%nat)).
Proof.
  refine (lock_exclusive three_locks 0 (Lock "a:job" (seconds 10) None "o1" false None) 0 (try_lock three_locks 0 0).1
    [TryLock 1 (seconds 2); TryLock 2 (seconds 3); ReleaseLock 1] three_locks_distinct _ _ _ 1
    (Lock "a:job" (seconds 10) None "o2" false None) (seconds 5) _ _ _).
  - reflexivity.
  - vm_compute. reflexivity.
  - repeat constructor; vm_compute; done.
  - vm_compute. reflexivity.
  - reflexivity.
  - vm_compute. done.
Defined.

Lemma acquire_returns_witness :
  is_Some (acquire_lock 102 (λ _ l, l) 0 (λ n, 10000 * Z.of_nat n) (λ n, 10000 * Z.of_nat n) true (Some (seconds 1))
    (try_lock three_locks 0 0).1 1).
Proof.
  refine (acquire_returns (λ _ l, l) 0 (λ n, 10000 * Z.of_nat n) (λ n, 10000 * Z.of_nat n) (seconds 1)
    (try_lock three_locks 0 0).1 1 _ _ _).
  - vm_compute. done.
  - vm_compute. done.
  - intros n. unfold RETRY_SLEEP. lia.
Defined.

(** [flush_all] removes the keys of its own prefix and the locks of every adapter: a lock
    held through another one is free again although its timeout has not passed. *)
Theorem flush_frees_other_adapters :
  let l1 := (try_lock three_locks 2 0).1 in
  let l2 := (get_lock l1 cache_b "job" (seconds 10) None "o4").1 in
  (try_lock l2 3 1).2 = false ∧ (try_lock (flush_with_locks cache_a l2).2 3 1).2 = true.
Proof. vm_compute. done. Qed.

(** [scan] answers with cursor 0, which means that the scan is complete, and at most
    [count] keys: the others are never found. *)
Theorem scan_ends_early :
  let c := MemoryCache "" [("k1", CacheEntry (CAtom VNone) None); ("k2", CacheEntry (CAtom VNone) None)] in
  (scan (λ _ _, true) 0 c "*" 1).2 = (0, ["k1"]) ∧ (keys (λ _ _, true) 0 c "*").2 = ["k1"; "k2"].
Proof. vm_compute. done. Qed.
